(* ===== verification/_CoqProject ===== *)
-Q . S2P
Prelude.v
Types.v
Tables.v
Merkle.v
Reference.v
MerkleTree.v
MerkleRefinement.v
MerkleScan.v
MerkleMap.v
MerkleExamples.v
MerkleInterface.v
Dag.v
DagFacts.v
Namespace.v
NamespaceFacts.v
NamespaceHistory.v
NamespacePins.v
NamespaceRequests.v
NamespaceCheckpoints.v
NamespaceCommits.v
NamespaceClient.v
NamespaceReference.v
NamespaceExamples.v
KafkaModel.v
KafkaPartition.v
KafkaClients.v
KafkaExamples.v
Placement.v
PlacementFacts.v
PlacementExamples.v
Rsm.v
RsmFacts.v
RsmSteps.v
RsmMachines.v
RsmExamples.v
Commit.v
CommitFacts.v
CommitExamples.v
Pins.v
PinsFacts.v
Determinism.v
Consensus.v
ConsensusLog.v
ConsensusFacts.v
ConsensusExamples.v
Publication.v
PublicationFacts.v
Dataset.v
DatasetFacts.v
DatasetExamples.v
SqlitePages.v
SqlitePagesFacts.v
SqlitePageTable.v
SqliteBulk.v
SqliteValidation.v
SqliteExamples.v
DagHandlers.v
SqliteAdapter.v
SqliteInorder.v
SqliteFrontier.v
SqliteSnapshot.v
SqliteImages.v
SqliteImport.v
SqliteTransaction.v
SqliteImageExamples.v
SqliteProof.v
SqliteWriter.v
SqliteWriterFacts.v
DagRetention.v
DagExamples.v
PublicationExamples.v
SqlitePublishExamples.v
