(* ===== verification/Prelude.v ===== *)
(** * Pepper: a verification of its data structures and state machines

    Pepper stores content-addressed blocks on a cluster and builds maps,
    namespaces, logs and file systems on them.  This library models the crates
    that decide something - validate, search, update, order, elect, retain - as
    Rocq functions that can be run, and proves what their callers rely on.

    ** How the code is modelled

    - [Result] is [result]; a method on [&mut self] is a function in the monad
      [stm], which keeps what had been written when the method fails.  A method
      that works on a clone and swaps it in at the end is a function from the
      state to the next state.
    - Machine integers are [N] (or [Z] for signed ones); saturating, wrapping and
      checked operations and casts are written out at their width.
    - [BTreeMap] and [HashMap] are [gmap]; where the source iterates a [BTreeMap]
      the model iterates the entries sorted by key.
    - Async functions are modelled by their results.  Where tasks share state and
      their order matters, as in the read gate and the batcher of [Rsm], the code
      is a step relation with one constructor per atomic section, waiting and
      dropped calls included.  A panic is an error of its own, [Panicked].
    - Code outside the repository is an argument: the hash ([Blake3]), the
      hexadecimal codec ([Hex]), the serializer ([Json], [NamespaceJson]), the
      block store ([MerkleStore]), the signature check ([CommandAuthorizer]), the
      Raft library ([Openraft]) and the services of a node ([Services]).
      Law classes state what the code relies on of them, and [Reference] and
      [NamespaceReference] give instances that satisfy the laws, with which every
      operation runs.
    - The tables of the embedded database are maps from text keys to records;
      [Tables] has the scans by key and by prefix and what they return.  A write
      transaction takes place as a whole or not at all, and the errors of the
      database itself are left out.

    ** The parts

    - [Types] (crates/pepper-types): content identifiers, their digest and text
      form, the streaming verifier, and the object, erasure and directory
      manifests.
    - [Merkle] (crates/pepper-merkle): the persistent ordered radix map: reads,
      batches, bulk building, scans with cursors and validation over a block
      store.  [MerkleTree] is the mathematics of radix trees, [MerkleRefinement]
      and [MerkleScan] relate blocks to trees, [MerkleMap] states the contract on
      finite maps, [MerkleInterface] packs it as the class [OrderedMap] that
      clients are verified against.
    - [Namespace] (crates/pepper-namespace): versioned maps with transactions,
      snapshots, rollback, request deduplication, retention and checkpoints.
      [NamespaceFacts] refines commands to operations on maps and carries the
      invariant of the machine; [NamespaceHistory] is about rollback,
      [NamespacePins] about retention and pin intents, [NamespaceRequests] about
      the request table, [NamespaceCheckpoints] about saving and restarting,
      [NamespaceCommits] about the stored commits, [NamespaceClient] about
      transactions built by a client.
    - [KafkaModel] (crates/pepper-kafka-model): the design models of a replicated
      partition, an idempotent producer, a consumer group and a transaction.
      [KafkaPartition] proves the partition safe on every trace, [KafkaClients]
      treats the other three.
    - [Placement] (crates/pepper-placement): which nodes hold a block, the shards
      of a stripe or a namespace, and who repairs them.  [PlacementFacts] shows
      that choices are distinct, spread over the failure domains, independent of
      the order of the map, and stable when nodes come and go.
    - [Rsm] (crates/pepper-rsm): the runtime that hosts replicated state machines:
      storage scopes, batches and snapshots ([RsmFacts]), and the read gate and the
      batcher ([RsmSteps]), proved on every interleaving.  [RsmMachines]
      (pepper-kafka-model/src/rsm.rs) are two machines it hosts, and what their
      histories mean.
    - [SqlitePages] (crates/pepper-sqlite, format.rs and page_table.rs): the
      descriptors of databases, snapshots and pages, and the four-level radix table
      of pages: reads, bulk reads, transactions, truncation, bulk building and
      validation.  [SqlitePagesFacts] has sorted slices, prefixes and valid nodes,
      [SqlitePageTable] relates nodes to maps of pages and proves transactions and
      truncation, [SqliteBulk] bulk reads and the bulk builder, [SqliteValidation]
      what validation shows.
    - [SqliteAdapter], [SqliteProof] and [SqliteWriter] (crates/pepper-sqlite,
      page_table.rs, proof.rs and writer.rs): the table as an index of a dataset,
      proofs that a transaction changed the named pages only, and the
      coordinator that gives one writer at a time a ticket.  [SqliteWriterFacts]
      shows that commits form one line of heads, that a used ticket is fenced and
      that the books of the coordinator stay in order and bounded.
    - [SqliteSnapshot] (crates/pepper-sqlite, whole_file.rs, snapshot.rs and
      transaction.rs): the header check of a database file, import, export and the
      snapshot of a transaction.  [SqliteInorder] reads a table as its lists of pages
      and nodes and [SqliteFrontier] says which nodes an update shares with the old
      table; [SqliteImages] says when a snapshot stores an image and exports it,
      [SqliteImport] that an imported file is exported unchanged, and
      [SqliteTransaction] that a transaction changes the image as its dirty pages
      say and reports exactly the new blocks.
    - [Dag] (crates/pepper-dag): the registry of node kinds and the bounded
      traversal of a block graph; [DagHandlers] are the handlers of the crates
      above, [DagFacts] shows that a traversal ends with exactly the reachable
      blocks or an error, and [DagRetention] that what it retains of an ordered map
      or a page table is what reads of it need.
    - [Dataset] (crates/pepper-dataset): the cache of data set blocks with its
      leases, its eviction order and the packing of reads.  [DatasetFacts] shows
      the cache well formed after every operation, leased blocks kept and the
      reading plan complete.
    - [Commit] (crates/pepper-commit): the engine that takes a write through
      preparation, staging, durability, proposal, reconciliation and release, as a
      program over the calls of a product.  [CommitFacts] shows the protocol of its
      calls, that batches complete and that nothing that may have committed is
      unprotected, on every interleaving.
    - [Pins] (pepper-metadata's pin repository and the protection backend of
      pepper-agent/src/publication.rs): pins that protect blocks and the intents that
      change them.  [PinsFacts] compares a batch of intents with the intents one by
      one.
    - [Consensus] (crates/pepper-consensus, the storage of a group): the log in the
      tables, the state machine store with its block buffer, its intents and its
      snapshots.  [ConsensusLog] refines the log to an array of entries,
      [Determinism] shows that the namespace machine computes the same on every store
      that has the blocks, and [ConsensusFacts] that replicas agree, restarts lose
      nothing and snapshots carry the state.
    - [Publication] (crates/pepper-publication): leases, receipts and intents in the
      metadata database, the durability barrier and the workflow that the commit
      engine runs, on the tables of [Consensus] and the pins of [Pins].
      [PublicationFacts] shows that what is published is durable, and when entries that
      are applied again stop a node.
    - [MerkleExamples], [NamespaceExamples], [KafkaExamples], [PlacementExamples],
      [RsmExamples], [CommitExamples], [ConsensusExamples], [PublicationExamples],
      [DatasetExamples], [DagExamples], [SqliteExamples], [SqliteImageExamples] and
      [SqlitePublishExamples] run the models on concrete inputs: each theorem with
      hypotheses is applied there, and inputs on which the code misbehaves are
      evaluated.

    ** Fuel and bounds

    Recursion that is not structural carries a counter that the code has, too:
    depth and node limits in [Merkle].  Where the code has none, the counter is
    one that provably suffices: [prune_loop] makes as many rounds as there are
    records and [prune_exact] shows that more change nothing; [read_all_loop] has
    two rounds more than the entry limit, and [read_all_spec] shows that it always
    answers; [chunks] gets the length of its input.  In [Placement] the loops that
    fill a choice count the nodes still asked for.  The traversal of [Dag] has
    rounds from its own limits on nodes, and [traverse_correct] shows that they are
    enough; eviction in [Dataset] makes as many rounds as its order has entries, and
    eviction of acquisitions in [SqliteWriter] twice as many, since an entry that
    must stay is moved to the back once.  An import reads the file in as many rounds
    as it has packs, which [import_packs_spec] shows to be enough.  The step relations
    need no fuel; [work_left] and [pending] bound the steps to rest.

    ** What is not modelled

    The HTTP and peer services of the agent, the transports, the command line, the
    storage engine and the wrappers of SQLite and the cryptographic libraries are
    I/O around third-party code; the store contract [MerkleStoreLaws] is what the
    models assume of them.  Of pepper-consensus, the manager that creates and
    moves groups and routes requests is not modelled, and elections and replication
    are those of the Raft library.  Of pepper-metadata, opening and verifying the
    database is left out; of pepper-sqlite, the text of URIs and the messages of the
    local protocol.  The broker, bucket, file system, buffer and extent crates are
    not modelled. *)
From stdpp Require Import base gmap sets list strings sorting.
From Stdlib Require Import Strings.Byte.
From Stdlib Require Export Lia.

Declare Scope pepper_scope.
Delimit Scope pepper_scope with pepper.
Create HintDb pepper.

(** ** Results: Rust's [Result<A, E>] *)

Inductive result (E A : Type) : Type :=
| Ok (a : A)
| Err (e : E).
Arguments Ok {_ _} _.
Arguments Err {_ _} _.

#[export] Instance result_ret E : MRet (result E) := λ A a, Ok a.

(** The [?] operator: continue on [Ok], return the error otherwise. *)
#[export] Instance result_bind E : MBind (result E) := λ A B f m,
  match m with Ok a => f a | Err e => Err e end.

#[export] Instance result_eq_dec {E A} `{EqDecision E, EqDecision A} : EqDecision (result E A).
Proof. solve_decision. Defined.

Definition is_Ok {E A} (r : result E A) : bool :=
  match r with Ok _ => true | Err _ => false end.

(** [if c { return Err(e) }] *)
Definition fail_if {E} (c : bool) (e : E) : result E unit :=
  if c then Err e else Ok ().

(** [o.ok_or(e)?] *)
Definition ok_or {E A} (o : option A) (e : E) : result E A :=
  match o with Some a => Ok a | None => Err e end.

(** [r.map_err(f)?] *)
Definition map_err {E F A} (f : E → F) (r : result E A) : result F A :=
  match r with Ok a => Ok a | Err e => Err (f e) end.

(** ** Computations that update a state and may fail.  A failing computation
    keeps the state it had reached: Rust's [&mut self] methods do not roll
    back on an early return. *)

Definition stm (S E A : Type) : Type := S → result E A * S.

#[export] Instance stm_ret S E : MRet (stm S E) := λ A a s, (Ok a, s).

#[export] Instance stm_bind S E : MBind (stm S E) := λ A B f m s,
  match m s with
  | (Ok a, s') => f a s'
  | (Err e, s') => (Err e, s')
  end.

(** A step that neither reads nor writes the state. *)
Definition lift {S E A} (r : result E A) : stm S E A := λ s, (r, s).
(** A step that only reads the state. *)
Definition reads {S E A} (f : S → result E A) : stm S E A := λ s, (f s, s).

(** A step that only writes it. *)
Definition modify {S E} (f : S → S) : stm S E unit := λ s, (Ok (), f s).

(** A [for] loop with [?]: thread the accumulator, stop at the first error. *)
Fixpoint try_foldl {E A B} (f : A → B → result E A) (acc : A) (l : list B) : result E A :=
  match l with
  | [] => Ok acc
  | x :: l => acc ← f acc x; try_foldl f acc l
  end.

(** ** Machine integers.  Unsigned words are [N]; the width is written at each
    operation that can leave it. *)

Definition u8_max : N := 255.
Definition u16_max : N := 65535.
Definition u32_max : N := 4294967295.
Definition u64_max : N := 18446744073709551615.
Definition i64_max : Z := 9223372036854775807.
Definition i64_min : Z := -9223372036854775808.

Definition checked_add (max a b : N) : option N :=
  if (a + b <=? max)%N then Some (a + b)%N else None.
Definition checked_mul (max a b : N) : option N :=
  if (a * b <=? max)%N then Some (a * b)%N else None.
Definition saturating_add (max a b : N) : N := N.min max (a + b).
Definition saturating_mul (max a b : N) : N := N.min max (a * b).
(** [N.sub] already truncates at zero. *)
Definition saturating_sub (a b : N) : N := (a - b)%N.

Definition saturating_sub_i64 (a b : Z) : Z := Z.max i64_min (Z.min i64_max (a - b)).

(** [a + b] in a release build. *)
Definition wrapping_add (max a b : N) : N := ((a + b) mod (max + 1))%N.

(** [is_power_of_two] *)
Definition is_power_of_two (n : N) : bool := negb (n =? 0)%N && (N.land n (n - 1) =? 0)%N.

(** [v as i64] for a [u64]: two's complement reinterpretation. *)
Definition u64_as_i64 (v : N) : Z :=
  if (v <=? Z.to_N i64_max)%N then Z.of_N v else (Z.of_N v - 2 ^ 64)%Z.

Definition len {A} (l : list A) : N := N.of_nat (length l).

(** [slice.chunks(n)]; the length of the slice is enough rounds. *)
Fixpoint chunks {A} (rounds n : nat) (l : list A) : list (list A) :=
  match rounds, l with
  | O, _ | _, [] => []
  | S rounds, _ => take n l :: chunks rounds n (drop n l)
  end.

(** [vec.dedup()] *)
Fixpoint dedup {A} `{EqDecision A} (l : list A) : list A :=
  match l with
  | a :: (b :: _) as rest => if decide (a = b) then dedup rest else a :: dedup rest
  | _ => l
  end.

(** [option.is_some_and(p)] and [option.is_none_or(p)]. *)
Definition is_some_and {A} (p : A → bool) (o : option A) : bool :=
  match o with Some a => p a | None => false end.
Definition is_none_or {A} (p : A → bool) (o : option A) : bool :=
  match o with Some a => p a | None => true end.

(** ** Bytes and byte strings, ordered lexicographically as [u8] and [[u8]] are. *)

#[export] Instance byte_eq_dec : EqDecision byte := Byte.byte_eq_dec.

#[export] Program Instance byte_countable : Countable byte := {|
  encode b := encode (Byte.to_N b);
  decode p := decode p ≫= Byte.of_N
|}.
Next Obligation. intros b. cbn beta. rewrite decode_encode. apply Byte.of_to_N. Qed.

Abbreviation bytes := (list byte).

Fixpoint bytes_ltb (a b : bytes) : bool :=
  match a, b with
  | _, [] => false
  | [], _ :: _ => true
  | x :: a', y :: b' =>
      if (Byte.to_N x <? Byte.to_N y)%N then true
      else if (Byte.to_N x =? Byte.to_N y)%N then bytes_ltb a' b'
      else false
  end.

Definition bytes_lt (a b : bytes) : Prop := bytes_ltb a b = true.
Definition bytes_leb (a b : bytes) : bool := negb (bytes_ltb b a).

(** [value.starts_with(prefix)] *)
Fixpoint starts_with (prefix value : bytes) : bool :=
  match prefix, value with
  | [], _ => true
  | _ :: _, [] => false
  | x :: p, y :: v => if decide (x = y) then starts_with p v else false
  end.

(** The bytes of a Rust [String]. *)
Definition as_bytes (s : string) : bytes := String.list_byte_of_string s.
Definition slen (s : string) : N := len (as_bytes s).

(** [uN::from_be_bytes] *)
Definition from_be_bytes (bs : bytes) : N := foldl (λ acc b, acc * 256 + Byte.to_N b)%N 0%N bs.

(** A [BTreeMap] is a finite map; iterating it is in key order. *)
Definition btree_le {A} (x y : string * A) : Prop :=
  bytes_leb (as_bytes x.1) (as_bytes y.1) = true.

#[export] Instance btree_le_dec {A} (x y : string * A) : Decision (btree_le x y).
Proof. unfold btree_le. apply _. Defined.

Definition btree_iter {A} (m : gmap string A) : list (string * A) :=
  merge_sort btree_le (map_to_list m).

Definition bytes_key_le {A} (x y : bytes * A) : Prop := bytes_leb x.1 y.1 = true.

#[export] Instance bytes_key_le_dec {A} (x y : bytes * A) : Decision (bytes_key_le x y).
Proof. unfold bytes_key_le. apply _. Defined.

Definition bytes_iter {A} (m : gmap bytes A) : list (bytes * A) :=
  merge_sort bytes_key_le (map_to_list m).

Definition bytes_le (x y : bytes) : Prop := bytes_leb x y = true.

#[export] Instance bytes_le_dec (x y : bytes) : Decision (bytes_le x y).
Proof. unfold bytes_le. apply _. Defined.

Definition bytes_set_iter (x : gset bytes) : list bytes := merge_sort bytes_le (elements x).

(** [l.windows(2).any(|w| p(&w[0], &w[1]))] *)
Fixpoint windows_any {A} (p : A → A → bool) (l : list A) : bool :=
  match l with
  | x :: (y :: _) as tl => p x y || windows_any p tl
  | _ => false
  end.

(** Iteration of a [BTreeMap] or [BTreeSet] with integer keys. *)
Definition by_key {A} (x y : N * A) : Prop := (x.1 ≤ y.1)%N.

#[export] Instance by_key_dec {A} (x y : N * A) : Decision (by_key x y).
Proof. unfold by_key. apply _. Defined.

Definition map_iter {A} (m : gmap N A) : list (N * A) := merge_sort by_key (map_to_list m).
Definition set_iter (x : gset N) : list N := merge_sort N.le (elements x).

(** ** Lemmas on results and computations *)

Lemma Ok_inj {E A} (a b : A) : Ok (E := E) a = Ok b → a = b.
Proof. by intros [= ->]. Qed.

Lemma bind_Ok {E A B} (m : result E A) (f : A → result E B) b :
  (m ≫= f) = Ok b ↔ ∃ a, m = Ok a ∧ f a = Ok b.
Proof. destruct m; simpl; naive_solver. Qed.

Lemma bind_Err {E A B} (m : result E A) (f : A → result E B) e :
  (m ≫= f) = Err e ↔ m = Err e ∨ ∃ a, m = Ok a ∧ f a = Err e.
Proof. destruct m; simpl; naive_solver. Qed.

Lemma fail_if_Ok {E} c (e : E) u : fail_if c e = Ok u ↔ c = false.
Proof. destruct c, u; simpl; naive_solver. Qed.

Lemma fail_if_Err {E} c (e e' : E) : fail_if c e = Err e' ↔ c = true ∧ e = e'.
Proof. destruct c; simpl; naive_solver. Qed.

Lemma ok_or_Ok {E A} (o : option A) (e : E) a : ok_or o e = Ok a ↔ o = Some a.
Proof. destruct o; simpl; naive_solver. Qed.

Lemma ok_or_Err {E A} (o : option A) (e e' : E) : ok_or o e = Err e' ↔ o = None ∧ e = e'.
Proof. destruct o; simpl; naive_solver. Qed.

Lemma map_err_Ok {E F A} (f : E → F) (r : result E A) a : map_err f r = Ok a ↔ r = Ok a.
Proof. destruct r; simpl; naive_solver. Qed.

Lemma map_err_Err {E F A} (f : E → F) (r : result E A) e' :
  map_err f r = Err e' ↔ ∃ e, r = Err e ∧ f e = e'.
Proof. destruct r; simpl; naive_solver. Qed.

Lemma stm_bind_Ok {S E A B} (m : stm S E A) (f : A → stm S E B) s b s'' :
  (m ≫= f) s = (Ok b, s'') ↔ ∃ a s', m s = (Ok a, s') ∧ f a s' = (Ok b, s'').
Proof.
  unfold mbind, stm_bind. destruct (m s) as [[a|e] s'] eqn:Hm; naive_solver.
Qed.

Lemma stm_bind_Err {S E A B} (m : stm S E A) (f : A → stm S E B) s e s'' :
  (m ≫= f) s = (Err e, s'') ↔
  m s = (Err e, s'') ∨ ∃ a s', m s = (Ok a, s') ∧ f a s' = (Err e, s'').
Proof.
  unfold mbind, stm_bind. destruct (m s) as [[a|e'] s'] eqn:Hm; naive_solver.
Qed.

Lemma lift_inv {S E A} (r : result E A) (s s' : S) x :
  lift r s = (x, s') ↔ r = x ∧ s = s'.
Proof. unfold lift. naive_solver. Qed.

Lemma reads_inv {S E A} (f : S → result E A) (s s' : S) x :
  reads f s = (x, s') ↔ f s = x ∧ s = s'.
Proof. unfold reads. naive_solver. Qed.

Lemma try_foldl_app {E A B} (f : A → B → result E A) acc l k :
  try_foldl f acc (l ++ k) = try_foldl f acc l ≫= λ acc, try_foldl f acc k.
Proof.
  revert acc. induction l as [|x l IH]; intros acc; simpl; [done|].
  destruct (f acc x); simpl; auto.
Qed.

(** An invariant of the accumulator carries through a loop that completes. *)
Lemma try_foldl_inv {E A B} (P : A → Prop) (f : A → B → result E A) l acc acc' :
  (∀ a x a', x ∈ l → P a → f a x = Ok a' → P a') →
  P acc → try_foldl f acc l = Ok acc' → P acc'.
Proof.
  revert acc. induction l as [|x l IH]; simpl; intros acc Hf HP H.
  - by injection H as <-.
  - apply bind_Ok in H as (a & Ha & H). eapply (IH a); [|eapply (Hf acc x a); [apply list_elem_of_here|done|done]|done].
    intros b y b' Hy. apply Hf. by apply list_elem_of_further.
Qed.

(** [inv_ok] takes a successful run apart, one [?] at a time. *)
Ltac inv_ok_step :=
  match goal with
  | H : mbind _ _ = Ok _ |- _ => apply bind_Ok in H as (? & ? & H)
  | H : mbind _ _ _ = (Ok _, _) |- _ => apply stm_bind_Ok in H as (? & ? & ? & H)
  | H : lift _ _ = (_, _) |- _ => apply lift_inv in H as [H ?]
  | H : reads _ _ = (_, _) |- _ => apply reads_inv in H as [H ?]
  | H : fail_if _ _ = Ok _ |- _ => apply fail_if_Ok in H
  | H : ok_or _ _ = Ok _ |- _ => apply ok_or_Ok in H
  | H : map_err _ _ = Ok _ |- _ => apply map_err_Ok in H
  | H : mret _ = Ok _ |- _ => injection H as H
  | H : mret _ _ = (Ok _, _) |- _ => injection H as H
  | H : Err _ = Ok _ |- _ => discriminate H
  | H : (Err _, _) = (Ok _, _) |- _ => discriminate H
  end.
Ltac inv_ok := repeat inv_ok_step; simplify_eq.

(** ** Lemmas on machine integers *)

Lemma checked_add_Some max a b c :
  checked_add max a b = Some c ↔ c = (a + b)%N ∧ (a + b ≤ max)%N.
Proof.
  unfold checked_add. destruct (N.leb_spec (a + b) max); split; naive_solver lia.
Qed.

Lemma checked_add_None max a b : checked_add max a b = None ↔ (max < a + b)%N.
Proof.
  unfold checked_add. destruct (N.leb_spec (a + b) max); split; naive_solver lia.
Qed.

Lemma checked_mul_Some max a b c :
  checked_mul max a b = Some c ↔ c = (a * b)%N ∧ (a * b ≤ max)%N.
Proof.
  unfold checked_mul. destruct (N.leb_spec (a * b) max); split; naive_solver lia.
Qed.

Lemma saturating_add_bound max a b : (saturating_add max a b ≤ max)%N.
Proof. unfold saturating_add. lia. Qed.

Lemma saturating_add_exact max a b : (a + b ≤ max)%N → saturating_add max a b = (a + b)%N.
Proof. unfold saturating_add. lia. Qed.

Lemma len_nil {A} : len (A:=A) [] = 0%N.
Proof. done. Qed.

Lemma len_cons {A} (x : A) l : len (x :: l) = (len l + 1)%N.
Proof. unfold len. simpl. lia. Qed.

Lemma len_app {A} (l k : list A) : len (l ++ k) = (len l + len k)%N.
Proof. unfold len. rewrite length_app. lia. Qed.

#[export] Hint Rewrite @len_nil @len_cons @len_app : pepper.

(** ** Lists of pieces *)

Lemma concat_chunks {A} n (l : list A) rounds : (0 < n) → (length l ≤ rounds) → concat (chunks rounds n l) = l.
Proof.
  intros Hn. revert l. induction rounds as [|rounds IH]; intros l Hl; simpl.
  - by destruct l; simpl in *; [|lia].
  - destruct l as [|b l]; [done|]. cbn [concat]. rewrite IH; [apply take_drop|].
    rewrite length_drop. simpl in *. lia.
Qed.

Lemma chunks_even {A} (n k : nat) : ∀ rounds (l : list A),
  0 < n → length l = k * n → k ≤ rounds →
  concat (chunks rounds n l) = l ∧ length (chunks rounds n l) = k ∧ Forall (λ c, length c = n) (chunks rounds n l).
Proof.
  induction k as [|k IH]; intros rounds l Hn Hl Hr.
  { destruct l; [|done]. by destruct rounds. }
  destruct rounds as [|rounds]; [lia|]. destruct l as [|x l]; [cbn in Hl; lia|]. set (l' := x :: l) in *. cbn [chunks].
  change (match l' with [] => [] | _ :: _ => take n l' :: chunks rounds n (drop n l') end) with (take n l' :: chunks rounds n (drop n l')).
  destruct (IH rounds (drop n l')) as (Hc & Hk & Hf); [done|rewrite length_drop; lia|lia|].
  split_and!; [cbn; rewrite Hc; apply take_drop|cbn; by rewrite Hk|]. constructor; [rewrite length_take; lia|done].
Qed.

Lemma filter_all {A} (P : A → Prop) `{!∀ x, Decision (P x)} (l : list A) : Forall P l → filter P l = l.
Proof. induction 1 as [|x l Hx _ IH]; [done|]. by rewrite filter_cons_True, IH. Qed.

Lemma len_concat {A} (k : N) (pieces : list (list A)) : Forall (λ x, len x = k) pieces → len (concat pieces) = (len pieces * k)%N.
Proof. induction 1 as [|x l Hx _ IH]; [done|]. cbn. rewrite len_app, len_cons, IH. lia. Qed.

(** ** Lemmas on byte strings *)

Lemma byte_to_N_inj x y : Byte.to_N x = Byte.to_N y → x = y.
Proof.
  intros H. assert (Byte.of_N (Byte.to_N x) = Byte.of_N (Byte.to_N y)) as Heq by congruence.
  rewrite !Byte.of_to_N in Heq. congruence.
Qed.

Lemma bytes_ltb_irrefl a : bytes_ltb a a = false.
Proof.
  induction a as [|x a IH]; simpl; [done|].
  rewrite N.ltb_irrefl, N.eqb_refl. done.
Qed.

Lemma bytes_ltb_cons x a y b :
  bytes_ltb (x :: a) (y :: b) = true ↔
  (Byte.to_N x < Byte.to_N y)%N ∨ (x = y ∧ bytes_ltb a b = true).
Proof.
  simpl. destruct (N.ltb_spec (Byte.to_N x) (Byte.to_N y)); [naive_solver|].
  destruct (N.eqb_spec (Byte.to_N x) (Byte.to_N y)) as [Heq|Hne].
  - apply byte_to_N_inj in Heq as ->. naive_solver lia.
  - split; [done|]. intros [?|[-> ?]]; lia.
Qed.

Lemma bytes_lt_trans a b c : bytes_lt a b → bytes_lt b c → bytes_lt a c.
Proof.
  unfold bytes_lt. revert b c.
  induction a as [|x a IH]; intros [|y b] [|z c]; try done.
  rewrite !bytes_ltb_cons. intros [?|[-> ?]] [?|[-> ?]]; eauto; left; lia.
Qed.

Lemma bytes_lt_irrefl a : ¬ bytes_lt a a.
Proof. unfold bytes_lt. by rewrite bytes_ltb_irrefl. Qed.

Lemma bytes_lt_trichotomy a b : bytes_lt a b ∨ a = b ∨ bytes_lt b a.
Proof.
  unfold bytes_lt. revert b.
  induction a as [|x a IH]; intros [|y b]; auto.
  rewrite !bytes_ltb_cons.
  destruct (N.lt_trichotomy (Byte.to_N x) (Byte.to_N y)) as [?|[Heq|?]]; auto.
  apply byte_to_N_inj in Heq as ->. destruct (IH b) as [?|[->|?]]; auto.
Qed.

Lemma bytes_leb_spec a b : bytes_leb a b = true ↔ bytes_lt a b ∨ a = b.
Proof.
  unfold bytes_leb. rewrite negb_true_iff.
  destruct (bytes_lt_trichotomy a b) as [Hlt|[->|Hgt]].
  - split; [auto|]. intros _. destruct (bytes_ltb b a) eqn:E; [|done].
    destruct (bytes_lt_irrefl a). eapply bytes_lt_trans; eauto.
  - rewrite bytes_ltb_irrefl. naive_solver.
  - unfold bytes_lt in *. rewrite Hgt. split; [done|].
    intros [?| ->]; [|by rewrite bytes_ltb_irrefl in Hgt].
    destruct (bytes_lt_irrefl a). eapply bytes_lt_trans; eauto.
Qed.

Lemma bytes_lt_app_l p a b : bytes_lt (p ++ a) (p ++ b) ↔ bytes_lt a b.
Proof.
  unfold bytes_lt. induction p as [|x p IH]; simpl app; [done|].
  rewrite bytes_ltb_cons, IH. naive_solver lia.
Qed.

#[export] Instance bytes_lt_strict : StrictOrder bytes_lt.
Proof.
  split; [exact bytes_lt_irrefl|]. intros a b c. apply bytes_lt_trans.
Qed.

#[export] Instance bytes_lt_dec : RelDecision bytes_lt.
Proof. intros a b. unfold bytes_lt. apply _. Defined.

Lemma starts_with_spec p v : starts_with p v = true ↔ ∃ r, v = p ++ r.
Proof.
  revert v. induction p as [|x p IH]; intros [|y v]; simpl; try naive_solver.
  destruct (decide (x = y)) as [->|Hne].
  - rewrite IH. naive_solver.
  - split; [done|]. intros [r [=]]. done.
Qed.

Lemma starts_with_app p r : starts_with p (p ++ r) = true.
Proof. apply starts_with_spec. eauto. Qed.

#[export] Hint Resolve starts_with_app bytes_lt_irrefl : pepper.

(** A string between two strings that share a prefix shares it too. *)
Lemma bytes_sandwich p u k v :
  bytes_lt (p ++ u) k ∨ p ++ u = k → bytes_lt k (p ++ v) ∨ k = p ++ v → ∃ r, k = p ++ r.
Proof.
  revert k. induction p as [|x p IH]; intros k Hl Hr; [by exists k|].
  destruct k as [|y k]; [destruct Hl; done|]. simpl in *.
  assert (x = y ∧ ∃ r, k = p ++ r) as [-> [r ->]]; [|by exists r].
  unfold bytes_lt in *. rewrite !bytes_ltb_cons in Hl, Hr.
  destruct Hl as [[Hlt|[-> Hl]]|[= -> <-]].
  - exfalso. destruct Hr as [[?|[-> _]]|[= -> _]]; lia.
  - split; [done|]. apply IH; [by left|]. destruct Hr as [[?|[_ ?]]|[= ?]]; [lia|by left|by right].
  - split; [done|]. by eexists.
Qed.

Lemma StronglySorted_last {A} (R : relation A) l z :
  StronglySorted R l → last l = Some z → ∀ x, x ∈ l → x = z ∨ R x z.
Proof.
  induction 1 as [|a l Hs IH Ha]; [done|]. destruct l as [|b l].
  - intros [= ->] x Hx. apply list_elem_of_singleton in Hx. by left.
  - intros Hz x [->|Hx]%elem_of_cons; [|by apply IH].
    right. rewrite Forall_forall in Ha. apply Ha. change (last (b :: l) = Some z) in Hz.
    apply last_Some_elem_of in Hz. done.
Qed.

(** A loop without accumulator checks every element. *)
Lemma try_foldl_unit {E B} (f : unit → B → result E unit) l :
  try_foldl f () l = Ok () ↔ Forall (λ x, f () x = Ok ()) l.
Proof.
  induction l as [|x l IH]; simpl; [split; [constructor|done]|].
  rewrite bind_Ok, Forall_cons, <-IH. split; [intros ([] & ? & ?); done|]. intros [? ?]. by exists ().
Qed.

(** [for (i, x) in l.iter().enumerate()] with a check of the index. *)
Lemma try_foldl_enumerate {E B} (f : B → N) (e : E) (l : list B) (i : nat) :
  (∃ j, try_foldl (λ (i : nat) x, _ ← fail_if (negb (f x =? N.of_nat i)%N) e; Ok (S i)) i l = Ok j)
  ↔ ∀ k x, l !! k = Some x → f x = N.of_nat (i + k).
Proof.
  revert i. induction l as [|x l IH]; intros i; simpl; [split; [done|by eexists]|].
  destruct (N.eqb_spec (f x) (N.of_nat i)) as [Heq|Hne]; simpl.
  - rewrite IH. split.
    + intros Hl [|k] y; simpl; [intros [= <-]; by rewrite Nat.add_0_r|].
      intros Hy. rewrite (Hl k y Hy). lia.
    + intros Hl k y Hy. rewrite (Hl (S k) y Hy). lia.
  - split; [by intros [j ?]|]. intros Hl. specialize (Hl 0 x eq_refl). rewrite Nat.add_0_r in Hl. done.
Qed.

(** ** Lemmas on iteration *)

Lemma as_bytes_inj a b : as_bytes a = as_bytes b → a = b.
Proof.
  intros Heq. rewrite <-(String.string_of_list_byte_of_string a), <-(String.string_of_list_byte_of_string b).
  unfold as_bytes in Heq. by rewrite Heq.
Qed.

Lemma as_bytes_app s t : as_bytes (s +:+ t) = as_bytes s ++ as_bytes t.
Proof.
  induction s as [|c s IH]; [done|].
  change (Ascii.byte_of_ascii c :: as_bytes (s +:+ t) = Ascii.byte_of_ascii c :: as_bytes s ++ as_bytes t). by rewrite IH.
Qed.

Lemma elem_of_btree_iter {A} (m : gmap string A) k a : (k, a) ∈ btree_iter m ↔ m !! k = Some a.
Proof. unfold btree_iter. by rewrite merge_sort_Permutation, elem_of_map_to_list. Qed.

Lemma elem_of_dedup {A} `{EqDecision A} (l : list A) x : x ∈ dedup l ↔ x ∈ l.
Proof.
  induction l as [|a [|b l] IH]; [done|done|]. cbn [dedup]. destruct (decide (a = b)) as [->|Hne].
  - rewrite IH, !elem_of_cons. tauto.
  - by rewrite !(elem_of_cons _ _ a), IH.
Qed.

Lemma existsb_false_iff {A} (f : A → bool) l : existsb f l = false ↔ ∀ x, x ∈ l → f x = false.
Proof.
  induction l as [|a l IH]; simpl; [split; [by intros _ x []%elem_of_nil|done]|]. rewrite orb_false_iff, IH. split.
  - intros [Ha Hl] x [->|Hx]%elem_of_cons; auto.
  - intros Hf. split; [apply Hf; by left|]. intros x Hx. apply Hf. by right.
Qed.

Lemma map_iter_perm {A} (m : gmap N A) : map_iter m ≡ₚ map_to_list m.
Proof. apply merge_sort_Permutation. Qed.

Lemma map_iter_sorted {A} (m : gmap N A) : StronglySorted by_key (map_iter m).
Proof.
  apply Sorted_StronglySorted.
  - intros x y z. unfold by_key. lia.
  - apply Sorted_merge_sort. intros x y. unfold by_key. lia.
Qed.
