(* ===== verification/Types.v ===== *)
(** * Content identifiers and manifests (crates/pepper-types)

    [Cid], its digest preimage, its textual form, the streaming verifier, the
    placement references and the object, erasure and directory manifests. *)
From stdpp Require Import base gmap sets list strings sorting.
From Stdlib Require Import Strings.Byte Strings.Ascii.
From S2P Require Import Prelude.

(** ** Third-party operations the crate calls *)

(** blake3::Hasher *)
Class Blake3 := {
  hasher : Type;
  hasher_new : hasher;
  hasher_update : hasher → bytes → hasher;
  hasher_finalize : hasher → bytes
}.

(** Documented behaviour of the hasher: 32-byte digests, and feeding the input
    in pieces is feeding it at once. *)
Class Blake3Laws `{Blake3} : Prop := {
  finalize_length h : length (hasher_finalize h) = 32;
  update_stream chunks :
    hasher_finalize (foldl hasher_update hasher_new chunks)
    = hasher_finalize (hasher_update hasher_new (concat chunks))
}.

(** hex::encode and hex::decode; an error is its message. *)
Class Hex := {
  hex_encode : bytes → string;
  hex_decode : string → result string bytes
}.

(** ** Text of numbers in the Rust standard library *)

Definition digit_char (d : N) : ascii :=
  match String.get (N.to_nat d) "0123456789abcdef" with
  | Some c => c
  | None => "0"%char
  end.

(** [char::to_digit(base)] *)
Definition to_digit (base : N) (c : ascii) : option N :=
  let n := N_of_ascii c in
  let d :=
    if (48 <=? n)%N && (n <=? 57)%N then Some (n - 48)%N
    else if (97 <=? n)%N && (n <=? 122)%N then Some (n - 87)%N
    else if (65 <=? n)%N && (n <=? 90)%N then Some (n - 55)%N
    else None in
  match d with
  | Some v => if (v <? base)%N then Some v else None
  | None => None
  end.

Fixpoint fmt_go (base : N) (fuel : nat) (n : N) (acc : string) : string :=
  match fuel with
  | O => acc
  | S fuel =>
      let acc := String (digit_char (n mod base)) acc in
      if (n / base =? 0)%N then acc else fmt_go base fuel (n / base) acc
  end.

(** [format!("{n}")] for base 10, [format!("{n:x}")] for base 16.  A number has
    at most as many digits as bits. *)
Definition fmt_radix (base n : N) : string := fmt_go base (S (N.size_nat n)) n "".

Fixpoint zeros (n : nat) : string := match n with O => "" | S n => String "0"%char (zeros n) end.

(** [format!("{n:0width$}")] for base 10, [format!("{n:0width$x}")] for base 16 *)
Definition fmt_padded (base : N) (width : nat) (n : N) : string :=
  zeros (width - length (as_bytes (fmt_radix base n))) +:+ fmt_radix base n.

Inductive ParseIntError := PIE_Empty | PIE_InvalidDigit | PIE_PosOverflow.

Definition parse_int_error_text (e : ParseIntError) : string :=
  match e with
  | PIE_Empty => "cannot parse integer from empty string"
  | PIE_InvalidDigit => "invalid digit found in string"
  | PIE_PosOverflow => "number too large to fit in target type"
  end.

Fixpoint parse_go (base max acc : N) (s : string) : result ParseIntError N :=
  match s with
  | "" => Ok acc
  | String c s =>
      match to_digit base c with
      | None => Err PIE_InvalidDigit
      | Some d =>
          if (max <? acc * base)%N then Err PIE_PosOverflow
          else if (max <? acc * base + d)%N then Err PIE_PosOverflow
          else parse_go base max (acc * base + d) s
      end
  end.

(** [uN::from_str_radix(s, base)] with [max = uN::MAX]: an optional plus sign,
    then at least one digit. *)
Definition from_str_radix (base max : N) (s : string) : result ParseIntError N :=
  match s with
  | "" => Err PIE_Empty
  | String c "" =>
      if (decide (c = "+"%char)) then Err PIE_InvalidDigit
      else parse_go base max 0 s
  | String c rest =>
      if (decide (c = "+"%char)) then parse_go base max 0 rest
      else parse_go base max 0 s
  end.

(** [value.split(sep)]: always at least one piece. *)
Fixpoint split_on (sep : ascii) (s : string) : list string :=
  match s with
  | "" => [""]
  | String c s =>
      if decide (c = sep) then "" :: split_on sep s
      else match split_on sep s with
           | [] => [String c ""]
           | piece :: pieces => String c piece :: pieces
           end
  end.

Fixpoint strip_prefix (prefix s : string) : option string :=
  match prefix, s with
  | "", _ => Some s
  | String _ _, "" => None
  | String p prefix, String c s =>
      if decide (p = c) then strip_prefix prefix s else None
  end.

Fixpoint string_forallb (p : ascii → bool) (s : string) : bool :=
  match s with "" => true | String c s => p c && string_forallb p s end.

Definition string_any (p : ascii → bool) (s : string) : bool :=
  negb (string_forallb (λ c, negb (p c)) s).

Definition is_ascii_uppercase (c : ascii) : bool :=
  (65 <=? N_of_ascii c)%N && (N_of_ascii c <=? 90)%N.

(** ** Codecs and CIDs *)

Definition CID_VERSION : N := 1.

(** [pub struct Codec(pub u64)] *)
Abbreviation Codec := N.
Definition CODEC_RAW : Codec := 1.
Definition CODEC_OBJECT_MANIFEST : Codec := 2.
Definition CODEC_ERASURE_MANIFEST : Codec := 6.
Definition CODEC_MERKLE_NODE : Codec := 7.
Definition CODEC_NAMESPACE_DESCRIPTOR : Codec := 8.
Definition CODEC_NAMESPACE_CHECKPOINT : Codec := 9.
Definition CODEC_NAMESPACE_COMMIT : Codec := 10.
Definition CODEC_SMALL_OBJECT : Codec := 15.

Definition canonical_display (codec : Codec) : string := "0x" +:+ fmt_radix 16 codec.

Inductive HashAlg := Blake3Alg.

#[export] Instance HashAlg_eq_dec : EqDecision HashAlg.
Proof. solve_decision. Defined.

#[export] Instance HashAlg_countable : Countable HashAlg.
Proof. refine (inj_countable' (λ _, ()) (λ _, Blake3Alg) _). by intros []. Defined.

Definition HashAlg_code (h : HashAlg) : string := match h with Blake3Alg => "b3" end.

Record Cid := mkCid {
  version : N;
  codec : Codec;
  hash_alg : HashAlg;
  digest : bytes
}.

#[export] Instance Cid_eq_dec : EqDecision Cid.
Proof. solve_decision. Defined.

#[export] Instance Cid_countable : Countable Cid.
Proof.
  refine (inj_countable' (λ c, (version c, codec c, hash_alg c, digest c))
                         (λ '(v, k, h, d), mkCid v k h d) _).
  by intros [].
Defined.

Inductive CidParseError :=
| InvalidPrefix
| MissingPart (part : string)
| TooManyParts
| UnsupportedVersion (v : N)
| UnsupportedHashAlg (alg : string)
| InvalidCodec (msg : string)
| InvalidDigest (msg : string).

(** [encode_u64_varint]: seven bits per byte, the high bit set on all but the
    last.  A [u64] takes at most ten bytes. *)
Definition byte_of (n : N) : byte := default x00 (Byte.of_N (n mod 256)).

Fixpoint encode_varint_go (fuel : nat) (value : N) : bytes :=
  match fuel with
  | O => []
  | S fuel =>
      let byte := N.land value 127 in
      let value := N.shiftr value 7 in
      if (value =? 0)%N then [byte_of byte]
      else byte_of (N.lor byte 128) :: encode_varint_go fuel value
  end.
Definition encode_u64_varint (value : N) : bytes := encode_varint_go 10 value.

(** [u64::to_be_bytes] *)
Fixpoint be_bytes (n : nat) (value : N) : bytes :=
  match n with
  | O => []
  | S n => be_bytes n (value / 256) ++ [byte_of value]
  end.
Definition to_be_bytes (value : N) : bytes := be_bytes 8 value.

Section Cids.
Context `{Blake3} `{Hex}.

Definition compute_digest (version : N) (codec : Codec) (payload : bytes) : bytes :=
  let h := hasher_new in
  let h := hasher_update h [byte_of version] in
  let h := hasher_update h (encode_u64_varint codec) in
  let h := hasher_update h (to_be_bytes (len payload)) in
  let h := hasher_update h payload in
  hasher_finalize h.

Definition Cid_new (codec : Codec) (payload : bytes) : Cid :=
  mkCid CID_VERSION codec Blake3Alg (compute_digest CID_VERSION codec payload).

Definition Cid_verify (c : Cid) (payload : bytes) : bool :=
  (version c =? CID_VERSION)%N
  && bool_decide (hash_alg c = Blake3Alg)
  && bool_decide (compute_digest (version c) (codec c) payload = digest c).

Definition Cid_verify_segments (c : Cid) (segments : list bytes) : bool :=
  if negb (version c =? CID_VERSION)%N || negb (bool_decide (hash_alg c = Blake3Alg)) then false
  else
    match foldl (λ total segment,
                   total ≫= λ t, checked_add u64_max t (len segment)) (Some 0%N) segments with
    | None => false
    | Some size =>
        let h := hasher_new in
        let h := hasher_update h [byte_of (version c)] in
        let h := hasher_update h (encode_u64_varint (codec c)) in
        let h := hasher_update h (to_be_bytes size) in
        let h := foldl hasher_update h segments in
        bool_decide (hasher_finalize h = digest c)
    end.

Record CidStreamVerifier := mkVerifier {
  expected : Cid;
  expected_size : N;
  seen : N;
  sv_hasher : hasher;
  invalid : bool
}.

Definition stream_verifier (c : Cid) (size : N) : option CidStreamVerifier :=
  if negb (version c =? CID_VERSION)%N || negb (bool_decide (hash_alg c = Blake3Alg)) then None
  else
    let h := hasher_new in
    let h := hasher_update h [byte_of (version c)] in
    let h := hasher_update h (encode_u64_varint (codec c)) in
    let h := hasher_update h (to_be_bytes size) in
    Some (mkVerifier c size 0 h false).

Definition verifier_update (v : CidStreamVerifier) (chunk : bytes) : CidStreamVerifier :=
  match checked_add u64_max (seen v) (len chunk) with
  | None => mkVerifier (expected v) (expected_size v) (seen v) (sv_hasher v) true
  | Some s =>
      if (expected_size v <? s)%N
      then mkVerifier (expected v) (expected_size v) (seen v) (sv_hasher v) true
      else mkVerifier (expected v) (expected_size v) s (hasher_update (sv_hasher v) chunk) (invalid v)
  end.

Definition verifier_finish (v : CidStreamVerifier) : bool :=
  negb (invalid v)
  && (seen v =? expected_size v)%N
  && bool_decide (hasher_finalize (sv_hasher v) = digest (expected v)).

(** [Display for Cid] *)
Definition Cid_to_string (c : Cid) : string :=
  let version :=
    if (version c =? 1)%N then "pepper-v1" else "pepper-v" +:+ fmt_radix 10 (version c) in
  "cid://" +:+ version +:+ ":" +:+ canonical_display (codec c) +:+ ":"
    +:+ HashAlg_code (hash_alg c) +:+ ":" +:+ hex_encode (digest c).

Definition parse_version (value : string) : result CidParseError N :=
  number ← ok_or (strip_prefix "pepper-v" value) (InvalidDigest "version must be pepper-vN");
  map_err (λ e, InvalidDigest (parse_int_error_text e)) (from_str_radix 10 u8_max number).

Definition parse_codec (value : string) : result CidParseError Codec :=
  hex_value ← ok_or (strip_prefix "0x" value) (InvalidCodec "codec must use canonical 0x hex form");
  _ ← fail_if (bool_decide (hex_value = "")) (InvalidCodec "codec hex value must not be empty");
  _ ← fail_if (negb (bool_decide (hex_value = "0"))
               && is_some_and (λ c, bool_decide (c = "0"%char)) (String.get 0 hex_value))
        (InvalidCodec "codec hex value must not contain leading zeroes");
  _ ← fail_if (string_any is_ascii_uppercase hex_value)
        (InvalidCodec "codec hex value must be lowercase");
  map_err (λ e, InvalidCodec (parse_int_error_text e)) (from_str_radix 16 u64_max hex_value).

Definition HashAlg_from_str (value : string) : result CidParseError HashAlg :=
  if bool_decide (value = "b3") then Ok Blake3Alg else Err (UnsupportedHashAlg value).

(** [FromStr for Cid] *)
Definition Cid_from_str (value : string) : result CidParseError Cid :=
  rest ← ok_or (strip_prefix "cid://" value) InvalidPrefix;
  let parts := split_on ":"%char rest in
  v ← ok_or (parts !! 0) (MissingPart "version") ≫= parse_version;
  k ← ok_or (parts !! 1) (MissingPart "codec") ≫= parse_codec;
  h ← ok_or (parts !! 2) (MissingPart "hash_alg") ≫= HashAlg_from_str;
  digest_hex ← ok_or (parts !! 3) (MissingPart "digest");
  _ ← fail_if (bool_decide (is_Some (parts !! 4))) TooManyParts;
  _ ← fail_if (negb (v =? CID_VERSION)%N) (UnsupportedVersion v);
  digest_bytes ← map_err InvalidDigest (hex_decode digest_hex);
  d ← (if bool_decide (length digest_bytes = 32) then Ok digest_bytes
       else Err (InvalidDigest "digest must be 32 bytes"));
  Ok (mkCid v k h d).

End Cids.

(** ** Placement references *)

Inductive PlacementRole := Replicated | ErasureShardRole.

#[export] Instance PlacementRole_eq_dec : EqDecision PlacementRole.
Proof. solve_decision. Defined.

Record PlacementReference := mkPlacement {
  epoch : N;
  role : PlacementRole;
  seed : Cid;
  index : N;
  replicas : N
}.

Definition PlacementReference_replicated (epoch : N) (cid : Cid) (replicas : N) : PlacementReference :=
  mkPlacement epoch Replicated cid 0 replicas.
Definition PlacementReference_erasure_shard (epoch : N) (stripe_cid : Cid) (shard_index : N) : PlacementReference :=
  mkPlacement epoch ErasureShardRole stripe_cid shard_index 1.

Inductive PlacementReferenceError := InvalidBounds | InvalidRole.

Definition PlacementReference_validate (p : PlacementReference) : result PlacementReferenceError unit :=
  if (epoch p =? 0)%N || (replicas p =? 0)%N || (32 <? replicas p)%N then Err InvalidBounds
  else match role p with
       | Replicated => if (index p =? 0)%N then Ok () else Err InvalidRole
       | ErasureShardRole => if (replicas p =? 1)%N then Ok () else Err InvalidRole
       end.

Record DurabilityReceipt := mkReceipt {
  receipt_cid : Cid;
  receipt_placement : option PlacementReference;
  receipt_codec : Codec;
  receipt_size : N;
  replicas_accepted : N;
  replica_nodes : list string;
  receipt_status : string
}.

Record PlacedCid := mkPlacedCid { placed_cid : Cid; placed_placement : PlacementReference }.

Definition PlacedCid_new (cid : Cid) (placement : PlacementReference)
  : result PlacementReferenceError PlacedCid :=
  _ ← PlacementReference_validate placement;
  _ ← fail_if (bool_decide (role placement = Replicated)
               && negb (bool_decide (seed placement = cid))) InvalidRole;
  Ok (mkPlacedCid cid placement).

(** ** Manifests *)

Inductive ManifestError :=
| InvalidChunkLayout
| InvalidErasureLayout
| InvalidPath (path : string)
| EntriesNotSorted
| InvalidDirectoryEntry (path : string).

Record ObjectChunk := mkChunk {
  chunk_offset : N;
  chunk_len : N;
  chunk_cid : Cid;
  chunk_placement : PlacementReference
}.

Record ObjectManifest := mkObjectManifest {
  om_size : N;
  om_chunk_size : N;
  om_chunks : list ObjectChunk
}.

(** The body of the loop over the chunks: the new value of [expected]. *)
Definition ObjectManifest_check_chunk (m : ObjectManifest) (expected : N) (chunk : ObjectChunk)
  : result ManifestError N :=
  _ ← fail_if (negb (chunk_offset chunk =? expected)%N
               || (chunk_len chunk =? 0)%N
               || (om_chunk_size m <? chunk_len chunk)%N
               || negb (codec (chunk_cid chunk) =? CODEC_RAW)%N
               || negb (bool_decide (seed (chunk_placement chunk) = chunk_cid chunk))
               || negb (is_Ok (PlacementReference_validate (chunk_placement chunk)))
               || negb (bool_decide (role (chunk_placement chunk) = Replicated)))
        InvalidChunkLayout;
  ok_or (checked_add u64_max expected (chunk_len chunk)) InvalidChunkLayout.

Definition ObjectManifest_validate (m : ObjectManifest) : result ManifestError unit :=
  _ ← fail_if (om_chunk_size m =? 0)%N InvalidChunkLayout;
  _ ← fail_if ((om_size m =? 0)%N && negb (bool_decide (om_chunks m = []))) InvalidChunkLayout;
  expected ← try_foldl (ObjectManifest_check_chunk m) 0%N (om_chunks m);
  fail_if (negb (expected =? om_size m)%N) InvalidChunkLayout.

Record ErasureShard := mkShard {
  shard_index : N;
  shard_cid : Cid;
  shard_bytes : N;
  shard_placement : PlacementReference
}.

Inductive ErasureStripeEncoding := Raw | Zstd.

#[export] Instance ErasureStripeEncoding_eq_dec : EqDecision ErasureStripeEncoding.
Proof. solve_decision. Defined.

Record ErasureStripe := mkStripe {
  stripe_offset : N;
  stripe_len : N;
  logical_cid : Cid;
  encoding : ErasureStripeEncoding;
  encoded_size : N;
  shard_size : N;
  shards : list ErasureShard
}.

Record ErasureManifest := mkErasureManifest {
  em_size : N;
  data_shards : N;
  parity_shards : N;
  stripe_size : N;
  stripes : list ErasureStripe
}.

(** [u64::div_ceil]; a zero divisor never reaches it. *)
Definition div_ceil (a b : N) : N := (a / b + (if a mod b =? 0 then 0 else 1))%N.

(** One shard of a stripe at its position; [seen] is the slot array, which the
    first guard keeps in range. *)
Definition ErasureManifest_check_shard (total : N) (stripe : ErasureStripe)
    (st : N * list bool) (shard : ErasureShard) : result ManifestError (N * list bool) :=
  let '(position, seen) := st in
  _ ← fail_if ((total <=? shard_index shard)%N
               || negb (shard_index shard =? position)%N
               || negb (shard_bytes shard =? shard_size stripe)%N
               || negb (codec (shard_cid shard) =? CODEC_RAW)%N
               || negb (bool_decide (seed (shard_placement shard) = logical_cid stripe))
               || negb (index (shard_placement shard) =? shard_index shard)%N
               || negb (is_Ok (PlacementReference_validate (shard_placement shard)))
               || negb (bool_decide (role (shard_placement shard) = ErasureShardRole)))
        InvalidErasureLayout;
  seen_slot ← ok_or (seen !! N.to_nat (shard_index shard)) InvalidErasureLayout;
  _ ← fail_if seen_slot InvalidErasureLayout;
  Ok ((position + 1)%N, <[N.to_nat (shard_index shard) := true]> seen).

Definition ErasureManifest_check_stripe (m : ErasureManifest) (total : N)
    (expected_offset : N) (stripe : ErasureStripe) : result ManifestError N :=
  let expected_shard_size := div_ceil (encoded_size stripe) (data_shards m) in
  _ ← fail_if (negb (stripe_offset stripe =? expected_offset)%N
               || (stripe_len stripe =? 0)%N
               || (stripe_size m <? stripe_len stripe)%N
               || (encoded_size stripe =? 0)%N
               || (stripe_len stripe <? encoded_size stripe)%N
               || negb (codec (logical_cid stripe) =? CODEC_RAW)%N
               || (bool_decide (encoding stripe = Raw)
                   && negb (encoded_size stripe =? stripe_len stripe)%N)
               || (bool_decide (encoding stripe = Zstd)
                   && (stripe_len stripe <=? encoded_size stripe)%N)
               || negb (shard_size stripe =? expected_shard_size)%N
               || negb (len (shards stripe) =? total)%N)
        InvalidErasureLayout;
  _ ← try_foldl (ErasureManifest_check_shard total stripe)
        (0%N, replicate (N.to_nat total) false) (shards stripe);
  ok_or (checked_add u64_max expected_offset (stripe_len stripe)) InvalidErasureLayout.

Definition ErasureManifest_validate (m : ErasureManifest) : result ManifestError unit :=
  _ ← fail_if ((data_shards m =? 0)%N || (parity_shards m =? 0)%N
               || (data_shards m <? parity_shards m)%N || (stripe_size m =? 0)%N)
        InvalidErasureLayout;
  let total := saturating_add u16_max (data_shards m) (parity_shards m) in
  _ ← fail_if ((32 <? total)%N
               || negb (Bool.eqb (em_size m =? 0)%N (bool_decide (stripes m = []))))
        InvalidErasureLayout;
  expected_offset ← try_foldl (ErasureManifest_check_stripe m total) 0%N (stripes m);
  fail_if (negb (expected_offset =? em_size m)%N) InvalidErasureLayout.

Record DirEntry := mkDirEntry {
  path : string;
  kind : string;
  mode : N;
  entry_size : option N;
  entry_cid : option Cid
}.

Definition path_is_invalid (p : string) : bool :=
  bool_decide (p = "")
  || is_some_and (λ c, bool_decide (c = "/"%char)) (String.get 0 p)
  || string_any (λ c, bool_decide (c = "\"%char)) p
  || existsb (λ part, bool_decide (part = "..") || bool_decide (part = ".") || bool_decide (part = ""))
       (split_on "/"%char p).

Definition DirManifest_check_entry (previous : option string) (entry : DirEntry)
  : result ManifestError (option string) :=
  _ ← fail_if (negb (N.land (mode entry) (N.lxor u32_max 511) =? 0)%N)
        (InvalidDirectoryEntry (path entry));
  _ ← fail_if (path_is_invalid (path entry)) (InvalidPath (path entry));
  _ ← fail_if (is_some_and (λ previous, bytes_leb (as_bytes (path entry)) (as_bytes previous)) previous)
        EntriesNotSorted;
  _ ← (if bool_decide (kind entry = "file") then
         fail_if (negb (bool_decide (is_Some (entry_size entry)))
                  || negb (is_some_and (λ c, (codec c =? CODEC_RAW)%N
                                             || (codec c =? CODEC_OBJECT_MANIFEST)%N
                                             || (codec c =? CODEC_ERASURE_MANIFEST)%N
                                             || (codec c =? CODEC_SMALL_OBJECT)%N) (entry_cid entry)))
           (InvalidDirectoryEntry (path entry))
       else if bool_decide (kind entry = "directory") then
         fail_if (bool_decide (is_Some (entry_cid entry)) || bool_decide (is_Some (entry_size entry)))
           (InvalidDirectoryEntry (path entry))
       else Err (InvalidDirectoryEntry (path entry)));
  Ok (Some (path entry)).

Definition DirManifest_validate (entries : list DirEntry) : result ManifestError unit :=
  _ ← try_foldl DirManifest_check_entry None entries;
  Ok ().

(** * Theorems *)

(** ** Numbers and text *)

(** The lower-case digits of a byte string, the documented output of the hex
    crate, and the strings it decodes: an even number of digits of either case. *)
Fixpoint hex_lower (bs : bytes) : string :=
  match bs with
  | [] => ""
  | b :: bs =>
      String (digit_char (Byte.to_N b / 16))
        (String (digit_char (Byte.to_N b mod 16)) (hex_lower bs))
  end.

Fixpoint hex_parse (s : string) : option bytes :=
  match s with
  | "" => Some []
  | String a (String b s) =>
      match to_digit 16 a, to_digit 16 b, hex_parse s with
      | Some x, Some y, Some bs => Some (byte_of (x * 16 + y) :: bs)
      | _, _, _ => None
      end
  | _ => None
  end.

Class HexLaws `{Hex} : Prop := {
  hex_encode_lower bs : hex_encode bs = hex_lower bs;
  hex_decode_parse s bs : hex_decode s = Ok bs ↔ hex_parse s = Some bs
}.

Lemma N_lt_16_cases (P : N → Prop) :
  P 0%N → P 1%N → P 2%N → P 3%N → P 4%N → P 5%N → P 6%N → P 7%N →
  P 8%N → P 9%N → P 10%N → P 11%N → P 12%N → P 13%N → P 14%N → P 15%N →
  ∀ d, (d < 16)%N → P d.
Proof.
  intros. assert (d = 0 ∨ d = 1 ∨ d = 2 ∨ d = 3 ∨ d = 4 ∨ d = 5 ∨ d = 6 ∨ d = 7 ∨ d = 8
    ∨ d = 9 ∨ d = 10 ∨ d = 11 ∨ d = 12 ∨ d = 13 ∨ d = 14 ∨ d = 15)%N as Hd by lia.
  repeat destruct Hd as [->|Hd]; subst; assumption.
Qed.

Lemma to_digit_char base d : (d < base)%N → (base ≤ 16)%N → to_digit base (digit_char d) = Some d.
Proof.
  intros Hd Hb. assert (to_digit 16 (digit_char d) = Some d) as H16.
  { assert (d < 16)%N as Hd' by lia. revert Hd'. clear. revert d.
    apply (N_lt_16_cases (λ d, to_digit 16 (digit_char d) = Some d)); reflexivity. }
  revert H16. unfold to_digit. destruct (if _ : bool then _ else _) as [v|]; [|done].
  destruct (N.ltb_spec v 16); [|done]. intros [= ->].
  destruct (N.ltb_spec d base); [done|lia].
Qed.

(** What every digit the standard library prints is not. *)
Lemma digit_char_props d : (d < 16)%N →
  is_ascii_uppercase (digit_char d) = false
  ∧ digit_char d ≠ "+"%char ∧ digit_char d ≠ ":"%char
  ∧ (d ≠ 0%N → digit_char d ≠ "0"%char).
Proof.
  revert d. apply (N_lt_16_cases (λ d, is_ascii_uppercase (digit_char d) = false
  ∧ digit_char d ≠ "+"%char ∧ digit_char d ≠ ":"%char
  ∧ (d ≠ 0%N → digit_char d ≠ "0"%char))); repeat split; done.
Qed.

Lemma digit_char_inj a b : (a < 16)%N → (b < 16)%N → digit_char a = digit_char b → a = b.
Proof.
  intros Ha Hb Heq. apply (to_digit_char 16 a) in Ha; [|done].
  apply (to_digit_char 16 b) in Hb; [|done]. congruence.
Qed.

(** Reading back the digits of a number continues at that number. *)
Lemma parse_fmt_go base max fuel n s :
  (2 ≤ base ≤ 16)%N → (n ≤ max)%N → (n < base ^ N.of_nat fuel)%N → fuel ≠ 0 →
  parse_go base max 0 (fmt_go base fuel n s) = parse_go base max n s.
Proof.
  intros Hb. revert n s. induction fuel as [|fuel IH]; intros n s Hmax Hf Hne; [done|].
  simpl fmt_go. pose proof (N.div_mod n base ltac:(lia)) as Hdm.
  pose proof (N.mod_lt n base ltac:(lia)) as Hlt.
  assert (Hstep : parse_go base max (n / base) (String (digit_char (n mod base)) s)
                  = parse_go base max n s).
  { simpl. rewrite to_digit_char, (N.mul_comm (n / base)), <-Hdm by lia.
    assert (base * (n / base) ≤ n)%N as Hle by (apply N.Div0.mul_div_le).
    destruct (N.ltb_spec max (base * (n / base))) as [Hov|_];
      [by destruct (N.lt_irrefl max); eapply N.lt_le_trans, N.le_trans|].
    destruct (N.ltb_spec max n); [lia|done]. }
  destruct (N.eqb_spec (n / base) 0) as [H0|Hn0].
  - rewrite <-Hstep, H0. done.
  - rewrite IH; [done| | |].
    + assert (n / base ≤ n)%N by (apply N.Div0.div_le_upper_bound; rewrite <-(N.mul_1_l n) at 1; apply N.mul_le_mono_r; lia). lia.
    + apply N.Div0.div_lt_upper_bound. rewrite Nat2N.inj_succ, N.pow_succ_r' in Hf. lia.
    + intros ->. simpl in Hf. rewrite N.pow_1_r in Hf. apply N.div_small in Hf. done.
Qed.

Lemma size_nat_size n : N.of_nat (N.size_nat n) = N.size n.
Proof.
  destruct n as [|p]; [done|]. simpl.
  induction p as [p IH|p IH|]; simpl Pos.size_nat; simpl Pos.size; [..|done];
    rewrite Nat2N.inj_succ, IH; done.
Qed.

Lemma fmt_radix_fuel base n : (2 ≤ base)%N → (n < base ^ N.of_nat (S (N.size_nat n)))%N.
Proof.
  intros Hb. pose proof (N.size_gt n) as Hs. rewrite Nat2N.inj_succ, size_nat_size.
  eapply N.lt_le_trans; [exact Hs|]. etrans; [apply (N.pow_le_mono_l 2 base); lia|].
  apply N.pow_le_mono_r; lia.
Qed.

(** *** Padded numbers *)

Lemma zeros_length n : length (as_bytes (zeros n)) = n.
Proof. induction n as [|n IH]; [done|]. change (S (length (as_bytes (zeros n))) = S n). by rewrite IH. Qed.

Lemma fmt_go_length base fuel k n s :
  (2 ≤ base)%N → (n < base ^ N.of_nat (S k))%N → length (as_bytes (fmt_go base fuel n s)) ≤ S k + length (as_bytes s).
Proof.
  intros Hb. revert k n s. induction fuel as [|fuel IH]; intros k n s Hn; cbn [fmt_go]; [lia|].
  destruct (N.eqb_spec (n / base) 0) as [|Hne]; [change (S (length (as_bytes s)) ≤ S k + length (as_bytes s)); lia|].
  destruct k as [|k].
  - rewrite N.pow_1_r in Hn. by apply N.div_small in Hn.
  - rewrite (IH k); [change (S k + S (length (as_bytes s)) ≤ S (S k) + length (as_bytes s)); lia|]. apply N.Div0.div_lt_upper_bound.
    by rewrite Nat2N.inj_succ, N.pow_succ_r' in Hn.
Qed.

Lemma fmt_radix_length base width n :
  (2 ≤ base)%N → width ≠ 0 → (n < base ^ N.of_nat width)%N → length (as_bytes (fmt_radix base n)) ≤ width.
Proof.
  intros Hb Hw Hn. destruct width as [|k]; [done|]. unfold fmt_radix. rewrite (fmt_go_length _ _ k) by done. cbn [as_bytes]. cbn. lia.
Qed.

Lemma fmt_padded_length base width n :
  (2 ≤ base)%N → width ≠ 0 → (n < base ^ N.of_nat width)%N → length (as_bytes (fmt_padded base width n)) = width.
Proof.
  intros Hb Hw Hn. unfold fmt_padded. rewrite as_bytes_app, length_app, zeros_length.
  pose proof (fmt_radix_length base width n Hb Hw Hn). lia.
Qed.

Lemma parse_zeros base max n s : (2 ≤ base ≤ 16)%N → parse_go base max 0 (zeros n +:+ s) = parse_go base max 0 s.
Proof.
  intros Hb. induction n as [|n IH]; [done|]. change (zeros (S n) +:+ s) with (String "0"%char (zeros n +:+ s)).
  cbn [parse_go]. assert (to_digit base "0"%char = Some 0%N) as ->.
  { change "0"%char with (digit_char 0). apply to_digit_char; lia. }
  change (0 * base + 0)%N with 0%N. change (0 * base)%N with 0%N. by destruct (N.ltb_spec max 0); [lia|].
Qed.

Lemma parse_padded base max width n :
  (2 ≤ base ≤ 16)%N → (n ≤ max)%N → parse_go base max 0 (fmt_padded base width n) = Ok n.
Proof.
  intros Hb Hn. unfold fmt_padded. rewrite parse_zeros by lia. unfold fmt_radix.
  rewrite parse_fmt_go; [done|lia|done|apply fmt_radix_fuel; lia|done].
Qed.

(** The leading digit of a printed number, and the digits after it. *)
Lemma fmt_go_head base fuel n s :
  (2 ≤ base ≤ 16)%N → (n < base ^ N.of_nat fuel)%N → fuel ≠ 0 →
  ∃ d t, (d < 16)%N ∧ fmt_go base fuel n s = String (digit_char d) t ∧ (n ≠ 0%N → d ≠ 0%N).
Proof.
  intros Hb. revert n s. induction fuel as [|fuel IH]; intros n s Hf Hne; [done|].
  simpl. pose proof (N.mod_lt n base ltac:(lia)).
  pose proof (N.div_mod n base ltac:(lia)) as Hdm.
  destruct (N.eqb_spec (n / base) 0) as [H0|Hn0].
  - eexists _, _. split; [|split; [reflexivity|]]; [lia|]. rewrite H0 in Hdm. lia.
  - destruct (IH (n / base)%N (String (digit_char (n mod base)) s)) as (d & t & ? & -> & ?).
    + apply N.Div0.div_lt_upper_bound. rewrite Nat2N.inj_succ, N.pow_succ_r' in Hf. lia.
    + intros ->. rewrite N.pow_1_r in Hf. apply N.div_small in Hf. done.
    + eauto 10.
Qed.

Lemma fmt_radix_head base n :
  (2 ≤ base ≤ 16)%N →
  ∃ d t, (d < 16)%N ∧ fmt_radix base n = String (digit_char d) t ∧ (n ≠ 0%N → d ≠ 0%N).
Proof. intros. apply fmt_go_head; [done| |done]. apply fmt_radix_fuel. lia. Qed.

(** All characters of a printed number satisfy what all digits satisfy. *)
Lemma fmt_go_forallb (P : ascii → bool) base fuel n s :
  (2 ≤ base ≤ 16)%N → (∀ d, (d < 16)%N → P (digit_char d) = true) →
  string_forallb P s = true → string_forallb P (fmt_go base fuel n s) = true.
Proof.
  intros Hb HP. revert n s. induction fuel as [|fuel IH]; intros n s Hs; simpl; [done|].
  pose proof (N.mod_lt n base ltac:(lia)).
  assert (string_forallb P (String (digit_char (n mod base)) s) = true) as Hs'.
  { simpl. rewrite HP by lia. done. }
  destruct (_ =? _)%N; auto.
Qed.

(** Printing and reading back a number that fits its width. *)
Lemma from_str_radix_fmt base max n :
  (2 ≤ base ≤ 16)%N → (n ≤ max)%N → from_str_radix base max (fmt_radix base n) = Ok n.
Proof.
  intros Hb Hn. destruct (fmt_radix_head base n Hb) as (d & t & Hd & Hfmt & _).
  assert (parse_go base max 0 (fmt_radix base n) = Ok n) as Hp.
  { unfold fmt_radix. rewrite parse_fmt_go; [done|done|done| |done].
    apply fmt_radix_fuel. lia. }
  destruct (digit_char_props d Hd) as (_ & Hplus & _). unfold from_str_radix.
  rewrite Hfmt in Hp |- *. destruct t; destruct (decide _); done.
Qed.

Lemma string_any_false P s : string_any P s = false ↔ string_forallb (λ c, negb (P c)) s = true.
Proof. unfold string_any. rewrite negb_false_iff. done. Qed.

Lemma strip_prefix_app p s : strip_prefix p (p +:+ s) = Some s.
Proof. induction p as [|c p IH]; [done|]. simpl. rewrite decide_True by done. exact IH. Qed.

Lemma strip_prefix_Some p s t : strip_prefix p s = Some t → s = p +:+ t.
Proof.
  revert s. induction p as [|c p IH]; intros [|d s]; simpl; intros; simplify_eq; [done|done|].
  destruct (decide (c = d)); simplify_eq. rewrite (IH s); done.
Qed.

(** A piece free of the separator is cut off whole. *)
Lemma split_on_free sep p :
  string_forallb (λ c, negb (bool_decide (c = sep))) p = true → split_on sep p = [p].
Proof.
  induction p as [|c p IH]; simpl; [done|]. rewrite andb_true_iff, negb_true_iff, bool_decide_eq_false.
  intros [? ?]. rewrite decide_False, IH by done. done.
Qed.

Lemma split_on_cons sep p s :
  string_forallb (λ c, negb (bool_decide (c = sep))) p = true →
  split_on sep (p +:+ String sep "" +:+ s) = p :: split_on sep s.
Proof.
  change (String sep "" +:+ s) with (String sep s).
  induction p as [|c p IH]; simpl.
  - intros _. rewrite decide_True by done. done.
  - rewrite andb_true_iff, negb_true_iff, bool_decide_eq_false.
    intros [? ?]. rewrite decide_False, IH by done. done.
Qed.

Lemma byte_of_to_N b : byte_of (Byte.to_N b) = b.
Proof.
  unfold byte_of. pose proof (Byte.to_N_bounded b).
  rewrite N.mod_small by lia. by rewrite Byte.of_to_N.
Qed.

Lemma to_N_byte_of n : Byte.to_N (byte_of n) = (n mod 256)%N.
Proof.
  unfold byte_of. pose proof (N.mod_lt n 256 ltac:(lia)).
  pose proof (Byte.to_of_N_option_map (n mod 256)) as Ho.
  destruct (N.leb_spec (n mod 256) 255) as [_|?]; [|lia].
  destruct (Byte.of_N (n mod 256)); simpl in *; congruence.
Qed.

Lemma slen_cons c s : slen (String c s) = (slen s + 1)%N.
Proof. unfold slen, len. change (as_bytes (String c s)) with (byte_of_ascii c :: as_bytes s). cbn [length]. lia. Qed.

Lemma slen_hex p : slen (hex_lower p) = (len p * 2)%N.
Proof.
  induction p as [|b p IH]; [done|]. cbn [hex_lower]. rewrite !slen_cons, IH. unfold len. cbn [length]. lia.
Qed.

Lemma hex_parse_lower bs : hex_parse (hex_lower bs) = Some bs.
Proof.
  induction bs as [|b bs IH]; [done|]. cbn [hex_lower hex_parse].
  pose proof (Byte.to_N_bounded b). pose proof (N.mod_lt (Byte.to_N b) 16 ltac:(lia)).
  assert (Byte.to_N b / 16 < 16)%N by (apply N.Div0.div_lt_upper_bound; lia).
  rewrite !to_digit_char, IH by lia.
  rewrite N.mul_comm, <-N.div_mod, byte_of_to_N by lia. done.
Qed.

Lemma hex_lower_forallb P bs :
  (∀ d, (d < 16)%N → P (digit_char d) = true) → string_forallb P (hex_lower bs) = true.
Proof.
  intros HP. induction bs as [|b bs IH]; simpl; [done|].
  pose proof (Byte.to_N_bounded b). pose proof (N.mod_lt (Byte.to_N b) 16 ltac:(lia)).
  assert (Byte.to_N b / 16 < 16)%N by (apply N.Div0.div_lt_upper_bound; lia).
  rewrite !HP, IH by lia. done.
Qed.

Lemma hex_decode_encode `{HexLaws} bs : hex_decode (hex_encode bs) = Ok bs.
Proof. rewrite hex_encode_lower. apply hex_decode_parse, hex_parse_lower. Qed.

Lemma hex_encode_inj `{HexLaws} a b : hex_encode a = hex_encode b → a = b.
Proof. intros Heq. pose proof (hex_decode_encode a). pose proof (hex_decode_encode b). congruence. Qed.

(** Digits contain no separator. *)
Lemma digit_not_colon d : (d < 16)%N → negb (bool_decide (digit_char d = ":"%char)) = true.
Proof.
  intros Hd. apply digit_char_props in Hd as (_ & _ & ? & _).
  rewrite bool_decide_eq_false_2; done.
Qed.

Lemma sapp_cons c s t : String c s +:+ t = String c (s +:+ t).
Proof. reflexivity. Qed.

Lemma sapp_assoc s t u : (s +:+ t) +:+ u = s +:+ t +:+ u.
Proof. induction s as [|c s IH]; [done|]. rewrite !sapp_cons. by f_equal. Qed.

Lemma sapp_nil_r s : s +:+ "" = s.
Proof. induction s as [|c s IH]; [done|]. rewrite sapp_cons. by f_equal. Qed.

Lemma string_forallb_app P s t :
  string_forallb P (s +:+ t) = string_forallb P s && string_forallb P t.
Proof.
  induction s as [|c s IH]; [done|]. rewrite sapp_cons. cbn [string_forallb].
  rewrite IH. apply andb_assoc.
Qed.

(** *** Codecs *)

Lemma fmt_radix_no_upper n : string_any is_ascii_uppercase (fmt_radix 16 n) = false.
Proof.
  apply string_any_false. apply fmt_go_forallb; [lia| |done].
  intros d Hd. apply digit_char_props in Hd as (-> & _). done.
Qed.

Lemma parse_codec_display k : (k ≤ u64_max)%N → parse_codec (canonical_display k) = Ok k.
Proof.
  intros Hk. unfold parse_codec, canonical_display. rewrite strip_prefix_app. simpl.
  destruct (fmt_radix_head 16 k ltac:(lia)) as (d & t & Hd & Hfmt & Hd0).
  rewrite fmt_radix_no_upper, from_str_radix_fmt by lia.
  rewrite (bool_decide_eq_false_2 (fmt_radix 16 k = "")) by (rewrite Hfmt; done). simpl.
  destruct (decide (k = 0%N)) as [->|Hne]; [done|].
  assert (String.get 0 (fmt_radix 16 k) = Some (digit_char d)) as -> by (rewrite Hfmt; done).
  simpl. rewrite (bool_decide_eq_false_2 (digit_char d = _)).
  - rewrite andb_false_r. done.
  - apply digit_char_props in Hd as (_ & _ & _ & Hd). auto.
Qed.

(** A lower-case hexadecimal digit is the one printed for its value. *)
Lemma to_digit_lower c d :
  is_ascii_uppercase c = false → to_digit 16 c = Some d → c = digit_char d.
Proof.
  destruct c as [[] [] [] [] [] [] [] []]; intros Hu Hd; vm_compute in Hu, Hd;
    try discriminate; injection Hd as <-; reflexivity.
Qed.

Lemma fmt_go_acc base fuel n s : fmt_go base fuel n s = fmt_go base fuel n "" +:+ s.
Proof.
  revert n s. induction fuel as [|fuel IH]; intros n s; simpl; [done|].
  destruct (_ =? _)%N; [done|].
  rewrite IH, (IH _ (String _ "")), sapp_assoc. done.
Qed.

Lemma fmt_go_fuel base f g n s :
  (2 ≤ base)%N → (n < base ^ N.of_nat f)%N → (n < base ^ N.of_nat g)%N → f ≠ 0 → g ≠ 0 →
  fmt_go base f n s = fmt_go base g n s.
Proof.
  intros Hb. revert g n s. induction f as [|f IH]; intros [|g] n s Hf Hg Hf0 Hg0; [done..|].
  simpl. destruct (N.eqb_spec (n / base) 0) as [_|Hne]; [done|].
  rewrite !Nat2N.inj_succ, !N.pow_succ_r' in Hf, Hg.
  apply IH.
  - apply N.Div0.div_lt_upper_bound. lia.
  - apply N.Div0.div_lt_upper_bound. lia.
  - intros ->. rewrite N.mul_1_r in Hf. apply N.div_small in Hf. done.
  - intros ->. rewrite N.mul_1_r in Hg. apply N.div_small in Hg. done.
Qed.

(** Appending a digit to a positive number's text. *)
Lemma fmt_radix_snoc base n d :
  (2 ≤ base)%N → n ≠ 0%N → (d < base)%N →
  fmt_radix base (n * base + d) = fmt_radix base n +:+ String (digit_char d) "".
Proof.
  intros Hb Hn Hd. unfold fmt_radix at 1. simpl.
  rewrite N.div_add_l, (N.div_small d), N.add_0_r by lia.
  assert ((n * base + d) mod base = d)%N as ->
    by (rewrite N.add_comm, N.Div0.mod_add, N.mod_small; lia).
  destruct (N.eqb_spec n 0) as [?|_]; [done|].
  rewrite fmt_go_acc. unfold fmt_radix. f_equal.
  assert (n < base ^ N.of_nat (N.size_nat (n * base + d)))%N as Hlt.
  { pose proof (N.size_gt (n * base + d)) as Hs. rewrite size_nat_size.
    eapply N.lt_le_trans; [|apply (N.pow_le_mono_l 2 base); lia].
    eapply N.le_lt_trans; [|exact Hs]. nia. }
  apply fmt_go_fuel; [done|done|by apply fmt_radix_fuel| |done].
  intros Hz. rewrite Hz in Hlt. simpl in Hlt. lia.
Qed.

(** Reading lower-case digits behind a positive number appends them to its text. *)
Lemma parse_go_text max a s n :
  a ≠ 0%N → string_any is_ascii_uppercase s = false → parse_go 16 max a s = Ok n →
  fmt_radix 16 n = fmt_radix 16 a +:+ s ∧ (a ≤ n)%N.
Proof.
  revert a. induction s as [|c s IH]; intros a Ha Hup Hp.
  - simpl in Hp. injection Hp as <-. rewrite sapp_nil_r. done.
  - apply string_any_false in Hup. simpl in Hup. apply andb_true_iff in Hup as [Hc Hup].
    apply negb_true_iff in Hc. apply string_any_false in Hup. simpl in Hp.
    destruct (to_digit 16 c) as [d|] eqn:Hd; [|done].
    assert (d < 16)%N as Hd16.
    { unfold to_digit in Hd. destruct (if _ : bool then _ else _) as [v|]; [|done].
      destruct (N.ltb_spec v 16); naive_solver. }
    apply to_digit_lower in Hd; [|done]. subst c.
    destruct (N.ltb_spec max (a * 16)); [done|].
    destruct (N.ltb_spec max (a * 16 + d)); [done|].
    apply IH in Hp as [Hp Hle]; [|lia|done]. split; [|lia].
    rewrite Hp, fmt_radix_snoc, sapp_assoc by lia. done.
Qed.

Lemma parse_go_bound base max a s n : (a ≤ max)%N → parse_go base max a s = Ok n → (n ≤ max)%N.
Proof.
  revert a. induction s as [|c s IH]; intros a Ha; simpl; [naive_solver|].
  destruct (to_digit base c); [|done].
  destruct (N.ltb_spec max (a * base)); [done|].
  destruct (N.ltb_spec max (a * base + n0)); [done|]. apply IH. lia.
Qed.

(** The text [parse_codec] takes as a signed number: a plus sign and any
    lower-case digits of the value, leading zeroes included. *)
Definition plus_codec_text (s : string) (k : Codec) : Prop :=
  ∃ t, s = "0x+" +:+ t ∧ t ≠ "" ∧ string_any is_ascii_uppercase t = false
       ∧ parse_go 16 u64_max 0 t = Ok k.

Lemma parse_codec_unsigned c t k :
  c ≠ "+"%char → string_any is_ascii_uppercase (String c t) = false →
  (c = "0"%char → t = "") → parse_go 16 u64_max 0 (String c t) = Ok k →
  String c t = fmt_radix 16 k.
Proof.
  intros Hc Hup H0 Hp. pose proof Hup as Hup'.
  apply string_any_false in Hup. simpl in Hup. apply andb_true_iff in Hup as [Hcu Hup].
  apply negb_true_iff in Hcu. apply string_any_false in Hup. simpl in Hp.
  destruct (to_digit 16 c) as [d|] eqn:Hd; [|done].
  assert (d < 16)%N as Hd16.
  { unfold to_digit in Hd. destruct (if _ : bool then _ else _) as [v|]; [|done].
    destruct (N.ltb_spec v 16); naive_solver. }
  apply to_digit_lower in Hd; [|done]. subst c.
  destruct (decide (d = 0%N)) as [->|Hne].
  - rewrite H0 in Hp |- * by done. vm_compute in Hp. by injection Hp as <-.
  - replace (0 * 16 + d)%N with d in Hp by lia.
    destruct (u64_max <? d)%N; [done|].
    apply parse_go_text in Hp as [-> _]; [|done|done].
    assert (fmt_radix 16 d = String (digit_char d) "") as Hfmt; [|by rewrite Hfmt].
    unfold fmt_radix. simpl.
    rewrite N.div_small, N.mod_small by done. done.
Qed.

Lemma from_str_radix_inv base max c t n :
  from_str_radix base max (String c t) = Ok n →
  (c = "+"%char ∧ t ≠ "" ∧ parse_go base max 0 t = Ok n)
  ∨ (c ≠ "+"%char ∧ parse_go base max 0 (String c t) = Ok n).
Proof. unfold from_str_radix. destruct t; case_decide; naive_solver. Qed.

(** The codec texts accepted by the parser. *)
Theorem parse_codec_language s k :
  parse_codec s = Ok k ↔
  (k ≤ u64_max)%N ∧ (s = canonical_display k ∨ plus_codec_text s k).
Proof.
  split.
  - unfold parse_codec. intros Hp.
    apply bind_Ok in Hp as (t & Ht & Hp). apply ok_or_Ok, strip_prefix_Some in Ht as ->.
    apply bind_Ok in Hp as (? & Hne & Hp). apply fail_if_Ok, bool_decide_eq_false in Hne.
    apply bind_Ok in Hp as (? & Hz & Hp). apply fail_if_Ok in Hz.
    apply bind_Ok in Hp as (? & Hup & Hp). apply fail_if_Ok in Hup.
    apply map_err_Ok in Hp. destruct t as [|c t]; [done|].
    apply from_str_radix_inv in Hp as [(-> & Ht & Hp)|[Hc Hp]].
    + split; [by eapply parse_go_bound, Hp; lia|]. right. exists t.
      repeat split; [done| |done]. apply string_any_false in Hup. simpl in Hup.
      by apply string_any_false.
    + split; [by eapply parse_go_bound, Hp; lia|]. left. unfold canonical_display. f_equal.
      apply parse_codec_unsigned; [done|done| |done].
      intros ->. destruct t; [done|]. rewrite bool_decide_eq_false_2 in Hz by done. done.
  - intros [Hk [->|(t & -> & Ht & Hup & Hp)]]; [by apply parse_codec_display|].
    unfold parse_codec. change ("0x+" +:+ t) with ("0x" +:+ String "+" t).
    rewrite strip_prefix_app.
    assert (string_any is_ascii_uppercase (String "+" t) = false) as Hup'.
    { apply string_any_false. simpl. by apply string_any_false in Hup. }
    simpl. rewrite Hup'. destruct t; [done|]. simpl. simpl in Hp. rewrite Hp. done.
Qed.

(** *** Whole CIDs *)

Definition wf_cid (c : Cid) : Prop :=
  version c = CID_VERSION ∧ (codec c ≤ u64_max)%N ∧ length (digest c) = 32.

Section CidText.
Context `{HexLaws}.

Lemma Cid_from_str_parts v k d c :
  wf_cid c → parse_version v = Ok CID_VERSION → parse_codec k = Ok (codec c) →
  hex_decode d = Ok (digest c) →
  string_forallb (λ c, negb (bool_decide (c = ":"%char))) v = true →
  string_forallb (λ c, negb (bool_decide (c = ":"%char))) k = true →
  string_forallb (λ c, negb (bool_decide (c = ":"%char))) d = true →
  Cid_from_str ("cid://" +:+ v +:+ ":" +:+ k +:+ ":" +:+ "b3" +:+ ":" +:+ d) = Ok c.
Proof.
  intros (Hv & Hk & Hlen) Hpv Hpk Hpd Fv Fk Fd. unfold Cid_from_str.
  rewrite strip_prefix_app. cbn [mbind result_bind ok_or].
  rewrite (split_on_cons ":" v) by done. rewrite (split_on_cons ":" k) by done.
  rewrite (split_on_cons ":" "b3") by done. rewrite (split_on_free ":" d) by done.
  cbn [mbind result_bind ok_or lookup list_lookup]. rewrite Hpv, Hpk.
  change (HashAlg_from_str "b3") with (Ok (E:=CidParseError) Blake3Alg).
  rewrite Hpd. simpl. rewrite bool_decide_eq_true_2 by done. simpl.
  destruct c as [? ? [] ?]; simpl in *. by subst.
Qed.

Lemma display_no_colon k :
  string_forallb (λ c, negb (bool_decide (c = ":"%char))) (canonical_display k) = true.
Proof.
  unfold canonical_display. rewrite string_forallb_app. simpl.
  apply fmt_go_forallb; [lia|apply digit_not_colon|done].
Qed.

Lemma cid_text_roundtrip c : wf_cid c → Cid_from_str (Cid_to_string c) = Ok c.
Proof.
  intros Hwf. pose proof Hwf as (Hv & Hk & Hlen). unfold Cid_to_string.
  rewrite Hv. destruct (hash_alg c) eqn:Hh. cbn [HashAlg_code N.eqb CID_VERSION].
  apply (Cid_from_str_parts "pepper-v1"); [done|done|by apply parse_codec_display| |done
    |apply display_no_colon|].
  - apply hex_decode_encode.
  - rewrite hex_encode_lower. apply hex_lower_forallb, digit_not_colon.
Qed.

Lemma Cid_to_string_inj c c' : wf_cid c → wf_cid c' → Cid_to_string c = Cid_to_string c' → c = c'.
Proof. intros Hc%cid_text_roundtrip Hc'%cid_text_roundtrip Heq. rewrite Heq in Hc. congruence. Qed.

(** Reading back the text of a CID gives the CID. *)
Theorem cid_display_parse c : wf_cid c → Cid_from_str (Cid_to_string c) = Ok c.
Proof. apply cid_text_roundtrip. Qed.

(** The same CID written with a plus sign before its codec. *)
Definition plus_text (c : Cid) : string :=
  "cid://" +:+ "pepper-v1" +:+ ":" +:+ ("0x+" +:+ fmt_radix 16 (codec c)) +:+ ":"
    +:+ "b3" +:+ ":" +:+ hex_encode (digest c).

(** CID text is not canonical: a second text reads back as the same CID. *)
Theorem cid_parse_accepts_plus c :
  wf_cid c → Cid_from_str (plus_text c) = Ok c ∧ plus_text c ≠ Cid_to_string c.
Proof.
  intros Hwf. pose proof Hwf as (Hv & Hk & Hlen). split.
  - apply Cid_from_str_parts; [done|done| |apply hex_decode_encode|done| |].
    + apply parse_codec_language. split; [done|]. right.
      eexists. split; [done|].
      destruct (fmt_radix_head 16 (codec c) ltac:(lia)) as (d & t & Hd & Hfmt & _).
      split; [by rewrite Hfmt|]. split; [apply fmt_radix_no_upper|].
      unfold fmt_radix. rewrite parse_fmt_go; [done|lia|done|apply fmt_radix_fuel; lia|done].
    + rewrite string_forallb_app. simpl.
      apply fmt_go_forallb; [lia|apply digit_not_colon|done].
    + rewrite hex_encode_lower. apply hex_lower_forallb, digit_not_colon.
  - unfold plus_text, Cid_to_string. rewrite Hv. cbn [N.eqb CID_VERSION Pos.eqb].
    unfold canonical_display.
    destruct (fmt_radix_head 16 (codec c) ltac:(lia)) as (d & t & Hd & Hfmt & _).
    intros Heq. apply (f_equal (λ s, String.get 18 s)) in Heq.
    rewrite Hfmt in Heq. cbn in Heq. injection Heq as Heq.
    apply digit_char_props in Hd as (_ & ? & _). congruence.
Qed.
End CidText.

(** ** Digest preimages *)

(** Reading a varint back, and the rest of the input. *)
Fixpoint decode_varint (bs : bytes) : option (N * bytes) :=
  match bs with
  | [] => None
  | b :: bs =>
      if (Byte.to_N b <? 128)%N then Some (Byte.to_N b, bs)
      else '(v, rest) ← decode_varint bs; Some (Byte.to_N b - 128 + 128 * v, rest)%N
  end.

Lemma decode_encode_varint_go fuel v rest :
  (v < 2 ^ (7 * N.of_nat fuel))%N → fuel ≠ 0 →
  decode_varint (encode_varint_go fuel v ++ rest) = Some (v, rest).
Proof.
  revert v. induction fuel as [|fuel IH]; intros v Hv Hne; [done|]. cbn [encode_varint_go].
  change 127%N with (N.ones 7). rewrite N.land_ones, N.shiftr_div_pow2.
  change (2 ^ 7)%N with 128%N.
  pose proof (N.mod_lt v 128 ltac:(lia)) as Hlt. pose proof (N.div_mod v 128 ltac:(lia)) as Hdm.
  destruct (N.eqb_spec (v / 128) 0) as [H0|Hn0]; simpl; rewrite to_N_byte_of.
  - rewrite N.mod_small by lia. destruct (N.ltb_spec (v mod 128) 128); [|lia].
    f_equal. f_equal. lia.
  - assert (N.lor (v mod 128) 128 = v mod 128 + 128)%N as ->.
    { assert (N.land (v mod 128) 128 = 0%N) as Hland.
      2: { by rewrite <-N.lxor_lor, <-N.add_nocarry_lxor. }
      apply N.bits_inj. intros i. rewrite N.land_spec, N.bits_0.
      destruct (decide (i = 7)%N) as [->|Hi].
      - change 128%N with (2 ^ 7)%N. rewrite N.mod_pow2_bits_high by lia. done.
      - change 128%N with (2 ^ 7)%N at 2. rewrite N.pow2_bits_false by done. apply andb_false_r. }
    rewrite N.mod_small by lia.
    destruct (N.ltb_spec (v mod 128 + 128) 128) as [Hbad|_]; [revert Hbad; generalize (v mod 128)%N; clear; lia|].
    rewrite IH.
    + simpl. rewrite N.add_sub, N.add_comm, <-Hdm. done.
    + apply N.Div0.div_lt_upper_bound. change 128%N with (2 ^ 7)%N. rewrite <-N.pow_add_r.
      eapply N.lt_le_trans; [exact Hv|]. apply N.pow_le_mono_r; lia.
    + intros ->. change (2 ^ (7 * N.of_nat 1))%N with 128%N in Hv.
      rewrite N.div_small in Hn0 by done. done.
Qed.

Lemma decode_encode_varint v rest :
  (v ≤ u64_max)%N → decode_varint (encode_u64_varint v ++ rest) = Some (v, rest).
Proof.
  intros Hv. apply decode_encode_varint_go; [|done].
  eapply N.le_lt_trans; [exact Hv|]. done.
Qed.

Lemma length_be_bytes n v : length (be_bytes n v) = n.
Proof. revert v. induction n as [|n IH]; intros v; simpl; [done|]. rewrite length_app, IH. simpl. lia. Qed.

Lemma be_bytes_inj n v w :
  (v < 256 ^ N.of_nat n)%N → (w < 256 ^ N.of_nat n)%N → be_bytes n v = be_bytes n w → v = w.
Proof.
  revert v w. induction n as [|n IH]; intros v w Hv Hw Heq.
  { simpl in *. lia. }
  simpl in Heq. apply app_inj_2 in Heq as [Heq Hb]; [|done]. injection Hb as Hb.
  rewrite Nat2N.inj_succ, N.pow_succ_r' in Hv, Hw.
  apply IH in Heq; [|apply N.Div0.div_lt_upper_bound; lia..].
  apply (f_equal Byte.to_N) in Hb. rewrite !to_N_byte_of in Hb.
  rewrite (N.div_mod v 256), (N.div_mod w 256) by lia. congruence.
Qed.

(** What [compute_digest] feeds the hasher, in one piece. *)
Definition digest_input (version : N) (codec : Codec) (payload : bytes) : bytes :=
  [byte_of version] ++ encode_u64_varint codec ++ to_be_bytes (len payload) ++ payload.

(** blake3::hash *)
Definition blake3_hash `{Blake3} (input : bytes) : bytes :=
  hasher_finalize (hasher_update hasher_new input).

Lemma digest_input_inj v k p v' k' p' :
  (v ≤ u8_max)%N → (v' ≤ u8_max)%N → (k ≤ u64_max)%N → (k' ≤ u64_max)%N →
  digest_input v k p = digest_input v' k' p' → v = v' ∧ k = k' ∧ p = p'.
Proof.
  intros Hv Hv' Hk Hk' [= Hver Heq].
  apply (f_equal decode_varint) in Heq. rewrite !decode_encode_varint in Heq by done.
  assert (k = k' ∧ to_be_bytes (len p) ++ p = to_be_bytes (len p') ++ p') as [-> Hrest]
    by (split; congruence).
  apply (f_equal Byte.to_N) in Hver.
  rewrite !to_N_byte_of, !N.mod_small in Hver by (unfold u8_max in *; lia).
  apply app_inj_1 in Hrest as [_ ->]; [done|].
  unfold to_be_bytes. by rewrite !length_be_bytes.
Qed.

Section Digests.
Context `{Blake3Laws}.

Lemma compute_digest_hash v k p : compute_digest v k p = blake3_hash (digest_input v k p).
Proof.
  unfold compute_digest, blake3_hash, digest_input.
  pose proof (update_stream [[byte_of v]; encode_u64_varint k; to_be_bytes (len p); p]) as Hs.
  simpl in Hs. rewrite Hs, app_nil_r. done.
Qed.

(** C39: equal digests mean equal codec and payload, or a collision of the hash. *)
Theorem cid_digest_binding k p k' p' :
  (k ≤ u64_max)%N → (k' ≤ u64_max)%N →
  digest (Cid_new k p) = digest (Cid_new k' p') →
  (k = k' ∧ p = p')
  ∨ (digest_input CID_VERSION k p ≠ digest_input CID_VERSION k' p'
     ∧ blake3_hash (digest_input CID_VERSION k p) = blake3_hash (digest_input CID_VERSION k' p')).
Proof.
  intros Hk Hk' Heq. simpl in Heq. rewrite !compute_digest_hash in Heq.
  destruct (decide (digest_input CID_VERSION k p = digest_input CID_VERSION k' p')) as [Hin|Hne];
    [|by right].
  left. apply digest_input_inj in Hin as (_ & -> & ->); done.
Qed.

Lemma Cid_new_wf k p : (k ≤ u64_max)%N → wf_cid (Cid_new k p).
Proof. intros Hk. split; [done|]. split; [done|]. apply finalize_length. Qed.

Lemma Cid_new_verify k p : Cid_verify (Cid_new k p) p = true.
Proof.
  unfold Cid_verify. rewrite !andb_true_iff, !bool_decide_eq_true. done.
Qed.

Lemma Cid_verify_new c p : Cid_verify c p = true → c = Cid_new (codec c) p.
Proof.
  unfold Cid_verify. rewrite !andb_true_iff, !bool_decide_eq_true, N.eqb_eq.
  intros [[Hv Hh] Hd]. destruct c; simpl in *. unfold Cid_new. congruence.
Qed.

Lemma checked_total_go (segments : list bytes) t :
  foldl (λ total segment, total ≫= λ t, checked_add u64_max t (len segment)) (Some t) segments
  = if (t + len (concat segments) <=? u64_max)%N || bool_decide (segments = [])
    then Some (t + len (concat segments))%N else None.
Proof.
  revert t. induction segments as [|s segs IH]; intros t.
  { simpl. rewrite orb_true_r. f_equal. autorewrite with pepper. lia. }
  cbn [foldl mbind option_bind]. simpl concat. autorewrite with pepper.
  rewrite (bool_decide_eq_false_2 (_ :: _ = _)), orb_false_r by done.
  destruct (checked_add u64_max t (len s)) as [t'|] eqn:Hc.
  - apply checked_add_Some in Hc as [-> Hle]. rewrite IH. rewrite N.add_assoc.
    case_bool_decide as Hs; [subst; simpl; rewrite orb_true_r, len_nil, N.add_0_r|by rewrite orb_false_r].
    destruct (N.leb_spec (t + len s) u64_max); [done|lia].
  - apply checked_add_None in Hc.
    assert (foldl (λ total segment, total ≫= λ t, checked_add u64_max t (len segment)) None segs = None) as ->.
    { clear. induction segs; done. }
    destruct (N.leb_spec (t + (len s + len (concat segs))) u64_max); [lia|done].
Qed.

(** Verifying scattered segments is verifying their concatenation. *)
Theorem verify_segments_concat c segments :
  Cid_verify_segments c segments
  = (len (concat segments) <=? u64_max)%N && Cid_verify c (concat segments).
Proof.
  unfold Cid_verify_segments, Cid_verify.
  destruct (version c =? CID_VERSION)%N eqn:Hv; simpl; [|by rewrite andb_false_r].
  case_bool_decide as Hh; simpl; [|by rewrite andb_false_r].
  rewrite checked_total_go, N.add_0_l.
  destruct (N.leb_spec (len (concat segments)) u64_max) as [Hle|Hgt]; simpl.
  - apply bool_decide_ext. rewrite compute_digest_hash. unfold blake3_hash, digest_input.
    pose proof (update_stream ([byte_of (version c)] :: encode_u64_varint (codec c)
      :: to_be_bytes (len (concat segments)) :: segments)) as Hs.
    simpl in Hs. rewrite Hs. done.
  - case_bool_decide as Hs; [|done]. subst. simpl in Hgt. unfold u64_max in Hgt. rewrite len_nil in Hgt. lia.
Qed.

Lemma verifier_update_cases v chunk :
  (expected_size v ≤ u64_max)%N →
  verifier_update v chunk =
  if (seen v + len chunk <=? expected_size v)%N
  then mkVerifier (expected v) (expected_size v) (seen v + len chunk)
         (hasher_update (sv_hasher v) chunk) (invalid v)
  else mkVerifier (expected v) (expected_size v) (seen v) (sv_hasher v) true.
Proof.
  intros He. unfold verifier_update.
  destruct (checked_add u64_max (seen v) (len chunk)) as [s|] eqn:Hc.
  - apply checked_add_Some in Hc as [-> _]. by rewrite N.leb_antisym; destruct (_ <? _)%N.
  - apply checked_add_None in Hc. destruct (N.leb_spec (seen v + len chunk) (expected_size v)); [lia|done].
Qed.

Lemma verifier_invalid v chunks :
  invalid v = true → (expected_size v ≤ u64_max)%N →
  let v' := foldl verifier_update v chunks in
  expected v' = expected v ∧ expected_size v' = expected_size v ∧ invalid v' = true.
Proof.
  revert v. induction chunks as [|ch chunks IH]; intros v Hi He; cbn [foldl]; [done|].
  rewrite verifier_update_cases by done.
  destruct (_ <=? _)%N; match goal with |- context [foldl _ ?w _] => apply (IH w) end; done.
Qed.

(** The verifier after some chunks. *)
Lemma verifier_update_go v chunks :
  (seen v ≤ expected_size v)%N → (expected_size v ≤ u64_max)%N →
  let v' := foldl verifier_update v chunks in
  expected v' = expected v ∧ expected_size v' = expected_size v ∧
  if (seen v + len (concat chunks) <=? expected_size v)%N
  then seen v' = (seen v + len (concat chunks))%N
       ∧ sv_hasher v' = foldl hasher_update (sv_hasher v) chunks ∧ invalid v' = invalid v
  else invalid v' = true.
Proof.
  revert v. induction chunks as [|ch chunks IH]; intros v Hs He; cbn [foldl concat].
  { rewrite len_nil, N.add_0_r. destruct (N.leb_spec (seen v) (expected_size v)); [done|lia]. }
  autorewrite with pepper. rewrite N.add_assoc, verifier_update_cases by done.
  destruct (N.leb_spec (seen v + len ch) (expected_size v)) as [Hle|Hgt].
  - match goal with |- context [foldl verifier_update ?w _] => apply (IH w) end; done.
  - destruct (N.leb_spec (seen v + len ch + len (concat chunks)) (expected_size v)); [lia|].
    match goal with |- context [foldl verifier_update ?w _] => apply (verifier_invalid w) end; done.
Qed.

(** The streaming verifier accepts exactly the declared payload. *)
Theorem stream_verifier_correct c size v chunks :
  (size ≤ u64_max)%N → stream_verifier c size = Some v →
  verifier_finish (foldl verifier_update v chunks) = true ↔
  len (concat chunks) = size ∧ Cid_verify c (concat chunks) = true.
Proof.
  intros Hsize Hv. unfold stream_verifier in Hv.
  destruct (version c =? CID_VERSION)%N eqn:Hver; [|done].
  destruct (bool_decide (hash_alg c = Blake3Alg)) eqn:Hh; [|done].
  simpl in Hv. injection Hv as <-.
  match goal with |- context [foldl verifier_update ?v0 _] =>
    pose proof (verifier_update_go v0 chunks) as Hgo end.
  simpl in Hgo. destruct Hgo as (He & Hs & Hrest); [lia|done|].
  rewrite N.add_0_l in Hrest.
  unfold verifier_finish. rewrite !andb_true_iff, negb_true_iff, N.eqb_eq, bool_decide_eq_true, He, Hs.
  unfold Cid_verify. rewrite Hver, Hh. simpl. rewrite bool_decide_eq_true.
  rewrite compute_digest_hash. unfold blake3_hash, digest_input. simpl.
  pose proof (update_stream ([byte_of (version c)] :: encode_u64_varint (codec c)
      :: to_be_bytes size :: chunks)) as Hst. simpl in Hst.
  destruct (N.leb_spec (len (concat chunks)) size) as [Hle|Hgt].
  - destruct Hrest as (-> & -> & ->). rewrite Hst. simpl. split.
    + intros [[_ Hlen] Hd]. rewrite Hlen. done.
    + intros [Hlen Hd]. rewrite Hlen in Hd. done.
  - rewrite Hrest. split; [naive_solver|]. intros [? _]. lia.
Qed.
End Digests.

(** ** Manifests *)

(** Consecutive non-empty extents from [start] to [stop]. *)
Fixpoint contiguous (start : N) (l : list (N * N)) (stop : N) : Prop :=
  match l with
  | [] => start = stop
  | (o, n) :: l => o = start ∧ (0 < n)%N ∧ contiguous (start + n) l stop
  end.

Lemma contiguous_le start l stop : contiguous start l stop → (start ≤ stop)%N.
Proof.
  revert start. induction l as [|[o n] l IH]; simpl; intros start; [lia|].
  intros (_ & ? & ?%IH). lia.
Qed.

Lemma contiguous_ge start l stop i o n :
  contiguous start l stop → l !! i = Some (o, n) → (start ≤ o)%N.
Proof.
  revert start i. induction l as [|[o' n'] l IH]; intros start [|i] Hc Hl; simplify_eq/=; [lia|].
  destruct Hc as (_ & ? & Hc). pose proof (IH _ _ Hc Hl). lia.
Qed.

(** Every position below [stop] lies in exactly one extent. *)
Lemma contiguous_cover start l stop pos :
  contiguous start l stop → (start ≤ pos < stop)%N →
  ∃ i o n, l !! i = Some (o, n) ∧ (o ≤ pos < o + n)%N
    ∧ ∀ j o' n', l !! j = Some (o', n') → (o' ≤ pos < o' + n')%N → j = i.
Proof.
  revert start. induction l as [|[o n] l IH]; simpl; intros start Hc Hpos; [lia|].
  destruct Hc as (-> & Hn & Hc).
  destruct (decide (pos < start + n)%N) as [Hin|Hout].
  - exists 0, start, n. split; [done|]. split; [lia|].
    intros [|j] o' n' Hj Hr; [done|]. pose proof (contiguous_ge _ _ _ _ _ _ Hc Hj). lia.
  - destruct (IH _ Hc) as (i & o & m & Hi & Hr & Hu); [lia|].
    exists (S i), o, m. split; [done|]. split; [done|].
    intros [|j] o' n' Hj Hr'; simplify_eq/=; [lia|]. f_equal. eauto.
Qed.

(** A loop that checks each element starts where the last one ended and adds its
    length, with overflow an error, completes exactly on consecutive extents. *)
Section Layout.
Context {A E : Type} (extent : A → N * N) (good : A → Prop) (f : N → A → result E N).
Hypothesis f_Ok : ∀ e x e',
  f e x = Ok e' ↔ good x ∧ (extent x).1 = e ∧ (0 < (extent x).2)%N
                  ∧ e' = (e + (extent x).2)%N ∧ (e + (extent x).2 ≤ u64_max)%N.

Lemma layout_loop start l stop :
  (start ≤ u64_max)%N →
  try_foldl f start l = Ok stop ↔
  Forall good l ∧ contiguous start (extent <$> l) stop ∧ (stop ≤ u64_max)%N.
Proof.
  revert start. induction l as [|x l IH]; intros start Hs; simpl.
  { split; [intros [= ->]; auto|]. intros (_ & -> & _). done. }
  rewrite bind_Ok. destruct (extent x) as [o n] eqn:Hx. simpl. split.
  - intros (e & He & Hl). apply f_Ok in He as (Hg & Ho & Hn & -> & Hle). rewrite Hx in *. simpl in *.
    apply IH in Hl as (? & ? & ?); [|done]. auto.
  - intros (Hg & (Ho & Hn & Hc) & Hle). apply Forall_cons in Hg as [? ?].
    pose proof (contiguous_le _ _ _ Hc).
    exists (start + n)%N. split; [apply f_Ok; rewrite Hx; simpl; repeat split; auto; lia|].
    apply IH; [lia|auto].
Qed.
End Layout.

Definition chunk_ok (m : ObjectManifest) (c : ObjectChunk) : Prop :=
  (chunk_len c ≤ om_chunk_size m)%N ∧ codec (chunk_cid c) = CODEC_RAW
  ∧ seed (chunk_placement c) = chunk_cid c ∧ role (chunk_placement c) = Replicated
  ∧ PlacementReference_validate (chunk_placement c) = Ok ().

Definition chunk_extent (c : ObjectChunk) : N * N := (chunk_offset c, chunk_len c).

Lemma is_Ok_unit {E} (r : result E unit) : is_Ok r = true ↔ r = Ok ().
Proof. destruct r as [[]|]; naive_solver. Qed.

Lemma check_chunk_Ok m e c e' :
  ObjectManifest_check_chunk m e c = Ok e' ↔
  chunk_ok m c ∧ chunk_offset c = e ∧ (0 < chunk_len c)%N
  ∧ e' = (e + chunk_len c)%N ∧ (e + chunk_len c ≤ u64_max)%N.
Proof.
  unfold ObjectManifest_check_chunk, chunk_ok. rewrite bind_Ok. split.
  - intros ([] & Hc & Ho). apply fail_if_Ok in Hc. apply ok_or_Ok, checked_add_Some in Ho as [-> ?].
    rewrite !orb_false_iff, !negb_false_iff, !N.eqb_eq, N.eqb_neq, N.ltb_ge, !bool_decide_eq_true,
      is_Ok_unit in Hc.
    naive_solver lia.
  - intros ((Hl & Hk & Hs & Hr & Hv) & Ho & Hp & -> & Hle). exists (). split.
    + apply fail_if_Ok.
      rewrite !orb_false_iff, !negb_false_iff, !N.eqb_eq, N.eqb_neq, N.ltb_ge, !bool_decide_eq_true,
        is_Ok_unit.
      naive_solver lia.
    + by apply ok_or_Ok, checked_add_Some.
Qed.

Lemma object_manifest_validate_spec m :
  ObjectManifest_validate m = Ok () ↔
  om_chunk_size m ≠ 0%N ∧ Forall (chunk_ok m) (om_chunks m)
  ∧ contiguous 0 (chunk_extent <$> om_chunks m) (om_size m) ∧ (om_size m ≤ u64_max)%N.
Proof.
  pose proof (λ stop, layout_loop chunk_extent (chunk_ok m) _ (check_chunk_Ok m) 0 (om_chunks m) stop
    ltac:(done)) as Hloop.
  unfold ObjectManifest_validate. split.
  - intros ([] & Hz%fail_if_Ok & ([] & _ & (e & Hl%Hloop & He%fail_if_Ok)%bind_Ok)%bind_Ok)%bind_Ok.
    apply N.eqb_neq in Hz. apply negb_false_iff, N.eqb_eq in He. subst. naive_solver.
  - intros (Hz & Hall & Hc & Hle). apply N.eqb_neq in Hz as ->. simpl.
    assert (((om_size m =? 0)%N && negb (bool_decide (om_chunks m = []))) = false) as ->.
    { apply andb_false_iff. rewrite negb_false_iff, N.eqb_neq, bool_decide_eq_true.
      destruct (om_chunks m) as [|c l]; [by right|]. left.
      simpl in Hc. destruct Hc as (_ & ? & ?%contiguous_le). lia. }
    simpl. rewrite (proj2 (Hloop (om_size m))) by done. simpl. by rewrite N.eqb_refl.
Qed.

(** Every byte of a valid object lies in exactly one chunk. *)
Theorem object_manifest_tiles m pos :
  ObjectManifest_validate m = Ok () → (pos < om_size m)%N →
  ∃ i c, om_chunks m !! i = Some c
    ∧ (chunk_offset c ≤ pos < chunk_offset c + chunk_len c)%N
    ∧ chunk_ok m c
    ∧ ∀ j c', om_chunks m !! j = Some c' →
        (chunk_offset c' ≤ pos < chunk_offset c' + chunk_len c')%N → j = i.
Proof.
  intros (_ & Hall & Hc & _)%object_manifest_validate_spec Hpos.
  destruct (contiguous_cover _ _ _ pos Hc) as (i & o & n & Hi & Hr & Hu); [lia|].
  apply list_lookup_fmap_Some in Hi as (c & Heq & Hi). injection Heq as -> ->.
  exists i, c. split; [done|]. split; [done|]. split; [by eapply Forall_lookup_1|].
  intros j c' Hj Hr'. eapply (Hu j (chunk_offset c') (chunk_len c')); [|done].
  by rewrite list_lookup_fmap, Hj.
Qed.

Definition shard_ok (stripe : ErasureStripe) (position : N) (sh : ErasureShard) : Prop :=
  shard_index sh = position ∧ shard_bytes sh = shard_size stripe
  ∧ codec (shard_cid sh) = CODEC_RAW ∧ seed (shard_placement sh) = logical_cid stripe
  ∧ index (shard_placement sh) = position ∧ role (shard_placement sh) = ErasureShardRole
  ∧ PlacementReference_validate (shard_placement sh) = Ok ().

Definition stripe_ok (m : ErasureManifest) (total : N) (s : ErasureStripe) : Prop :=
  (stripe_len s ≤ stripe_size m)%N ∧ (0 < encoded_size s ≤ stripe_len s)%N
  ∧ codec (logical_cid s) = CODEC_RAW
  ∧ match encoding s with
    | Raw => encoded_size s = stripe_len s
    | Zstd => (encoded_size s < stripe_len s)%N
    end
  ∧ shard_size s = div_ceil (encoded_size s) (data_shards m)
  ∧ len (shards s) = total
  ∧ ∀ i sh, shards s !! i = Some sh → shard_ok s (N.of_nat i) sh.

Definition stripe_extent (s : ErasureStripe) : N * N := (stripe_offset s, stripe_len s).

(** One shard in its place: the slot array marks the positions before it, so
    its own slot is free. *)
Lemma check_shard_Ok total stripe pos seen sh st :
  length seen = N.to_nat total → (∀ j, (pos ≤ j < total)%N → seen !! N.to_nat j = Some false) →
  ErasureManifest_check_shard total stripe (pos, seen) sh = Ok st ↔
  (pos < total)%N ∧ shard_ok stripe pos sh ∧ st = ((pos + 1)%N, <[N.to_nat pos := true]> seen).
Proof.
  intros Hlen Hfree. unfold ErasureManifest_check_shard, shard_ok. rewrite bind_Ok. split.
  - intros ([] & Hc%fail_if_Ok & Hs).
    rewrite !orb_false_iff, !negb_false_iff, !N.eqb_eq, N.leb_gt, !bool_decide_eq_true, is_Ok_unit in Hc.
    destruct Hc as [[[[[[[Hlt Hpos] ?] ?] ?] ?] ?] ?]. rewrite Hpos in *.
    apply bind_Ok in Hs as (slot & Hslot%ok_or_Ok & ([] & _ & [= <-])%bind_Ok). naive_solver.
  - intros (Hlt & (Hi & ? & ? & ? & Hpi & ? & ?) & ->). exists (). split.
    + apply fail_if_Ok.
      rewrite !orb_false_iff, !negb_false_iff, !N.eqb_eq, N.leb_gt, !bool_decide_eq_true, is_Ok_unit.
      naive_solver lia.
    + rewrite Hi, Hfree by lia. done.
Qed.

Lemma check_shards_loop total stripe pos seen l :
  length seen = N.to_nat total → (∀ j, (pos ≤ j < total)%N → seen !! N.to_nat j = Some false) →
  (pos + len l = total)%N →
  (∃ st, try_foldl (ErasureManifest_check_shard total stripe) (pos, seen) l = Ok st) ↔
  (∀ i sh, l !! i = Some sh → shard_ok stripe (pos + N.of_nat i) sh).
Proof.
  revert pos seen. induction l as [|sh l IH]; intros pos seen Hlen Hfree Htot; simpl.
  { split; [done|]. eauto. }
  rewrite len_cons in Htot.
  assert (IH' : (∃ st, try_foldl (ErasureManifest_check_shard total stripe)
      ((pos + 1)%N, <[N.to_nat pos := true]> seen) l = Ok st) ↔
    (∀ i s, l !! i = Some s → shard_ok stripe (pos + 1 + N.of_nat i) s)).
  { apply IH; [by rewrite length_insert| |lia].
    intros j Hj. rewrite list_lookup_insert_ne by lia. apply Hfree. lia. }
  split.
  - intros (st & (st1 & Hf & Hl)%bind_Ok). apply check_shard_Ok in Hf as (? & ? & ->); [|done..].
    intros [|i] s; simpl; [intros [= <-]; by rewrite N.add_0_r|].
    intros Hi. replace (pos + N.of_nat (S i))%N with (pos + 1 + N.of_nat i)%N by lia.
    apply IH'; eauto.
  - intros Hall. destruct (proj2 IH') as [st Hst].
    { intros i s Hi. replace (pos + 1 + N.of_nat i)%N with (pos + N.of_nat (S i))%N by lia. by apply Hall. }
    exists st. apply bind_Ok. eexists. split; [|exact Hst].
    apply check_shard_Ok; [done..|]. split; [lia|]. split; [|done].
    rewrite <-(N.add_0_r pos). by apply (Hall 0).
Qed.

Lemma check_stripe_Ok m total e s e' :
  ErasureManifest_check_stripe m total e s = Ok e' ↔
  stripe_ok m total s ∧ stripe_offset s = e ∧ (0 < stripe_len s)%N
  ∧ e' = (e + stripe_len s)%N ∧ (e + stripe_len s ≤ u64_max)%N.
Proof.
  assert (Hloop : len (shards s) = total →
    (∃ st, try_foldl (ErasureManifest_check_shard total s) (0%N, replicate (N.to_nat total) false)
      (shards s) = Ok st) ↔ (∀ i sh, shards s !! i = Some sh → shard_ok s (N.of_nat i) sh)).
  { intros Hlen. rewrite check_shards_loop; [done|by rewrite length_replicate| |lia].
    intros j Hj. apply lookup_replicate_2. lia. }
  unfold ErasureManifest_check_stripe, stripe_ok. rewrite bind_Ok. split.
  - intros ([] & Hc%fail_if_Ok & (st & Hst & Ho%ok_or_Ok%checked_add_Some)%bind_Ok).
    rewrite !orb_false_iff, !negb_false_iff, !N.eqb_eq, !N.eqb_neq, !N.ltb_ge, !andb_false_iff,
      !bool_decide_eq_false, negb_false_iff, N.leb_gt, N.eqb_eq in Hc.
    destruct Hc as [[[[[[[[[? ?] ?] ?] ?] ?] Hraw] Hz] ?] Hlen].
    split; [|naive_solver lia]. split; [done|]. split; [lia|]. split; [done|].
    split; [destruct (encoding s); naive_solver|]. split; [done|]. split; [done|].
    apply Hloop; eauto.
  - intros ((? & ? & ? & Henc & ? & Hlen & Hsh) & ? & ? & -> & ?). exists (). split.
    + apply fail_if_Ok.
      rewrite !orb_false_iff, !negb_false_iff, !N.eqb_eq, !N.eqb_neq, !N.ltb_ge, !andb_false_iff,
      !bool_decide_eq_false, negb_false_iff, N.leb_gt, N.eqb_eq.
      destruct (encoding s); repeat split; auto; lia.
    + apply Hloop in Hsh as [st Hst]; [|done]. rewrite Hst. simpl.
      by apply ok_or_Ok, checked_add_Some.
Qed.

Lemma erasure_manifest_validate_inv m :
  ErasureManifest_validate m = Ok () →
  (0 < parity_shards m ≤ data_shards m)%N ∧ (data_shards m + parity_shards m ≤ 32)%N
  ∧ Forall (stripe_ok m (data_shards m + parity_shards m)) (stripes m)
  ∧ contiguous 0 (stripe_extent <$> stripes m) (em_size m).
Proof.
  unfold ErasureManifest_validate.
  intros ([] & Hc%fail_if_Ok & ([] & Ht%fail_if_Ok & (e & Hl & He%fail_if_Ok)%bind_Ok)%bind_Ok)%bind_Ok.
  rewrite !orb_false_iff, !N.eqb_neq, N.ltb_ge in Hc. apply orb_false_iff in Ht as [Ht _].
  apply N.ltb_ge in Ht. apply negb_false_iff, N.eqb_eq in He. subst e.
  assert (saturating_add u16_max (data_shards m) (parity_shards m) = data_shards m + parity_shards m)%N as Hsum.
  { revert Ht. unfold saturating_add, u16_max. lia. }
  rewrite Hsum in *. split; [lia|]. split; [done|].
  apply (layout_loop stripe_extent (stripe_ok m (data_shards m + parity_shards m)) _
    (check_stripe_Ok m _)) in Hl; [naive_solver|done].
Qed.

Lemma div_ceil_bounds a b : b ≠ 0%N → (a ≤ b * div_ceil a b < a + b)%N.
Proof.
  intros Hb. unfold div_ceil. pose proof (N.div_mod a b Hb) as Hdm. pose proof (N.mod_lt a b Hb) as Hlt.
  revert Hdm Hlt. generalize (a / b)%N, (a mod b)%N. intros q r -> Hlt.
  destruct (N.eqb_spec r 0); nia.
Qed.

(** A valid erasure layout stores each stripe in one shard per index, with
    room for the encoded bytes and less than one byte of padding per data shard. *)
Theorem erasure_manifest_sound m pos :
  ErasureManifest_validate m = Ok () → (pos < em_size m)%N →
  ∃ i s, stripes m !! i = Some s
    ∧ (stripe_offset s ≤ pos < stripe_offset s + stripe_len s)%N
    ∧ (∀ j s', stripes m !! j = Some s' →
         (stripe_offset s' ≤ pos < stripe_offset s' + stripe_len s')%N → j = i)
    ∧ len (shards s) = (data_shards m + parity_shards m)%N
    ∧ (encoded_size s ≤ data_shards m * shard_size s < encoded_size s + data_shards m)%N
    ∧ ∀ j sh, shards s !! j = Some sh → shard_ok s (N.of_nat j) sh.
Proof.
  intros (Hp & Ht & Hall & Hc)%erasure_manifest_validate_inv Hpos.
  destruct (contiguous_cover _ _ _ pos Hc) as (i & o & n & Hi & Hr & Hu); [lia|].
  apply list_lookup_fmap_Some in Hi as (s & Heq & Hi). injection Heq as -> ->.
  exists i, s. split; [done|]. split; [done|].
  pose proof (Forall_lookup_1 _ _ _ _ Hall Hi) as (_ & _ & _ & _ & Hsz & Hlen & Hsh).
  split; [|split; [done|split; [|done]]].
  - intros j s' Hj Hr'. eapply (Hu j (stripe_offset s') (stripe_len s')); [|done].
    by rewrite list_lookup_fmap, Hj.
  - rewrite Hsz. apply div_ceil_bounds. lia.
Qed.

(** A path a directory tree can be restored under: relative, without empty,
    current or parent components. *)
Definition safe_path (p : string) : Prop :=
  p ≠ "" ∧ String.get 0 p ≠ Some "/"%char
  ∧ ∀ part, part ∈ split_on "/"%char p → part ≠ ".." ∧ part ≠ "." ∧ part ≠ "".

Lemma path_is_valid p : path_is_invalid p = false → safe_path p.
Proof.
  unfold path_is_invalid, safe_path. rewrite !orb_false_iff, bool_decide_eq_false.
  intros [[[Hne Hsl] _] Hparts]. split; [done|]. split.
  - destruct (String.get 0 p); [|done]. simpl in Hsl. apply bool_decide_eq_false in Hsl. congruence.
  - intros part Hin. rewrite <-not_true_iff_false, existsb_exists in Hparts.
    repeat split; intros ->; apply Hparts; eexists; (split; [by apply list_elem_of_In|done]).
Qed.

Lemma mode_bits m : (m ≤ u32_max)%N → N.land m (N.lxor u32_max 511) = 0%N → (m ≤ 511)%N.
Proof.
  intros Hm Hl. assert (N.shiftr m 9 = 0%N) as Hs.
  2: { rewrite N.shiftr_div_pow2 in Hs. apply N.div_small_iff in Hs; [|done].
       change (2 ^ 9)%N with 512%N in Hs. lia. }
  apply N.bits_inj. intros i. rewrite N.shiftr_spec', N.bits_0.
  destruct (decide (i < 23)%N) as [Hi|Hi].
  - apply (f_equal (λ n, N.testbit n (i + 9))) in Hl. rewrite N.land_spec, N.bits_0 in Hl.
    change (N.lxor u32_max 511) with (N.shiftl (N.ones 23) 9) in Hl.
    rewrite N.shiftl_spec_high', N.ones_spec_low, andb_true_r in Hl by lia. done.
  - rewrite <-(N.mod_small m (2 ^ 32)) by (unfold u32_max in Hm; lia).
    apply N.mod_pow2_bits_high. lia.
Qed.

Lemma check_entry_Ok prev e acc :
  DirManifest_check_entry prev e = Ok acc →
  acc = Some (path e) ∧ N.land (mode e) (N.lxor u32_max 511) = 0%N ∧ safe_path (path e)
  ∧ ∀ p, prev = Some p → bytes_lt (as_bytes p) (as_bytes (path e)).
Proof.
  unfold DirManifest_check_entry.
  intros ([] & Hm%fail_if_Ok & ([] & Hp%fail_if_Ok & ([] & Hs%fail_if_Ok & ([] & _ & [= <-])%bind_Ok)
    %bind_Ok)%bind_Ok)%bind_Ok.
  apply negb_false_iff, N.eqb_eq in Hm. apply path_is_valid in Hp.
  split; [done|]. split; [done|]. split; [done|]. intros p ->. simpl in Hs.
  unfold bytes_leb in Hs. by apply negb_false_iff in Hs.
Qed.

Lemma check_entries_loop prev entries acc :
  try_foldl DirManifest_check_entry prev entries = Ok acc →
  Forall (λ e, N.land (mode e) (N.lxor u32_max 511) = 0%N ∧ safe_path (path e)) entries
  ∧ StronglySorted bytes_lt ((λ e, as_bytes (path e)) <$> entries)
  ∧ ∀ p, prev = Some p → Forall (bytes_lt (as_bytes p)) ((λ e, as_bytes (path e)) <$> entries).
Proof.
  revert prev. induction entries as [|e l IH]; intros prev; simpl.
  { intros _. repeat constructor. }
  intros (a & (-> & Hm & Hsafe & Hlt)%check_entry_Ok & (Hall & Hsort & Hgt)%IH)%bind_Ok.
  specialize (Hgt _ eq_refl). split; [by constructor|]. split; [by constructor|].
  intros p Hp. constructor; [by apply Hlt|].
  eapply Forall_impl; [exact Hgt|]. intros x Hx. eapply bytes_lt_trans; [by apply Hlt|done].
Qed.

(** A valid directory manifest lists distinct, ascending, safe paths. *)
Theorem dir_manifest_sound entries :
  DirManifest_validate entries = Ok () → Forall (λ e, (mode e ≤ u32_max)%N) entries →
  StronglySorted bytes_lt ((λ e, as_bytes (path e)) <$> entries)
  ∧ NoDup (path <$> entries)
  ∧ Forall (λ e, safe_path (path e) ∧ (mode e ≤ 511)%N) entries.
Proof.
  intros (acc & (Hall & Hsort & _)%check_entries_loop & _)%bind_Ok Hm.
  split; [done|]. split.
  - clear Hall Hm acc. induction entries as [|e l IH]; simpl; [constructor|].
    apply StronglySorted_inv in Hsort as [Hsort Hlt]. constructor; [|auto].
    intros (e' & Heq & Hin)%list_elem_of_fmap.
    rewrite Forall_forall in Hlt. apply (bytes_lt_irrefl (as_bytes (path e))), Hlt.
    rewrite Heq. by apply (list_elem_of_fmap_2 (λ e, as_bytes (path e))).
  - rewrite Forall_forall in *. intros e He. destruct (Hall e He).
    split; [done|]. apply mode_bits; auto.
Qed.

(** ** Reference instances of the third-party operations.  They show the laws can
    hold together and let the definitions be evaluated. *)

Definition poly_hash (input : bytes) : N :=
  foldl (λ h b, (h * 65599 + Byte.to_N b + 1) mod 18446744073709551616)%N 0%N input.

Definition ref_blake3 : Blake3 := {|
  hasher := bytes;
  hasher_new := [];
  hasher_update := app;
  hasher_finalize h := be_bytes 32 (poly_hash h)
|}.

Definition ref_hex : Hex := {|
  hex_encode := hex_lower;
  hex_decode s := match hex_parse s with Some bs => Ok bs | None => Err "invalid hex" end
|}.

Lemma foldl_app_concat {A} (chunks : list (list A)) acc : foldl app acc chunks = acc ++ concat chunks.
Proof.
  revert acc. induction chunks as [|c chunks IH]; intros acc; simpl; [by rewrite app_nil_r|].
  rewrite IH. by rewrite app_assoc.
Qed.

Lemma ref_blake3_laws : @Blake3Laws ref_blake3.
Proof.
  split.
  - intros h. apply length_be_bytes.
  - intros chunks. exact (f_equal (λ h, be_bytes 32 (poly_hash h)) (foldl_app_concat chunks [])).
Qed.

Lemma ref_hex_laws : @HexLaws ref_hex.
Proof.
  split; simpl; [done|]. intros s bs. destruct (hex_parse s); naive_solver.
Qed.

(** ** Witnesses *)

Definition sample_payload : bytes := as_bytes "hello".
Definition sample_cid : Cid := @Cid_new ref_blake3 CODEC_RAW sample_payload.
Definition sample_placement : PlacementReference := PlacementReference_replicated 1 sample_cid 3.

Lemma sample_cid_wf : wf_cid sample_cid.
Proof. split; [reflexivity|]. split; [vm_compute; discriminate|reflexivity]. Qed.

Lemma cid_display_parse_witness :
  wf_cid sample_cid ∧ @Cid_from_str ref_hex (@Cid_to_string ref_hex sample_cid) = Ok sample_cid.
Proof.
  split; [exact sample_cid_wf|].
  exact (@cid_display_parse ref_hex ref_hex_laws sample_cid sample_cid_wf).
Defined.

Lemma cid_parse_accepts_plus_witness :
  wf_cid sample_cid ∧ @Cid_from_str ref_hex (@plus_text ref_hex sample_cid) = Ok sample_cid.
Proof.
  split; [exact sample_cid_wf|].
  exact (proj1 (@cid_parse_accepts_plus ref_hex ref_hex_laws sample_cid sample_cid_wf)).
Defined.

Lemma cid_digest_binding_witness :
  digest (@Cid_new ref_blake3 1 sample_payload) = digest (@Cid_new ref_blake3 1 sample_payload)
  ∧ ((1%N = 1%N ∧ sample_payload = sample_payload)
     ∨ (digest_input CID_VERSION 1 sample_payload ≠ digest_input CID_VERSION 1 sample_payload
        ∧ @blake3_hash ref_blake3 (digest_input CID_VERSION 1 sample_payload)
          = @blake3_hash ref_blake3 (digest_input CID_VERSION 1 sample_payload))).
Proof.
  split; [reflexivity|].
  apply (@cid_digest_binding ref_blake3 ref_blake3_laws 1 sample_payload 1 sample_payload);
    [vm_compute; discriminate|vm_compute; discriminate|reflexivity].
Defined.

Lemma verify_segments_concat_witness :
  @Cid_verify_segments ref_blake3 sample_cid [as_bytes "he"; as_bytes "llo"] = true.
Proof.
  rewrite (@verify_segments_concat ref_blake3 ref_blake3_laws). vm_compute. reflexivity.
Defined.

Definition sample_verifier : @CidStreamVerifier ref_blake3 :=
  default (@mkVerifier ref_blake3 sample_cid 0 0 [] true) (@stream_verifier ref_blake3 sample_cid 5).

Lemma stream_verifier_correct_witness :
  @verifier_finish ref_blake3
    (foldl (@verifier_update ref_blake3) sample_verifier [as_bytes "he"; as_bytes "llo"]) = true.
Proof.
  apply (@stream_verifier_correct ref_blake3 ref_blake3_laws sample_cid 5);
    [vm_compute; discriminate|reflexivity|].
  split; [reflexivity|vm_compute; reflexivity].
Defined.

Definition sample_manifest : ObjectManifest :=
  mkObjectManifest 5 1024 [mkChunk 0 5 sample_cid sample_placement].

Lemma object_manifest_tiles_witness :
  ∃ i c, om_chunks sample_manifest !! i = Some c
    ∧ (chunk_offset c ≤ 3 < chunk_offset c + chunk_len c)%N.
Proof.
  destruct (object_manifest_tiles sample_manifest 3) as (i & c & Hi & Hr & _);
    [vm_compute; reflexivity|reflexivity|]. exists i, c. split; assumption.
Defined.

Definition sample_erasure : ErasureManifest :=
  mkErasureManifest 24 3 2 24
    [mkStripe 0 24 sample_cid Raw 24 8
       ((λ i, mkShard i sample_cid 8 (PlacementReference_erasure_shard 1 sample_cid i))
          <$> [0; 1; 2; 3; 4]%N)].

Lemma erasure_manifest_sound_witness :
  ∃ i s, stripes sample_erasure !! i = Some s ∧ len (shards s) = 5%N.
Proof.
  destruct (erasure_manifest_sound sample_erasure 7) as (i & s & Hi & _ & _ & Hl & _);
    [vm_compute; reflexivity|reflexivity|]. exists i, s. split; assumption.
Defined.

Definition sample_entries : list DirEntry :=
  [mkDirEntry "bin" "directory" 493 None None;
   mkDirEntry "bin/tool" "file" 493 (Some 5%N) (Some sample_cid)].

Lemma dir_manifest_sound_witness :
  DirManifest_validate sample_entries = Ok () ∧ NoDup (path <$> sample_entries).
Proof.
  split; [vm_compute; reflexivity|].
  apply (dir_manifest_sound sample_entries); [vm_compute; reflexivity|].
  repeat constructor; vm_compute; discriminate.
Defined.
