(* ===== verification/Tables.v ===== *)
(** * Ordered tables

    A table of the metadata database: rows under text keys, read in the order of the bytes
    of the keys, from a key on or below a prefix. *)
From stdpp Require Import base gmap sets list strings sorting.
From Stdlib Require Import Strings.Byte Strings.Ascii.
From S2P Require Import Prelude Types.

Fixpoint take_while {A} (p : A → bool) (l : list A) : list A :=
  match l with
  | [] => []
  | x :: l => if p x then x :: take_while p l else []
  end.

(** [table.range(key..)] *)
Definition range_from {A} (key : string) (t : gmap string A) : list (string * A) :=
  filter (λ kv, bytes_leb (as_bytes key) (as_bytes kv.1) = true) (btree_iter t).

(** The rows of one prefix: from the prefix up to the first key without it. *)
Definition rows_with {A} (prefix : string) (t : gmap string A) : list (string * A) :=
  take_while (λ kv, starts_with (as_bytes prefix) (as_bytes kv.1)) (range_from prefix t).

(** ** Prefixes *)

Definition has_prefix (p k : string) : Prop := ∃ r, k = p +:+ r.

Lemma starts_with_prefix p k : starts_with (as_bytes p) (as_bytes k) = true ↔ has_prefix p k.
Proof.
  rewrite starts_with_spec. split; [intros [r Hr]|intros [r ->]].
  - exists (String.string_of_list_byte r). apply as_bytes_inj. rewrite as_bytes_app, Hr. f_equal.
    unfold as_bytes. by rewrite String.list_byte_of_string_of_list_byte.
  - rewrite as_bytes_app. eauto.
Qed.

#[global] Instance has_prefix_dec p k : Decision (has_prefix p k).
Proof.
  destruct (starts_with (as_bytes p) (as_bytes k)) eqn:E; [left|right];
    [by apply starts_with_prefix|]. intros H%starts_with_prefix. congruence.
Defined.

(** Two prefixes of one length of a string are equal. *)
Lemma same_prefix p q k : slen p = slen q → has_prefix p k → has_prefix q k → p = q.
Proof.
  intros Hl [r ->] [s Hs]. apply (f_equal as_bytes) in Hs. rewrite !as_bytes_app in Hs.
  apply app_inj_1 in Hs as [Hs _]; [by apply as_bytes_inj|]. unfold slen, len in Hl. lia.
Qed.

Lemma has_prefix_shorter p q k : has_prefix (p +:+ q) k → has_prefix p k.
Proof. intros [r ->]. exists (q +:+ r). apply as_bytes_inj. by rewrite !as_bytes_app, app_assoc. Qed.

(** ** Scans *)

Lemma take_while_sorted {A} (R : relation A) (p : A → bool) l x :
  StronglySorted R l → (∀ y z, y ∈ l → z ∈ l → R y z → p z = true → p y = true) →
  x ∈ take_while p l ↔ x ∈ l ∧ p x = true.
Proof.
  induction 1 as [|a l Hs IH Ha]; intros Hp; cbn; [split; [by intros ?%elem_of_nil|by intros [?%elem_of_nil _]]|].
  rewrite Forall_forall in Ha. destruct (p a) eqn:Hpa.
  - rewrite !elem_of_cons, IH by (intros y z Hy Hz; apply Hp; by right). naive_solver.
  - split; [by intros ?%elem_of_nil|]. intros [[-> | Hx]%elem_of_cons Hpx]; [congruence|].
    rewrite (Hp a x) in Hpa; [done|left|by right|by apply Ha|done].
Qed.

Lemma filter_sorted {A} (R : relation A) (P : A → Prop) `{∀ x, Decision (P x)} l :
  StronglySorted R l → StronglySorted R (filter P l).
Proof.
  induction 1 as [|a l Hs IH Ha]; [constructor|]. rewrite filter_cons. destruct (decide (P a)); [|done].
  constructor; [done|]. rewrite Forall_forall in *. intros x [_ Hx]%list_elem_of_filter. by apply Ha.
Qed.

Lemma btree_iter_sorted {A} (m : gmap string A) : StronglySorted btree_le (btree_iter m).
Proof.
  apply Sorted_StronglySorted; [|apply Sorted_merge_sort].
  - intros [x ?] [y ?] [z ?]. unfold btree_le; cbn. rewrite !bytes_leb_spec. intros [Hx|Hx] [Hy|Hy]; [left; by etrans|left; by rewrite <-Hy|left; by rewrite Hx|right; by rewrite Hx].
  - intros [x ?] [y ?]. unfold btree_le; cbn. rewrite !bytes_leb_spec.
    destruct (bytes_lt_trichotomy (as_bytes x) (as_bytes y)) as [?|[?|?]]; auto.
Qed.

Lemma take_while_sublist {A} (p : A → bool) l : sublist (take_while p l) l.
Proof. induction l as [|x l IH]; cbn; [constructor|]. destruct (p x); constructor; [done|apply sublist_nil_l]. Qed.

Lemma StronglySorted_sublist {A} (R : relation A) l k : sublist l k → StronglySorted R k → StronglySorted R l.
Proof.
  induction 1 as [|x l k Hlk IH|x l k Hlk IH]; intros Hs; [constructor|apply StronglySorted_inv in Hs as [Hs Hx]..]; [|auto].
  constructor; [auto|]. rewrite Forall_forall in *. intros y Hy. apply Hx. by eapply elem_of_sublist.
Qed.

(** ** What a scan reads *)

Lemma range_from_elem {A} key (t : gmap string A) k a :
  (k, a) ∈ range_from key t ↔ t !! k = Some a ∧ bytes_leb (as_bytes key) (as_bytes k) = true.
Proof. unfold range_from. rewrite list_elem_of_filter, elem_of_btree_iter. cbn. tauto. Qed.

Lemma range_from_sorted {A} key (t : gmap string A) : StronglySorted btree_le (range_from key t).
Proof. apply filter_sorted, btree_iter_sorted. Qed.

Lemma btree_iter_keys {A} (t : gmap string A) : NoDup (btree_iter t).*1.
Proof. unfold btree_iter. rewrite merge_sort_Permutation. apply NoDup_fst_map_to_list. Qed.

Lemma range_from_keys {A} key (t : gmap string A) : NoDup (range_from key t).*1.
Proof. eapply sublist_NoDup; [apply (btree_iter_keys t)|]. apply fmap_sublist, sublist_filter. Qed.

Lemma prefix_leb p k : has_prefix p k → bytes_leb (as_bytes p) (as_bytes k) = true.
Proof.
  intros [r ->]. rewrite as_bytes_app, bytes_leb_spec. destruct (as_bytes r) as [|c r'] eqn:E; [by rewrite app_nil_r; right|left].
  rewrite <-(app_nil_r (as_bytes p)) at 1. by apply bytes_lt_app_l.
Qed.

(** Keys between two keys with a prefix have it. *)
Lemma prefix_between p k l m :
  has_prefix p k → has_prefix p m → bytes_leb (as_bytes k) (as_bytes l) = true → bytes_leb (as_bytes l) (as_bytes m) = true → has_prefix p l.
Proof.
  intros [r ->] [r' ->]. rewrite !as_bytes_app, !bytes_leb_spec. intros Hkl Hlm. apply starts_with_prefix, starts_with_spec.
  by eapply bytes_sandwich.
Qed.

Lemma rows_with_spec {A} p (t : gmap string A) k a : (k, a) ∈ rows_with p t ↔ t !! k = Some a ∧ has_prefix p k.
Proof.
  unfold rows_with. rewrite (take_while_sorted btree_le); [|apply range_from_sorted|].
  - rewrite range_from_elem, starts_with_prefix. cbn [fst snd]. split; [tauto|]. intros [Hk Hp]. split_and!; [done|by apply prefix_leb|done].
  - intros [y b] [z c] Hy _ Hyz Hz. apply range_from_elem in Hy as [_ Hy]. unfold btree_le in Hyz. cbn [fst snd] in *.
    rewrite starts_with_prefix in *. eapply (prefix_between p p y z); [|done|done|done]. exists "". apply as_bytes_inj. by rewrite as_bytes_app, app_nil_r.
Qed.

Lemma rows_with_sublist {A} p (t : gmap string A) : sublist (rows_with p t) (btree_iter t).
Proof. unfold rows_with, range_from. etrans; [apply take_while_sublist|]. apply sublist_filter. Qed.

(** ** Keys made of parts *)

(** Text before a separator that it does not contain is determined. *)
Lemma cut_at_sep sep p q s t :
  string_forallb (λ c, negb (bool_decide (c = sep))) p = true →
  string_forallb (λ c, negb (bool_decide (c = sep))) q = true →
  p +:+ String sep s = q +:+ String sep t → p = q ∧ s = t.
Proof.
  revert q. induction p as [|c p IH]; intros [|d q]; cbn [string_forallb]; rewrite ?andb_true_iff, ?negb_true_iff, ?bool_decide_eq_false;
    intros Hp Hq Heq; cbn in Heq; simplify_eq; [done|naive_solver..|].
  destruct (IH q) as [-> ->]; naive_solver.
Qed.
