(* ===== verification/Merkle.v ===== *)
(** * Persistent ordered Merkle radix map (crates/pepper-merkle)

    Nodes are content-addressed blocks in a store the crate only sees through
    [get] and [put]; the serializer and the hash are third-party.  Reading
    operations are functions of the store, writing operations thread it.
    Recursion on the depth counter is structural: [levels] is
    [max_depth + 1 - depth], so [O] is exactly [depth > max_depth].  The two
    work-list loops recurse on what is left of their node limit. *)
From stdpp Require Import base gmap sets list strings sorting.
From Stdlib Require Import Strings.Byte.
From S2P Require Import Prelude Types.

(** ** Third-party and trait interfaces *)

(** serde_json::to_vec and serde_json::from_slice at one type. *)
Class Json (A : Type) := {
  to_vec : A → result string bytes;
  from_slice : bytes → result string A
}.

(** Serialized values deserialize to themselves. *)
Class JsonLaws (A : Type) `{Json A} : Prop := {
  from_slice_to_vec a p : to_vec a = Ok p → from_slice p = Ok a
}.

(** [MerkleReadStore] and [MerkleWriteStore] *)
Class MerkleStore (S : Type) := {
  store_get : S → Cid → result string bytes;
  store_put : Codec → bytes → stm S string Cid
}.

(** What the crate relies on: an acknowledged block can be read back, and
    blocks are never lost or changed by later writes, failed ones included. *)
Class MerkleStoreLaws (S : Type) `{MerkleStore S} : Prop := {
  put_get s k p c s' : store_put k p s = (Ok c, s') → store_get s' c = Ok p;
  put_keeps s k p r s' c q :
    store_put k p s = (r, s') → store_get s c = Ok q → store_get s' c = Ok q
}.

(** ** Data *)

Definition NODE_TYPE : string := "pepper.merkle_radix_node".
Definition NODE_VERSION : N := 1.
Definition CURSOR_VERSION : N := 1.

Record MerkleLimits := mkLimits {
  max_key_bytes : N;
  max_value_kind_bytes : N;
  max_metadata_entries : N;
  max_metadata_bytes : N;
  max_node_bytes : N;
  max_children : N;
  max_depth : N;
  max_validation_nodes : N;
  max_scan_entries : N;
  max_scan_nodes : N
}.

Definition MerkleLimits_default : MerkleLimits := {|
  max_key_bytes := 1024;
  max_value_kind_bytes := 64;
  max_metadata_entries := 64;
  max_metadata_bytes := 16 * 1024;
  max_node_bytes := 1024 * 1024;
  max_children := 256;
  max_depth := 1024;
  max_validation_nodes := 2000000;
  max_scan_entries := 10000;
  max_scan_nodes := 2000000
|}.

Inductive MerkleError :=
| InvalidLimits
| InvalidNodeCodec (codec : string)
| Read (cid message : string)
| Write_ (message : string)
| WrongStoredCid (expected actual : string)
| HashMismatch (cid : string)
| InvalidNode (message : string)
| NonCanonicalNode
| NodeTooLarge (actual limit : N)
| KeyTooLarge (actual limit : N)
| InvalidValue (message : string)
| UnsortedMutations
| InvalidScanLimit (limit : N)
| InvalidRange
| InvalidCursor (message : string)
| CursorRootMismatch (cursor_root requested_root : string)
| CursorQueryMismatch
| TooDeep (limit : N)
| TooManyNodes (limit : N)
| DuplicateNode (cid : string)
(** not a variant of the enum: an index out of range, which panics *)
| Panicked.

Definition MerkleLimits_validate (l : MerkleLimits) : result MerkleError MerkleLimits :=
  _ ← fail_if ((max_key_bytes l =? 0)%N
               || (max_value_kind_bytes l =? 0)%N
               || (max_metadata_entries l =? 0)%N
               || (max_metadata_bytes l =? 0)%N
               || (max_node_bytes l =? 0)%N
               || (max_children l =? 0)%N
               || (256 <? max_children l)%N
               || (max_depth l =? 0)%N
               || (max_validation_nodes l =? 0)%N
               || (max_scan_entries l =? 0)%N
               || (max_scan_nodes l =? 0)%N) InvalidLimits;
  Ok l.

Record MerkleValue := mkValue {
  value_cid : Cid;
  generation : N;
  value_kind : string;
  metadata : gmap string string
}.

#[export] Instance MerkleValue_eq_dec : EqDecision MerkleValue.
Proof. solve_decision. Defined.

Inductive Mutation :=
| Put (key : bytes) (value : MerkleValue)
| Delete (key : bytes).

Definition Mutation_key (m : Mutation) : bytes :=
  match m with Put key _ | Delete key => key end.

Record MapEntry := mkEntry { entry_key : bytes; entry_value : MerkleValue }.

Record ScanQuery := mkQuery {
  q_start : option bytes;
  q_end : option bytes;
  q_prefix : option bytes;
  q_limit : N;
  q_cursor : option string
}.

Record ScanPage := mkPage {
  page_root : Cid;
  page_entries : list MapEntry;
  next_cursor : option string;
  nodes_read : N
}.

Record ValidationReport := mkReport {
  report_nodes : N;
  report_entries : N;
  report_depth : N
}.

Record BulkGetResult := mkBulk { bulk_values : list (option MerkleValue); unique_nodes_read : N }.

Record Child := mkChild { child_edge : byte; child_cid : Cid }.

#[export] Instance Child_eq_dec : EqDecision Child.
Proof. solve_decision. Defined.

Record Node := mkNode {
  node_type : string;
  node_version : N;
  prefix_hex : string;
  node_value : option MerkleValue;
  node_children : list Child
}.

#[export] Instance Node_eq_dec : EqDecision Node.
Proof. solve_decision. Defined.

Record CursorRecord := mkCursor {
  cursor_version : N;
  cursor_root : Cid;
  after_key_hex : string;
  start_hex : option string;
  end_hex : option string;
  cursor_prefix_hex : option string
}.

(** ** Slices *)

(** [children.binary_search_by_key(&edge, |child| child.edge)] on a slice sorted
    by edge: the position of the match, or where it would be inserted. *)
Fixpoint search_edge {A} (edge_of : A → byte) (edge : byte) (l : list A) : nat + nat :=
  match l with
  | [] => inr 0
  | c :: l =>
      if (Byte.to_N (edge_of c) <? Byte.to_N edge)%N then
        match search_edge edge_of edge l with inl i => inl (S i) | inr i => inr (S i) end
      else if decide (edge_of c = edge) then inl 0 else inr 0
  end.

(** [vec.insert(index, value)] *)
Definition vec_insert {A} (i : nat) (x : A) (l : list A) : list A := take i l ++ x :: drop i l.

Definition common_prefix_len (left right : bytes) : nat :=
  (fix go l r := match l, r with
                 | x :: l, y :: r => if decide (x = y) then S (go l r) else 0
                 | _, _ => 0
                 end) left right.

(** ** Validation of keys, values and nodes *)

Definition validate_key (key : bytes) (limits : MerkleLimits) : result MerkleError unit :=
  fail_if (max_key_bytes limits <? len key)%N (KeyTooLarge (len key) (max_key_bytes limits)).

Definition usize_max : N := u64_max.

Definition metadata_step (total : N) (kv : string * string) : result MerkleError N :=
  _ ← fail_if (bool_decide (kv.1 = "")) (InvalidValue "metadata key must not be empty");
  Ok (saturating_add usize_max (saturating_add usize_max total (slen kv.1)) (slen kv.2)).

Definition validate_value (value : MerkleValue) (limits : MerkleLimits) : result MerkleError unit :=
  _ ← fail_if (generation value =? 0)%N (InvalidValue "generation must be greater than zero");
  _ ← fail_if (bool_decide (value_kind value = "")
               || (max_value_kind_bytes limits <? slen (value_kind value))%N)
        (InvalidValue "value kind is empty or too long");
  _ ← fail_if (max_metadata_entries limits <? N.of_nat (size (metadata value)))%N
        (InvalidValue "too many metadata entries");
  metadata_bytes ← try_foldl metadata_step 0%N (btree_iter (metadata value));
  fail_if (max_metadata_bytes limits <? metadata_bytes)%N
    (InvalidValue "metadata exceeds byte limit").

Definition check_mutation (limits : MerkleLimits) (previous : option bytes) (m : Mutation)
  : result MerkleError (option bytes) :=
  _ ← validate_key (Mutation_key m) limits;
  _ ← match m with Put _ value => validate_value value limits | Delete _ => Ok () end;
  _ ← fail_if (is_some_and (λ p, bytes_leb (Mutation_key m) p) previous) UnsortedMutations;
  Ok (Some (Mutation_key m)).

Definition validate_mutations (mutations : list Mutation) (limits : MerkleLimits)
  : result MerkleError unit :=
  _ ← try_foldl (check_mutation limits) None mutations;
  Ok ().

Definition check_sorted_entry (limits : MerkleLimits) (previous : option bytes) (e : MapEntry)
  : result MerkleError (option bytes) :=
  _ ← validate_key (entry_key e) limits;
  _ ← validate_value (entry_value e) limits;
  _ ← fail_if (is_some_and (λ p, bytes_leb (entry_key e) p) previous) UnsortedMutations;
  Ok (Some (entry_key e)).

Definition check_child (previous : option byte) (child : Child) : result MerkleError (option byte) :=
  _ ← fail_if (negb (codec (child_cid child) =? CODEC_MERKLE_NODE)%N)
        (InvalidNodeCodec (canonical_display (codec (child_cid child))));
  _ ← fail_if (is_some_and (λ e, (Byte.to_N (child_edge child) <=? Byte.to_N e)%N) previous)
        (InvalidNode "child edges are not strictly sorted");
  Ok (Some (child_edge child)).

Definition insert_child_sorted (children : list Child) (child : Child)
  : result MerkleError (list Child) :=
  match search_edge child_edge (child_edge child) children with
  | inl _ => Err (InvalidNode "duplicate child edge")
  | inr index => Ok (vec_insert index child children)
  end.

Definition key_matches (key : bytes) (query : ScanQuery) (after : option bytes) : bool :=
  is_none_or (λ after, bytes_ltb after key) after
  && is_none_or (λ start, bytes_leb start key) (q_start query)
  && is_none_or (λ stop, bytes_ltb key stop) (q_end query)
  && is_none_or (λ prefix, starts_with prefix key) (q_prefix query).

Definition common_prefix_for_entries (entries : list MapEntry) (offset : nat) : result MerkleError nat :=
  first ← ok_or (head entries) Panicked;
  last ← ok_or (last entries) Panicked;
  Ok (common_prefix_len (drop offset (entry_key first)) (drop offset (entry_key last))).

Section Merkle.
Context `{Blake3} `{Hex} `{Json Node} `{Json CursorRecord} {S : Type} `{MerkleStore S}.

(** ** Nodes *)

Definition Node_new (prefix : bytes) (value : option MerkleValue) (children : list Child) : Node :=
  mkNode NODE_TYPE NODE_VERSION (hex_encode prefix) value children.

Definition Node_prefix (n : Node) : result MerkleError bytes :=
  map_err (λ error, InvalidNode ("invalid prefix hex: " +:+ error)) (hex_decode (prefix_hex n)).

Definition validate_node_shallow (node : Node) (limits : MerkleLimits) : result MerkleError unit :=
  _ ← fail_if (negb (bool_decide (node_type node = NODE_TYPE))) (InvalidNode "wrong type");
  _ ← fail_if (negb (node_version node =? NODE_VERSION)%N)
        (InvalidNode ("unsupported version " +:+ fmt_radix 10 (node_version node)));
  prefix ← Node_prefix node;
  _ ← fail_if (max_key_bytes limits <? len prefix)%N (KeyTooLarge (len prefix) (max_key_bytes limits));
  _ ← match node_value node with Some value => validate_value value limits | None => Ok () end;
  _ ← fail_if (max_children limits <? len (node_children node))%N
        (InvalidNode (fmt_radix 10 (len (node_children node)) +:+ " children exceeds limit "
                      +:+ fmt_radix 10 (max_children limits)));
  _ ← try_foldl check_child None (node_children node);
  Ok ().

Definition decode_node (payload : bytes) (limits : MerkleLimits) : result MerkleError Node :=
  _ ← fail_if (max_node_bytes limits <? len payload)%N
        (NodeTooLarge (len payload) (max_node_bytes limits));
  node ← map_err InvalidNode (from_slice payload);
  _ ← validate_node_shallow node limits;
  canonical ← map_err InvalidNode (to_vec node);
  _ ← fail_if (negb (bool_decide (canonical = payload))) NonCanonicalNode;
  Ok node.

Definition load_node (s : S) (cid : Cid) (limits : MerkleLimits) : result MerkleError Node :=
  _ ← fail_if (negb (codec cid =? CODEC_MERKLE_NODE)%N)
        (InvalidNodeCodec (canonical_display (codec cid)));
  payload ← map_err (Read (Cid_to_string cid)) (store_get s cid);
  _ ← fail_if (negb (Cid_verify cid payload)) (HashMismatch (Cid_to_string cid));
  decode_node payload limits.

Definition store_node (node : Node) (limits : MerkleLimits) : stm S MerkleError Cid :=
  _ ← lift (validate_node_shallow node limits);
  payload ← lift (map_err InvalidNode (to_vec node));
  _ ← lift (fail_if (max_node_bytes limits <? len payload)%N
              (NodeTooLarge (len payload) (max_node_bytes limits)));
  let expected := Cid_new CODEC_MERKLE_NODE payload in
  actual ← (λ s, let '(r, s') := store_put CODEC_MERKLE_NODE payload s in (map_err Write_ r, s'));
  _ ← lift (fail_if (negb (bool_decide (actual = expected)))
              (WrongStoredCid (Cid_to_string expected) (Cid_to_string actual)));
  mret actual.

Definition empty_root (limits : MerkleLimits) : stm S MerkleError Cid :=
  limits ← lift (MerkleLimits_validate limits);
  store_node (Node_new [] None []) limits.

(** ** Point reads *)

(** One step of the descent at a loaded node: the answer, or the child to visit
    and the new offset. *)
Definition descend (node : Node) (key : bytes) (offset : nat)
  : result MerkleError (option MerkleValue + Cid * nat) :=
  prefix ← Node_prefix node;
  if negb (starts_with prefix (drop offset key)) then Ok (inl None)
  else
    let offset := offset + length prefix in
    if decide (offset = length key) then Ok (inl (node_value node))
    else
      edge ← ok_or (key !! offset) Panicked;
      match search_edge child_edge edge (node_children node) with
      | inr _ => Ok (inl None)
      | inl index =>
          child ← ok_or (node_children node !! index) Panicked;
          Ok (inr (child_cid child, offset))
      end.

Fixpoint get_loop (s : S) (limits : MerkleLimits) (key : bytes) (levels : nat) (cid : Cid) (offset : nat)
  : result MerkleError (option MerkleValue) :=
  match levels with
  | O => Err (TooDeep (max_depth limits))
  | Datatypes.S levels =>
      node ← load_node s cid limits;
      step ← descend node key offset;
      match step with
      | inl answer => Ok answer
      | inr (cid, offset) => get_loop s limits key levels cid offset
      end
  end.

Definition all_levels (limits : MerkleLimits) : nat := Datatypes.S (N.to_nat (max_depth limits)).

Definition get (s : S) (root : Cid) (key : bytes) (limits : MerkleLimits)
  : result MerkleError (option MerkleValue) :=
  limits ← MerkleLimits_validate limits;
  _ ← validate_key key limits;
  get_loop s limits key (all_levels limits) root 0.

(** The same descent through a request-scoped cache of loaded nodes. *)
Fixpoint get_cached (s : S) (limits : MerkleLimits) (key : bytes) (levels : nat) (cid : Cid) (offset : nat)
  : stm (gmap Cid Node) MerkleError (option MerkleValue) :=
  match levels with
  | O => lift (Err (TooDeep (max_depth limits)))
  | Datatypes.S levels =>
      node ← (λ cache : gmap Cid Node,
                match cache !! cid with
                | Some node => (Ok node, cache)
                | None => match load_node s cid limits with
                          | Ok node => (Ok node, <[cid := node]> cache)
                          | Err e => (Err e, cache)
                          end
                end);
      step ← lift (descend node key offset);
      match step with
      | inl answer => mret answer
      | inr (cid, offset) => get_cached s limits key levels cid offset
      end
  end.

Fixpoint get_each (s : S) (limits : MerkleLimits) (root : Cid) (keys : list bytes)
  : stm (gmap Cid Node) MerkleError (list (option MerkleValue)) :=
  match keys with
  | [] => mret []
  | key :: keys =>
      value ← get_cached s limits key (all_levels limits) root 0;
      values ← get_each s limits root keys;
      mret (value :: values)
  end.

Definition get_many (s : S) (root : Cid) (keys : list bytes) (limits : MerkleLimits)
  : result MerkleError BulkGetResult :=
  limits ← MerkleLimits_validate limits;
  _ ← fail_if (max_scan_entries limits <? len keys)%N (TooManyNodes (max_scan_entries limits));
  _ ← try_foldl (λ _ key, validate_key key limits) () keys;
  let '(values, cache) := get_each s limits root keys ∅ in
  values ← values;
  Ok (mkBulk values (N.of_nat (size cache))).

(** ** Writes *)

Definition with_prefix_hex (n : Node) (hex : string) : Node :=
  mkNode (node_type n) (node_version n) hex (node_value n) (node_children n).
Definition with_value (n : Node) (value : option MerkleValue) : Node :=
  mkNode (node_type n) (node_version n) (prefix_hex n) value (node_children n).
Definition with_children (n : Node) (children : list Child) : Node :=
  mkNode (node_type n) (node_version n) (prefix_hex n) (node_value n) children.

Definition load (cid : Cid) (limits : MerkleLimits) : stm S MerkleError Node :=
  reads (λ s, load_node s cid limits).

Definition normalize_and_store (node : Node) (limits : MerkleLimits)
  : stm S MerkleError (option Cid) :=
  match node_value node, node_children node with
  | None, [] => mret None
  | None, [only] =>
      child ← load (child_cid only) limits;
      prefix ← lift (Node_prefix node);
      child_prefix ← lift (Node_prefix child);
      cid ← store_node (Node_new (prefix ++ child_prefix) (node_value child) (node_children child)) limits;
      mret (Some cid)
  | _, _ =>
      cid ← store_node node limits;
      mret (Some cid)
  end.

(** The branch of [insert_at] where the key leaves the node's prefix after
    [common] bytes: the node is split. *)
Definition insert_split (node : Node) (prefix remaining : bytes) (common : nat) (value : MerkleValue)
    (limits : MerkleLimits) : stm S MerkleError Cid :=
  let existing_prefix := drop common prefix in
  existing_edge ← lift (ok_or (existing_prefix !! 0) Panicked);
  existing_cid ← store_node (with_prefix_hex node (hex_encode existing_prefix)) limits;
  let children := [mkChild existing_edge existing_cid] in
  children ←
    (if (common <? length remaining)%nat then
       let new_prefix := drop common remaining in
       edge ← lift (ok_or (new_prefix !! 0) Panicked);
       new_cid ← store_node (Node_new new_prefix (Some value) []) limits;
       lift (insert_child_sorted children (mkChild edge new_cid))
     else mret children);
  store_node
    (Node_new (take common prefix)
       (if decide (common = length remaining) then Some value else None) children) limits.

Fixpoint insert_at (limits : MerkleLimits) (key : bytes) (value : MerkleValue)
    (levels : nat) (cid : Cid) (offset : nat) : stm S MerkleError Cid :=
  match levels with
  | O => lift (Err (TooDeep (max_depth limits)))
  | Datatypes.S levels =>
      _ ← lift (fail_if (length key <? offset)%nat (TooDeep (max_depth limits)));
      _ ← lift (validate_value value limits);
      node ← load cid limits;
      prefix ← lift (Node_prefix node);
      let remaining := drop offset key in
      let common := common_prefix_len prefix remaining in
      if (common <? length prefix)%nat then insert_split node prefix remaining common value limits
      else
        let next_offset := offset + length prefix in
        if decide (next_offset = length key) then store_node (with_value node (Some value)) limits
        else
          edge ← lift (ok_or (key !! next_offset) Panicked);
          node ←
            match search_edge child_edge edge (node_children node) with
            | inl index =>
                child ← lift (ok_or (node_children node !! index) Panicked);
                updated ← insert_at limits key value levels (child_cid child) next_offset;
                mret (with_children node
                        (<[index := mkChild (child_edge child) updated]> (node_children node)))
            | inr index =>
                child_cid ← store_node (Node_new (drop next_offset key) (Some value) []) limits;
                mret (with_children node (vec_insert index (mkChild edge child_cid) (node_children node)))
            end;
          stored ← normalize_and_store node limits;
          lift (ok_or stored (InvalidNode "insert produced an empty tree"))
  end.

Fixpoint delete_at (limits : MerkleLimits) (key : bytes) (levels : nat) (cid : Cid) (offset : nat)
  : stm S MerkleError (option Cid) :=
  match levels with
  | O => lift (Err (TooDeep (max_depth limits)))
  | Datatypes.S levels =>
      node ← load cid limits;
      prefix ← lift (Node_prefix node);
      if negb (starts_with prefix (drop offset key)) then mret (Some cid)
      else
        let next_offset := offset + length prefix in
        if decide (next_offset = length key) then
          match node_value node with
          | None => mret (Some cid)
          | Some _ => normalize_and_store (with_value node None) limits
          end
        else
          edge ← lift (ok_or (key !! next_offset) Panicked);
          match search_edge child_edge edge (node_children node) with
          | inr _ => mret (Some cid)
          | inl index =>
              child ← lift (ok_or (node_children node !! index) Panicked);
              result ← delete_at limits key levels (child_cid child) next_offset;
              normalize_and_store
                (with_children node
                   match result with
                   | Some updated => <[index := mkChild (child_edge child) updated]> (node_children node)
                   | None => take index (node_children node) ++ drop (Datatypes.S index) (node_children node)
                   end) limits
          end
  end.

Definition apply_mutation (limits : MerkleLimits) (current : Cid) (m : Mutation)
  : stm S MerkleError Cid :=
  match m with
  | Put key value => insert_at limits key value (all_levels limits) current 0
  | Delete key =>
      deleted ← delete_at limits key (all_levels limits) current 0;
      match deleted with Some cid => mret cid | None => empty_root limits end
  end.

Fixpoint apply_mutations (limits : MerkleLimits) (current : Cid) (ms : list Mutation)
  : stm S MerkleError Cid :=
  match ms with
  | [] => mret current
  | m :: ms => current ← apply_mutation limits current m; apply_mutations limits current ms
  end.

Definition apply_batch (root : Cid) (mutations : list Mutation) (limits : MerkleLimits)
  : stm S MerkleError Cid :=
  limits ← lift (MerkleLimits_validate limits);
  _ ← lift (validate_mutations mutations limits);
  _ ← load root limits;
  apply_mutations limits root mutations.

(** The [while] loops of [build_subtree]: collect the run of entries that share
    the byte at [position], build its subtree, go on with the next run. *)
Fixpoint build_groups (build : list MapEntry → stm S MerkleError Cid) (position : nat)
    (edge : byte) (group rest : list MapEntry) (children : list Child) : stm S MerkleError (list Child) :=
  match rest with
  | [] => cid ← build group; mret (children ++ [mkChild edge cid])
  | e :: rest =>
      if bool_decide (entry_key e !! position = Some edge) then
        build_groups build position edge (group ++ [e]) rest children
      else
        cid ← build group;
        next ← lift (ok_or (entry_key e !! position) Panicked);
        build_groups build position next [e] rest (children ++ [mkChild edge cid])
  end.

Fixpoint build_subtree (limits : MerkleLimits) (levels : nat) (entries : list MapEntry) (offset : nat)
  : stm S MerkleError Cid :=
  match levels with
  | O => lift (Err (TooDeep (max_depth limits)))
  | Datatypes.S levels =>
      prefix_len ← lift (common_prefix_for_entries entries offset);
      first ← lift (ok_or (head entries) Panicked);
      let prefix := take prefix_len (drop offset (entry_key first)) in
      let position := offset + prefix_len in
      let at_node := bool_decide (length (entry_key first) = position) in
      let value := if at_node then Some (entry_value first) else None in
      children ←
        match (if at_node then tail entries else entries) with
        | [] => mret []
        | e :: rest =>
            edge ← lift (ok_or (entry_key e !! position) Panicked);
            build_groups (λ group, build_subtree limits levels group position) position edge [e] rest []
        end;
      store_node (Node_new prefix value children) limits
  end.

Definition build_from_sorted (entries : list MapEntry) (limits : MerkleLimits)
  : stm S MerkleError Cid :=
  limits ← lift (MerkleLimits_validate limits);
  _ ← lift (try_foldl (check_sorted_entry limits) None entries);
  match entries with
  | [] => empty_root limits
  | _ => build_subtree limits (all_levels limits) entries 0
  end.

(** ** Scans *)

Definition encode_optional (value : option bytes) : option string := hex_encode <$> value.

Definition encode_cursor (cursor : CursorRecord) : result MerkleError string :=
  bytes ← map_err InvalidCursor (to_vec cursor);
  Ok (hex_encode bytes).

Definition decode_cursor (cursor : string) : result MerkleError CursorRecord :=
  bytes ← map_err InvalidCursor (hex_decode cursor);
  decoded ← map_err InvalidCursor (from_slice bytes);
  canonical ← map_err InvalidCursor (to_vec decoded);
  _ ← fail_if (negb (bool_decide (canonical = bytes))) (InvalidCursor "non-canonical encoding");
  _ ← fail_if (negb (cursor_version decoded =? CURSOR_VERSION)%N)
        (InvalidCursor ("unsupported version " +:+ fmt_radix 10 (cursor_version decoded)));
  Ok decoded.

(** The work list, head first: pushing the children in reverse puts them in
    order on top.  [budget] is [max_scan_nodes - nodes_read]. *)
Fixpoint scan_loop (s : S) (limits : MerkleLimits) (query : ScanQuery) (after : option bytes)
    (budget : nat) (stack : list (Cid * bytes * N)) (entries : list MapEntry) (nodes_read : N)
  : result MerkleError (list MapEntry * N) :=
  match stack with
  | [] => Ok (entries, nodes_read)
  | (cid, parent_key, depth) :: stack =>
      _ ← fail_if (max_depth limits <? depth)%N (TooDeep (max_depth limits));
      match budget with
      | O => Err (TooManyNodes (max_scan_nodes limits))
      | Datatypes.S budget =>
          node ← load_node s cid limits;
          prefix ← Node_prefix node;
          let key := parent_key ++ prefix in
          let found := match node_value node with
                       | Some value => if key_matches key query after then [mkEntry key value] else []
                       | None => []
                       end in
          let entries' := entries ++ found in
          if bool_decide (found ≠ []) && (q_limit query <? len entries')%N then
            Ok (entries', nodes_read + 1)%N
          else
            scan_loop s limits query after budget
              (((λ child, (child_cid child, key, depth + 1)%N) <$> node_children node) ++ stack)
              entries' (nodes_read + 1)
      end
  end.

(** The position a cursor resumes after. *)
Definition cursor_after (root : Cid) (query : ScanQuery) : result MerkleError (option bytes) :=
  match q_cursor query with
  | None => Ok None
  | Some cursor =>
      cursor ← decode_cursor cursor;
      _ ← fail_if (negb (bool_decide (cursor_root cursor = root)))
            (CursorRootMismatch (Cid_to_string (cursor_root cursor)) (Cid_to_string root));
      _ ← fail_if (negb (bool_decide (start_hex cursor = encode_optional (q_start query)))
                   || negb (bool_decide (end_hex cursor = encode_optional (q_end query)))
                   || negb (bool_decide (cursor_prefix_hex cursor = encode_optional (q_prefix query))))
            CursorQueryMismatch;
      after ← map_err InvalidCursor (hex_decode (after_key_hex cursor));
      Ok (Some after)
  end.

Definition validate_opt_key (key : option bytes) (limits : MerkleLimits) : result MerkleError unit :=
  match key with Some key => validate_key key limits | None => Ok () end.

Definition scan (s : S) (root : Cid) (query : ScanQuery) (limits : MerkleLimits)
  : result MerkleError ScanPage :=
  limits ← MerkleLimits_validate limits;
  _ ← fail_if ((q_limit query =? 0)%N || (max_scan_entries limits <? q_limit query)%N)
        (InvalidScanLimit (max_scan_entries limits));
  _ ← fail_if (match q_start query, q_end query with
               | Some start, Some stop => bytes_leb stop start
               | _, _ => false
               end) InvalidRange;
  _ ← validate_opt_key (q_start query) limits;
  _ ← validate_opt_key (q_end query) limits;
  _ ← validate_opt_key (q_prefix query) limits;
  after ← cursor_after root query;
  found ← scan_loop s limits query after (N.to_nat (max_scan_nodes limits)) [(root, [], 0%N)] [] 0;
  let '(entries, nodes_read) := found in
  let has_more := (q_limit query <? len entries)%N in
  let entries := if has_more then take (N.to_nat (q_limit query)) entries else entries in
  next ← (if has_more then
            match last entries with
            | Some entry =>
                cursor ← encode_cursor
                  (mkCursor CURSOR_VERSION root (hex_encode (entry_key entry))
                     (encode_optional (q_start query)) (encode_optional (q_end query))
                     (encode_optional (q_prefix query)));
                Ok (Some cursor)
            | None => Ok None
            end
          else Ok None);
  Ok (mkPage root entries next nodes_read).

(** ** Whole-tree validation *)

Definition check_child_edge (s : S) (limits : MerkleLimits) (_ : unit) (child : Child)
  : result MerkleError unit :=
  child_node ← load_node s (child_cid child) limits;
  child_prefix ← Node_prefix child_node;
  fail_if (negb (bool_decide (head child_prefix = Some (child_edge child))))
    (InvalidNode ("child edge " +:+ fmt_radix 10 (Byte.to_N (child_edge child))
                  +:+ " does not match child prefix")).

(** [budget] is [max_validation_nodes - seen.len()]. *)
Fixpoint validate_loop (s : S) (limits : MerkleLimits) (budget : nat)
    (stack : list (Cid * bytes * N * bool)) (seen : gset Cid) (entries deepest : N)
  : result MerkleError ValidationReport :=
  match stack with
  | [] => Ok (mkReport (N.of_nat (size seen)) entries deepest)
  | (cid, parent_key, depth, is_root) :: stack =>
      _ ← fail_if (max_depth limits <? depth)%N (TooDeep (max_depth limits));
      _ ← fail_if (bool_decide (cid ∈ seen)) (DuplicateNode (Cid_to_string cid));
      match budget with
      | O => Err (TooManyNodes (max_validation_nodes limits))
      | Datatypes.S budget =>
          node ← load_node s cid limits;
          prefix ← Node_prefix node;
          _ ← fail_if (negb is_root && bool_decide (prefix = []))
                (InvalidNode "non-root node has an empty prefix");
          _ ← fail_if (bool_decide (node_value node = None) && (len (node_children node) =? 1)%N)
                (InvalidNode "compressible single-child node");
          _ ← fail_if (negb is_root && bool_decide (node_value node = None)
                       && bool_decide (node_children node = []))
                (InvalidNode "empty non-root node");
          let key := parent_key ++ prefix in
          _ ← validate_key key limits;
          let entries := if bool_decide (node_value node = None) then entries else (entries + 1)%N in
          _ ← try_foldl (check_child_edge s limits) () (reverse (node_children node));
          validate_loop s limits budget
            (((λ child, (child_cid child, key, depth + 1, false)%N) <$> node_children node) ++ stack)
            ({[cid]} ∪ seen) entries (N.max deepest depth)
      end
  end.

Definition validate_tree (s : S) (root : Cid) (limits : MerkleLimits)
  : result MerkleError ValidationReport :=
  limits ← MerkleLimits_validate limits;
  validate_loop s limits (N.to_nat (max_validation_nodes limits)) [(root, [], 0%N, true)] ∅ 0 0.

(** [MerkleNodeCodecHandler::links]; the error is the message of the payload error. *)
Definition links (payload : bytes) : result MerkleError (list Cid) :=
  node ← decode_node payload MerkleLimits_default;
  Ok ((child_cid <$> node_children node)
      ++ match node_value node with Some value => [value_cid value] | None => [] end).

End Merkle.
