(* ===== verification/Reference.v ===== *)
(** * Reference instances of the third-party operations

    A self-delimiting serializer and an in-memory block store.  They show that
    the laws assumed of serde_json and of the block store hold together, and let
    the operations run on concrete inputs. *)
From stdpp Require Import base gmap sets list strings sorting.
From Stdlib Require Import Strings.Byte.
From S2P Require Import Prelude Types Merkle.

(** ** Serialization *)

Class Ser (A : Type) := {
  ser : A → bytes;
  de : bytes → option (A * bytes);
  de_ser a r : de (ser a ++ r) = Some (a, r)
}.

Fixpoint ser_pos (p : positive) : bytes :=
  match p with xH => [x02] | xO p => x00 :: ser_pos p | xI p => x01 :: ser_pos p end.

Fixpoint de_pos (bs : bytes) : option (positive * bytes) :=
  match bs with
  | x02 :: r => Some (xH, r)
  | x00 :: r => '(p, r) ← de_pos r; Some (xO p, r)
  | x01 :: r => '(p, r) ← de_pos r; Some (xI p, r)
  | _ => None
  end.

Definition ser_N (n : N) : bytes := match n with N0 => [x03] | Npos p => ser_pos p end.

Definition de_N (bs : bytes) : option (N * bytes) :=
  match bs with
  | x03 :: r => Some (N0, r)
  | _ => '(p, r) ← de_pos bs; Some (Npos p, r)
  end.

Lemma de_ser_pos p r : de_pos (ser_pos p ++ r) = Some (p, r).
Proof. induction p as [p IH|p IH|]; simpl; [by rewrite IH..|done]. Qed.

Lemma de_ser_N n r : de_N (ser_N n ++ r) = Some (n, r).
Proof.
  destruct n as [|p]; [done|]. unfold de_N, ser_N.
  pose proof (de_ser_pos p r) as Hp. destruct p; simpl in *; [by rewrite Hp..|done].
Qed.

#[export] Instance N_ser : Ser N := {| ser := ser_N; de := de_N; de_ser := de_ser_N |}.

#[export, refine] Instance byte_ser : Ser byte := {|
  ser b := [b];
  de bs := match bs with b :: r => Some (b, r) | [] => None end
|}.
Proof. done. Defined.

#[export, refine] Instance pair_ser {A B} `{Ser A, Ser B} : Ser (A * B) := {|
  ser '(a, b) := ser a ++ ser b;
  de bs := '(a, r) ← de bs; '(b, r) ← de r; Some ((a, b), r)
|}.
Proof. intros [a b] r. rewrite <-app_assoc, de_ser. simpl. by rewrite de_ser. Defined.

Fixpoint de_many {A} `{Ser A} (n : nat) (bs : bytes) : option (list A * bytes) :=
  match n with
  | O => Some ([], bs)
  | S n => '(a, r) ← de bs; '(l, r) ← de_many n r; Some (a :: l, r)
  end.

Lemma de_many_ser {A} `{Ser A} (l : list A) r :
  de_many (length l) (concat (ser <$> l) ++ r) = Some (l, r).
Proof.
  induction l as [|a l IH]; [done|]. rewrite fmap_cons. cbn [concat length de_many].
  rewrite <-app_assoc, de_ser. cbn [mbind option_bind]. by rewrite IH.
Qed.

#[export, refine] Instance list_ser {A} `{Ser A} : Ser (list A) := {|
  ser l := ser_N (len l) ++ concat (ser <$> l);
  de bs := '(n, r) ← de_N bs; de_many (N.to_nat n) r
|}.
Proof. intros l r. rewrite <-app_assoc, de_ser_N. simpl. unfold len. by rewrite Nat2N.id, de_many_ser. Defined.

#[export, refine] Instance option_ser {A} `{Ser A} : Ser (option A) := {|
  ser o := match o with None => [x00] | Some a => x01 :: ser a end;
  de bs := match bs with
           | x00 :: r => Some (None, r)
           | x01 :: r => '(a, r) ← de r; Some (Some a, r)
           | _ => None
           end
|}.
Proof. intros [a|] r; simpl; [by rewrite de_ser|done]. Defined.

(** A type that embeds in another one. *)
Definition inj_ser {A B} `{Ser B} (f : A → B) (g : B → A) (gf : ∀ a, g (f a) = a) : Ser A.
Proof.
  refine {| ser a := ser (f a); de bs := '(b, r) ← de bs; Some (g b, r) |}.
  intros a r. rewrite de_ser. simpl. by rewrite gf.
Defined.

#[export] Instance string_ser : Ser string :=
  inj_ser String.list_byte_of_string String.string_of_list_byte String.string_of_list_byte_of_string.

#[export] Instance gmap_ser {K A} `{Countable K, Ser K, Ser A} : Ser (gmap K A) :=
  inj_ser map_to_list list_to_map (list_to_map_to_list (M := gmap K)).

#[export] Instance Cid_ser : Ser Cid.
Proof.
  refine (inj_ser (λ c, (version c, codec c, digest c)) (λ '(v, k, d), mkCid v k Blake3Alg d) _).
  by intros [? ? [] ?].
Defined.

#[export] Instance MerkleValue_ser : Ser MerkleValue.
Proof.
  refine (inj_ser (λ v, (value_cid v, generation v, value_kind v, metadata v))
            (λ '(c, g, k, m), mkValue c g k m) _).
  by intros [].
Defined.

#[export] Instance Child_ser : Ser Child.
Proof. refine (inj_ser (λ c, (child_edge c, child_cid c)) (λ '(e, c), mkChild e c) _). by intros []. Defined.

#[export] Instance Node_ser : Ser Node.
Proof.
  refine (inj_ser (λ n, (node_type n, node_version n, prefix_hex n, node_value n, node_children n))
            (λ '(t, v, p, w, c), mkNode t v p w c) _).
  by intros [].
Defined.

#[export] Instance CursorRecord_ser : Ser CursorRecord.
Proof.
  refine (inj_ser (λ c, (cursor_version c, cursor_root c, after_key_hex c, start_hex c, end_hex c, cursor_prefix_hex c))
            (λ '(v, r, a, s, e, p), mkCursor v r a s e p) _).
  by intros [].
Defined.

Definition ref_json {A} `{Ser A} : Json A := {|
  to_vec a := Ok (ser a);
  from_slice bs := match de bs with Some (a, []) => Ok a | _ => Err "invalid document" end
|}.

Lemma ref_json_laws {A} `{Ser A} : @JsonLaws A ref_json.
Proof.
  split. intros a p [= <-]. simpl. pose proof (de_ser a []) as Ha. rewrite app_nil_r in Ha. by rewrite Ha.
Qed.

(** ** Block store *)

(** Blocks by CID; a second payload for the same CID is refused. *)
Definition ref_store `{Blake3} : MerkleStore (gmap Cid bytes) := {|
  store_get s c := match s !! c with Some p => Ok p | None => Err "missing block" end;
  store_put k p s :=
    let c := Cid_new k p in
    match s !! c with
    | Some q => if decide (p = q) then (Ok c, s) else (Err "hash collision", s)
    | None => (Ok c, <[c := p]> s)
    end
|}.

Lemma ref_store_laws `{Blake3} : @MerkleStoreLaws (gmap Cid bytes) ref_store.
Proof.
  split; simpl.
  - intros s k p c s'. destruct (s !! Cid_new k p) as [q|] eqn:Hs.
    + destruct (decide (p = q)) as [->|]; [|done]. intros [= <- <-]. by rewrite Hs.
    + intros [= <- <-]. by rewrite lookup_insert_eq.
  - intros s k p r s' c q. destruct (s !! Cid_new k p) as [q'|] eqn:Hs.
    + destruct (decide (p = q')); by intros [= _ <-].
    + intros [= _ <-]. destruct (decide (Cid_new k p = c)) as [<-|Hne]; [by rewrite Hs|].
      by rewrite lookup_insert_ne.
Qed.
