(* ===== verification/MerkleTree.v ===== *)
(** * Radix trees as values (specification of crates/pepper-merkle)

    The tree a root denotes, the canonical shape the crate promises, the lookup
    and the ordered enumeration, and the algebra of the updates: what splitting,
    replacing, removing and collapsing do to lookups, and that a canonical tree
    is determined by its lookups. *)
From stdpp Require Import base gmap sets list strings sorting.
From Stdlib Require Import Strings.Byte.
From S2P Require Import Prelude Types Merkle.

(** ** Trees *)

Inductive tree := T (prefix : bytes) (value : option MerkleValue) (children : list (byte * tree)).

Definition tprefix (t : tree) : bytes := let 'T p _ _ := t in p.
Definition tvalue (t : tree) : option MerkleValue := let 'T _ v _ := t in v.
Definition tchildren (t : tree) : list (byte * tree) := let 'T _ _ cs := t in cs.

(** What is left of [key] behind [p]. *)
Fixpoint strip (p key : bytes) : option bytes :=
  match p, key with
  | [], _ => Some key
  | _ :: _, [] => None
  | x :: p, y :: key => if decide (x = y) then strip p key else None
  end.

Fixpoint find_child {A} (e : byte) (cs : list (byte * A)) : option A :=
  match cs with
  | [] => None
  | (e', c) :: cs => if decide (e' = e) then Some c else find_child e cs
  end.

Fixpoint tlookup (t : tree) (key : bytes) : option MerkleValue :=
  match t with
  | T p v cs =>
      match strip p key with
      | None => None
      | Some [] => v
      | Some (e :: r) =>
          (fix find cs := match cs with
                          | [] => None
                          | (e', c) :: cs => if decide (e' = e) then tlookup c (e :: r) else find cs
                          end) cs
      end
  end.

(** The entries in key order, under the bytes [base] that lead to the tree. *)
Fixpoint entries_of (base : bytes) (t : tree) : list (bytes * MerkleValue) :=
  match t with
  | T p v cs =>
      (match v with Some v => [(base ++ p, v)] | None => [] end)
      ++ flat_map (λ ec, entries_of (base ++ p) ec.2) cs
  end.

Definition edge_lt (a b : byte) : Prop := (Byte.to_N a < Byte.to_N b)%N.

(** A subtree in canonical form: it holds a value or branches, its edges are
    strictly sorted, and each edge is the first byte of the child's prefix. *)
Fixpoint canon (t : tree) : Prop :=
  match t with
  | T p v cs =>
      (v = None → 2 ≤ length cs)
      ∧ StronglySorted edge_lt (cs.*1)
      ∧ (fix each cs := match cs with
                        | [] => True
                        | (e, c) :: cs => (head (tprefix c) = Some e ∧ canon c) ∧ each cs
                        end) cs
  end.

Definition empty_tree : tree := T [] None [].

(** A whole tree: canonical, or the one representation of the empty map. *)
Definition canon_root (t : tree) : Prop := t = empty_tree ∨ canon t.

(** Keys of the tree have at most [n] bytes. *)
Definition bounded (n : nat) (t : tree) : Prop := ∀ k v, tlookup t k = Some v → length k ≤ n.

(** Collapsing: an empty node disappears, a node with one child and no value is
    merged with it. *)
Definition collapse (p : bytes) (v : option MerkleValue) (cs : list (byte * tree)) : option tree :=
  match v, cs with
  | None, [] => None
  | None, [(_, T q w ds)] => Some (T (p ++ q) w ds)
  | _, _ => Some (T p v cs)
  end.

Definition child_ok (ec : byte * tree) : Prop := head (tprefix ec.2) = Some ec.1 ∧ canon ec.2.

(** ** Induction and unfolding *)

Lemma tree_ind' (P : tree → Prop) :
  (∀ p v cs, Forall (λ ec, P ec.2) cs → P (T p v cs)) → ∀ t, P t.
Proof.
  intros HT. fix IH 1. intros [p v cs]. apply HT.
  induction cs as [|[e c] cs IHcs]; constructor; [apply IH|apply IHcs].
Qed.

Lemma tlookup_T p v cs key :
  tlookup (T p v cs) key =
    match strip p key with
    | None => None
    | Some [] => v
    | Some (e :: r) => find_child e cs ≫= λ c, tlookup c (e :: r)
    end.
Proof.
  simpl. destruct (strip p key) as [[|e r]|]; [done| |done].
  induction cs as [|[e' c] cs IH]; simpl; [done|]. by destruct (decide (e' = e)).
Qed.

Lemma canon_T p v cs :
  canon (T p v cs) ↔
  (v = None → 2 ≤ length cs) ∧ StronglySorted edge_lt (cs.*1) ∧ Forall child_ok cs.
Proof.
  simpl. enough ((fix each cs := match cs with
                        | [] => True
                        | (e, c) :: cs => (head (tprefix c) = Some e ∧ canon c) ∧ each cs
                        end) cs ↔ Forall child_ok cs) as -> by done.
  induction cs as [|[e c] cs IH]; [by rewrite Forall_nil|]. rewrite Forall_cons, IH. done.
Qed.

#[global] Arguments tlookup _ _ : simpl never.
#[global] Arguments canon _ : simpl never.

(** ** Prefixes *)

Lemma strip_Some p key r : strip p key = Some r ↔ key = p ++ r.
Proof.
  revert key. induction p as [|x p IH]; intros [|y key]; simpl; try naive_solver.
  destruct (decide (x = y)) as [->|]; [rewrite IH|]; naive_solver.
Qed.

Lemma strip_app p r : strip p (p ++ r) = Some r.
Proof. by apply strip_Some. Qed.

Lemma strip_self p : strip p p = Some [].
Proof. apply strip_Some. by rewrite app_nil_r. Qed.

Lemma strip_starts p key : starts_with p key = bool_decide (is_Some (strip p key)).
Proof.
  symmetry. destruct (starts_with p key) eqn:E.
  - apply starts_with_spec in E as [r ->]. rewrite strip_app. by apply bool_decide_eq_true.
  - apply bool_decide_eq_false. intros [r ->%strip_Some]. by rewrite starts_with_app in E.
Qed.

Lemma strip_concat p q key : strip (p ++ q) key = strip p key ≫= strip q.
Proof.
  revert key. induction p as [|x p IH]; intros [|y key]; simpl; try done.
  destruct (decide (x = y)); [apply IH|done].
Qed.

Lemma strip_length p key r : strip p key = Some r → length key = length p + length r.
Proof. intros ->%strip_Some. apply length_app. Qed.

(** ** Children *)

#[export] Instance edge_lt_strict : StrictOrder edge_lt.
Proof. split; [intros a; unfold complement, edge_lt; lia|intros a b c; unfold edge_lt; lia]. Qed.

Lemma edges_NoDup l : StronglySorted edge_lt l → NoDup l.
Proof.
  induction 1 as [|a l _ IH Ha]; constructor; [|done].
  intros Hin. rewrite Forall_forall in Ha. specialize (Ha a Hin). unfold edge_lt in Ha. lia.
Qed.

Section Children.
Context {A : Type}.
Implicit Types (cs l k : list (byte * A)).

Lemma find_child_app e l k :
  find_child e (l ++ k) = match find_child e l with Some c => Some c | None => find_child e k end.
Proof. induction l as [|[e' c] l IH]; simpl; [done|]. by destruct (decide (e' = e)). Qed.

Lemma find_child_None e cs : find_child e cs = None ↔ e ∉ cs.*1.
Proof.
  induction cs as [|[e' c] cs IH]; simpl.
  - split; [intros _; apply not_elem_of_nil|done].
  - rewrite not_elem_of_cons. destruct (decide (e' = e)); naive_solver.
Qed.

Lemma find_child_Some e cs c : NoDup (cs.*1) → find_child e cs = Some c ↔ (e, c) ∈ cs.
Proof.
  induction cs as [|[e' c'] cs IH]; simpl; intros Hnd.
  - split; [done|]. by intros ?%not_elem_of_nil.
  - apply NoDup_cons in Hnd as [Hn Hnd]. rewrite elem_of_cons.
    destruct (decide (e' = e)) as [->|]; [|rewrite IH by done; naive_solver].
    split; [naive_solver|]. intros [?|Hin]; [naive_solver|].
    destruct Hn. by apply (list_elem_of_fmap_2 fst) in Hin.
Qed.

Lemma find_child_elem e cs c : find_child e cs = Some c → (e, c) ∈ cs.
Proof.
  induction cs as [|[e' c'] cs IH]; simpl; [done|].
  destruct (decide (e' = e)) as [->|]; rewrite elem_of_cons; naive_solver.
Qed.

Lemma find_child_middle e e' c l k :
  e ∉ l.*1 → e ∉ k.*1 →
  find_child e' (l ++ (e, c) :: k) = if decide (e' = e) then Some c else find_child e' (l ++ k).
Proof.
  intros Hl Hk. rewrite !find_child_app. simpl.
  destruct (decide (e' = e)) as [->|Hne].
  - apply find_child_None in Hl as ->. by destruct (decide (e = e)).
  - destruct (decide (e = e')); [congruence|done].
Qed.

(** Strictly sorted children are determined by the lookup. *)
Lemma children_ext cs cs' :
  StronglySorted edge_lt (cs.*1) → StronglySorted edge_lt (cs'.*1) →
  (∀ e, find_child e cs = find_child e cs') → cs = cs'.
Proof.
  intros Hs Hs' Hext. revert cs' Hs' Hext.
  induction cs as [|[e c] cs IH]; intros [|[e' c'] cs'] Hs' Hext; [done| | |].
  - specialize (Hext e'). simpl in Hext. by destruct (decide (e' = e')).
  - specialize (Hext e). simpl in Hext. by destruct (decide (e = e)).
  - simpl in Hs, Hs'. apply StronglySorted_inv in Hs as [Hs He], Hs' as [Hs' He'].
    rewrite Forall_forall in He, He'.
    assert (e = e') as <-.
    { pose proof (Hext e) as H1. pose proof (Hext e') as H2. simpl in H1, H2.
      destruct (decide (e = e)), (decide (e' = e')); try done.
      destruct (decide (e' = e)); [done|]. destruct (decide (e = e')); [done|].
      assert (find_child e cs' ≠ None) as H1' by congruence.
      assert (find_child e' cs ≠ None) as H2' by congruence.
      rewrite find_child_None in H1', H2'. apply dec_stable in H1', H2'.
      specialize (He _ H2'). specialize (He' _ H1'). unfold edge_lt in *. lia. }
    assert (c = c') as <-.
    { specialize (Hext e). simpl in Hext. destruct (decide (e = e)); naive_solver. }
    f_equal. apply IH; [done|done|]. intros e'. specialize (Hext e'). simpl in Hext.
    destruct (decide (e = e')) as [<-|]; [|done].
    transitivity (@None A); [|symmetry]; apply find_child_None; intros Hin;
      [specialize (He _ Hin)|specialize (He' _ Hin)]; unfold edge_lt in *; lia.
Qed.

End Children.

(** Position found by the binary search. *)
Lemma search_edge_inl {A} (f : A → byte) e l i :
  search_edge f e l = inl i → ∃ c, l !! i = Some c ∧ f c = e.
Proof.
  revert i. induction l as [|x l IH]; intros i; simpl; [done|].
  destruct (_ <? _)%N.
  - destruct (search_edge f e l) as [j|j]; [|done]. intros [= <-]. naive_solver.
  - destruct (decide (f x = e)); [|done]. intros [= <-]. naive_solver.
Qed.

Lemma search_edge_inr {A} (f : A → byte) e l i :
  StronglySorted edge_lt (f <$> l) → search_edge f e l = inr i →
  Forall (λ c, edge_lt (f c) e) (take i l) ∧ Forall (λ c, edge_lt e (f c)) (drop i l).
Proof.
  revert i. induction l as [|x l IH]; intros i Hs; simpl.
  - intros [= <-]. done.
  - simpl in Hs. apply StronglySorted_inv in Hs as [Hs Hx].
    destruct (N.ltb_spec (Byte.to_N (f x)) (Byte.to_N e)) as [Hlt|Hge].
    + destruct (search_edge f e l) as [j|j] eqn:Hj; [done|]. intros [= <-].
      destruct (IH j Hs eq_refl). simpl. auto.
    + destruct (decide (f x = e)) as [|Hne]; [done|]. intros [= <-]. simpl. split; [done|].
      assert (edge_lt e (f x)) as Hex.
      { unfold edge_lt. assert (Byte.to_N (f x) ≠ Byte.to_N e) by (intros ?%byte_to_N_inj; done). lia. }
      constructor; [done|]. rewrite Forall_fmap in Hx. eapply Forall_impl; [exact Hx|].
      simpl. intros c Hc. by transitivity (f x).
Qed.

Lemma search_edge_map {A B} (f : A → byte) (g : B → byte) e l k :
  f <$> l = g <$> k → search_edge f e l = search_edge g e k.
Proof.
  revert k. induction l as [|x l IH]; intros [|y k]; simpl; try done.
  intros [= Hxy Heq]. rewrite Hxy, (IH k Heq). done.
Qed.

Lemma sorted_middle (l k : list byte) e :
  StronglySorted edge_lt (l ++ k) → Forall (λ a, edge_lt a e) l → Forall (edge_lt e) k →
  StronglySorted edge_lt (l ++ e :: k).
Proof.
  intros Hs Hl Hk. induction l as [|a l IH]; simpl in *.
  - by constructor.
  - apply StronglySorted_inv in Hs as [Hs Ha]. apply Forall_cons in Hl as [Hae Hl].
    constructor; [auto|]. apply Forall_app in Ha as [Hal Hak].
    apply Forall_app. auto.
Qed.

Lemma sorted_drop_middle (l k : list byte) e :
  StronglySorted edge_lt (l ++ e :: k) → StronglySorted edge_lt (l ++ k).
Proof.
  induction l as [|a l IH]; simpl.
  - by intros [? _]%StronglySorted_inv.
  - intros [Hs Ha]%StronglySorted_inv. constructor; [auto|].
    apply Forall_app in Ha as [Hl Hk]. apply Forall_cons in Hk as [_ Hk]. by apply Forall_app.
Qed.

(** ** Lookups of canonical trees *)

Lemma tlookup_prefix t key v : tlookup t key = Some v → ∃ r, key = tprefix t ++ r.
Proof.
  destruct t as [p w cs]. rewrite tlookup_T. destruct (strip p key) as [r|] eqn:Hr; [|done].
  intros _. exists r. by apply strip_Some.
Qed.

(** A lookup in a child is a lookup in the tree, for keys on the child's edge. *)
Lemma tlookup_child p v cs e c key :
  find_child e cs = Some c → head (tprefix c) = Some e →
  tlookup c key = if decide (head key = Some e) then tlookup (T p v cs) (p ++ key) else None.
Proof.
  intros Hc He. destruct (decide (head key = Some e)) as [Hk|Hk].
  - rewrite tlookup_T, strip_app. destruct key as [|e' r]; simplify_eq/=. by rewrite Hc.
  - destruct (tlookup c key) as [w|] eqn:Hw; [|done].
    apply tlookup_prefix in Hw as [r ->]. destruct (tprefix c) as [|e' q]; by simplify_eq/=.
Qed.

Lemma canon_nonempty t : canon t → ∃ k v, tlookup t k = Some v.
Proof.
  induction t as [p [v|] cs IH] using tree_ind'; intros (Hv & Hs & Hall)%canon_T.
  - exists p, v. by rewrite tlookup_T, strip_self.
  - specialize (Hv eq_refl). destruct cs as [|[e c] cs]; simpl in Hv; [lia|].
    apply Forall_cons in IH as [IH _], Hall as [[He Hc] _].
    destruct (IH Hc) as (k & v & Hk). simpl in Hk. exists (p ++ k), v.
    rewrite (tlookup_child p None ((e, c) :: cs) e c k) in Hk; [|simpl; by rewrite decide_True|done].
    by destruct (decide _).
Qed.

Lemma child_nonempty p v cs e c :
  StronglySorted edge_lt (cs.*1) → (e, c) ∈ cs → child_ok (e, c) →
  ∃ r w, tlookup (T p v cs) (p ++ e :: r) = Some w.
Proof.
  intros Hs Hin [He Hc]. simpl in He, Hc.
  destruct (canon_nonempty c Hc) as (k & w & Hk).
  destruct (tlookup_prefix _ _ _ Hk) as [r ->].
  destruct (tprefix c) as [|e' q] eqn:Hq; simplify_eq/=.
  exists (q ++ r), w. rewrite tlookup_T, strip_app.
  by rewrite (proj2 (find_child_Some e cs c (edges_NoDup _ Hs)) Hin).
Qed.

(** The prefix of a canonical tree is the longest prefix its keys share. *)
Lemma canon_prefix_max t q :
  canon t → (∀ k v, tlookup t k = Some v → is_Some (strip q k)) → is_Some (strip q (tprefix t)).
Proof.
  destruct t as [p v cs]. intros (Hv & Hs & Hall)%canon_T Hq. simpl.
  destruct v as [v|].
  { apply (Hq p v). by rewrite tlookup_T, strip_self. }
  specialize (Hv eq_refl). destruct cs as [|[e1 c1] [|[e2 c2] cs]]; simpl in Hv; [lia|lia|].
  assert (e1 ≠ e2) as Hne.
  { simpl in Hs. apply StronglySorted_inv in Hs as [_ H1]. apply Forall_cons in H1 as [H1 _].
    intros ->. unfold edge_lt in H1. lia. }
  apply Forall_cons in Hall as [H1 Hall]. apply Forall_cons in Hall as [H2 _].
  destruct (child_nonempty p None _ e1 c1 Hs) as (r1 & w1 & Hl1); [left|done|].
  destruct (child_nonempty p None _ e2 c2 Hs) as (r2 & w2 & Hl2); [right; left|done|].
  apply Hq in Hl1 as [s1 Hs1%strip_Some], Hl2 as [s2 Hs2%strip_Some].
  clear -Hne Hs1 Hs2. revert q Hs1 Hs2. induction p as [|x p IH]; intros [|y q] Hs1 Hs2; simpl in *.
  - eauto.
  - congruence.
  - eauto.
  - injection Hs1 as -> Hs1. injection Hs2 as Hs2. rewrite decide_True by done. by apply (IH q).
Qed.

Lemma strip_antisym p q : is_Some (strip p q) → is_Some (strip q p) → p = q.
Proof.
  intros [r Hr%strip_Some] [r' Hr'%strip_Some]. subst q.
  rewrite <-(app_nil_r p) in Hr' at 1. rewrite <-app_assoc in Hr'. apply app_inv_head in Hr'.
  symmetry in Hr'. apply app_eq_nil in Hr' as [-> _]. by rewrite app_nil_r.
Qed.

(** Canonical trees are determined by their lookups. *)
Lemma canon_ext t t' : canon t → canon t' → (∀ k, tlookup t k = tlookup t' k) → t = t'.
Proof.
  revert t'. induction t as [p v cs IH] using tree_ind'. intros [p' v' cs'] Hc Hc' Hext.
  assert (p = p') as <-.
  { apply strip_antisym.
    - apply (canon_prefix_max _ p Hc'). intros k w Hk. rewrite <-Hext in Hk.
      apply tlookup_prefix in Hk as [r ->]. simpl. rewrite strip_app. eauto.
    - apply (canon_prefix_max _ p' Hc). intros k w Hk. rewrite Hext in Hk.
      apply tlookup_prefix in Hk as [r ->]. simpl. rewrite strip_app. eauto. }
  assert (v = v') as <-.
  { specialize (Hext p). by rewrite !tlookup_T, strip_self in Hext. }
  apply canon_T in Hc as (_ & Hs & Hall), Hc' as (_ & Hs' & Hall').
  rewrite Forall_forall in IH, Hall, Hall'.
  pose proof (edges_NoDup _ Hs) as Hnd. pose proof (edges_NoDup _ Hs') as Hnd'.
  f_equal. apply children_ext; [done|done|]. intros e.
  destruct (find_child e cs) as [c|] eqn:Hfc, (find_child e cs') as [c'|] eqn:Hfc'; [| | |done].
  - f_equal. apply find_child_elem in Hfc as Hin, Hfc' as Hin'.
    destruct (Hall _ Hin) as [He Hc], (Hall' _ Hin') as [He' Hc']. simpl in *.
    apply (IH _ Hin); [done|done|]. intros k. simpl. specialize (Hext (p ++ k)).
    rewrite (tlookup_child p v cs e c k Hfc He), (tlookup_child p v cs' e c' k Hfc' He').
    by rewrite Hext.
  - apply find_child_elem in Hfc as Hin.
    destruct (child_nonempty p v cs e c Hs Hin (Hall _ Hin)) as (r & w & Hw).
    rewrite Hext, tlookup_T, strip_app in Hw. simpl in Hw. by rewrite Hfc' in Hw.
  - apply find_child_elem in Hfc' as Hin.
    destruct (child_nonempty p v cs' e c' Hs' Hin (Hall' _ Hin)) as (r & w & Hw).
    rewrite <-Hext, tlookup_T, strip_app in Hw. simpl in Hw. by rewrite Hfc in Hw.
Qed.

Lemma tlookup_empty k : tlookup empty_tree k = None.
Proof. unfold empty_tree. rewrite tlookup_T. by destruct k. Qed.

Lemma canon_root_ext t t' :
  canon_root t → canon_root t' → (∀ k, tlookup t k = tlookup t' k) → t = t'.
Proof.
  intros [->|Hc] [->|Hc'] Hext; [done| | |by apply canon_ext].
  - destruct (canon_nonempty _ Hc') as (k & v & Hk). by rewrite <-Hext, tlookup_empty in Hk.
  - destruct (canon_nonempty _ Hc) as (k & v & Hk). by rewrite Hext, tlookup_empty in Hk.
Qed.

(** ** Updates *)

Section Updates.
Context (p : bytes) (v : option MerkleValue).

Definition precanon (cs : list (byte * tree)) : Prop :=
  StronglySorted edge_lt (cs.*1) ∧ Forall child_ok cs.

Lemma collapse_canon cs t :
  precanon cs → collapse p v cs = Some t →
  canon t ∧ (∃ r, tprefix t = p ++ r) ∧ ∀ k, tlookup t k = tlookup (T p v cs) k.
Proof.
  intros [Hs Hall] Hc. destruct v as [w|], cs as [|[e [q w' ds]] [|ec cs]]; simplify_eq/=.
  1-3: split; [apply canon_T; naive_solver|]; split; [exists []; by rewrite app_nil_r|done].
  - apply Forall_cons in Hall as [[He Hc] _]. cbn [fst snd tprefix] in He, Hc.
    apply canon_T in Hc as Hc'. split; [apply canon_T; naive_solver|]. split; [by exists q|].
    intros k. rewrite !tlookup_T, strip_concat.
    destruct (strip p k) as [[|e' r]|]; simpl; [by destruct q| |done].
    destruct q as [|x q]; simplify_eq/=.
    destruct (decide (e = e')) as [->|]; simpl; [|done].
    rewrite tlookup_T. simpl. by rewrite decide_True.
  - split; [apply canon_T; split; [simpl; lia|done]|].
    split; [exists []; by rewrite app_nil_r|done].
Qed.

Lemma collapse_None cs k : collapse p v cs = None → tlookup (T p v cs) k = None.
Proof.
  destruct v, cs as [|[e [q w ds]] [|]]; simpl; try done. intros _.
  rewrite tlookup_T. by destruct (strip p k) as [[|]|].
Qed.

(** Replacing, inserting and removing the child at an edge. *)
Lemma tlookup_update e c l k cs key :
  cs = l ++ (e, c) :: k → e ∉ l.*1 → e ∉ k.*1 → head (tprefix c) = Some e →
  tlookup (T p v cs) key =
    match strip p key with
    | Some r => if decide (head r = Some e) then tlookup c r else tlookup (T p v (l ++ k)) key
    | None => None
    end.
Proof.
  intros -> Hl Hk He. rewrite !tlookup_T. destruct (strip p key) as [[|e' r]|]; simpl; [done| |done].
  rewrite find_child_middle by done. destruct (decide (e' = e)) as [->|Hne].
  - by rewrite decide_True.
  - rewrite decide_False by congruence. done.
Qed.

End Updates.

Lemma not_in_split e (l k : list byte) :
  StronglySorted edge_lt (l ++ e :: k) → e ∉ l ∧ e ∉ k.
Proof.
  intros Hs%edges_NoDup. apply NoDup_app in Hs as (_ & Hl & Hk).
  apply NoDup_cons in Hk as [Hk _]. split; [|done]. intros Hin. by destruct (Hl e Hin (list_elem_of_here _ _)).
Qed.

(** ** The ordered enumeration *)

Definition key_lt {A} (x y : bytes * A) : Prop := bytes_lt x.1 y.1.

Lemma entries_of_T base p v cs kv :
  kv ∈ entries_of base (T p v cs) ↔
  (∃ w, v = Some w ∧ kv = (base ++ p, w)) ∨ ∃ ec, ec ∈ cs ∧ kv ∈ entries_of (base ++ p) ec.2.
Proof.
  simpl. rewrite elem_of_app. f_equiv.
  - destruct v; [rewrite list_elem_of_singleton|rewrite elem_of_nil]; naive_solver.
  - rewrite list_elem_of_In, in_flat_map. by setoid_rewrite list_elem_of_In.
Qed.

(** The entries are the key-value pairs of the lookup. *)
Lemma elem_of_entries t base key w :
  canon t → (key, w) ∈ entries_of base t ↔ ∃ k, key = base ++ k ∧ tlookup t k = Some w.
Proof.
  revert base key. induction t as [p v cs IH] using tree_ind'. intros base key Hc.
  apply canon_T in Hc as (_ & Hs & Hall). rewrite entries_of_T. rewrite Forall_forall in IH, Hall.
  pose proof (edges_NoDup _ Hs) as Hnd. split.
  - intros [(w' & -> & [= -> ->])|([e c] & Hin & Hkv)].
    + exists p. split; [done|]. by rewrite tlookup_T, strip_self.
    + apply (IH _ Hin) in Hkv as (k & -> & Hk); [|by apply (Hall _ Hin)]. simpl in Hk.
      exists (p ++ k). split; [by rewrite app_assoc|].
      rewrite (tlookup_child p v cs e c k) in Hk; [|by apply find_child_Some|by apply (Hall _ Hin)].
      by destruct (decide _).
  - intros (k & -> & Hk). rewrite tlookup_T in Hk.
    destruct (strip p k) as [[|e r]|] eqn:Hr; [| |done]; apply strip_Some in Hr as ->.
    + left. exists w. by rewrite app_nil_r.
    + right. destruct (find_child e cs) as [c|] eqn:Hf; [|done]. apply find_child_elem in Hf as Hin.
      exists (e, c). split; [done|]. apply (IH _ Hin); [by apply (Hall _ Hin)|].
      exists (e :: r). by rewrite <-app_assoc.
Qed.

Lemma entries_keys t base kv :
  canon t → kv ∈ entries_of base t → ∃ r, kv.1 = base ++ tprefix t ++ r.
Proof.
  intros Hc Hin. destruct kv as [key w]. apply elem_of_entries in Hin as (k & -> & Hk); [|done].
  apply tlookup_prefix in Hk as [r ->]. by exists r.
Qed.

Lemma entries_sorted t base : canon t → StronglySorted key_lt (entries_of base t).
Proof.
  revert base. induction t as [p v cs IH] using tree_ind'. intros base Hc.
  apply canon_T in Hc as (_ & Hs & Hall). simpl. apply StronglySorted_app. split_and!.
  - intros x y Hx (ec & Hec & Hy)%list_elem_of_In%in_flat_map.
    destruct v as [w|]; [apply list_elem_of_singleton in Hx as ->|by apply not_elem_of_nil in Hx].
    rewrite Forall_forall in Hall. apply list_elem_of_In in Hec, Hy.
    destruct (Hall _ Hec) as [He Hce]. apply entries_keys in Hy as [r Hr]; [|done].
    unfold key_lt. rewrite Hr. simpl. rewrite <-(app_nil_r (base ++ p)) at 1. apply bytes_lt_app_l.
    destruct (tprefix ec.2); by simplify_eq/=.
  - destruct v; repeat constructor.
  - induction cs as [|[e c] cs IHcs]; simpl; [constructor|].
    apply Forall_cons in IH as [IHc IH], Hall as [Hok Hall].
    simpl in Hs. apply StronglySorted_inv in Hs as [Hs Hlt].
    apply StronglySorted_app. split_and!; [|apply IHc, Hok|by apply IHcs].
    intros x y Hx (ec & Hec & Hy)%list_elem_of_In%in_flat_map.
    rewrite Forall_forall in Hall. apply list_elem_of_In in Hec, Hy.
    destruct (Hall _ Hec) as [He' Hce'], Hok as [He Hce]. simpl in He, Hce.
    apply entries_keys in Hy as [r' Hr'], Hx as [r Hr]; [|done|done].
    unfold key_lt. rewrite Hr, Hr'. apply bytes_lt_app_l.
    destruct (tprefix c) as [|x1 q1], (tprefix ec.2) as [|x2 q2]; simplify_eq/=.
    apply bytes_ltb_cons. left. rewrite Forall_forall in Hlt. apply (Hlt ec.1).
    by apply (list_elem_of_fmap_2 fst).
Qed.

(** ** Inserting a key *)

Definition inserted (t : tree) (key : bytes) (w : MerkleValue) (t' : tree) : Prop :=
  canon t'
  ∧ (∀ k, tlookup t' k = if decide (k = key) then Some w else tlookup t k)
  ∧ (∀ e, head (tprefix t) = Some e → head key = Some e → head (tprefix t') = Some e).

Definition leaf (key : bytes) (w : MerkleValue) : tree := T key (Some w) [].

Lemma tlookup_leaf key w k : tlookup (leaf key w) k = if decide (k = key) then Some w else None.
Proof.
  unfold leaf. rewrite tlookup_T. destruct (strip key k) as [[|e r]|] eqn:Hr.
  - apply strip_Some in Hr as ->. rewrite app_nil_r. by rewrite decide_True.
  - apply strip_Some in Hr as ->. rewrite decide_False; [done|].
    intros Heq. rewrite <-(app_nil_r key) in Heq at 2. by apply app_inv_head in Heq.
  - rewrite decide_False; [done|]. intros ->. by rewrite strip_self in Hr.
Qed.

Lemma canon_leaf key w : canon (leaf key w).
Proof. apply canon_T. repeat split; [done|constructor|constructor]. Qed.

Lemma canon_reprefix p q v cs : canon (T p v cs) → canon (T q v cs).
Proof. by rewrite !canon_T. Qed.

(** Cutting the prefix: the node under an edge. *)
Lemma tlookup_cut a q v cs k :
  tlookup (T (a ++ q) v cs) k = strip a k ≫= tlookup (T q v cs).
Proof.
  rewrite tlookup_T, strip_concat. destruct (strip a k) as [r|]; simpl; [|done].
  by rewrite tlookup_T.
Qed.

Lemma tlookup_head t k e : head (tprefix t) = Some e → head k ≠ Some e → tlookup t k = None.
Proof.
  intros Ht Hk. destruct (tlookup t k) as [w|] eqn:Hw; [|done].
  apply tlookup_prefix in Hw as [r ->]. destruct (tprefix t); by simplify_eq/=.
Qed.

Lemma inserted_value p v cs w :
  canon_root (T p v cs) → inserted (T p v cs) p w (T p (Some w) cs).
Proof.
  intros Hc. split; [|split; [|done]].
  - destruct Hc as [[= -> -> ->]|Hc]; [apply canon_leaf|].
    apply canon_T. apply canon_T in Hc as (_ & ? & ?). done.
  - intros k. rewrite !tlookup_T. destruct (strip p k) as [[|e r]|] eqn:Hr.
    + apply strip_Some in Hr as ->. rewrite app_nil_r. by rewrite decide_True.
    + apply strip_Some in Hr as ->. rewrite decide_False; [done|].
      intros Heq. rewrite <-(app_nil_r p) in Heq at 2. by apply app_inv_head in Heq.
    + rewrite decide_False; [done|]. intros ->. by rewrite strip_self in Hr.
Qed.

Lemma inserted_split_value a x q v cs w :
  canon (T (a ++ x :: q) v cs) →
  inserted (T (a ++ x :: q) v cs) a w (T a (Some w) [(x, T (x :: q) v cs)]).
Proof.
  intros Hc. split_and!.
  - apply canon_T. split; [done|]. split; [repeat constructor|].
    constructor; [|constructor]. split; [done|]. by eapply canon_reprefix.
  - intros k. rewrite tlookup_cut, tlookup_T. destruct (strip a k) as [r|] eqn:Hr.
    + apply strip_Some in Hr as ->. destruct r as [|e r].
      * rewrite app_nil_r, decide_True by done. done.
      * rewrite decide_False by (intros Heq; rewrite <-(app_nil_r a) in Heq at 2; by apply app_inv_head in Heq).
        simpl. destruct (decide (x = e)) as [->|Hne]; simpl; [done|].
        symmetry. apply (tlookup_head _ _ x); simpl; congruence.
    + rewrite decide_False; [done|]. intros ->. by rewrite strip_self in Hr.
  - intros e. destruct a as [|y a]; simpl; [done|done].
Qed.

Lemma inserted_split_branch a x q y r v cs w ds :
  canon (T (a ++ x :: q) v cs) → x ≠ y →
  ds = [(x, T (x :: q) v cs); (y, leaf (y :: r) w)] ∨ ds = [(y, leaf (y :: r) w); (x, T (x :: q) v cs)] →
  StronglySorted edge_lt (ds.*1) →
  inserted (T (a ++ x :: q) v cs) (a ++ y :: r) w (T a None ds).
Proof.
  intros Hc Hxy Hds Hs. split_and!.
  - apply canon_T. split; [destruct Hds as [->| ->]; simpl; lia|]. split; [done|].
    assert (child_ok (x, T (x :: q) v cs)) by (split; [done|by eapply canon_reprefix]).
    assert (child_ok (y, leaf (y :: r) w)) by (split; [done|apply canon_leaf]).
    by destruct Hds as [->| ->]; rewrite !Forall_cons, Forall_nil.
  - assert (∀ e, find_child e ds = if decide (e = x) then Some (T (x :: q) v cs)
                                   else if decide (e = y) then Some (leaf (y :: r) w) else None) as Hf.
    { intros e. destruct Hds as [->| ->]; simpl;
        destruct (decide (x = e)), (decide (y = e)), (decide (e = x)), (decide (e = y)); congruence. }
    intros k. rewrite tlookup_cut, tlookup_T. destruct (strip a k) as [r'|] eqn:Hr.
    + apply strip_Some in Hr as ->. destruct r' as [|e r'].
      * rewrite decide_False by (intros Heq; by apply app_inv_head in Heq).
        simpl. symmetry. by apply (tlookup_head _ _ x).
      * simpl. rewrite Hf. destruct (decide (e = x)) as [->|Hex]; simpl.
        { rewrite decide_False; [done|]. intros Heq. apply app_inv_head in Heq. congruence. }
        rewrite (tlookup_head (T (x :: q) v cs) (e :: r') x) by (simpl; congruence).
        destruct (decide (e = y)) as [->|Hey]; simpl.
        { rewrite tlookup_leaf. destruct (decide (y :: r' = y :: r)) as [->|Hne]; [by rewrite decide_True|].
          rewrite decide_False; [done|]. intros Heq. by apply app_inv_head in Heq. }
        rewrite decide_False; [done|]. intros Heq. apply app_inv_head in Heq. congruence.
    + rewrite decide_False; [done|]. intros ->. by rewrite strip_app in Hr.
  - intros e. destruct a as [|z a]; simpl; [congruence|done].
Qed.

(** Changing the child under the edge [e]: [old] is the lookup it replaces. *)
Lemma tlookup_set_child p v l k e r c' (old : bytes → option MerkleValue) w t :
  e ∉ l.*1 → e ∉ k.*1 → head (tprefix c') = Some e →
  (∀ key, tlookup c' key = if decide (key = e :: r) then w else old key) →
  (∀ key, head key = Some e → tlookup t (p ++ key) = old key) →
  (∀ key, strip p key ≫= head ≠ Some e → tlookup t key = tlookup (T p v (l ++ k)) key) →
  ∀ key, tlookup (T p v (l ++ (e, c') :: k)) key = if decide (key = p ++ e :: r) then w else tlookup t key.
Proof.
  intros Hl Hk He Hnew Hold Hrest key. rewrite (tlookup_update p v e c' l k) by done.
  specialize (Hrest key). destruct (strip p key) as [r'|] eqn:Hr; simpl in Hrest.
  - apply strip_Some in Hr as ->. destruct (decide (head r' = Some e)) as [Hh|Hh].
    + rewrite Hnew, Hold by done. destruct (decide (r' = e :: r)) as [->|Hne]; [by rewrite decide_True|].
      rewrite decide_False; [done|]. intros Heq. by apply app_inv_head in Heq.
    + rewrite Hrest by done. rewrite decide_False; [done|]. intros Heq. apply app_inv_head in Heq as ->. done.
  - rewrite decide_False by (intros ->; by rewrite strip_app in Hr).
    rewrite Hrest by done. by rewrite tlookup_T, Hr.
Qed.

Lemma tlookup_rest p v l k e c key :
  e ∉ l.*1 → e ∉ k.*1 → strip p key ≫= head ≠ Some e →
  tlookup (T p v (l ++ (e, c) :: k)) key = tlookup (T p v (l ++ k)) key.
Proof.
  intros Hl Hk Hh. rewrite !tlookup_T. destruct (strip p key) as [[|e' r]|]; simpl in *; [done| |done].
  rewrite find_child_middle by done. rewrite decide_False by congruence. done.
Qed.

Lemma tlookup_at p v l k e c key :
  e ∉ l.*1 → e ∉ k.*1 → head key = Some e → tlookup (T p v (l ++ (e, c) :: k)) (p ++ key) = tlookup c key.
Proof.
  intros Hl Hk Hh. rewrite tlookup_T, strip_app. destruct key as [|e' r]; simplify_eq/=.
  rewrite find_child_middle by done. by rewrite decide_True.
Qed.

Lemma tlookup_at_none p v cs e key :
  find_child e cs = None → head key = Some e → tlookup (T p v cs) (p ++ key) = None.
Proof.
  intros Hf Hh. rewrite tlookup_T, strip_app. destruct key as [|e' r]; simplify_eq/=. by rewrite Hf.
Qed.

Lemma head_app_Some {A} (p r : list A) e : head p = Some e → head (p ++ r) = Some e.
Proof. by destruct p. Qed.

Lemma inserted_collapse p v cs cs' e r w t' :
  precanon cs' → collapse p v cs' = Some t' →
  (∀ k, tlookup (T p v cs') k = if decide (k = p ++ e :: r) then Some w else tlookup (T p v cs) k) →
  inserted (T p v cs) (p ++ e :: r) w t'.
Proof.
  intros Hpre Hc Hl. destruct (collapse_canon _ _ _ _ Hpre Hc) as (Hcan & [q Hq] & Hext).
  split_and!; [done| |].
  - intros k. by rewrite Hext.
  - intros e'. rewrite Hq. simpl. intros Hh _. by apply head_app_Some.
Qed.

Lemma precanon_middle l k e c' :
  StronglySorted edge_lt (l.*1 ++ e :: k.*1) → Forall child_ok (l ++ k) → child_ok (e, c') →
  precanon (l ++ (e, c') :: k).
Proof.
  intros Hs Hall Hc. split; [by rewrite fmap_app, fmap_cons|].
  apply Forall_app in Hall as [Hl Hk]. apply Forall_app. split; [done|]. by constructor.
Qed.

Lemma common_prefix_spec p q :
  ∃ a p' q', p = a ++ p' ∧ q = a ++ q' ∧ common_prefix_len p q = length a
             ∧ ∀ x y p'' q'', p' = x :: p'' → q' = y :: q'' → x ≠ y.
Proof.
  revert q. induction p as [|x p IH]; intros q.
  { exists [], [], q. repeat split; naive_solver. }
  destruct q as [|y q]; [exists [], (x :: p), []; repeat split; naive_solver|].
  destruct (decide (x = y)) as [->|Hne].
  - destruct (IH q) as (a & p' & q' & -> & -> & Hl & Hd). exists (y :: a), p', q'.
    repeat split; [|done]. unfold common_prefix_len in *. simpl. rewrite decide_True by done. by rewrite Hl.
  - exists [], (x :: p), (y :: q). repeat split; [|naive_solver].
    unfold common_prefix_len. simpl. by rewrite decide_False.
Qed.

(** ** Bounds on keys *)

Lemma bounded_child n p v cs e c :
  bounded n (T p v cs) → find_child e cs = Some c → head (tprefix c) = Some e → bounded n c.
Proof.
  intros Hb Hf He k w Hk. rewrite (tlookup_child p v cs e c k Hf He) in Hk.
  destruct (decide _); [|done]. apply Hb in Hk. rewrite length_app in Hk. lia.
Qed.

Lemma bounded_inserted n t key w t' :
  bounded n t → length key ≤ n →
  (∀ k, tlookup t' k = if decide (k = key) then Some w else tlookup t k) → bounded n t'.
Proof.
  intros Hb Hl Hi k w' Hk. rewrite Hi in Hk. destruct (decide (k = key)) as [->|]; [done|by eapply Hb].
Qed.

Lemma canon_prefix_bound n t : canon t → bounded n t → length (tprefix t) ≤ n.
Proof.
  intros Hc Hb. destruct (canon_nonempty t Hc) as (k & w & Hk).
  destruct (tlookup_prefix _ _ _ Hk) as [r ->]. apply Hb in Hk. rewrite length_app in Hk. lia.
Qed.

Lemma collapse_bound n p v cs t :
  precanon cs → bounded n (T p v cs) → collapse p v cs = Some t → length (tprefix t) ≤ n.
Proof.
  intros Hp Hb Hc. destruct (collapse_canon _ _ _ _ Hp Hc) as (Hcan & _ & Hext).
  apply canon_prefix_bound; [done|]. intros k w Hk. rewrite Hext in Hk. by eapply Hb.
Qed.

Lemma collapse_is_Some p v cs : cs ≠ [] → is_Some (collapse p v cs).
Proof. destruct v, cs as [|[e [q w ds]] [|ec cs]]; simpl; done || eauto. Qed.

Lemma canon_root_precanon p v cs :
  canon_root (T p v cs) → precanon cs.
Proof. intros [[= _ _ ->]|(_ & ? & ?)%canon_T]; [repeat constructor|done]. Qed.

Lemma canon_canon_root t : canon t → canon_root t.
Proof. by right. Qed.

#[export] Hint Resolve canon_canon_root canon_root_precanon canon_leaf : pepper.

(** ** Deleting a key *)

Definition deleted (t : tree) (key : bytes) (t' : tree) : Prop :=
  ∀ k, tlookup t' k = if decide (k = key) then None else tlookup t k.

Lemma deleted_absent t key : tlookup t key = None → deleted t key t.
Proof. intros Hk k. by destruct (decide (k = key)) as [->|]. Qed.

Lemma deleted_value p v cs : deleted (T p v cs) p (T p None cs).
Proof.
  intros k. rewrite !tlookup_T. destruct (strip p k) as [[|e r]|] eqn:Hr.
  - by destruct (decide _), v; try done; apply strip_Some in Hr as ->; rewrite app_nil_r in *.
  - rewrite decide_False; [done|]. intros ->. by rewrite strip_self in Hr.
  - by destruct (decide _).
Qed.

Lemma deleted_child p v l k e r c :
  e ∉ l.*1 → e ∉ k.*1 → (∀ key, key ≠ e :: r → tlookup c key = None) →
  deleted (T p v (l ++ (e, c) :: k)) (p ++ e :: r) (T p v (l ++ k)).
Proof.
  intros Hl Hk Hc key. destruct (decide (strip p key ≫= head = Some e)) as [Hh|Hh].
  - destruct (strip p key) as [[|e' r']|] eqn:Hr; simplify_eq/=. apply strip_Some in Hr as ->.
    rewrite tlookup_at by done. rewrite tlookup_at_none with (e := e); [|apply find_child_None|done].
    + destruct (decide _) as [|Hne]; [done|]. symmetry. apply Hc. congruence.
    + rewrite fmap_app, elem_of_app. naive_solver.
  - rewrite tlookup_rest by done. rewrite decide_False; [done|]. intros ->. by rewrite strip_app in Hh.
Qed.

(** ** The map of a tree *)

Definition contents (t : tree) : gmap bytes MerkleValue := list_to_map (entries_of [] t).

Lemma entries_NoDup t : canon_root t → NoDup ((entries_of [] t).*1).
Proof.
  intros [->|Hc]; [constructor|]. pose proof (entries_sorted t [] Hc) as Hs. clear Hc.
  induction Hs as [|[k v] l Hs IH Hlt]; simpl; constructor; [|done].
  intros ([k' v'] & -> & Hin)%list_elem_of_fmap. rewrite Forall_forall in Hlt.
  by apply (bytes_lt_irrefl k'), (Hlt _ Hin).
Qed.

Lemma entries_lookup t k v : canon_root t → (k, v) ∈ entries_of [] t ↔ tlookup t k = Some v.
Proof.
  intros [->|Hc].
  - rewrite tlookup_empty. split; [by intros ?%not_elem_of_nil|done].
  - rewrite elem_of_entries by done. split; [by intros (k' & -> & ?)|]. intros Hk. by exists k.
Qed.

Lemma contents_lookup t k : canon_root t → contents t !! k = tlookup t k.
Proof.
  intros Hc. pose proof (entries_NoDup t Hc) as Hnd. unfold contents.
  destruct (tlookup t k) as [w|] eqn:Hk.
  - apply elem_of_list_to_map; [done|]. by apply entries_lookup.
  - apply not_elem_of_list_to_map. intros ([k' w] & -> & Hkw)%list_elem_of_fmap.
    apply entries_lookup in Hkw; [|done]. simpl in Hk. congruence.
Qed.

Lemma contents_size t : canon_root t → size (contents t) = length (entries_of [] t).
Proof. intros Hc. apply map_size_list_to_map. by apply entries_NoDup. Qed.
