(* ===== verification/MerkleRefinement.v ===== *)
(** * The Merkle operations implement a finite map (crates/pepper-merkle)

    [repr] relates a root block to the tree it denotes.  Every operation is
    shown to act on that tree as on its lookups, to keep it canonical and to
    fail only when the store or a size limit refuses a write. *)
From stdpp Require Import base gmap sets list strings sorting.
From Stdlib Require Import Strings.Byte.
From S2P Require Import Prelude Types Merkle MerkleTree.

Section Refinement.
Context `{Blake3} `{Hex} `{!HexLaws} `{Json Node} `{!JsonLaws Node} `{Json CursorRecord}.
Context {S : Type} `{MerkleStore S} `{!MerkleStoreLaws S} (limits : MerkleLimits).

(** ** Stores *)

(** Blocks readable in [s] are readable in [s']. *)
Definition keeps (s s' : S) : Prop := ∀ c p, store_get s c = Ok p → store_get s' c = Ok p.

#[export] Instance keeps_preorder : PreOrder keeps.
Proof. split; [by intros s c p|]. intros s1 s2 s3 H12 H23 c p Hp. auto. Qed.

(** Errors of a write: the store fails, or the serialized node or the number of
    its children exceeds its limit. *)
Definition refused (e : MerkleError) : Prop :=
  match e with
  | Write_ _ | WrongStoredCid _ _ => True
  | NodeTooLarge actual limit => limit = max_node_bytes limits ∧ (limit < actual)%N
  | InvalidNode m =>
      (∃ n, (max_children limits < n)%N
            ∧ m = fmt_radix 10 n +:+ " children exceeds limit " +:+ fmt_radix 10 (max_children limits))
      ∨ ∃ node : Node, to_vec node = Err m
  | _ => False
  end.

(** From [s], the computation keeps every block, and succeeds with [Q] or is
    refused. *)
Definition ends {A} (s : S) (m : stm S MerkleError A) (Q : A → S → Prop) : Prop :=
  ∃ r s', m s = (r, s') ∧ keeps s s' ∧ match r with Ok a => Q a s' | Err e => refused e end.

Lemma ends_ret {A} s (a : A) (Q : A → S → Prop) : Q a s → ends s (mret a) Q.
Proof. intros HQ. by exists (Ok a), s. Qed.

Lemma ends_bind {A B} s (m : stm S MerkleError A) (f : A → stm S MerkleError B) (P : A → S → Prop) Q :
  ends s m P → (∀ a s1, keeps s s1 → P a s1 → ends s1 (f a) Q) → ends s (m ≫= f) Q.
Proof.
  intros ([a|e] & s1 & Hm & Hk & HP) Hf; unfold ends, mbind, stm_bind; rewrite Hm.
  - destruct (Hf a s1 Hk HP) as (r & s2 & Hr & Hk2 & HQ). exists r, s2.
    split; [done|]. split; [by transitivity s1|done].
  - by exists (Err e), s1.
Qed.

(** A step that does not write and succeeds. *)
Lemma ends_lift {A B} s (r : result MerkleError A) a (f : A → stm S MerkleError B) Q :
  r = Ok a → ends s (f a) Q → ends s (lift r ≫= f) Q.
Proof. intros -> Hf. exact Hf. Qed.

Lemma ends_ret_bind {A B} s (a : A) (f : A → stm S MerkleError B) Q :
  ends s (f a) Q → ends s (mret a ≫= f) Q.
Proof. done. Qed.

Lemma ends_load {B} s cid node (f : Node → stm S MerkleError B) Q :
  load_node s cid limits = Ok node → ends s (f node) Q → ends s (load cid limits ≫= f) Q.
Proof. intros Hl Hf. unfold ends, load, reads, mbind, stm_bind. rewrite Hl. exact Hf. Qed.

Lemma ends_mono {A} s (m : stm S MerkleError A) (P Q : A → S → Prop) :
  ends s m P → (∀ a s1, keeps s s1 → P a s1 → Q a s1) → ends s m Q.
Proof.
  intros ([a|e] & s1 & Hm & Hk & HP) HPQ; [exists (Ok a), s1|exists (Err e), s1]; auto.
Qed.

(** ** Loading and storing nodes *)

Definition value_ok (v : option MerkleValue) : Prop :=
  match v with Some value => validate_value value limits = Ok () | None => True end.

Definition children_ok (chs : list Child) : Prop :=
  StronglySorted edge_lt (child_edge <$> chs)
  ∧ Forall (λ ch, codec (child_cid ch) = CODEC_MERKLE_NODE) chs.

Definition follows (prev : option byte) (e : byte) : Prop :=
  match prev with Some p => edge_lt p e | None => True end.

Lemma check_child_Ok prev ch next :
  check_child prev ch = Ok next ↔
  next = Some (child_edge ch) ∧ codec (child_cid ch) = CODEC_MERKLE_NODE ∧ follows prev (child_edge ch).
Proof.
  unfold check_child. destruct (N.eqb_spec (codec (child_cid ch)) CODEC_MERKLE_NODE); simpl; [|naive_solver].
  destruct prev as [p|]; simpl; [|naive_solver].
  unfold edge_lt. destruct (N.leb_spec (Byte.to_N (child_edge ch)) (Byte.to_N p)); simpl; naive_solver lia.
Qed.

Lemma check_children_Ok prev chs :
  (∃ last, try_foldl check_child prev chs = Ok last) ↔
  children_ok chs ∧ Forall (λ ch, follows prev (child_edge ch)) chs.
Proof.
  revert prev. induction chs as [|ch chs IH]; intros prev.
  { split; [intros _; repeat constructor|by eexists]. }
  unfold children_ok in *. rewrite fmap_cons, !Forall_cons. split.
  - intros (last & Hl). simpl in Hl. apply bind_Ok in Hl as (next & (-> & Hc & Hp)%check_child_Ok & Hl).
    destruct (proj1 (IH _) (ex_intro _ _ Hl)) as [[Hs Hcs] Hf]. repeat split; [|done|done|done|].
    + constructor; [done|]. by rewrite Forall_fmap.
    + eapply Forall_impl; [exact Hf|]. intros ch'. destruct prev as [e|]; simpl in *; [|done].
      by transitivity (child_edge ch).
  - intros [[[Hs Hlt]%StronglySorted_inv [Hc Hcs]] [Hp _]]. rewrite Forall_fmap in Hlt.
    destruct (proj2 (IH (Some (child_edge ch)))) as [last Hl]; [done|].
    exists last. simpl. rewrite (proj2 (check_child_Ok prev ch _)) by done. exact Hl.
Qed.

Lemma children_checked chs : (∃ last, try_foldl check_child None chs = Ok last) ↔ children_ok chs.
Proof.
  rewrite check_children_Ok. split; [by intros [? _]|]. intros Hok. split; [done|].
  by apply Forall_true.
Qed.

(** The header every node of this version carries. *)
Definition header_ok (node : Node) : Prop := node_type node = NODE_TYPE ∧ node_version node = NODE_VERSION.

Definition shallow_ok (node : Node) (p : bytes) : Prop :=
  header_ok node ∧ Node_prefix node = Ok p ∧ (len p ≤ max_key_bytes limits)%N
  ∧ value_ok (node_value node) ∧ children_ok (node_children node).

Lemma shallow_inv node :
  validate_node_shallow node limits = Ok () → ∃ p, shallow_ok node p.
Proof.
  unfold validate_node_shallow.
  intros (_ & Ht%fail_if_Ok & (_ & Hv%fail_if_Ok & (p & Hp & (_ & Hl%fail_if_Ok &
    (u & Hval & (_ & _ & (last & Hc & _)%bind_Ok)%bind_Ok)%bind_Ok)%bind_Ok)%bind_Ok)%bind_Ok)%bind_Ok.
  exists p. split; [split|]; [by apply negb_false_iff, bool_decide_eq_true in Ht| |].
  { by apply negb_false_iff, N.eqb_eq in Hv. }
  split; [done|]. split; [by apply N.ltb_ge in Hl|]. split.
  - destruct (node_value node); [by destruct u|done].
  - apply children_checked. eauto.
Qed.

(** A well-formed node passes validation unless it has too many children. *)
Lemma shallow_total node p :
  shallow_ok node p →
  validate_node_shallow node limits = Ok ()
  ∨ ∃ e, validate_node_shallow node limits = Err e ∧ refused e.
Proof.
  intros ([Ht Hv] & Hp & Hl & Hval & [last Hc]%children_checked). unfold validate_node_shallow.
  rewrite bool_decide_true by done. rewrite Hv, N.eqb_refl, Hp. simpl.
  rewrite (proj2 (N.ltb_ge (max_key_bytes limits) (len p)) Hl). simpl.
  assert (match node_value node with Some value => validate_value value limits | None => Ok () end = Ok ())
    as -> by (unfold value_ok in Hval; by destruct (node_value node)). simpl. rewrite Hc.
  destruct (N.ltb_spec (max_children limits) (len (node_children node))); simpl; [right|by left].
  eexists. split; [done|]. left. eauto.
Qed.

Lemma load_inv s cid node :
  load_node s cid limits = Ok node →
  codec cid = CODEC_MERKLE_NODE ∧ (∃ p, shallow_ok node p)
  ∧ ∃ payload, to_vec node = Ok payload ∧ cid = Cid_new CODEC_MERKLE_NODE payload
               ∧ store_get s cid = Ok payload.
Proof.
  unfold load_node, decode_node.
  intros (_ & Hk%fail_if_Ok & (payload & Hg%map_err_Ok & (_ & Hv%fail_if_Ok & (_ & Hl%fail_if_Ok &
   (node' & Hf%map_err_Ok & ([] & Hs & (canonical & Ht%map_err_Ok & (_ & Hc%fail_if_Ok & [= ->])%bind_Ok)%bind_Ok
    )%bind_Ok)%bind_Ok)%bind_Ok)%bind_Ok)%bind_Ok)%bind_Ok.
  apply negb_false_iff in Hk, Hv, Hc. apply N.eqb_eq in Hk. apply bool_decide_eq_true in Hc as ->.
  split; [done|]. split; [by apply shallow_inv|]. exists payload. split; [done|].
  split; [|done]. rewrite <-Hk. by apply Cid_verify_new.
Qed.

Lemma load_keeps s s' cid node :
  keeps s s' → load_node s cid limits = Ok node → load_node s' cid limits = Ok node.
Proof.
  intros Hk. unfold load_node. intros (u & Hc & (payload & Hg%map_err_Ok & Hr)%bind_Ok)%bind_Ok.
  rewrite Hc. simpl. rewrite (Hk _ _ Hg). exact Hr.
Qed.

(** Storing a well-formed node makes it loadable. *)
Lemma store_node_ends s node p :
  shallow_ok node p → ends s (store_node node limits) (λ cid s', load_node s' cid limits = Ok node).
Proof.
  intros Hok. unfold store_node.
  destruct (shallow_total node p Hok) as [Hs|(e & Hs & He)]; [|exists (Err e), s; unfold mbind, stm_bind; simpl; by rewrite Hs].
  apply (ends_lift s _ () _ _ Hs).
  destruct (to_vec node) as [payload|m] eqn:Hv; [|exists (Err (InvalidNode m)), s; simpl; naive_solver].
  apply (ends_lift s _ payload); [done|].
  destruct (N.ltb_spec (max_node_bytes limits) (len payload)) as [Hlt|Hle].
  { by exists (Err (NodeTooLarge (len payload) (max_node_bytes limits))), s. }
  apply (ends_lift s _ ()); [done|]. unfold ends, mbind, stm_bind.
  destruct (store_put CODEC_MERKLE_NODE payload s) as [[actual|m] s'] eqn:Hp; simpl.
  2:{ exists (Err (Write_ m)), s'. split; [done|]. split; [|done]. intros c q. by eapply put_keeps. }
  assert (keeps s s') as Hk by (intros c q; by eapply put_keeps).
  unfold lift. destruct (decide (actual = Cid_new CODEC_MERKLE_NODE payload)) as [->|Hne].
  2:{ rewrite (bool_decide_false _ Hne). eexists (Err _), s'. by split. }
  rewrite bool_decide_true by done. simpl. exists (Ok (Cid_new CODEC_MERKLE_NODE payload)), s'.
  split; [done|]. split; [done|]. unfold load_node, decode_node. simpl.
  rewrite (put_get _ _ _ _ _ Hp). simpl. rewrite Cid_new_verify. simpl.
  rewrite (proj2 (N.ltb_ge (max_node_bytes limits) (len payload)) Hle). simpl. rewrite (from_slice_to_vec _ _ Hv). simpl.
  rewrite Hs. simpl. rewrite Hv. simpl. by rewrite bool_decide_true.
Qed.

(** ** The tree a root denotes *)

(** [strict] asks the stored prefix text to be the one the crate itself writes;
    the decoder also accepts upper-case digits. *)
Inductive repr (strict : bool) (s : S) : Cid → tree → Prop :=
| repr_T cid node p cs :
    load_node s cid limits = Ok node →
    Node_prefix node = Ok p →
    (strict = true → prefix_hex node = hex_encode p) →
    Forall2 (λ ch ec, child_edge ch = ec.1 ∧ repr strict s (child_cid ch) ec.2)
      (node_children node) cs →
    repr strict s cid (T p (node_value node) cs).

Definition reprs (strict : bool) (s : S) : list Child → list (byte * tree) → Prop :=
  Forall2 (λ ch ec, child_edge ch = ec.1 ∧ repr strict s (child_cid ch) ec.2).

(** A node in memory that denotes a tree whose children are in the store. *)
Definition node_repr (strict : bool) (s : S) (node : Node) (t : tree) : Prop :=
  shallow_ok node (tprefix t)
  ∧ (strict = true → prefix_hex node = hex_encode (tprefix t))
  ∧ node_value node = tvalue t
  ∧ reprs strict s (node_children node) (tchildren t).

Lemma repr_load b s cid t :
  repr b s cid t → ∃ node, load_node s cid limits = Ok node ∧ node_repr b s node t.
Proof.
  destruct 1 as [cid node p cs Hl Hp Hb Hc]. exists node. split; [done|].
  destruct (load_inv _ _ _ Hl) as (_ & (p' & Hs) & _).
  assert (p' = p) as -> by (destruct Hs as (_ & Hp' & _); congruence).
  by split_and!.
Qed.

Lemma repr_codec b s cid t : repr b s cid t → codec cid = CODEC_MERKLE_NODE.
Proof. destruct 1 as [cid node p cs Hl]. by apply load_inv in Hl as [? _]. Qed.

Lemma repr_keeps b s s' cid t : keeps s s' → repr b s cid t → repr b s' cid t.
Proof.
  intros Hk. revert cid. induction t as [p v cs IH] using tree_ind'. intros cid Hr.
  inversion Hr as [? node ? ? Hl Hp Hb Hc]; subst. econstructor; [by eapply load_keeps|done|done|].
  clear -IH Hc Hk. induction Hc as [|ch ec chs cs [He Hc] _ IHc]; constructor.
  - apply Forall_cons in IH as [IH _]. auto.
  - apply Forall_cons in IH as [_ IH]. auto.
Qed.

Lemma reprs_keeps b s s' chs cs : keeps s s' → reprs b s chs cs → reprs b s' chs cs.
Proof.
  intros Hk Hc. eapply Forall2_impl; [exact Hc|]. intros ch ec [? ?]. split; [done|by eapply repr_keeps].
Qed.

Lemma node_repr_keeps b s s' node t : keeps s s' → node_repr b s node t → node_repr b s' node t.
Proof. intros Hk (? & ? & ? & ?). split_and!; [done..|]. by eapply reprs_keeps. Qed.

Lemma store_repr b s node t :
  node_repr b s node t → ends s (store_node node limits) (λ cid s', repr b s' cid t).
Proof.
  intros (Hs & Hb & Hv & Hc). eapply ends_mono; [by eapply store_node_ends|].
  intros cid s' Hk Hl. destruct t as [p v cs]. simpl in *. subst v.
  econstructor; [done|by apply Hs|done|by eapply reprs_keeps].
Qed.

(** A block denotes one tree, and a tree of strict nodes has one root, in any
    store. *)
Lemma repr_fun b s cid t t' : repr b s cid t → repr b s cid t' → t = t'.
Proof.
  revert cid t'. induction t as [p v cs IH] using tree_ind'. intros cid t' Hr Hr'.
  inversion Hr as [? node ? ? Hl Hp Hb Hc]; subst. inversion Hr' as [? node' p' cs' Hl' Hp' Hb' Hc']; subst.
  rewrite Hl in Hl'. injection Hl' as <-. rewrite Hp in Hp'. injection Hp' as <-. f_equal.
  clear -IH Hc Hc'. revert cs' Hc'. induction Hc as [|ch [e c] chs cs [He Hc] _ IHc]; intros cs' Hc';
    inversion Hc' as [|? [e' c'] ? cs'' [He' Hce']]; subst; [done|].
  apply Forall_cons in IH as [IH IH']. simpl in *. f_equal; [|auto].
  f_equal; [congruence|]. by eapply IH.
Qed.

Lemma strict_node s node t :
  node_repr true s node t → node = Node_new (tprefix t) (tvalue t) (node_children node).
Proof.
  intros (([Ht Hv] & _) & Hb & Hval & _). specialize (Hb eq_refl).
  destruct node. unfold Node_new. simpl in *. congruence.
Qed.

Lemma repr_root s s' cid cid' t : repr true s cid t → repr true s' cid' t → cid = cid'.
Proof.
  revert cid cid'. induction t as [p v cs IH] using tree_ind'. intros cid cid' Hr Hr'.
  apply repr_load in Hr as (node & Hl & Hn), Hr' as (node' & Hl' & Hn').
  apply load_inv in Hl as (_ & _ & payload & Hp & -> & _), Hl' as (_ & _ & payload' & Hp' & -> & _).
  apply strict_node in Hn as Heq, Hn' as Heq'. simpl in *.
  assert (node_children node = node_children node') as Hch.
  { destruct Hn as (_ & _ & _ & Hc), Hn' as (_ & _ & _ & Hc'). simpl in *. clear -IH Hc Hc'.
    revert Hc'. generalize (node_children node'). unfold reprs in Hc.
    induction Hc as [|[e c] ec chs cs [He Hc] _ IHc]; intros chs' Hc';
      inversion Hc' as [|[e' c'] ? ? ? [He' Hce']]; subst; [done|].
    apply Forall_cons in IH as [IH IH']. simpl in *. f_equal; [|auto].
    f_equal; [congruence|]. by eapply IH. }
  rewrite Hch in Heq. rewrite <-Heq' in Heq. subst node'. congruence.
Qed.

(** Building the nodes the operations write. *)
Lemma reprs_children b s chs cs :
  reprs b s chs cs → StronglySorted edge_lt (cs.*1) → children_ok chs.
Proof.
  intros Hc Hs. assert (child_edge <$> chs = cs.*1) as Heq.
  { clear Hs. unfold reprs in Hc. induction Hc as [|ch ec chs cs [He _] _ IHc]; [done|]. simpl. by f_equal. }
  split; [by rewrite Heq|]. clear Hs Heq. unfold reprs in Hc.
  induction Hc as [|ch ec chs cs [_ Hc] _ IHc]; constructor; [by eapply repr_codec|done].
Qed.

Lemma node_repr_sorted b s node t : node_repr b s node t → StronglySorted edge_lt ((tchildren t).*1).
Proof.
  intros ((_ & _ & _ & _ & [Hs _]) & _ & _ & Hc). assert (child_edge <$> node_children node = (tchildren t).*1) as <-; [|done].
  clear Hs. unfold reprs in Hc. induction Hc as [|ch ec chs cs [He _] _ IHc]; [done|]. simpl. by f_equal.
Qed.

Lemma node_repr_new b s p v chs cs :
  (len p ≤ max_key_bytes limits)%N → value_ok v → StronglySorted edge_lt (cs.*1) → reprs b s chs cs →
  node_repr b s (Node_new p v chs) (T p v cs).
Proof.
  intros Hl Hv Hs Hc. split_and!; [|done|done|done].
  split; [done|]. split; [unfold Node_prefix; simpl; by rewrite hex_decode_encode|].
  split; [done|]. split; [done|]. by eapply reprs_children.
Qed.

Lemma node_repr_value b s node p v v' cs :
  node_repr b s node (T p v cs) → value_ok v' → node_repr b s (with_value node v') (T p v' cs).
Proof. intros ((? & ? & ? & ? & ?) & ? & ? & ?) Hv. by split_and!. Qed.

Lemma node_repr_children b s node p v cs chs' cs' :
  node_repr b s node (T p v cs) → StronglySorted edge_lt (cs'.*1) → reprs b s chs' cs' →
  node_repr b s (with_children node chs') (T p v cs').
Proof.
  intros ((? & ? & ? & ? & ?) & ? & ? & ?) Hs Hc. split_and!; [|done|done|done].
  split; [done|]. split; [done|]. split; [done|]. split; [done|]. by eapply reprs_children.
Qed.

Lemma node_repr_prefix b s node p v cs q :
  node_repr b s node (T p v cs) → (len q ≤ max_key_bytes limits)%N →
  node_repr b s (with_prefix_hex node (hex_encode q)) (T q v cs).
Proof.
  intros ((? & ? & ? & ? & ?) & ? & ? & ?) Hq. split_and!; [|done|done|done].
  split; [done|]. split; [unfold Node_prefix; simpl; by rewrite hex_decode_encode|]. done.
Qed.

Lemma node_repr_bound b s node t : node_repr b s node t → (len (tprefix t) ≤ max_key_bytes limits)%N.
Proof. intros ((_ & _ & ? & _) & _). done. Qed.

Lemma node_repr_prefix_of b s node t : node_repr b s node t → Node_prefix node = Ok (tprefix t).
Proof. intros ((_ & ? & _) & _). done. Qed.

Lemma node_repr_value_ok b s node t : node_repr b s node t → value_ok (tvalue t).
Proof. intros ((_ & _ & _ & Hv & _) & _ & <- & _). done. Qed.

(** The child an edge leads to. *)
Lemma reprs_search b s chs cs e :
  reprs b s chs cs → StronglySorted edge_lt (cs.*1) →
  match search_edge child_edge e chs with
  | inl i => ∃ ch c, chs !! i = Some ch ∧ cs !! i = Some (e, c) ∧ child_edge ch = e
                     ∧ repr b s (child_cid ch) c ∧ find_child e cs = Some c
  | inr i => find_child e cs = None ∧ StronglySorted edge_lt ((take i cs).*1 ++ e :: (drop i cs).*1)
  end.
Proof.
  intros Hc Hs. assert (search_edge child_edge e chs = search_edge fst e cs) as ->.
  { apply search_edge_map. clear Hs. unfold reprs in Hc.
    induction Hc as [|ch ec chs cs [He _] _ IHc]; [done|]. simpl. by f_equal. }
  destruct (search_edge fst e cs) as [i|i] eqn:Hi.
  - apply search_edge_inl in Hi as ([e' c] & Hi & He). simpl in He. subst e'.
    destruct (Forall2_lookup_r _ _ _ _ _ Hc Hi) as (ch & Hch & He & Hr). exists ch, c.
    split_and!; [done..|]. apply find_child_Some; [by apply edges_NoDup|]. by eapply list_elem_of_lookup_2.
  - destruct (search_edge_inr _ _ _ _ Hs Hi) as [Hlt Hgt]. split.
    + apply find_child_None. rewrite <-(take_drop i cs), fmap_app, elem_of_app.
      rewrite Forall_forall in Hlt, Hgt.
      intros [(ec & -> & Hin)%list_elem_of_fmap|(ec & -> & Hin)%list_elem_of_fmap];
        [specialize (Hlt _ Hin)|specialize (Hgt _ Hin)]; unfold edge_lt in *; lia.
    + apply sorted_middle; [by rewrite <-fmap_app, take_drop|by rewrite Forall_fmap..].
Qed.

(** ** Reading *)

(** Levels that suffice below a node with prefix [p] for the bytes [rem] of the
    key: each child consumes at least its edge. *)
Definition enough (levels : nat) (p rem : bytes) : Prop :=
  1 ≤ levels ∧ length rem ≤ levels ∧ (p = [] → length rem < levels).

Lemma enough_child levels p e r c :
  enough (Datatypes.S levels) p (p ++ e :: r) → head (tprefix c) = Some e → enough levels (tprefix c) (e :: r).
Proof.
  intros (_ & Hl & Hp) Hc. unfold enough. rewrite length_app in *. simpl in *.
  destruct p as [|x p]; simpl in *; [specialize (Hp eq_refl)|]; (split; [lia|]; split; [lia|]);
    intros Hn; by rewrite Hn in Hc.
Qed.

Lemma drop_split (key : bytes) offset p r :
  offset ≤ length key → strip p (drop offset key) = Some r →
  offset + length p ≤ length key ∧ drop (offset + length p) key = r.
Proof.
  intros Ho Hr%strip_Some. split.
  - assert (length (drop offset key) = length p + length r) as Hl by (rewrite Hr; apply length_app).
    rewrite length_drop in Hl. lia.
  - by rewrite <-drop_drop, Hr, drop_app_length.
Qed.

Lemma drop_nil_length (key : bytes) n : n ≤ length key → drop n key = [] ↔ n = length key.
Proof.
  intros Hn. split; intros Hd.
  - assert (length (drop n key) = 0) as Hl by by rewrite Hd. rewrite length_drop in Hl. lia.
  - apply nil_length_inv. rewrite length_drop. lia.
Qed.

Lemma drop_cons_lookup (key : bytes) n e r : drop n key = e :: r → key !! n = Some e ∧ n ≠ length key.
Proof.
  intros Hd. split.
  - rewrite <-(Nat.add_0_r n), <-lookup_drop, Hd. done.
  - intros ->. by rewrite drop_all in Hd.
Qed.

Lemma descend_spec b s node p v cs key offset :
  node_repr b s node (T p v cs) → offset ≤ length key →
  match strip p (drop offset key) with
  | None => descend node key offset = Ok (inl None)
  | Some [] => descend node key offset = Ok (inl v)
  | Some (e :: r) =>
      drop (offset + length p) key = e :: r ∧ offset + length p ≤ length key ∧
      match find_child e cs with
      | None => descend node key offset = Ok (inl None)
      | Some c => ∃ cid, descend node key offset = Ok (inr (cid, offset + length p)) ∧ repr b s cid c
      end
  end.
Proof.
  intros Hn Ho. pose proof (node_repr_sorted _ _ _ _ Hn) as Hs. unfold descend.
  rewrite (node_repr_prefix_of _ _ _ _ Hn). simpl. rewrite strip_starts.
  destruct (strip p (drop offset key)) as [r|] eqn:Hr; [|by rewrite bool_decide_false by apply is_Some_None].
  rewrite bool_decide_true by eauto. simpl.
  destruct (drop_split _ _ _ _ Ho Hr) as [Hle Hd]. destruct r as [|e r].
  - apply drop_nil_length in Hd; [|done]. rewrite decide_True by done. by destruct Hn as (_ & _ & -> & _).
  - split; [done|]. split; [done|]. destruct (drop_cons_lookup _ _ _ _ Hd) as [He Hne].
    rewrite decide_False by done. rewrite He. simpl.
    destruct Hn as (_ & _ & _ & Hc). pose proof (reprs_search b s _ _ e Hc Hs) as Hse.
    destruct (search_edge child_edge e (node_children node)) as [i|i].
    + destruct Hse as (ch & c & Hch & _ & _ & Hrc & Hf). simpl in Hf. rewrite Hf, Hch. simpl. eauto.
    + destruct Hse as [Hf _]. simpl in Hf. by rewrite Hf.
Qed.

Definition wf_tree (t : tree) : Prop := Forall child_ok (tchildren t).

Lemma canon_root_wf t : canon_root t → wf_tree t.
Proof. intros [->|Hc]; [constructor|]. destruct t. by apply canon_T in Hc as (_ & _ & ?). Qed.

Lemma child_ok_find t e c : wf_tree t → find_child e (tchildren t) = Some c → child_ok (e, c).
Proof. intros Hwf Hf%find_child_elem. unfold wf_tree in Hwf. rewrite Forall_forall in Hwf. by apply Hwf. Qed.

Lemma get_loop_spec b s key levels cid offset t :
  repr b s cid t → wf_tree t → offset ≤ length key → enough levels (tprefix t) (drop offset key) →
  get_loop s limits key levels cid offset = Ok (tlookup t (drop offset key)).
Proof.
  revert cid offset t. induction levels as [|levels IH]; intros cid offset t Hr Hwf Ho Hen.
  { destruct Hen; lia. }
  destruct (repr_load _ _ _ _ Hr) as (node & Hl & Hn). simpl. rewrite Hl. simpl.
  destruct t as [p v cs]. pose proof (descend_spec b s node p v cs key offset Hn Ho) as Hd.
  rewrite tlookup_T. simpl in Hen. destruct (strip p (drop offset key)) as [[|e r]|] eqn:Hst; [by rewrite Hd| |by rewrite Hd].
  destruct Hd as (Hd & Hle & Hnext). simpl. destruct (find_child e cs) as [c|] eqn:Hf; [|by rewrite Hnext].
  destruct Hnext as (cid' & -> & Hr'). simpl.
  destruct (child_ok_find (T p v cs) e c Hwf Hf) as [He Hc]. simpl in He, Hc.
  apply strip_Some in Hst. rewrite Hst in Hen.
  rewrite (IH cid' _ c Hr'); [by rewrite Hd|apply canon_root_wf; by right|done|].
  rewrite Hd. by eapply enough_child.
Qed.

Lemma enough_root key p :
  (len key ≤ max_key_bytes limits)%N → (max_key_bytes limits ≤ max_depth limits)%N →
  enough (all_levels limits) p key.
Proof. unfold enough, all_levels, len. intros. lia. Qed.

(** The cached descent is the plain one. *)
Definition cache_ok (s : S) (cache : gmap Cid Node) : Prop :=
  ∀ cid node, cache !! cid = Some node → load_node s cid limits = Ok node.

Lemma get_cached_spec s key levels cid offset cache :
  cache_ok s cache →
  ∃ cache', get_cached s limits key levels cid offset cache = (get_loop s limits key levels cid offset, cache')
            ∧ cache_ok s cache'.
Proof.
  revert cid offset cache. induction levels as [|levels IH]; intros cid offset cache Hok; [by exists cache|].
  simpl. unfold mbind at 1, stm_bind at 1.
  destruct (cache !! cid) as [node|] eqn:Hc.
  - rewrite (Hok _ _ Hc). simpl. unfold mbind, stm_bind, lift.
    destruct (descend node key offset) as [[answer|[cid' offset']]|e]; simpl; [by exists cache| |by exists cache].
    by apply IH.
  - destruct (load_node s cid limits) as [node|e] eqn:Hl; [|by exists cache]. simpl.
    assert (cache_ok s (<[cid:=node]> cache)) as Hok'.
    { intros c n. rewrite lookup_insert_Some. naive_solver. }
    unfold mbind, stm_bind, lift.
    destruct (descend node key offset) as [[answer|[cid' offset']]|e]; simpl; [by eexists| |by eexists].
    by apply IH.
Qed.

(** ** Writing *)

Lemma normalize_repr b s node p v cs :
  node_repr b s node (T p v cs) →
  (∀ t, collapse p v cs = Some t → (len (tprefix t) ≤ max_key_bytes limits)%N) →
  ends s (normalize_and_store node limits) (λ r s',
    match r, collapse p v cs with
    | None, None => True
    | Some cid, Some t => repr b s' cid t
    | _, _ => False
    end).
Proof.
  intros Hn Hb. destruct Hn as (Hs & Hst & Hv & Hc) eqn:Heq. clear Heq.
  assert (∀ t, T p v cs = t → ends s (cid ← store_node node limits; mret (Some cid))
            (λ r s', match r with Some cid => repr b s' cid t | None => False end)) as Hkeep.
  { intros t <-. eapply ends_bind; [by apply (store_repr b)|]. intros cid s1 _ Hr. by apply ends_ret. }
  unfold normalize_and_store. simpl in *. rewrite Hv.
  destruct v as [w|]; [|inversion Hc as [|ch [e c] chs' cs' [He Hr] Hc' Hch Hcs]; [by apply ends_ret|]; subst cs].
  - destruct cs as [|[e [q w' ds]] [|ec cs]]; by apply Hkeep.
  - destruct c as [q w ds]. inversion Hc' as [|ch' ec' chs'' cs'' _ _ Hch' Hcs']; subst.
    2:{ by apply Hkeep. }
    destruct (repr_load _ _ _ _ Hr) as (child & Hl & Hcn).
    apply (ends_load _ _ _ _ _ Hl). eapply ends_lift; [by apply Hs|].
    eapply ends_lift; [by apply (node_repr_prefix_of _ _ _ _ Hcn)|].
    eapply ends_bind; [|intros cid s1 _ Hrr; by apply ends_ret; exact Hrr].
    apply (store_repr b). pose proof (node_repr_sorted _ _ _ _ Hcn) as Hds.
    pose proof (node_repr_value_ok _ _ _ _ Hcn) as Hw.
    destruct Hcn as (_ & _ & Hcv & Hcc). simpl in *. rewrite Hcv.
    apply node_repr_new; [by apply (Hb _ eq_refl)|done|done|done].
Qed.

Lemma len_bound (p : bytes) : (len p ≤ max_key_bytes limits)%N ↔ length p ≤ N.to_nat (max_key_bytes limits).
Proof. unfold len. lia. Qed.

Lemma insert_child_sorted_pair x y cx cy :
  x ≠ y →
  ∃ chs, insert_child_sorted [mkChild x cx] (mkChild y cy) = Ok chs
         ∧ StronglySorted edge_lt (child_edge <$> chs)
         ∧ (chs = [mkChild x cx; mkChild y cy] ∨ chs = [mkChild y cy; mkChild x cx]).
Proof.
  intros Hne. unfold insert_child_sorted. simpl.
  destruct (N.ltb_spec (Byte.to_N x) (Byte.to_N y)) as [Hlt|Hge].
  - eexists. split; [done|]. split; [|by left]. repeat constructor. done.
  - rewrite decide_False by done. eexists. split; [done|]. split; [|by right].
    repeat constructor. unfold edge_lt. simpl.
    assert (Byte.to_N x ≠ Byte.to_N y) by (intros ?%byte_to_N_inj; done). lia.
Qed.

Lemma insert_split_spec b s node p v cs rem w :
  node_repr b s node (T p v cs) → canon (T p v cs) →
  (len rem ≤ max_key_bytes limits)%N → validate_value w limits = Ok () →
  common_prefix_len p rem < length p →
  ends s (insert_split node p rem (common_prefix_len p rem) w limits)
    (λ cid s', ∃ t', repr b s' cid t' ∧ inserted (T p v cs) rem w t').
Proof.
  intros Hn Hcan Hrem Hw Hlt. pose proof (node_repr_bound _ _ _ _ Hn) as Hp. simpl in Hp.
  destruct (common_prefix_spec p rem) as (a & q & r & -> & -> & Hcl & Hd). rewrite Hcl in *.
  rewrite length_app in Hlt. destruct q as [|x q]; simpl in Hlt; [lia|].
  unfold insert_split. rewrite !drop_app_length, take_app_length. simpl.
  apply len_bound in Hp, Hrem. rewrite length_app in Hp, Hrem. simpl in Hp, Hrem.
  eapply ends_lift; [done|]. eapply ends_bind.
  { apply (store_repr b _ _ (T (x :: q) v cs)). eapply node_repr_prefix; [done|]. apply len_bound. simpl. lia. }
  intros ex s1 Hk1 Hex. destruct r as [|y r].
  - rewrite app_nil_r, Nat.ltb_irrefl. apply ends_ret_bind. rewrite decide_True by done.
    eapply ends_mono.
    { apply (store_repr b _ _ (T a (Some w) [(x, T (x :: q) v cs)])). apply node_repr_new; [|done|repeat constructor|].
      - apply len_bound. lia.
      - by constructor. }
    intros cid s3 _ Hr. eexists. split; [exact Hr|]. by apply inserted_split_value.
  - rewrite (proj2 (Nat.ltb_lt _ _)) by (rewrite length_app; simpl; lia).
    rewrite decide_False by (rewrite length_app; simpl; lia).
    assert (x ≠ y) as Hne by by eapply Hd.
    eapply (ends_bind _ _ _ (λ chs s2, ∃ ds, reprs b s2 chs ds ∧ StronglySorted edge_lt (ds.*1) ∧
      (ds = [(x, T (x :: q) v cs); (y, leaf (y :: r) w)] ∨ ds = [(y, leaf (y :: r) w); (x, T (x :: q) v cs)]))).
    + eapply ends_lift; [done|]. eapply ends_bind.
      { apply (store_repr b _ _ (leaf (y :: r) w)). apply node_repr_new; [|done|constructor|constructor].
        apply len_bound. simpl in *. lia. }
      intros ncid s2 Hk2 Hnew. destruct (insert_child_sorted_pair x y ex ncid Hne) as (chs & -> & Hs & Hchs).
      apply (ends_ret s2 chs). apply (repr_keeps _ _ _ _ _ Hk2) in Hex.
      destruct Hchs as [->| ->];
        [exists [(x, T (x :: q) v cs); (y, leaf (y :: r) w)]|exists [(y, leaf (y :: r) w); (x, T (x :: q) v cs)]];
        (split; [|split; [exact Hs|auto]]); repeat (apply List.Forall2_cons; [by split|]); constructor.
    + intros chs s2 Hk2 (ds & Hrs & Hs & Hds). eapply ends_mono.
      { apply (store_repr b _ _ (T a None ds)). apply node_repr_new; [|done|done|done]. apply len_bound. lia. }
      intros cid s3 _ Hr. eexists. split; [exact Hr|]. by eapply inserted_split_branch.
Qed.

Lemma reprs_split b s chs cs i ch e c :
  reprs b s chs cs → chs !! i = Some ch → cs !! i = Some (e, c) →
  reprs b s (take i chs) (take i cs) ∧ reprs b s (drop (Datatypes.S i) chs) (drop (Datatypes.S i) cs)
  ∧ cs = take i cs ++ (e, c) :: drop (Datatypes.S i) cs.
Proof.
  intros Hc Hch Hcs. split; [by apply Forall2_take|]. split; [by apply Forall2_drop|].
  symmetry. by apply take_drop_middle.
Qed.

Lemma reprs_middle b s chs1 chs2 cs1 cs2 e cid c :
  reprs b s chs1 cs1 → reprs b s chs2 cs2 → repr b s cid c →
  reprs b s (chs1 ++ mkChild e cid :: chs2) (cs1 ++ (e, c) :: cs2).
Proof. intros Hl Hk Hc. apply Forall2_app; [done|]. by apply List.Forall2_cons. Qed.

(** The last step of an insertion: write the node with its new child. *)
Lemma insert_finish b s node p v cs e r w cs' chs' :
  node_repr b s node (T p v cs) → bounded (N.to_nat (max_key_bytes limits)) (T p v cs) →
  (len (p ++ e :: r) ≤ max_key_bytes limits)%N →
  precanon cs' → cs' ≠ [] → reprs b s chs' cs' →
  (∀ k, tlookup (T p v cs') k = if decide (k = p ++ e :: r) then Some w else tlookup (T p v cs) k) →
  ends s (stored ← normalize_and_store (with_children node chs') limits;
          lift (ok_or stored (InvalidNode "insert produced an empty tree")))
    (λ cid s', ∃ t', repr b s' cid t' ∧ inserted (T p v cs) (p ++ e :: r) w t').
Proof.
  intros Hn Hb Hlen Hpre Hne Hrs Hlk. destruct (collapse_is_Some p v cs' Hne) as [t' Ht'].
  eapply ends_bind.
  { apply (normalize_repr b s _ p v cs').
    - eapply node_repr_children; [done|apply Hpre|done].
    - intros t Ht. apply len_bound. eapply collapse_bound; [done| |done].
      eapply bounded_inserted; [done| |done]. by apply len_bound. }
  intros stored s1 Hk Hst. rewrite Ht' in Hst. destruct stored as [cid|]; [|done].
  apply ends_ret. exists t'. split; [done|]. by eapply inserted_collapse.
Qed.

(** The two ways a node gets its new child: the subtree under the edge is
    replaced, or a leaf is added at the position the search gives. *)
Lemma insert_replace b s s1 node p v cs e r w i ch c u c' :
  node_repr b s node (T p v cs) → canon_root (T p v cs) →
  bounded (N.to_nat (max_key_bytes limits)) (T p v cs) → (len (p ++ e :: r) ≤ max_key_bytes limits)%N →
  node_children node !! i = Some ch → cs !! i = Some (e, c) → child_edge ch = e →
  head (tprefix c) = Some e → keeps s s1 → repr b s1 u c' → inserted c (e :: r) w c' →
  ends s1 (stored ← normalize_and_store
                      (with_children node (<[i:=mkChild (child_edge ch) u]> (node_children node))) limits;
           lift (ok_or stored (InvalidNode "insert produced an empty tree")))
    (λ cid s', ∃ t', repr b s' cid t' ∧ inserted (T p v cs) (p ++ e :: r) w t').
Proof.
  intros Hn Hcan Hb Hlen Hch Hi Hce Hhd Hk Hc' (Hic & Hil & Hih).
  pose proof (canon_root_precanon _ _ _ Hcan) as [Hs Hall]. pose proof Hn as (_ & _ & _ & Hc).
  destruct (reprs_split _ _ _ _ _ _ _ _ Hc Hch Hi) as (Hc1 & Hc2 & Hcs). cbn [tchildren] in *.
  set (l := take i cs) in *. set (k := drop (Datatypes.S i) cs) in *.
  rewrite Hcs in Hs. rewrite fmap_app, fmap_cons in Hs. destruct (not_in_split _ _ _ Hs) as [Hel Hek].
  rewrite Hce, (insert_take_drop _ _ _ (lookup_lt_Some _ _ _ Hch)).
  apply (insert_finish b s1 node p v cs e r w (l ++ (e, c') :: k)).
  - by eapply node_repr_keeps.
  - done.
  - done.
  - apply precanon_middle; [done| |split; [by apply Hih|done]].
    rewrite Hcs in Hall. apply Forall_app in Hall as [? [_ ?]%Forall_cons]. by apply Forall_app.
  - by destruct l.
  - apply reprs_middle; [by eapply reprs_keeps..|done].
  - apply (tlookup_set_child p v l k e r c' (tlookup c)); [done|done|by apply Hih|done| |].
    + intros key' Hh. rewrite Hcs. by apply tlookup_at.
    + intros key' Hh. rewrite Hcs. by apply tlookup_rest.
Qed.

Lemma insert_fresh b s s1 node p v cs e r w i u :
  node_repr b s node (T p v cs) → canon_root (T p v cs) →
  bounded (N.to_nat (max_key_bytes limits)) (T p v cs) → (len (p ++ e :: r) ≤ max_key_bytes limits)%N →
  find_child e cs = None → StronglySorted edge_lt ((take i cs).*1 ++ e :: (drop i cs).*1) →
  keeps s s1 → repr b s1 u (leaf (e :: r) w) →
  ends s1 (stored ← normalize_and_store
                      (with_children node (vec_insert i (mkChild e u) (node_children node))) limits;
           lift (ok_or stored (InvalidNode "insert produced an empty tree")))
    (λ cid s', ∃ t', repr b s' cid t' ∧ inserted (T p v cs) (p ++ e :: r) w t').
Proof.
  intros Hn Hcan Hb Hlen Hf Hs Hk Hnew. destruct (not_in_split _ _ _ Hs) as [Hel Hek].
  pose proof (canon_root_precanon _ _ _ Hcan) as [_ Hall]. pose proof Hn as (_ & _ & _ & Hc).
  apply (insert_finish b s1 node p v cs e r w (take i cs ++ (e, leaf (e :: r) w) :: drop i cs)).
  - by eapply node_repr_keeps.
  - done.
  - done.
  - apply precanon_middle; [done|by rewrite take_drop|split; [done|apply canon_leaf]].
  - by destruct (take i cs).
  - unfold vec_insert. apply reprs_middle; [| |done]; (eapply reprs_keeps; [done|]);
      [by apply Forall2_take|by apply Forall2_drop].
  - apply (tlookup_set_child p v (take i cs) (drop i cs) e r _ (λ _, None)); [done|done|done|apply tlookup_leaf| |].
    + intros key' Hh. by eapply tlookup_at_none.
    + intros key' _. by rewrite take_drop.
Qed.

Lemma insert_at_spec b key w levels s cid offset t :
  repr b s cid t → canon_root t → bounded (N.to_nat (max_key_bytes limits)) t →
  offset ≤ length key → (len (drop offset key) ≤ max_key_bytes limits)%N →
  enough levels (tprefix t) (drop offset key) → validate_value w limits = Ok () →
  ends s (insert_at limits key w levels cid offset)
    (λ cid' s', ∃ t', repr b s' cid' t' ∧ inserted t (drop offset key) w t').
Proof.
  revert s cid offset t. induction levels as [|levels IH]; intros s cid offset t Hr Hcan Hb Ho Hlen Hen Hw.
  { destruct Hen; lia. }
  destruct (repr_load _ _ _ _ Hr) as (node & Hl & Hn). simpl.
  eapply ends_lift; [by rewrite (proj2 (Nat.ltb_ge _ _))|]. eapply ends_lift; [done|].
  apply (ends_load _ _ _ _ _ Hl). eapply ends_lift; [by apply (node_repr_prefix_of _ _ _ _ Hn)|].
  destruct t as [p v cs]. simpl. simpl in Hen.
  destruct (Nat.ltb_spec (common_prefix_len p (drop offset key)) (length p)) as [Hlt|Hge].
  { apply insert_split_spec; try done. destruct Hcan as [[= -> -> ->]|?]; [simpl in Hlt; lia|done]. }
  destruct (strip p (drop offset key)) as [rem|] eqn:Hst.
  2:{ exfalso. destruct (common_prefix_spec p (drop offset key)) as (a & q & r & -> & Hrem & Hcl & _).
      rewrite Hcl, length_app in Hge. destruct q; simpl in Hge; [|lia].
      by rewrite Hrem, app_nil_r, strip_app in Hst. }
  destruct (drop_split _ _ _ _ Ho Hst) as [Hle Hd]. apply strip_Some in Hst as Hrem.
  destruct rem as [|e r].
  { apply drop_nil_length in Hd; [|done]. rewrite decide_True by done.
    rewrite Hrem, app_nil_r. eapply ends_mono; [apply (store_repr b); by eapply node_repr_value|].
    intros cid' s' _ Hr'. eexists. split; [exact Hr'|]. by apply inserted_value. }
  destruct (drop_cons_lookup _ _ _ _ Hd) as [He Hne]. rewrite decide_False by done.
  eapply ends_lift; [by rewrite He|]. rewrite Hrem in Hlen, Hen |- *.
  pose proof (canon_root_precanon _ _ _ Hcan) as [Hs Hall].
  pose proof Hn as (_ & _ & _ & Hc). pose proof (reprs_search b s _ _ e Hc Hs) as Hse. simpl in Hc, Hse.
  destruct (search_edge child_edge e (node_children node)) as [i|i].
  - destruct Hse as (ch & c & Hch & Hi & Hce & Hrc & Hf). rewrite Hch.
    destruct (child_ok_find (T p v cs) e c Hall Hf) as [Hhd Hcc]. simpl in Hhd, Hcc.
    eapply ends_bind.
    { eapply ends_lift; [done|]. eapply ends_bind.
      - apply (IH s (child_cid ch) _ c); [done|by right|by eapply bounded_child|done| | |done].
        + rewrite Hd. rewrite len_app in Hlen. lia.
        + rewrite Hd. by eapply enough_child.
      - intros cid' s' Hk Hins. apply (ends_ret _ _ (λ n s1, ∃ c' u, n = with_children node (<[i:=mkChild (child_edge ch) u]> (node_children node)) ∧ keeps s s1 ∧ repr b s1 u c' ∧ inserted c (e :: r) w c')).
        destruct Hins as (c' & Hc' & Hins). rewrite Hd in Hins. exists c', cid'. done. }
    intros n s1 _ (c' & u & -> & Hk & Hc' & Hins). by eapply insert_replace.
  - destruct Hse as [Hf Hs'].
    eapply ends_bind.
    { eapply ends_bind.
      - apply (store_repr b _ _ (leaf (e :: r) w)). rewrite Hd. apply node_repr_new; [|done|constructor|constructor].
        rewrite len_app in Hlen. lia.
      - intros cid' s' Hk Hnew. apply (ends_ret _ _ (λ n s1, ∃ u, n = with_children node (vec_insert i (mkChild e u) (node_children node)) ∧ keeps s s1 ∧ repr b s1 u (leaf (e :: r) w))).
        by exists cid'. }
    intros n s1 _ (u & -> & Hk & Hnew). by eapply insert_fresh.
Qed.

Definition delete_post (b : bool) (t : tree) (key : bytes) (r : option Cid) (s' : S) : Prop :=
  match r with
  | Some cid' => ∃ t', repr b s' cid' t' ∧ canon_root t' ∧ (canon t → canon t') ∧ deleted t key t'
                       ∧ ∃ q, tprefix t' = tprefix t ++ q
  | None => ∀ k, k ≠ key → tlookup t k = None
  end.

Lemma delete_unchanged b s cid t key :
  repr b s cid t → canon_root t → tlookup t key = None →
  ends s (mret (Some cid)) (delete_post b t key).
Proof.
  intros Hr Hc Hk. apply ends_ret. exists t. split; [done|]. split; [done|]. split; [done|].
  split; [by apply deleted_absent|]. exists []. by rewrite app_nil_r.
Qed.

(** The last step of a deletion: collapse what is left of the node and write it. *)
Lemma delete_finish b s node p v cs v' cs' key :
  node_repr b s node (T p v' cs') → bounded (N.to_nat (max_key_bytes limits)) (T p v cs) →
  precanon cs' → deleted (T p v cs) key (T p v' cs') →
  ends s (normalize_and_store node limits) (delete_post b (T p v cs) key).
Proof.
  intros Hn Hb Hpre Hd.
  assert (bounded (N.to_nat (max_key_bytes limits)) (T p v' cs')) as Hb'.
  { intros k w Hk. rewrite Hd in Hk. destruct (decide _); [done|by eapply Hb]. }
  eapply ends_mono.
  { apply (normalize_repr b s node p v' cs' Hn). intros t Ht. apply len_bound. by eapply collapse_bound. }
  intros r s1 Hk Hr. unfold delete_post. destruct r as [cid'|], (collapse p v' cs') as [t'|] eqn:Hc; try done.
  - destruct (collapse_canon _ _ _ _ Hpre Hc) as (Hcan & [q Hq] & Hext). exists t'.
    split; [done|]. split; [by right|]. split; [done|]. split; [|by exists q].
    intros k. by rewrite Hext.
  - intros k Hk'. pose proof (collapse_None p v' cs' k Hc) as HN. rewrite Hd in HN.
    by rewrite decide_False in HN.
Qed.

Lemma delete_in_child b s s1 node p v cs e r i ch c result :
  node_repr b s node (T p v cs) → canon_root (T p v cs) →
  bounded (N.to_nat (max_key_bytes limits)) (T p v cs) →
  node_children node !! i = Some ch → cs !! i = Some (e, c) → child_edge ch = e → child_ok (e, c) →
  keeps s s1 → delete_post b c (e :: r) result s1 →
  ends s1 (normalize_and_store
             (with_children node
                match result with
                | Some updated => <[i:=mkChild (child_edge ch) updated]> (node_children node)
                | None => take i (node_children node) ++ drop (Datatypes.S i) (node_children node)
                end) limits) (delete_post b (T p v cs) (p ++ e :: r)).
Proof.
  intros Hn Hcan Hb Hch Hi Hce [Hhd Hcc] Hk Hpost. cbn [fst snd] in Hhd, Hcc.
  pose proof (canon_root_precanon _ _ _ Hcan) as [Hs Hall]. pose proof Hn as (_ & _ & _ & Hc).
  destruct (reprs_split _ _ _ _ _ _ _ _ Hc Hch Hi) as (Hc1 & Hc2 & Hcs). cbn [tchildren] in *.
  set (l := take i cs) in *. set (k := drop (Datatypes.S i) cs) in *.
  rewrite Hcs in Hs. rewrite fmap_app, fmap_cons in Hs. destruct (not_in_split _ _ _ Hs) as [Hel Hek].
  assert (Forall child_ok (l ++ k)) as Hall'.
  { rewrite Hcs in Hall. apply Forall_app in Hall as [? [_ ?]%Forall_cons]. by apply Forall_app. }
  apply (node_repr_keeps _ _ _ _ _ Hk) in Hn. destruct result as [u|]; simpl in Hpost.
  - destruct Hpost as (c' & Hc' & _ & Hcan' & Hd & q & Hq).
    assert (head (tprefix c') = Some e) as Hhd' by (rewrite Hq; by apply head_app_Some).
    assert (precanon (l ++ (e, c') :: k)) as Hpre by (apply precanon_middle; [done|done|split; auto]).
    rewrite Hce, (insert_take_drop _ _ _ (lookup_lt_Some _ _ _ Hch)).
    apply (delete_finish b s1 _ p v cs v (l ++ (e, c') :: k)); [|done|done|].
    + eapply node_repr_children; [done|apply Hpre|]. apply reprs_middle; [by eapply reprs_keeps..|done].
    + intros key'. apply (tlookup_set_child p v l k e r c' (tlookup c)); [done|done|done|exact Hd| |].
      * intros k' Hh. rewrite Hcs. by apply tlookup_at.
      * intros k' Hh. rewrite Hcs. by apply tlookup_rest.
  - apply (delete_finish b s1 _ p v cs v (l ++ k)); [|done| |].
    + eapply node_repr_children; [done| |].
      * rewrite fmap_app. by eapply sorted_drop_middle.
      * apply Forall2_app; by eapply reprs_keeps.
    + split; [rewrite fmap_app; by eapply sorted_drop_middle|done].
    + rewrite Hcs at 1. by apply deleted_child.
Qed.

Lemma delete_at_spec b key levels s cid offset t :
  repr b s cid t → canon_root t → bounded (N.to_nat (max_key_bytes limits)) t →
  offset ≤ length key → enough levels (tprefix t) (drop offset key) →
  ends s (delete_at limits key levels cid offset) (delete_post b t (drop offset key)).
Proof.
  revert s cid offset t. induction levels as [|levels IH]; intros s cid offset t Hr Hcan Hb Ho Hen.
  { destruct Hen; lia. }
  destruct (repr_load _ _ _ _ Hr) as (node & Hl & Hn). simpl.
  apply (ends_load _ _ _ _ _ Hl). eapply ends_lift; [by apply (node_repr_prefix_of _ _ _ _ Hn)|].
  destruct t as [p v cs]. simpl. simpl in Hen. rewrite strip_starts.
  destruct (strip p (drop offset key)) as [rem|] eqn:Hst.
  2:{ rewrite bool_decide_false by apply is_Some_None. apply delete_unchanged; [done|done|].
      by rewrite tlookup_T, Hst. }
  rewrite bool_decide_true by eauto. simpl.
  destruct (drop_split _ _ _ _ Ho Hst) as [Hle Hd]. apply strip_Some in Hst as Hrem.
  pose proof Hn as (_ & _ & Hval & Hc). simpl in Hval, Hc.
  pose proof (canon_root_precanon _ _ _ Hcan) as [Hs Hall]. destruct rem as [|e r].
  { apply drop_nil_length in Hd; [|done]. rewrite decide_True by done. rewrite Hval.
    destruct v as [w|].
    - rewrite Hrem, app_nil_r. apply (delete_finish b s _ p (Some w) cs None cs); [|done|done|apply deleted_value].
      by eapply node_repr_value.
    - apply delete_unchanged; [done|done|]. by rewrite tlookup_T, Hst. }
  destruct (drop_cons_lookup _ _ _ _ Hd) as [He Hne]. rewrite decide_False by done.
  eapply ends_lift; [by rewrite He|]. pose proof (reprs_search b s _ _ e Hc Hs) as Hse.
  destruct (search_edge child_edge e (node_children node)) as [i|i].
  - destruct Hse as (ch & c & Hch & Hi & Hce & Hrc & Hf). rewrite Hch.
    pose proof (child_ok_find (T p v cs) e c Hall Hf) as [Hhd Hcc]. simpl in Hhd, Hcc.
    eapply ends_lift; [done|]. eapply ends_bind.
    { apply (IH s (child_cid ch) _ c); [done|by right|by eapply bounded_child|done|].
      rewrite Hd. rewrite Hrem in Hen. by eapply enough_child. }
    intros result s1 Hk Hpost. rewrite Hd in Hpost. rewrite Hrem. by eapply delete_in_child.
  - destruct Hse as [Hf _]. apply delete_unchanged; [done|done|]. by rewrite tlookup_T, Hst; simpl; rewrite Hf.
Qed.

(** ** Building from sorted entries *)

Definition entry_lt (x y : MapEntry) : Prop := bytes_lt (entry_key x) (entry_key y).

(** The entry lies behind the bytes [pb] on the edge [x]. *)
Definition at_edge (pb : bytes) (x : byte) (en : MapEntry) : Prop := ∃ r, entry_key en = pb ++ x :: r.

Definition entry_valid (en : MapEntry) : Prop :=
  validate_value (entry_value en) limits = Ok () ∧ (len (entry_key en) ≤ max_key_bytes limits)%N.

(** The forest [cs] holds exactly the entries [es] behind [pb]. *)
Definition forest_holds (pb : bytes) (cs : list (byte * tree)) (es : list MapEntry) : Prop :=
  ∀ e r w, (find_child e cs ≫= λ c, tlookup c (e :: r)) = Some w ↔ mkEntry (pb ++ e :: r) w ∈ es.

Definition tree_holds (pb : bytes) (t : tree) (es : list MapEntry) : Prop :=
  ∀ k w, tlookup t k = Some w ↔ mkEntry (pb ++ k) w ∈ es.

Lemma at_edge_lookup pb x en : at_edge pb x en → entry_key en !! length pb = Some x.
Proof. intros [r ->]. by rewrite lookup_app_r, Nat.sub_diag. Qed.

Lemma at_edge_inj pb x y en : at_edge pb x en → at_edge pb y en → x = y.
Proof. intros Hx%at_edge_lookup Hy%at_edge_lookup. congruence. Qed.

(** Adding the tree of one more run of entries at the end of the forest. *)
Lemma forest_snoc pb cs es x t g :
  forest_holds pb cs es → precanon cs → Forall (λ ec, edge_lt ec.1 x) cs →
  canon t → head (tprefix t) = Some x → tree_holds pb t g → Forall (at_edge pb x) g →
  precanon (cs ++ [(x, t)]) ∧ forest_holds pb (cs ++ [(x, t)]) (es ++ g).
Proof.
  intros Hf [Hs Hall] Hlt Hc Hhd Hg Hx. rewrite Forall_forall in Hlt. rewrite Forall_forall in Hx.
  assert (x ∉ cs.*1) as Hni.
  { intros (ec & -> & Hin)%list_elem_of_fmap. specialize (Hlt _ Hin). unfold edge_lt in Hlt. lia. }
  split.
  - apply precanon_middle; [|by rewrite app_nil_r|done].
    apply sorted_middle; [by rewrite app_nil_r| |constructor].
    rewrite Forall_fmap, Forall_forall. exact Hlt.
  - intros e r w. rewrite find_child_middle, app_nil_r, elem_of_app by (done || apply not_elem_of_nil).
    rewrite <-(Hf e r w). destruct (decide (e = x)) as [->|Hne]; simpl.
    + rewrite (Hg (x :: r) w). apply find_child_None in Hni as ->. simpl. naive_solver.
    + split; [by left|]. intros [?|Hin]; [done|]. apply Hx in Hin as [r' Heq]. simpl in Heq.
      apply app_inv_head in Heq. congruence.
Qed.

Section Groups.
Context (pb : bytes) (build : list MapEntry → stm S MerkleError Cid) (good : list MapEntry → Prop).
Context (build_spec : ∀ g x s, g ≠ [] → StronglySorted entry_lt g → Forall (at_edge pb x) g → good g →
  ends s (build g) (λ cid s', ∃ t, repr true s' cid t ∧ canon t ∧ head (tprefix t) = Some x ∧ tree_holds pb t g)).
Context (good_app : ∀ g k, good (g ++ k) ↔ good g ∧ good k).

Lemma build_groups_spec rest group edge children s cs before :
  group ≠ [] → StronglySorted entry_lt (before ++ group ++ rest) →
  Forall (at_edge pb edge) group → Forall (λ en, ∃ x, at_edge pb x en) rest → good (group ++ rest) →
  reprs true s children cs → precanon cs → Forall (λ ec, edge_lt ec.1 edge) cs → forest_holds pb cs before →
  ends s (build_groups build (length pb) edge group rest children)
    (λ chs s', ∃ cs', reprs true s' chs cs' ∧ precanon cs' ∧ forest_holds pb cs' (before ++ group ++ rest)).
Proof.
  revert group edge children s cs before.
  induction rest as [|en rest IH]; intros group edge children s cs before Hne Hs Hg Hrest Hgood Hrs Hpre Hlt Hf; simpl.
  - rewrite app_nil_r in *. eapply ends_bind.
    { apply (build_spec group edge); [done| |done|done]. by apply StronglySorted_app_1_r in Hs. }
    intros cid s1 Hk (t & Hr & Hc & Hhd & Hh). apply ends_ret.
    destruct (forest_snoc pb cs before edge t group) as [Hpre' Hf']; [done..|].
    exists (cs ++ [(edge, t)]). split; [|done].
    apply reprs_middle; [by eapply reprs_keeps|constructor|done].
  - apply Forall_cons in Hrest as [[x Hx] Hrest]. rewrite (at_edge_lookup _ _ _ Hx).
    destruct (decide (x = edge)) as [->|Hxe].
    + rewrite bool_decide_true by done.
      replace (before ++ group ++ en :: rest) with (before ++ (group ++ [en]) ++ rest) in * by by rewrite <-!app_assoc.
      apply (IH _ _ _ _ cs); try done; [by destruct group| |].
      * apply Forall_app. split; [done|]. by repeat constructor.
      * by rewrite <-app_assoc.
    + rewrite bool_decide_false by congruence. apply good_app in Hgood as [Hgg Hgr].
      apply StronglySorted_app in Hs as Hs'. destruct Hs' as (_ & _ & Hs'). apply StronglySorted_app in Hs' as (Hcross & Hsg & _).
      eapply ends_bind; [by apply (build_spec group edge)|].
      intros cid s1 Hk (t & Hr & Hc & Hhd & Hh). eapply ends_lift; [done|].
      destruct (forest_snoc pb cs before edge t group) as [Hpre' Hf']; [done..|].
      assert (edge_lt edge x) as Hex.
      { destruct group as [|g0 group]; [done|]. apply Forall_cons in Hg as [[r0 Hr0] _].
        destruct Hx as [rx Hrx]. specialize (Hcross g0 en (list_elem_of_here _ _) (list_elem_of_here _ _)).
        unfold entry_lt in Hcross. rewrite Hr0, Hrx in Hcross. apply bytes_lt_app_l, bytes_ltb_cons in Hcross.
        destruct Hcross as [?|[-> _]]; [done|congruence]. }
      replace (before ++ group ++ en :: rest) with ((before ++ group) ++ [en] ++ rest) in * by by rewrite <-!app_assoc.
      apply (IH _ _ _ _ (cs ++ [(edge, t)])); try done.
      * by repeat constructor.
      * apply reprs_middle; [by eapply reprs_keeps|constructor|done].
      * apply Forall_app. split; [|by repeat constructor]. eapply Forall_impl; [exact Hlt|].
        intros ec Hec. by transitivity edge.
Qed.

End Groups.

Lemma common_prefix_entries base es :
  es ≠ [] → StronglySorted entry_lt es → Forall (λ en, ∃ k, entry_key en = base ++ k) es →
  ∃ first z a q1 q2, head es = Some first ∧ last es = Some z
    ∧ entry_key first = (base ++ a) ++ q1 ∧ entry_key z = (base ++ a) ++ q2
    ∧ common_prefix_for_entries es (length base) = Ok (length a)
    ∧ (∀ x y q1' q2', q1 = x :: q1' → q2 = y :: q2' → x ≠ y)
    ∧ Forall (λ en, ∃ r, entry_key en = (base ++ a) ++ r) es.
Proof.
  intros Hne Hs Hb. destruct es as [|first es]; [done|].
  destruct (last (first :: es)) as [z|] eqn:Hz; [|by apply last_None in Hz].
  pose proof (StronglySorted_last _ _ _ Hs Hz) as Hlast.
  assert (z ∈ first :: es) as Hzin by by apply last_Some_elem_of.
  rewrite Forall_forall in Hb. destruct (Hb first) as [k1 Hk1]; [left|]. destruct (Hb z Hzin) as [k2 Hk2].
  destruct (common_prefix_spec k1 k2) as (a & q1 & q2 & -> & -> & Hl & Hd).
  exists first, z, a, q1, q2. rewrite Hk1, Hk2, !app_assoc. split_and!; [done..| |done|].
  - unfold common_prefix_for_entries. rewrite Hz. simpl. rewrite Hk1, Hk2, !drop_app_length. by rewrite Hl.
  - apply Forall_forall. intros en Hin. rewrite app_assoc in Hk1, Hk2.
    apply (bytes_sandwich (base ++ a) q1 _ q2).
    + rewrite <-Hk1. apply elem_of_cons in Hin as [->|Hin]; [by right|left].
      apply StronglySorted_inv in Hs as [_ Hf]. rewrite Forall_forall in Hf. by apply Hf.
    + rewrite <-Hk2. destruct (Hlast en Hin) as [->|?]; [by right|by left].
Qed.

(** Entries behind the node: all but the one at the node itself. *)
Lemma behind_node pb first es q :
  StronglySorted entry_lt (first :: es) → entry_key first = pb ++ q →
  Forall (λ en, ∃ r, entry_key en = pb ++ r) es → Forall (λ en, ∃ x, at_edge pb x en) es.
Proof.
  intros [_ Hf]%StronglySorted_inv Hq Hes. rewrite Forall_forall in *. intros en Hin.
  destruct (Hes en Hin) as [[|x r] Hr]; [|by exists x, r].
  specialize (Hf en Hin). unfold entry_lt in Hf. rewrite Hq, Hr in Hf.
  apply bytes_lt_app_l in Hf. by destruct q.
Qed.

Lemma forest_two pb cs es x y r r' w w' :
  forest_holds pb cs es → mkEntry (pb ++ x :: r) w ∈ es → mkEntry (pb ++ y :: r') w' ∈ es → x ≠ y →
  2 ≤ length cs.
Proof.
  intros Hf Hx%Hf Hy%Hf Hne.
  destruct cs as [|[e1 c1] [|? ?]]; simpl in *; [done| |lia].
  destruct (decide (e1 = x)), (decide (e1 = y)); simplify_eq/=; done.
Qed.

Definition fits (levels : nat) (pb : bytes) (es : list MapEntry) : Prop :=
  Forall entry_valid es ∧ Forall (λ en, length (entry_key en) ≤ length pb + levels) es.

Lemma fits_app levels pb g k : fits levels pb (g ++ k) ↔ fits levels pb g ∧ fits levels pb k.
Proof. unfold fits. rewrite !Forall_app. naive_solver. Qed.

(** What [build_subtree] produces from the entries behind [base]. *)
Definition build_post (base : bytes) (es : list MapEntry) (cid : Cid) (s' : S) : Prop :=
  ∃ t, repr true s' cid t ∧ canon t ∧ (∀ x, Forall (at_edge base x) es → head (tprefix t) = Some x)
       ∧ tree_holds base t es.

Definition roomy (levels : nat) (base : bytes) (es : list MapEntry) : Prop :=
  1 ≤ levels ∧ fits levels base es
  ∧ ((∃ x, Forall (at_edge base x) es) ∨ Forall (λ en, length (entry_key en) < length base + levels) es).

(** The entries of a node split: those behind it have one level less to go. *)
Lemma fits_behind levels base a es rest first z q1 q2 :
  roomy (Datatypes.S levels) base es → rest ⊆ es → first ∈ es → z ∈ es →
  entry_key first = (base ++ a) ++ q1 → entry_key z = (base ++ a) ++ q2 →
  (∀ x y q1' q2', q1 = x :: q1' → q2 = y :: q2' → x ≠ y) →
  fits levels (base ++ a) rest.
Proof.
  intros (_ & [Hv Hl] & Hroom) Hsub Hfirst Hz Hk1 Hk2 Hd. rewrite Forall_forall in Hv, Hl.
  split; apply Forall_forall; intros en Hin%Hsub; [by apply Hv|].
  rewrite length_app. destruct a as [|x a]; [|specialize (Hl _ Hin); simpl; lia].
  rewrite app_nil_r in *. destruct Hroom as [[x Hx]|Hroom].
  - exfalso. rewrite Forall_forall in Hx. destruct (Hx _ Hfirst) as [r1 Hr1], (Hx _ Hz) as [r2 Hr2].
    rewrite Hk1 in Hr1. rewrite Hk2 in Hr2. apply app_inv_head in Hr1, Hr2. by eapply Hd.
  - rewrite Forall_forall in Hroom. specialize (Hroom _ Hin). simpl. lia.
Qed.

Lemma build_children_spec levels pb rest s :
  (∀ base es s, es ≠ [] → StronglySorted entry_lt es → Forall (λ en, ∃ k, entry_key en = base ++ k) es →
     roomy levels base es → ends s (build_subtree limits levels es (length base)) (build_post base es)) →
  StronglySorted entry_lt rest → Forall (λ en, ∃ x, at_edge pb x en) rest → fits levels pb rest →
  ends s
    (match rest with
     | [] => mret []
     | e :: rest =>
         edge ← lift (ok_or (entry_key e !! length pb) Panicked);
         build_groups (λ group, build_subtree limits levels group (length pb)) (length pb) edge [e] rest []
     end)
    (λ chs s', ∃ cs, reprs true s' chs cs ∧ precanon cs ∧ forest_holds pb cs rest).
Proof.
  intros IH Hs Hedge Hfits. destruct rest as [|e rest].
  { apply ends_ret. exists []. split; [constructor|]. split; [repeat constructor|].
    intros x r w. simpl. split; [done|]. by intros ?%not_elem_of_nil. }
  apply Forall_cons in Hedge as [[x Hx] Hedge]. eapply ends_lift; [by rewrite (at_edge_lookup _ _ _ Hx)|].
  apply (build_groups_spec pb _ (fits levels pb)) with (cs := []) (before := []); try done.
  - intros g y s0 Hg Hsg Hy Hfg. eapply ends_mono.
    { apply IH; [done|done| |].
      - eapply Forall_impl; [exact Hy|]. intros en [r Hr]. eauto.
      - split; [|split; [done|left; by exists y]]. destruct Hfg as [_ Hlen]. destruct g as [|g0 g]; [done|].
        apply Forall_cons in Hlen as [Hlen _]. apply Forall_cons in Hy as [[r Hr] _].
        rewrite Hr, length_app in Hlen. simpl in Hlen. lia. }
    intros cid s1 _ (t & Hr & Hc & Hhd & Ht). exists t. auto.
  - intros g k. apply fits_app.
  - by repeat constructor.
  - constructor.
  - repeat constructor.
  - intros y r w. simpl. split; [done|]. by intros ?%not_elem_of_nil.
Qed.

(** The lookups of the node built from its value and the forest behind it. *)
Lemma node_holds base a v cs rest es :
  forest_holds (base ++ a) cs rest →
  (∀ en, en ∈ es ↔ (∃ w, v = Some w ∧ en = mkEntry (base ++ a) w) ∨ en ∈ rest) →
  Forall (λ en, ∃ x, at_edge (base ++ a) x en) rest →
  tree_holds base (T a v cs) es.
Proof.
  intros Hf Hes Hrest k w. rewrite tlookup_T, Hes. rewrite Forall_forall in Hrest.
  destruct (strip a k) as [[|x r]|] eqn:Hst.
  - apply strip_Some in Hst as ->. rewrite app_nil_r. split; [naive_solver|].
    intros [(w' & -> & [= <-])|Hin]; [done|]. apply Hrest in Hin as (x & r & Heq). simpl in Heq.
    rewrite <-(app_nil_r (base ++ a)) in Heq at 1. by apply app_inv_head in Heq.
  - apply strip_Some in Hst as ->. simpl. rewrite (Hf x r w), <-app_assoc. split; [by right|].
    intros [(w' & _ & [= Heq _])|?]; [|done].
    apply app_inv_head in Heq. rewrite <-(app_nil_r a) in Heq at 2. by apply app_inv_head in Heq.
  - split; [done|]. intros [(w' & _ & [= Heq _])|Hin].
    + apply app_inv_head in Heq as ->. by rewrite strip_self in Hst.
    + apply Hrest in Hin as (x & r & Heq). simpl in Heq. rewrite <-app_assoc in Heq.
      apply app_inv_head in Heq as ->. by rewrite strip_app in Hst.
Qed.

Lemma build_subtree_spec levels base es s :
  es ≠ [] → StronglySorted entry_lt es → Forall (λ en, ∃ k, entry_key en = base ++ k) es →
  roomy levels base es → ends s (build_subtree limits levels es (length base)) (build_post base es).
Proof.
  revert base es s. induction levels as [|levels IH]; intros base es s Hne Hs Hb Hroom.
  { destruct Hroom; lia. }
  destruct (common_prefix_entries base es Hne Hs Hb)
    as (first & z & a & q1 & q2 & Hfirst & Hz & Hk1 & Hk2 & Hcp & Hd & Hpb).
  destruct es as [|first' es]; [done|]. simpl in Hfirst. injection Hfirst as ->.
  assert (z ∈ first :: es) as Hzin by by apply last_Some_elem_of.
  assert (∀ rest, rest ⊆ first :: es → fits levels (base ++ a) rest) as Hfits.
  { intros rest Hsub. eapply fits_behind; [done|done|left|exact Hzin|done..]. }
  apply Forall_cons in Hpb as [_ Hpb]. pose proof (behind_node _ _ _ _ Hs Hk1 Hpb) as Hedge.
  assert (∀ x, Forall (at_edge base x) (first :: es) → head a = Some x) as Hhead.
  { intros x Hx. rewrite Forall_forall in Hx. destruct (Hx first) as [r1 Hr1]; [left|]. destruct (Hx z Hzin) as [r2 Hr2].
    rewrite Hk1, <-app_assoc in Hr1. rewrite Hk2, <-app_assoc in Hr2. apply app_inv_head in Hr1, Hr2.
    destruct a; simplify_eq/=; [by destruct (Hd x x r1 r2)|done]. }
  assert (len a ≤ max_key_bytes limits)%N as Hla.
  { destruct Hroom as (_ & [Hv _] & _). apply Forall_cons in Hv as [[_ Hl] _].
    rewrite Hk1, !len_app in Hl. lia. }
  apply StronglySorted_inv in Hs as Hs'. destruct Hs' as [Hs' _].
  cbn [build_subtree]. eapply ends_lift; [done|]. eapply ends_lift; [done|].
  rewrite Hk1, <-app_assoc, drop_app_length, take_app_length, <-length_app, app_assoc.
  assert (entry_valid first) as [Hvf _] by (destruct Hroom as (_ & [Hv _] & _); by apply Forall_cons in Hv as [? _]).
  destruct q1 as [|x q1].
  - rewrite app_nil_r in *. rewrite bool_decide_true by done. eapply ends_bind.
    { apply (build_children_spec levels (base ++ a) es s IH); [done|done|]. apply Hfits. intros en Hin. by right. }
    intros chs s1 Hk (cs & Hrs & [Hsc Hall] & Hf). eapply ends_mono.
    { apply (store_repr true _ _ (T a (Some (entry_value first)) cs)). by apply node_repr_new. }
    intros cid s2 _ Hr. exists (T a (Some (entry_value first)) cs). split; [exact Hr|].
    split; [by apply canon_T|]. split; [exact Hhead|].
    apply (node_holds _ _ _ _ es); [done| |done]. intros en. rewrite elem_of_cons.
    split; [intros [->|?]; [left|by right]|intros [(w & [= <-] & ->)|?]; [left|by right]].
    + eexists. split; [done|]. destruct first; simpl in *. by subst.
    + destruct first; simpl in *. by subst.
  - rewrite bool_decide_false by (rewrite length_app; simpl; lia).
    assert (Forall (λ en, ∃ x, at_edge (base ++ a) x en) (first :: es)) as Hedge' by (constructor; [by exists x, q1|done]).
    eapply ends_bind; [apply (build_children_spec levels (base ++ a) (first :: es) s IH); [done|done|by apply Hfits]|].
    intros chs s1 Hk (cs & Hrs & [Hsc Hall] & Hf). eapply ends_mono.
    { apply (store_repr true _ _ (T a None cs)). by apply node_repr_new. }
    intros cid s2 _ Hr. exists (T a None cs). split; [exact Hr|]. split; [|split; [exact Hhead|]].
    + apply canon_T. split; [|done]. intros _. rewrite Forall_forall in Hedge'.
      destruct (Hedge' z Hzin) as (y & q2' & Hy). rewrite Hk2 in Hy. apply app_inv_head in Hy as ->.
      apply (forest_two _ _ _ x y q1 q2' (entry_value first) (entry_value z) Hf); [| |by eapply Hd].
      * destruct first; simpl in *; subst. left.
      * destruct z; simpl in *; subst. done.
    + apply (node_holds _ _ _ _ (first :: es)); [done| |done]. naive_solver.
Qed.

End Refinement.
