(* ===== verification/MerkleScan.v ===== *)
(** * Scans and whole-tree validation (crates/pepper-merkle)

    The two work-list loops: a scan enumerates the matching entries of the tree
    in key order up to one more than its limit; a validation that succeeds has
    walked a tree of the canonical shape. *)
From stdpp Require Import base gmap sets list strings sorting.
From Stdlib Require Import Strings.Byte.
From S2P Require Import Prelude Types Merkle MerkleTree MerkleRefinement.

(** Number of nodes. *)
Fixpoint tsize (t : tree) : nat :=
  match t with T _ _ cs => S (list_sum (map (λ ec, tsize ec.2) cs)) end.

Definition forest_size (cs : list (byte * tree)) : nat := list_sum (map (λ ec, tsize ec.2) cs).

(** A canonical tree has fewer than two nodes per entry. *)
Lemma tsize_entries base t : canon t → S (tsize t) ≤ 2 * length (entries_of base t).
Proof.
  revert base. induction t as [p v cs IH] using tree_ind'. intros base (Hv & _ & Hall)%canon_T. simpl.
  assert (forest_size cs + length cs ≤ 2 * length (flat_map (λ ec, entries_of (base ++ p) ec.2) cs)) as Hf.
  { clear Hv. induction cs as [|ec cs IHcs]; simpl; [done|]. rewrite length_app.
    apply Forall_cons in IH as [IHc IH], Hall as [[_ Hc] Hall].
    specialize (IHcs IH Hall). specialize (IHc (base ++ p) Hc). unfold forest_size in *. simpl. lia. }
  fold (forest_size cs). rewrite length_app. destruct v; simpl; [lia|]. specialize (Hv eq_refl). lia.
Qed.

Section Scans.
Context `{Blake3} `{Hex} `{!HexLaws} `{Json Node} `{!JsonLaws Node} `{Json CursorRecord}.
Context {S : Type} `{MerkleStore S} `{!MerkleStoreLaws S} (limits : MerkleLimits).
Context (deep : (max_key_bytes limits ≤ max_depth limits)%N).

(** ** The scan loop *)

Section Loop.
Context (b : bool) (s : S) (query : ScanQuery) (after : option bytes).

(** A work-list item with the tree it denotes. *)
Definition item : Type := Cid * bytes * N * tree.

Definition item_ok (it : item) : Prop :=
  let '(cid, base, d, t) := it in
  repr limits b s cid t ∧ canon_root t
  ∧ (∀ k w, tlookup t k = Some w → (len base + len k ≤ max_key_bytes limits)%N)
  ∧ (d = 0%N ∨ (canon t ∧ tprefix t ≠ [] ∧ (d ≤ len base + 1)%N)).

Definition matching (kv : bytes * MerkleValue) : Prop := key_matches kv.1 query after = true.

#[global] Instance matching_dec kv : Decision (matching kv).
Proof. unfold matching. apply _. Defined.

Definition to_entry (kv : bytes * MerkleValue) : MapEntry := mkEntry kv.1 kv.2.

Definition todo (items : list item) : list (bytes * MerkleValue) :=
  flat_map (λ '(_, base, _, t), entries_of base t) items.

Definition work (items : list item) : nat := list_sum (map (λ '(_, _, _, t), tsize t) items).

Definition child_items (key : bytes) (d : N) (chs : list Child) (cs : list (byte * tree)) : list item :=
  zip_with (λ ch ec, (child_cid ch, key, d, ec.2)) chs cs.

Lemma child_items_stack key d chs cs :
  reprs limits b s chs cs → (child_items key d chs cs).*1 = (λ child, (child_cid child, key, d)) <$> chs.
Proof. unfold reprs. induction 1 as [|ch ec chs cs _ _ IH]; [done|]. simpl. by f_equal. Qed.

Lemma child_items_todo key d chs cs :
  reprs limits b s chs cs → todo (child_items key d chs cs) = flat_map (λ ec, entries_of key ec.2) cs.
Proof. unfold reprs. induction 1 as [|ch ec chs cs _ _ IH]; [done|]. simpl. by f_equal. Qed.

Lemma child_items_work key d chs cs :
  reprs limits b s chs cs → work (child_items key d chs cs) = forest_size cs.
Proof. unfold reprs. induction 1 as [|ch ec chs cs _ _ IH]; [done|]. unfold work, forest_size in *. simpl. by f_equal. Qed.

Lemma item_depth cid base d t : item_ok (cid, base, d, t) → (d ≤ max_depth limits)%N.
Proof.
  intros (_ & _ & Hb & [->|(Hc & Hp & Hd)]); [lia|].
  destruct (canon_nonempty t Hc) as (k & w & Hk). apply Hb in Hk as Hl.
  destruct (tlookup_prefix _ _ _ Hk) as [r ->]. destruct (tprefix t); [done|].
  rewrite len_app, len_cons in Hl. lia.
Qed.

Lemma child_items_ok cid base d p v cs chs :
  item_ok (cid, base, d, T p v cs) → reprs limits b s chs cs →
  Forall item_ok (child_items (base ++ p) (d + 1) chs cs).
Proof.
  intros (_ & Hcan & Hb & Hd) Hrs. apply canon_root_precanon in Hcan as [Hs Hall].
  apply edges_NoDup in Hs.
  assert (∀ ec, ec ∈ cs → (∀ k w, tlookup ec.2 k = Some w → (len (base ++ p) + len k ≤ max_key_bytes limits)%N)) as Hbc.
  { intros [e c] Hin k w Hk. rewrite Forall_forall in Hall. destruct (Hall _ Hin) as [He Hc]. simpl in *.
    rewrite (tlookup_child p v cs e c k) in Hk; [|by apply find_child_Some|done].
    destruct (decide _); [|done]. apply Hb in Hk. rewrite len_app in *. lia. }
  clear Hb Hs. assert (d + 1 ≤ len (base ++ p) + 1)%N as Hd'.
  { rewrite len_app. destruct Hd as [->|(_ & Hp & Hd)]; [lia|]. destruct p; [done|]. rewrite len_cons. lia. }
  clear Hd. unfold reprs in Hrs. induction Hrs as [|ch ec chs cs [_ Hr] _ IH]; simpl; constructor.
  - apply Forall_cons in Hall as [[Hhd Hc] _]. split; [done|]. split; [by right|].
    split; [by apply Hbc; left|]. right. split; [done|]. split; [|done]. by destruct (tprefix ec.2).
  - apply IH; [by apply Forall_cons in Hall as [_ ?]|]. intros ec' Hin. apply Hbc. by right.
Qed.

Lemma scan_loop_spec budget items acc n :
  Forall item_ok items → (len acc ≤ q_limit query)%N → work items ≤ budget →
  ∃ n', scan_loop s limits query after budget (items.*1) acc n
        = Ok (take (N.to_nat (q_limit query) + 1) (acc ++ (to_entry <$> filter matching (todo items))), n')
        ∧ (n' ≤ n + N.of_nat (work items))%N.
Proof.
  revert items acc n. induction budget as [|budget IH]; intros [|[[[cid base] d] t] items] acc n Hok Hacc Hw.
  1,3: exists n; simpl; rewrite app_nil_r, take_ge by (unfold len in Hacc; lia); split; [done|lia].
  { unfold work in Hw. destruct t. simpl in Hw. lia. }
  apply Forall_cons in Hok as [Hit Hok].
  remember (to_entry <$> filter matching (todo _)) as target eqn:Htarget.
  remember (work _) as total eqn:Htotal in Hw |- *. simpl.
  rewrite (proj2 (N.ltb_ge (max_depth limits) d)) by by eapply item_depth. simpl.
  pose proof Hit as (Hr & _). destruct (repr_load _ _ _ _ _ Hr) as (node & Hl & Hn). rewrite Hl. simpl.
  rewrite (node_repr_prefix_of _ _ _ _ _ Hn). simpl. destruct t as [p v cs].
  pose proof Hn as (_ & _ & Hv & Hrs). simpl in Hv, Hrs. rewrite Hv. simpl.
  set (found := match v with
                | Some value => if key_matches (base ++ p) query after then [mkEntry (base ++ p) value] else []
                | None => []
                end).
  set (new := child_items (base ++ p) (d + 1) (node_children node) cs).
  assert (target = found ++ (to_entry <$> filter matching (todo (new ++ items)))) as ->.
  { rewrite Htarget. unfold todo. rewrite flat_map_app. fold (todo new). fold (todo items). unfold new.
    rewrite (child_items_todo _ _ _ _ Hrs). simpl. rewrite <-app_assoc, filter_app, fmap_app. f_equal.
    unfold found. destruct v as [w|]; [|done]. rewrite filter_cons. unfold matching at 1.
    destruct (decide _) as [Hm|Hm]; unfold matching in Hm; simpl in Hm; [by rewrite Hm|].
    by destruct (key_matches (base ++ p) query after). }
  rewrite app_assoc.
  assert (work (new ++ items) = forest_size cs + work items) as Hwork.
  { unfold work. rewrite map_app, list_sum_app. unfold new. by rewrite <-(child_items_work (base ++ p) (d + 1) _ _ Hrs). }
  assert (total = Datatypes.S (forest_size cs + work items)) as Htot by by rewrite Htotal.
  destruct (bool_decide (found ≠ []) && (q_limit query <? len (acc ++ found))%N) eqn:Hbreak.
  - apply andb_true_iff in Hbreak as [_ Hlt%N.ltb_lt]. exists (n + 1)%N. split; [|lia]. do 2 f_equal.
    rewrite len_app in Hlt. assert (len found ≤ 1)%N.
    { unfold found. destruct v; [destruct (key_matches _ _ _)|]; simpl; done. }
    rewrite take_app_length'; [done|]. rewrite length_app. unfold len in *. lia.
  - assert (len (acc ++ found) ≤ q_limit query)%N as Hacc'.
    { apply andb_false_iff in Hbreak as [Hb|Hb%N.ltb_ge]; [|done].
      apply bool_decide_eq_false in Hb. destruct found; [by rewrite app_nil_r|]. by destruct Hb. }
    destruct (IH (new ++ items) (acc ++ found) (n + 1)%N) as (n' & Hscan & Hn'); [|done|lia|].
    { apply Forall_app. split; [|done]. by eapply child_items_ok. }
    rewrite fmap_app in Hscan. unfold new in Hscan at 1. rewrite (child_items_stack _ _ _ _ Hrs) in Hscan.
    exists n'. split; [exact Hscan|]. lia.
Qed.

End Loop.

(** ** The validation loop *)

Section Validation.
Context (s : S).

Definition tcount (t : tree) : nat := length (entries_of [] t).

Lemma length_entries base base' t : length (entries_of base t) = length (entries_of base' t).
Proof.
  revert base base'. induction t as [p v cs IH] using tree_ind'. intros base base'. simpl.
  rewrite !length_app. f_equal; [by destruct v|].
  induction cs as [|ec cs IHcs]; simpl; [done|]. apply Forall_cons in IH as [IHc IH].
  rewrite !length_app. f_equal; [apply IHc|by apply IHcs].
Qed.

Lemma tcount_T p v cs :
  tcount (T p v cs) = (if v then 1 else 0) + list_sum (map (λ ec, tcount ec.2) cs).
Proof.
  unfold tcount. simpl. rewrite length_app. f_equal; [by destruct v|].
  induction cs as [|ec cs IH]; simpl; [done|]. rewrite length_app, IH. f_equal. apply length_entries.
Qed.

(** What the walk establishes of one work-list item. *)
Definition walked (it : Cid * bytes * N * bool) (t : tree) : Prop :=
  let '(cid, base, _, is_root) := it in
  repr limits false s cid t
  ∧ (∀ k w, tlookup t k = Some w → (len base + len k ≤ max_key_bytes limits)%N)
  ∧ precanon (tchildren t)
  ∧ (tvalue t = None → length (tchildren t) ≠ 1)
  ∧ (is_root = false → canon t ∧ tprefix t ≠ []).

Lemma check_edges_Forall u chs u' :
  try_foldl (check_child_edge s limits) u chs = Ok u' →
  Forall (λ ch, ∃ node p, load_node s (child_cid ch) limits = Ok node ∧ Node_prefix node = Ok p
                          ∧ head p = Some (child_edge ch)) chs.
Proof.
  revert u. induction chs as [|ch chs IH]; intros u; simpl; [constructor|].
  intros (u1 & (node & Hl & (p & Hp & Hh%fail_if_Ok)%bind_Ok)%bind_Ok & Hrest)%bind_Ok.
  constructor; [|by eapply IH]. exists node, p. apply negb_false_iff, bool_decide_eq_true in Hh. done.
Qed.

(** The trees of the children, put under their edges. *)
Lemma assemble key d chs ts :
  Forall2 walked ((λ child, (child_cid child, key, d, false)) <$> chs) ts →
  Forall (λ ch, ∃ node p, load_node s (child_cid ch) limits = Ok node ∧ Node_prefix node = Ok p
                          ∧ head p = Some (child_edge ch)) chs →
  reprs limits false s chs (zip (child_edge <$> chs) ts)
  ∧ Forall child_ok (zip (child_edge <$> chs) ts)
  ∧ (∀ e c, (e, c) ∈ zip (child_edge <$> chs) ts →
       ∀ k w, tlookup c k = Some w → (len key + len k ≤ max_key_bytes limits)%N).
Proof.
  revert ts. induction chs as [|ch chs IH]; intros ts Hw Hedges; inversion Hw as [|? t ? ts' Hwt Hws]; subst; simpl.
  { split; [constructor|]. split; [constructor|]. by intros e c ?%not_elem_of_nil. }
  apply Forall_cons in Hedges as [(node & p & Hl & Hp & Hh) Hedges].
  destruct (IH _ Hws Hedges) as (Hrs & Hok & Hb). destruct Hwt as (Hr & Hbt & _ & _ & Hcan).
  destruct (Hcan eq_refl) as [Hc _]. split; [by constructor|]. split.
  - constructor; [|done]. split; [|done]. destruct (repr_load _ _ _ _ _ Hr) as (node' & Hl' & Hn).
    rewrite Hl in Hl'. injection Hl' as <-. apply node_repr_prefix_of in Hn. simpl. congruence.
  - intros e c [[= -> ->]|Hin]%elem_of_cons; [done|by eapply Hb].
Qed.

Lemma zip_fst_length chs ts key d :
  Forall2 walked ((λ child, (child_cid child, key, d, false)) <$> chs) ts →
  (zip (child_edge <$> chs) ts).*1 = child_edge <$> chs ∧ (zip (child_edge <$> chs) ts).*2 = ts.
Proof.
  intros Hw%Forall2_length. rewrite length_fmap in Hw.
  split; [apply fst_zip|apply snd_zip]; rewrite length_fmap; lia.
Qed.

(** One node of the walk, from the trees of its children. *)
Lemma walked_node cid base d d' is_root node p ts :
  load_node s cid limits = Ok node → Node_prefix node = Ok p →
  negb is_root && bool_decide (p = []) = false →
  bool_decide (node_value node = None) && (len (node_children node) =? 1)%N = false →
  negb is_root && bool_decide (node_value node = None) && bool_decide (node_children node = []) = false →
  validate_key (base ++ p) limits = Ok () →
  try_foldl (check_child_edge s limits) () (reverse (node_children node)) = Ok () →
  Forall2 walked ((λ child, (child_cid child, base ++ p, d, false)) <$> node_children node) ts →
  walked (cid, base, d', is_root) (T p (node_value node) (zip (child_edge <$> node_children node) ts)).
Proof.
  intros Hl Hp Hempty Hsingle Hvoid Hkey%fail_if_Ok%N.ltb_ge Hedges%check_edges_Forall Hw.
  rewrite Forall_reverse in Hedges. destruct (assemble _ _ _ _ Hw Hedges) as (Hrs & Hok & Hb).
  destruct (zip_fst_length _ _ _ _ Hw) as [Hfst Hsnd].
  destruct (load_inv _ _ _ _ Hl) as (_ & (p' & _ & _ & _ & _ & [Hs _]) & _).
  assert (length (zip (child_edge <$> node_children node) ts) = length (node_children node)) as Hlen.
  { rewrite <-(length_fmap fst), Hfst. apply length_fmap. }
  assert (node_value node = None → length (node_children node) ≠ 1) as Hone.
  { intros Hv. rewrite bool_decide_true in Hsingle by done. apply N.eqb_neq in Hsingle. unfold len in Hsingle. lia. }
  split; [by econstructor|]. split_and!.
  - intros k w Hk. rewrite len_app in Hkey. destruct (tlookup_prefix _ _ _ Hk) as [r ->]. simpl in *.
    rewrite tlookup_T, strip_app in Hk. destruct r as [|e r]; [rewrite app_nil_r; lia|].
    destruct (find_child e _) as [c|] eqn:Hf; [|done]. apply find_child_elem in Hf.
    specialize (Hb _ _ Hf _ _ Hk). rewrite !len_app in *. lia.
  - simpl. split; [by rewrite Hfst|done].
  - simpl. by rewrite Hlen.
  - intros ->. simpl in *. split; [|by apply bool_decide_eq_false in Hempty].
    apply canon_T. split; [|split; [by rewrite Hfst|done]]. intros Hv. rewrite Hlen. specialize (Hone Hv).
    rewrite bool_decide_true in Hvoid by done. apply bool_decide_eq_false in Hvoid.
    destruct (node_children node) as [|? [|? ?]]; simpl in *; [done|done|lia].
Qed.

Lemma list_sum_zip (f : tree → nat) (chs : list Child) ts :
  length ts = length chs →
  list_sum (map (λ ec, f ec.2) (zip (child_edge <$> chs) ts)) = list_sum (map f ts).
Proof.
  revert ts. induction chs as [|ch chs IH]; intros [|t ts] Hl; simpl in *; [done..|]. f_equal. apply IH. lia.
Qed.

Lemma validate_loop_sound budget stack seen n d rep :
  validate_loop s limits budget stack seen n d = Ok rep →
  ∃ ts, Forall2 walked stack ts
    ∧ report_entries rep = (n + N.of_nat (list_sum (map tcount ts)))%N
    ∧ report_nodes rep = (N.of_nat (size seen) + N.of_nat (list_sum (map tsize ts)))%N.
Proof.
  revert stack seen n d. induction budget as [|budget IH]; intros [|[[[cid base] depth] is_root] stack] seen n d; simpl.
  1,3: intros [= <-]; exists []; split; [constructor|]; simpl; split; lia.
  { intros (_ & _ & (_ & _ & [=])%bind_Ok)%bind_Ok. }
  intros (_ & _ & (_ & Hseen%fail_if_Ok%bool_decide_eq_false & (node & Hl & (p & Hp & (_ & He%fail_if_Ok & (_ & Hone%fail_if_Ok &
    (_ & Hv%fail_if_Ok & ([] & Hk & ([] & Hc & Hrest)%bind_Ok)%bind_Ok)%bind_Ok)%bind_Ok)%bind_Ok)%bind_Ok)%bind_Ok)%bind_Ok)%bind_Ok.
  apply IH in Hrest as (ts & Hw & Hn & Hsz).
  apply Forall2_app_inv_l in Hw as (ts1 & ts2 & Hw1 & Hw2 & ->).
  assert (length ts1 = length (node_children node)) as Hlen.
  { apply Forall2_length in Hw1. by rewrite length_fmap in Hw1. }
  exists (T p (node_value node) (zip (child_edge <$> node_children node) ts1) :: ts2). split_and!.
  - constructor; [|done]. by eapply walked_node.
  - rewrite Hn. simpl. rewrite tcount_T, (list_sum_zip tcount) by done. rewrite map_app, list_sum_app.
    destruct (node_value node); simpl; lia.
  - rewrite Hsz. simpl. rewrite (list_sum_zip tsize) by done. rewrite map_app, list_sum_app.
    rewrite size_union by set_solver. rewrite size_singleton. lia.
Qed.

End Validation.

End Scans.
