(* ===== verification/MerkleMap.v ===== *)
(** * A Merkle root is a finite map (crates/pepper-merkle)

    [represents s root m] says that the blocks of [s] under [root] form the
    canonical radix tree of the map [m].  The public operations are specified
    against it: reads return what the map holds, writes return a root of the
    updated map, equal maps have equal roots whatever their history. *)
From stdpp Require Import base gmap sets list strings sorting.
From Stdlib Require Import Strings.Byte.
From S2P Require Import Prelude Types Merkle MerkleTree MerkleRefinement MerkleScan.

Definition mutate (m : gmap bytes MerkleValue) (mu : Mutation) : gmap bytes MerkleValue :=
  match mu with Put key value => <[key := value]> m | Delete key => delete key m end.

Definition with_cursor (q : ScanQuery) (c : string) : ScanQuery :=
  mkQuery (q_start q) (q_end q) (q_prefix q) (q_limit q) (Some c).

(** [F] lists, in key order, the entries of [m] the query asks for. *)
Definition scan_list (m : gmap bytes MerkleValue) (query : ScanQuery) (after : option bytes)
    (F : list MapEntry) : Prop :=
  StronglySorted entry_lt F
  ∧ ∀ k v, mkEntry k v ∈ F ↔ m !! k = Some v ∧ key_matches k query after = true.

(** The conditions [scan] puts on its query. *)
Definition query_ok (limits : MerkleLimits) (q : ScanQuery) : Prop :=
  (1 ≤ q_limit q ≤ max_scan_entries limits)%N
  ∧ (∀ a z, q_start q = Some a → q_end q = Some z → bytes_lt a z)
  ∧ validate_opt_key (q_start q) limits = Ok ()
  ∧ validate_opt_key (q_end q) limits = Ok ()
  ∧ validate_opt_key (q_prefix q) limits = Ok ().

(** ** Facts on the parts *)

Lemma StronglySorted_drop {A} (R : relation A) n l : StronglySorted R l → StronglySorted R (drop n l).
Proof. rewrite <-(take_drop n l) at 1. apply StronglySorted_app_1_r. Qed.

Lemma scan_list_resume m q after F n c z :
  scan_list m q after F → last (take n F) = Some z →
  scan_list m (with_cursor q c) (Some (entry_key z)) (drop n F).
Proof.
  intros [Hs Hin] Hz. split; [by apply StronglySorted_drop|]. intros k v.
  assert (z ∈ F) as HzF.
  { apply last_Some_elem_of in Hz. rewrite <-(take_drop n F). apply elem_of_app. by left. }
  destruct z as [zk zv]. apply Hin in HzF as [_ Hzm]. simpl.
  assert (∀ en, en ∈ take n F → en = mkEntry zk zv ∨ bytes_lt (entry_key en) zk) as Hbefore.
  { intros en He. destruct (StronglySorted_last entry_lt (take n F) (mkEntry zk zv)) with (x := en) as [?|?]; auto.
    rewrite <-(take_drop n F) in Hs. by apply StronglySorted_app_1_l in Hs. }
  assert (∀ en, en ∈ drop n F → bytes_lt zk (entry_key en)) as Hafter.
  { intros en He. rewrite <-(take_drop n F) in Hs. apply (StronglySorted_app_1_elem_of _ _ _ (mkEntry zk zv) en Hs);
      [by apply last_Some_elem_of|done]. }
  assert (mkEntry k v ∈ F ↔ mkEntry k v ∈ take n F ∨ mkEntry k v ∈ drop n F) as Hsplit.
  { by rewrite <-elem_of_app, take_drop. }
  assert (key_matches k (with_cursor q c) (Some zk) = bytes_ltb zk k
            && key_matches k q None) as ->.
  { unfold key_matches. simpl. by rewrite !andb_assoc. }
  assert (key_matches k q after = is_none_or (λ a, bytes_ltb a k) after && key_matches k q None) as Hk.
  { unfold key_matches. simpl. by rewrite !andb_assoc. }
  rewrite andb_true_iff. split.
  - intros Hd. pose proof (Hafter _ Hd) as Hlt. simpl in Hlt. split; [|split; [done|]].
    + by apply (Hin k v), Hsplit; right.
    + assert (key_matches k q after = true) as Hm by (by apply (Hin k v), Hsplit; right).
      rewrite Hk in Hm. by apply andb_true_iff in Hm as [_ ?].
  - intros (Hm & Hlt & Hq). assert (mkEntry k v ∈ F) as HF.
    { apply Hin. split; [done|]. rewrite Hk, Hq, andb_true_r. destruct after as [a|]; [|done]. simpl.
      unfold key_matches in Hzm. simpl in Hzm. rewrite !andb_true_iff in Hzm. destruct Hzm as [[[Ha _] _] _].
      eapply bytes_lt_trans; [exact Ha|exact Hlt]. }
    apply Hsplit in HF as [HF|?]; [|done]. exfalso. apply Hbefore in HF as [[= -> _]|HF]; simpl in *.
    + by apply (bytes_lt_irrefl zk).
    + apply (bytes_lt_irrefl k). by eapply bytes_lt_trans.
Qed.

#[local] Arguments get_loop : simpl never.
#[local] Arguments get_cached : simpl never.
#[local] Arguments insert_at : simpl never.
#[local] Arguments delete_at : simpl never.
#[local] Arguments build_subtree : simpl never.
#[local] Arguments scan_loop : simpl never.
#[local] Arguments validate_loop : simpl never.

(** Two loads of one CID, from any stores, give the same node or a collision. *)
Lemma load_authentic `{Blake3} `{!Blake3Laws} `{Hex} `{Json Node} `{!JsonLaws Node} {S : Type} `{MerkleStore S}
    limits (s s' : S) cid node node' :
  load_node s cid limits = Ok node → load_node s' cid limits = Ok node' →
  node = node' ∨ ∃ x y, x ≠ y ∧ blake3_hash x = blake3_hash y.
Proof.
  intros (_ & _ & payload & Hp & -> & _)%load_inv (_ & _ & payload' & Hp' & Heq & _)%load_inv.
  apply (f_equal digest) in Heq. simpl in Heq. rewrite !compute_digest_hash in Heq.
  destruct (decide (digest_input CID_VERSION CODEC_MERKLE_NODE payload
                    = digest_input CID_VERSION CODEC_MERKLE_NODE payload')) as [Hin|Hne]; [left|right; eauto].
  apply digest_input_inj in Hin as (_ & _ & <-); try done.
  apply from_slice_to_vec in Hp, Hp'. congruence.
Qed.

Lemma repr_authentic `{Blake3} `{!Blake3Laws} `{Hex} `{Json Node} `{!JsonLaws Node} {S : Type} `{MerkleStore S}
    limits b (s s' : S) cid t t' :
  repr limits b s cid t → repr limits b s' cid t' →
  t = t' ∨ ∃ x y, x ≠ y ∧ blake3_hash x = blake3_hash y.
Proof.
  revert cid t'. induction t as [p v cs IH] using tree_ind'. intros cid t' Hr Hr'.
  inversion Hr as [? node ? ? Hl Hp Hb Hc]; subst. inversion Hr' as [? node' p' cs' Hl' Hp' Hb' Hc']; subst.
  destruct (load_authentic _ _ _ _ _ _ Hl Hl') as [<-|?]; [|by right].
  rewrite Hp in Hp'. injection Hp' as <-. clear -IH Hc Hc'.
  assert (cs = cs' ∨ ∃ x y, x ≠ y ∧ blake3_hash x = blake3_hash y) as [->|?]; [|by left|by right].
  revert cs' Hc'. induction Hc as [|ch [e c] chs cs [He Hc] _ IHc]; intros cs' Hc';
    inversion Hc' as [|? [e' c'] ? cs'' [He' Hce'] Hrest]; subst; [by left|].
  apply Forall_cons in IH as [IH IH']. simpl in *.
  destruct (IH _ _ Hc Hce') as [->|?]; [|by right].
  destruct (IHc IH' _ Hrest) as [->|?]; [|by right]. left. congruence.
Qed.

Section Map.
Context `{Blake3} `{Hex} `{!HexLaws} `{Json Node} `{!JsonLaws Node}.
Context `{Json CursorRecord} `{!JsonLaws CursorRecord}.
Context {S : Type} `{MerkleStore S} `{!MerkleStoreLaws S} (limits : MerkleLimits).
Context (valid : MerkleLimits_validate limits = Ok limits).
Context (deep : (max_key_bytes limits ≤ max_depth limits)%N).

Definition represents (strict : bool) (s : S) (root : Cid) (m : gmap bytes MerkleValue) : Prop :=
  ∃ t, repr limits strict s root t ∧ canon_root t
       ∧ bounded (N.to_nat (max_key_bytes limits)) t ∧ ∀ k, m !! k = tlookup t k.

Lemma empty_root_spec b s :
  ends limits s (empty_root limits) (λ root s', represents b s' root ∅).
Proof.
  unfold empty_root. eapply ends_lift; [exact valid|]. eapply ends_mono.
  { apply (store_repr limits b _ _ empty_tree). apply node_repr_new; [apply N.le_0_l|done|constructor|constructor]. }
  intros root s' _ Hr. exists empty_tree. split; [exact Hr|]. split; [by left|].
  split; [intros k w Hk; by rewrite tlookup_empty in Hk|]. intros k. by rewrite tlookup_empty.
Qed.

Lemma apply_mutation_spec b s root m mu :
  represents b s root m → (len (Mutation_key mu) ≤ max_key_bytes limits)%N →
  match mu with Put _ v => validate_value v limits = Ok () | Delete _ => True end →
  ends limits s (apply_mutation limits root mu) (λ root' s', represents b s' root' (mutate m mu)).
Proof.
  intros (t & Hr & Hc & Hb & Hm) Hlen Hv. destruct mu as [key v|key]; cbn [Mutation_key apply_mutation mutate] in *.
  - eapply ends_mono.
    { apply (insert_at_spec limits b key v _ s root 0 t); try done; [lia|].
      by apply enough_root. }
    intros root' s' _ (t' & Hr' & Hcan & Hlk & _). exists t'. rewrite drop_0 in Hlk.
    split; [done|]. split; [by right|]. split.
    + eapply bounded_inserted; [done| |done]. by apply len_bound.
    + intros k. rewrite Hlk. destruct (decide (k = key)) as [->|Hne]; [by rewrite lookup_insert_eq|].
      by rewrite lookup_insert_ne.
  - eapply ends_bind.
    { apply (delete_at_spec limits b key _ s root 0 t); try done; [lia|]. by apply enough_root. }
    intros [root'|] s1 _ Hpost.
    + destruct Hpost as (t' & Hr' & Hcan & _ & Hd & _). rewrite drop_0 in Hd. apply ends_ret.
      exists t'. split; [done|]. split; [done|]. split.
      * intros k w Hk. rewrite Hd in Hk. destruct (decide _); [done|by eapply Hb].
      * intros k. rewrite Hd. destruct (decide (k = key)) as [->|Hne]; [by rewrite lookup_delete_eq|].
        by rewrite lookup_delete_ne.
    + simpl in Hpost. rewrite drop_0 in Hpost. eapply ends_mono; [apply (empty_root_spec b)|].
      intros root' s' _ Hrep. assert (delete key m = ∅) as ->; [|exact Hrep].
      apply map_eq. intros k. rewrite lookup_empty. destruct (decide (k = key)) as [->|Hne].
      * by rewrite lookup_delete_eq.
      * rewrite lookup_delete_ne by done. rewrite Hm. by apply Hpost.
Qed.

Lemma check_mutations_Forall prev ms last :
  try_foldl (check_mutation limits) prev ms = Ok last →
  Forall (λ mu, (len (Mutation_key mu) ≤ max_key_bytes limits)%N
                ∧ match mu with Put _ v => validate_value v limits = Ok () | Delete _ => True end) ms.
Proof.
  revert prev. induction ms as [|mu ms IH]; intros prev; simpl; [constructor|].
  intros (next & ([] & Hk%fail_if_Ok%N.ltb_ge & ([] & Hv & _)%bind_Ok)%bind_Ok & Hrest)%bind_Ok.
  constructor; [|by eapply IH]. split; [done|]. by destruct mu.
Qed.

Lemma apply_mutations_spec b s root m ms :
  represents b s root m →
  Forall (λ mu, (len (Mutation_key mu) ≤ max_key_bytes limits)%N
                ∧ match mu with Put _ v => validate_value v limits = Ok () | Delete _ => True end) ms →
  ends limits s (apply_mutations limits root ms) (λ root' s', represents b s' root' (foldl mutate m ms)).
Proof.
  revert s root m. induction ms as [|mu ms IH]; intros s root m Hrep Hall; simpl; [by apply ends_ret|].
  apply Forall_cons in Hall as [[Hl Hv] Hall].
  eapply ends_bind; [by apply apply_mutation_spec|]. intros root' s1 _ Hrep'. by apply IH.
Qed.

Lemma represents_size (m : gmap bytes MerkleValue) t :
  canon_root t → (∀ k, m !! k = tlookup t k) →
  size m = length (entries_of [] t) ∧ ∀ k v, (k, v) ∈ entries_of [] t ↔ m !! k = Some v.
Proof.
  intros Hc Hm. assert (m = contents t) as ->.
  { apply map_eq. intros k. by rewrite Hm, contents_lookup. }
  split; [by apply contents_size|]. intros k v. by rewrite contents_lookup, entries_lookup.
Qed.

(** ** The operations *)

Lemma get_spec b s root m key :
  represents b s root m → (len key ≤ max_key_bytes limits)%N →
  get s root key limits = Ok (m !! key).
Proof.
  intros (t & Hr & Hc & _ & Hm) Hlen. unfold get. rewrite valid. simpl.
  unfold validate_key. rewrite (proj2 (N.ltb_ge (max_key_bytes limits) (len key)) Hlen). simpl.
  rewrite (get_loop_spec limits b s key _ root 0 t Hr); [|by apply canon_root_wf|lia|by apply enough_root].
  by rewrite drop_0, Hm.
Qed.

(** C3: under a root of [m], a read returns exactly what [m] holds at the key. *)
Theorem get_correct b s root m key :
  represents b s root m → (len key ≤ max_key_bytes limits)%N →
  get s root key limits = Ok (m !! key).
Proof. exact (get_spec b s root m key). Qed.

(** The reads one after another. *)
Definition single_reads (s : S) (root : Cid) (keys : list bytes)
  : result MerkleError (list (option MerkleValue)) :=
  mapM (λ key, get s root key limits) keys.

(** The bulk read with its node cache agrees with the single reads, key by key
    and error by error, on any store. *)
Theorem get_many_correct s root keys :
  (len keys ≤ max_scan_entries limits)%N →
  Forall (λ key, validate_key key limits = Ok ()) keys →
  (r ← get_many s root keys limits; Ok (bulk_values r)) = single_reads s root keys.
Proof.
  intros Hlen Hkeys. unfold single_reads, get_many. rewrite valid. simpl.
  rewrite (proj2 (N.ltb_ge (max_scan_entries limits) (len keys)) Hlen). simpl.
  assert (try_foldl (λ _ key, validate_key key limits) () keys = Ok ()) as ->.
  { induction Hkeys as [|key keys Hk _ IH]; [done|]. simpl. rewrite Hk. apply IH.
    rewrite len_cons in Hlen. lia. }
  simpl.
  assert (∀ cache, cache_ok limits s cache →
    (get_each s limits root keys cache).1 = mapM (λ key, get s root key limits) keys) as Hall.
  { clear Hlen. induction Hkeys as [|key keys Hk _ IH]; intros cache Hok; [done|].
    simpl. unfold mbind at 1, stm_bind at 1.
    destruct (get_cached_spec limits s key (all_levels limits) root 0 cache Hok) as (cache' & -> & Hok').
    assert (get s root key limits = get_loop s limits key (all_levels limits) root 0) as ->.
    { unfold get. rewrite valid. simpl. by rewrite Hk. }
    destruct (get_loop s limits key (all_levels limits) root 0) as [v|e]; [|done]. simpl.
    rewrite <-(IH cache' Hok'). unfold mbind, stm_bind.
    by destruct (get_each s limits root keys cache') as [[vs|e] cache'']. }
  specialize (Hall ∅). rewrite <-Hall by by intros ? ?.
  by destruct (get_each s limits root keys ∅) as [[vs|e] cache].
Qed.

Lemma apply_batch_spec b s root m ms :
  represents b s root m → validate_mutations ms limits = Ok () →
  ends limits s (apply_batch root ms limits) (λ root' s', represents b s' root' (foldl mutate m ms)).
Proof.
  intros Hrep Hms. pose proof Hrep as (t & Hr & _). unfold apply_batch.
  eapply ends_lift; [exact valid|]. eapply ends_lift; [exact Hms|].
  destruct (repr_load _ _ _ _ _ Hr) as (node & Hl & _). apply (ends_load _ _ _ _ _ _ Hl).
  apply bind_Ok in Hms as (last & Hms & _). apply apply_mutations_spec; [done|].
  by eapply check_mutations_Forall.
Qed.

(** C1: a batch applied to a root of [m] keeps every stored block and either
    returns a root of [m] with the mutations applied in order, or is refused by
    the store or a size limit. *)
Theorem apply_batch_correct b s root m ms :
  represents b s root m → validate_mutations ms limits = Ok () →
  ends limits s (apply_batch root ms limits) (λ root' s', represents b s' root' (foldl mutate m ms)).
Proof. exact (apply_batch_spec b s root m ms). Qed.

Lemma check_entries_Forall prev es last :
  try_foldl (check_sorted_entry limits) prev es = Ok last →
  Forall (entry_valid limits) es ∧ StronglySorted entry_lt es
  ∧ Forall (λ en, is_none_or (λ p, bytes_ltb p (entry_key en)) prev = true) es.
Proof.
  revert prev. induction es as [|en es IH]; intros prev; [repeat constructor|].
  intros (next & ([] & Hk%fail_if_Ok%N.ltb_ge & ([] & Hv & (_ & Hp%fail_if_Ok & [= <-])%bind_Ok)%bind_Ok)%bind_Ok & Hrest)%bind_Ok.
  apply IH in Hrest as (Hval & Hs & Hlt). split; [by constructor|].
  split; [by constructor|]. constructor; simpl in *.
  - destruct prev as [p|]; [|done]. simpl in *. unfold bytes_leb in Hp. by apply negb_false_iff in Hp.
  - eapply Forall_impl; [exact Hlt|]. intros en' Hlt'. destruct prev as [p|]; [|done]. simpl in *.
    unfold bytes_leb in Hp. apply negb_false_iff in Hp. by eapply bytes_lt_trans.
Qed.

(** Building from validated sorted entries returns a root of exactly those
    entries, or is refused by the store or a size limit. *)
Theorem build_from_sorted_correct s es last :
  try_foldl (check_sorted_entry limits) None es = Ok last →
  ends limits s (build_from_sorted es limits)
    (λ root s', represents true s' root (list_to_map ((λ en, (entry_key en, entry_value en)) <$> es))).
Proof.
  intros Hes. unfold build_from_sorted. eapply ends_lift; [exact valid|]. eapply ends_lift; [exact Hes|].
  apply check_entries_Forall in Hes as (Hval & Hs & _).
  destruct es as [|en es]; [by apply empty_root_spec|].
  set (l := en :: es) in *. eapply ends_mono.
  { apply (build_subtree_spec limits (all_levels limits) [] l s); [done|done| |].
    - apply Forall_forall. intros e _. by exists (entry_key e).
    - split; [unfold all_levels; lia|].
      assert (Forall (λ e, length (entry_key e) < all_levels limits) l) as Hlt.
      { eapply Forall_impl; [exact Hval|]. intros e [_ Hl]. unfold all_levels, len in *. lia. }
      split; [|by right]. split; [done|]. eapply Forall_impl; [exact Hlt|]. simpl. lia. }
  intros root s' _ (t & Hr & Hcan & _ & Hh).
  assert (NoDup ((λ en, (entry_key en, entry_value en)) <$> l).*1) as Hnd.
  { rewrite <-list_fmap_compose. clear -Hs. induction Hs as [|x l Hs IH Hlt]; simpl; constructor; [|done].
    intros (y & Heq & Hin)%list_elem_of_fmap. rewrite Forall_forall in Hlt. specialize (Hlt _ Hin).
    unfold entry_lt in Hlt. simpl in Heq. rewrite Heq in Hlt. by apply bytes_lt_irrefl in Hlt. }
  assert (∀ k w, mkEntry k w ∈ l ↔ (k, w) ∈ (λ en, (entry_key en, entry_value en)) <$> l) as Hin.
  { intros k w. rewrite list_elem_of_fmap. split; [intros ?; by exists (mkEntry k w)|].
    intros ([k' w'] & [= -> ->] & ?). done. }
  exists t. split; [done|]. split; [by right|]. split.
  - intros k w Hk. apply Hh in Hk. rewrite Forall_forall in Hval. apply Hval in Hk as [_ Hk].
    simpl in Hk. unfold len in Hk. lia.
  - intros k. destruct (tlookup t k) as [w|] eqn:Hk.
    + apply elem_of_list_to_map; [done|]. apply Hin. by apply Hh in Hk.
    + apply not_elem_of_list_to_map. intros ([k' w] & -> & Hkw)%list_elem_of_fmap.
      apply Hin in Hkw. apply (Hh k' w) in Hkw. simpl in Hk. congruence.
Qed.

(** C2: two roots in a store are equal exactly when their maps are: the root
    does not depend on the history of writes, and determines the contents. *)
Theorem root_iff_map s root root' m m' :
  represents true s root m → represents true s root' m' → root = root' ↔ m = m'.
Proof.
  intros (t & Hr & Hc & _ & Hm) (t' & Hr' & Hc' & _ & Hm'). split.
  - intros <-. rewrite (repr_fun _ _ _ _ _ _ Hr Hr') in Hm. apply map_eq. intros k. by rewrite Hm, Hm'.
  - intros <-. assert (t = t') as <-; [|by eapply repr_root].
    apply canon_root_ext; [done|done|]. intros k. by rewrite <-Hm, <-Hm'.
Qed.

(** The cursor a page carries is accepted for the same query and resumes after
    the last entry of the page. *)
Lemma cursor_resumes root q z payload :
  to_vec (mkCursor CURSOR_VERSION root (hex_encode z)
            (encode_optional (q_start q)) (encode_optional (q_end q)) (encode_optional (q_prefix q))) = Ok payload →
  cursor_after root (with_cursor q (hex_encode payload)) = Ok (Some z).
Proof.
  intros Hp. unfold cursor_after, decode_cursor. simpl. rewrite hex_decode_encode. simpl.
  rewrite (from_slice_to_vec _ _ Hp). simpl. rewrite Hp. simpl.
  rewrite (bool_decide_true (payload = payload)) by done. simpl.
  rewrite (bool_decide_true (root = root)) by done. simpl.
  rewrite !bool_decide_true by done. simpl. by rewrite hex_decode_encode.
Qed.

Lemma filter_entries_sorted (P : bytes * MerkleValue → Prop) `{∀ x, Decision (P x)} l :
  StronglySorted key_lt l → StronglySorted entry_lt (to_entry <$> filter P l).
Proof.
  induction 1 as [|x l Hs IH Hlt]; [constructor|]. rewrite filter_cons. destruct (decide (P x)); [|done].
  simpl. constructor; [done|]. apply Forall_forall. intros y (kv & -> & Hin)%list_elem_of_fmap.
  apply list_elem_of_filter in Hin as [_ Hin]. rewrite Forall_forall in Hlt. by apply Hlt.
Qed.

Lemma filter_entries_elem q after (l : list (bytes * MerkleValue)) k v :
  mkEntry k v ∈ to_entry <$> filter (matching q after) l ↔ (k, v) ∈ l ∧ key_matches k q after = true.
Proof.
  rewrite list_elem_of_fmap. split.
  - intros ([k' v'] & [= -> ->] & Hin). apply list_elem_of_filter in Hin as [Hm Hin]. done.
  - intros [Hin Hm]. exists (k, v). split; [done|]. by apply list_elem_of_filter.
Qed.

Lemma scan_loop_root b s root m q after :
  represents b s root m → query_ok limits q → (2 * N.of_nat (size m) ≤ max_scan_nodes limits)%N →
  ∃ F n, scan_loop s limits q after (N.to_nat (max_scan_nodes limits)) [(root, [], 0%N)] [] 0
         = Ok (take (N.to_nat (q_limit q) + 1) F, n) ∧ scan_list m q after F.
Proof.
  intros (t & Hr & Hc & Hb & Hm) Hq Hsize.
  destruct (represents_size m t Hc Hm) as [Hsz Hin].
  assert (max_scan_nodes limits ≠ 0)%N as Hnz.
  { clear -valid. unfold MerkleLimits_validate in valid. apply bind_Ok in valid as (_ & Hv%fail_if_Ok & _).
    rewrite !orb_false_iff in Hv. destruct Hv as [_ Hv]. by apply N.eqb_neq. }
  destruct (scan_loop_spec limits deep b s q after (N.to_nat (max_scan_nodes limits)) [(root, [], 0%N, t)] [] 0)
    as (n & Hscan & _).
  - constructor; [|constructor]. split; [done|]. split; [done|]. split; [|by left].
    intros k w Hk. apply Hb in Hk. unfold len. simpl. lia.
  - by apply N.le_0_l.
  - unfold work. simpl. destruct Hc as [->|Hc]; [simpl; lia|].
    pose proof (tsize_entries [] t Hc). lia.
  - exists (to_entry <$> filter (matching q after) (todo [(root, [], 0%N, t)])), n.
    split; [exact Hscan|]. unfold todo. simpl. rewrite app_nil_r. split.
    + apply filter_entries_sorted. destruct Hc as [->|Hc]; [constructor|by apply entries_sorted].
    + intros k v. rewrite filter_entries_elem. by rewrite Hin.
Qed.

Lemma scan_spec b s root m q after :
  represents b s root m → query_ok limits q → cursor_after root q = Ok after →
  (2 * N.of_nat (size m) ≤ max_scan_nodes limits)%N →
  (∀ c : CursorRecord, is_Ok (to_vec c) = true) →
  ∃ page F, scan s root q limits = Ok page ∧ scan_list m q after F
    ∧ page_root page = root ∧ page_entries page = take (N.to_nat (q_limit q)) F
    ∧ (next_cursor page = None ↔ (len F ≤ q_limit q)%N)
    ∧ ∀ c, next_cursor page = Some c →
        ∃ after', cursor_after root (with_cursor q c) = Ok after'
                  ∧ scan_list m (with_cursor q c) after' (drop (N.to_nat (q_limit q)) F).
Proof.
  intros Hrep Hq Hcur Hsize Hser. destruct (scan_loop_root b s root m q after Hrep Hq Hsize) as (F & n & Hscan & HF).
  destruct Hq as ((Hlo & Hhi) & Hrange & Hstart & Hend & Hprefix). unfold scan. rewrite valid. simpl.
  rewrite (proj2 (N.eqb_neq _ _)), (proj2 (N.ltb_ge (max_scan_entries limits) (q_limit q))) by lia. simpl.
  assert (match q_start q, q_end q with Some a, Some z => bytes_leb z a | _, _ => false end = false) as ->.
  { destruct (q_start q) as [a|], (q_end q) as [z|]; try done. specialize (Hrange _ _ eq_refl eq_refl).
    unfold bytes_leb. unfold bytes_lt in Hrange. by rewrite Hrange. }
  simpl. rewrite Hstart, Hend, Hprefix. simpl. rewrite Hcur. simpl. rewrite Hscan. simpl.
  set (lim := N.to_nat (q_limit q)) in *.
  destruct (N.ltb_spec (q_limit q) (len (take (lim + 1) F))) as [Hmore|Hall].
  - assert (lim < length F) as Hlt by (unfold len in Hmore; rewrite length_take in Hmore; lia).
    rewrite take_take, Nat.min_l by lia.
    destruct (last (take lim F)) as [z|] eqn:Hz.
    2:{ apply last_None in Hz. apply (f_equal length) in Hz. rewrite length_take in Hz. simpl in Hz. lia. }
    unfold encode_cursor.
    set (cur := mkCursor _ _ _ _ _ _). specialize (Hser cur). destruct (to_vec cur) as [payload|] eqn:Hp; [|done].
    simpl. eexists _, F. split; [done|]. split; [done|]. split; [done|]. split; [done|]. simpl. split.
    + split; [done|]. unfold len. lia.
    + intros c [= <-]. exists (Some (entry_key z)). split; [by apply cursor_resumes|].
      by eapply scan_list_resume.
  - assert (length F ≤ lim) as Hle.
    { unfold len in Hall. rewrite length_take in Hall. lia. }
    simpl. eexists _, F. split; [done|]. split; [done|]. split; [done|]. split; [|split; [|done]].
    + simpl. by rewrite !take_ge by lia.
    + simpl. split; [|done]. intros _. unfold len. lia.
Qed.

(** C30: a scan of a root of [m] returns the first entries, in key order, of the
    ones the query and cursor ask for; it says there are more exactly when there
    are, and the cursor it returns resumes with the rest. *)
Theorem scan_correct b s root m q after :
  represents b s root m → query_ok limits q → cursor_after root q = Ok after →
  (2 * N.of_nat (size m) ≤ max_scan_nodes limits)%N →
  (∀ c : CursorRecord, is_Ok (to_vec c) = true) →
  ∃ page F, scan s root q limits = Ok page ∧ scan_list m q after F
    ∧ page_root page = root ∧ page_entries page = take (N.to_nat (q_limit q)) F
    ∧ (next_cursor page = None ↔ (len F ≤ q_limit q)%N)
    ∧ ∀ c, next_cursor page = Some c →
        ∃ after', cursor_after root (with_cursor q c) = Ok after'
                  ∧ scan_list m (with_cursor q c) after' (drop (N.to_nat (q_limit q)) F).
Proof. exact (scan_spec b s root m q after). Qed.

(** A tree that passes validation is, up to the spelling of its prefixes, the
    canonical tree of some map and the report counts its entries and nodes; the
    one other shape that passes is an empty root with a left-over prefix. *)
Theorem validate_tree_sound s root rep :
  validate_tree s root limits = Ok rep →
  (∃ m, represents false s root m ∧ report_entries rep = N.of_nat (size m))
  ∨ (∃ p, repr limits false s root (T p None []) ∧ p ≠ [] ∧ report_entries rep = 0%N).
Proof.
  unfold validate_tree. rewrite valid. simpl. intros (ts & Hw & Hn & _)%(validate_loop_sound limits deep).
  inversion Hw as [|? t ? ts' Hwt Hnil]; subst. inversion Hnil; subst. destruct Hwt as (Hr & Hb & Hpre & Hone & _).
  simpl in Hn. rewrite Nat.add_0_r in Hn. destruct t as [p v cs]. simpl in *.
  destruct (decide (v = None ∧ cs = [] ∧ p ≠ [])) as [(-> & -> & Hp)|Hne].
  { right. exists p. done. }
  left. assert (canon_root (T p v cs)) as Hc.
  { destruct (decide (v = None ∧ cs = [])) as [[-> ->]|Hne'].
    - left. destruct (decide (p = [])) as [->|]; [done|]. destruct Hne. done.
    - right. apply canon_T. split; [|done]. intros ->. specialize (Hone eq_refl).
      destruct cs as [|? [|? ?]]; simpl in *; [by destruct Hne'|done|lia]. }
  exists (contents (T p v cs)). split; [|by rewrite contents_size].
  exists (T p v cs). split; [done|]. split; [done|]. split; [|intros k; by apply contents_lookup].
  intros k w Hk. specialize (Hb _ _ Hk). unfold len in Hb. lia.
Qed.

(** C31: across two stores, neither of which need be trusted, one root shows one
    map: otherwise two inputs with the same hash are at hand. *)
Theorem root_authenticates `{!Blake3Laws} b s s' root m m' :
  represents b s root m → represents b s' root m' →
  m = m' ∨ ∃ x y, x ≠ y ∧ blake3_hash x = blake3_hash y.
Proof.
  intros (t & Hr & _ & _ & Hm) (t' & Hr' & _ & _ & Hm').
  destruct (repr_authentic limits b s s' root t t' Hr Hr') as [->|?]; [left|by right].
  apply map_eq. intros k. by rewrite Hm, Hm'.
Qed.

End Map.
