(* ===== verification/MerkleExamples.v ===== *)
(** * The Merkle map at work (crates/pepper-merkle)

    The operations run with the reference instances on concrete maps: the
    theorems of [MerkleMap] applied to them, and two shapes on which validation
    and canonical form disagree. *)
From stdpp Require Import base gmap sets list strings sorting.
From Stdlib Require Import Strings.Byte.
From S2P Require Import Prelude Types Merkle Reference MerkleTree MerkleRefinement MerkleScan MerkleMap.

#[local] Existing Instances ref_blake3 ref_hex ref_blake3_laws ref_hex_laws ref_store ref_store_laws.
#[local] Instance node_json : Json Node := ref_json.
#[local] Instance cursor_json : Json CursorRecord := ref_json.
#[local] Instance node_json_laws : JsonLaws Node := ref_json_laws.
#[local] Instance cursor_json_laws : JsonLaws CursorRecord := ref_json_laws.

(** ** Sample maps *)

Definition small : MerkleLimits := mkLimits 8 64 4 64 100000 256 8 50 50 50.

Definition val (g : N) : MerkleValue := mkValue sample_cid g "object" {["owner" := "ops"]}.

Definition outcome {E A} (x : result E A * gmap Cid bytes) (d : A) : A := match x.1 with Ok a => a | Err _ => d end.

Definition built (ms : list Mutation) : Cid * gmap Cid bytes :=
  let x := @empty_root _ _ node_json _ ref_store small ∅ in
  let root := outcome x sample_cid in
  let y := @apply_batch _ _ node_json _ ref_store root ms small x.2 in
  (outcome y sample_cid, y.2).

Definition key (s : string) : bytes := as_bytes s.

Definition puts : list Mutation := [Put (key "car") (val 1); Put (key "cart") (val 2); Put (key "dog") (val 3)].

Definition sample_root : Cid := (built puts).1.
Definition sample_store : gmap Cid bytes := (built puts).2.
Definition sample_map : gmap bytes MerkleValue := foldl mutate ∅ puts.

Lemma small_valid : MerkleLimits_validate small = Ok small.
Proof. reflexivity. Qed.

Lemma small_deep : (max_key_bytes small ≤ max_depth small)%N.
Proof. vm_compute. discriminate. Qed.

Lemma ends_Ok {A} limits (s : gmap Cid bytes) (m : stm (gmap Cid bytes) MerkleError A) Q a s' :
  ends limits s m Q → m s = (Ok a, s') → Q a s'.
Proof. intros (r & s1 & Hm & _ & Hr) Heq. rewrite Hm in Heq. injection Heq as -> ->. exact Hr. Qed.

Lemma built_represents ms root s :
  built ms = (root, s) → validate_mutations ms small = Ok () →
  is_Ok (@empty_root _ _ node_json _ ref_store small ∅).1 = true →
  is_Ok (@apply_batch _ _ node_json _ ref_store
           (outcome (@empty_root _ _ node_json _ ref_store small ∅) sample_cid) ms small
           (@empty_root _ _ node_json _ ref_store small ∅).2).1 = true →
  represents small true s root (foldl mutate ∅ ms).
Proof.
  intros Hb Hms H0 H1. unfold built in Hb.
  destruct (@empty_root _ _ node_json _ ref_store small ∅) as [[r0|] s0] eqn:He; [|done]. simpl in *.
  unfold outcome in *. simpl in *.
  destruct (@apply_batch _ _ node_json _ ref_store r0 ms small s0) as [[r1|] s1] eqn:Ha; [|done]. simpl in *.
  injection Hb as <- <-. unfold apply_batch in Ha.
  pose proof (ends_Ok _ _ _ _ _ _ (empty_root_spec small small_valid true ∅) He) as Hrep.
  apply stm_bind_Ok in Ha as (l & s' & [Hl <-]%lift_inv & Ha). rewrite small_valid in Hl. injection Hl as <-.
  apply stm_bind_Ok in Ha as (u & s' & [_ <-]%lift_inv & Ha).
  apply stm_bind_Ok in Ha as (n & s' & [_ <-]%reads_inv & Ha).
  apply bind_Ok in Hms as (last & Hms & _). apply check_mutations_Forall in Hms.
  exact (ends_Ok _ _ _ _ _ _ (apply_mutations_spec small small_valid small_deep true s0 r0 ∅ ms Hrep Hms) Ha).
Qed.

Lemma sample_represents : represents small true sample_store sample_root sample_map.
Proof.
  refine (built_represents puts sample_root sample_store _ _ _ _).
  - exact (surjective_pairing (built puts)).
  - reflexivity.
  - vm_compute. reflexivity.
  - vm_compute. reflexivity.
Qed.

(** ** The theorems of [MerkleMap] on the samples *)

Lemma get_correct_witness :
  @get _ _ node_json _ ref_store sample_store sample_root (key "cart") small = Ok (Some (val 2)).
Proof.
  rewrite (get_correct small small_valid small_deep true sample_store sample_root sample_map (key "cart")
             sample_represents); [reflexivity|vm_compute; discriminate].
Defined.

Lemma get_many_correct_witness :
  (r ← @get_many _ _ node_json _ ref_store sample_store sample_root [key "dog"; key "cat"] small; Ok (bulk_values r))
  = @single_reads _ _ node_json _ ref_store small sample_store sample_root [key "dog"; key "cat"].
Proof.
  apply (get_many_correct small small_valid small_deep sample_store sample_root [key "dog"; key "cat"]);
    [vm_compute; discriminate|repeat constructor].
Defined.

Definition edits : list Mutation := [Delete (key "car"); Put (key "do") (val 4)].

Lemma apply_batch_correct_witness :
  ends small sample_store (@apply_batch _ _ node_json _ ref_store sample_root edits small)
    (λ root' s', represents small true s' root' (foldl mutate sample_map edits)).
Proof.
  exact (apply_batch_correct small small_valid small_deep true sample_store sample_root sample_map edits
           sample_represents eq_refl).
Defined.

Definition sorted_entries : list MapEntry :=
  [mkEntry (key "car") (val 1); mkEntry (key "cart") (val 2); mkEntry (key "dog") (val 3)].

Lemma build_from_sorted_correct_witness :
  ends small (∅ : gmap Cid bytes) (@build_from_sorted _ _ node_json _ ref_store sorted_entries small)
    (λ root s', represents small true s' root
                  (list_to_map ((λ en, (entry_key en, entry_value en)) <$> sorted_entries))).
Proof.
  exact (build_from_sorted_correct small small_valid small_deep ∅ sorted_entries (Some (key "dog")) eq_refl).
Defined.

(** The same map by another history: a key is written and deleted again. *)
Definition detour : list Mutation := [Put (key "cab") (val 9); Delete (key "cab")].
Definition detour_end := @apply_mutations _ _ node_json _ ref_store small sample_root detour sample_store.
Definition detour_root : Cid := outcome detour_end sample_cid.

Lemma detour_represents : represents small true detour_end.2 detour_root (foldl mutate sample_map detour).
Proof.
  assert (is_Ok detour_end.1 = true) as Hok by (vm_compute; reflexivity).
  assert (detour_end = (Ok detour_root, detour_end.2)) as Heq.
  { unfold detour_root, outcome. by destruct detour_end as [[r|] s]. }
  refine (ends_Ok small sample_store _ _ _ _ (apply_mutations_spec small small_valid small_deep true
            sample_store sample_root sample_map detour sample_represents _) Heq).
  repeat constructor; vm_compute; discriminate.
Qed.

Lemma sample_kept : represents small true detour_end.2 sample_root sample_map.
Proof.
  destruct sample_represents as (t & Hr & Hc & Hb & Hm). exists t. split; [|done].
  eapply repr_keeps; [|exact Hr].
  assert (ends small sample_store (@apply_mutations _ _ node_json _ ref_store small sample_root detour) (λ _ _, True))
    as (r & s' & Heq & Hk & _).
  { eapply ends_mono; [|done]. eapply (apply_mutations_spec small small_valid small_deep true); [exact sample_represents|].
    repeat constructor; vm_compute; discriminate. }
  unfold detour_end. by rewrite Heq.
Qed.

Lemma detour_map : foldl mutate sample_map detour = sample_map.
Proof. apply delete_insert_id. vm_compute. reflexivity. Qed.

Lemma root_iff_map_witness :
  foldl mutate sample_map detour = sample_map ∧ detour_root = sample_root.
Proof.
  split; [exact detour_map|].
  exact (proj2 (root_iff_map small detour_end.2 detour_root sample_root _ _ detour_represents sample_kept)
           detour_map).
Defined.

Lemma root_authenticates_witness :
  sample_map = sample_map ∨ ∃ x y : bytes, x ≠ y ∧ blake3_hash x = blake3_hash y.
Proof.
  exact (root_authenticates small true sample_store sample_store sample_root sample_map sample_map
           sample_represents sample_represents).
Defined.

Definition first_two : ScanQuery := mkQuery (Some (key "c")) None None 2 None.

Lemma scan_correct_witness :
  ∃ page F, @scan _ _ node_json cursor_json _ ref_store sample_store sample_root first_two small = Ok page
    ∧ scan_list sample_map first_two None F ∧ page_entries page = take 2 F.
Proof.
  destruct (scan_correct small small_valid small_deep true sample_store sample_root sample_map first_two None)
    as (page & F & Hs & HF & _ & He & _).
  - exact sample_represents.
  - split; [split; vm_compute; discriminate|]. split; [done|]. repeat split; reflexivity.
  - reflexivity.
  - vm_compute. discriminate.
  - reflexivity.
  - exists page, F. split; [exact Hs|]. split; [exact HF|exact He].
Defined.

Lemma sample_validates :
  @validate_tree _ _ node_json _ ref_store sample_store sample_root small = Ok (mkReport 4 3 2).
Proof. vm_compute. reflexivity. Qed.

Lemma validate_tree_sound_witness :
  (∃ m, represents small false sample_store sample_root m ∧ 3%N = N.of_nat (size m))
  ∨ (∃ p, @repr _ _ node_json _ ref_store small false sample_store sample_root (T p None [])
          ∧ p ≠ [] ∧ 3%N = 0%N).
Proof.
  exact (validate_tree_sound small small_valid small_deep sample_store sample_root (mkReport 4 3 2) sample_validates).
Defined.

(** ** Where validation and canonical form disagree *)

(** Four keys in two groups with the same tails and values: the leaves of the two
    groups are the same blocks. *)
Definition shared : list Mutation :=
  [Put (key "ax") (val 1); Put (key "ay") (val 2); Put (key "bx") (val 1); Put (key "by") (val 2)].

Definition is_duplicate (r : result MerkleError ValidationReport) : bool :=
  match r with Err (DuplicateNode _) => true | _ => false end.

(** Validation rejects a legitimate map.  The crate itself writes a map in
    which two groups of keys share their tails and values; subtrees hold no
    absolute keys, so both groups point to the same leaf blocks, and
    [validate_tree] reports the second visit as a cycle or duplicate. *)
Theorem validate_rejects_shared_leaves :
  represents small true (built shared).2 (built shared).1 (foldl mutate ∅ shared)
  ∧ is_duplicate (@validate_tree _ _ node_json _ ref_store (built shared).2 (built shared).1 small) = true.
Proof.
  split; [|vm_compute; reflexivity].
  refine (built_represents shared (built shared).1 (built shared).2 _ _ _ _).
  - exact (surjective_pairing (built shared)).
  - reflexivity.
  - vm_compute. reflexivity.
  - vm_compute. reflexivity.
Qed.

(** A root without value and children whose prefix is not empty, put into the
    store as the crate would. *)
Definition stray_node : Node := Node_new (key "abc") None [].
Definition stray := @store_node _ _ node_json _ ref_store stray_node small ∅.
Definition stray_root : Cid := outcome stray sample_cid.

Definition upper_node : Node := mkNode NODE_TYPE NODE_VERSION "6B" (Some (val 1)) [].
Definition upper := @store_node _ _ node_json _ ref_store upper_node small ∅.
Definition upper_root : Cid := outcome upper sample_cid.
Definition lower := @store_node _ _ node_json _ ref_store (Node_new (key "k") (Some (val 1)) []) small ∅.
Definition lower_root : Cid := outcome lower sample_cid.

(** Validation accepts two forms that are not canonical: an empty root that
    keeps a prefix, and a prefix spelled with upper-case hexadecimal digits.  The
    second has a root of its own for the map of a canonical tree. *)
Theorem validate_accepts_noncanonical :
  @validate_tree _ _ node_json _ ref_store stray.2 stray_root small = Ok (mkReport 1 0 0)
  ∧ stray_root ≠ outcome (@empty_root _ _ node_json _ ref_store small ∅) sample_cid
  ∧ @validate_tree _ _ node_json _ ref_store upper.2 upper_root small = Ok (mkReport 1 1 0)
  ∧ @get _ _ node_json _ ref_store upper.2 upper_root (key "k") small = Ok (Some (val 1))
  ∧ @get _ _ node_json _ ref_store lower.2 lower_root (key "k") small = Ok (Some (val 1))
  ∧ upper_root ≠ lower_root.
Proof.
  split; [vm_compute; reflexivity|]. split; [vm_compute; discriminate|]. split; [vm_compute; reflexivity|].
  split; [vm_compute; reflexivity|]. split; [vm_compute; reflexivity|]. vm_compute. discriminate.
Qed.
