(* ===== verification/MerkleInterface.v ===== *)
(** * What the Merkle map promises to its clients

    [OrderedMap] is the contract the namespace layer is verified against: a root
    holds a finite map, reads return what it holds, a batch yields a root of the
    updated map and never disturbs another one.  The Merkle crate discharges it. *)
From stdpp Require Import base gmap sets list strings sorting.
From Stdlib Require Import Strings.Byte.
From S2P Require Import Prelude Types Merkle MerkleTree MerkleRefinement MerkleScan MerkleMap.

Class OrderedMap `{Blake3} `{Hex} `{Json Node} `{Json CursorRecord} (S : Type) `{MerkleStore S}
    (limits : MerkleLimits) := {
  holds : S → Cid → gmap bytes MerkleValue → Prop;
  holds_keeps s s' root m : keeps s s' → holds s root m → holds s' root m;
  holds_cid s root m : holds s root m → ∃ payload, root = Cid_new CODEC_MERKLE_NODE payload;
  holds_fun s root m m' : holds s root m → holds s root m' → m = m';
  holds_bound s root m k v : holds s root m → m !! k = Some v → (len k ≤ max_key_bytes limits)%N;
  holds_value s root m k v : holds s root m → m !! k = Some v → validate_value v limits = Ok ();
  holds_empty s : ends limits s (empty_root limits) (λ root s', holds s' root ∅);
  holds_get s root m key :
    holds s root m → (len key ≤ max_key_bytes limits)%N → get s root key limits = Ok (m !! key);
  holds_batch s root m ms :
    holds s root m → validate_mutations ms limits = Ok () →
    ends limits s (apply_batch root ms limits) (λ root' s', holds s' root' (foldl mutate m ms));
  holds_batch_invalid s root ms e :
    validate_mutations ms limits = Err e → apply_batch root ms limits s = (Err e, s);
  holds_scan s root m q after :
    holds s root m → query_ok limits q → cursor_after root q = Ok after →
    (2 * N.of_nat (size m) ≤ max_scan_nodes limits)%N → (∀ c : CursorRecord, is_Ok (to_vec c) = true) →
    ∃ page F, scan s root q limits = Ok page ∧ scan_list m q after F
      ∧ page_root page = root ∧ page_entries page = take (N.to_nat (q_limit q)) F
      ∧ (next_cursor page = None ↔ (len F ≤ q_limit q)%N)
      ∧ ∀ c, next_cursor page = Some c →
          ∃ after', cursor_after root (with_cursor q c) = Ok after'
                    ∧ scan_list m (with_cursor q c) after' (drop (N.to_nat (q_limit q)) F)
}.

Section Discharge.
Context `{Blake3} `{Hex} `{!HexLaws} `{Json Node} `{!JsonLaws Node}.
Context `{Json CursorRecord} `{!JsonLaws CursorRecord}.
Context {S : Type} `{MerkleStore S} `{!MerkleStoreLaws S} (limits : MerkleLimits).
Context (valid : MerkleLimits_validate limits = Ok limits).
Context (deep : (max_key_bytes limits ≤ max_depth limits)%N).

Lemma represents_keeps b (s s' : S) root m : keeps s s' → represents limits b s root m → represents limits b s' root m.
Proof. intros Hk (t & Hr & Ht). exists t. split; [by eapply repr_keeps|done]. Qed.

Lemma represents_bound b (s : S) root m k v :
  represents limits b s root m → m !! k = Some v → (len k ≤ max_key_bytes limits)%N.
Proof. intros (t & _ & _ & Hb & Hm) Hk. rewrite Hm in Hk. apply Hb in Hk. unfold len. lia. Qed.

Lemma represents_fun b (s : S) root m m' : represents limits b s root m → represents limits b s root m' → m = m'.
Proof.
  intros (t & Hr & _ & _ & Hm) (t' & Hr' & _ & _ & Hm'). rewrite (repr_fun _ _ _ _ _ _ Hr' Hr) in Hm'.
  apply map_eq. intros k. by rewrite Hm, Hm'.
Qed.

Lemma repr_value b (s : S) cid t k v :
  repr limits b s cid t → tlookup t k = Some v → validate_value v limits = Ok ().
Proof.
  revert cid k. induction t as [p w cs IH] using tree_ind'. intros cid k Hr.
  inversion Hr as [? node ? ? Hl Hp Hb Hc]; subst. rewrite tlookup_T. destruct (strip p k) as [[|e r]|]; [|intros Hf|done].
  - apply load_inv in Hl as (_ & (p' & _ & _ & _ & Hv & _) & _). intros Heq. rewrite Heq in Hv. exact Hv.
  - apply bind_Some in Hf as (c & Hc' & Hv). apply find_child_elem in Hc'. rewrite Forall_forall in IH.
    apply list_elem_of_lookup in Hc' as [i Hi]. destruct (Forall2_lookup_r _ _ _ _ _ Hc Hi) as (ch & _ & _ & Hrc).
    eapply (IH (e, c)); [by eapply list_elem_of_lookup_2|exact Hrc|done].
Qed.

Definition merkle_ordered_map : OrderedMap S limits.
Proof.
  refine {| holds := represents limits true |}.
  - apply represents_keeps.
  - intros s root m (t & Hr & _). destruct Hr as [cid node p cs Hl].
    apply load_inv in Hl as (_ & _ & payload & _ & -> & _). by exists payload.
  - apply represents_fun.
  - apply represents_bound.
  - intros s root m k v (t & Hr & _ & _ & Hm) Hk. rewrite Hm in Hk. by eapply repr_value.
  - apply (empty_root_spec limits valid true).
  - apply (get_spec limits valid deep true).
  - apply (apply_batch_spec limits valid deep true).
  - intros s root ms e He. unfold apply_batch, mbind, stm_bind, lift. rewrite valid. simpl. by rewrite He.
  - apply (scan_spec limits valid deep true).
Defined.

End Discharge.
