(* ===== verification/Dag.v ===== *)
(** * Traversal of the block graph

    The crate crates/pepper-dag: the registry of codec handlers, the handlers of the
    manifests, and the bounded breadth-first traversal that retention and garbage
    collection use.  The handlers of the other crates are registered from their own
    models. *)
From stdpp Require Import base gmap sets list strings sorting.
From S2P Require Import Prelude Types Merkle.

(** ** Loops with a bound

    [steps n f x] makes at most [n] steps and stops at the first result.  The bound
    is a binary number, so that a bound far above what is needed costs nothing. *)
Fixpoint steps_pos {A R} (f : A → A + R) (n : positive) (x : A) : A + R :=
  match n with
  | xH => f x
  | xO n => match steps_pos f n x with inl y => steps_pos f n y | inr r => inr r end
  | xI n =>
      match f x with
      | inl y => match steps_pos f n y with inl z => steps_pos f n z | inr r => inr r end
      | inr r => inr r
      end
  end.

Definition steps {A R} (f : A → A + R) (n : N) (x : A) : A + R :=
  match n with N0 => inl x | Npos n => steps_pos f n x end.

(** ** Limits and errors *)

Record TraversalLimits := mkTraversalLimits {
  tl_max_depth : N;
  tl_max_blocks : N;
  tl_max_links_per_block : N;
  tl_max_total_links : N;
  tl_max_payload_bytes : N;
  tl_max_total_payload_bytes : N
}.

Definition TraversalLimits_default : TraversalLimits :=
  mkTraversalLimits 1024 2000000 100000 4000000 (16 * 1024 * 1024) (1024 * 1024 * 1024).

Inductive DagError :=
| DagInvalidLimits
| UnsupportedCodec (codec : string)
| DuplicateCodec (codec : string)
| Resolve (cid message : string)
| DagInvalidPayload (codec message : string)
| PayloadTooLarge (codec : string) (actual limit : N)
| TooManyLinks (cid : string) (actual limit : N)
| TooManyBlocks (limit : N)
| TooManyTotalLinks (limit : N)
| TooManyPayloadBytes (limit : N)
| TooDeep (depth limit : N).

Definition TraversalLimits_validate (l : TraversalLimits) : result DagError TraversalLimits :=
  _ ← fail_if ((tl_max_blocks l =? 0)%N || (tl_max_links_per_block l =? 0)%N || (tl_max_total_links l =? 0)%N
               || (tl_max_payload_bytes l =? 0)%N || (tl_max_total_payload_bytes l =? 0)%N) DagInvalidLimits;
  Ok l.

Definition validate_payload_size (k : Codec) (payload : bytes) (limits : TraversalLimits) : result DagError unit :=
  fail_if (tl_max_payload_bytes limits <? len payload)%N
    (PayloadTooLarge (canonical_display k) (len payload) (tl_max_payload_bytes limits)).

(** ** Handlers *)

Record DagCodecHandler := mkHandler {
  handler_codec : Codec;
  requires_payload : bool;
  handler_links : bytes → TraversalLimits → result DagError (list Cid)
}.

Definition DagCodecRegistry : Type := gmap Codec DagCodecHandler.

Definition register (h : DagCodecHandler) (registry : DagCodecRegistry) : result DagError DagCodecRegistry :=
  match registry !! handler_codec h with
  | Some _ => Err (DuplicateCodec (canonical_display (handler_codec h)))
  | None => Ok (<[handler_codec h := h]> registry)
  end.

Definition handler (registry : DagCodecRegistry) (k : Codec) : result DagError DagCodecHandler :=
  ok_or (registry !! k) (UnsupportedCodec (canonical_display k)).

Definition registry_links (registry : DagCodecRegistry) (k : Codec) (payload : bytes) (limits : TraversalLimits)
    : result DagError (list Cid) :=
  h ← handler registry k;
  _ ← validate_payload_size k payload limits;
  links ← handler_links h payload limits;
  _ ← fail_if (tl_max_links_per_block limits <? len links)%N
        (TooManyLinks (canonical_display k) (len links) (tl_max_links_per_block limits));
  Ok links.

Definition invalid_payload (k : Codec) (message : string) : DagError := DagInvalidPayload (canonical_display k) message.

(** A leaf, which links to nothing and is not read. *)
Definition leaf_handler (k : Codec) : DagCodecHandler := mkHandler k false (λ _ _, Ok []).

Definition RawCodecHandler : DagCodecHandler := leaf_handler CODEC_RAW.
Definition SmallObjectCodecHandler : DagCodecHandler := leaf_handler CODEC_SMALL_OBJECT.

Definition CODEC_DIR_MANIFEST : Codec := 3.

Record DirManifest := mkDirManifest { entries : list DirEntry }.

(** [ManifestError]'s [Display] *)
Definition ManifestError_to_string (e : ManifestError) : string :=
  match e with
  | InvalidChunkLayout => "invalid object chunk layout"
  | InvalidErasureLayout => "invalid erasure manifest layout"
  | InvalidPath p => "invalid directory path " +:+ p
  | EntriesNotSorted => "directory entries are not sorted"
  | InvalidDirectoryEntry p => "invalid directory entry " +:+ p
  end.

(** Decode, validate and list the links of a manifest. *)
Definition manifest_handler {A} `{Json A} (k : Codec) (validate : A → result ManifestError unit) (links : A → list Cid)
    : DagCodecHandler :=
  mkHandler k true (λ payload _,
    manifest ← map_err (invalid_payload k) (from_slice payload);
    _ ← map_err (λ e, invalid_payload k (ManifestError_to_string e)) (validate manifest);
    Ok (links manifest)).

Section Traversal.
Context `{Hex} `{Json ObjectManifest} `{Json ErasureManifest} `{Json DirManifest}.

Definition ObjectManifestCodecHandler : DagCodecHandler :=
  manifest_handler CODEC_OBJECT_MANIFEST ObjectManifest_validate (λ m, chunk_cid <$> om_chunks m).

Definition ErasureManifestCodecHandler : DagCodecHandler :=
  manifest_handler CODEC_ERASURE_MANIFEST ErasureManifest_validate
    (λ m, concat ((λ stripe, shard_cid <$> shards stripe) <$> stripes m)).

Definition DirectoryManifestCodecHandler : DagCodecHandler :=
  manifest_handler CODEC_DIR_MANIFEST (λ m, DirManifest_validate (entries m)) (λ m, omap entry_cid (entries m)).

(** [Err] where [expect] panics. *)
Definition builtin_registry : result DagError DagCodecRegistry :=
  r ← register RawCodecHandler ∅;
  r ← register SmallObjectCodecHandler r;
  r ← register ObjectManifestCodecHandler r;
  r ← register ErasureManifestCodecHandler r;
  register DirectoryManifestCodecHandler r.

(** ** The traversal *)

Record Traversal := mkTraversal {
  cids : list Cid;
  decoded_payload_bytes : N;
  links_examined : N
}.

(** The variables of the loop. *)
Record Frontier := mkFrontier {
  seen : gset Cid;
  ordered : list Cid;
  queue : list (Cid * N);
  decoded : N;
  examined : N
}.

Definition cid_text_le (a b : Cid) : Prop := bytes_leb (as_bytes (Cid_to_string a)) (as_bytes (Cid_to_string b)) = true.

#[local] Instance cid_text_le_dec : RelDecision cid_text_le.
Proof. intros a b. unfold cid_text_le. apply _. Defined.

(** [links.sort_by_key(Cid::to_string)] *)
Definition sort_cids (l : list Cid) : list Cid := merge_sort cid_text_le l.

Context (registry : DagCodecRegistry) (resolve : Cid → result string bytes) (limits : TraversalLimits).

(** A block popped for the first time. *)
Definition visit (f : Frontier) (cid : Cid) (depth : N) (queue : list (Cid * N)) : result DagError Frontier :=
  let seen := {[cid]} ∪ seen f in
  _ ← fail_if (tl_max_depth limits <? depth)%N (TooDeep depth (tl_max_depth limits));
  _ ← fail_if (tl_max_blocks limits <? N.of_nat (size seen))%N (TooManyBlocks (tl_max_blocks limits));
  h ← handler registry (codec cid);
  let ordered := ordered f ++ [cid] in
  if negb (requires_payload h) then Ok (mkFrontier seen ordered queue (decoded f) (examined f))
  else
    payload ← map_err (Resolve (Cid_to_string cid)) (resolve cid);
    _ ← validate_payload_size (codec cid) payload limits;
    let decoded := saturating_add u64_max (decoded f) (len payload) in
    _ ← fail_if (tl_max_total_payload_bytes limits <? decoded)%N (TooManyPayloadBytes (tl_max_total_payload_bytes limits));
    links ← handler_links h payload limits;
    _ ← fail_if (tl_max_links_per_block limits <? len links)%N
          (TooManyLinks (Cid_to_string cid) (len links) (tl_max_links_per_block limits));
    let examined := saturating_add u64_max (examined f) (len links) in
    _ ← fail_if (tl_max_total_links limits <? examined)%N (TooManyTotalLinks (tl_max_total_links limits));
    Ok (mkFrontier seen ordered (queue ++ ((λ child, (child, depth + 1)%N) <$> sort_cids links)) decoded examined).

(** One round of the loop. *)
Definition round (f : Frontier) : Frontier + result DagError Traversal :=
  match queue f with
  | [] => inr (Ok (mkTraversal (ordered f) (decoded f) (examined f)))
  | (cid, depth) :: queue =>
      if decide (cid ∈ seen f) then inl (mkFrontier (seen f) (ordered f) queue (decoded f) (examined f))
      else match visit f cid depth queue with Ok f => inl f | Err e => inr (Err e) end
  end.

(** More rounds than the limits on blocks and links admit. *)
Definition rounds : N := (2 + tl_max_blocks limits * tl_max_links_per_block limits)%N.

Definition traverse (root : Cid) : option (result DagError Traversal) :=
  match TraversalLimits_validate limits with
  | Err e => Some (Err e)
  | Ok _ =>
      match steps round rounds (mkFrontier ∅ [] [(root, 0%N)] 0 0) with
      | inr r => Some r
      | inl _ => None
      end
  end.

Definition into_set (t : Traversal) : gset Cid := list_to_set (cids t).

Lemma sort_cids_perm l : sort_cids l ≡ₚ l.
Proof. apply merge_sort_Permutation. Qed.

End Traversal.
