(* ===== verification/DagFacts.v ===== *)
(** * The traversal visits what is reachable

    The breadth-first loop ends, and either lists exactly the blocks reachable from
    the root, each once and by distance, or fails for a reason that a reachable
    block gives. *)
From stdpp Require Import base gmap sets list strings sorting relations.
From S2P Require Import Prelude Types Merkle Dag.

(** ** Bounded loops *)

Section Steps.
Context {A R : Type} (f : A → A + R) (P : A → Prop) (mu : A → N).
Context (Hstep : ∀ x y, P x → f x = inl y → P y ∧ (mu y < mu x)%N).

Lemma steps_pos_spec n : ∀ x, P x →
  match steps_pos f n x with
  | inl y => P y ∧ (mu y + Npos n ≤ mu x)%N
  | inr r => ∃ y, P y ∧ f y = inr r
  end.
Proof.
  induction n as [n IH|n IH|]; intros x Hx; cbn.
  - destruct (f x) as [y|r] eqn:Hf; [|by exists x]. destruct (Hstep x y Hx Hf) as [Hy Hlt].
    specialize (IH y Hy) as IHy. destruct (steps_pos f n y) as [z|r]; [|done]. destruct IHy as [Hz Hle].
    specialize (IH z Hz). destruct (steps_pos f n z) as [w|r]; [|done]. destruct IH as [Hw Hle']. split; [done|lia].
  - specialize (IH x Hx) as IHx. destruct (steps_pos f n x) as [y|r]; [|done]. destruct IHx as [Hy Hle].
    specialize (IH y Hy). destruct (steps_pos f n y) as [z|r]; [|done]. destruct IH as [Hz Hle']. split; [done|lia].
  - destruct (f x) as [y|r] eqn:Hf; [|by exists x]. destruct (Hstep x y Hx Hf). split; [done|lia].
Qed.

(** With more steps than the measure has room for, the loop reaches a result. *)
Lemma steps_done n x : P x → (mu x < n)%N → ∃ y r, steps f n x = inr r ∧ P y ∧ f y = inr r.
Proof.
  intros Hx Hlt. destruct n as [|n]; [lia|]. cbn. pose proof (steps_pos_spec n x Hx) as Hs.
  destruct (steps_pos f n x) as [y|r]; [lia|]. destruct Hs as (y & ? & ?). eauto.
Qed.
End Steps.

Section Facts.
Context `{Hex} (registry : DagCodecRegistry) (resolve : Cid → result string bytes) (limits : TraversalLimits).
Implicit Types (c : Cid) (f : Frontier).

(** ** The graph *)

(** The links of a block, if it can be read and is within the limits. *)
Definition block_links c : result DagError (list Cid) :=
  h ← handler registry (codec c);
  if negb (requires_payload h) then Ok []
  else
    payload ← map_err (Resolve (Cid_to_string c)) (resolve c);
    _ ← validate_payload_size (codec c) payload limits;
    links ← handler_links h payload limits;
    _ ← fail_if (tl_max_links_per_block limits <? len links)%N
          (TooManyLinks (Cid_to_string c) (len links) (tl_max_links_per_block limits));
    Ok links.

Definition link (a b : Cid) : Prop := ∃ ls, block_links a = Ok ls ∧ b ∈ ls.

(** The payload bytes and the links that a block adds to the totals. *)
Definition weight c : N :=
  match handler registry (codec c) with
  | Ok h => if requires_payload h then match resolve c with Ok payload => len payload | Err _ => 0 end else 0
  | Err _ => 0
  end.
Definition degree c : N := match block_links c with Ok ls => len ls | Err _ => 0 end.

Definition total (g : Cid → N) (l : list Cid) : N := foldr (λ c n, g c + n)%N 0%N l.

Lemma total_snoc g l c : total g (l ++ [c]) = (total g l + g c)%N.
Proof. unfold total. induction l as [|a l IH]; cbn; [lia|]. rewrite IH. lia. Qed.

(** At distance [d] from the root, and not nearer. *)
Definition distance (root c : Cid) (d : N) : Prop :=
  nsteps link (N.to_nat d) root c ∧ ∀ n, nsteps link n root c → (d ≤ N.of_nat n)%N.

(** A total over a limit, or a block too far away. *)
Definition over_limit (root : Cid) (e : DagError) : Prop :=
  match e with
  | DagInvalidLimits => TraversalLimits_validate limits = Err DagInvalidLimits
  | TooDeep d limit => limit = tl_max_depth limits ∧ (limit < d)%N ∧ ∃ c, distance root c d
  | TooManyBlocks limit => limit = tl_max_blocks limits ∧ ∃ l, NoDup l ∧ Forall (rtc link root) l ∧ (limit < len l)%N
  | TooManyTotalLinks limit =>
      limit = tl_max_total_links limits ∧ ∃ l, NoDup l ∧ Forall (rtc link root) l ∧ (limit < total degree l)%N
  | TooManyPayloadBytes limit =>
      limit = tl_max_total_payload_bytes limits ∧ ∃ l, NoDup l ∧ Forall (rtc link root) l ∧ (limit < total weight l)%N
  | _ => False
  end.

(** What justifies an error: a reachable block that cannot be read, or a limit. *)
Definition explained (root : Cid) (e : DagError) : Prop :=
  (∃ c, rtc link root c ∧ block_links c = Err e) ∨ over_limit root e.

(** ** One round *)

(** What a visit adds. *)
Definition visited f c d (q : list (Cid * N)) (ls : list Cid) : Frontier :=
  mkFrontier ({[c]} ∪ seen f) (ordered f ++ [c]) (q ++ ((λ b, (b, d + 1)%N) <$> sort_cids ls))
    (N.min u64_max (decoded f + weight c)) (N.min u64_max (examined f + len ls)).

Definition within f : Prop :=
  (decoded f ≤ tl_max_total_payload_bytes limits)%N ∧ (examined f ≤ tl_max_total_links limits)%N
  ∧ (decoded f ≤ u64_max)%N ∧ (examined f ≤ u64_max)%N.

Lemma visit_Ok f c d q f' :
  within f → visit registry resolve limits f c d q = Ok f' →
  ∃ ls, block_links c = Ok ls ∧ (d ≤ tl_max_depth limits)%N ∧ (N.of_nat (size ({[c]} ∪ seen f)) ≤ tl_max_blocks limits)%N
    ∧ (len ls ≤ tl_max_links_per_block limits)%N ∧ f' = visited f c d q ls ∧ within f'.
Proof.
  intros (Hd1 & He1 & Hd2 & He2). unfold visit, visited, block_links, weight.
  intros ([] & Hdep%fail_if_Ok%N.ltb_ge & ([] & Hblk%fail_if_Ok%N.ltb_ge & (h & Hh & Hr)%bind_Ok)%bind_Ok)%bind_Ok.
  rewrite Hh. cbn [mbind result_bind]. destruct (requires_payload h); cbn [negb] in *.
  - apply bind_Ok in Hr as (payload & Hres%map_err_Ok & ([] & Hv & ([] & Hpay%fail_if_Ok%N.ltb_ge & (ls & Hls & ([] & Hl%fail_if_Ok & ([] & Hex%fail_if_Ok%N.ltb_ge & Hf%Ok_inj)%bind_Ok)%bind_Ok)%bind_Ok)%bind_Ok)%bind_Ok).
    exists ls. rewrite Hres. cbn [map_err mbind result_bind]. rewrite Hv. cbn [mbind result_bind]. rewrite Hls. cbn [mbind result_bind].
    rewrite Hl. cbn [fail_if mbind result_bind]. apply N.ltb_ge in Hl. split_and!; try done. subst f'. unfold within. cbn.
    unfold saturating_add in *. split_and!; [done|done|lia|lia].
  - apply Ok_inj in Hr as <-. exists []. split_and!; try done.
    + unfold len. cbn. lia.
    + change (sort_cids []) with (@nil Cid). change (len (@nil Cid)) with 0%N. cbn [fmap list_fmap].
      by rewrite app_nil_r, !N.add_0_r, !N.min_r by done.
Qed.

(** The visited blocks, as the totals have them. *)
Record counted (root : Cid) f : Prop := {
  counted_nodup : NoDup (ordered f);
  counted_seen c : c ∈ seen f ↔ c ∈ ordered f;
  counted_reach c : c ∈ ordered f → rtc link root c;
  counted_decoded : decoded f = N.min u64_max (total weight (ordered f));
  counted_examined : examined f = N.min u64_max (total degree (ordered f))
}.

Lemma visit_Err root f c d q e :
  visit registry resolve limits f c d q = Err e → counted root f → c ∉ seen f → rtc link root c → distance root c d →
  explained root e.
Proof.
  intros Hv [Hnd Hseen Hreach Hdec Hexa] Hc Hrc Hdist.
  assert (NoDup (ordered f ++ [c])) as Hnd'.
  { apply NoDup_app. split_and!; [done| |repeat constructor; by intros ?%elem_of_nil].
    intros x Hx ->%list_elem_of_singleton. by apply Hc, Hseen. }
  assert (Forall (rtc link root) (ordered f ++ [c])) as Hreach'.
  { apply Forall_app. split; [by apply Forall_forall|by repeat constructor]. }
  unfold visit in Hv. apply bind_Err in Hv as [[Hdep <-]%fail_if_Err|([] & _ & Hv)].
  { apply N.ltb_lt in Hdep. right. split_and!; [done|done|by exists c]. }
  apply bind_Err in Hv as [[Hblk <-]%fail_if_Err|([] & _ & Hv)].
  { apply N.ltb_lt in Hblk. right. split; [done|]. exists (ordered f ++ [c]). split_and!; [done|done|].
    assert (seen f = list_to_set (ordered f)) as Hs by (apply set_eq; intros x; by rewrite elem_of_list_to_set).
    rewrite size_union, size_singleton, Hs, size_list_to_set in Hblk; [|done|set_solver].
    unfold len. rewrite length_app. cbn. lia. }
  apply bind_Err in Hv as [Hh|(h & Hh & Hv)].
  { left. exists c. split; [done|]. unfold block_links. by rewrite Hh. }
  destruct (requires_payload h) eqn:Hreq; cbn [negb] in Hv; [|done].
  assert (∀ r : result DagError (list Cid), block_links c = r → match r with Ok ls => degree c = len ls | Err e' => explained root e' end) as Hbl.
  { intros [ls|e'] Hr; [unfold degree; by rewrite Hr|]. left. by exists c. }
  unfold block_links in Hbl. rewrite Hh in Hbl. cbn [mbind result_bind] in Hbl. rewrite Hreq in Hbl. cbn [negb] in Hbl.
  apply bind_Err in Hv as [Hres|(payload & Hres & Hv)]; [by rewrite Hres in Hbl; apply (Hbl _ eq_refl)|].
  rewrite Hres in Hbl. cbn [mbind result_bind] in Hbl.
  apply bind_Err in Hv as [Hsz|([] & Hsz & Hv)]; [by rewrite Hsz in Hbl; apply (Hbl _ eq_refl)|].
  rewrite Hsz in Hbl. cbn [mbind result_bind] in Hbl. apply map_err_Ok in Hres.
  apply bind_Err in Hv as [[Hpay <-]%fail_if_Err|([] & _ & Hv)].
  { apply N.ltb_lt in Hpay. right. split; [done|]. exists (ordered f ++ [c]). split_and!; [done|done|].
    rewrite total_snoc. unfold weight at 2. rewrite Hh, Hreq, Hres. unfold saturating_add in Hpay. lia. }
  apply bind_Err in Hv as [Hls|(ls & Hls & Hv)]; [by rewrite Hls in Hbl; apply (Hbl _ eq_refl)|].
  rewrite Hls in Hbl. cbn [mbind result_bind] in Hbl.
  apply bind_Err in Hv as [Hmany|([] & Hmany & Hv)]; [by rewrite Hmany in Hbl; apply (Hbl _ eq_refl)|].
  rewrite Hmany in Hbl. cbn [mbind result_bind] in Hbl.
  apply bind_Err in Hv as [[Htot <-]%fail_if_Err|([] & _ & Hv)]; [|done].
  apply N.ltb_lt in Htot. right. split; [done|]. exists (ordered f ++ [c]). split_and!; [done|done|].
  rewrite total_snoc, (Hbl _ eq_refl). unfold saturating_add in Htot. lia.
Qed.

(** ** The loop *)

(** Breadth first: [D] has the distance of every block visited, and the queue the
    blocks one step on, by distance. *)
Record bfs (root : Cid) f (D : gmap Cid N) : Prop := {
  bfs_dom c : c ∈ seen f ↔ is_Some (D !! c);
  bfs_counted : counted root f;
  bfs_within : within f;
  bfs_blocks : (N.of_nat (size (seen f)) ≤ tl_max_blocks limits)%N;
  bfs_dist c d : D !! c = Some d → distance root c d ∧ (d ≤ tl_max_depth limits)%N;
  bfs_links c d : D !! c = Some d → ∃ ls, block_links c = Ok ls ∧ ∀ b, b ∈ ls → b ∈ seen f ∨ (b, (d + 1)%N) ∈ queue f;
  bfs_root : root ∈ seen f ∨ (root, 0%N) ∈ queue f;
  bfs_paths c d : (c, d) ∈ queue f → nsteps link (N.to_nat d) root c;
  bfs_sorted : StronglySorted (λ x y : Cid * N, x.2 ≤ y.2 ≤ x.2 + 1)%N (queue f);
  bfs_ahead c d x : D !! c = Some d → x ∈ queue f → (d ≤ x.2)%N;
  bfs_order : StronglySorted (λ a b, default 0 (D !! a) ≤ default 0 (D !! b))%N (ordered f)
}.

(** Whatever is within [n] steps has been visited, unless something as near is
    still in the queue. *)
Lemma bfs_reach root f D n x :
  bfs root f D → nsteps link n root x →
  (∃ d, D !! x = Some d ∧ (d ≤ N.of_nat n)%N) ∨ ∃ y e, (y, e) ∈ queue f ∧ (e ≤ N.of_nat n)%N.
Proof.
  intros Hb. revert x. induction n as [|n IH]; intros x Hn.
  - inversion Hn; subst. destruct (bfs_root _ _ _ Hb) as [Hs|Hq]; [|right; exists x, 0%N; split; [done|lia]].
    apply (bfs_dom _ _ _ Hb) in Hs as [d Hd]. left. exists d. split; [done|]. by apply (bfs_dist _ _ _ Hb x d Hd).
  - apply nsteps_inv_r in Hn as Hstep. destruct Hstep as (y & Hy & ls & Hls & Hx).
    destruct (IH y Hy) as [(d & Hd & Hle)|(z & e & Hz & He)]; [|right; exists z, e; split; [done|lia]].
    destruct (bfs_links _ _ _ Hb y d Hd) as (ls' & Hls' & Hall). rewrite Hls in Hls'. apply Ok_inj in Hls' as <-.
    destruct (Hall x Hx) as [Hs|Hq]; [|right; exists x, (d + 1)%N; split; [done|lia]].
    apply (bfs_dom _ _ _ Hb) in Hs as [d' Hd']. left. exists d'. split; [done|]. by apply (bfs_dist _ _ _ Hb x d' Hd').
Qed.

Definition measure f : N :=
  (len (queue f) + (tl_max_blocks limits - N.of_nat (size (seen f))) * tl_max_links_per_block limits)%N.

(** What a traversal lists. *)
Record covers (root : Cid) (t : Traversal) : Prop := {
  covers_nodup : NoDup (cids t);
  covers_exact c : c ∈ cids t ↔ rtc link root c;
  covers_readable c : c ∈ cids t → ∃ ls, block_links c = Ok ls;
  covers_order : ∃ dist : Cid → N,
    (∀ c, c ∈ cids t → distance root c (dist c) ∧ (dist c ≤ tl_max_depth limits)%N) ∧
    StronglySorted (λ a b, dist a ≤ dist b)%N (cids t);
  covers_blocks : (len (cids t) ≤ tl_max_blocks limits)%N;
  covers_bytes : decoded_payload_bytes t = N.min u64_max (total weight (cids t)) ∧
    (decoded_payload_bytes t ≤ tl_max_total_payload_bytes limits)%N;
  covers_examined : links_examined t = N.min u64_max (total degree (cids t)) ∧ (links_examined t ≤ tl_max_total_links limits)%N
}.

Lemma size_counted root f : counted root f → N.of_nat (size (seen f)) = len (ordered f).
Proof.
  intros [Hnd Hseen _ _ _]. assert (seen f = list_to_set (ordered f)) as -> by (apply set_eq; intros x; by rewrite elem_of_list_to_set).
  by rewrite size_list_to_set.
Qed.

Lemma bfs_done root f D : bfs root f D → queue f = [] → covers root (mkTraversal (ordered f) (decoded f) (examined f)).
Proof.
  intros Hb Hq. pose proof (bfs_counted _ _ _ Hb) as [Hnd Hseen Hreach Hdec Hexa].
  pose proof (bfs_within _ _ _ Hb) as (Hd1 & He1 & _).
  assert (∀ c, c ∈ ordered f → ∃ d, D !! c = Some d) as HD by (intros c Hc; apply Hseen in Hc; by apply (bfs_dom _ _ _ Hb)).
  split; cbn; try done.
  - intros c. split; [apply Hreach|]. intros Hr. apply rtc_nsteps in Hr as [n Hn].
    destruct (bfs_reach root f D n c Hb Hn) as [(d & Hd & _)|(y & e & Hy & _)].
    + apply Hseen, (bfs_dom _ _ _ Hb). by exists d.
    + rewrite Hq in Hy. by apply elem_of_nil in Hy.
  - intros c [d Hd]%HD. destruct (bfs_links _ _ _ Hb c d Hd) as (ls & Hls & _). by exists ls.
  - exists (λ c, default 0%N (D !! c)). split; [|apply Hb]. intros c [d Hd]%HD. rewrite Hd. by apply Hb.
  - rewrite <-(size_counted root f) by apply Hb. apply Hb.
Qed.

(** A block that was visited before. *)
Lemma bfs_skip root f D c d q :
  bfs root f D → queue f = (c, d) :: q → c ∈ seen f → bfs root (mkFrontier (seen f) (ordered f) q (decoded f) (examined f)) D.
Proof.
  intros Hb Hq Hc. pose proof (bfs_sorted _ _ _ Hb) as Hs. rewrite Hq in Hs. inversion Hs; subst.
  pose proof (bfs_counted _ _ _ Hb) as [Hnd Hseen Hreach Hdec Hexa].
  split; cbn; try apply Hb; try done.
  - intros x e Hx. destruct (bfs_links _ _ _ Hb x e Hx) as (ls & Hls & Hall). exists ls. split; [done|]. intros b Hb'.
    destruct (Hall b Hb') as [?|Hin]; [by left|]. rewrite Hq in Hin. apply elem_of_cons in Hin as [[= -> _]|?]; [by left|by right].
  - destruct (bfs_root _ _ _ Hb) as [?|Hin]; [by left|]. rewrite Hq in Hin. apply elem_of_cons in Hin as [[= -> _]|?]; [by left|by right].
  - intros x e Hx. apply (bfs_paths _ _ _ Hb). rewrite Hq. by right.
  - intros x e y Hx Hy. apply (bfs_ahead _ _ _ Hb x e y Hx). rewrite Hq. by right.
Qed.

(** The head of the queue is at its distance, if it has not been visited. *)
Lemma bfs_head root f D c d q : bfs root f D → queue f = (c, d) :: q → c ∉ seen f → distance root c d ∧ rtc link root c.
Proof.
  intros Hb Hq Hc. assert (nsteps link (N.to_nat d) root c) as Hp by (apply (bfs_paths _ _ _ Hb); rewrite Hq; by left).
  split; [split; [done|]|by apply rtc_nsteps_2 in Hp]. intros n Hn.
  destruct (bfs_reach root f D n c Hb Hn) as [(e & He & _)|(y & e & Hy & Hle)].
  - destruct Hc. apply (bfs_dom _ _ _ Hb). by exists e.
  - pose proof (bfs_sorted _ _ _ Hb) as Hs. rewrite Hq in Hs, Hy. inversion Hs as [|? ? _ Hall]; subst.
    apply elem_of_cons in Hy as [[= -> ->]|Hy]; [done|]. rewrite Forall_forall in Hall. specialize (Hall _ Hy). cbn in Hall. lia.
Qed.

Lemma snoc_sorted {A} (R : A → A → Prop) l x : StronglySorted R l → (∀ y, y ∈ l → R y x) → StronglySorted R (l ++ [x]).
Proof.
  induction 1 as [|a l _ IH Ha]; intros Hx; cbn; [repeat constructor|]. constructor; [apply IH; intros; apply Hx; by right|].
  apply Forall_app. split; [done|]. repeat constructor. apply Hx. by left.
Qed.

Lemma app_sorted {A} (R : A → A → Prop) l k :
  StronglySorted R l → StronglySorted R k → (∀ x y, x ∈ l → y ∈ k → R x y) → StronglySorted R (l ++ k).
Proof.
  intros Hl Hk. induction Hl as [|a l _ IH Ha]; intros Hx; cbn; [done|]. constructor; [apply IH; intros; apply Hx; [by right|done]|].
  apply Forall_app. split; [done|]. apply Forall_forall. intros y Hy. apply Hx; [by left|done].
Qed.

Lemma StronglySorted_ext {A} (R Q : A → A → Prop) l :
  (∀ x y, x ∈ l → y ∈ l → R x y → Q x y) → StronglySorted R l → StronglySorted Q l.
Proof.
  intros HRQ Hl. induction Hl as [|a l _ IH Ha]; constructor.
  - apply IH. intros x y Hx Hy. apply HRQ; by right.
  - rewrite Forall_forall in Ha |- *. intros x Hx. apply HRQ; [by left|by right|by apply Ha].
Qed.

Lemma counted_visited root f c d q ls :
  counted root f → c ∉ seen f → rtc link root c → block_links c = Ok ls → counted root (visited f c d q ls).
Proof.
  intros [Hnd Hseen Hreach Hdec Hexa] Hc Hrc Hls. split; cbn [visited ordered seen decoded examined].
  - apply NoDup_app. split_and!; [done| |repeat constructor; by intros ?%elem_of_nil].
    intros x Hx ->%list_elem_of_singleton. by apply Hc, Hseen.
  - intros x. rewrite elem_of_union, elem_of_app, elem_of_singleton, list_elem_of_singleton, Hseen. tauto.
  - intros x [Hx| ->%list_elem_of_singleton]%elem_of_app; [by apply Hreach|done].
  - rewrite total_snoc, Hdec. lia.
  - assert (degree c = len ls) as Hdeg by (unfold degree; by rewrite Hls). rewrite total_snoc, Hexa, Hdeg. lia.
Qed.

(** A block visited. *)
Lemma bfs_visit root f D c d q ls :
  bfs root f D → queue f = (c, d) :: q → c ∉ seen f → block_links c = Ok ls → (d ≤ tl_max_depth limits)%N →
  (N.of_nat (size ({[c]} ∪ seen f)) ≤ tl_max_blocks limits)%N → within (visited f c d q ls) →
  bfs root (visited f c d q ls) (<[c := d]> D).
Proof.
  intros Hb Hq Hc Hls Hdep Hblk Hw. destruct (bfs_head _ _ _ _ _ _ Hb Hq Hc) as [Hdist Hrc].
  pose proof (bfs_sorted _ _ _ Hb) as Hs. rewrite Hq in Hs. inversion Hs as [|? ? Hsq Hall]; subst. rewrite Forall_forall in Hall.
  assert (D !! c = None) as HDc by (apply eq_None_not_Some; intros Hd; by apply Hc, (bfs_dom _ _ _ Hb)).
  assert (∀ x e, D !! x = Some e → (e ≤ d)%N) as Hle.
  { intros x e Hx. apply (bfs_ahead _ _ _ Hb x e (c, d) Hx). rewrite Hq. by left. }
  assert (∀ x, x ∈ ordered f → x ≠ c ∧ x ∈ seen f) as Hold.
  { intros x Hx. apply (counted_seen _ _ (bfs_counted _ _ _ Hb)) in Hx. split; [|done]. by intros ->. }
  split; cbn; try done.
  - intros x. rewrite elem_of_union, elem_of_singleton, lookup_insert_is_Some, (bfs_dom _ _ _ Hb).
    destruct (decide (c = x)) as [->|Hne]; [tauto|]. split; [intros [->|?]; [done|by right]|]. intros [->|[_ ?]]; [by left|by right].
  - apply counted_visited; try done. apply Hb.
  - intros x e. rewrite lookup_insert_Some. intros [[<- <-]|[_ Hx]]; [done|by apply Hb].
  - intros x e. rewrite lookup_insert_Some. intros [[<- <-]|[Hne Hx]].
    + exists ls. split; [done|]. intros b Hbl. right. apply elem_of_app. right. apply list_elem_of_fmap. exists b.
      split; [done|]. by rewrite sort_cids_perm.
    + destruct (bfs_links _ _ _ Hb x e Hx) as (ls' & Hls' & Hall'). exists ls'. split; [done|]. intros b Hbl.
      destruct (Hall' b Hbl) as [?|Hin]; [left; by apply elem_of_union_r|]. rewrite Hq in Hin.
      apply elem_of_cons in Hin as [[= -> _]|Hin]; [left; by apply elem_of_union_l, elem_of_singleton|].
      right. apply elem_of_app. by left.
  - left. destruct (bfs_root _ _ _ Hb) as [?|Hin]; [by apply elem_of_union_r|]. rewrite Hq in Hin.
    apply elem_of_cons in Hin as [[= -> _]|Hin]; [by apply elem_of_union_l, elem_of_singleton|].
    destruct (decide (c = root)) as [->|Hne]; [by apply elem_of_union_l, elem_of_singleton|].
    pose proof (Hall _ Hin) as Hd0. cbn in Hd0. assert (d = 0%N) as -> by lia.
    destruct Hdist as [Hp _]. cbn in Hp. inversion Hp; subst. done.
  - intros x e [Hx|Hx]%elem_of_app.
    + apply (bfs_paths _ _ _ Hb). rewrite Hq. by right.
    + apply list_elem_of_fmap in Hx as (b & [= -> ->] & Hx). rewrite sort_cids_perm in Hx.
      replace (N.to_nat (d + 1)) with (S (N.to_nat d)) by lia. eapply nsteps_r; [apply Hdist|]. by exists ls.
  - apply app_sorted; [done| |].
    + clear. induction (sort_cids ls) as [|a l IH]; cbn; [constructor|]. constructor; [done|]. apply Forall_forall.
      intros x (b & -> & _)%list_elem_of_fmap. cbn. lia.
    + intros x y Hx (b & -> & _)%list_elem_of_fmap. cbn. pose proof (Hall _ Hx) as Hxd. cbn in Hxd. lia.
  - intros x e y Hx [Hy|(b & -> & _)%list_elem_of_fmap]%elem_of_app; rewrite lookup_insert_Some in Hx.
    + destruct Hx as [[<- <-]|[_ Hx]]; [by apply (Hall _ Hy)|]. apply (bfs_ahead _ _ _ Hb x e y Hx). rewrite Hq. by right.
    + cbn. destruct Hx as [[<- <-]|[_ Hx]]; [lia|]. specialize (Hle _ _ Hx). lia.
  - apply snoc_sorted.
    + eapply StronglySorted_ext; [|apply Hb]. intros x y [Hx _]%Hold [Hy _]%Hold. by rewrite !lookup_insert_ne by done.
    + intros x [Hx Hxs]%Hold. rewrite lookup_insert_eq, lookup_insert_ne by done. cbn.
      apply (bfs_dom _ _ _ Hb) in Hxs as [e He]. rewrite He. cbn. by eapply Hle.
Qed.

Lemma round_spec root f D :
  bfs root f D →
  match round registry resolve limits f with
  | inl f' => (∃ D', bfs root f' D') ∧ (measure f' < measure f)%N
  | inr (Ok t) => covers root t
  | inr (Err e) => explained root e
  end.
Proof.
  intros Hb. unfold round. destruct (queue f) as [|[c d] q] eqn:Hq; [by eapply bfs_done|].
  destruct (decide (c ∈ seen f)) as [Hc|Hc].
  - split; [exists D; by eapply bfs_skip|]. unfold measure. rewrite Hq. unfold len. cbn [queue seen length]. lia.
  - destruct (bfs_head _ _ _ _ _ _ Hb Hq Hc) as [Hdist Hrc].
    destruct (visit registry resolve limits f c d q) as [f'|e] eqn:Hv.
    + apply visit_Ok in Hv as (ls & Hls & Hdep & Hblk & Hlen & -> & Hw); [|apply Hb].
      split; [exists (<[c := d]> D); by apply bfs_visit|]. unfold measure. rewrite Hq. cbn [visited queue seen].
      rewrite size_union, size_singleton in Hblk |- * by set_solver.
      unfold len in *. rewrite length_app, length_fmap, sort_cids_perm. cbn [length].
      replace (tl_max_blocks limits - N.of_nat (size (seen f)))%N with (tl_max_blocks limits - N.of_nat (1 + size (seen f)) + 1)%N by lia.
      lia.
    + eapply visit_Err; [exact Hv|apply Hb|done..].
Qed.

Lemma bfs_start root : bfs root (mkFrontier ∅ [] [(root, 0%N)] 0 0) ∅.
Proof.
  split; cbn; try done; try (intros *; by rewrite lookup_empty).
  - split; cbn; try done; [constructor|set_solver|by intros c ?%elem_of_nil].
  - unfold within. cbn. lia.
  - rewrite size_empty. lia.
  - right. by left.
  - intros c d Hin. apply list_elem_of_singleton in Hin as [= -> ->]. constructor.
  - repeat constructor.
  - constructor.
Qed.

Lemma traverse_spec root :
  ∃ r, traverse registry resolve limits root = Some r ∧
    match r with Ok t => covers root t | Err e => explained root e end.
Proof.
  unfold traverse. destruct (TraversalLimits_validate limits) as [l|e] eqn:Hl.
  - destruct (steps_done (round registry resolve limits) (λ f, ∃ D, bfs root f D) measure) with
      (n := rounds limits) (x := mkFrontier ∅ [] [(root, 0%N)] 0%N 0%N) as (f & r & -> & [D HD] & Hr).
    + intros f f' [D HD] Hf. pose proof (round_spec root f D HD) as Hs. by rewrite Hf in Hs.
    + exists ∅. apply bfs_start.
    + unfold measure, rounds. cbn [queue seen]. rewrite size_empty. unfold len. cbn [length]. lia.
    + exists r. split; [done|]. pose proof (round_spec root f D HD) as Hs. by rewrite Hr in Hs.
  - exists (Err e). split; [done|]. right. unfold TraversalLimits_validate in Hl.
    pose proof Hl as [[_ <-]%fail_if_Err|([] & _ & ?)]%bind_Err; [exact Hl|done].
Qed.

(** C17: a traversal always ends, and either lists exactly the blocks reachable from
    the root, each once, by distance and within all limits, or fails with an error
    that a reachable block or an exceeded limit justifies.  In particular a cycle
    does not stop it, and [TooDeep] is never due to a detour. *)
Theorem traverse_correct root :
  ∃ r, traverse registry resolve limits root = Some r ∧
    match r with Ok t => covers root t | Err e => explained root e end.
Proof. apply traverse_spec. Qed.

End Facts.

(** ** The registry *)

Lemma register_Ok h registry registry' :
  register h registry = Ok registry' ↔ registry !! handler_codec h = None ∧ registry' = <[handler_codec h := h]> registry.
Proof.
  unfold register. destruct (registry !! handler_codec h); split; [done|by intros []|by intros [= <-]|by intros [_ ->]].
Qed.

(** The built-in handlers have different codecs: none of the [expect]s panics. *)
Lemma builtin_registers `{Json ObjectManifest} `{Json ErasureManifest} `{Json DirManifest} :
  builtin_registry = Ok (<[CODEC_DIR_MANIFEST := DirectoryManifestCodecHandler]>
    (<[CODEC_ERASURE_MANIFEST := ErasureManifestCodecHandler]> (<[CODEC_OBJECT_MANIFEST := ObjectManifestCodecHandler]>
      (<[CODEC_SMALL_OBJECT := SmallObjectCodecHandler]> {[CODEC_RAW := RawCodecHandler]})))).
Proof. reflexivity. Qed.
