(* ===== verification/Namespace.v ===== *)
(** * Transactional namespaces (crates/pepper-namespace)

    A namespace is a Merkle map with a revision history, named snapshots and a
    table of applied requests.  Blocks go through the store of [Merkle]; the
    serializer, the hash and the command authorizer are third-party.  The machine
    clones its state, lets a command work on the clone and swaps it in at the end,
    so a command is a function from the state to the next state that may fail. *)
From stdpp Require Import base gmap sets list strings sorting.
From Stdlib Require Import Strings.Byte.
From S2P Require Import Prelude Types Merkle Dag.

Definition DESCRIPTOR_TYPE : string := "pepper.namespace_descriptor".
Definition COMMIT_TYPE : string := "pepper.namespace_commit".
Definition CHECKPOINT_TYPE : string := "pepper.namespace_checkpoint".
Definition CHECKPOINT_SEGMENTS_TYPE : string := "pepper.namespace_checkpoint_segments".
Definition FORMAT_VERSION : N := 1.

(** ** Data *)

Record NamespaceId := mkNamespaceId { id_cid : Cid }.

#[export] Instance NamespaceId_eq_dec : EqDecision NamespaceId.
Proof. solve_decision. Defined.

Inductive NamespaceKind := Kv | Bucket | Filesystem | Sqlite.

#[export] Instance NamespaceKind_eq_dec : EqDecision NamespaceKind.
Proof. solve_decision. Defined.

Record DurabilityPolicy := mkDurability { replicas : N }.

#[export] Instance DurabilityPolicy_eq_dec : EqDecision DurabilityPolicy.
Proof. solve_decision. Defined.

Record RetentionPolicy := mkRetention { keep_last : N; max_age_seconds : option N }.

#[export] Instance RetentionPolicy_eq_dec : EqDecision RetentionPolicy.
Proof. solve_decision. Defined.

Record NamespaceDescriptor := mkDescriptor {
  descriptor_type : string;
  descriptor_version : N;
  kind : NamespaceKind;
  initial_replica_set : list string;
  consensus_protocol_version : N;
  replication_factor : N;
  placement_constraints : gmap string string;
  durability : DurabilityPolicy;
  retention : RetentionPolicy;
  authorization_policy_cid : option Cid;
  created_at_unix_seconds : Z;
  creator_identity : string;
  creator_signature_hex : string
}.

#[export] Instance NamespaceDescriptor_eq_dec : EqDecision NamespaceDescriptor.
Proof. solve_decision. Defined.

Record NamespaceLimits := mkNamespaceLimits {
  max_transaction_mutations : N;
  max_transaction_key_bytes : N;
  max_message_bytes : N;
  max_identity_bytes : N;
  max_signature_bytes : N;
  max_request_id_bytes : N;
  max_snapshot_name_bytes : N;
  max_named_snapshots : N;
  max_retained_revisions : N;
  max_idempotency_records : N;
  max_rollback_entries : N
}.

Definition NamespaceLimits_default : NamespaceLimits := {|
  max_transaction_mutations := 10000;
  max_transaction_key_bytes := 8 * 1024 * 1024;
  max_message_bytes := 4 * 1024;
  max_identity_bytes := 256;
  max_signature_bytes := 1024;
  max_request_id_bytes := 128;
  max_snapshot_name_bytes := 256;
  max_named_snapshots := 10000;
  max_retained_revisions := 100000;
  max_idempotency_records := 100000;
  max_rollback_entries := 1000000
|}.

Inductive NamespaceError :=
| InvalidLimits
| InvalidCodec (codec : string)
| InvalidDescriptor (message : string)
| InvalidCommand (message : string)
| InvalidMutation (message : string)
| Unauthorized (message : string)
| Read (cid message : string)
| Write_ (message : string)
| WrongStoredCid (expected actual : string)
| NonCanonical
| InvalidPayload (message : string)
| Merkle_ (message : string)
| UnknownRevision (revision : N)
| StaleSnapshot
| GenerationConflict (key : string)
| EmptyTransaction
| NoChanges
| IdempotencyConflict
| SnapshotExists (name : string)
| SnapshotNotFound (name : string)
| RollbackTooLarge (limit : N)
(** not a variant of the enum: a panic below *)
| Panicked.

Inductive KeyPrecondition :=
| Absent
| Match (generation : N) (cid : Cid)
| Any.

Inductive NamespaceMutation :=
| Assert (key_hex : string) (precondition : KeyPrecondition)
| Put (key_hex : string) (value_cid : Cid) (value_kind : string) (metadata : gmap string string)
    (precondition : KeyPrecondition)
| Delete (key_hex : string) (precondition : KeyPrecondition).

Inductive PendingMutation :=
| PendingPut (value : MerkleValue) (precondition : KeyPrecondition)
| PendingDelete (precondition : KeyPrecondition).

Record SnapshotTransaction := mkSnapshotTransaction {
  tx_base_revision : N;
  tx_base_root_cid : Cid;
  observed : gmap bytes (option MerkleValue);
  pending : gmap bytes PendingMutation
}.

Record TransactionCommand := mkTransactionCommand {
  base_revision : N;
  base_root_cid : Cid;
  mutations : list NamespaceMutation;
  tx_message : option string
}.

Inductive NamespaceCommand :=
| ApplyTransaction (transaction : TransactionCommand)
| CreateSnapshot (name : string) (revision : option N)
| DeleteSnapshot (name : string)
| Rollback (revision : N) (message : option string).

Record CommandEnvelope := mkEnvelope {
  request_id : string;
  writer_identity : string;
  timestamp_unix_seconds : Z;
  signature_hex : string;
  command : NamespaceCommand
}.

Record ChangedKey := mkChangedKey {
  changed_key_hex : string;
  changed_generation : option N;
  changed_value_cid : option Cid
}.

Record CommitResponse := mkCommitResponse {
  commit_namespace_id : NamespaceId;
  namespace_revision : N;
  commit_root_cid : Cid;
  response_commit_cid : Cid;
  response_changed_keys : list ChangedKey
}.

Record SnapshotResponse := mkSnapshotResponse {
  snapshot_namespace_id : NamespaceId;
  snapshot_response_name : string;
  snapshot_response_revision : N;
  snapshot_response_root : Cid;
  deleted : bool
}.

Inductive CommandResponse :=
| Commit (response : CommitResponse)
| Snapshot (response : SnapshotResponse).

Inductive PinAction := Protect | Release.

Record PinIntent := mkPinIntent { pin_cid : Cid; action : PinAction; reason : string }.

Record ApplyResult := mkApplyResult {
  response : CommandResponse;
  pin_intents : list PinIntent;
  replayed : bool
}.

Record RevisionRecord := mkRevisionRecord {
  revision : N;
  root_cid : Cid;
  commit_cid : option Cid;
  committed_at_unix_seconds : Z
}.

Record NamedSnapshot := mkNamedSnapshot {
  snapshot_name : string;
  snapshot_revision : N;
  snapshot_root_cid : Cid;
  snapshot_commit_cid : option Cid;
  snapshot_created_at : Z
}.

Record IdempotencyRecord := mkIdempotencyRecord {
  command_fingerprint : Cid;
  recorded_response : CommandResponse;
  recorded_pin_intents : list PinIntent;
  applied_revision : N
}.

Record NamespaceState := mkNamespaceState {
  namespace_id : NamespaceId;
  descriptor : NamespaceDescriptor;
  current_revision : N;
  current_root_cid : Cid;
  head_commit_cid : option Cid;
  history : gmap N RevisionRecord;
  named_snapshots : gmap string NamedSnapshot;
  idempotency : gmap string IdempotencyRecord
}.

Record NamespaceCommit := mkNamespaceCommit {
  commit_type : string;
  commit_version : N;
  commit_namespace : NamespaceId;
  new_root_cid : Cid;
  parent_commit_cid : option Cid;
  base_namespace_revision : N;
  new_namespace_revision : N;
  changed_keys : list ChangedKey;
  commit_at_unix_seconds : Z;
  commit_writer_identity : string;
  commit_request_id : string;
  commit_message : option string
}.

Record NamespaceCheckpoint := mkCheckpoint {
  checkpoint_type : string;
  checkpoint_version : N;
  checkpoint_state : NamespaceState;
  checkpoint_at : Z
}.

Record NamespaceCheckpointSegments := mkSegments {
  segments_type : string;
  segments_version : N;
  total_bytes : N;
  segments : list Cid;
  segments_at : Z
}.

Record CheckpointHeader := mkHeader { header_type : string }.

Record CreatedNamespace := mkCreated {
  created_namespace_id : NamespaceId;
  descriptor_cid : Cid;
  created_root_cid : Cid;
  checkpoint_cid : Cid;
  created_state : NamespaceState;
  created_pin_intents : list PinIntent
}.

(** What [canonical_signing_payload] and [idempotency_fingerprint] serialize. *)
Record SigningPayload := mkSigningPayload {
  signing_domain : string;
  signing_namespace_id : NamespaceId;
  signing_request_id : string;
  signing_writer_identity : string;
  signing_timestamp : Z;
  signing_command : NamespaceCommand
}.

Inductive IntentMutation :=
| IntentAssert (key_hex : string)
| IntentPut (key_hex : string) (value_cid : Cid) (value_kind : string) (metadata : gmap string string)
| IntentDelete (key_hex : string).

Inductive IntentCommand :=
| IntentApplyTransaction (mutations : list IntentMutation) (message : option string)
| IntentCreateSnapshot (name : string) (revision : option N)
| IntentDeleteSnapshot (name : string)
| IntentRollback (revision : N) (message : option string).

Record IdempotencyPayload := mkIdempotencyPayload {
  intent_domain : string;
  intent_namespace_id : NamespaceId;
  intent_request_id : string;
  intent_writer_identity : string;
  intent_command : IntentCommand
}.

(** ** Third-party and trait interfaces *)

(** serde_json at the types the crate stores or hashes. *)
Class NamespaceJson := {
  json_descriptor :: Json NamespaceDescriptor;
  json_commit :: Json NamespaceCommit;
  json_checkpoint :: Json NamespaceCheckpoint;
  json_segments :: Json NamespaceCheckpointSegments;
  json_envelope :: Json CommandEnvelope;
  json_signing :: Json SigningPayload;
  json_intent :: Json IdempotencyPayload;
  header_from_slice : bytes → result string CheckpointHeader
}.

(** [CommandAuthorizer] *)
Class CommandAuthorizer := {
  verify : NamespaceId → string → bytes → string → result string unit
}.

Definition AllowAllAuthorizer : CommandAuthorizer := {| verify _ _ _ _ := Ok () |}.

(** [MerkleError]'s [Display] *)
Definition MerkleError_to_string (e : MerkleError) : string :=
  match e with
  | Merkle.InvalidLimits => "invalid Merkle-map limits"
  | Merkle.InvalidNodeCodec codec => "invalid Merkle node codec " +:+ codec
  | Merkle.Read cid message => "failed to read Merkle block " +:+ cid +:+ ": " +:+ message
  | Merkle.Write_ message => "failed to write Merkle block: " +:+ message
  | Merkle.WrongStoredCid expected actual => "Merkle store returned CID " +:+ actual +:+ ", expected " +:+ expected
  | Merkle.HashMismatch cid => "Merkle block " +:+ cid +:+ " failed CID verification"
  | Merkle.InvalidNode message => "invalid Merkle node: " +:+ message
  | Merkle.NonCanonicalNode => "non-canonical Merkle node encoding"
  | Merkle.NodeTooLarge actual limit =>
      "Merkle node is " +:+ fmt_radix 10 actual +:+ " bytes, limit is " +:+ fmt_radix 10 limit
  | Merkle.KeyTooLarge actual limit =>
      "key is " +:+ fmt_radix 10 actual +:+ " bytes, limit is " +:+ fmt_radix 10 limit
  | Merkle.InvalidValue message => "invalid Merkle value: " +:+ message
  | Merkle.UnsortedMutations => "mutation batch must be strictly sorted by unique key"
  | Merkle.InvalidScanLimit limit => "scan limit must be between 1 and " +:+ fmt_radix 10 limit
  | Merkle.InvalidRange => "invalid scan range"
  | Merkle.InvalidCursor message => "invalid scan cursor: " +:+ message
  | Merkle.CursorRootMismatch cursor_root requested_root =>
      "scan cursor belongs to root " +:+ cursor_root +:+ ", not " +:+ requested_root
  | Merkle.CursorQueryMismatch => "scan cursor query does not match the requested range"
  | Merkle.TooDeep limit => "Merkle traversal exceeds depth limit " +:+ fmt_radix 10 limit
  | Merkle.TooManyNodes limit => "Merkle traversal exceeds node limit " +:+ fmt_radix 10 limit
  | Merkle.DuplicateNode cid => "cycle or duplicate node reference detected at " +:+ cid
  | Merkle.Panicked => ""
  end.

(** [impl From<MerkleError> for NamespaceError] *)
Definition from_merkle (e : MerkleError) : NamespaceError :=
  match e with Merkle.Panicked => Panicked | e => Merkle_ (MerkleError_to_string e) end.

(** ** Validation *)

Definition NamespaceLimits_validate (l : NamespaceLimits) : result NamespaceError NamespaceLimits :=
  _ ← fail_if ((max_transaction_mutations l =? 0) || (max_transaction_key_bytes l =? 0)
         || (max_message_bytes l =? 0) || (max_identity_bytes l =? 0) || (max_signature_bytes l =? 0)
         || (max_request_id_bytes l =? 0) || (max_snapshot_name_bytes l =? 0) || (max_named_snapshots l =? 0)
         || (max_retained_revisions l =? 0) || (max_idempotency_records l =? 0)
         || (max_rollback_entries l =? 0))%N InvalidLimits;
  Ok l.

(** [name.chars().any(char::is_control)] on UTF-8: the C0 and C1 controls and DEL. *)
Fixpoint has_control (bs : bytes) : bool :=
  match bs with
  | [] => false
  | b :: rest =>
      (Byte.to_N b <? 32)%N || (Byte.to_N b =? 127)%N
      || ((Byte.to_N b =? 194)%N && is_some_and (λ c, (128 <=? Byte.to_N c)%N && (Byte.to_N c <? 160)%N) (head rest))
      || has_control rest
  end.

Definition validate_snapshot_name (name : string) (limits : NamespaceLimits) : result NamespaceError unit :=
  fail_if (bool_decide (name = "") || (max_snapshot_name_bytes limits <? slen name)%N || has_control (as_bytes name))
    (InvalidCommand "invalid snapshot name").

Definition check_precondition `{Hex} (key : bytes) (current : option MerkleValue) (p : KeyPrecondition)
  : result NamespaceError unit :=
  let matches :=
    match p with
    | Absent => negb (bool_decide (is_Some current))
    | Match g c => is_some_and (λ v, (generation v =? g)%N && bool_decide (Merkle.value_cid v = c)) current
    | Any => true
    end in
  if matches then Ok () else Err (GenerationConflict (hex_encode key)).

Definition same_logical_value (left right : option MerkleValue) : bool :=
  match left, right with
  | None, None => true
  | Some l, Some r =>
      bool_decide (Merkle.value_cid l = Merkle.value_cid r) && bool_decide (Merkle.value_kind l = Merkle.value_kind r)
      && bool_decide (Merkle.metadata l = Merkle.metadata r)
  | _, _ => false
  end.

Definition precondition_for (value : option MerkleValue) : KeyPrecondition :=
  match value with None => Absent | Some v => Match (generation v) (Merkle.value_cid v) end.

(** [value.generation + 1], or the first generation of a new key. *)
Definition next_generation (current : option MerkleValue) : N :=
  match current with None => 1 | Some v => wrapping_add u64_max (generation v) 1 end%N.

Section Namespace.
Context `{Blake3} `{Hex} `{Json Node} `{Json CursorRecord} `{NamespaceJson} `{CommandAuthorizer}.
Context {S : Type} `{MerkleStore S}.

Definition NamespaceId_new (cid : Cid) : result NamespaceError NamespaceId :=
  _ ← fail_if (negb (codec cid =? CODEC_NAMESPACE_DESCRIPTOR)%N) (InvalidCodec (canonical_display (codec cid)));
  Ok (mkNamespaceId cid).

Definition valid_hex_field (value : string) (max_bytes : N) : bool :=
  negb (bool_decide (value = "")) && (slen value <=? max_bytes)%N && (slen value mod 2 =? 0)%N
  && is_Ok (hex_decode value).

(** [initial_replica_set.sort()] *)
Definition NamespaceDescriptor_new (k : NamespaceKind) (replica_set : list string) (identity signature : string)
    (created_at : Z) : NamespaceDescriptor :=
  let sorted := merge_sort String.le replica_set in
  let factor := N.min u16_max (len sorted) in
  {| descriptor_type := DESCRIPTOR_TYPE; descriptor_version := FORMAT_VERSION; kind := k;
     initial_replica_set := sorted; consensus_protocol_version := 1; replication_factor := factor;
     placement_constraints := ∅; durability := mkDurability factor; retention := mkRetention 64 None;
     authorization_policy_cid := None; created_at_unix_seconds := created_at;
     creator_identity := identity; creator_signature_hex := signature |}.

Definition NamespaceDescriptor_validate (d : NamespaceDescriptor) (limits : NamespaceLimits)
  : result NamespaceError unit :=
  _ ← fail_if (negb (bool_decide (descriptor_type d = DESCRIPTOR_TYPE)) || negb (descriptor_version d =? FORMAT_VERSION)%N)
        (InvalidDescriptor "unsupported type or version");
  _ ← fail_if (negb ((len (initial_replica_set d) =? 1)%N || (len (initial_replica_set d) =? 3)%N)
               || negb (replication_factor d =? len (initial_replica_set d))%N
               || (replicas (durability d) =? 0)%N)
        (InvalidDescriptor "namespaces require either one demo voter or exactly three Raft replicas");
  _ ← fail_if (windows_any (λ a b, bytes_leb (as_bytes b) (as_bytes a)) (initial_replica_set d)
               || existsb (λ node, bool_decide (node = "") || (max_identity_bytes limits <? slen node)%N)
                    (initial_replica_set d))
        (InvalidDescriptor "replica IDs must be non-empty, unique, and sorted");
  _ ← fail_if (bool_decide (creator_identity d = "") || (max_identity_bytes limits <? slen (creator_identity d))%N
               || negb (valid_hex_field (creator_signature_hex d) (max_signature_bytes limits))
               || (created_at_unix_seconds d <? 0)%Z)
        (InvalidDescriptor "invalid creator identity, signature, or timestamp");
  _ ← fail_if ((keep_last (retention d) =? 0)%N
               || (max_retained_revisions limits mod (u32_max + 1) <? keep_last (retention d))%N)
        (InvalidDescriptor "retention keep_last is outside configured limits");
  fail_if (existsb (λ kv, bool_decide (kv.1 = "") || bool_decide (kv.2 = "")) (btree_iter (placement_constraints d)))
    (InvalidDescriptor "placement constraints must be non-empty").

Definition validate_envelope (envelope : CommandEnvelope) (limits : NamespaceLimits) : result NamespaceError unit :=
  _ ← fail_if (bool_decide (request_id envelope = "") || (max_request_id_bytes limits <? slen (request_id envelope))%N)
        (InvalidCommand "invalid request ID");
  fail_if (bool_decide (writer_identity envelope = "")
           || (max_identity_bytes limits <? slen (writer_identity envelope))%N
           || negb (valid_hex_field (signature_hex envelope) (max_signature_bytes limits))
           || (timestamp_unix_seconds envelope <? 0)%Z)
    (InvalidCommand "invalid writer identity, signature, or timestamp").

(** ** Canonical encodings *)

Definition canonical_bytes {A} `{Json A} (value : A) : result NamespaceError bytes :=
  map_err InvalidPayload (to_vec value).

Definition decode_canonical {A} `{Json A} (payload : bytes) : result NamespaceError A :=
  value ← map_err InvalidPayload (from_slice payload);
  again ← canonical_bytes value;
  _ ← fail_if (negb (bool_decide (again = payload))) NonCanonical;
  Ok value.

Definition decode_command_envelope (payload : bytes) : result NamespaceError CommandEnvelope :=
  envelope ← decode_canonical payload;
  _ ← validate_envelope envelope NamespaceLimits_default;
  Ok envelope.

Definition canonical_signing_payload (id : NamespaceId) (envelope : CommandEnvelope) : result NamespaceError bytes :=
  canonical_bytes {|
    signing_domain := "pepper.namespace_command.v1"; signing_namespace_id := id;
    signing_request_id := request_id envelope; signing_writer_identity := writer_identity envelope;
    signing_timestamp := timestamp_unix_seconds envelope; signing_command := command envelope |}.

Definition intent_of_mutation (m : NamespaceMutation) : IntentMutation :=
  match m with
  | Assert k _ => IntentAssert k
  | Put k c vk md _ => IntentPut k c vk md
  | Delete k _ => IntentDelete k
  end.

Definition intent_of (c : NamespaceCommand) : IntentCommand :=
  match c with
  | ApplyTransaction t => IntentApplyTransaction (intent_of_mutation <$> mutations t) (tx_message t)
  | CreateSnapshot name r => IntentCreateSnapshot name r
  | DeleteSnapshot name => IntentDeleteSnapshot name
  | Rollback r m => IntentRollback r m
  end.

Definition idempotency_fingerprint (id : NamespaceId) (envelope : CommandEnvelope) : result NamespaceError Cid :=
  payload ← canonical_bytes {|
    intent_domain := "pepper.namespace_idempotency.v1"; intent_namespace_id := id;
    intent_request_id := request_id envelope; intent_writer_identity := writer_identity envelope;
    intent_command := intent_of (command envelope) |};
  Ok (Cid_new CODEC_RAW payload).

Definition put_canonical (k : Codec) (payload : bytes) : stm S NamespaceError Cid :=
  let expected := Cid_new k payload in
  actual ← (λ s, let '(r, s') := store_put k payload s in (map_err Write_ r, s'));
  _ ← lift (fail_if (negb (bool_decide (actual = expected)))
              (WrongStoredCid (Cid_to_string expected) (Cid_to_string actual)));
  mret actual.

(** A Merkle operation inside a namespace operation. *)
Definition merkle {A} (m : stm S MerkleError A) : stm S NamespaceError A := λ s,
  let '(r, s') := m s in (map_err from_merkle r, s').

Definition validate_namespace_state (state : NamespaceState) (limits : NamespaceLimits) : result NamespaceError unit :=
  _ ← NamespaceDescriptor_validate (descriptor state) limits;
  bytes ← canonical_bytes (descriptor state);
  let wrong_commit (c : option Cid) := is_some_and (λ c, negb (codec c =? CODEC_NAMESPACE_COMMIT)%N) c in
  fail_if (negb (bool_decide (id_cid (namespace_id state) = Cid_new CODEC_NAMESPACE_DESCRIPTOR bytes))
           || negb (codec (current_root_cid state) =? CODEC_MERKLE_NODE)%N
           || is_none_or (λ r, negb (bool_decide (root_cid r = current_root_cid state)))
                (history state !! current_revision state)
           || existsb (λ rr, negb (rr.1 =? revision rr.2)%N || negb (codec (root_cid rr.2) =? CODEC_MERKLE_NODE)%N
                             || wrong_commit (commit_cid rr.2)) (map_iter (history state))
           || existsb (λ ns, negb (bool_decide (ns.1 = snapshot_name ns.2))
                             || negb (codec (snapshot_root_cid ns.2) =? CODEC_MERKLE_NODE)%N
                             || wrong_commit (snapshot_commit_cid ns.2)) (btree_iter (named_snapshots state)))
    (InvalidPayload "namespace state is inconsistent").

Definition validate_commit_record (c : NamespaceCommit) : result NamespaceError unit :=
  fail_if (negb (bool_decide (commit_type c = COMMIT_TYPE)) || negb (commit_version c =? FORMAT_VERSION)%N
           || negb (codec (id_cid (commit_namespace c)) =? CODEC_NAMESPACE_DESCRIPTOR)%N
           || negb (codec (new_root_cid c) =? CODEC_MERKLE_NODE)%N
           || is_some_and (λ p, negb (codec p =? CODEC_NAMESPACE_COMMIT)%N) (parent_commit_cid c)
           || (new_namespace_revision c <=? base_namespace_revision c)%N
           || (commit_at_unix_seconds c <? 0)%Z
           || bool_decide (changed_keys c = [])
           || bool_decide (commit_writer_identity c = "")
           || bool_decide (commit_request_id c = "")
           || windows_any (λ a b, bytes_leb (as_bytes (changed_key_hex b)) (as_bytes (changed_key_hex a))) (changed_keys c)
           || existsb (λ e, negb (is_Ok (hex_decode (changed_key_hex e)))
                            || negb (Bool.eqb (bool_decide (is_Some (changed_generation e))) (bool_decide (is_Some (changed_value_cid e))))
                            || bool_decide (changed_generation e = Some 0%N)) (changed_keys c))
    (InvalidPayload "namespace commit is inconsistent").

(** ** Retention *)

Definition revision_root (state : NamespaceState) (rev : option N) : result NamespaceError Cid :=
  let rev := default (current_revision state) rev in
  ok_or (root_cid <$> history state !! rev) (UnknownRevision rev).

(** One root with its commit, as [protected_roots] inserts them. *)
Definition protect (root : Cid) (commit : option Cid) (root_reason commit_reason : string)
    (protected : gmap string string) : gmap string string :=
  let protected := <[Cid_to_string root := root_reason]> protected in
  match commit with
  | Some c => <[Cid_to_string c := commit_reason]> protected
  | None => protected
  end.

(** The oldest revision [keep_last] retains and the cutoff of the age rule. *)
Definition first_retained (state : NamespaceState) : N :=
  saturating_sub (saturating_add u64_max (current_revision state) 1) (keep_last (retention (descriptor state))).

Definition age_cutoff (state : NamespaceState) : option Z :=
  (λ age, saturating_sub_i64
            (from_option committed_at_unix_seconds 0%Z (history state !! current_revision state)) (u64_as_i64 age))
  <$> max_age_seconds (retention (descriptor state)).

Definition retained (state : NamespaceState) (r : RevisionRecord) : bool :=
  (first_retained state <=? revision r)%N
  || is_some_and (λ cutoff, (cutoff <=? committed_at_unix_seconds r)%Z) (age_cutoff state).

Definition protected_roots (state : NamespaceState) : gmap string string :=
  let protected := protect (current_root_cid state) (head_commit_cid state) "namespace_head" "namespace_head_commit" ∅ in
  let protected :=
    foldl (λ acc rr,
        if retained state rr.2 then
          protect (root_cid rr.2) (commit_cid rr.2)
            ("retained_revision:" +:+ fmt_radix 10 (revision rr.2))
            ("retained_commit:" +:+ fmt_radix 10 (revision rr.2)) acc
        else acc) protected (map_iter (history state)) in
  foldl (λ acc ns,
      protect (snapshot_root_cid ns.2) (snapshot_commit_cid ns.2)
        ("named_snapshot:" +:+ snapshot_name ns.2) ("named_snapshot_commit:" +:+ snapshot_name ns.2) acc)
    protected (btree_iter (named_snapshots state)).

(** [action as u8] *)
Definition action_code (a : PinAction) : N := match a with Protect => 0 | Release => 1 end.

Definition intent_le (a b : PinIntent) : Prop :=
  bytes_lt (as_bytes (Cid_to_string (pin_cid a))) (as_bytes (Cid_to_string (pin_cid b)))
  ∨ (Cid_to_string (pin_cid a) = Cid_to_string (pin_cid b) ∧ (action_code (action a) ≤ action_code (action b))%N).

#[global] Instance intent_le_dec (a b : PinIntent) : Decision (intent_le a b).
Proof. unfold intent_le, bytes_lt. apply _. Defined.

(** The intents for the keys of [these] that are not in [those]. *)
Definition missing_intents (act : PinAction) (these those : gmap string string) : list PinIntent :=
  omap (λ cr, if bool_decide (is_Some (those !! cr.1)) then None
              else match Cid_from_str cr.1 with Ok c => Some (mkPinIntent c act cr.2) | Err _ => None end)
    (btree_iter these).

Definition diff_pin_intents (before after : gmap string string) : list PinIntent :=
  merge_sort intent_le (missing_intents Protect after before ++ missing_intents Release before after).

(** The order of [min_by_key] in [prune_idempotency]. *)
Definition older (a b : string * IdempotencyRecord) : bool :=
  (applied_revision a.2 <? applied_revision b.2)%N
  || ((applied_revision a.2 =? applied_revision b.2)%N && bytes_ltb (as_bytes a.1) (as_bytes b.1)).

Definition oldest (best : string * IdempotencyRecord) (l : list (string * IdempotencyRecord)) : string * IdempotencyRecord :=
  foldl (λ best x, if older x best then x else best) best l.

(** The [while] loop; every round removes a record. *)
Fixpoint prune_loop (rounds : nat) (records : gmap string IdempotencyRecord) (limit : N) : gmap string IdempotencyRecord :=
  match rounds with
  | O => records
  | Datatypes.S rounds =>
      if (limit <? N.of_nat (size records))%N then
        match btree_iter records with
        | [] => records
        | x :: l => prune_loop rounds (delete (oldest x l).1 records) limit
        end
      else records
  end.

Definition with_idempotency (state : NamespaceState) (i : gmap string IdempotencyRecord) : NamespaceState :=
  mkNamespaceState (namespace_id state) (descriptor state) (current_revision state) (current_root_cid state)
    (head_commit_cid state) (history state) (named_snapshots state) i.

Definition with_snapshots (state : NamespaceState) (n : gmap string NamedSnapshot) : NamespaceState :=
  mkNamespaceState (namespace_id state) (descriptor state) (current_revision state) (current_root_cid state)
    (head_commit_cid state) (history state) n (idempotency state).

Definition prune_idempotency (state : NamespaceState) (limit : N) : NamespaceState :=
  with_idempotency state (prune_loop (size (idempotency state)) (idempotency state) limit).

(** ** Commands.  Each works on the clone of the state and returns it. *)

Definition NamespaceMutation_key_hex (m : NamespaceMutation) : string :=
  match m with Assert k _ | Put k _ _ _ _ | Delete k _ => k end.

Definition NamespaceMutation_key (m : NamespaceMutation) : result NamespaceError bytes :=
  map_err InvalidMutation (hex_decode (NamespaceMutation_key_hex m)).

Definition NamespaceMutation_precondition (m : NamespaceMutation) : KeyPrecondition :=
  match m with Assert _ p | Put _ _ _ _ p | Delete _ p => p end.

(** One round of the key loop of [validate_transaction]. *)
Definition check_key (acc : option bytes * N) (m : NamespaceMutation) : result NamespaceError (option bytes * N) :=
  key ← NamespaceMutation_key m;
  let total := saturating_add usize_max acc.2 (len key) in
  _ ← fail_if (is_some_and (λ previous, bytes_leb key previous) acc.1)
        (InvalidMutation "mutations must be strictly sorted by unique key");
  Ok (Some key, total).

Definition validate_transaction (state : NamespaceState) (t : TransactionCommand) (limits : NamespaceLimits)
  : result NamespaceError unit :=
  _ ← fail_if (bool_decide (mutations t = [])) EmptyTransaction;
  _ ← fail_if (max_transaction_mutations limits <? len (mutations t))%N
        (InvalidCommand "too many transaction mutations");
  _ ← fail_if (is_some_and (λ m, (max_message_bytes limits <? slen m)%N) (tx_message t))
        (InvalidCommand "commit message exceeds limit");
  base ← ok_or (history state !! base_revision t) StaleSnapshot;
  _ ← fail_if (negb (bool_decide (root_cid base = base_root_cid t)) || (current_revision state <? base_revision t)%N)
        StaleSnapshot;
  acc ← try_foldl check_key (None, 0%N) (mutations t);
  fail_if (max_transaction_key_bytes limits <? acc.2)%N (InvalidMutation "transaction key bytes exceed limit").

Record CommitDraft := mkDraft {
  draft_mutations : list Mutation;
  draft_changed_keys : list ChangedKey;
  draft_base_revision : N;
  draft_message : option string
}.

Definition commit_merkle_mutations (state : NamespaceState) (draft : CommitDraft) (envelope : CommandEnvelope)
    (merkle_limits : MerkleLimits) : stm S NamespaceError (CommitResponse * NamespaceState) :=
  _ ← lift (fail_if (bool_decide (draft_mutations draft = [])) NoChanges);
  new_root ← merkle (apply_batch (current_root_cid state) (draft_mutations draft) merkle_limits);
  let new_revision := saturating_add u64_max (current_revision state) 1 in
  let commit := {|
    commit_type := COMMIT_TYPE; commit_version := FORMAT_VERSION; commit_namespace := namespace_id state;
    new_root_cid := new_root; parent_commit_cid := head_commit_cid state;
    base_namespace_revision := draft_base_revision draft; new_namespace_revision := new_revision;
    changed_keys := draft_changed_keys draft; commit_at_unix_seconds := timestamp_unix_seconds envelope;
    commit_writer_identity := writer_identity envelope; commit_request_id := request_id envelope;
    commit_message := draft_message draft |} in
  payload ← lift (canonical_bytes commit);
  cid ← put_canonical CODEC_NAMESPACE_COMMIT payload;
  mret (mkCommitResponse (namespace_id state) new_revision new_root cid (draft_changed_keys draft),
        {| namespace_id := namespace_id state; descriptor := descriptor state;
           current_revision := new_revision; current_root_cid := new_root; head_commit_cid := Some cid;
           history := <[new_revision := mkRevisionRecord new_revision new_root (Some cid)
                                          (timestamp_unix_seconds envelope)]> (history state);
           named_snapshots := named_snapshots state; idempotency := idempotency state |}).

(** The loop body of [apply_transaction]: read the key, check the precondition,
    extend the batch and the list of changes. *)
Definition plan_mutation (s : S) (root : Cid) (merkle_limits : MerkleLimits)
    (acc : list Mutation * list ChangedKey) (m : NamespaceMutation)
  : result NamespaceError (list Mutation * list ChangedKey) :=
  key ← NamespaceMutation_key m;
  current ← map_err from_merkle (get s root key merkle_limits);
  _ ← check_precondition key current (NamespaceMutation_precondition m);
  match m with
  | Assert _ _ => Ok acc
  | Put _ c vk md _ =>
      let g := next_generation current in
      Ok (acc.1 ++ [Merkle.Put key (mkValue c g vk md)],
          acc.2 ++ [mkChangedKey (hex_encode key) (Some g) (Some c)])
  | Delete _ _ =>
      _ ← fail_if (negb (bool_decide (is_Some current))) NoChanges;
      Ok (acc.1 ++ [Merkle.Delete key], acc.2 ++ [mkChangedKey (hex_encode key) None None])
  end.

Definition apply_transaction (state : NamespaceState) (t : TransactionCommand) (envelope : CommandEnvelope)
    (limits : NamespaceLimits) (merkle_limits : MerkleLimits)
  : stm S NamespaceError (CommitResponse * NamespaceState) :=
  _ ← lift (validate_transaction state t limits);
  planned ← reads (λ s, try_foldl (plan_mutation s (current_root_cid state) merkle_limits) ([], []) (mutations t));
  commit_merkle_mutations state (mkDraft planned.1 planned.2 (base_revision t) (tx_message t)) envelope merkle_limits.

Definition create_snapshot (state : NamespaceState) (name : string) (rev : option N) (created_at : Z)
    (limits : NamespaceLimits) : result NamespaceError (SnapshotResponse * NamespaceState) :=
  _ ← validate_snapshot_name name limits;
  _ ← fail_if (bool_decide (is_Some (named_snapshots state !! name))) (SnapshotExists name);
  _ ← fail_if (max_named_snapshots limits <=? N.of_nat (size (named_snapshots state)))%N
        (InvalidCommand "named snapshot limit reached");
  let rev := default (current_revision state) rev in
  record ← ok_or (history state !! rev) (UnknownRevision rev);
  let snapshot := mkNamedSnapshot name rev (root_cid record) (commit_cid record) created_at in
  Ok (mkSnapshotResponse (namespace_id state) name rev (root_cid record) false,
      with_snapshots state (<[name := snapshot]> (named_snapshots state))).

Definition delete_snapshot (state : NamespaceState) (name : string)
  : result NamespaceError (SnapshotResponse * NamespaceState) :=
  snapshot ← ok_or (named_snapshots state !! name) (SnapshotNotFound name);
  Ok (mkSnapshotResponse (namespace_id state) name (snapshot_revision snapshot) (snapshot_root_cid snapshot) true,
      with_snapshots state (delete name (named_snapshots state))).

(** [read_all]: a page per round, each of which reads at least one more entry or
    is the last one, so [limit + 2] rounds are enough. *)
Fixpoint read_all_loop (rounds : nat) (s : S) (root : Cid) (limit : N) (merkle_limits : MerkleLimits)
    (values : gmap bytes MerkleValue) (cursor : option string)
  : result NamespaceError (gmap bytes MerkleValue) :=
  match rounds with
  | O => Err Panicked
  | Datatypes.S rounds =>
      let remaining := saturating_sub (saturating_add usize_max limit 1) (N.of_nat (size values)) in
      _ ← fail_if (remaining =? 0)%N (RollbackTooLarge limit);
      page ← map_err from_merkle (scan s root
               (mkQuery None None None (N.min remaining (max_scan_entries merkle_limits)) cursor) merkle_limits);
      let values := foldl (λ vs e, <[entry_key e := entry_value e]> vs) values (page_entries page) in
      _ ← fail_if (limit <? N.of_nat (size values))%N (RollbackTooLarge limit);
      match next_cursor page with
      | None => Ok values
      | Some next => read_all_loop rounds s root limit merkle_limits values (Some next)
      end
  end.

Definition read_all (s : S) (root : Cid) (limit : N) (merkle_limits : MerkleLimits)
  : result NamespaceError (gmap bytes MerkleValue) :=
  read_all_loop (N.to_nat (limit + 2)) s root limit merkle_limits ∅ None.

(** The loop body of [rollback]. *)
Definition plan_restore (current target : gmap bytes MerkleValue) (acc : list Mutation * list ChangedKey) (key : bytes)
  : list Mutation * list ChangedKey :=
  if same_logical_value (current !! key) (target !! key) then acc
  else
    match target !! key with
    | Some v =>
        let g := next_generation (current !! key) in
        (acc.1 ++ [Merkle.Put key (mkValue (Merkle.value_cid v) g (Merkle.value_kind v) (Merkle.metadata v))],
         acc.2 ++ [mkChangedKey (hex_encode key) (Some g) (Some (Merkle.value_cid v))])
    | None => (acc.1 ++ [Merkle.Delete key], acc.2 ++ [mkChangedKey (hex_encode key) None None])
    end.

Definition rollback (state : NamespaceState) (rev : N) (message : option string) (envelope : CommandEnvelope)
    (limits : NamespaceLimits) (merkle_limits : MerkleLimits)
  : stm S NamespaceError (CommitResponse * NamespaceState) :=
  target ← lift (ok_or (history state !! rev) (UnknownRevision rev));
  current ← reads (λ s, read_all s (current_root_cid state) (max_rollback_entries limits) merkle_limits);
  target_values ← reads (λ s, read_all s (root_cid target) (max_rollback_entries limits) merkle_limits);
  let keys := bytes_set_iter (dom current ∪ dom target_values) in
  _ ← lift (fail_if (max_rollback_entries limits <? len keys)%N (RollbackTooLarge (max_rollback_entries limits)));
  let planned := foldl (plan_restore current target_values) ([], []) keys in
  commit_merkle_mutations state
    (mkDraft planned.1 planned.2 (current_revision state)
       (Some (default ("rollback to revision " +:+ fmt_radix 10 rev) message))) envelope merkle_limits.

Definition run_command (state : NamespaceState) (envelope : CommandEnvelope)
    (limits : NamespaceLimits) (merkle_limits : MerkleLimits)
  : stm S NamespaceError (CommandResponse * NamespaceState) :=
  match command envelope with
  | ApplyTransaction t =>
      '(r, next) ← apply_transaction state t envelope limits merkle_limits; mret (Commit r, next)
  | CreateSnapshot name rev =>
      '(r, next) ← lift (create_snapshot state name rev (timestamp_unix_seconds envelope) limits);
      mret (Snapshot r, next)
  | DeleteSnapshot name => '(r, next) ← lift (delete_snapshot state name); mret (Snapshot r, next)
  | Rollback rev message =>
      '(r, next) ← rollback state rev message envelope limits merkle_limits; mret (Commit r, next)
  end.

(** ** Checkpoints *)

Definition CHECKPOINT_SEGMENT_MAX_BYTES : N := 3 * 1024 * 1024.

Fixpoint put_segments (pieces : list bytes) : stm S NamespaceError (list Cid) :=
  match pieces with
  | [] => mret []
  | piece :: pieces =>
      cid ← put_canonical CODEC_NAMESPACE_CHECKPOINT piece;
      cids ← put_segments pieces;
      mret (cid :: cids)
  end.

Definition write_checkpoint_with_segment_limit (state : NamespaceState) (created_at : Z) (segment_limit : N)
  : stm S NamespaceError Cid :=
  _ ← lift (fail_if (created_at <? 0)%Z (InvalidCommand "invalid checkpoint timestamp"));
  bytes ← lift (canonical_bytes (mkCheckpoint CHECKPOINT_TYPE FORMAT_VERSION state created_at));
  if (len bytes <=? segment_limit)%N then put_canonical CODEC_NAMESPACE_CHECKPOINT bytes
  else
    cids ← put_segments (chunks (length bytes) (N.to_nat segment_limit) bytes);
    manifest ← lift (canonical_bytes (mkSegments CHECKPOINT_SEGMENTS_TYPE FORMAT_VERSION (len bytes) cids created_at));
    put_canonical CODEC_NAMESPACE_CHECKPOINT manifest.

Definition write_checkpoint (state : NamespaceState) (created_at : Z) : stm S NamespaceError Cid :=
  write_checkpoint_with_segment_limit state created_at CHECKPOINT_SEGMENT_MAX_BYTES.

Definition load_segment (s : S) (assembled : bytes) (cid : Cid) : result NamespaceError bytes :=
  segment ← map_err (Read (Cid_to_string cid)) (store_get s cid);
  _ ← fail_if (negb (Cid_verify cid segment)) (InvalidPayload "checkpoint segment CID mismatch");
  Ok (assembled ++ segment).

(** The payload of a checkpoint, reassembled when it was split. *)
Definition assemble_checkpoint (s : S) (payload : bytes) : result NamespaceError bytes :=
  match header_from_slice payload with
  | Ok header =>
      if bool_decide (header_type header = CHECKPOINT_SEGMENTS_TYPE) then
        manifest ← decode_canonical (A := NamespaceCheckpointSegments) payload;
        _ ← fail_if (negb (segments_version manifest =? FORMAT_VERSION)%N)
              (InvalidPayload "unsupported checkpoint manifest");
        assembled ← try_foldl (load_segment s) [] (segments manifest);
        _ ← fail_if (negb (len assembled =? total_bytes manifest)%N)
              (InvalidPayload "checkpoint segments do not reassemble to the recorded size");
        Ok assembled
      else Ok payload
  | Err _ => Ok payload
  end.

Definition load_checkpoint (s : S) (cid : Cid) (limits : NamespaceLimits) : result NamespaceError NamespaceState :=
  _ ← fail_if (negb (codec cid =? CODEC_NAMESPACE_CHECKPOINT)%N) (InvalidCodec (canonical_display (codec cid)));
  payload ← map_err (Read (Cid_to_string cid)) (store_get s cid);
  _ ← fail_if (negb (Cid_verify cid payload)) (InvalidPayload "checkpoint CID mismatch");
  payload ← assemble_checkpoint s payload;
  checkpoint ← decode_canonical (A := NamespaceCheckpoint) payload;
  _ ← fail_if (negb (bool_decide (checkpoint_type checkpoint = CHECKPOINT_TYPE))
               || negb (checkpoint_version checkpoint =? FORMAT_VERSION)%N)
        (InvalidPayload "unsupported checkpoint");
  limits ← NamespaceLimits_validate limits;
  _ ← validate_namespace_state (checkpoint_state checkpoint) limits;
  Ok (checkpoint_state checkpoint).

(** ** The state machine *)

Definition create_namespace (d : NamespaceDescriptor) (limits : NamespaceLimits) (merkle_limits : MerkleLimits)
  : stm S NamespaceError CreatedNamespace :=
  limits ← lift (NamespaceLimits_validate limits);
  _ ← lift (NamespaceDescriptor_validate d limits);
  descriptor_bytes ← lift (canonical_bytes d);
  cid ← put_canonical CODEC_NAMESPACE_DESCRIPTOR descriptor_bytes;
  id ← lift (NamespaceId_new cid);
  root ← merkle (empty_root merkle_limits);
  let state := {|
    namespace_id := id; descriptor := d; current_revision := 0; current_root_cid := root; head_commit_cid := None;
    history := {[0%N := mkRevisionRecord 0 root None (created_at_unix_seconds d)]};
    named_snapshots := ∅; idempotency := ∅ |} in
  checkpoint ← write_checkpoint state (created_at_unix_seconds d);
  mret {| created_namespace_id := id; descriptor_cid := cid; created_root_cid := root; checkpoint_cid := checkpoint;
          created_state := state;
          created_pin_intents := [mkPinIntent checkpoint Protect "namespace_genesis_checkpoint"] |}.

Record NamespaceStateMachine := mkMachine {
  store : S;
  state : NamespaceState;
  namespace_limits : NamespaceLimits;
  merkle_limits : MerkleLimits
}.

Definition with_state (m : NamespaceStateMachine) (st : NamespaceState) : NamespaceStateMachine :=
  mkMachine (store m) st (namespace_limits m) (merkle_limits m).

Definition with_authorizer (s : S) (st : NamespaceState) (limits : NamespaceLimits) (merkle_limits : MerkleLimits)
  : result NamespaceError NamespaceStateMachine :=
  limits ← NamespaceLimits_validate limits;
  _ ← NamespaceDescriptor_validate (descriptor st) limits;
  _ ← validate_namespace_state st limits;
  Ok (mkMachine s st limits merkle_limits).

(** An operation on the store of the machine. *)
Definition on_store {A} (f : NamespaceStateMachine → stm S NamespaceError A)
  : stm NamespaceStateMachine NamespaceError A := λ m,
  let '(r, s') := f m (store m) in (r, mkMachine s' (state m) (namespace_limits m) (merkle_limits m)).

(** The envelope with the commit timestamp derived from consensus order. *)
Definition stamped (st : NamespaceState) (envelope : CommandEnvelope) : CommandEnvelope :=
  match history st !! current_revision st with
  | Some record =>
      mkEnvelope (request_id envelope) (writer_identity envelope)
        (Z.max (timestamp_unix_seconds envelope) (committed_at_unix_seconds record))
        (signature_hex envelope) (command envelope)
  | None => envelope
  end.

Definition apply (envelope : CommandEnvelope) : stm NamespaceStateMachine NamespaceError ApplyResult :=
  _ ← reads (λ m, validate_envelope envelope (namespace_limits m));
  signing_payload ← reads (λ m, canonical_signing_payload (namespace_id (state m)) envelope);
  _ ← reads (λ m, map_err Unauthorized
        (verify (namespace_id (state m)) (writer_identity envelope) signing_payload (signature_hex envelope)));
  fingerprint ← reads (λ m, idempotency_fingerprint (namespace_id (state m)) envelope);
  existing ← reads (λ m, Ok (idempotency (state m) !! request_id envelope));
  match existing with
  | Some record =>
      _ ← lift (fail_if (negb (bool_decide (command_fingerprint record = fingerprint))) IdempotencyConflict);
      mret (mkApplyResult (recorded_response record) (recorded_pin_intents record) true)
  | None =>
      before ← reads (λ m, Ok (protected_roots (state m)));
      done ← on_store (λ m, run_command (state m) (stamped (state m) envelope) (namespace_limits m) (merkle_limits m));
      let '(response, next) := done : CommandResponse * NamespaceState in
      let pins := diff_pin_intents before (protected_roots next) in
      let next := with_idempotency next
        (<[request_id envelope := mkIdempotencyRecord fingerprint response pins (current_revision next)]>
           (idempotency next)) in
      _ ← modify (λ m, with_state m (prune_idempotency next (max_idempotency_records (namespace_limits m))));
      mret (mkApplyResult response pins false)
  end.

Definition machine_get (m : NamespaceStateMachine) (rev : option N) (key : bytes)
  : result NamespaceError (option MerkleValue) :=
  root ← revision_root (state m) rev;
  map_err from_merkle (get (store m) root key (merkle_limits m)).

Definition machine_scan (m : NamespaceStateMachine) (rev : option N) (query : ScanQuery)
  : result NamespaceError ScanPage :=
  root ← revision_root (state m) rev;
  map_err from_merkle (scan (store m) root query (merkle_limits m)).

Definition checkpoint (created_at : Z) : stm NamespaceStateMachine NamespaceError Cid :=
  on_store (λ m, write_checkpoint (state m) created_at).

(** ** Lookups by request *)

Definition head_projection (st : NamespaceState) : NamespaceState :=
  mkNamespaceState (namespace_id st) (descriptor st) (current_revision st) (current_root_cid st)
    (head_commit_cid st) ∅ ∅ ∅.

Definition idempotent_apply_result_for (st : NamespaceState) (envelope : CommandEnvelope)
  : result NamespaceError (option ApplyResult) :=
  match idempotency st !! request_id envelope with
  | None => Ok None
  | Some record =>
      fingerprint ← idempotency_fingerprint (namespace_id st) envelope;
      _ ← fail_if (negb (bool_decide (command_fingerprint record = fingerprint))) IdempotencyConflict;
      Ok (Some (mkApplyResult (recorded_response record) (recorded_pin_intents record) true))
  end.

Definition idempotent_response_for (st : NamespaceState) (envelope : CommandEnvelope)
  : result NamespaceError (option CommandResponse) :=
  match idempotency st !! request_id envelope with
  | None => Ok None
  | Some record =>
      fingerprint ← idempotency_fingerprint (namespace_id st) envelope;
      _ ← fail_if (negb (bool_decide (command_fingerprint record = fingerprint))) IdempotencyConflict;
      Ok (Some (recorded_response record))
  end.

Definition idempotent_response (st : NamespaceState) (id : string) : option CommandResponse :=
  recorded_response <$> idempotency st !! id.

(** ** Client-side transactions *)

Definition SnapshotTransaction_new (st : NamespaceState) : SnapshotTransaction :=
  mkSnapshotTransaction (current_revision st) (current_root_cid st) ∅ ∅.

Definition tx_observe (s : S) (key : bytes) (limits : MerkleLimits)
  : stm SnapshotTransaction NamespaceError (option MerkleValue) :=
  known ← reads (λ tx, Ok (observed tx !! key));
  match known with
  | Some value => mret value
  | None =>
      value ← reads (λ tx, map_err from_merkle (get s (tx_base_root_cid tx) key limits));
      _ ← modify (λ tx, mkSnapshotTransaction (tx_base_revision tx) (tx_base_root_cid tx)
                          (<[key := value]> (observed tx)) (pending tx));
      mret value
  end.

Definition tx_get (s : S) (key : bytes) (limits : MerkleLimits)
  : stm SnapshotTransaction NamespaceError (option MerkleValue) :=
  written ← reads (λ tx, Ok (pending tx !! key));
  match written with
  | Some (PendingPut value _) => mret (Some value)
  | Some (PendingDelete _) => mret None
  | None => tx_observe s key limits
  end.

Definition set_pending (key : bytes) (p : option PendingMutation) (tx : SnapshotTransaction) : SnapshotTransaction :=
  mkSnapshotTransaction (tx_base_revision tx) (tx_base_root_cid tx) (observed tx)
    (match p with Some p => <[key := p]> (pending tx) | None => delete key (pending tx) end).

Definition tx_put (s : S) (key : bytes) (c : Cid) (vk : string) (md : gmap string string) (limits : MerkleLimits)
  : stm SnapshotTransaction NamespaceError unit :=
  seen ← tx_observe s key limits;
  modify (set_pending key (Some (PendingPut (mkValue c (next_generation seen) vk md) (precondition_for seen)))).

Definition tx_delete (s : S) (key : bytes) (limits : MerkleLimits) : stm SnapshotTransaction NamespaceError unit :=
  seen ← tx_observe s key limits;
  modify (set_pending key (match seen with None => None | Some _ => Some (PendingDelete (precondition_for seen)) end)).

Definition pending_mutation (kp : bytes * PendingMutation) : NamespaceMutation :=
  match kp.2 with
  | PendingPut v p => Put (hex_encode kp.1) (Merkle.value_cid v) (Merkle.value_kind v) (Merkle.metadata v) p
  | PendingDelete p => Delete (hex_encode kp.1) p
  end.

Definition into_command (tx : SnapshotTransaction) (message : option string) : TransactionCommand :=
  mkTransactionCommand (tx_base_revision tx) (tx_base_root_cid tx) (pending_mutation <$> bytes_iter (pending tx)) message.

(** ** Links of the stored blocks *)

(** [NamespaceError]'s [Display] *)
Definition NamespaceError_to_string (e : NamespaceError) : string :=
  match e with
  | InvalidLimits => "invalid namespace limits"
  | InvalidCodec c => "invalid namespace codec " +:+ c
  | InvalidDescriptor m => "invalid namespace descriptor: " +:+ m
  | InvalidCommand m => "invalid namespace command: " +:+ m
  | InvalidMutation m => "invalid namespace mutation: " +:+ m
  | Unauthorized m => "namespace command is not authorized: " +:+ m
  | Read cid m => "namespace store read failed for " +:+ cid +:+ ": " +:+ m
  | Write_ m => "namespace store write failed: " +:+ m
  | WrongStoredCid expected actual => "namespace store returned CID " +:+ actual +:+ ", expected " +:+ expected
  | NonCanonical => "non-canonical namespace payload"
  | InvalidPayload m => "namespace payload is invalid: " +:+ m
  | Merkle_ m => "Merkle operation failed: " +:+ m
  | UnknownRevision r => "snapshot revision " +:+ fmt_radix 10 r +:+ " is not known"
  | StaleSnapshot => "transaction base revision/root is stale or mismatched"
  | GenerationConflict k => "generation conflict for key " +:+ k
  | EmptyTransaction => "transaction contains no mutations"
  | NoChanges => "transaction produced no state change"
  | IdempotencyConflict => "request ID was previously used for a different command"
  | SnapshotExists n => "named snapshot " +:+ n +:+ " already exists"
  | SnapshotNotFound n => "named snapshot " +:+ n +:+ " does not exist"
  | RollbackTooLarge n => "rollback exceeds the " +:+ fmt_radix 10 n +:+ "-entry limit"
  | Panicked => ""
  end.

Definition dag_error (k : Codec) (e : NamespaceError) : DagError :=
  DagInvalidPayload (canonical_display k) (NamespaceError_to_string e).

Definition decode_for_dag {A} `{Json A} (payload : bytes) (k : Codec) : result DagError A :=
  map_err (dag_error k) (decode_canonical payload).

Definition descriptor_links (payload : bytes) : result DagError (list Cid) :=
  d ← decode_for_dag (A := NamespaceDescriptor) payload CODEC_NAMESPACE_DESCRIPTOR;
  _ ← map_err (dag_error CODEC_NAMESPACE_DESCRIPTOR) (NamespaceDescriptor_validate d NamespaceLimits_default);
  Ok (option_list (authorization_policy_cid d)).

Definition commit_links (payload : bytes) : result DagError (list Cid) :=
  c ← decode_for_dag (A := NamespaceCommit) payload CODEC_NAMESPACE_COMMIT;
  _ ← map_err (dag_error CODEC_NAMESPACE_COMMIT) (validate_commit_record c);
  Ok [new_root_cid c].

Definition checkpoint_links (payload : bytes) : result DagError (list Cid) :=
  match header_from_slice payload with
  | Err _ => Ok []
  | Ok header =>
      if bool_decide (header_type header = CHECKPOINT_SEGMENTS_TYPE) then
        manifest ← decode_for_dag (A := NamespaceCheckpointSegments) payload CODEC_NAMESPACE_CHECKPOINT;
        Ok (segments manifest)
      else
        c ← decode_for_dag (A := NamespaceCheckpoint) payload CODEC_NAMESPACE_CHECKPOINT;
        _ ← fail_if (negb (bool_decide (checkpoint_type c = CHECKPOINT_TYPE))
                     || negb (checkpoint_version c =? FORMAT_VERSION)%N)
              (DagInvalidPayload (canonical_display CODEC_NAMESPACE_CHECKPOINT) "unsupported checkpoint type or version");
        _ ← map_err (dag_error CODEC_NAMESPACE_CHECKPOINT)
              (validate_namespace_state (checkpoint_state c) NamespaceLimits_default);
        let id := id_cid (namespace_id (checkpoint_state c)) in
        let links : gmap string Cid := {[Cid_to_string id := id]} in
        let links := foldl (λ acc cr, match Cid_from_str cr.1 with Ok c => <[Cid_to_string c := c]> acc | Err _ => acc end)
                       links (btree_iter (protected_roots (checkpoint_state c))) in
        Ok ((btree_iter links).*2)
  end.

End Namespace.

Arguments NamespaceStateMachine : clear implicits.
