(* ===== verification/NamespaceFacts.v ===== *)
(** * Namespace commands refine operations on finite maps (crates/pepper-namespace)

    A namespace whose roots hold maps is updated by a transaction exactly as the
    map is: preconditions are checked against the current map, the writes happen
    together or not at all, and the only other failures are refused writes.  The
    proofs use the Merkle map through its contract. *)
From stdpp Require Import base gmap sets list strings sorting.
From Stdlib Require Import Strings.Byte.
From S2P Require Import Prelude Types Merkle MerkleTree MerkleRefinement MerkleScan MerkleMap MerkleInterface Namespace.

(** ** The specification of a transaction on a map *)

Section Spec.
Context `{Hex}.

Definition mutation_key (mu : NamespaceMutation) : bytes :=
  match NamespaceMutation_key mu with Ok key => key | Err _ => [] end.

Definition precondition_holds (current : option MerkleValue) (p : KeyPrecondition) : Prop :=
  match p with
  | Absent => current = None
  | Match g c => ∃ v, current = Some v ∧ generation v = g ∧ Merkle.value_cid v = c
  | Any => True
  end.

#[global] Instance precondition_holds_dec current p : Decision (precondition_holds current p).
Proof.
  destruct p as [|g c|]; simpl; [apply _| |apply _].
  destruct current as [v|]; [|right; by intros (? & ? & _)].
  destruct (decide (generation v = g)); [|right; intros (? & [= <-] & ? & _); done].
  destruct (decide (Merkle.value_cid v = c)); [left; by exists v|right; intros (? & [= <-] & _ & ?); done].
Defined.

(** Why a mutation cannot be applied to the map, if it cannot. *)
Definition offence (m : gmap bytes MerkleValue) (mu : NamespaceMutation) : option NamespaceError :=
  let key := mutation_key mu in
  if decide (precondition_holds (m !! key) (NamespaceMutation_precondition mu)) then
    match mu, m !! key with Delete _ _, None => Some NoChanges | _, _ => None end
  else Some (GenerationConflict (hex_encode key)).

(** What it writes: the generation is the successor of the one in the map before
    the transaction. *)
Definition effect (m acc : gmap bytes MerkleValue) (mu : NamespaceMutation) : gmap bytes MerkleValue :=
  let key := mutation_key mu in
  match mu with
  | Assert _ _ => acc
  | Put _ c vk md _ => <[key := mkValue c (next_generation (m !! key)) vk md]> acc
  | Delete _ _ => delete key acc
  end.

Definition writes (mu : NamespaceMutation) : bool := match mu with Assert _ _ => false | _ => true end.

Definition transact (m : gmap bytes MerkleValue) (ms : list NamespaceMutation)
  : result NamespaceError (gmap bytes MerkleValue) :=
  match omap (offence m) ms with
  | e :: _ => Err e
  | [] => if existsb writes ms then Ok (foldl (effect m) m ms) else Err NoChanges
  end.

(** The mutation fits the limits of the map. *)
Definition admissible (ml : MerkleLimits) (m : gmap bytes MerkleValue) (mu : NamespaceMutation) : Prop :=
  NamespaceMutation_key mu = Ok (mutation_key mu) ∧ (len (mutation_key mu) ≤ max_key_bytes ml)%N
  ∧ match mu with
    | Put _ c vk md _ => validate_value (mkValue c (next_generation (m !! mutation_key mu)) vk md) ml = Ok ()
    | _ => True
    end.

(** The Merkle batch and the list of changes of a transaction. *)
Definition batch_of (m : gmap bytes MerkleValue) (mu : NamespaceMutation) : option Mutation :=
  let key := mutation_key mu in
  match mu with
  | Assert _ _ => None
  | Put _ c vk md _ => Some (Merkle.Put key (mkValue c (next_generation (m !! key)) vk md))
  | Delete _ _ => Some (Merkle.Delete key)
  end.

Definition change_of (m : gmap bytes MerkleValue) (mu : NamespaceMutation) : option ChangedKey :=
  let key := mutation_key mu in
  match mu with
  | Assert _ _ => None
  | Put _ c _ _ _ => Some (mkChangedKey (hex_encode key) (Some (next_generation (m !! key))) (Some c))
  | Delete _ _ => Some (mkChangedKey (hex_encode key) None None)
  end.

Lemma batch_effect m ms acc : foldl mutate acc (omap (batch_of m) ms) = foldl (effect m) acc ms.
Proof. revert acc. induction ms as [|[] ms IH]; intros acc; simpl; [done|..]; apply IH. Qed.

Lemma check_precondition_spec key current p :
  check_precondition key current p
  = if decide (precondition_holds current p) then Ok () else Err (GenerationConflict (hex_encode key)).
Proof.
  unfold check_precondition. destruct (decide (precondition_holds current p)) as [Hp|Hp]; destruct p as [|g c|]; simpl in *.
  - by subst.
  - destruct Hp as (v & -> & <- & <-). simpl. by rewrite N.eqb_refl, bool_decide_true.
  - done.
  - by destruct current.
  - destruct current as [v|]; [|done]. simpl. destruct (N.eqb_spec (generation v) g); [|done].
    rewrite bool_decide_false; [done|]. intros Hc. apply Hp. by exists v.
  - done.
Qed.

(** Keys checked by [validate_transaction] are strictly sorted. *)
Lemma check_keys_sorted ms prev total acc :
  try_foldl check_key (prev, total) ms = Ok acc →
  Forall (λ mu, NamespaceMutation_key mu = Ok (mutation_key mu)) ms
  ∧ StronglySorted bytes_lt (mutation_key <$> ms)
  ∧ ∀ p, prev = Some p → Forall (bytes_lt p) (mutation_key <$> ms).
Proof.
  revert prev total. induction ms as [|mu ms IH]; intros prev total; simpl; [intros _; split_and!; constructor|].
  intros (next & Hmu & Hrest)%bind_Ok. unfold check_key in Hmu. apply bind_Ok in Hmu as (key & Hkey & Hmu).
  apply bind_Ok in Hmu as ([] & Hlt%fail_if_Ok & [= <-]). apply IH in Hrest as (Hkeys & Hs & Hfa).
  assert (mutation_key mu = key) as Hmk by (unfold mutation_key; by rewrite Hkey).
  rewrite Hmk. split_and!; [by constructor; [rewrite Hkey, Hmk|]|constructor; [done|by apply Hfa]|].
  intros p ->. simpl in Hlt. assert (bytes_lt p key) as Hp.
  { unfold bytes_leb in Hlt. by apply negb_false_iff in Hlt. }
  constructor; [done|]. eapply Forall_impl; [by apply Hfa|]. intros k Hk. by eapply bytes_lt_trans.
Qed.

Lemma validate_transaction_keys st t limits :
  validate_transaction st t limits = Ok () →
  Forall (λ mu, NamespaceMutation_key mu = Ok (mutation_key mu)) (mutations t)
  ∧ StronglySorted bytes_lt (mutation_key <$> mutations t).
Proof.
  unfold validate_transaction. intros Hv. repeat (apply bind_Ok in Hv as (? & ? & Hv)).
  match goal with H : try_foldl check_key _ _ = _ |- _ => apply check_keys_sorted in H as (? & ? & _) end. done.
Qed.

(** Mutations drawn from a list with sorted keys form a valid batch. *)
Lemma sorted_batch {A} (key : A → bytes) (f : A → option Mutation) ml l prev :
  (∀ a mu, a ∈ l → f a = Some mu →
     Mutation_key mu = key a ∧ (len (key a) ≤ max_key_bytes ml)%N
     ∧ match mu with Merkle.Put _ w => validate_value w ml | Merkle.Delete _ => Ok () end = Ok ()) →
  StronglySorted bytes_lt (key <$> l) → (∀ p, prev = Some p → Forall (bytes_lt p) (key <$> l)) →
  ∃ last, try_foldl (check_mutation ml) prev (omap f l) = Ok last.
Proof.
  revert prev. induction l as [|a l IH]; intros prev Hf Hs Hprev; [by exists prev|].
  simpl in Hs. inversion Hs as [|? ? Hs' Hlt]; subst.
  assert (∀ a' mu, a' ∈ l → f a' = Some mu →
     Mutation_key mu = key a' ∧ (len (key a') ≤ max_key_bytes ml)%N
     ∧ match mu with Merkle.Put _ w => validate_value w ml | Merkle.Delete _ => Ok () end = Ok ()) as Hf'.
  { intros a' mu Ha'. apply Hf. by right. }
  simpl. destruct (f a) as [mu|] eqn:Hfa.
  - destruct (Hf a mu) as (Hk & Hlen & Hv); [left|done|].
    assert (check_mutation ml prev mu = Ok (Some (key a))) as Hchk.
    { unfold check_mutation, validate_key. rewrite Hk.
      rewrite (proj2 (N.ltb_ge (max_key_bytes ml) (len (key a))) Hlen). simpl. rewrite Hv. simpl.
      destruct prev as [p|]; [|done]. simpl. specialize (Hprev p eq_refl). apply Forall_cons in Hprev as [Hp _].
      unfold bytes_leb. unfold bytes_lt in Hp. by rewrite Hp. }
    cbn [try_foldl]. rewrite Hchk. simpl. apply IH; [done|done|]. by intros q [= <-].
  - apply IH; [done|done|]. intros q ->. specialize (Hprev q eq_refl). by apply Forall_cons in Hprev as [_ ?].
Qed.

Lemma batch_valid ml m ms :
  Forall (admissible ml m) ms → StronglySorted bytes_lt (mutation_key <$> ms) →
  validate_mutations (omap (batch_of m) ms) ml = Ok ().
Proof.
  intros Hall Hs. unfold validate_mutations.
  destruct (sorted_batch mutation_key (batch_of m) ml ms None) as [last ->]; [|done|done|done].
  intros mu b Hin Hb. rewrite Forall_forall in Hall. destruct (Hall mu Hin) as (_ & Hlen & Hv).
  destruct mu; simpl in Hb; simplify_eq; done.
Qed.

End Spec.

Section Facts.
Context `{Blake3} `{Hex} `{!HexLaws} `{Json Node} `{Json CursorRecord} `{NamespaceJson} `{CommandAuthorizer}.
Context {S : Type} `{MerkleStore S} `{!MerkleStoreLaws S} (ml : MerkleLimits) `{!OrderedMap S ml}.

(** ** Running a command against a store *)

(** The failures left to a command that passed its checks: the store or the
    serializer refuses a block. *)
Definition blocked (e : NamespaceError) : Prop :=
  match e with
  | Namespace.Write_ _ | Namespace.WrongStoredCid _ _ | InvalidPayload _ => True
  | Merkle_ text => ∃ e, refused ml e ∧ text = MerkleError_to_string e
  | _ => False
  end.

Definition runs {A} (s : S) (c : stm S NamespaceError A) (Q : A → S → Prop) : Prop :=
  ∃ r s', c s = (r, s') ∧ keeps s s' ∧ match r with Ok a => Q a s' | Err e => blocked e end.

Lemma runs_bind {A B} s (c : stm S NamespaceError A) (f : A → stm S NamespaceError B) P Q :
  runs s c P → (∀ a s1, keeps s s1 → P a s1 → runs s1 (f a) Q) → runs s (c ≫= f) Q.
Proof.
  intros ([a|e] & s1 & Hc & Hk & HP) Hf; unfold runs, mbind, stm_bind; rewrite Hc.
  - destruct (Hf a s1 Hk HP) as (r & s2 & Hr & Hk2 & HQ). exists r, s2. split; [done|]. split; [by transitivity s1|done].
  - by exists (Err e), s1.
Qed.

Lemma runs_ret {A} s (a : A) (Q : A → S → Prop) : Q a s → runs s (mret a) Q.
Proof. intros HQ. by exists (Ok a), s. Qed.

Lemma runs_lift {A B} s (r : result NamespaceError A) a (f : A → stm S NamespaceError B) Q :
  r = Ok a → runs s (f a) Q → runs s (lift r ≫= f) Q.
Proof. intros -> Hf. exact Hf. Qed.

Lemma runs_mono {A} s (c : stm S NamespaceError A) (P Q : A → S → Prop) :
  runs s c P → (∀ a s1, keeps s s1 → P a s1 → Q a s1) → runs s c Q.
Proof. intros ([a|e] & s1 & Hc & Hk & HP) HPQ; [exists (Ok a), s1|exists (Err e), s1]; auto. Qed.

Lemma runs_merkle {A} s (c : stm S MerkleError A) Q : ends ml s c Q → runs s (merkle c) Q.
Proof.
  intros ([a|e] & s1 & Hc & Hk & HP); unfold runs, merkle; rewrite Hc; simpl; [by exists (Ok a), s1|].
  exists (Err (from_merkle e)), s1. split; [done|]. split; [done|]. destruct e; try done; simpl; eauto.
Qed.

Lemma runs_canonical {A B} `{Json A} s (v : A) (f : bytes → stm S NamespaceError B) Q :
  (∀ p, to_vec v = Ok p → runs s (f p) Q) → runs s (lift (canonical_bytes v) ≫= f) Q.
Proof.
  intros Hf. unfold canonical_bytes, lift, runs, mbind, stm_bind.
  destruct (to_vec v) as [p|e]; simpl; [by apply Hf|]. by exists (Err (InvalidPayload e)), s.
Qed.

Lemma runs_put s k p :
  runs s (put_canonical k p) (λ c s', c = Cid_new k p ∧ store_get s' c = Ok p).
Proof.
  unfold runs, put_canonical, mbind, stm_bind, lift. destruct (store_put k p s) as [[c|e] s'] eqn:Hput; simpl.
  - assert (keeps s s') as Hk by (intros c' q; by eapply put_keeps).
    destruct (decide (c = Cid_new k p)) as [->|Hne].
    + rewrite bool_decide_true by done. eexists _, s'. split; [done|]. split; [done|]. split; [done|]. by eapply put_get.
    + rewrite bool_decide_false by done. by eexists _, s'.
  - eexists _, s'. split; [done|]. split; [|done]. intros c' q. by eapply put_keeps.
Qed.

(** ** Commits *)

(** The state after a commit. *)
Definition committed (st : NamespaceState) (root cid : Cid) (at_ : Z) : NamespaceState :=
  let r := saturating_add u64_max (current_revision st) 1 in
  {| namespace_id := namespace_id st; descriptor := descriptor st; current_revision := r; current_root_cid := root;
     head_commit_cid := Some cid; history := <[r := mkRevisionRecord r root (Some cid) at_]> (history st);
     named_snapshots := named_snapshots st; idempotency := idempotency st |}.

Definition commit_record (st : NamespaceState) (draft : CommitDraft) (envelope : CommandEnvelope) (root : Cid)
  : NamespaceCommit :=
  {| commit_type := COMMIT_TYPE; commit_version := FORMAT_VERSION; commit_namespace := namespace_id st;
     new_root_cid := root; parent_commit_cid := head_commit_cid st;
     base_namespace_revision := draft_base_revision draft;
     new_namespace_revision := saturating_add u64_max (current_revision st) 1;
     changed_keys := draft_changed_keys draft; commit_at_unix_seconds := timestamp_unix_seconds envelope;
     commit_writer_identity := writer_identity envelope; commit_request_id := request_id envelope;
     commit_message := draft_message draft |}.

(** What a successful commit of the map [m] leaves behind. *)
Definition commits (st : NamespaceState) (draft : CommitDraft) (envelope : CommandEnvelope)
    (m : gmap bytes MerkleValue) (rn : CommitResponse * NamespaceState) (s' : S) : Prop :=
  ∃ root cid payload,
    holds s' root m ∧ to_vec (commit_record st draft envelope root) = Ok payload
    ∧ cid = Cid_new CODEC_NAMESPACE_COMMIT payload ∧ store_get s' cid = Ok payload
    ∧ rn = (mkCommitResponse (namespace_id st) (saturating_add u64_max (current_revision st) 1) root cid
              (draft_changed_keys draft),
            committed st root cid (timestamp_unix_seconds envelope)).

Lemma commit_merkle_spec s st draft envelope m :
  holds s (current_root_cid st) m → draft_mutations draft ≠ [] →
  validate_mutations (draft_mutations draft) ml = Ok () →
  runs s (commit_merkle_mutations st draft envelope ml)
    (commits st draft envelope (foldl mutate m (draft_mutations draft))).
Proof.
  intros Hm Hne Hv. unfold commit_merkle_mutations. eapply runs_lift; [by rewrite bool_decide_false|].
  eapply runs_bind; [apply runs_merkle, holds_batch; done|]. intros root s1 _ Hroot. apply runs_canonical.
  intros payload Hp. eapply runs_bind; [apply runs_put|]. intros cid s2 Hk (-> & Hget). apply runs_ret.
  exists root, (Cid_new CODEC_NAMESPACE_COMMIT payload), payload. split_and!; [by eapply holds_keeps|done..].
Qed.

(** ** Transactions *)

(** Reading through the root is reading the map. *)
Lemma plan_one s root m acc mu :
  holds s root m → admissible ml m mu →
  plan_mutation s root ml acc mu
  = match offence m mu with
    | Some e => Err e
    | None => Ok (acc.1 ++ option_list (batch_of m mu), acc.2 ++ option_list (change_of m mu))
    end.
Proof.
  intros Hm (Hkey & Hlen & _). unfold plan_mutation. rewrite Hkey. simpl. rewrite (holds_get s root m _ Hm Hlen). simpl.
  rewrite check_precondition_spec. unfold offence.
  destruct (decide (precondition_holds (m !! mutation_key mu) (NamespaceMutation_precondition mu))) as [_|_]; [|done]. simpl.
  destruct mu as [k p|k c vk md p|k p]; simpl; [by rewrite !app_nil_r, <-surjective_pairing|done|].
  by destruct (m !! mutation_key (Delete k p)).
Qed.

Lemma plan_spec s root m ms acc :
  holds s root m → Forall (admissible ml m) ms →
  try_foldl (plan_mutation s root ml) acc ms
  = match omap (offence m) ms with
    | e :: _ => Err e
    | [] => Ok (acc.1 ++ omap (batch_of m) ms, acc.2 ++ omap (change_of m) ms)
    end.
Proof.
  intros Hm Hall. revert acc. induction Hall as [|mu ms Hmu _ IH]; intros acc; cbn [try_foldl].
  { simpl. by rewrite !app_nil_r, <-surjective_pairing. }
  rewrite (plan_one s root m acc mu Hm Hmu). simpl. destruct (offence m mu) as [e|]; [done|]. simpl.
  rewrite IH. simpl. rewrite <-!app_assoc. by destruct (batch_of m mu), (change_of m mu).
Qed.

Lemma batch_empty m ms : omap (batch_of m) ms = [] ↔ existsb writes ms = false.
Proof. induction ms as [|[] ms IH]; simpl; [done|exact IH|done|done]. Qed.

Lemma apply_transaction_spec s st t envelope limits m :
  holds s (current_root_cid st) m → validate_transaction st t limits = Ok () →
  Forall (admissible ml m) (mutations t) →
  match transact m (mutations t) with
  | Err e => apply_transaction st t envelope limits ml s = (Err e, s)
  | Ok m' =>
      runs s (apply_transaction st t envelope limits ml)
        (commits st (mkDraft (omap (batch_of m) (mutations t)) (omap (change_of m) (mutations t)) (base_revision t) (tx_message t))
           envelope m')
  end.
Proof.
  intros Hm Hv Hall. pose proof (plan_spec s _ m _ ([], []) Hm Hall) as Hplan. unfold transact, apply_transaction.
  destruct (validate_transaction_keys _ _ _ Hv) as [_ Hs]. rewrite Hv.
  destruct (omap (offence m) (mutations t)) as [|e ?].
  2:{ unfold lift, reads, mbind, stm_bind. by rewrite Hplan. }
  assert (∀ Q, runs s (commit_merkle_mutations st (mkDraft (omap (batch_of m) (mutations t))
       (omap (change_of m) (mutations t)) (base_revision t) (tx_message t)) envelope ml) Q →
     runs s (apply_transaction st t envelope limits ml) Q) as Hgo.
  { intros Q HQ. unfold apply_transaction, lift, reads, mbind, stm_bind, runs. rewrite Hv, Hplan. exact HQ. }
  unfold apply_transaction in Hgo. rewrite Hv in Hgo.
  destruct (existsb writes (mutations t)) eqn:Hw.
  - apply Hgo. rewrite <-batch_effect. apply commit_merkle_spec; [done| |].
    + simpl. rewrite batch_empty. by rewrite Hw.
    + by apply batch_valid.
  - apply (batch_empty m) in Hw. unfold lift, reads, mbind, stm_bind. rewrite Hplan. simpl. by rewrite Hw.
Qed.

(** ** The machine *)

(** The request passes the checks in front of the idempotency table. *)
Definition admits (M : NamespaceStateMachine S) (e : CommandEnvelope) (fingerprint : Cid) : Prop :=
  validate_envelope e (namespace_limits M) = Ok ()
  ∧ (∃ payload, canonical_signing_payload (namespace_id (state M)) e = Ok payload
      ∧ verify (namespace_id (state M)) (writer_identity e) payload (signature_hex e) = Ok ())
  ∧ idempotency_fingerprint (namespace_id (state M)) e = Ok fingerprint.

Definition pins_of (st next : NamespaceState) : list PinIntent :=
  diff_pin_intents (protected_roots st) (protected_roots next).

(** The next state of the machine once a command has produced [next]. *)
Definition recorded (M : NamespaceStateMachine S) (e : CommandEnvelope) (fingerprint : Cid)
    (r : CommandResponse) (next : NamespaceState) : NamespaceState :=
  prune_idempotency
    (with_idempotency next (<[request_id e := mkIdempotencyRecord fingerprint r (pins_of (state M) next) (current_revision next)]>
       (idempotency next)))
    (max_idempotency_records (namespace_limits M)).

#[local] Arguments recorded : simpl never.
#[local] Arguments pins_of : simpl never.

Definition with_store (M : NamespaceStateMachine S) (s : S) : NamespaceStateMachine S :=
  mkMachine s (state M) (namespace_limits M) (merkle_limits M).

Lemma apply_fresh M e f :
  admits M e f → idempotency (state M) !! request_id e = None →
  apply e M =
    match run_command (state M) (stamped (state M) e) (namespace_limits M) (merkle_limits M) (store M) with
    | (Ok (r, next), s') =>
        (Ok (mkApplyResult r (pins_of (state M) next) false), mkMachine s' (recorded M e f r next) (namespace_limits M) (merkle_limits M))
    | (Err err, s') => (Err err, with_store M s')
    end.
Proof.
  intros (Hv & (payload & Hp & Ha) & Hf) Hnone. unfold apply, mbind, stm_bind, reads, lift, on_store, modify.
  rewrite Hv, Hp. simpl. rewrite Ha. simpl. rewrite Hf, Hnone.
  destruct (run_command _ _ _ _ _) as [[[r next]|err] s']; done.
Qed.

Lemma apply_replayed M e f record :
  admits M e f → idempotency (state M) !! request_id e = Some record →
  apply e M =
    if decide (command_fingerprint record = f)
    then (Ok (mkApplyResult (recorded_response record) (recorded_pin_intents record) true), M)
    else (Err IdempotencyConflict, M).
Proof.
  intros (Hv & (payload & Hp & Ha) & Hf) Hrec. unfold apply, mbind, stm_bind, reads, lift.
  rewrite Hv, Hp. simpl. rewrite Ha. simpl. rewrite Hf, Hrec.
  destruct (decide (command_fingerprint record = f)); [by rewrite bool_decide_true|by rewrite bool_decide_false].
Qed.

(** A request that fails a check changes nothing. *)
Lemma apply_checked M e : (∃ f, admits M e f) ∨ ∃ err, apply e M = (Err err, M).
Proof.
  unfold apply, mbind, stm_bind, reads, lift.
  destruct (validate_envelope e (namespace_limits M)) as [[]|err] eqn:Hv; [|eauto].
  destruct (canonical_signing_payload (namespace_id (state M)) e) as [payload|err] eqn:Hp; [|eauto].
  destruct (verify _ (writer_identity e) payload (signature_hex e)) as [[]|err] eqn:Ha; simpl; [|eauto].
  destruct (idempotency_fingerprint (namespace_id (state M)) e) as [f|err] eqn:Hf; [|eauto].
  left. exists f. split; [done|]. eauto.
Qed.

Lemma apply_transacts M e f t m :
  merkle_limits M = ml → admits M e f → idempotency (state M) !! request_id e = None →
  command e = ApplyTransaction t → holds (store M) (current_root_cid (state M)) m →
  validate_transaction (state M) t (namespace_limits M) = Ok () → Forall (admissible ml m) (mutations t) →
  match transact m (mutations t), apply e M with
  | Err err, res => res = (Err err, M)
  | Ok m', (Ok r, M') =>
      keeps (store M) (store M') ∧ holds (store M') (current_root_cid (state M')) m'
      ∧ current_revision (state M') = saturating_add u64_max (current_revision (state M)) 1 ∧ replayed r = false
  | Ok _, (Err err, M') => blocked err ∧ state M' = state M ∧ keeps (store M) (store M')
  end.
Proof.
  intros Hml Had Hnone Hcmd Hm Hv Hall. rewrite (apply_fresh M e f Had Hnone). unfold run_command.
  assert (command (stamped (state M) e) = ApplyTransaction t) as ->.
  { unfold stamped. by destruct (history (state M) !! current_revision (state M)). }
  pose proof (apply_transaction_spec (store M) (state M) t (stamped (state M) e) (namespace_limits M) m Hm Hv Hall) as Hspec.
  rewrite <-Hml in Hspec. destruct (transact m (mutations t)) as [m'|err].
  - destruct Hspec as (r & s' & Hrun & Hk & Hpost). unfold mbind, stm_bind. rewrite Hrun.
    destruct r as [[cr next]|err]; simpl; [|done].
    destruct Hpost as (root & cid & payload & Hroot & _ & _ & _ & [= _ ->]). done.
  - unfold mbind, stm_bind. rewrite Hspec. unfold with_store. by destruct M.
Qed.

(** C4: a transaction acts on the map of the namespace as its specification says.
    If the specification rejects it, because of the first mutation whose
    precondition fails or that deletes nothing, or because nothing is written, the
    command returns that error and changes neither state nor store.  Otherwise
    either a block is refused and the state is unchanged, or the new head holds
    exactly the specified map, one revision later. *)
Theorem transaction_refines M e f t m :
  merkle_limits M = ml → admits M e f → idempotency (state M) !! request_id e = None →
  command e = ApplyTransaction t → holds (store M) (current_root_cid (state M)) m →
  validate_transaction (state M) t (namespace_limits M) = Ok () → Forall (admissible ml m) (mutations t) →
  match transact m (mutations t), apply e M with
  | Err err, res => res = (Err err, M)
  | Ok m', (Ok r, M') =>
      keeps (store M) (store M') ∧ holds (store M') (current_root_cid (state M')) m'
      ∧ current_revision (state M') = saturating_add u64_max (current_revision (state M)) 1 ∧ replayed r = false
  | Ok _, (Err err, M') => blocked err ∧ state M' = state M ∧ keeps (store M) (store M')
  end.
Proof. apply apply_transacts. Qed.

(** ** Invariant of the machine *)

(** Commits are named by the hash of a commit block. *)
Definition commit_codec (c : option Cid) : Prop :=
  ∀ c', c = Some c' → ∃ payload, c' = Cid_new CODEC_NAMESPACE_COMMIT payload.

Record world (s : S) (st : NamespaceState) : Prop := {
  w_current : ∃ rec, history st !! current_revision st = Some rec ∧ root_cid rec = current_root_cid st;
  w_history rev rec : history st !! rev = Some rec →
    revision rec = rev ∧ (rev ≤ current_revision st)%N ∧ (∃ m, holds s (root_cid rec) m) ∧ commit_codec (commit_cid rec);
  w_times rev rec rev' rec' : history st !! rev = Some rec → history st !! rev' = Some rec' → (rev ≤ rev')%N →
    (committed_at_unix_seconds rec ≤ committed_at_unix_seconds rec')%Z;
  w_head : commit_codec (head_commit_cid st);
  w_snapshots name sn : named_snapshots st !! name = Some sn →
    snapshot_name sn = name ∧ (∃ m, holds s (snapshot_root_cid sn) m) ∧ commit_codec (snapshot_commit_cid sn)
}.

Lemma world_keeps s s' st : keeps s s' → world s st → world s' st.
Proof.
  intros Hk []. split; try done.
  - intros rev rec Hr. destruct (w_history0 _ _ Hr) as (? & ? & (m & Hm) & ?). split_and!; [done..| |done].
    exists m. by eapply holds_keeps.
  - intros name sn Hn. destruct (w_snapshots0 _ _ Hn) as (? & (m & Hm) & ?). split_and!; [done| |done].
    exists m. by eapply holds_keeps.
Qed.

Lemma world_root s st : world s st → ∃ m, holds s (current_root_cid st) m.
Proof. intros Hw. destruct (w_current _ _ Hw) as (rec & Hr & <-). by destruct (w_history _ _ Hw _ _ Hr) as (_ & _ & ? & _). Qed.

Lemma world_committed s st root cid m at_ :
  world s st → (current_revision st < u64_max)%N → holds s root m → (∃ payload, cid = Cid_new CODEC_NAMESPACE_COMMIT payload) →
  (∀ rec, history st !! current_revision st = Some rec → committed_at_unix_seconds rec ≤ at_)%Z →
  world s (committed st root cid at_) ∧ history st ⊆ history (committed st root cid at_).
Proof.
  intros Hw Hlt Hm Hcid Hat. unfold committed. set (r := saturating_add u64_max (current_revision st) 1).
  assert (r = current_revision st + 1)%N as Hr by (unfold r, saturating_add; lia).
  assert (history st !! r = None) as Hnone.
  { apply eq_None_not_Some. intros [rec Hrec]. apply (w_history _ _ Hw) in Hrec as (_ & ? & _). lia. }
  assert (∀ rev rec, history st !! rev = Some rec → committed_at_unix_seconds rec ≤ at_)%Z as Hlast.
  { intros rev rec Hrec. destruct (w_current _ _ Hw) as (cur & Hcur & _). transitivity (committed_at_unix_seconds cur); [|by apply Hat].
    eapply (w_times _ _ Hw); [done|done|]. by apply (w_history _ _ Hw) in Hrec as (_ & ? & _). }
  split; [|by apply insert_subseteq]. split; simpl.
  - rewrite lookup_insert_eq. by eexists.
  - intros rev rec [[<- <-]|[_ Hrec]]%lookup_insert_Some; simpl.
    + split_and!; [done|lia|eauto|by intros c [= <-]].
    + destruct (w_history _ _ Hw _ _ Hrec) as (? & ? & ? & ?). split_and!; [done|lia|done|done].
  - intros rev rec rev' rec' [[<- <-]|[_ Hrec]]%lookup_insert_Some [[<- <-]|[_ Hrec']]%lookup_insert_Some Hle; simpl.
    + done.
    + apply (w_history _ _ Hw) in Hrec' as (_ & ? & _). lia.
    + by eapply Hlast.
    + by eapply (w_times _ _ Hw).
  - by intros c [= <-].
  - apply (w_snapshots _ _ Hw).
Qed.

Lemma world_recorded s st i : world s st → world s (with_idempotency st i).
Proof. intros []. by split. Qed.

(** ** Any command, whatever its arguments *)

(** The command keeps every block, and if it succeeds [Q] holds. *)
Definition settles {A} (s : S) (c : stm S NamespaceError A) (Q : A → S → Prop) : Prop :=
  ∃ r s', c s = (r, s') ∧ keeps s s' ∧ ∀ a, r = Ok a → Q a s'.

Lemma runs_settles {A} s (c : stm S NamespaceError A) Q : runs s c Q → settles s c Q.
Proof. intros (r & s' & Hc & Hk & Hr). exists r, s'. split_and!; [done..|]. by intros a ->. Qed.

Lemma settles_bind {A B} s (c : stm S NamespaceError A) (f : A → stm S NamespaceError B) P Q :
  settles s c P → (∀ a s1, keeps s s1 → P a s1 → settles s1 (f a) Q) → settles s (c ≫= f) Q.
Proof.
  intros ([a|e] & s1 & Hc & Hk & HP) Hf; unfold settles, mbind, stm_bind; rewrite Hc.
  - destruct (Hf a s1 Hk (HP a eq_refl)) as (r & s2 & Hr & Hk2 & HQ). exists r, s2.
    split; [done|]. split; [by transitivity s1|done].
  - by exists (Err e), s1.
Qed.

Lemma settles_reads {A B} s (f : S → result NamespaceError A) (g : A → stm S NamespaceError B) Q :
  (∀ a, f s = Ok a → settles s (g a) Q) → settles s (reads f ≫= g) Q.
Proof.
  intros Hg. unfold settles, reads, mbind, stm_bind. destruct (f s) as [a|e]; [by apply Hg|]. by exists (Err e), s.
Qed.

Lemma settles_lift {A B} s (r : result NamespaceError A) (g : A → stm S NamespaceError B) Q :
  (∀ a, r = Ok a → settles s (g a) Q) → settles s (lift r ≫= g) Q.
Proof. apply (settles_reads s (λ _, r)). Qed.

Lemma settles_ret {A} s (a : A) (Q : A → S → Prop) : Q a s → settles s (mret a) Q.
Proof. intros HQ. apply runs_settles. by apply runs_ret. Qed.

Lemma commit_settles s st draft envelope m :
  holds s (current_root_cid st) m →
  settles s (commit_merkle_mutations st draft envelope ml)
    (commits st draft envelope (foldl mutate m (draft_mutations draft))).
Proof.
  intros Hm. destruct (decide (draft_mutations draft = [])) as [Hnil|Hne].
  { unfold settles, commit_merkle_mutations, mbind, stm_bind, lift. rewrite Hnil. simpl. by eexists _, s. }
  destruct (validate_mutations (draft_mutations draft) ml) as [[]|e] eqn:Hv.
  { by apply runs_settles, commit_merkle_spec. }
  unfold settles, commit_merkle_mutations, mbind, stm_bind, lift, merkle. rewrite bool_decide_false by done. simpl.
  rewrite (holds_batch_invalid _ _ _ _ Hv). simpl. by eexists _, s.
Qed.

(** What every successful command leaves behind. *)
Definition advanced (st : NamespaceState) (rn : CommandResponse * NamespaceState) (s' : S) : Prop :=
  world s' rn.2 ∧ history st ⊆ history rn.2 ∧ idempotency rn.2 = idempotency st
  ∧ namespace_id rn.2 = namespace_id st ∧ descriptor rn.2 = descriptor st
  ∧ match rn.1 with
    | Commit r => namespace_revision r = current_revision rn.2 ∧ commit_root_cid r = current_root_cid rn.2
                  ∧ current_revision rn.2 = (current_revision st + 1)%N
    | Snapshot r => current_revision rn.2 = current_revision st ∧ current_root_cid rn.2 = current_root_cid st
    end.

Lemma commit_advanced s s' st draft e m cr next :
  world s st → (current_revision st < u64_max)%N → keeps s s' →
  (∀ rec, history st !! current_revision st = Some rec → committed_at_unix_seconds rec ≤ timestamp_unix_seconds e)%Z →
  commits st draft e m (cr, next) s' → advanced st (Commit cr, next) s'.
Proof.
  intros Hw Hlt Hk Hat (root & cid & payload & Hroot & _ & -> & _ & [= -> ->]). unfold advanced. simpl.
  destruct (world_committed s' st root (Cid_new CODEC_NAMESPACE_COMMIT payload) m (timestamp_unix_seconds e)) as [? ?]; try done.
  { by eapply world_keeps. }
  { eauto. }
  split_and!; try done. unfold saturating_add. lia.
Qed.

Lemma run_command_settles s st e limits :
  world s st → (current_revision st < u64_max)%N →
  (∀ rec, history st !! current_revision st = Some rec → committed_at_unix_seconds rec ≤ timestamp_unix_seconds e)%Z →
  settles s (run_command st e limits ml) (advanced st).
Proof.
  intros Hw Hlt Hat. destruct (world_root _ _ Hw) as [m Hm]. unfold run_command. destruct (command e) as [t|name rev|name|rev msg].
  - unfold apply_transaction. eapply (settles_bind _ _ _ (λ rn s', advanced st (Commit rn.1, rn.2) s')); [|intros [cr next] s1 _ Ha; by apply settles_ret].
    apply settles_lift. intros [] _. apply settles_reads. intros planned _.
    eapply commit_settles in Hm as (r & s' & Hc & Hk & Hpost). exists r, s'. split_and!; [exact Hc|done|].
    intros [cr next] Hr. eapply commit_advanced; [done..|]. by apply Hpost.
  - apply settles_lift. intros [sr next] Hc. apply settles_ret. unfold create_snapshot in Hc.
    repeat (apply bind_Ok in Hc as (? & ? & Hc)). injection Hc as <- <-.
    match goal with H : ok_or (history st !! _) _ = Ok ?r |- _ => apply ok_or_Ok in H; rename H into Hrec end.
    unfold advanced. simpl. split_and!; try done. pose proof Hw as []. split; simpl; try done.
    intros n sn [[<- <-]|[_ Hn]]%lookup_insert_Some; [|by apply w_snapshots0].
    destruct (w_history0 _ _ Hrec) as (_ & _ & ? & ?). done.
  - apply settles_lift. intros [sr next] Hc. apply settles_ret. unfold delete_snapshot in Hc.
    apply bind_Ok in Hc as (sn & _ & [= <- <-]). unfold advanced. simpl. split_and!; try done.
    pose proof Hw as []. split; simpl; try done. intros n sn' [_ Hn]%lookup_delete_Some. by apply w_snapshots0.
  - unfold rollback. eapply (settles_bind _ _ _ (λ rn s', advanced st (Commit rn.1, rn.2) s')); [|intros [cr next] s1 _ Ha; by apply settles_ret].
    apply settles_lift. intros target _. apply settles_reads. intros current _. apply settles_reads. intros target_values _.
    apply settles_lift. intros [] _.
    eapply commit_settles in Hm as (r & s' & Hc & Hk & Hpost). exists r, s'. split_and!; [exact Hc|done|].
    intros [cr next] Hr. eapply commit_advanced; [done..|]. by apply Hpost.
Qed.

Lemma stamped_later st e rec :
  history st !! current_revision st = Some rec →
  (committed_at_unix_seconds rec ≤ timestamp_unix_seconds (stamped st e))%Z.
Proof. intros Hr. unfold stamped. rewrite Hr. simpl. lia. Qed.

(** The three ways [apply] can go. *)
Lemma apply_cases M e res M' :
  world (store M) (state M) → merkle_limits M = ml → (current_revision (state M) < u64_max)%N →
  apply e M = (res, M') →
  (keeps (store M) (store M') ∧ state M' = state M ∧ namespace_limits M' = namespace_limits M ∧ merkle_limits M' = ml
     ∧ ∀ r, res = Ok r → replayed r = true ∧ ∃ f record, admits M e f
         ∧ idempotency (state M) !! request_id e = Some record ∧ command_fingerprint record = f
         ∧ r = mkApplyResult (recorded_response record) (recorded_pin_intents record) true)
  ∨ ∃ f r next, admits M e f ∧ idempotency (state M) !! request_id e = None
      ∧ res = Ok (mkApplyResult r (pins_of (state M) next) false)
      ∧ M' = mkMachine (store M') (recorded M e f r next) (namespace_limits M) ml
      ∧ keeps (store M) (store M') ∧ advanced (state M) (r, next) (store M').
Proof.
  intros Hw Hml Hlt Ha. destruct (apply_checked M e) as [[f Had]|[err Herr]].
  2:{ left. rewrite Herr in Ha. injection Ha as <- <-. done. }
  destruct (idempotency (state M) !! request_id e) as [record|] eqn:Hrec.
  { left. rewrite (apply_replayed M e f record Had Hrec) in Ha.
    destruct (decide (command_fingerprint record = f)) as [Hf|]; injection Ha as <- <-; [|done].
    split_and!; [done..|]. intros r [= <-]. split; [done|]. by exists f, record. }
  rewrite (apply_fresh M e f Had Hrec) in Ha.
  destruct (run_command_settles (store M) (state M) (stamped (state M) e) (namespace_limits M) Hw Hlt) as (r & s' & Hrun & Hk & Hpost).
  { intros rec Hr. by apply stamped_later. }
  rewrite <-Hml in Hrun. rewrite Hrun in Ha. destruct r as [[r next]|err]; injection Ha as <- <-.
  - right. exists f, r, next. simpl. rewrite Hml. split_and!; try done. by apply Hpost.
  - left. done.
Qed.

Lemma apply_advances M e res M' :
  world (store M) (state M) → merkle_limits M = ml → (current_revision (state M) < u64_max)%N →
  apply e M = (res, M') →
  world (store M') (state M') ∧ keeps (store M) (store M') ∧ history (state M) ⊆ history (state M')
  ∧ namespace_id (state M') = namespace_id (state M) ∧ descriptor (state M') = descriptor (state M)
  ∧ match res with
    | Err _ => state M' = state M
    | Ok r =>
        if replayed r then state M' = state M
        else match response r with
             | Commit c => namespace_revision c = current_revision (state M') ∧ commit_root_cid c = current_root_cid (state M')
                           ∧ current_revision (state M') = (current_revision (state M) + 1)%N
             | Snapshot _ => current_revision (state M') = current_revision (state M)
                             ∧ current_root_cid (state M') = current_root_cid (state M)
             end
    end.
Proof.
  intros Hw Hml Hlt Ha. destruct (apply_cases M e res M' Hw Hml Hlt Ha)
    as [(Hk & -> & _ & _ & Hr)|(f & r & next & _ & _ & -> & -> & Hk & (Hw' & Hh & _ & Hid & Hd & Hresp))].
  - split_and!; try done; [by eapply world_keeps|]. destruct res as [r|]; [|done]. by destruct (Hr r eq_refl) as [-> _].
  - simpl in *. split_and!; try done. by apply (world_recorded (store M') next).
Qed.

(** C5: a command that fails leaves the state of the machine as it was; one that
    succeeds, and every failed one, keeps all stored blocks.  The invariant is
    preserved: recorded revisions never change, each has a root that holds a map,
    their timestamps grow with the revisions, and a commit is the next revision
    whose root is the new head. *)
Theorem apply_preserves M e res M' :
  world (store M) (state M) → merkle_limits M = ml → (current_revision (state M) < u64_max)%N →
  apply e M = (res, M') →
  world (store M') (state M') ∧ keeps (store M) (store M') ∧ history (state M) ⊆ history (state M')
  ∧ namespace_id (state M') = namespace_id (state M) ∧ descriptor (state M') = descriptor (state M)
  ∧ match res with
    | Err _ => state M' = state M
    | Ok r =>
        if replayed r then state M' = state M
        else match response r with
             | Commit c => namespace_revision c = current_revision (state M') ∧ commit_root_cid c = current_root_cid (state M')
                           ∧ current_revision (state M') = (current_revision (state M) + 1)%N
             | Snapshot _ => current_revision (state M') = current_revision (state M)
                             ∧ current_root_cid (state M') = current_root_cid (state M)
             end
    end.
Proof. apply apply_advances. Qed.

(** ** Retries *)

Lemma prune_fits st limit :
  (N.of_nat (size (idempotency st)) ≤ limit)%N → prune_idempotency st limit = st.
Proof.
  intros Hle. unfold prune_idempotency. assert (prune_loop (size (idempotency st)) (idempotency st) limit = idempotency st) as ->.
  { destruct (size (idempotency st)) as [|n] eqn:Hs; simpl; [done|]. rewrite Hs. by rewrite (proj2 (N.ltb_ge limit _)) by lia. }
  by destruct st.
Qed.

(** The machine after a sequence of commands, whatever each returned. *)
Definition run_all (es : list CommandEnvelope) (M : NamespaceStateMachine S) : NamespaceStateMachine S :=
  foldl (λ M e, (apply e M).2) M es.

Lemma admits_same M M' e f :
  namespace_id (state M') = namespace_id (state M) → namespace_limits M' = namespace_limits M →
  admits M e f → admits M' e f.
Proof. unfold admits. by intros -> ->. Qed.

(** A machine in order, with room for [n] more records and revisions. *)
Definition room (n : nat) (M : NamespaceStateMachine S) : Prop :=
  world (store M) (state M) ∧ merkle_limits M = ml
  ∧ (current_revision (state M) + N.of_nat n ≤ u64_max)%N
  ∧ (N.of_nat (size (idempotency (state M)) + n) ≤ max_idempotency_records (namespace_limits M))%N.

Lemma apply_room n M e res M' :
  room (Datatypes.S n) M → apply e M = (res, M') →
  room n M' ∧ idempotency (state M) ⊆ idempotency (state M')
  ∧ namespace_id (state M') = namespace_id (state M) ∧ namespace_limits M' = namespace_limits M
  ∧ ∀ r, res = Ok r → replayed r = false → ∃ f rev, admits M e f ∧
      idempotency (state M') !! request_id e = Some (mkIdempotencyRecord f (response r) (pin_intents r) rev).
Proof.
  intros (Hw & Hml & Hrev & Hsz) Ha. assert (current_revision (state M) < u64_max)%N as Hlt by lia.
  destruct (apply_cases M e res M' Hw Hml Hlt Ha)
    as [(Hk & Hst & Hl & Hml' & Hr)|(f & r & next & Had & Hnone & -> & HM & Hk & (Hw' & _ & Hi & Hid & _ & Hresp))].
  - unfold room. rewrite Hst, Hl. split_and!; try done; [by eapply world_keeps|lia|lia|].
    intros r Hok Hrep. destruct (Hr r Hok). congruence.
  - assert (recorded M e f r next = with_idempotency next
      (<[request_id e := mkIdempotencyRecord f r (pins_of (state M) next) (current_revision next)]> (idempotency (state M)))) as Hrec.
    { simpl in Hi. unfold recorded. rewrite Hi, prune_fits; [done|]. simpl. rewrite map_size_insert_None by done. lia. }
    rewrite Hrec in HM. set (s' := store M') in *. clearbody s'. subst M'. simpl in *.
    unfold room. simpl. split_and!; [by apply world_recorded|done| | |by apply insert_subseteq|done|done|].
    + destruct r; destruct Hresp; lia.
    + rewrite map_size_insert_None by done. lia.
    + intros r0 [= <-] _. exists f, (current_revision next). split; [done|]. apply lookup_insert_eq.
Qed.

(** C9: a request is applied once: sent again after any further commands, as long
    as the request table has not filled up, it gets the response and the pin
    intents of the first time, marked as replayed, and changes nothing. *)
Theorem retry_replays M e r M1 es :
  room (Datatypes.S (length es)) M → apply e M = (Ok r, M1) → replayed r = false →
  apply e (run_all es M1) = (Ok (mkApplyResult (response r) (pin_intents r) true), run_all es M1).
Proof.
  intros Hroom Ha Hrep. destruct (apply_room _ _ _ _ _ Hroom Ha) as (Hroom1 & _ & Hid & Hl & Hrec).
  destruct (Hrec r eq_refl Hrep) as (f & rev & Had & Hlook). apply (admits_same _ M1) in Had; [|done..].
  clear Hroom Ha Hid Hl Hrec Hrep. revert M1 Hroom1 Had Hlook.
  induction es as [|e' es IH]; intros M1 Hroom Had Hlook; simpl.
  - rewrite (apply_replayed M1 e f _ Had Hlook). simpl. by rewrite decide_True.
  - destruct (apply e' M1) as [res M2] eqn:Ha. destruct (apply_room _ _ _ _ _ Hroom Ha) as (Hroom2 & Hsub & Hid & Hl & _).
    apply IH; [done|by eapply admits_same|by eapply lookup_weaken].
Qed.

End Facts.
