(* ===== verification/NamespaceHistory.v ===== *)
(** * Rollback (crates/pepper-namespace)

    Reading a whole root page by page returns its map, and a rollback restores
    the contents of an earlier revision as a new one. *)
From stdpp Require Import base gmap sets list strings sorting.
From Stdlib Require Import Strings.Byte.
From S2P Require Import Prelude Types Merkle MerkleTree MerkleRefinement MerkleScan MerkleMap MerkleInterface.
From S2P Require Import Namespace NamespaceFacts.

(** ** Reading a root in pages *)

Definition put_entry (vs : gmap bytes MerkleValue) (e : MapEntry) : gmap bytes MerkleValue :=
  <[entry_key e := entry_value e]> vs.

Lemma put_entries_lookup m l vs k v :
  vs ⊆ m → (∀ e, e ∈ l → m !! entry_key e = Some (entry_value e)) →
  foldl put_entry vs l !! k = Some v ↔ vs !! k = Some v ∨ mkEntry k v ∈ l.
Proof.
  revert vs. induction l as [|e l IH]; intros vs Hsub Hl; simpl; [set_solver|].
  assert (m !! entry_key e = Some (entry_value e)) as He by (apply Hl; left).
  rewrite IH; [|by apply insert_subseteq_l|intros e' He'; apply Hl; by right].
  unfold put_entry. rewrite elem_of_cons. destruct (decide (entry_key e = k)) as [<-|Hne].
  - rewrite lookup_insert_eq. split.
    + intros [[= <-]|?]; [right; left; by destruct e|by right; right].
    + intros [Hv|[Hv|?]]; [left|left|by right].
      * apply (lookup_weaken _ m) in Hv; [congruence|done].
      * destruct e. by injection Hv as <-.
  - rewrite lookup_insert_ne by done. split; [tauto|]. intros [?|[Hv|?]]; [by left| |by right].
    destruct e. by injection Hv as -> _.
Qed.

Section History.
Context `{Blake3} `{Hex} `{!HexLaws} `{Json Node} `{Json CursorRecord} `{NamespaceJson} `{CommandAuthorizer}.
Context {S : Type} `{MerkleStore S} `{!MerkleStoreLaws S} (ml : MerkleLimits) `{!OrderedMap S ml}.

Definition whole (n : N) (cursor : option string) : ScanQuery := mkQuery None None None n cursor.

(** Entries of [m] up to the cursor. *)
Definition read_upto (m values : gmap bytes MerkleValue) (after : option bytes) : Prop :=
  ∀ k v, values !! k = Some v ↔ m !! k = Some v ∧ is_none_or (λ a, bytes_ltb a k) after = false.

Lemma whole_matches k n cursor after : key_matches k (whole n cursor) after = is_none_or (λ a, bytes_ltb a k) after.
Proof. unfold key_matches. simpl. by rewrite !andb_true_r. Qed.

Lemma read_upto_size m values after : read_upto m values after → values ⊆ m.
Proof. intros Hv. apply map_subseteq_spec. intros k v Hk. by apply Hv in Hk as [? _]. Qed.

Lemma read_upto_page m values after n cursor F w after' c :
  read_upto m values after → scan_list m (whole n cursor) after F →
  scan_list m (with_cursor (whole n cursor) c) after' (drop w F) →
  read_upto m (foldl put_entry values (take w F)) after'.
Proof.
  intros Hv [Hs HF] [_ Hd] k v.
  rewrite (put_entries_lookup m); [|by eapply read_upto_size|].
  2:{ intros [k' v'] He. apply (HF k' v'). rewrite <-(take_drop w F). apply elem_of_app. by left. }
  rewrite (Hv k v). specialize (HF k v). specialize (Hd k v). rewrite whole_matches in HF. unfold with_cursor in Hd. simpl in Hd.
  change (mkQuery None None None n (Some c)) with (whole n (Some c)) in Hd. rewrite whole_matches in Hd.
  assert (mkEntry k v ∈ F ↔ mkEntry k v ∈ take w F ∨ mkEntry k v ∈ drop w F) as Hsplit by by rewrite <-elem_of_app, take_drop.
  assert (mkEntry k v ∈ take w F → mkEntry k v ∉ drop w F) as Hdis.
  { intros Ht Hdr. rewrite <-(take_drop w F) in Hs. pose proof (StronglySorted_app_1_elem_of _ _ _ _ _ Hs Ht Hdr) as Hlt.
    by apply bytes_lt_irrefl in Hlt. }
  destruct (is_none_or (λ a, bytes_ltb a k) after), (is_none_or (λ a, bytes_ltb a k) after'); naive_solver.
Qed.

(** What paging needs: pages can be asked for, cursors can be written, and the
    map is within the node limit of a scan. *)
Definition pageable (m : gmap bytes MerkleValue) : Prop :=
  (1 ≤ max_scan_entries ml)%N ∧ (2 * N.of_nat (size m) ≤ max_scan_nodes ml)%N
  ∧ ∀ c : CursorRecord, is_Ok (to_vec c) = true.

Definition whole_or_too_large (m : gmap bytes MerkleValue) (limit : N)
  : result NamespaceError (gmap bytes MerkleValue) :=
  if (limit <? N.of_nat (size m))%N then Err (RollbackTooLarge limit) else Ok m.

Lemma read_all_loop_spec rounds s root limit m values cursor after n0 :
  holds s root m → pageable m → (limit < usize_max)%N → read_upto m values after →
  cursor_after root (whole n0 cursor) = Ok after → (N.of_nat (size values) ≤ limit)%N →
  (limit + 1 < N.of_nat (rounds + size values))%N →
  read_all_loop rounds s root limit ml values cursor = whole_or_too_large m limit.
Proof.
  intros Hm Hp Hlim. pose proof Hp as (Hpage & Hnodes & Hser).
  revert values cursor after. induction rounds as [|rounds IH]; intros values cursor after Hv Hcur Hsz Hrounds.
  { lia. }
  cbn [read_all_loop]. set (remaining := saturating_sub _ _).
  assert (remaining = limit + 1 - N.of_nat (size values))%N as Hrem by (unfold remaining, saturating_sub, saturating_add; lia).
  rewrite (proj2 (N.eqb_neq remaining 0)) by lia. cbn [fail_if mbind result_bind].
  set (n := N.min remaining (max_scan_entries ml)). change (mkQuery None None None n cursor) with (whole n cursor).
  destruct (holds_scan s root m (whole n cursor) after Hm) as (page & F & -> & HF & _ & Hent & Hnext & Hmore); [|done|done|done|].
  { split; [simpl; lia|]. done. }
  cbn [map_err mbind result_bind]. rewrite Hent. cbn [q_limit whole] in *. fold put_entry.
  change (λ vs e, <[entry_key e := entry_value e]> vs) with put_entry.
  set (values' := foldl put_entry values (take (N.to_nat n) F)).
  assert (∀ e, e ∈ F → m !! entry_key e = Some (entry_value e) ∧ is_none_or (λ a, bytes_ltb a (entry_key e)) after = true) as HinF.
  { intros [k v] He. rewrite <-(whole_matches k n cursor). by apply HF. }
  assert (∀ k v, values' !! k = Some v ↔ values !! k = Some v ∨ mkEntry k v ∈ take (N.to_nat n) F) as Hlook.
  { intros k v. apply (put_entries_lookup m); [by eapply read_upto_size|]. intros e He. apply HinF.
    rewrite <-(take_drop (N.to_nat n) F). apply elem_of_app. by left. }
  assert (values' ⊆ m) as Hsub'.
  { apply map_subseteq_spec. intros k v [Hk|Hk]%Hlook; [by apply Hv in Hk as [? _]|].
    apply (HinF (mkEntry k v)). rewrite <-(take_drop (N.to_nat n) F). apply elem_of_app. by left. }
  pose proof (map_subseteq_size _ _ Hsub') as Hsz'.
  destruct (N.ltb_spec limit (N.of_nat (size values'))) as [Hbig|Hfit]; cbn [fail_if mbind result_bind].
  { unfold whole_or_too_large. by rewrite (proj2 (N.ltb_lt limit (N.of_nat (size m)))) by lia. }
  destruct (next_cursor page) as [c|] eqn:Hc.
  - destruct (Hmore c eq_refl) as (after' & Hcur' & Hrest).
    apply (IH values' (Some c) after'); [by eapply read_upto_page|done|done|].
    destruct F as [|[k v] F']; [exfalso; assert (Some c = None) by (apply Hnext; unfold len; simpl; lia); done|].
    assert (values ⊂ values') as Hss.
    { apply map_subset_alt. split; [apply map_subseteq_spec; intros; apply Hlook; by left|].
      exists k. destruct (HinF (mkEntry k v)) as [_ Hk]; [left|]. simpl in Hk. split.
      - apply eq_None_not_Some. intros [v' Hv']. apply Hv in Hv' as [_ ?]. congruence.
      - exists v. apply Hlook. right. destruct (N.to_nat n) eqn:Hn0; [lia|]. left. }
    apply map_subset_size in Hss. lia.
  - assert (values' = m) as Heq; [|rewrite Heq in *; unfold whole_or_too_large; by rewrite (proj2 (N.ltb_ge limit (N.of_nat (size m)))) by lia].
    apply map_eq. intros k. apply option_eq. intros v. rewrite Hlook. rewrite (Hv k v).
    rewrite take_ge by (assert (len F ≤ n)%N by (by apply Hnext); unfold len in *; lia).
    destruct HF as [_ HF]. rewrite (HF k v), whole_matches. destruct (is_none_or _ after); naive_solver.
Qed.

Lemma read_all_spec s root limit m :
  holds s root m → pageable m → (limit < usize_max)%N →
  read_all s root limit ml = whole_or_too_large m limit.
Proof.
  intros Hm Hp Hlim. unfold read_all.
  apply (read_all_loop_spec _ s root limit m ∅ None None 0); try done; [|rewrite map_size_empty; lia..].
  intros k v. rewrite lookup_empty. simpl. naive_solver.
Qed.

(** ** Rollback *)

Definition restore_value (current : option MerkleValue) (v : MerkleValue) : MerkleValue :=
  mkValue (Merkle.value_cid v) (next_generation current) (Merkle.value_kind v) (Merkle.metadata v).

(** The value of a key after a rollback. *)
Definition restored (m t : gmap bytes MerkleValue) (k : bytes) : option MerkleValue :=
  if same_logical_value (m !! k) (t !! k) then m !! k else restore_value (m !! k) <$> t !! k.

Definition restore_batch (m t : gmap bytes MerkleValue) (k : bytes) : option Mutation :=
  if same_logical_value (m !! k) (t !! k) then None
  else Some (match t !! k with Some v => Merkle.Put k (restore_value (m !! k) v) | None => Merkle.Delete k end).

Definition restore_change (m t : gmap bytes MerkleValue) (k : bytes) : option ChangedKey :=
  if same_logical_value (m !! k) (t !! k) then None
  else Some (match t !! k with
             | Some v => mkChangedKey (hex_encode k) (Some (next_generation (m !! k))) (Some (Merkle.value_cid v))
             | None => mkChangedKey (hex_encode k) None None
             end).

Lemma plan_restore_spec m t keys acc :
  foldl (plan_restore m t) acc keys
  = (acc.1 ++ omap (restore_batch m t) keys, acc.2 ++ omap (restore_change m t) keys).
Proof.
  revert acc. induction keys as [|k keys IH]; intros acc; simpl; [by rewrite !app_nil_r, <-surjective_pairing|].
  rewrite IH. unfold plan_restore, restore_batch, restore_change.
  destruct (same_logical_value (m !! k) (t !! k)); [done|]. destruct (t !! k); simpl; by rewrite <-!app_assoc.
Qed.

Lemma restored_other m t keys acc k :
  k ∉ keys → foldl mutate acc (omap (restore_batch m t) keys) !! k = acc !! k.
Proof.
  revert acc. induction keys as [|k' keys IH]; intros acc Hk; [done|]. apply not_elem_of_cons in Hk as [Hne Hk].
  simpl. unfold restore_batch at 1. destruct (same_logical_value _ _); [by apply IH|]. simpl. rewrite IH by done.
  destruct (t !! k'); simpl; [by rewrite lookup_insert_ne|by rewrite lookup_delete_ne].
Qed.

Lemma restored_lookup m t keys acc k :
  NoDup keys → k ∈ keys → acc !! k = m !! k →
  foldl mutate acc (omap (restore_batch m t) keys) !! k = restored m t k.
Proof.
  intros Hnd. revert acc. induction Hnd as [|k' keys Hk' _ IH]; intros acc; [by intros ?%elem_of_nil|].
  intros [<-|Hk]%elem_of_cons Hacc; simpl.
  - unfold restored, restore_batch at 1. destruct (same_logical_value (m !! k) (t !! k)); [by rewrite restored_other|].
    simpl. rewrite restored_other by done. destruct (t !! k); simpl; [by rewrite lookup_insert_eq|by rewrite lookup_delete_eq].
  - assert (k ≠ k') as Hne by (intros ->; done). unfold restore_batch at 1. destruct (same_logical_value _ _); [by apply IH|].
    simpl. apply IH; [done|]. destruct (t !! k'); simpl; [by rewrite lookup_insert_ne|by rewrite lookup_delete_ne].
Qed.

Lemma same_logical_refl v : same_logical_value v v = true.
Proof. destruct v; simpl; [|done]. by rewrite !bool_decide_true. Qed.

(** Whatever the generations, the restored value is the target's. *)
Lemma restored_same m t k : same_logical_value (restored m t k) (t !! k) = true.
Proof.
  unfold restored. destruct (same_logical_value (m !! k) (t !! k)) eqn:Hs; [done|].
  destruct (t !! k); simpl; [|done]. by rewrite !bool_decide_true.
Qed.

Lemma bytes_set_iter_spec (x : gset bytes) :
  StronglySorted bytes_lt (bytes_set_iter x) ∧ ∀ k, k ∈ bytes_set_iter x ↔ k ∈ x.
Proof.
  assert (bytes_set_iter x ≡ₚ elements x) as Hp by apply merge_sort_Permutation.
  split; [|intros k; by rewrite Hp, elem_of_elements].
  assert (NoDup (bytes_set_iter x)) as Hnd by (rewrite Hp; apply NoDup_elements).
  assert (StronglySorted bytes_le (bytes_set_iter x)) as Hs.
  { apply Sorted_StronglySorted.
    - intros a b c. unfold bytes_le. rewrite !bytes_leb_spec. intros [Hab| ->] [Hbc| ->]; auto. left. by eapply bytes_lt_trans.
    - apply Sorted_merge_sort. intros a b. unfold bytes_le. rewrite !bytes_leb_spec.
      destruct (bytes_lt_trichotomy a b) as [?|[->|?]]; auto. }
  clear Hp. revert Hnd. induction Hs as [|k l Hs IH Hle]; intros Hnd; [constructor|]. apply NoDup_cons in Hnd as [Hk Hnd].
  constructor; [by apply IH|]. rewrite Forall_forall in Hle |- *. intros k' Hk'. specialize (Hle k' Hk').
  apply bytes_leb_spec in Hle as [?| ->]; [done|done].
Qed.

Lemma StronglySorted_bytes_NoDup (l : list bytes) : StronglySorted bytes_lt l → NoDup l.
Proof.
  induction 1 as [|k l _ IH Hlt]; constructor; [|done]. intros Hin. rewrite Forall_forall in Hlt.
  by apply (bytes_lt_irrefl k), Hlt.
Qed.

(** What a rollback needs: both maps can be read whole, together they are within
    the limit, and no generation is the last one. *)
Record restorable (limits : NamespaceLimits) (m t : gmap bytes MerkleValue) : Prop := {
  rb_m : pageable m;
  rb_t : pageable t;
  rb_limit : (max_rollback_entries limits < usize_max)%N;
  rb_size : (N.of_nat (size (dom m ∪ dom t)) ≤ max_rollback_entries limits)%N;
  rb_gen k v : m !! k = Some v → (generation v < u64_max)%N
}.

Lemma restore_batch_valid s root root' m t :
  holds s root m → holds s root' t → (∀ k v, m !! k = Some v → (generation v < u64_max)%N) →
  validate_mutations (omap (restore_batch m t) (bytes_set_iter (dom m ∪ dom t))) ml = Ok ().
Proof.
  intros Hm Ht Hgen. destruct (bytes_set_iter_spec (dom m ∪ dom t)) as [Hs Hin].
  assert (∀ k, next_generation (m !! k) ≠ 0%N) as Hnz.
  { intros k. unfold next_generation, wrapping_add. destruct (m !! k) as [v|] eqn:Hk; [|done]. specialize (Hgen _ _ Hk).
    rewrite N.mod_small by lia. lia. }
  unfold validate_mutations. destruct (sorted_batch id (restore_batch m t) ml (bytes_set_iter (dom m ∪ dom t)) None)
    as [last ->]; [|by rewrite list_fmap_id|done|done].
  intros k mu Hk Hb. apply Hin in Hk. assert (len k ≤ max_key_bytes ml)%N as Hlen.
  { apply elem_of_union in Hk as [[v Hv]%elem_of_dom|[v Hv]%elem_of_dom].
    - exact (holds_bound s root m k v Hm Hv).
    - exact (holds_bound s root' t k v Ht Hv). }
  unfold restore_batch in Hb. destruct (same_logical_value _ _); [done|]. injection Hb as <-.
  destruct (t !! k) as [v|] eqn:Hv; [|done]. split_and!; [done|done|].
  pose proof (holds_value _ _ _ _ _ Ht Hv) as Hval. revert Hval. unfold validate_value, restore_value. simpl.
  rewrite (proj2 (N.eqb_neq (next_generation (m !! k)) 0) (Hnz k)). simpl.
  intros (_ & _ & Hval)%bind_Ok. exact Hval.
Qed.

Lemma size_union_bounds (m t : gmap bytes MerkleValue) :
  size m ≤ size (dom m ∪ dom t) ∧ size t ≤ size (dom m ∪ dom t).
Proof. rewrite <-!size_dom. split; apply subseteq_size; set_solver. Qed.

Lemma whole_fits m limit : (N.of_nat (size m) ≤ limit)%N → whole_or_too_large m limit = Ok m.
Proof. intros Hle. unfold whole_or_too_large. by rewrite (proj2 (N.ltb_ge limit (N.of_nat (size m))) Hle). Qed.

Lemma rollback_spec s st rev msg e limits target m t :
  history st !! rev = Some target → holds s (current_root_cid st) m → holds s (root_cid target) t →
  restorable limits m t →
  (rollback st rev msg e limits ml s = (Err NoChanges, s) ∧ ∀ k, same_logical_value (m !! k) (t !! k) = true)
  ∨ ∃ draft m', runs ml s (rollback st rev msg e limits ml) (commits ml st draft e m') ∧ ∀ k, m' !! k = restored m t k.
Proof.
  intros Hrev Hm Ht [Hpm Hpt Hlim Hsize Hgen]. destruct (size_union_bounds m t) as [Hsm Hst].
  destruct (bytes_set_iter_spec (dom m ∪ dom t)) as [Hs Hin].
  assert (len (bytes_set_iter (dom m ∪ dom t)) = N.of_nat (size (dom m ∪ dom t))) as Hlen.
  { unfold len, bytes_set_iter. by rewrite merge_sort_Permutation. }
  set (keys := bytes_set_iter (dom m ∪ dom t)) in *. set (ms := omap (restore_batch m t) keys).
  assert (∀ k, foldl mutate m ms !! k = restored m t k) as Hres.
  { intros k. destruct (decide (k ∈ keys)) as [Hk|Hk].
    - apply restored_lookup; [by apply StronglySorted_bytes_NoDup|done|done].
    - unfold ms. rewrite restored_other by done. rewrite Hin in Hk. apply not_elem_of_union in Hk as [Hk1 Hk2].
      apply not_elem_of_dom in Hk1, Hk2. unfold restored. by rewrite Hk1, Hk2. }
  set (draft := mkDraft ms (omap (restore_change m t) keys) (current_revision st)
                  (Some (default ("rollback to revision " +:+ fmt_radix 10 rev) msg))).
  assert (rollback st rev msg e limits ml s = commit_merkle_mutations st draft e ml s) as Hrun.
  { unfold rollback, mbind, stm_bind, lift, reads. rewrite Hrev. simpl.
    rewrite (read_all_spec s (current_root_cid st) _ m Hm Hpm Hlim), (whole_fits m) by lia. simpl.
    rewrite (read_all_spec s (root_cid target) _ t Ht Hpt Hlim), (whole_fits t) by lia. simpl. fold keys.
    rewrite (proj2 (N.ltb_ge (max_rollback_entries limits) (len keys))) by lia. simpl. by rewrite plan_restore_spec. }
  destruct (decide (ms = [])) as [Hnil|Hne].
  - left. split.
    + rewrite Hrun. unfold commit_merkle_mutations, mbind, stm_bind, lift. simpl. by rewrite Hnil.
    + intros k. rewrite <-(restored_same m t k), <-Hres, Hnil. done.
  - right. exists draft, (foldl mutate m ms). split; [|done]. unfold runs. rewrite Hrun.
    apply (commit_merkle_spec ml s st draft e m Hm Hne). unfold draft. simpl. by eapply restore_batch_valid.
Qed.

(** C6: rolling back to a revision restores its contents as a new revision.  Every
    key has the CID, kind and metadata it had then; the keys that change get the
    next generation, never an old one; and the command fails only when nothing
    differs or a block is refused, with the state unchanged. *)
Theorem rollback_restores M e f rev msg target m t :
  merkle_limits M = ml → admits M e f → idempotency (state M) !! request_id e = None →
  command e = Rollback rev msg → history (state M) !! rev = Some target →
  holds (store M) (current_root_cid (state M)) m → holds (store M) (root_cid target) t →
  restorable (namespace_limits M) m t →
  match apply e M with
  | (Ok r, M') =>
      ∃ m', holds (store M') (current_root_cid (state M')) m'
        ∧ (∀ k, m' !! k = restored m t k ∧ same_logical_value (m' !! k) (t !! k) = true)
        ∧ current_revision (state M') = saturating_add u64_max (current_revision (state M)) 1
  | (Err err, M') =>
      state M' = state M ∧ keeps (store M) (store M')
      ∧ (blocked ml err ∨ (err = NoChanges ∧ ∀ k, same_logical_value (m !! k) (t !! k) = true))
  end.
Proof.
  intros Hml Had Hnone Hcmd Hrev Hm Ht Hok. rewrite (apply_fresh M e f Had Hnone). unfold run_command.
  assert (command (stamped (state M) e) = Rollback rev msg) as ->.
  { unfold stamped. by destruct (history (state M) !! current_revision (state M)). }
  rewrite Hml. unfold mbind, stm_bind.
  destruct (rollback_spec (store M) (state M) rev msg (stamped (state M) e) (namespace_limits M) target m t Hrev Hm Ht Hok)
    as [[-> Hsame]|(draft & m' & (r & s' & Hrun & Hk & Hpost) & Hres)].
  - simpl. split_and!; [done|done|]. by right.
  - rewrite Hrun. destruct r as [[cr next]|err]; simpl; [|split_and!; [done|done|by left]].
    destruct Hpost as (root & cid & payload & Hroot & _ & _ & _ & [= _ ->]). exists m'. split_and!; [done| |done].
    intros k. rewrite Hres. split; [done|apply restored_same].
Qed.

End History.
