(* ===== verification/NamespacePins.v ===== *)
(** * Retention: which blocks a namespace keeps pinned

    Every applied command reports the change of the protected set as pin intents.
    The file says what the protected set is, what the retention rule keeps in
    numbers, and that the intents of a run add up to the protected set. *)
From stdpp Require Import base gmap sets list strings sorting.
From Stdlib Require Import Strings.Byte.
From S2P Require Import Prelude Types Merkle MerkleTree MerkleInterface Namespace NamespaceFacts.

Lemma elem_of_map_iter {A} (m : gmap N A) k a : (k, a) ∈ map_iter m ↔ m !! k = Some a.
Proof. by rewrite map_iter_perm, elem_of_map_to_list. Qed.

(** ** The retention rule in numbers *)

Definition i64_range (z : Z) : Prop := (i64_min ≤ z ≤ i64_max)%Z.

(** What [keep_last] and [max_age_seconds] mean. *)
Definition within_retention (st : NamespaceState) (now : Z) (rec : RevisionRecord) : Prop :=
  (current_revision st < revision rec + keep_last (retention (descriptor st)))%N
  ∨ ∃ age, max_age_seconds (retention (descriptor st)) = Some age
           ∧ (now - committed_at_unix_seconds rec ≤ Z.of_N age)%Z.

Section Pins.
Context `{Blake3} `{!Blake3Laws} `{Hex} `{!HexLaws} `{Json Node} `{Json CursorRecord} `{NamespaceJson} `{CommandAuthorizer}.
Context {S : Type} `{MerkleStore S} `{!MerkleStoreLaws S} (ml : MerkleLimits) `{!OrderedMap S ml}.

(** ** The protected set *)

(** The roots with their commits that [protected_roots] goes through. *)
Definition protects (st : NamespaceState) (c : Cid) : Prop :=
  c = current_root_cid st ∨ head_commit_cid st = Some c
  ∨ (∃ rev rec, history st !! rev = Some rec ∧ retained st rec = true
       ∧ (c = root_cid rec ∨ commit_cid rec = Some c))
  ∨ (∃ name sn, named_snapshots st !! name = Some sn
       ∧ (c = snapshot_root_cid sn ∨ snapshot_commit_cid sn = Some c)).

(** The text names a CID of the pair. *)
Definition names (k : string) (root : Cid) (commit : option Cid) : Prop :=
  k = Cid_to_string root ∨ ∃ c, commit = Some c ∧ k = Cid_to_string c.

Lemma protect_lookup root commit r1 r2 m k :
  is_Some (protect root commit r1 r2 m !! k) ↔ names k root commit ∨ is_Some (m !! k).
Proof. unfold protect, names. destruct commit; rewrite ?lookup_insert_is_Some'; naive_solver. Qed.

Lemma protect_foldl {A} (keep : A → bool) (root : A → Cid) (commit : A → option Cid) (r1 r2 : A → string) l m k :
  is_Some (foldl (λ acc a, if keep a then protect (root a) (commit a) (r1 a) (r2 a) acc else acc) m l !! k)
  ↔ is_Some (m !! k) ∨ ∃ a, a ∈ l ∧ keep a = true ∧ names k (root a) (commit a).
Proof.
  revert m. induction l as [|a l IH]; intros m; simpl.
  - split; [by left|]. intros [?|(? & ?%elem_of_nil & _)]; done.
  - rewrite IH. assert (is_Some ((if keep a then protect (root a) (commit a) (r1 a) (r2 a) m else m) !! k)
      ↔ is_Some (m !! k) ∨ (keep a = true ∧ names k (root a) (commit a))) as ->.
    { destruct (keep a); [rewrite protect_lookup|]; intuition done. }
    split.
    + intros [[Hm|[Hk Hn]]|(b & Hb & Hk & Hn)]; [by left|right; exists a|right; exists b]; split_and!; try done; set_solver.
    + intros [Hm|(b & [->|Hb]%elem_of_cons & Hk & Hn)]; [by left; left|by left; right|right; by exists b].
Qed.

Lemma protected_roots_spec st k :
  is_Some (protected_roots st !! k) ↔ ∃ c, protects st c ∧ k = Cid_to_string c.
Proof.
  unfold protected_roots.
  rewrite (protect_foldl (λ _, true) (λ ns, snapshot_root_cid ns.2) (λ ns, snapshot_commit_cid ns.2)).
  rewrite (protect_foldl (λ rr, retained st rr.2) (λ rr, root_cid rr.2) (λ rr, commit_cid rr.2)).
  rewrite protect_lookup, lookup_empty. unfold protects, names. split.
  - intros [[[[->|(c & Hc & ->)]|[? ?]]|([rev rec] & Hin%elem_of_map_iter & Hk & Hn)]|([n sn] & Hin%elem_of_btree_iter & _ & Hn)];
      [naive_solver..| |].
    + destruct Hn as [->|(c & Hc & ->)]; [exists (root_cid rec)|exists c]; naive_solver.
    + destruct Hn as [->|(c & Hc & ->)]; [exists (snapshot_root_cid sn)|exists c]; naive_solver.
  - intros (c & [->|[Hh|[(rev & rec & Hin & Hk & Hc)|(n & sn & Hin & Hc)]]] & ->); [naive_solver..| |].
    + left. right. exists (rev, rec). rewrite elem_of_map_iter. simpl. naive_solver.
    + right. exists (n, sn). rewrite elem_of_btree_iter. simpl. naive_solver.
Qed.

Lemma protects_wf s st c : world ml s st → protects st c → wf_cid c.
Proof.
  intros Hw Hp.
  assert (∀ root m, holds s root m → wf_cid root) as Hroot.
  { intros root m Hm. apply holds_cid in Hm as [p ->]. by apply Cid_new_wf. }
  assert (∀ o, commit_codec o → o = Some c → wf_cid c) as Hcommit.
  { intros o Ho Hc. destruct (Ho c Hc) as [p ->]. by apply Cid_new_wf. }
  destruct Hp as [->|[Hh|[(rev & rec & Hin & _ & Hc)|(n & sn & Hin & Hc)]]].
  - destruct (world_root ml s st Hw) as [m Hm]. eauto.
  - eapply Hcommit; [|done]. by eapply w_head.
  - destruct (w_history _ _ _ Hw _ _ Hin) as (_ & _ & [m Hm] & Ho). destruct Hc as [->|Hc]; eauto.
  - destruct (w_snapshots _ _ _ Hw _ _ Hin) as (_ & [m Hm] & Ho). destruct Hc as [->|Hc]; eauto.
Qed.

(** ** The intents of one command *)

Lemma elem_of_missing act these those i :
  i ∈ missing_intents act these those ↔
  ∃ k, these !! k = Some (reason i) ∧ those !! k = None ∧ Cid_from_str k = Ok (pin_cid i) ∧ action i = act.
Proof.
  unfold missing_intents. rewrite list_elem_of_omap. split.
  - intros ([k r] & Hin%elem_of_btree_iter & Hi). simpl in Hi. case_bool_decide as Hn; [done|].
    destruct (Cid_from_str k) as [c|] eqn:Hc; [|done]. injection Hi as <-. exists k. by rewrite eq_None_not_Some.
  - intros (k & Hk & Hn & Hc & <-). exists (k, reason i). rewrite elem_of_btree_iter. split; [done|]. simpl.
    rewrite bool_decide_false by (by rewrite <-eq_None_not_Some). rewrite Hc. by destruct i.
Qed.

(** A holder of pins acting on an intent. *)
Definition obey (pins : gset string) (i : PinIntent) : gset string :=
  match action i with
  | Protect => {[Cid_to_string (pin_cid i)]} ∪ pins
  | Release => pins ∖ {[Cid_to_string (pin_cid i)]}
  end.

Lemma obey_one pins i k :
  k ∈ obey pins i ↔ if decide (Cid_to_string (pin_cid i) = k) then action i = Protect else k ∈ pins.
Proof.
  unfold obey. destruct (action i); [rewrite elem_of_union|rewrite elem_of_difference]; rewrite elem_of_singleton;
    destruct (decide (Cid_to_string (pin_cid i) = k)) as [Hk|Hk]; intuition congruence.
Qed.

(** Intents that agree on [k] decide it; otherwise it stays as it was. *)
Lemma obey_decided l pins k a :
  (∀ i, i ∈ l → Cid_to_string (pin_cid i) = k → action i = a) →
  (∃ i, i ∈ l ∧ Cid_to_string (pin_cid i) = k) → k ∈ foldl obey pins l ↔ a = Protect.
Proof.
  induction l as [|j l IH] using rev_ind; intros Hall (i & Hi & Hk); [by apply elem_of_nil in Hi|].
  rewrite foldl_app. simpl. rewrite obey_one. destruct (decide (Cid_to_string (pin_cid j) = k)) as [Hj|Hj].
  - rewrite (Hall j); [done|by apply elem_of_app; right; left|done].
  - apply IH; [intros i' Hi'; apply Hall, elem_of_app; by left|]. exists i. split; [|done].
    apply elem_of_app in Hi as [Hi|[->|[]%elem_of_nil]%elem_of_cons]; done.
Qed.

Lemma obey_other l pins k :
  (∀ i, i ∈ l → Cid_to_string (pin_cid i) ≠ k) → k ∈ foldl obey pins l ↔ k ∈ pins.
Proof.
  revert pins. induction l as [|j l IH]; intros pins Hall; [done|]. simpl.
  rewrite IH, obey_one; [|intros i Hi; apply Hall; by right]. rewrite decide_False; [done|]. apply Hall. by left.
Qed.

(** All keys are texts of CIDs. *)
Definition textual (m : gmap string string) : Prop :=
  ∀ k, is_Some (m !! k) → ∃ c, Cid_from_str k = Ok c ∧ Cid_to_string c = k.

Lemma diff_obeyed before after :
  textual before → textual after → foldl obey (dom before) (diff_pin_intents before after) = dom after.
Proof.
  intros Hb Ha. apply set_eq. intros k. set (l := diff_pin_intents before after).
  assert (∀ i, i ∈ l ↔ i ∈ missing_intents Protect after before ∨ i ∈ missing_intents Release before after) as Hl.
  { intros i. unfold l, diff_pin_intents. by rewrite merge_sort_Permutation, elem_of_app. }
  assert (∀ k' i, textual before → is_Some (before !! k') ∨ is_Some (after !! k') → Cid_from_str k' = Ok (pin_cid i) →
     Cid_to_string (pin_cid i) = k') as Htext.
  { intros k' i _ [(c & Hc & ?)%Hb|(c & Hc & ?)%Ha]; congruence. }
  rewrite elem_of_dom. destruct (before !! k) as [rb|] eqn:Hkb, (after !! k) as [ra|] eqn:Hka.
  1,4: rewrite obey_other; [rewrite elem_of_dom, Hkb; naive_solver|];
    intros i [(k' & Hk' & Hn & Hc & _)%elem_of_missing|(k' & Hk' & Hn & Hc & _)%elem_of_missing]%Hl Heq;
    rewrite (Htext k' i Hb) in Heq by eauto; congruence.
  - destruct (Hb k) as (c & Hc & Ht); [by eexists|]. rewrite (obey_decided l _ k Release); [naive_solver| |].
    + intros i [(k' & Hk' & Hn & Hci & _)%elem_of_missing|(_ & _ & _ & _ & ?)%elem_of_missing]%Hl Heq; [|done].
      rewrite (Htext k' i) in Heq by eauto. congruence.
    + exists (mkPinIntent c Release rb). split; [|done]. rewrite Hl. right. apply elem_of_missing. by exists k.
  - destruct (Ha k) as (c & Hc & Ht); [by eexists|]. rewrite (obey_decided l _ k Protect); [naive_solver| |].
    + intros i [(_ & _ & _ & _ & ?)%elem_of_missing|(k' & Hk' & Hn & Hci & _)%elem_of_missing]%Hl Heq; [done|].
      rewrite (Htext k' i) in Heq by eauto. congruence.
    + exists (mkPinIntent c Protect ra). split; [|done]. rewrite Hl. left. apply elem_of_missing. by exists k.
Qed.

Lemma protected_textual s st : world ml s st → textual (protected_roots st).
Proof.
  intros Hw k (c & Hp & ->)%protected_roots_spec. exists c. split; [|done]. by eapply cid_text_roundtrip, protects_wf.
Qed.

(** ** A run of the machine and a holder of pins *)

(** The holder acts on the intents of every command that was applied, not on those
    of a request that was answered from the table. *)
Definition follow (Mp : NamespaceStateMachine S * gset string) (e : CommandEnvelope)
  : NamespaceStateMachine S * gset string :=
  let '(res, M') := apply e Mp.1 in
  (M', match res with Ok r => if replayed r then Mp.2 else foldl obey Mp.2 (pin_intents r) | Err _ => Mp.2 end).

Lemma follow_one M e :
  world ml (store M) (state M) → merkle_limits M = ml → (current_revision (state M) < u64_max)%N →
  let '(M', pins) := follow (M, dom (protected_roots (state M))) e in
  world ml (store M') (state M') ∧ merkle_limits M' = ml ∧ (current_revision (state M') ≤ current_revision (state M) + 1)%N
  ∧ pins = dom (protected_roots (state M')).
Proof.
  intros Hw Hml Hlt. unfold follow. simpl. destruct (apply e M) as [res M'] eqn:Ha.
  destruct (apply_cases ml M e res M' Hw Hml Hlt Ha)
    as [(Hk & Hst & _ & Hml' & Hr)|(f & r & next & _ & _ & -> & HM & Hk & (Hw' & _ & _ & _ & _ & Hresp))].
  - rewrite Hst. split_and!; [by eapply world_keeps|done|lia|]. destruct res as [r|]; [|done]. by destruct (Hr r eq_refl) as [-> _].
  - set (s' := store M') in *. clearbody s'. subst M'. simpl in *. split_and!; [by apply (world_recorded ml s' next)|done| |].
    + destruct r; destruct Hresp; lia.
    + apply (diff_obeyed (protected_roots (state M)) (protected_roots next)); by eapply protected_textual.
Qed.


(** The retention rule keeps a revision exactly when it is among the last
    [keep_last] or no older than [max_age_seconds] seconds: the saturating
    arithmetic loses nothing as long as the age fits a signed 64-bit integer. *)
Theorem retained_exact st rec now :
  history st !! current_revision st = Some now → (revision rec ≤ current_revision st < u64_max)%N →
  i64_range (committed_at_unix_seconds now) → i64_range (committed_at_unix_seconds rec) →
  (∀ age, max_age_seconds (retention (descriptor st)) = Some age → (Z.of_N age ≤ i64_max)%Z) →
  retained st rec = true ↔ within_retention st (committed_at_unix_seconds now) rec.
Proof.
  intros Hnow Hlt Hin Hir Hage. unfold retained, first_retained, age_cutoff, within_retention. rewrite Hnow. simpl.
  rewrite orb_true_iff, N.leb_le. unfold saturating_add, saturating_sub, i64_range in *.
  assert (N.min u64_max (current_revision st + 1) - keep_last (retention (descriptor st)) ≤ revision rec
    ↔ current_revision st < revision rec + keep_last (retention (descriptor st)))%N as -> by lia.
  destruct (max_age_seconds (retention (descriptor st))) as [age|]; simpl; [|naive_solver].
  specialize (Hage age eq_refl). rewrite Z.leb_le. unfold u64_as_i64, saturating_sub_i64.
  rewrite (proj2 (N.leb_le age _)) by (unfold i64_max in *; lia).
  assert (Z.max i64_min (Z.min i64_max (committed_at_unix_seconds now - Z.of_N age)) ≤ committed_at_unix_seconds rec
    ↔ committed_at_unix_seconds now - committed_at_unix_seconds rec ≤ Z.of_N age)%Z as -> by lia.
  naive_solver.
Qed.

End Pins.
