(* ===== verification/NamespaceRequests.v ===== *)
(** * The request table

    Applied requests are remembered up to a limit; beyond it the oldest are
    dropped, by revision and then by request id. *)
From stdpp Require Import base gmap sets list strings sorting.
From Stdlib Require Import Strings.Byte.
From S2P Require Import Prelude Types Merkle MerkleTree MerkleInterface Namespace NamespaceFacts NamespacePins.

Notation entry := (string * IdempotencyRecord)%type.

Lemma older_spec (a b : entry) :
  older a b = true ↔ (applied_revision a.2 < applied_revision b.2)%N
    ∨ (applied_revision a.2 = applied_revision b.2 ∧ bytes_lt (as_bytes a.1) (as_bytes b.1)).
Proof. unfold older. rewrite orb_true_iff, andb_true_iff, N.ltb_lt, N.eqb_eq. done. Qed.

Lemma older_trans a b c : older a b = true → older b c = true → older a c = true.
Proof.
  rewrite !older_spec. intros [?|[? ?]] [?|[? ?]]; [left; lia..|]. right. split; [lia|]. by eapply bytes_lt_trans.
Qed.

Lemma older_irrefl a : older a a = false.
Proof. apply not_true_is_false. rewrite older_spec. intros [?|[_ ?%bytes_lt_irrefl]]; [lia|done]. Qed.

Lemma not_older_trans a b c : older b a = false → older c b = false → older c a = false.
Proof.
  rewrite <-!not_true_iff_false, !older_spec. intros Hab Hbc Hca. destruct Hca as [Hr|[Hr Hk]].
  - destruct (N.lt_trichotomy (applied_revision a.2) (applied_revision b.2)) as [?|[?|?]]; [|lia|tauto].
    apply Hbc. left. lia.
  - destruct (N.lt_trichotomy (applied_revision a.2) (applied_revision b.2)) as [?|[?|?]]; [apply Hbc; left; lia| |tauto].
    destruct (bytes_lt_trichotomy (as_bytes c.1) (as_bytes b.1)) as [Hlt|[Heq|Hlt]].
    + apply Hbc. right. split; [lia|done].
    + apply Hab. right. rewrite <-Heq. split; [lia|done].
    + apply Hab. right. split; [lia|]. by eapply bytes_lt_trans.
Qed.

(** [oldest] finds the least element. *)
Lemma oldest_spec best (l : list entry) :
  oldest best l ∈ best :: l ∧ ∀ x, x ∈ best :: l → older x (oldest best l) = false.
Proof.
  revert best. induction l as [|y l IH]; intros best.
  { split; [by left|]. intros x [->|[]%elem_of_nil]%elem_of_cons. apply older_irrefl. }
  change (oldest best (y :: l)) with (oldest (if older y best then y else best) l).
  destruct (IH (if older y best then y else best)) as [Hin Hmin]. set (o := oldest _ l) in *. clearbody o.
  destruct (older y best) eqn:Hy.
  - split; [by right|]. intros x [->|Hx]%elem_of_cons; [|by apply Hmin].
    apply (not_older_trans _ y); [apply Hmin; by left|]. apply not_true_is_false. intros Hb.
    pose proof (older_trans _ _ _ Hy Hb) as Hyy. by rewrite older_irrefl in Hyy.
  - split; [apply elem_of_cons in Hin as [->|]; [by left|by right; right]|].
    intros x [->|[->|Hx]%elem_of_cons]%elem_of_cons; [apply Hmin; by left| |apply Hmin; by right].
    apply (not_older_trans _ best); [apply Hmin; by left|done].
Qed.

(** What is kept is not older than what is dropped, and nothing is dropped within
    the limit. *)
Definition prunes (records kept : gmap string IdempotencyRecord) (limit : N) : Prop :=
  kept ⊆ records ∧ N.of_nat (size kept) = N.min (N.of_nat (size records)) limit
  ∧ ∀ k r k' r', records !! k = Some r → kept !! k = None → kept !! k' = Some r' → older (k', r') (k, r) = false.

Lemma prune_loop_spec rounds records limit :
  size records ≤ rounds → prunes records (prune_loop rounds records limit) limit.
Proof.
  revert records. induction rounds as [|rounds IH]; intros records Hsz; simpl.
  { split_and!; [done|lia|]. intros k r k' r' Hk Hn. congruence. }
  destruct (N.ltb_spec limit (N.of_nat (size records))) as [Hlt|Hge].
  2:{ split_and!; [done|lia|]. intros k r k' r' Hk Hn. congruence. }
  destruct (btree_iter records) as [|x l] eqn:Hiter.
  { exfalso. assert (size records = 0) as Hs; [|lia]. unfold btree_iter in Hiter. apply map_size_empty_iff, map_to_list_empty_iff.
    apply Permutation_nil_r. by rewrite <-Hiter, merge_sort_Permutation. }
  destruct (oldest_spec x l) as [Hin Hmin]. set (o := oldest x l) in *. clearbody o. rewrite <-Hiter in Hin, Hmin.
  destruct o as [ok or]. apply elem_of_btree_iter in Hin. simpl.
  assert (size records = Datatypes.S (size (delete ok records))) as Hsize.
  { rewrite (map_size_delete_Some ok records) by by eexists. assert (size records ≠ 0); [|lia].
    rewrite map_size_non_empty_iff. intros ->. by rewrite lookup_empty in Hin. }
  destruct (IH (delete ok records)) as (Hsub & Hcount & Hold); [lia|]. split_and!.
  - etransitivity; [done|]. apply delete_subseteq.
  - lia.
  - intros k r k' r' Hk Hn Hk'. destruct (decide (ok = k)) as [<-|Hne].
    + assert (r = or) as -> by congruence. apply Hmin, elem_of_btree_iter. eapply lookup_weaken in Hk'; [|exact Hsub].
      by apply lookup_delete_Some in Hk' as [_ ?].
    + eapply Hold; [|done..]. by rewrite lookup_delete_ne.
Qed.

(** The loop has left by itself: more rounds change nothing. *)
Lemma prune_loop_ends rounds more records limit :
  size records ≤ rounds → prune_loop (rounds + more) records limit = prune_loop rounds records limit.
Proof.
  revert records. induction rounds as [|rounds IH]; intros records Hsz.
  { destruct more; simpl; [done|]. by rewrite (proj2 (N.ltb_ge _ _)) by lia. }
  simpl. destruct (limit <? N.of_nat (size records))%N; [|done].
  destruct (btree_iter records) as [|x l] eqn:Hiter; [done|]. apply IH. destruct (oldest_spec x l) as [Hin _].
  rewrite <-Hiter in Hin. destruct (oldest x l) as [ok or]. apply elem_of_btree_iter in Hin. simpl.
  rewrite (map_size_delete_Some ok records) by by eexists. lia.
Qed.

(** The request table is pruned to its limit and no further: the loop ends, it
    drops as many records as are over the limit, and a dropped record is never
    newer, by revision and then request id, than one it keeps. *)
Theorem prune_exact state limit :
  prunes (idempotency state) (idempotency (prune_idempotency state limit)) limit
  ∧ ∀ more, prune_loop (size (idempotency state) + more) (idempotency state) limit
            = idempotency (prune_idempotency state limit).
Proof.
  split; [by apply prune_loop_spec|]. intros more. by apply prune_loop_ends.
Qed.
