(* ===== verification/NamespaceCheckpoints.v ===== *)
(** * Checkpoints: writing the state of a namespace and starting again from it

    A checkpoint that is too large for one block is cut into segments named by a
    manifest.  Loading reads the manifest's type, reassembles the payload and
    validates the state. *)
From stdpp Require Import base gmap sets list strings sorting.
From Stdlib Require Import Strings.Byte.
From S2P Require Import Prelude Types Merkle MerkleTree MerkleRefinement MerkleInterface Namespace NamespaceFacts NamespacePins.

(** What the crate relies on of serde_json: values read back, and a header reads
    the type field of a document that has more fields. *)
Class NamespaceJsonLaws `{NamespaceJson} : Prop := {
  descriptor_laws :: JsonLaws NamespaceDescriptor;
  commit_laws :: JsonLaws NamespaceCommit;
  checkpoint_laws :: JsonLaws NamespaceCheckpoint;
  segments_laws :: JsonLaws NamespaceCheckpointSegments;
  header_checkpoint (c : NamespaceCheckpoint) p :
    to_vec c = Ok p → header_from_slice p = Ok (mkHeader (checkpoint_type c));
  header_segments (c : NamespaceCheckpointSegments) p :
    to_vec c = Ok p → header_from_slice p = Ok (mkHeader (segments_type c))
}.

Section Checkpoints.
Context `{Blake3} `{Hex} `{!HexLaws} `{Json Node} `{Json CursorRecord} `{NamespaceJson} `{CommandAuthorizer}.
Context `{!NamespaceJsonLaws}.
Context {S : Type} `{MerkleStore S} `{!MerkleStoreLaws S} (ml : MerkleLimits) `{!OrderedMap S ml}.

Lemma decode_canonical_ok {A} `{JsonLaws A} (v : A) p : to_vec v = Ok p → decode_canonical p = Ok v.
Proof.
  intros Hp. unfold decode_canonical, canonical_bytes. rewrite (from_slice_to_vec v p Hp). simpl. rewrite Hp. simpl.
  by rewrite bool_decide_true.
Qed.

Lemma put_segments_spec s pieces :
  runs ml s (put_segments pieces)
    (λ cids s', ∀ s'' acc, keeps s' s'' → try_foldl (load_segment s'') acc cids = Ok (acc ++ concat pieces)).
Proof.
  revert s. induction pieces as [|p pieces IH]; intros s; simpl.
  { apply runs_ret. intros s'' acc _. simpl. by rewrite app_nil_r. }
  eapply runs_bind; [apply runs_put|]. intros cid s1 _ (-> & Hget).
  eapply runs_bind; [apply IH|]. intros cids s2 Hk Hcids. apply runs_ret. intros s'' acc Hk'. cbn [try_foldl concat].
  assert (load_segment s'' acc (Cid_new CODEC_NAMESPACE_CHECKPOINT p) = Ok (acc ++ p)) as ->.
  { unfold load_segment. rewrite (Hk' _ _ (Hk _ _ Hget)). simpl. by rewrite Cid_new_verify. }
  simpl. rewrite Hcids by done. by rewrite <-app_assoc.
Qed.

(** The payload under the CID assembles to [p], now and after later writes. *)
Definition assembles (p : bytes) (cid : Cid) (s' : S) : Prop :=
  ∃ payload, cid = Cid_new CODEC_NAMESPACE_CHECKPOINT payload
    ∧ ∀ s'', keeps s' s'' → store_get s'' cid = Ok payload ∧ assemble_checkpoint s'' payload = Ok p.

Lemma write_checkpoint_assembles s st at_ limit :
  (0 ≤ at_)%Z → (0 < limit)%N →
  runs ml s (write_checkpoint_with_segment_limit st at_ limit)
    (λ cid s', ∃ p, to_vec (mkCheckpoint CHECKPOINT_TYPE FORMAT_VERSION st at_) = Ok p ∧ assembles p cid s').
Proof.
  intros Hat Hl. unfold write_checkpoint_with_segment_limit. eapply runs_lift; [by rewrite (proj2 (Z.ltb_ge at_ 0))|].
  apply runs_canonical. intros p Hp. destruct (N.leb_spec (len p) limit).
  - eapply runs_mono; [apply runs_put|]. intros cid s' _ (-> & Hget). exists p. split; [done|]. exists p. split; [done|].
    intros s'' Hk. split; [by apply Hk|]. unfold assemble_checkpoint. by rewrite (header_checkpoint _ _ Hp).
  - eapply runs_bind; [apply put_segments_spec|]. intros cids s1 _ Hcids. apply runs_canonical. intros q Hq.
    eapply runs_mono; [apply runs_put|]. intros cid s2 Hk2 (-> & Hget). exists p. split; [done|]. exists q. split; [done|].
    intros s'' Hk. split; [by apply Hk|]. unfold assemble_checkpoint. rewrite (header_segments _ _ Hq). simpl.
    rewrite (decode_canonical_ok _ q Hq). simpl. rewrite Hcids by (by transitivity s2). rewrite concat_chunks by lia. simpl.
    by rewrite N.eqb_refl.
Qed.

Lemma write_checkpoint_loads s st at_ limits :
  (0 ≤ at_)%Z → NamespaceLimits_validate limits = Ok limits → validate_namespace_state st limits = Ok () →
  runs ml s (write_checkpoint st at_) (λ cid s', ∀ s'', keeps s' s'' → load_checkpoint s'' cid limits = Ok st).
Proof.
  intros Hat Hl Hv. eapply runs_mono; [by apply write_checkpoint_assembles|].
  intros cid s' _ (p & Hp & payload & -> & Hall) s'' Hk. destruct (Hall s'' Hk) as [Hget Has].
  unfold load_checkpoint. simpl. rewrite Hget. simpl. rewrite Cid_new_verify. simpl. rewrite Has. simpl.
  rewrite (decode_canonical_ok _ p Hp). simpl. rewrite Hl. simpl. by rewrite Hv.
Qed.

(** ** States that validate *)

(** The namespace is named by its own descriptor, which is valid. *)
Definition identified (limits : NamespaceLimits) (id : NamespaceId) (d : NamespaceDescriptor) : Prop :=
  NamespaceDescriptor_validate d limits = Ok ()
  ∧ ∃ p, to_vec d = Ok p ∧ id_cid id = Cid_new CODEC_NAMESPACE_DESCRIPTOR p.

Lemma world_validates s st limits :
  world ml s st → identified limits (namespace_id st) (descriptor st) → validate_namespace_state st limits = Ok ().
Proof.
  intros Hw (Hd & p & Hp & Hid). unfold validate_namespace_state, canonical_bytes. rewrite Hd, Hp. simpl.
  assert (∀ root m, holds s root m → (codec root =? CODEC_MERKLE_NODE)%N = true) as Hroot.
  { intros root m Hm. by apply holds_cid in Hm as [q ->]. }
  assert (∀ o, commit_codec o → is_some_and (λ c, negb (codec c =? CODEC_NAMESPACE_COMMIT)%N) o = false) as Hcommit.
  { intros [c|] Ho; [|done]. by destruct (Ho c eq_refl) as [q ->]. }
  apply fail_if_Ok. rewrite bool_decide_true by done. destruct (world_root ml s st Hw) as [m Hm]. rewrite (Hroot _ m Hm). simpl.
  destruct (w_current _ _ _ Hw) as (rec & Hrec & Hcur). rewrite Hrec. simpl. rewrite bool_decide_true by done. simpl.
  rewrite !(proj2 (existsb_false_iff _ _)); [done| |].
  - intros [n sn] Hin%elem_of_btree_iter. simpl. destruct (w_snapshots _ _ _ Hw _ _ Hin) as (-> & [m' Hm'] & Ho).
    by rewrite bool_decide_true, (Hroot _ m' Hm'), (Hcommit _ Ho).
  - intros [rev r] Hin%elem_of_map_iter. simpl. destruct (w_history _ _ _ Hw _ _ Hin) as (-> & _ & [m' Hm'] & Ho).
    by rewrite N.eqb_refl, (Hroot _ m' Hm'), (Hcommit _ Ho).
Qed.

Lemma with_authorizer_opens s st limits :
  NamespaceLimits_validate limits = Ok limits → world ml s st → identified limits (namespace_id st) (descriptor st) →
  with_authorizer s st limits ml = Ok (mkMachine s st limits ml).
Proof.
  intros Hl Hw Hid. unfold with_authorizer. rewrite Hl. simpl. rewrite (proj1 Hid). simpl.
  by rewrite (world_validates s st limits Hw Hid).
Qed.

(** ** A new namespace *)

Lemma descriptor_time d limits : NamespaceDescriptor_validate d limits = Ok () → (0 ≤ created_at_unix_seconds d)%Z.
Proof.
  unfold NamespaceDescriptor_validate. intros (_ & _ & (_ & _ & (_ & _ & (_ & Ht%fail_if_Ok & _)%bind_Ok)%bind_Ok)%bind_Ok)%bind_Ok.
  rewrite !orb_false_iff in Ht. destruct Ht as [_ Ht]. lia.
Qed.

Lemma create_world s d limits :
  NamespaceLimits_validate limits = Ok limits → NamespaceDescriptor_validate d limits = Ok () →
  runs ml s (create_namespace d limits ml)
    (λ c s', let st := created_state c in
       world ml s' st ∧ holds s' (current_root_cid st) ∅ ∧ current_revision st = 0%N ∧ idempotency st = ∅
       ∧ identified limits (namespace_id st) (descriptor st)
       ∧ load_checkpoint s' (checkpoint_cid c) limits = Ok st).
Proof.
  intros Hl Hd. unfold create_namespace. eapply runs_lift; [done|]. eapply runs_lift; [done|]. apply runs_canonical.
  intros p Hp. eapply runs_bind; [apply runs_put|]. intros cid s1 _ (-> & _).
  eapply runs_lift; [reflexivity|]. eapply runs_bind; [apply runs_merkle, holds_empty|]. intros root s2 _ Hroot.
  set (st := mkNamespaceState _ _ _ _ _ _ _ _).
  assert (identified limits (namespace_id st) (descriptor st)) as Hid by (split; [done|]; by exists p).
  assert (∀ s3, keeps s2 s3 → world ml s3 st) as Hw.
  { intros s3 Hk. eapply holds_keeps in Hroot; [|done]. split; simpl.
    - rewrite lookup_singleton_eq. by eexists.
    - intros rev rec [<- <-]%lookup_singleton_Some. split_and!; [done|done|by exists ∅|done].
    - by intros rev rec rev' rec' [<- <-]%lookup_singleton_Some [<- <-]%lookup_singleton_Some _.
    - done.
    - intros name sn. by rewrite lookup_empty. }
  assert (0 ≤ created_at_unix_seconds d)%Z as Hat.
  { by eapply descriptor_time. }
  eapply runs_bind; [apply (write_checkpoint_loads s2 st _ limits Hat Hl)|].
  { eapply world_validates; [by apply (Hw s2)|done]. }
  intros ck s3 Hk Hload. apply runs_ret. simpl. split_and!; [by apply Hw|by eapply holds_keeps|done|done|done|by apply Hload].
Qed.

(** The machine keeps its invariant and its identity through any run. *)
Lemma run_all_world M es :
  world ml (store M) (state M) → merkle_limits M = ml → (current_revision (state M) + len es ≤ u64_max)%N →
  let M' := run_all es M in
  world ml (store M') (state M') ∧ namespace_limits M' = namespace_limits M ∧ merkle_limits M' = ml
  ∧ namespace_id (state M') = namespace_id (state M) ∧ descriptor (state M') = descriptor (state M).
Proof.
  revert M. induction es as [|e es IH]; intros M Hw Hml Hlt; [done|]. rewrite len_cons in Hlt. simpl.
  destruct (apply e M) as [res M'] eqn:Ha. simpl.
  destruct (apply_cases ml M e res M' Hw Hml ltac:(lia) Ha)
    as [(Hk & Hst & Hl & Hml' & _)|(f & r & next & _ & _ & _ & HM & Hk & (Hw' & _ & _ & Hid & Hd & Hresp))].
  - destruct (IH M') as (? & ? & ? & ? & ?); rewrite ?Hst; [by eapply world_keeps|done|lia|]. rewrite Hst in *. split_and!; congruence.
  - set (s' := store M') in *. clearbody s'. subst M'. simpl in *.
    destruct (IH (mkMachine s' (recorded M e f r next) (namespace_limits M) ml)) as (? & ? & ? & Hi & Hd'); simpl.
    + by apply (world_recorded ml s' next).
    + done.
    + destruct r; destruct Hresp; lia.
    + split_and!; [done..|rewrite Hi|rewrite Hd']; done.
Qed.

(** Loading a checkpoint and opening a machine on it. *)
Definition reopen (s : S) (cid : Cid) (limits : NamespaceLimits) : result NamespaceError (NamespaceStateMachine S) :=
  st ← load_checkpoint s cid limits; with_authorizer s st limits ml.

(** C8: after creating a namespace and any run of commands, a checkpoint of the
    machine either is refused by the store, with the state unchanged, or gives a
    CID from which loading and opening restore exactly the machine, whatever the
    number of segments it took. *)
Theorem restart_exact s d limits c s1 M0 es at_ :
  create_namespace d limits ml s = (Ok c, s1) → with_authorizer s1 (created_state c) limits ml = Ok M0 →
  (len es ≤ u64_max)%N → (0 ≤ at_)%Z →
  let M := run_all es M0 in
  match checkpoint at_ M with
  | (Ok cid, M') =>
      state M' = state M
      ∧ reopen (store M') cid limits = Ok M'
  | (Err e, M') => blocked ml e ∧ state M' = state M
  end.
Proof.
  intros Hc HM0 Hlen Hat.
  assert (NamespaceLimits_validate limits = Ok limits ∧ NamespaceDescriptor_validate d limits = Ok ()) as [Hl Hd].
  { unfold create_namespace, mbind, stm_bind, lift in Hc. destruct (NamespaceLimits_validate limits) as [l'|] eqn:Hl; [|done].
    assert (l' = limits) as -> by (unfold NamespaceLimits_validate in Hl; by apply bind_Ok in Hl as (_ & _ & [= ->])).
    by destruct (NamespaceDescriptor_validate d limits) as [[]|]. }
  destruct (create_world s d limits Hl Hd) as (r & s1' & Hc' & _ & Hpost). rewrite Hc in Hc'. injection Hc' as <- <-.
  destruct Hpost as (Hw & _ & Hrev & _ & Hid & _).
  assert (M0 = mkMachine s1 (created_state c) limits ml) as ->.
  { rewrite (with_authorizer_opens s1 (created_state c) limits Hl Hw Hid) in HM0. congruence. }
  destruct (run_all_world (mkMachine s1 (created_state c) limits ml) es) as (HwM & HlM & HmM & HiM & HdM); [done|done|simpl; lia|].
  set (M := run_all es _) in *. clearbody M. simpl in HlM, HiM, HdM. rewrite <-HiM, <-HdM in Hid.
  pose proof (world_validates _ _ _ HwM Hid) as Hv.
  destruct (write_checkpoint_loads (store M) (state M) at_ limits Hat Hl Hv) as (r & s2 & Hr & Hk & Hpost).
  unfold checkpoint, on_store. rewrite Hr. destruct r as [cid|e]; simpl; [|done]. split; [done|].
  unfold reopen. rewrite Hpost by done. simpl. rewrite (with_authorizer_opens s2 (state M) limits Hl); [|by eapply world_keeps|done].
  by rewrite HlM, HmM.
Qed.

End Checkpoints.
