(* ===== verification/NamespaceCommits.v ===== *)
(** * Commit blocks

    Every commit the machine makes is stored as a block that the traversal code
    accepts: it decodes, validates and links to the root it committed. *)
From stdpp Require Import base gmap sets list strings sorting.
From Stdlib Require Import Strings.Byte.
From S2P Require Import Prelude Types Merkle MerkleTree MerkleRefinement MerkleInterface Namespace NamespaceFacts.
From S2P Require Import NamespacePins NamespaceCheckpoints.

(** ** Hexadecimal keeps the order of keys *)

Lemma digit_byte_lt d d' :
  (d < d' < 16)%N → (Byte.to_N (Ascii.byte_of_ascii (digit_char d)) < Byte.to_N (Ascii.byte_of_ascii (digit_char d')))%N.
Proof.
  intros [Hd Hd']. assert (d < 16)%N as H16 by lia. revert d' Hd' d H16 Hd.
  refine (N_lt_16_cases _ _ _ _ _ _ _ _ _ _ _ _ _ _ _ _ _); refine (N_lt_16_cases _ _ _ _ _ _ _ _ _ _ _ _ _ _ _ _ _);
    intros Hlt; first [reflexivity|exfalso; lia].
Qed.

Lemma as_bytes_cons c s : as_bytes (String c s) = Ascii.byte_of_ascii c :: as_bytes s.
Proof. done. Qed.

Lemma hex_lower_lt a b : bytes_lt a b → bytes_lt (as_bytes (hex_lower a)) (as_bytes (hex_lower b)).
Proof.
  unfold bytes_lt. revert b. induction a as [|x a IH]; intros [|y b]; try done. rewrite bytes_ltb_cons.
  intros Hxy. cbn [hex_lower]. rewrite !as_bytes_cons, !bytes_ltb_cons.
  destruct Hxy as [Hlt|[-> Hab]]; [|right; split; [done|]; right; split; [done|]; by apply IH].
  pose proof (Byte.to_N_bounded y) as Hy. set (n := Byte.to_N x) in *. set (n' := Byte.to_N y) in *. clearbody n n'.
  pose proof (N.mod_lt n 16 ltac:(lia)). pose proof (N.mod_lt n' 16 ltac:(lia)).
  pose proof (N.div_mod n 16 ltac:(lia)). pose proof (N.div_mod n' 16 ltac:(lia)).
  generalize dependent (n / 16)%N. generalize dependent (n' / 16)%N.
  generalize dependent (n mod 16)%N. generalize dependent (n' mod 16)%N. intros l' Hl' l Hl h' Hh' h Hh.
  destruct (decide (h = h')) as [Heq|Hne].
  - right. rewrite Heq. split; [done|]. left. apply digit_byte_lt. lia.
  - left. apply digit_byte_lt. lia.
Qed.

Section Commits.
Context `{Blake3} `{Hex} `{!HexLaws} `{Json Node} `{Json CursorRecord} `{NamespaceJson} `{CommandAuthorizer}.
Context `{!NamespaceJsonLaws}.
Context {S : Type} `{MerkleStore S} `{!MerkleStoreLaws S} (ml : MerkleLimits) `{!OrderedMap S ml}.

(** ** The change a mutation of the map is reported as *)

Definition describe (mu : Mutation) : ChangedKey :=
  match mu with
  | Merkle.Put k v => mkChangedKey (hex_encode k) (Some (generation v)) (Some (Merkle.value_cid v))
  | Merkle.Delete k => mkChangedKey (hex_encode k) None None
  end.

Definition described (planned : list Mutation * list ChangedKey) : Prop := planned.2 = describe <$> planned.1.

Lemma describe_snoc acc mu : described acc → described (acc.1 ++ [mu], acc.2 ++ [describe mu]).
Proof. unfold described. simpl. intros ->. by rewrite fmap_app. Qed.

Lemma plan_described s root ms planned :
  try_foldl (plan_mutation s root ml) ([], []) ms = Ok planned → described planned.
Proof.
  apply (try_foldl_inv described); [|done]. intros acc mu acc' _ Hacc. unfold plan_mutation.
  intros (key & _ & (current & _ & ([] & _ & Hmu)%bind_Ok)%bind_Ok)%bind_Ok.
  destruct mu as [|k c vk md p|]; [by injection Hmu as <-| |].
  - injection Hmu as <-. by apply (describe_snoc acc (Merkle.Put key (mkValue c (next_generation current) vk md))).
  - apply bind_Ok in Hmu as (_ & _ & [= <-]). by apply (describe_snoc acc (Merkle.Delete key)).
Qed.

Lemma restore_described m t keys acc : described acc → described (foldl (plan_restore m t) acc keys).
Proof.
  revert acc. induction keys as [|k keys IH]; intros acc Hacc; simpl; [done|]. apply IH. unfold plan_restore.
  destruct (same_logical_value _ _); [done|]. destruct (t !! k) as [v|].
  - by apply (describe_snoc acc (Merkle.Put k (mkValue (Merkle.value_cid v) (next_generation (m !! k)) (Merkle.value_kind v) (Merkle.metadata v)))).
  - by apply (describe_snoc acc (Merkle.Delete k)).
Qed.

(** ** The changes of a valid batch *)

Definition sound_change (c : ChangedKey) : Prop :=
  is_Ok (hex_decode (changed_key_hex c)) = true ∧ (is_Some (changed_generation c) ↔ is_Some (changed_value_cid c))
  ∧ changed_generation c ≠ Some 0%N.

Lemma describe_sound mu prev next : check_mutation ml prev mu = Ok next → sound_change (describe mu).
Proof.
  unfold check_mutation. intros (_ & _ & ([] & Hv & _)%bind_Ok)%bind_Ok.
  assert (∀ k, is_Ok (hex_decode (hex_encode k)) = true) as Hhex.
  { intros k. rewrite hex_encode_lower. by rewrite (proj2 (hex_decode_parse _ k) (hex_parse_lower k)). }
  destruct mu as [k v|k]; split_and!; simpl; try done; try apply Hhex; try (split; by intros []).
  unfold validate_value in Hv. apply bind_Ok in Hv as ([] & Hg%fail_if_Ok & _). intros [= Heq]. by rewrite Heq in Hg.
Qed.

Lemma batch_described ms prev last :
  try_foldl (check_mutation ml) prev ms = Ok last →
  Forall sound_change (describe <$> ms)
  ∧ windows_any (λ a b, bytes_leb (as_bytes (changed_key_hex b)) (as_bytes (changed_key_hex a))) (describe <$> ms) = false
  ∧ ∀ p mu, prev = Some p → head ms = Some mu → bytes_lt p (Mutation_key mu).
Proof.
  assert (∀ mu, changed_key_hex (describe mu) = hex_lower (Mutation_key mu)) as Hkey.
  { intros []; apply hex_encode_lower. }
  revert prev. induction ms as [|mu ms IH]; intros prev; [done|]. cbn [try_foldl].
  intros (next & Hmu & Hrest)%bind_Ok. pose proof (describe_sound mu prev next Hmu) as Hsound.
  unfold check_mutation in Hmu. apply bind_Ok in Hmu as (_ & _ & Hmu). apply bind_Ok in Hmu as (_ & _ & Hmu).
  apply bind_Ok in Hmu as ([] & Hlt%fail_if_Ok & [= <-]). apply IH in Hrest as (Hall & Hwin & Hnext).
  split_and!; [by constructor| |].
  - destruct ms as [|mu' ms]; [done|]. cbn [fmap list_fmap windows_any] in *. rewrite Hwin, orb_false_r.
    rewrite !Hkey. unfold bytes_leb. apply negb_false_iff, hex_lower_lt. by apply Hnext.
  - intros p mu' -> [= <-]. simpl in Hlt. unfold bytes_leb in Hlt. by apply negb_false_iff in Hlt.
Qed.

(** ** The block of a commit *)

(** A record made from such a batch, by an accepted request, is valid. *)
Lemma commit_record_valid st draft e root prev :
  (∃ p, id_cid (namespace_id st) = Cid_new CODEC_NAMESPACE_DESCRIPTOR p) → codec root = CODEC_MERKLE_NODE →
  commit_codec (head_commit_cid st) → draft_mutations draft ≠ [] →
  described (draft_mutations draft, draft_changed_keys draft) →
  try_foldl (check_mutation ml) None (draft_mutations draft) = Ok prev →
  (draft_base_revision draft ≤ current_revision st < u64_max)%N →
  (0 ≤ timestamp_unix_seconds e)%Z → writer_identity e ≠ "" → request_id e ≠ "" →
  validate_commit_record (commit_record st draft e root) = Ok ().
Proof.
  intros [p Hid] Hroot Hhead Hne Hdesc Hbatch Hrev Hat Hwriter Hreq.
  apply batch_described in Hbatch as (Hall & Hwin & _). unfold described in Hdesc. simpl in Hdesc.
  apply fail_if_Ok. unfold commit_record. simpl. rewrite Hid, Hroot, Hdesc, Hwin. simpl.
  assert (is_some_and (λ p, negb (codec p =? CODEC_NAMESPACE_COMMIT)%N) (head_commit_cid st) = false) as ->.
  { destruct (head_commit_cid st) as [c|]; [|done]. by destruct (Hhead c eq_refl) as [q ->]. }
  unfold saturating_add. rewrite (proj2 (N.leb_gt _ _)) by lia. rewrite (proj2 (Z.ltb_ge _ 0)) by lia.
  rewrite !bool_decide_false; [|done|done|by destruct (draft_mutations draft)]. simpl.
  apply existsb_false_iff. intros c Hc. rewrite Forall_forall in Hall. destruct (Hall c Hc) as (Hhex & Hboth & Hzero).
  rewrite Hhex, (bool_decide_false _ Hzero). simpl. rewrite orb_false_r, negb_false_iff. by apply eqb_true_iff, bool_decide_ext.
Qed.

(** What a commit leaves in the store for the traversal code. *)
Definition traversable (st : NamespaceState) (cr : CommitResponse) (next : NamespaceState) (s' : S) : Prop :=
  ∃ payload record,
    store_get s' (response_commit_cid cr) = Ok payload ∧ decode_canonical payload = Ok record
    ∧ head_commit_cid next = Some (response_commit_cid cr)
    ∧ parent_commit_cid record = head_commit_cid st ∧ new_root_cid record = current_root_cid next
    ∧ new_namespace_revision record = current_revision next
    ∧ commit_links payload = Ok [current_root_cid next].

Lemma commit_traversable s st draft e cr next s' :
  world ml s st → (∃ p, id_cid (namespace_id st) = Cid_new CODEC_NAMESPACE_DESCRIPTOR p) →
  described (draft_mutations draft, draft_changed_keys draft) →
  (draft_base_revision draft ≤ current_revision st < u64_max)%N →
  (0 ≤ timestamp_unix_seconds e)%Z → writer_identity e ≠ "" → request_id e ≠ "" →
  commit_merkle_mutations st draft e ml s = (Ok (cr, next), s') → traversable st cr next s'.
Proof.
  intros Hw Hid Hdesc Hrev Hat Hwriter Hreq Hc. destruct (world_root ml s st Hw) as [m Hm].
  assert (draft_mutations draft ≠ []) as Hne.
  { intros Hnil. unfold commit_merkle_mutations, mbind, stm_bind, lift in Hc. by rewrite Hnil in Hc. }
  destruct (validate_mutations (draft_mutations draft) ml) as [[]|err] eqn:Hv.
  2:{ unfold commit_merkle_mutations, mbind, stm_bind, lift, merkle in Hc. rewrite bool_decide_false in Hc by done. simpl in Hc.
      by rewrite (holds_batch_invalid _ _ _ _ Hv) in Hc. }
  destruct (commit_merkle_spec ml s st draft e m Hm Hne Hv) as (r & s1 & Hc' & _ & Hpost).
  rewrite Hc in Hc'. injection Hc' as <- <-. destruct Hpost as (root & cid & payload & Hroot & Hp & -> & Hget & [= -> ->]).
  exists payload, (commit_record st draft e root). simpl. pose proof (decode_canonical_ok _ payload Hp) as Hdec.
  split_and!; try done. unfold commit_links, decode_for_dag. rewrite Hdec. simpl.
  unfold validate_mutations in Hv. apply bind_Ok in Hv as (last & Hbatch & _).
  apply holds_cid in Hroot as [q ->]. by erewrite commit_record_valid; [|eauto using w_head..].
Qed.

Lemma validate_transaction_base st t limits :
  validate_transaction st t limits = Ok () → (base_revision t ≤ current_revision st)%N.
Proof.
  unfold validate_transaction. intros Hv. do 4 (apply bind_Ok in Hv as (? & _ & Hv)).
  apply bind_Ok in Hv as (? & Hb%fail_if_Ok & _). apply orb_false_iff in Hb as [_ Hb]. by apply N.ltb_ge.
Qed.

Lemma run_command_traversable s st e limits cr next s' :
  world ml s st → (∃ p, id_cid (namespace_id st) = Cid_new CODEC_NAMESPACE_DESCRIPTOR p) →
  (current_revision st < u64_max)%N → (0 ≤ timestamp_unix_seconds e)%Z → writer_identity e ≠ "" → request_id e ≠ "" →
  run_command st e limits ml s = (Ok (Commit cr, next), s') → traversable st cr next s'.
Proof.
  intros Hw Hid Hlt Hat Hwr Hreq. unfold run_command.
  destruct (command e) as [t|name rev|name|rev msg]; intros ([cr' next'] & s1 & Hc & Hret)%stm_bind_Ok; try done;
    injection Hret as -> -> ->.
  - unfold apply_transaction in Hc. apply stm_bind_Ok in Hc as ([] & s2 & [Hv ->]%lift_inv & Hc).
    apply stm_bind_Ok in Hc as (planned & s3 & [Hplan ->]%reads_inv & Hc). apply validate_transaction_base in Hv.
    apply plan_described in Hplan. eapply commit_traversable in Hc; [done|done..| | |done|done|done]; [done|done].
  - unfold rollback in Hc. apply stm_bind_Ok in Hc as (target & s2 & [Hv ->]%lift_inv & Hc).
    do 2 (apply stm_bind_Ok in Hc as (? & ? & [_ ->]%reads_inv & Hc)).
    apply stm_bind_Ok in Hc as ([] & s3 & [_ ->]%lift_inv & Hc).
    eapply commit_traversable in Hc; [done|done..| | |done|done|done]; [by apply restore_described|done].
Qed.

(** Every commit is stored as a block that decodes to its record and that the
    block traversal accepts, with the committed root as its only link; the record
    names the previous head as its parent, and the new head is that block. *)
Theorem commits_traversable M e r cr M' :
  world ml (store M) (state M) → merkle_limits M = ml → (current_revision (state M) < u64_max)%N →
  (∃ p, id_cid (namespace_id (state M)) = Cid_new CODEC_NAMESPACE_DESCRIPTOR p) →
  apply e M = (Ok r, M') → replayed r = false → response r = Commit cr →
  traversable (state M) cr (state M') (store M').
Proof.
  intros Hw Hml Hlt Hid Ha Hrep Hresp. destruct (apply_checked M e) as [[f Had]|[err Herr]]; [|by rewrite Herr in Ha].
  destruct (idempotency (state M) !! request_id e) as [record|] eqn:Hrec.
  { rewrite (apply_replayed M e f record Had Hrec) in Ha. destruct (decide _); [|done]. injection Ha as <- <-. done. }
  rewrite (apply_fresh M e f Had Hrec) in Ha. destruct (run_command _ _ _ _ _) as [[[rr next]|] s'] eqn:Hrun; [|done].
  injection Ha as <- <-. simpl in Hresp. subst rr. rewrite Hml in Hrun.
  destruct Had as (Hv & _). unfold validate_envelope in Hv. apply bind_Ok in Hv as ([] & Hreq%fail_if_Ok & Hwr%fail_if_Ok).
  apply orb_false_iff in Hreq as [Hreq%bool_decide_eq_false _]. rewrite !orb_false_iff in Hwr.
  destruct Hwr as [[[Hwr%bool_decide_eq_false _] _] Hat].
  apply run_command_traversable in Hrun; [exact Hrun|done|done|done|..].
  - unfold stamped. destruct (history _ !! _); simpl; lia.
  - unfold stamped. by destruct (history _ !! _).
  - unfold stamped. by destruct (history _ !! _).
Qed.

End Commits.
