(* ===== verification/NamespaceClient.v ===== *)
(** * Client-side transactions

    A client reads through an immutable root and collects writes; the command it
    builds carries, for every key written, the version it saw.  The file relates
    a session of the client to the map it read and to the map it commits to. *)
From stdpp Require Import base gmap sets list strings sorting.
From Stdlib Require Import Strings.Byte.
From S2P Require Import Prelude Types Merkle MerkleTree MerkleInterface Namespace NamespaceFacts.

(** A call of the client. *)
Inductive TxCall :=
| CallGet (key : bytes)
| CallPut (key : bytes) (value_cid : Cid) (value_kind : string) (metadata : gmap string string)
| CallDelete (key : bytes).

Definition call_key (c : TxCall) : bytes := match c with CallGet k | CallPut k _ _ _ | CallDelete k => k end.

(** ** What a session means on a map *)

(** The map the client sees, and what its reads return. *)
Definition see (m : gmap bytes MerkleValue) (acc : gmap bytes MerkleValue * list (option MerkleValue)) (c : TxCall)
  : gmap bytes MerkleValue * list (option MerkleValue) :=
  match c with
  | CallGet k => (acc.1, acc.2 ++ [acc.1 !! k])
  | CallPut k v vk md => (<[k := mkValue v (next_generation (m !! k)) vk md]> acc.1, acc.2)
  | CallDelete k => (delete k acc.1, acc.2)
  end.

Definition session_spec (m : gmap bytes MerkleValue) (cs : list TxCall) := foldl (see m) (m, []) cs.

(** The pending writes laid over a map. *)
Definition overlay (p : gmap bytes PendingMutation) (m : gmap bytes MerkleValue) : gmap bytes MerkleValue :=
  merge (λ po mo, match po with Some (PendingPut v _) => Some v | Some (PendingDelete _) => None | None => mo end) p m.

Lemma overlay_lookup p m k :
  overlay p m !! k = match p !! k with Some (PendingPut v _) => Some v | Some (PendingDelete _) => None | None => m !! k end.
Proof. unfold overlay. rewrite lookup_merge. unfold diag_None. by destruct (p !! k), (m !! k). Qed.

Section Client.
Context `{Blake3} `{Hex} `{!HexLaws} `{Json Node} `{Json CursorRecord}.
Context {S : Type} `{MerkleStore S} (ml : MerkleLimits) `{!OrderedMap S ml}.

Definition call (s : S) (c : TxCall) (out : list (option MerkleValue))
  : stm SnapshotTransaction NamespaceError (list (option MerkleValue)) :=
  match c with
  | CallGet k => v ← tx_get s k ml; mret (out ++ [v])
  | CallPut k v vk md => _ ← tx_put s k v vk md ml; mret out
  | CallDelete k => _ ← tx_delete s k ml; mret out
  end.

Fixpoint session (s : S) (cs : list TxCall) (out : list (option MerkleValue))
  : stm SnapshotTransaction NamespaceError (list (option MerkleValue)) :=
  match cs with
  | [] => mret out
  | c :: cs => out ← call s c out; session s cs out
  end.

(** The transaction has read [m] at its base root; its writes carry the version
    of the key in [m]. *)
Record reads_from (s : S) (m : gmap bytes MerkleValue) (tx : SnapshotTransaction) : Prop := {
  rf_root : holds s (tx_base_root_cid tx) m;
  rf_observed k v : observed tx !! k = Some v → v = m !! k;
  rf_put k v p : pending tx !! k = Some (PendingPut v p) →
    p = precondition_for (m !! k) ∧ generation v = next_generation (m !! k);
  rf_delete k p : pending tx !! k = Some (PendingDelete p) → p = precondition_for (m !! k) ∧ is_Some (m !! k)
}.

Lemma observe_spec s m tx k :
  reads_from s m tx → (len k ≤ max_key_bytes ml)%N →
  ∃ tx', tx_observe s k ml tx = (Ok (m !! k), tx') ∧ reads_from s m tx' ∧ pending tx' = pending tx
    ∧ tx_base_root_cid tx' = tx_base_root_cid tx ∧ tx_base_revision tx' = tx_base_revision tx.
Proof.
  intros Hrf Hk. unfold tx_observe, reads, modify, mbind, stm_bind. destruct (observed tx !! k) as [v|] eqn:Ho.
  - rewrite (rf_observed _ _ _ Hrf _ _ Ho). by exists tx.
  - rewrite (holds_get _ _ _ _ (rf_root _ _ _ Hrf) Hk). simpl. eexists. split; [done|]. split_and!; [|done..].
    destruct Hrf as [Hroot Hobs Hput Hdel]. split; try done. simpl. intros k' v [[<- <-]|[_ Hv]]%lookup_insert_Some; eauto.
Qed.

Lemma call_spec s m tx c out :
  reads_from s m tx → (len (call_key c) ≤ max_key_bytes ml)%N →
  ∃ tx', call s c out tx = (Ok (see m (overlay (pending tx) m, out) c).2, tx')
    ∧ overlay (pending tx') m = (see m (overlay (pending tx) m, out) c).1
    ∧ reads_from s m tx' ∧ tx_base_root_cid tx' = tx_base_root_cid tx ∧ tx_base_revision tx' = tx_base_revision tx.
Proof.
  intros Hrf Hk. destruct (observe_spec s m tx (call_key c) Hrf Hk) as (tx1 & Hobs & Hrf1 & Hp & Hroot & Hrev).
  destruct c as [k|k v vk md|k]; simpl in *.
  - unfold tx_get, reads, mbind, stm_bind. rewrite overlay_lookup. destruct (pending tx !! k) as [[w p|p]|] eqn:Hpk.
    + by exists tx.
    + by exists tx.
    + rewrite Hobs. exists tx1. by rewrite Hp.
  - unfold tx_put, mbind, stm_bind, modify. rewrite Hobs. eexists. split; [done|]. simpl. split_and!; [| |done|done].
    + apply map_eq. intros k'. rewrite overlay_lookup, Hp. destruct (decide (k = k')) as [<-|Hne].
      * by rewrite !lookup_insert_eq.
      * by rewrite !lookup_insert_ne, overlay_lookup.
    + destruct Hrf1 as [Hr Ho Hput Hdel]. split; simpl; [done|done| |].
      * intros k' w p [[<- [= <- <-]]|[_ Hw]]%lookup_insert_Some; eauto.
      * intros k' p [[<- ?]|[_ Hw]]%lookup_insert_Some; [done|eauto].
  - unfold tx_delete, mbind, stm_bind, modify. rewrite Hobs. eexists. split; [done|]. simpl. split_and!; [| |done|done].
    + apply map_eq. intros k'. rewrite overlay_lookup, Hp. destruct (m !! k) as [w|] eqn:Hmk, (decide (k = k')) as [<-|Hne].
      * by rewrite lookup_insert_eq, lookup_delete_eq.
      * by rewrite lookup_insert_ne, lookup_delete_ne, overlay_lookup.
      * by rewrite !lookup_delete_eq.
      * by rewrite !lookup_delete_ne, overlay_lookup.
    + destruct Hrf1 as [Hr Ho Hput Hdel]. destruct (m !! k) as [w|] eqn:Hmk; (split; simpl; [done|done| |]).
      * intros k' v p [[<- ?]|[_ Hw]]%lookup_insert_Some; [done|eauto].
      * intros k' p [[<- [= <-]]|[_ Hw]]%lookup_insert_Some; [by rewrite Hmk|eauto].
      * intros k' v p [_ Hw]%lookup_delete_Some. eauto.
      * intros k' p [_ Hw]%lookup_delete_Some. eauto.
Qed.

Lemma session_spec_holds s m cs tx out :
  reads_from s m tx → Forall (λ c, (len (call_key c) ≤ max_key_bytes ml)%N) cs →
  ∃ tx', session s cs out tx = (Ok (foldl (see m) (overlay (pending tx) m, out) cs).2, tx')
    ∧ overlay (pending tx') m = (foldl (see m) (overlay (pending tx) m, out) cs).1
    ∧ reads_from s m tx' ∧ tx_base_root_cid tx' = tx_base_root_cid tx ∧ tx_base_revision tx' = tx_base_revision tx.
Proof.
  intros Hrf Hall. revert tx out Hrf. induction Hall as [|c cs Hc _ IH]; intros tx out Hrf; cbn [session foldl].
  - by exists tx.
  - destruct (call_spec s m tx c out Hrf Hc) as (tx1 & Hcall & Hover & Hrf1 & Hroot & Hrev).
    destruct (IH tx1 (see m (overlay (pending tx) m, out) c).2 Hrf1) as (tx2 & Hs & Hover2 & Hrf2 & Hroot2 & Hrev2).
    unfold mbind, stm_bind. rewrite Hcall, Hs. exists tx2. rewrite Hover in *. rewrite <-surjective_pairing in *.
    split_and!; [done..|congruence|congruence].
Qed.

(** ** The command of a session *)

Lemma pending_key kp : mutation_key (pending_mutation kp) = kp.1.
Proof.
  destruct kp as [k [v p|p]]; unfold mutation_key, NamespaceMutation_key; simpl;
    by rewrite hex_encode_lower, (proj2 (hex_decode_parse _ k) (hex_parse_lower k)).
Qed.

Lemma elem_of_bytes_iter {A} (m : gmap bytes A) k a : (k, a) ∈ bytes_iter m ↔ m !! k = Some a.
Proof. unfold bytes_iter. by rewrite merge_sort_Permutation, elem_of_map_to_list. Qed.

(** The keys written have in [m'] the version the client saw. *)
Definition unchanged (m m' : gmap bytes MerkleValue) (tx : SnapshotTransaction) : Prop :=
  ∀ k, is_Some (pending tx !! k) → precondition_holds (m' !! k) (precondition_for (m !! k)).

Lemma unchanged_generation (u v : option MerkleValue) :
  precondition_holds v (precondition_for u) → next_generation v = next_generation u ∧ (is_Some u → is_Some v).
Proof. destruct u as [u|]; simpl; [intros (w & -> & Hg & _); simpl; by rewrite Hg|by intros ->]. Qed.

Lemma pending_offence s m m' tx k p :
  reads_from s m tx → pending tx !! k = Some p →
  offence m' (pending_mutation (k, p))
  = if decide (precondition_holds (m' !! k) (precondition_for (m !! k))) then None else Some (GenerationConflict (hex_encode k)).
Proof.
  intros Hrf Hp. unfold offence. rewrite pending_key. simpl.
  assert (NamespaceMutation_precondition (pending_mutation (k, p)) = precondition_for (m !! k)) as ->.
  { destruct p as [v q|q]; simpl; [by apply (rf_put _ _ _ Hrf k v q)|by apply (rf_delete _ _ _ Hrf k q)]. }
  destruct (decide _) as [Hu|_]; [|done]. destruct p as [v q|q]; simpl; [done|].
  apply (rf_delete _ _ _ Hrf) in Hp as [_ Hsome]. apply unchanged_generation in Hu as [_ Hu].
  by destruct (Hu Hsome) as [w ->].
Qed.

Lemma pending_effects s m m' tx acc l :
  reads_from s m tx → unchanged m m' tx → (∀ k p, (k, p) ∈ l → pending tx !! k = Some p) → NoDup l.*1 →
  ∀ k, foldl (effect m') acc (pending_mutation <$> l) !! k
  = if decide (k ∈ l.*1) then overlay (pending tx) m' !! k else acc !! k.
Proof.
  intros Hrf Hu. revert acc. induction l as [|[k p] l IH]; intros acc Hl Hnd k'; [done|]. simpl in *.
  inversion Hnd as [|? ? Hk Hnd']; subst. rewrite IH; [|by intros; apply Hl; right|done].
  assert (pending tx !! k = Some p) as Hp by (apply Hl; by left).
  destruct (decide (k' ∈ l.*1)) as [Hin|Hin]; [by rewrite decide_True by (by right)|].
  destruct (decide (k' = k)) as [->|Hne].
  - rewrite decide_True by (by left). rewrite overlay_lookup, Hp. unfold effect. rewrite pending_key.
    destruct p as [v q|q]; simpl; [|apply lookup_delete_eq]. rewrite lookup_insert_eq.
    destruct (rf_put _ _ _ Hrf _ _ _ Hp) as [_ Hg]. destruct (unchanged_generation (m !! k) (m' !! k)) as [-> _]; [by apply Hu|].
    rewrite <-Hg. by destruct v.
  - rewrite decide_False by (by intros [?|?]%elem_of_cons). unfold effect. rewrite pending_key.
    destruct p; simpl; [by rewrite lookup_insert_ne|by rewrite lookup_delete_ne].
Qed.

Lemma bytes_iter_nodup {A} (m : gmap bytes A) : NoDup (bytes_iter m).*1.
Proof. unfold bytes_iter. rewrite merge_sort_Permutation. apply NoDup_fst_map_to_list. Qed.

Lemma bytes_iter_empty {A} (m : gmap bytes A) : bytes_iter m = [] ↔ m = ∅.
Proof.
  unfold bytes_iter. split; [|by intros ->]. intros Hnil. apply map_to_list_empty_iff.
  apply Permutation_nil_r. by rewrite <-Hnil, merge_sort_Permutation.
Qed.

Lemma omap_nil_iff {A B} (f : A → option B) l : omap f l = [] ↔ ∀ a, a ∈ l → f a = None.
Proof.
  induction l as [|a l IH]; simpl; [set_solver|]. destruct (f a) eqn:Hf; [|rewrite IH].
  - split; [done|]. intros Ha. rewrite Ha in Hf by left. done.
  - split; [|intros Ha b Hb; apply Ha; by right]. intros Ha b [->|Hb]%elem_of_cons; auto.
Qed.

Lemma commit_unchanged s m m' tx msg :
  reads_from s m tx → unchanged m m' tx → pending tx ≠ ∅ →
  transact m' (mutations (into_command tx msg)) = Ok (overlay (pending tx) m').
Proof.
  intros Hrf Hu Hne. unfold transact, into_command. simpl.
  assert (omap (offence m') (pending_mutation <$> bytes_iter (pending tx)) = []) as ->.
  { apply omap_nil_iff. intros mu ([k p] & -> & Hp%elem_of_bytes_iter)%list_elem_of_fmap.
    rewrite (pending_offence s m m' tx k p Hrf Hp). rewrite decide_True; [done|]. apply Hu. by eexists. }
  assert (existsb writes (pending_mutation <$> bytes_iter (pending tx)) = true) as ->.
  { destruct (bytes_iter (pending tx)) as [|[k [v p|p]] l] eqn:Hl; [|done|done]. by apply bytes_iter_empty in Hl. }
  f_equal. apply map_eq. intros k. rewrite (pending_effects s m m' tx); [|done|done|by intros ? ? ?%elem_of_bytes_iter|apply bytes_iter_nodup].
  destruct (decide _) as [_|Hk]; [done|]. rewrite overlay_lookup. destruct (pending tx !! k) as [p|] eqn:Hp; [|done].
  destruct Hk. apply list_elem_of_fmap. exists (k, p). by rewrite elem_of_bytes_iter.
Qed.

Lemma commit_conflict s m m' tx msg :
  reads_from s m tx → ¬ unchanged m m' tx →
  ∃ k, is_Some (pending tx !! k) ∧ ¬ precondition_holds (m' !! k) (precondition_for (m !! k))
    ∧ transact m' (mutations (into_command tx msg)) = Err (GenerationConflict (hex_encode k)).
Proof.
  intros Hrf Hu. unfold transact, into_command. simpl.
  destruct (omap (offence m') (pending_mutation <$> bytes_iter (pending tx))) as [|e l] eqn:Ho.
  - destruct Hu. intros k [p Hp]. rewrite omap_nil_iff in Ho. specialize (Ho (pending_mutation (k, p))).
    rewrite (pending_offence s m m' tx k p Hrf Hp) in Ho. destruct (decide _) as [Hok|_]; [done|]. discriminate Ho.
    apply list_elem_of_fmap. exists (k, p). by rewrite elem_of_bytes_iter.
  - assert (e ∈ omap (offence m') (pending_mutation <$> bytes_iter (pending tx))) as He by (rewrite Ho; left).
    apply list_elem_of_omap in He as (mu & ([k p] & -> & Hp%elem_of_bytes_iter)%list_elem_of_fmap & Hoff).
    rewrite (pending_offence s m m' tx k p Hrf Hp) in Hoff. destruct (decide _) as [|Hno]; [done|]. injection Hoff as <-.
    exists k. split_and!; [by eexists|done|done].
Qed.

(** C10: a client session reads its own writes over an unchanging snapshot, and its
    command commits exactly those writes: if no key it wrote has changed version
    since, the writes are laid over the current map, whatever else changed; if one
    has, the command is refused with a conflict on such a key. *)
Theorem session_isolated s st m cs msg :
  holds s (current_root_cid st) m → Forall (λ c, (len (call_key c) ≤ max_key_bytes ml)%N) cs →
  ∃ tx, session s cs [] (SnapshotTransaction_new st) = (Ok (session_spec m cs).2, tx)
    ∧ overlay (pending tx) m = (session_spec m cs).1
    ∧ base_root_cid (into_command tx msg) = current_root_cid st
    ∧ base_revision (into_command tx msg) = current_revision st
    ∧ (∀ m', unchanged m m' tx → pending tx ≠ ∅ →
         transact m' (mutations (into_command tx msg)) = Ok (overlay (pending tx) m'))
    ∧ (∀ m', ¬ unchanged m m' tx →
         ∃ k, is_Some (pending tx !! k) ∧ ¬ precondition_holds (m' !! k) (precondition_for (m !! k))
           ∧ transact m' (mutations (into_command tx msg)) = Err (GenerationConflict (hex_encode k))).
Proof.
  intros Hm Hall. assert (reads_from s m (SnapshotTransaction_new st)) as Hrf by (split; [done|simpl; intros *; by rewrite lookup_empty..]).
  destruct (session_spec_holds s m cs (SnapshotTransaction_new st) [] Hrf Hall) as (tx & Hs & Hover & Hrf' & Hroot & Hrev).
  assert (overlay (pending (SnapshotTransaction_new st)) m = m) as Hbase.
  { apply map_eq. intros k. rewrite overlay_lookup. simpl. by rewrite lookup_empty. }
  rewrite Hbase in *. exists tx. split_and!; [done..| |].
  - intros m' Hu Hne. by eapply commit_unchanged.
  - intros m' Hu. by eapply commit_conflict.
Qed.

End Client.
