(* ===== verification/NamespaceReference.v ===== *)
(** * Reference serializers for the namespace layer

    Instances of the serializers that the namespace code takes as parameters, with their
    laws; the examples of the namespace, consensus and publication layers run on them. *)
From stdpp Require Import base gmap sets list strings sorting.
From Stdlib Require Import Strings.Byte.
From S2P Require Import Prelude Types Merkle Reference Namespace NamespaceCheckpoints.

#[export] Instance Z_ser : Ser Z.
Proof.
  refine (inj_ser (λ z, (N.of_nat (Nat.b2n (z <? 0)%Z), Z.abs_N z)) (λ '(s, n), if (s =? 0)%N then Z.of_N n else (- Z.of_N n)%Z) _).
  intros z. destruct (Z.ltb_spec z 0); simpl; lia.
Defined.

#[export] Instance bool_ser : Ser bool.
Proof. refine (inj_ser (λ b : bool, if b then 1 else 0)%N (λ n, (n =? 1)%N) _). by intros []. Defined.

#[export, refine] Instance sum_ser {A B} `{Ser A, Ser B} : Ser (A + B) := {|
  ser x := match x with inl a => x00 :: ser a | inr b => x01 :: ser b end;
  de bs := match bs with
           | x00 :: r => '(a, r) ← de r; Some (inl a, r)
           | x01 :: r => '(b, r) ← de r; Some (inr b, r)
           | _ => None
           end
|}.
Proof. intros [a|b] r; simpl; by rewrite de_ser. Defined.

#[export] Instance NamespaceId_ser : Ser NamespaceId.
Proof. refine (inj_ser id_cid mkNamespaceId _). by intros []. Defined.

#[export] Instance NamespaceKind_ser : Ser NamespaceKind.
Proof.
  refine (inj_ser (λ k, match k with Kv => 0 | Bucket => 1 | Filesystem => 2 | Sqlite => 3 end)%N
            (λ n, match n with 0 => Kv | 1 => Bucket | 2 => Filesystem | _ => Sqlite end)%N _).
  by intros [].
Defined.

#[export] Instance Retention_ser : Ser RetentionPolicy.
Proof. refine (inj_ser (λ r, (keep_last r, max_age_seconds r)) (λ '(k, a), mkRetention k a) _). by intros []. Defined.

#[export] Instance Descriptor_ser : Ser NamespaceDescriptor.
Proof.
  refine (inj_ser
    (λ d, (descriptor_type d, descriptor_version d, kind d, initial_replica_set d, consensus_protocol_version d,
           replication_factor d, placement_constraints d, replicas (durability d), retention d,
           authorization_policy_cid d, created_at_unix_seconds d, creator_identity d, creator_signature_hex d))
    (λ '(t, v, k, i, c, f, p, r, e, a, z, o, s), mkDescriptor t v k i c f p (mkDurability r) e a z o s) _).
  by intros [? ? ? ? ? ? ? [] ? ? ? ? ?].
Defined.

#[export] Instance KeyPrecondition_ser : Ser KeyPrecondition.
Proof.
  refine (inj_ser (λ p, match p with Absent => inl false | Any => inl true | Match g c => inr (g, c) end)
            (λ x, match x with inl false => Absent | inl true => Any | inr (g, c) => Match g c end) _).
  by intros [].
Defined.

#[export] Instance NamespaceMutation_ser : Ser NamespaceMutation.
Proof.
  refine (inj_ser
    (λ m, match m with Assert k p => inl (k, p) | Put k c v d p => inr (inl (k, c, v, d, p)) | Delete k p => inr (inr (k, p)) end)
    (λ x, match x with inl (k, p) => Assert k p | inr (inl (k, c, v, d, p)) => Put k c v d p | inr (inr (k, p)) => Delete k p end) _).
  by intros [].
Defined.

#[export] Instance Transaction_ser : Ser TransactionCommand.
Proof.
  refine (inj_ser (λ t, (base_revision t, base_root_cid t, mutations t, tx_message t))
            (λ '(b, c, m, t), mkTransactionCommand b c m t) _).
  by intros [].
Defined.

#[export] Instance NamespaceCommand_ser : Ser NamespaceCommand.
Proof.
  refine (inj_ser
    (λ c, match c with ApplyTransaction t => inl t | CreateSnapshot n r => inr (inl (n, r))
                     | DeleteSnapshot n => inr (inr (inl n)) | Rollback r m => inr (inr (inr (r, m))) end)
    (λ x, match x with inl t => ApplyTransaction t | inr (inl (n, r)) => CreateSnapshot n r
                     | inr (inr (inl n)) => DeleteSnapshot n | inr (inr (inr (r, m))) => Rollback r m end) _).
  by intros [].
Defined.

#[export] Instance Envelope_ser : Ser CommandEnvelope.
Proof.
  refine (inj_ser (λ e, (request_id e, writer_identity e, timestamp_unix_seconds e, signature_hex e, command e))
            (λ '(r, w, t, s, c), mkEnvelope r w t s c) _).
  by intros [].
Defined.

#[export] Instance ChangedKey_ser : Ser ChangedKey.
Proof.
  refine (inj_ser (λ c, (changed_key_hex c, changed_generation c, changed_value_cid c)) (λ '(k, g, v), mkChangedKey k g v) _).
  by intros [].
Defined.

#[export] Instance CommandResponse_ser : Ser CommandResponse.
Proof.
  refine (inj_ser
    (λ r, match r with
          | Commit c => inl (commit_namespace_id c, namespace_revision c, commit_root_cid c, response_commit_cid c, response_changed_keys c)
          | Snapshot s => inr (snapshot_namespace_id s, snapshot_response_name s, snapshot_response_revision s, snapshot_response_root s, deleted s)
          end)
    (λ x, match x with
          | inl (i, n, r, c, k) => Commit (mkCommitResponse i n r c k)
          | inr (i, n, v, r, d) => Snapshot (mkSnapshotResponse i n v r d)
          end) _).
  by intros [[]|[]].
Defined.

#[export] Instance PinIntent_ser : Ser PinIntent.
Proof.
  refine (inj_ser (λ p, (pin_cid p, match action p with Protect => true | Release => false end, reason p))
            (λ '(c, a, r), mkPinIntent c (if a : bool then Protect else Release) r) _).
  by intros [? [] ?].
Defined.

Lemma fmap_back {K A B} `{Countable K} (f : A → B) (g : B → A) (m : gmap K A) :
  (∀ a, g (f a) = a) → g <$> (f <$> m) = m.
Proof. intros Hgf. apply map_eq. intros k. rewrite !lookup_fmap. destruct (m !! k); simpl; [by rewrite Hgf|done]. Qed.

#[export] Instance State_ser : Ser NamespaceState.
Proof.
  refine (inj_ser
    (λ s, (namespace_id s, descriptor s, current_revision s, current_root_cid s, head_commit_cid s,
           (λ r, (revision r, root_cid r, commit_cid r, committed_at_unix_seconds r)) <$> history s,
           (λ n, (snapshot_name n, snapshot_revision n, snapshot_root_cid n, snapshot_commit_cid n, snapshot_created_at n)) <$> named_snapshots s,
           (λ i, (command_fingerprint i, recorded_response i, recorded_pin_intents i, applied_revision i)) <$> idempotency s))
    (λ '(i, d, r, c, h, hs, ns, ids),
       mkNamespaceState i d r c h
         ((λ '(a, b, c, d), mkRevisionRecord a b c d) <$> hs)
         ((λ '(a, b, c, d, e), mkNamedSnapshot a b c d e) <$> ns)
         ((λ '(a, b, c, d), mkIdempotencyRecord a b c d) <$> ids)) _).
  intros []. f_equal; apply fmap_back; by intros [].
Defined.

#[export] Instance Commit_ser : Ser NamespaceCommit.
Proof.
  refine (inj_ser
    (λ c, (commit_type c, commit_version c, commit_namespace c, new_root_cid c, parent_commit_cid c,
           base_namespace_revision c, new_namespace_revision c, changed_keys c, commit_at_unix_seconds c,
           commit_writer_identity c, commit_request_id c, commit_message c))
    (λ '(t, v, n, r, p, b, w, k, a, i, q, m), mkNamespaceCommit t v n r p b w k a i q m) _).
  by intros [].
Defined.

#[export] Instance Checkpoint_ser : Ser NamespaceCheckpoint.
Proof.
  refine (inj_ser (λ c, (checkpoint_type c, (checkpoint_version c, checkpoint_state c, checkpoint_at c)))
            (λ '(t, (v, s, a)), mkCheckpoint t v s a) _).
  by intros [].
Defined.

#[export] Instance Segments_ser : Ser NamespaceCheckpointSegments.
Proof.
  refine (inj_ser (λ c, (segments_type c, (segments_version c, total_bytes c, segments c, segments_at c)))
            (λ '(t, (v, n, l, a)), mkSegments t v n l a) _).
  by intros [].
Defined.

#[export] Instance Signing_ser : Ser SigningPayload.
Proof.
  refine (inj_ser
    (λ p, (signing_domain p, signing_namespace_id p, signing_request_id p, signing_writer_identity p, signing_timestamp p, signing_command p))
    (λ '(d, n, r, w, t, c), mkSigningPayload d n r w t c) _).
  by intros [].
Defined.

#[export] Instance IntentMutation_ser : Ser IntentMutation.
Proof.
  refine (inj_ser
    (λ m, match m with IntentAssert k => inl k | IntentPut k c v d => inr (inl (k, c, v, d)) | IntentDelete k => inr (inr k) end)
    (λ x, match x with inl k => IntentAssert k | inr (inl (k, c, v, d)) => IntentPut k c v d | inr (inr k) => IntentDelete k end) _).
  by intros [].
Defined.

#[export] Instance Intent_ser : Ser IdempotencyPayload.
Proof.
  refine (inj_ser
    (λ p, (intent_domain p, intent_namespace_id p, intent_request_id p, intent_writer_identity p,
           match intent_command p with
           | IntentApplyTransaction ms m => inl (ms, m) | IntentCreateSnapshot n r => inr (inl (n, r))
           | IntentDeleteSnapshot n => inr (inr (inl n)) | IntentRollback r m => inr (inr (inr (r, m)))
           end))
    (λ '(d, n, r, w, c), mkIdempotencyPayload d n r w
           match c with
           | inl (ms, m) => IntentApplyTransaction ms m | inr (inl (n, r)) => IntentCreateSnapshot n r
           | inr (inr (inl n)) => IntentDeleteSnapshot n | inr (inr (inr (r, m))) => IntentRollback r m
           end) _).
  by intros [? ? ? ? []].
Defined.

(** The type field comes first, so a header can be read on its own. *)
Definition read_header (r : option (string * bytes)) : result string CheckpointHeader :=
  match r with Some (t, _) => Ok (mkHeader t) | None => Err "invalid header" end.

Definition ref_namespace_json : NamespaceJson := {|
  json_descriptor := ref_json; json_commit := ref_json; json_checkpoint := ref_json; json_segments := ref_json;
  json_envelope := ref_json; json_signing := ref_json; json_intent := ref_json;
  header_from_slice bs := read_header (de (A := string) bs)
|}.

Lemma ref_namespace_json_laws : @NamespaceJsonLaws ref_namespace_json.
Proof.
  split; try (exact ref_json_laws).
  - intros c p Hp. apply Ok_inj in Hp as <-.
    exact (f_equal read_header (de_ser (checkpoint_type c) (ser (checkpoint_version c, checkpoint_state c, checkpoint_at c)))).
  - intros c p Hp. apply Ok_inj in Hp as <-.
    exact (f_equal read_header (de_ser (segments_type c) (ser (segments_version c, total_bytes c, segments c, segments_at c)))).
Qed.
