(* ===== verification/NamespaceExamples.v ===== *)
(** * A namespace at work

    The crate run with the reference instances: a namespace is created, written,
    snapshotted and rolled back, and the theorems of the preceding files are
    applied to it.  The last part shows three behaviours at the edge. *)
From stdpp Require Import base gmap sets list strings sorting.
From Stdlib Require Import Strings.Byte.
From S2P Require Import Prelude Types Merkle Reference MerkleTree MerkleRefinement MerkleScan MerkleMap.
From S2P Require Import MerkleExamples MerkleInterface Namespace NamespaceFacts NamespaceHistory NamespacePins NamespaceRequests NamespaceCheckpoints.
From S2P Require Import NamespaceCommits NamespaceClient NamespaceReference.

(** ** A sample namespace *)

#[local] Existing Instances ref_blake3 ref_hex ref_blake3_laws ref_hex_laws ref_store ref_store_laws
  ref_namespace_json ref_namespace_json_laws AllowAllAuthorizer.
#[local] Instance node_json : Json Node := ref_json.
#[local] Instance cursor_json : Json CursorRecord := ref_json.
#[local] Instance node_json_laws : JsonLaws Node := ref_json_laws.
#[local] Instance cursor_json_laws : JsonLaws CursorRecord := ref_json_laws.
#[local] Instance ordered : OrderedMap (gmap Cid bytes) small := merkle_ordered_map small small_valid small_deep.

Notation blocks := (gmap Cid bytes).

Definition few : NamespaceLimits := mkNamespaceLimits 10 64 64 64 64 64 64 4 8 4 20.

Definition sample_descriptor : NamespaceDescriptor :=
  mkDescriptor DESCRIPTOR_TYPE FORMAT_VERSION Kv ["n1"] 1 1 ∅ (mkDurability 1) (mkRetention 1 None) None 5 "ops" "ab".

Definition created := create_namespace (S := blocks) sample_descriptor few small ∅.

Definition blank : CreatedNamespace :=
  let st := mkNamespaceState (mkNamespaceId sample_cid) sample_descriptor 0 sample_cid None ∅ ∅ ∅ in
  mkCreated (mkNamespaceId sample_cid) sample_cid sample_cid sample_cid st [].

Definition born : CreatedNamespace := outcome created blank.
Definition M0 : NamespaceStateMachine blocks := mkMachine created.2 (created_state born) few small.

Definition request (id : string) (c : NamespaceCommand) : CommandEnvelope := mkEnvelope id "ops" 7 "ab" c.

Definition put_car (M : NamespaceStateMachine blocks) (p : KeyPrecondition) : TransactionCommand :=
  mkTransactionCommand (current_revision (state M)) (current_root_cid (state M))
    [Put (hex_encode (key "car")) sample_cid "object" ∅ p] None.

Definition first_put : CommandEnvelope := request "r1" (ApplyTransaction (put_car M0 Absent)).
Definition M1 : NamespaceStateMachine blocks := (apply first_put M0).2.

Lemma created_ok : created = (Ok born, created.2).
Proof.
  assert (is_Ok created.1 = true) as Hok by (vm_compute; reflexivity).
  unfold born, outcome. by destruct created as [[c|e] s].
Qed.

Lemma few_valid : NamespaceLimits_validate few = Ok few.
Proof. reflexivity. Qed.

Lemma sample_descriptor_valid : NamespaceDescriptor_validate sample_descriptor few = Ok ().
Proof. reflexivity. Qed.

Lemma runs_Ok {A} (s : blocks) (c : stm blocks NamespaceError A) Q a s' :
  runs small s c Q → c s = (Ok a, s') → Q a s'.
Proof. intros (r & s1 & Hc & _ & Hr) Heq. rewrite Hc in Heq. injection Heq as -> ->. exact Hr. Qed.

Lemma M0_facts :
  world small (store M0) (state M0) ∧ holds (store M0) (current_root_cid (state M0)) ∅ ∧ current_revision (state M0) = 0%N
  ∧ idempotency (state M0) = ∅ ∧ identified few (namespace_id (state M0)) (descriptor (state M0)).
Proof.
  pose proof (runs_Ok _ _ _ _ _ (create_world small ∅ sample_descriptor few few_valid sample_descriptor_valid) created_ok)
    as (Hw & Hm & Hr & Hi & Hid & _).
  split_and!; assumption.
Qed.

Definition no_result : ApplyResult :=
  mkApplyResult (Snapshot (mkSnapshotResponse (mkNamespaceId sample_cid) "" 0 sample_cid false)) [] false.

(** What the machine answers, where it succeeds. *)
Definition answer (e : CommandEnvelope) (M : NamespaceStateMachine blocks) : ApplyResult :=
  match (apply e M).1 with Ok r => r | Err _ => no_result end.

Lemma answered e M : is_Ok (apply e M).1 = true → apply e M = (Ok (answer e M), (apply e M).2).
Proof. unfold answer. by destruct (apply e M) as [[r|] M']. Qed.

Definition fingerprint_of (M : NamespaceStateMachine blocks) (e : CommandEnvelope) : Cid :=
  match idempotency_fingerprint (namespace_id (state M)) e with Ok f => f | Err _ => sample_cid end.

Lemma admitted M e :
  validate_envelope e (namespace_limits M) = Ok () → admits M e (fingerprint_of M e).
Proof. intros Hv. split; [exact Hv|]. split; [|reflexivity]. eexists. split; reflexivity. Qed.

(** ** The theorems on the sample *)

Definition car_map : gmap bytes MerkleValue := {[key "car" := mkValue sample_cid 1 "object" ∅]}.

Lemma first_put_transacts : transact ∅ (mutations (put_car M0 Absent)) = Ok car_map.
Proof.
  unfold transact. cbn [mutations put_car omap list_omap]. 
  assert (mutation_key (Put (hex_encode (key "car")) sample_cid "object" ∅ Absent) = key "car") as Hk by reflexivity.
  unfold offence. rewrite Hk. rewrite lookup_empty. cbn [NamespaceMutation_precondition precondition_holds]. 
  rewrite decide_True by reflexivity. cbn [existsb writes orb foldl]. unfold effect. rewrite Hk, lookup_empty. reflexivity.
Qed.

Lemma first_put_ok : apply first_put M0 = (Ok (answer first_put M0), M1).
Proof. apply answered. vm_compute. reflexivity. Qed.

Lemma first_put_admissible : Forall (admissible small ∅) (mutations (put_car M0 Absent)).
Proof.
  constructor; [|constructor]. split; [vm_compute; reflexivity|]. split; [vm_compute; discriminate|vm_compute; reflexivity].
Qed.

Lemma transaction_refines_witness :
  holds (store M1) (current_root_cid (state M1)) car_map ∧ current_revision (state M1) = 1%N.
Proof.
  destruct M0_facts as (_ & Hm & Hr & Hi & _).
  pose proof (transaction_refines small M0 first_put (fingerprint_of M0 first_put) (put_car M0 Absent) ∅ eq_refl
    (admitted M0 first_put eq_refl) ltac:(rewrite Hi; reflexivity) eq_refl Hm ltac:(vm_compute; reflexivity) first_put_admissible) as Hok.
  rewrite first_put_transacts, first_put_ok in Hok. destruct Hok as (_ & Hh & Hrev & _). split; [exact Hh|].
  rewrite Hrev, Hr. reflexivity.
Defined.

Lemma M1_facts :
  holds (store M1) (current_root_cid (state M1)) car_map ∧ keeps (store M0) (store M1)
  ∧ world small (store M1) (state M1) ∧ history (state M0) ⊆ history (state M1).
Proof.
  destruct M0_facts as (Hw & Hm & Hr & Hi & _).
  pose proof (apply_transacts small M0 first_put (fingerprint_of M0 first_put) (put_car M0 Absent) ∅ eq_refl
    (admitted M0 first_put eq_refl) ltac:(rewrite Hi; reflexivity) eq_refl Hm ltac:(vm_compute; reflexivity) first_put_admissible) as Hok.
  rewrite first_put_transacts, first_put_ok in Hok. destruct Hok as (Hk & Hh & _ & Hrep).
  destruct (apply_advances small M0 first_put _ M1 Hw eq_refl ltac:(vm_compute; reflexivity) first_put_ok) as (Hw' & _ & Hsub & _).
  split_and!; [exact Hh|exact Hk|exact Hw'|exact Hsub].
Qed.

Lemma M1_limits : namespace_limits M1 = few ∧ merkle_limits M1 = small.
Proof. vm_compute. split; reflexivity. Qed.

Lemma apply_preserves_witness :
  world small (store M1) (state M1) ∧ history (state M0) ⊆ history (state M1).
Proof.
  destruct M0_facts as (Hw & _).
  destruct (apply_preserves small M0 first_put _ M1 Hw eq_refl ltac:(vm_compute; reflexivity) first_put_ok) as (Hw' & _ & Hh & _).
  split; [exact Hw'|exact Hh].
Defined.

Definition later : list CommandEnvelope := [request "r2" (CreateSnapshot "one" None); request "r3" (DeleteSnapshot "one")].

Lemma retry_replays_witness :
  apply first_put (run_all later M1)
  = (Ok (mkApplyResult (response (answer first_put M0)) (pin_intents (answer first_put M0)) true), run_all later M1).
Proof.
  apply (retry_replays small M0 first_put (answer first_put M0) M1 later).
  - destruct M0_facts as (Hw & _ & Hr & Hi & _). split; [exact Hw|]. split; [reflexivity|]. rewrite Hr, Hi.
    split; vm_compute; discriminate.
  - exact first_put_ok.
  - vm_compute. reflexivity.
Defined.

Definition back : CommandEnvelope := request "r4" (Rollback 0 None).

Lemma car_restorable : restorable small few car_map ∅.
Proof.
  split.
  - split; [vm_compute; discriminate|]. split; [vm_compute; discriminate|reflexivity].
  - split; [vm_compute; discriminate|]. split; [vm_compute; discriminate|reflexivity].
  - vm_compute. reflexivity.
  - vm_compute. discriminate.
  - unfold car_map. intros k v [<- <-]%lookup_singleton_Some. vm_compute. reflexivity.
Qed.

Definition M2 : NamespaceStateMachine blocks := (apply back M1).2.

Lemma back_ok : apply back M1 = (Ok (answer back M1), M2).
Proof. apply answered. vm_compute. reflexivity. Qed.

Lemma rollback_restores_witness :
  ∃ m', holds (store M2) (current_root_cid (state M2)) m' ∧ ∀ k, m' !! k = None.
Proof.
  destruct M0_facts as (Hw & Hm & Hr & _). destruct M1_facts as (Hcar & Hk & _ & Hsub).
  destruct M1_limits as [Hl Hml].
  destruct (w_current _ _ _ Hw) as (target & Ht & Hroot). rewrite <-Hroot in Hm.
  pose proof (rollback_restores small M1 back (fingerprint_of M1 back) 0 None target car_map ∅ Hml
    (admitted M1 back ltac:(rewrite Hl; reflexivity)) ltac:(vm_compute; reflexivity) eq_refl ltac:(eapply lookup_weaken; [rewrite <-Hr; exact Ht|exact Hsub])
    Hcar (holds_keeps _ _ _ _ Hk Hm) ltac:(rewrite Hl; exact car_restorable)) as Hok.
  rewrite back_ok in Hok. destruct Hok as (m' & Hm' & Hall & _). exists m'. split; [exact Hm'|].
  intros k. destruct (Hall k) as [_ Hs]. rewrite lookup_empty in Hs. destruct (m' !! k); [discriminate Hs|reflexivity].
Defined.


Definition aging : NamespaceState :=
  mkNamespaceState (mkNamespaceId sample_cid)
    (mkDescriptor DESCRIPTOR_TYPE FORMAT_VERSION Kv ["n1"] 1 1 ∅ (mkDurability 1) (mkRetention 1 (Some 10%N)) None 5 "ops" "ab")
    5 sample_cid None {[5%N := mkRevisionRecord 5 sample_cid None 100]} ∅ ∅.

Lemma retained_exact_witness :
  retained aging (mkRevisionRecord 3 sample_cid None 95) = true ↔ within_retention aging 100 (mkRevisionRecord 3 sample_cid None 95).
Proof.
  apply (retained_exact aging (mkRevisionRecord 3 sample_cid None 95) (mkRevisionRecord 5 sample_cid None 100)).
  - reflexivity.
  - split; [discriminate|reflexivity].
  - split; discriminate.
  - split; discriminate.
  - intros age [= <-]. discriminate.
Defined.

Lemma M0_opened : with_authorizer created.2 (created_state born) few small = Ok M0.
Proof.
  destruct M0_facts as (Hw & _ & _ & _ & Hid).
  exact (with_authorizer_opens small created.2 (created_state born) few few_valid Hw Hid).
Qed.

Definition saved := checkpoint 9 (run_all [first_put] M0).

Lemma restart_exact_witness :
  ∃ cid, saved = (Ok cid, saved.2)
    ∧ reopen small (store saved.2) cid few = Ok saved.2.
Proof.
  pose proof (restart_exact small ∅ sample_descriptor few born created.2 M0 [first_put] 9 created_ok M0_opened
    ltac:(vm_compute; discriminate) ltac:(discriminate)) as Hok.
  assert (is_Ok saved.1 = true) as Hs by (vm_compute; reflexivity). cbv zeta in Hok. fold saved in Hok.
  destruct saved as [[cid|e] M']; [|discriminate Hs]. exists cid. split; [reflexivity|exact (proj2 Hok)].
Defined.

Definition commit_of (r : CommandResponse) : option CommitResponse := match r with Commit c => Some c | Snapshot _ => None end.

Lemma commits_traversable_witness :
  ∃ cr, response (answer first_put M0) = Commit cr ∧ traversable (state M0) cr (state M1) (store M1).
Proof.
  destruct M0_facts as (Hw & _ & _ & _ & (_ & p & _ & Hid)).
  assert (is_some_and (λ _, true) (commit_of (response (answer first_put M0))) = true) as Hc by (vm_compute; reflexivity).
  destruct (response (answer first_put M0)) as [cr|] eqn:Hr; [|discriminate Hc]. exists cr. split; [reflexivity|].
  apply (commits_traversable small M0 first_put (answer first_put M0) cr M1 Hw eq_refl ltac:(vm_compute; reflexivity)
    (ex_intro _ p Hid) first_put_ok ltac:(vm_compute; reflexivity) Hr).
Defined.

Definition calls : list TxCall :=
  [CallGet (key "car"); CallPut (key "dog") sample_cid "object" ∅; CallDelete (key "car"); CallGet (key "car")].

Lemma session_isolated_witness :
  ∃ tx, session small (store M1) calls [] (SnapshotTransaction_new (state M1)) = (Ok (session_spec car_map calls).2, tx)
    ∧ overlay (pending tx) car_map = (session_spec car_map calls).1.
Proof.
  destruct M1_facts as (Hcar & _).
  destruct (session_isolated small (store M1) (state M1) car_map calls None Hcar) as (tx & Hs & Ho & _).
  - repeat constructor; vm_compute; discriminate.
  - exists tx. split; [exact Hs|exact Ho].
Defined.

(** ** Behaviours at the edge *)

Definition aged (age : N) : NamespaceState :=
  mkNamespaceState (mkNamespaceId sample_cid)
    (mkDescriptor DESCRIPTOR_TYPE FORMAT_VERSION Kv ["n1"] 1 1 ∅ (mkDurability 1) (mkRetention 1 (Some age)) None 5 "ops" "ab")
    5 sample_cid None {[5%N := mkRevisionRecord 5 sample_cid None 100]} ∅ ∅.

(** An age of [2^63] seconds or more is cast to a negative one: the longest
    retention keeps less than the second longest. *)
Example retention_age_wraps :
  retained (aged (Z.to_N i64_max)) (mkRevisionRecord 3 sample_cid None 99) = true
  ∧ retained (aged u64_max) (mkRevisionRecord 3 sample_cid None 100) = false.
Proof. vm_compute. split; reflexivity. Qed.

(** With room for one record, a snapshot request whose id sorts before the
    recorded one at the same revision is dropped by its own pruning, and its retry
    fails as a duplicate snapshot. *)
Definition one_slot : NamespaceStateMachine blocks :=
  mkMachine (store M0) (state M0) (mkNamespaceLimits 10 64 64 64 64 64 64 4 8 1 20) small.
Definition snap_b : CommandEnvelope := request "b" (CreateSnapshot "x" None).
Definition snap_a : CommandEnvelope := request "a" (CreateSnapshot "y" None).

Definition snap_run : NamespaceStateMachine blocks := run_all [snap_b; snap_a] one_slot.

Definition taken (r : result NamespaceError ApplyResult) : bool :=
  match r with Err (SnapshotExists _) => true | _ => false end.

Example newest_record_dropped :
  is_Ok (apply snap_a (run_all [snap_b] one_slot)).1 && is_none_or (λ _, false) (idempotency (state snap_run) !! "a")
  && taken (apply snap_a snap_run).1 = true.
Proof. vm_compute. reflexivity. Qed.
