(* ===== verification/KafkaModel.v ===== *)
(** * Kafka design models (crates/pepper-kafka-model)

    The partition, producer, group and transaction machines.  Every method is a
    computation on its state that keeps what it had written when it fails. *)
From stdpp Require Import base gmap sets list strings sorting.
From S2P Require Import Prelude.

Inductive ModelError :=
| InvalidReplicaSet | NoQuorum | UnknownReplica | StaleEpoch | NoSafeElectionSource | UnsafeElection
| NoLeader | OffsetOverflow | SequenceOverflow | LogGap | PrefixMismatch | LeaderEntryMismatch
| CommittedTruncation | UnknownOffset | OldEpochCommit | CommitGap | MissingCommittedValue
| CommittedValueChanged | ProducerFenced | EmptyBatch | DuplicateSequenceConflict
| OutOfOrderSequence | InvalidMember | UnknownMember | GenerationOverflow | IllegalGeneration
| NotGroupLeader | MissingGroupLeader | InvalidTransactionTransition | InvalidTransactionMarker
| DuplicateTransactionMarker | MissingTransactionMarker.

(** ** One majority-replicated partition *)

Module Partition.

Abbreviation NodeId := N.
Abbreviation Offset := N.

Record LogEntry := mkLogEntry { offset : Offset; epoch : N; digest : N }.

#[export] Instance LogEntry_eq_dec : EqDecision LogEntry.
Proof. solve_decision. Defined.

Record Replica := mkReplica { promised_epoch : N; log : list LogEntry; committed : option Offset }.

Record Leader := mkLeader { leader_node : NodeId; leader_epoch : N }.

Record PartitionModel := mkPartition {
  replicas : gmap NodeId Replica;
  leader : option Leader;
  committed_values : gmap Offset N
}.

Definition with_promised (r : Replica) (e : N) : Replica := mkReplica e (log r) (committed r).
Definition with_log (r : Replica) (l : list LogEntry) : Replica := mkReplica (promised_epoch r) l (committed r).
Definition with_committed (r : Replica) (c : option Offset) : Replica := mkReplica (promised_epoch r) (log r) c.

Definition with_replicas (m : PartitionModel) (rs : gmap NodeId Replica) : PartitionModel :=
  mkPartition rs (leader m) (committed_values m).
Definition with_leader (m : PartitionModel) (l : option Leader) : PartitionModel :=
  mkPartition (replicas m) l (committed_values m).
Definition with_values (m : PartitionModel) (cv : gmap Offset N) : PartitionModel :=
  mkPartition (replicas m) (leader m) cv.

Definition entry (r : Replica) (o : Offset) : option LogEntry := log r !! N.to_nat o.

Definition last_offset (r : Replica) : option Offset := offset <$> last (log r).

(** [Option]'s order: [None] below every [Some]. *)
Definition opt_leb (a b : option N) : bool :=
  match a, b with
  | None, _ => true
  | Some _, None => false
  | Some a, Some b => (a <=? b)%N
  end.

Definition truncate_uncommitted (o : Offset) : stm Replica ModelError unit :=
  _ ← reads (λ r, fail_if (is_some_and (λ c, (o <=? c)%N) (committed r)) CommittedTruncation);
  modify (λ r, with_log r (take (N.to_nat o) (log r))).

Definition new (nodes : list NodeId) : result ModelError PartitionModel :=
  let replicas := list_to_map ((λ node, (node, mkReplica 0 [] None)) <$> nodes) in
  _ ← fail_if ((N.of_nat (size replicas) <? 3)%N || (N.of_nat (size replicas) mod 2 =? 0)%N) InvalidReplicaSet;
  Ok (mkPartition replicas None ∅).

Definition quorum (m : PartitionModel) : nat := Nat.div (size (replicas m)) 2 + 1.

(** [(0..=committed)] checked against the committed values: the loop shared by
    [elect] and [check_invariants], over a log. *)
Definition check_prefix (m : PartitionModel) (l : list LogEntry) (committed : Offset) (mismatch : ModelError)
  : result ModelError unit :=
  try_foldl (λ _ i,
      expected ← ok_or (committed_values m !! N.of_nat i) MissingCommittedValue;
      fail_if (negb (bool_decide (digest <$> l !! i = Some expected))) mismatch)
    () (seq 0 (S (N.to_nat committed))).

Definition check_replica (m : PartitionModel) (_ : unit) (nr : NodeId * Replica) : result ModelError unit :=
  _ ← try_foldl (λ (i : nat) e, _ ← fail_if (negb (offset e =? N.of_nat i)%N) LogGap; Ok (S i)) 0 (log nr.2);
  match committed nr.2 with
  | Some c => check_prefix m (log nr.2) c CommittedValueChanged
  | None => Ok ()
  end.

Definition check_invariants (m : PartitionModel) : result ModelError unit :=
  _ ← try_foldl (λ (i : nat) (od : Offset * N),
        _ ← fail_if (negb (od.1 =? N.of_nat i)%N) CommitGap; Ok (S i)) 0 (map_iter (committed_values m));
  try_foldl (check_replica m) () (map_iter (replicas m)).

(** The key elections maximize: last epoch, last offset, node. *)
Definition election_key (nr : NodeId * Replica) : N * N * N :=
  match last (log nr.2) with
  | Some e => (epoch e, offset e, nr.1)
  | None => (0, 0, nr.1)%N
  end.

Definition key_leb (a b : N * N * N) : bool :=
  let '(a1, a2, a3) := a in
  let '(b1, b2, b3) := b in
  (a1 <? b1)%N || ((a1 =? b1)%N && ((a2 <? b2)%N || ((a2 =? b2)%N && (a3 <=? b3)%N))).

(** [max_by_key] *)
Fixpoint max_source (best : NodeId * Replica) (l : list (NodeId * Replica)) : NodeId * Replica :=
  match l with
  | [] => best
  | x :: l => max_source (if key_leb (election_key best) (election_key x) then x else best) l
  end.

Definition voters_of (m : PartitionModel) (voters : gset NodeId) : list (NodeId * Replica) :=
  omap (λ n, r ← replicas m !! n; Some (n, r)) (set_iter voters).

Definition max_opt (l : list N) : option N :=
  match l with [] => None | x :: l => Some (foldl N.max x l) end.

Definition safe_committed (m : PartitionModel) (voters : gset NodeId) : option Offset :=
  max_opt (omap (λ nr, committed nr.2) (voters_of m voters)).

Definition election_source (m : PartitionModel) (voters : gset NodeId) (safe : option Offset)
  : option (list LogEntry) :=
  match filter (λ nr, is_none_or (λ o, opt_leb (Some o) (last_offset nr.2)) safe = true) (voters_of m voters) with
  | [] => None
  | x :: l => Some (log (max_source x l).2)
  end.

Definition promise (e : N) (m : PartitionModel) (voters : gset NodeId) : PartitionModel :=
  with_replicas m (map_imap (λ n r, Some (if bool_decide (n ∈ voters) then with_promised r e else r)) (replicas m)).

Definition elect (candidate : NodeId) (e : N) (voters : gset NodeId) : stm PartitionModel ModelError unit :=
  _ ← reads (λ m, fail_if ((size voters <? quorum m)%nat || negb (bool_decide (candidate ∈ voters))) NoQuorum);
  _ ← reads (λ m, fail_if (existsb (λ n, negb (bool_decide (is_Some (replicas m !! n)))) (set_iter voters))
                    UnknownReplica);
  _ ← reads (λ m, fail_if (existsb (λ n, is_some_and (λ r, (e <=? promised_epoch r)%N) (replicas m !! n))
                             (set_iter voters)) StaleEpoch);
  safe ← reads (λ m, Ok (safe_committed m voters));
  source ← reads (λ m, ok_or (election_source m voters safe) NoSafeElectionSource);
  _ ← reads (λ m, match safe with Some c => check_prefix m source c UnsafeElection | None => Ok () end);
  _ ← modify (λ m, promise e m voters);
  r ← reads (λ m, ok_or (replicas m !! candidate) UnknownReplica);
  _ ← modify (λ m, with_replicas m (<[candidate := with_committed (with_log r source) safe]> (replicas m)));
  _ ← modify (λ m, with_leader m (Some (mkLeader candidate e)));
  reads check_invariants.

Definition append (d : N) : stm PartitionModel ModelError LogEntry :=
  ld ← reads (λ m, ok_or (leader m) NoLeader);
  r ← reads (λ m, ok_or (replicas m !! leader_node ld) UnknownReplica);
  _ ← lift (fail_if (negb (promised_epoch r =? leader_epoch ld)%N) StaleEpoch);
  let en := mkLogEntry (len (log r)) (leader_epoch ld) d in
  _ ← modify (λ m, with_replicas m (<[leader_node ld := with_log r (log r ++ [en])]> (replicas m)));
  _ ← reads check_invariants;
  mret en.

(** [(0..shared).find(|position| a[position] != b[position])] *)
Fixpoint first_mismatch (a b : list LogEntry) : option nat :=
  match a, b with
  | x :: a, y :: b => if decide (x = y) then S <$> first_mismatch a b else Some 0
  | _, _ => None
  end.

(** The follower's side of [replicate]: promise the epoch and make the log agree
    with the leader's prefix, *)
Definition follow_align (prefix : list LogEntry) (en : LogEntry) : stm Replica ModelError unit :=
  _ ← reads (λ r, fail_if (epoch en <? promised_epoch r)%N StaleEpoch);
  _ ← modify (λ r, if (promised_epoch r <? epoch en)%N then with_promised r (epoch en) else r);
  _ ← (λ r, match first_mismatch (log r) prefix with
            | Some i => truncate_uncommitted (N.of_nat i) r
            | None => (Ok (), r)
            end);
  modify (λ r, if (length (log r) <? length prefix)%nat
               then with_log r (log r ++ drop (length (log r)) prefix) else r).

(** then put the entry behind it.  The answer tells whether the entry was pushed
    (the caller then checks the invariants) or was already there. *)
Definition follow_push (prefix : list LogEntry) (en : LogEntry) : stm Replica ModelError bool :=
  let index := N.to_nat (offset en) in
  there ← (λ r, match log r !! index with
                | Some existing =>
                    if decide (existing = en) then (Ok true, r)
                    else (_ ← truncate_uncommitted (offset en); mret false) r
                | None => (Ok false, r)
                end);
  if there : bool then mret false
  else
    _ ← reads (λ r, fail_if (negb (index =? length (log r))%nat) LogGap);
    _ ← reads (λ r, fail_if (negb (bool_decide (take index (log r) = prefix))) PrefixMismatch);
    _ ← modify (λ r, with_log r (log r ++ [en]));
    mret true.

Definition follow (prefix : list LogEntry) (en : LogEntry) : stm Replica ModelError bool :=
  _ ← follow_align prefix en;
  follow_push prefix en.

(** Run a computation on one replica of the partition. *)
Definition at_replica {A} (n : NodeId) (f : stm Replica ModelError A) : stm PartitionModel ModelError A := λ m,
  match replicas m !! n with
  | None => (Err UnknownReplica, m)
  | Some r => let '(res, r') := f r in (res, with_replicas m (<[n := r']> (replicas m)))
  end.

Definition replicate (follower : NodeId) (en : LogEntry) : stm PartitionModel ModelError unit :=
  ld ← reads (λ m, ok_or (leader m) NoLeader);
  _ ← lift (fail_if (negb (epoch en =? leader_epoch ld)%N || (follower =? leader_node ld)%N) StaleEpoch);
  lr ← reads (λ m, ok_or (replicas m !! leader_node ld) UnknownReplica);
  _ ← lift (fail_if (negb (bool_decide (entry lr (offset en) = Some en))) LeaderEntryMismatch);
  let index := N.to_nat (offset en) in
  _ ← lift (fail_if (length (log lr) <? index)%nat LogGap);
  pushed ← at_replica follower (follow (take index (log lr)) en);
  if pushed : bool then reads check_invariants else mret ().

Definition commit (o : Offset) : stm PartitionModel ModelError unit :=
  ld ← reads (λ m, ok_or (leader m) NoLeader);
  en ← reads (λ m, ok_or (r ← replicas m !! leader_node ld; entry r o) UnknownOffset);
  _ ← lift (fail_if (negb (epoch en =? leader_epoch ld)%N) OldEpochCommit);
  _ ← reads (λ m,
        let matching := length (filter (λ nr, entry nr.2 o = Some en) (map_iter (replicas m))) in
        fail_if (matching <? quorum m)%nat NoQuorum);
  _ ← reads (λ m, fail_if ((0 <? o)%N && negb (bool_decide (is_Some (committed_values m !! (o - 1)%N)))) CommitGap);
  existing ← reads (λ m, Ok (committed_values m !! o));
  _ ← modify (λ m, with_values m (<[o := digest en]> (committed_values m)));
  _ ← lift (fail_if (is_some_and (λ d, negb (d =? digest en)%N) existing) CommittedValueChanged);
  r ← reads (λ m, ok_or (replicas m !! leader_node ld) UnknownReplica);
  _ ← modify (λ m, with_replicas m (<[leader_node ld := with_committed r (Some o)]> (replicas m)));
  reads check_invariants.

Definition propagate_commit (node : NodeId) (o : Offset) : stm PartitionModel ModelError unit :=
  expected ← reads (λ m, ok_or (committed_values m !! o) UnknownOffset);
  r ← reads (λ m, ok_or (replicas m !! node) UnknownReplica);
  _ ← lift (fail_if (negb (bool_decide (digest <$> entry r o = Some expected))) MissingCommittedValue);
  _ ← modify (λ m, with_replicas m (<[node := with_committed r (Some o)]> (replicas m)));
  reads check_invariants.

End Partition.

(** ** Idempotent producer state *)

Module Producer.

Record AcceptedBatch := mkBatch { last_sequence : N; base_offset : N; last_offset : N; digest : N }.

Record ProducerState := mkProducer { epoch : N; next_sequence : N; accepted : gmap N AcceptedBatch }.

Inductive ProduceOutcome :=
| Appended (b : AcceptedBatch)
| Duplicate (b : AcceptedBatch).

Definition new (e : N) : ProducerState := mkProducer e 0 ∅.

Definition bump_epoch (e : N) : stm ProducerState ModelError unit :=
  _ ← reads (λ st, fail_if (e <=? epoch st)%N ProducerFenced);
  modify (λ _, mkProducer e 0 ∅).

Definition produce (e first_sequence count d next_offset : N) : stm ProducerState ModelError ProduceOutcome :=
  _ ← reads (λ st, fail_if (negb (e =? epoch st)%N) ProducerFenced);
  _ ← lift (fail_if (count =? 0)%N EmptyBatch);
  known ← reads (λ st, Ok (accepted st !! first_sequence));
  match known with
  | Some b =>
      if (digest b =? d)%N then
        last ← lift (ok_or (checked_add u32_max first_sequence (count - 1)) SequenceOverflow);
        if (last_sequence b =? last)%N then mret (Duplicate b) else lift (Err DuplicateSequenceConflict)
      else lift (Err DuplicateSequenceConflict)
  | None =>
      _ ← reads (λ st, fail_if (negb (first_sequence =? next_sequence st)%N) OutOfOrderSequence);
      last ← lift (ok_or (checked_add u32_max first_sequence (count - 1)) SequenceOverflow);
      last_off ← lift (ok_or (checked_add u64_max next_offset (count - 1)) OffsetOverflow);
      let b := mkBatch last next_offset last_off d in
      _ ← modify (λ st, mkProducer (epoch st) (next_sequence st) (<[first_sequence := b]> (accepted st)));
      next ← lift (ok_or (checked_add u32_max last 1) SequenceOverflow);
      _ ← modify (λ st, mkProducer (epoch st) next (accepted st));
      mret (Appended b)
  end.

End Producer.

(** ** Consumer groups *)

Module Group.

Record GroupModel := mkGroup {
  generation : N;
  leader : option string;
  members : gset string;
  assignments : gmap N string;
  synchronized : bool
}.

Definition new : GroupModel := mkGroup 0 None ∅ ∅ false.

(** [BTreeSet::first] *)
Definition first (x : gset string) : option string := head (merge_sort String.le (elements x)).

Definition with_members (g : GroupModel) (ms : gset string) : GroupModel :=
  mkGroup (generation g) (leader g) ms (assignments g) (synchronized g).

Definition rebalance : stm GroupModel ModelError N :=
  next ← reads (λ g, ok_or (checked_add u32_max (generation g) 1) GenerationOverflow);
  _ ← modify (λ g, mkGroup next (first (members g)) (members g) ∅ false);
  mret next.

Definition join (member : string) : stm GroupModel ModelError N :=
  _ ← lift (fail_if (bool_decide (member = "")) InvalidMember);
  _ ← modify (λ g, with_members g ({[member]} ∪ members g));
  rebalance.

Definition leave (member : string) : stm GroupModel ModelError N :=
  _ ← reads (λ g, fail_if (negb (bool_decide (member ∈ members g))) UnknownMember);
  _ ← modify (λ g, with_members g (members g ∖ {[member]}));
  rebalance.

Definition strangers (g : GroupModel) (a : gmap N string) : bool :=
  existsb (λ pm, negb (bool_decide (pm.2 ∈ members g))) (map_iter a).

Definition check_invariants (g : GroupModel) : result ModelError unit :=
  _ ← fail_if (synchronized g && bool_decide (leader g = None)) MissingGroupLeader;
  fail_if (strangers g (assignments g)) UnknownMember.

Definition sync (who : string) (gen : N) (a : gmap N string) : stm GroupModel ModelError unit :=
  _ ← reads (λ g, fail_if (negb (gen =? generation g)%N) IllegalGeneration);
  _ ← reads (λ g, fail_if (negb (bool_decide (leader g = Some who))) NotGroupLeader);
  _ ← reads (λ g, fail_if (strangers g a) UnknownMember);
  _ ← modify (λ g, mkGroup (generation g) (leader g) (members g) a true);
  reads check_invariants.

End Group.

(** ** Transactions *)

Module Transaction.

Inductive TransactionPhase := Empty | Ongoing | PrepareCommit | PrepareAbort | CompleteCommit | CompleteAbort.

#[export] Instance TransactionPhase_eq_dec : EqDecision TransactionPhase.
Proof. solve_decision. Defined.

Record TransactionModel := mkTransaction {
  producer_id : N;
  producer_epoch : N;
  phase : TransactionPhase;
  first_offset : option N;
  last_offset : option N;
  partitions : gset N;
  markers : gmap N bool
}.

Definition new (id e : N) : TransactionModel := mkTransaction id e Empty None None ∅ ∅.

Definition require_epoch (e : N) (t : TransactionModel) : result ModelError unit :=
  if (e =? producer_epoch t)%N then Ok () else Err ProducerFenced.

Definition with_phase (t : TransactionModel) (p : TransactionPhase) : TransactionModel :=
  mkTransaction (producer_id t) (producer_epoch t) p (first_offset t) (last_offset t) (partitions t) (markers t).

Definition begin (e : N) : stm TransactionModel ModelError unit :=
  _ ← reads (require_epoch e);
  _ ← reads (λ t, match phase t with
                  | Empty | CompleteCommit | CompleteAbort => Ok ()
                  | _ => Err InvalidTransactionTransition
                  end);
  modify (λ t, mkTransaction (producer_id t) (producer_epoch t) Ongoing None None ∅ ∅).

Definition append (e partition first last : N) : stm TransactionModel ModelError unit :=
  _ ← reads (require_epoch e);
  _ ← reads (λ t, fail_if (negb (bool_decide (phase t = Ongoing)) || (last <? first)%N) InvalidTransactionTransition);
  modify (λ t, mkTransaction (producer_id t) (producer_epoch t) (phase t)
    (Some (from_option (λ current, N.min current first) first (first_offset t)))
    (Some (from_option (λ current, N.max current last) last (last_offset t)))
    ({[partition]} ∪ partitions t) (markers t)).

Definition prepare (e : N) (commit : bool) : stm TransactionModel ModelError unit :=
  _ ← reads (require_epoch e);
  _ ← reads (λ t, fail_if (negb (bool_decide (phase t = Ongoing))) InvalidTransactionTransition);
  modify (λ t, with_phase t (if commit then PrepareCommit else PrepareAbort)).

Definition record_marker (e partition : N) (commit : bool) : stm TransactionModel ModelError unit :=
  _ ← reads (require_epoch e);
  expected ← reads (λ t, match phase t with
                         | PrepareCommit => Ok true
                         | PrepareAbort => Ok false
                         | _ => Err InvalidTransactionTransition
                         end);
  _ ← reads (λ t, fail_if (negb (eqb commit expected) || negb (bool_decide (partition ∈ partitions t)))
                    InvalidTransactionMarker);
  old ← reads (λ t, Ok (markers t !! partition));
  _ ← modify (λ t, mkTransaction (producer_id t) (producer_epoch t) (phase t) (first_offset t) (last_offset t)
                     (partitions t) (<[partition := commit]> (markers t)));
  lift (fail_if (bool_decide (is_Some old)) DuplicateTransactionMarker).

Definition complete (e : N) : stm TransactionModel ModelError unit :=
  _ ← reads (require_epoch e);
  _ ← reads (λ t, fail_if (negb (size (markers t) =? size (partitions t))%nat) MissingTransactionMarker);
  next ← reads (λ t, match phase t with
                     | PrepareCommit => Ok CompleteCommit
                     | PrepareAbort => Ok CompleteAbort
                     | _ => Err InvalidTransactionTransition
                     end);
  modify (λ t, with_phase t next).

Definition read_committed_visible (t : TransactionModel) : bool := bool_decide (phase t = CompleteCommit).

Definition constrains_last_stable_offset (t : TransactionModel) : option N :=
  match phase t with
  | Ongoing | PrepareCommit | PrepareAbort => first_offset t
  | _ => None
  end.

End Transaction.
