(* ===== verification/KafkaPartition.v ===== *)
(** * Safety of the partition model (crates/pepper-kafka-model)

    Every trace of elections, appends, replications, commits and propagations,
    with any arguments and any outcome, keeps the committed values: they only
    grow, and every leader holds them.  The proof carries the log of each elected
    epoch; logs that share an entry share the prefix up to it. *)
From stdpp Require Import base gmap sets list strings sorting.
From S2P Require Import Prelude KafkaModel.
Import Partition.

(** ** Traces *)

Inductive op :=
| Elect (candidate : NodeId) (e : N) (voters : gset NodeId)
| Append (d : N)
| Replicate (follower : NodeId) (en : LogEntry)
| Commit (o : Offset)
| Propagate (node : NodeId) (o : Offset)
| StepDown.

(** [StepDown] is the assignment [model.leader = None] of the failover traces. *)
Definition exec (o : op) : stm PartitionModel ModelError unit :=
  match o with
  | Elect c e vs => elect c e vs
  | Append d => _ ← append d; mret ()
  | Replicate f en => replicate f en
  | Commit o => commit o
  | Propagate n o => propagate_commit n o
  | StepDown => modify (λ m, with_leader m None)
  end.

Inductive reachable (nodes : list NodeId) : PartitionModel → Prop :=
| reach_new m : new nodes = Ok m → reachable nodes m
| reach_step m o : reachable nodes m → reachable nodes (exec o m).2.

(** ** The invariant *)

Definition is_quorum (m : PartitionModel) (Q : gset NodeId) : Prop :=
  Q ⊆ dom (replicas m) ∧ quorum m ≤ size Q.

(** [l] is built from entries of the elected epochs [L] up to [e]. *)
Definition good (L : gmap N (list LogEntry)) (e : N) (l : list LogEntry) : Prop :=
  ∀ i x, l !! i = Some x →
    offset x = N.of_nat i ∧ (epoch x ≤ e)%N
    ∧ (∃ le, L !! epoch x = Some le ∧ take (S i) l = take (S i) le)
    ∧ ∀ j y, i ≤ j → l !! j = Some y → (epoch x ≤ epoch y)%N.

(** The record behind a committed value: an entry a quorum holds and every later
    elected log contains. *)
Definition backed (m : PartitionModel) (L : gmap N (list LogEntry)) (o : Offset) (c : LogEntry) : Prop :=
  is_Some (L !! epoch c)
  ∧ (∃ Q, is_quorum m Q ∧ ∀ n r, n ∈ Q → replicas m !! n = Some r → log r !! N.to_nat o = Some c)
  ∧ ∀ e l, L !! e = Some l → (epoch c ≤ e)%N → l !! N.to_nat o = Some c.

Record inv (m : PartitionModel) (L : gmap N (list LogEntry)) (E : N) : Prop := {
  i_bound e l : L !! e = Some l → (1 ≤ e ≤ E)%N;
  i_hist e l : L !! e = Some l → good L e l;
  i_log n r : replicas m !! n = Some r → good L E (log r) ∧ (promised_epoch r ≤ E)%N;
  i_last : E = 0%N ∨ (is_Some (L !! E) ∧
             ∃ Q, is_quorum m Q ∧ ∀ n r, n ∈ Q → replicas m !! n = Some r → promised_epoch r = E);
  i_leader ld : leader m = Some ld → leader_epoch ld = E ∧
             ∃ r, replicas m !! leader_node ld = Some r ∧ L !! E = Some (log r) ∧ promised_epoch r = E;
  i_dom : ∃ K, ∀ o, is_Some (committed_values m !! o) ↔ (o < K)%N;
  i_comm o d : committed_values m !! o = Some d → ∃ c, digest c = d ∧ backed m L o c;
  i_mark n r k : replicas m !! n = Some r → committed r = Some k → is_Some (committed_values m !! k)
}.

(** ** Quorums *)

Lemma quorum_meet m Q Q' : is_quorum m Q → is_quorum m Q' → ∃ n, n ∈ Q ∧ n ∈ Q'.
Proof.
  intros [Hs Hq] [Hs' Hq']. destruct (set_choose_or_empty (Q ∩ Q')) as [[n Hn]|He]; [exists n; set_solver|].
  exfalso. assert (size (Q ∪ Q') ≤ size (dom (replicas m))) as Hle by (apply subseteq_size; set_solver).
  rewrite size_union in Hle by set_solver. rewrite size_dom in Hle. unfold quorum in *.
  pose proof (Nat.div_mod_eq (size (replicas m)) 2). pose proof (Nat.mod_upper_bound (size (replicas m)) 2). lia.
Qed.

(** ** Logs *)

Lemma take_lookup_eq {A} (l k : list A) n i : take n l = take n k → i < n → l !! i = k !! i.
Proof. intros Heq Hi. rewrite <-(lookup_take_lt l n i Hi), Heq. by apply lookup_take_lt. Qed.

Lemma take_S_lookup {A} (l k : list A) i x : l !! i = Some x → take (S i) l = take (S i) k → k !! i = Some x.
Proof. intros Hx Heq. rewrite <-Hx. symmetry. apply (take_lookup_eq _ _ (S i)); [done|lia]. Qed.

(** Logs that share an entry share the prefix up to it. *)
Lemma log_matching L e e' l l' i x :
  good L e l → good L e' l' → l !! i = Some x → l' !! i = Some x → take (S i) l = take (S i) l'.
Proof.
  intros Hg Hg' Hx Hx'. destruct (Hg i x Hx) as (_ & _ & (le & Hle & ->) & _).
  destruct (Hg' i x Hx') as (_ & _ & (le' & Hle' & ->) & _). congruence.
Qed.

Lemma good_take L e l n : good L e l → good L e (take n l).
Proof.
  intros Hg i x Hx. apply lookup_take_Some in Hx as [Hx Hi].
  destruct (Hg i x Hx) as (? & ? & (le & Hle & Ht) & Hm). split; [done|]. split; [done|]. split.
  - exists le. split; [done|]. rewrite take_take. by rewrite Nat.min_l by lia.
  - intros j y Hj Hy. apply lookup_take_Some in Hy as [Hy _]. by eapply Hm.
Qed.

Lemma good_mono L L' e e' l : L ⊆ L' → (e ≤ e')%N → good L e l → good L' e' l.
Proof.
  intros HL He Hg i x Hx. destruct (Hg i x Hx) as (? & ? & (le & Hle & Ht) & Hm).
  split; [done|]. split; [lia|]. split; [|done]. exists le. split; [|done]. by eapply lookup_weaken.
Qed.

(** Extending the log of the current epoch. *)
Lemma good_extend L E le en e l :
  L !! E = Some le → good L e l → good (<[E := le ++ [en]]> L) e l.
Proof.
  intros HL Hg i x Hx. destruct (Hg i x Hx) as (? & ? & (le' & Hle & Ht) & Hm).
  split; [done|]. split; [done|]. split; [|done].
  destruct (decide (epoch x = E)) as [Heq|Hne]; [|exists le'; by rewrite lookup_insert_ne].
  rewrite Heq in Hle |- *. rewrite HL in Hle. injection Hle as <-. exists (le ++ [en]).
  rewrite lookup_insert_eq. split; [done|]. rewrite Ht, take_app_le; [done|].
  apply lookup_lt_Some in Hx. assert (length (take (S i) l) = S i) as Hl by (rewrite length_take; lia).
  rewrite Ht, length_take in Hl. lia.
Qed.

Lemma good_snoc L E le en :
  L !! E = Some le → good L E le → offset en = len le → epoch en = E → good (<[E := le ++ [en]]> L) E (le ++ [en]).
Proof.
  intros HL Hg Ho He i x Hx. apply lookup_app_Some in Hx as [Hx|[Hi Hx]].
  - apply lookup_lt_Some in Hx as Hlt. destruct (good_extend L E le en E le HL Hg i x Hx) as (? & ? & (le' & Hle & Ht) & Hm).
    split; [done|]. split; [done|]. split.
    + exists le'. split; [done|]. by rewrite take_app_le by lia.
    + intros j y Hj Hy. apply lookup_app_Some in Hy as [Hy|[_ Hy]]; [by eapply Hm|].
      apply list_lookup_singleton_Some in Hy as [_ <-]. lia.
  - apply list_lookup_singleton_Some in Hx as [Hi0 <-]. assert (i = length le) as -> by lia.
    split; [by rewrite Ho|]. split; [lia|]. split.
    + exists (le ++ [en]). split; [by rewrite He, lookup_insert_eq|done].
    + intros j y Hj Hy. apply lookup_lt_Some in Hy as Hlt. rewrite length_app in Hlt. simpl in Hlt.
      assert (j = length le) as -> by lia. rewrite lookup_app_r, Nat.sub_diag in Hy by lia.
      injection Hy as <-. lia.
Qed.

Lemma good_last L e l x : good L e l → last l = Some x → offset x = N.of_nat (length l - 1).
Proof. intros Hg Hx. rewrite last_lookup in Hx. by apply Hg in Hx as [? _]; rewrite <-Nat.sub_1_r in *. Qed.

(** ** Elections *)

Lemma last_offset_ge L e r k i x :
  good L e (log r) → log r !! i = Some x → (k ≤ N.of_nat i)%N → opt_leb (Some k) (last_offset r) = true.
Proof.
  intros Hg Hi Hk. apply lookup_lt_Some in Hi as Hlt. unfold last_offset.
  destruct (last (log r)) as [z|] eqn:Hz; [|apply last_None in Hz; by rewrite Hz in Hi].
  simpl. rewrite (good_last _ _ _ _ Hg Hz). apply N.leb_le. lia.
Qed.

Lemma key_leb_refl a : key_leb a a = true.
Proof.
  destruct a as [[a b] c]. unfold key_leb. rewrite !N.ltb_irrefl, !N.eqb_refl, N.leb_refl. done.
Qed.

Lemma key_leb_total a b : key_leb a b = false → key_leb b a = true.
Proof.
  destruct a as [[a1 a2] a3], b as [[b1 b2] b3]. unfold key_leb.
  destruct (N.ltb_spec a1 b1), (N.eqb_spec a1 b1), (N.ltb_spec a2 b2), (N.eqb_spec a2 b2), (N.leb_spec a3 b3),
    (N.ltb_spec b1 a1), (N.eqb_spec b1 a1), (N.ltb_spec b2 a2), (N.eqb_spec b2 a2), (N.leb_spec b3 a3);
    simpl; intros; try done; try lia.
Qed.

Lemma key_leb_trans a b c : key_leb a b = true → key_leb b c = true → key_leb a c = true.
Proof.
  destruct a as [[a1 a2] a3], b as [[b1 b2] b3], c as [[c1 c2] c3]. unfold key_leb.
  rewrite !orb_true_iff, !andb_true_iff, !orb_true_iff, !andb_true_iff, !N.ltb_lt, !N.eqb_eq, !N.leb_le. lia.
Qed.

Lemma max_source_spec best l :
  max_source best l ∈ best :: l
  ∧ ∀ x, x ∈ best :: l → key_leb (election_key x) (election_key (max_source best l)) = true.
Proof.
  revert best. induction l as [|y l IH]; intros best; simpl.
  - split; [left|]. intros x ->%list_elem_of_singleton. apply key_leb_refl.
  - destruct (key_leb (election_key best) (election_key y)) eqn:Hk.
    + destruct (IH y) as [Hin Hmax]. split; [set_solver|]. intros x Hx.
      apply elem_of_cons in Hx as [->|Hx]; [|by apply Hmax].
      eapply key_leb_trans; [exact Hk|]. apply Hmax. left.
    + destruct (IH best) as [Hin Hmax]. split; [set_solver|]. intros x Hx.
      apply elem_of_cons in Hx as [->|Hx]; [apply Hmax; left|].
      apply elem_of_cons in Hx as [->|Hx]; [|apply Hmax; by right].
      eapply key_leb_trans; [by apply key_leb_total|]. apply Hmax. left.
Qed.

Lemma elem_of_set_iter n vs : n ∈ set_iter vs ↔ n ∈ vs.
Proof. unfold set_iter. rewrite merge_sort_Permutation. apply elem_of_elements. Qed.

Lemma elem_of_voters m vs n r : (n, r) ∈ voters_of m vs ↔ n ∈ vs ∧ replicas m !! n = Some r.
Proof.
  unfold voters_of. rewrite list_elem_of_omap. setoid_rewrite elem_of_set_iter. split.
  - intros (n' & Hn & (r' & Hr & [= -> ->])%bind_Some). done.
  - intros [Hn Hr]. exists n. split; [done|]. by rewrite Hr.
Qed.

Lemma foldl_max_in x l : foldl N.max x l = x ∨ foldl N.max x l ∈ l.
Proof.
  revert x. induction l as [|y l IH]; intros x; simpl; [by left|].
  destruct (IH (N.max x y)) as [Heq|Hin]; [|right; by right].
  rewrite Heq. destruct (N.max_spec x y) as [[_ ->]|[_ ->]]; [right; left|by left].
Qed.

Lemma max_opt_in l k : max_opt l = Some k → k ∈ l.
Proof. destruct l as [|x l]; [done|]. intros [= <-]. destruct (foldl_max_in x l) as [->|?]; [left|by right]. Qed.

Lemma safe_committed_marks m vs k :
  safe_committed m vs = Some k → ∃ n r, n ∈ vs ∧ replicas m !! n = Some r ∧ committed r = Some k.
Proof.
  intros Hk%max_opt_in. apply list_elem_of_omap in Hk as ([n r] & Hv & Hc).
  apply elem_of_voters in Hv as [? ?]. eauto.
Qed.

Definition eligible (safe : option Offset) (r : Replica) : Prop :=
  is_none_or (λ o, opt_leb (Some o) (last_offset r)) safe = true.

Lemma election_source_spec m vs safe source :
  election_source m vs safe = Some source →
  ∃ n r, n ∈ vs ∧ replicas m !! n = Some r ∧ log r = source ∧
    ∀ n' r', n' ∈ vs → replicas m !! n' = Some r' → eligible safe r' →
      key_leb (election_key (n', r')) (election_key (n, r)) = true.
Proof.
  unfold election_source. destruct (filter _ _) as [|x l] eqn:Hf; [done|]. intros [= <-].
  destruct (max_source_spec x l) as [Hin Hmax]. rewrite <-Hf in Hin, Hmax.
  destruct (max_source x l) as [n r]. apply list_elem_of_filter in Hin as [_ Hin].
  apply elem_of_voters in Hin as [Hn Hr]. exists n, r. split_and!; [done..|].
  intros n' r' Hn' Hr' He. apply Hmax. apply list_elem_of_filter. split; [exact He|]. by apply elem_of_voters.
Qed.

(** The key order on logs: a log whose last entry is not behind the one of a log
    that holds a committed entry holds it too. *)
Lemma key_complete m L E n r n' r' o c :
  inv m L E → replicas m !! n = Some r → replicas m !! n' = Some r' →
  log r !! N.to_nat o = Some c → (∀ e l, L !! e = Some l → (epoch c ≤ e)%N → l !! N.to_nat o = Some c) →
  key_leb (election_key (n, r)) (election_key (n', r')) = true →
  log r' !! N.to_nat o = Some c.
Proof.
  intros Hinv Hr Hr' Hc Hlater Hkey. set (i := N.to_nat o) in *.
  destruct (i_log _ _ _ Hinv _ _ Hr) as [Hg _], (i_log _ _ _ Hinv _ _ Hr') as [Hg' _].
  unfold election_key in Hkey. simpl in Hkey.
  destruct (last (log r)) as [z|] eqn:Hz; [|apply last_None in Hz; by rewrite Hz in Hc].
  rewrite last_lookup in Hz. apply lookup_lt_Some in Hc as Hilt.
  pose proof Hz as (Hzo & _ & (lz & Hlz & _) & _)%Hg. pose proof (i_bound _ _ _ Hinv _ _ Hlz) as Hz1.
  assert (epoch c ≤ epoch z)%N as Hcz by (eapply (Hg i c Hc); [|exact Hz]; lia).
  destruct (last (log r')) as [z'|] eqn:Hz'.
  2:{ exfalso. unfold key_leb in Hkey. rewrite (proj2 (N.ltb_ge (epoch z) 0)), (proj2 (N.eqb_neq (epoch z) 0)) in Hkey by lia. done. }
  rewrite last_lookup in Hz'. apply lookup_lt_Some in Hz' as Hlt'.
  pose proof Hz' as (Hzo' & _ & (lz' & Hlz' & Ht') & _)%Hg'.
  assert (epoch z < epoch z' ∨ (epoch z = epoch z' ∧ offset z ≤ offset z'))%N as Hord.
  { unfold key_leb in Hkey. rewrite !orb_true_iff, !andb_true_iff, !orb_true_iff, !andb_true_iff, !N.ltb_lt, !N.eqb_eq, N.leb_le in Hkey. lia. }
  assert (lz' !! i = Some c) as Hci by (apply (Hlater _ _ Hlz'); lia).
  set (j := Nat.pred (length (log r'))) in *.
  assert (i ≤ j) as Hij.
  { destruct Hord as [Hlt|[_ Hle]]; [|rewrite Hzo, Hzo' in Hle; lia].
    destruct (decide (i ≤ j)) as [|Hgt]; [done|]. exfalso.
    assert (lz' !! j = Some z') as Hzj by by eapply take_S_lookup.
    destruct (i_hist _ _ _ Hinv _ _ Hlz' j z' Hzj) as (_ & _ & _ & Hmono).
    specialize (Hmono i c ltac:(lia) Hci). lia. }
  rewrite <-Hci. apply (take_lookup_eq _ _ (S j)); [done|lia].
Qed.

(** The source of an election holds every committed entry. *)
Lemma source_complete m L E vs source o c :
  inv m L E → is_quorum m vs → election_source m vs (safe_committed m vs) = Some source →
  is_Some (committed_values m !! o) → backed m L o c → source !! N.to_nat o = Some c.
Proof.
  intros Hinv Hvs Hsrc Ho Hb. destruct (i_dom _ _ _ Hinv) as [K HK].
  assert (is_Some (committed_values m !! (K - 1)%N)) as [dk Hdk] by (apply HK; apply HK in Ho; lia).
  destruct (i_comm _ _ _ Hinv _ _ Hdk) as (ck & _ & Hbk).
  destruct (election_source_spec _ _ _ _ Hsrc) as (n & r & Hn & Hr & <- & Hmax).
  pose proof Hbk as ([lk Hlk] & (Q & HQ & Hheld) & Hlater).
  destruct (quorum_meet m vs Q Hvs HQ) as (n' & Hn' & HnQ).
  assert (is_Some (replicas m !! n')) as [r' Hr'].
  { destruct Hvs as [Hsub _]. apply elem_of_dom. by apply Hsub. }
  specialize (Hheld _ _ HnQ Hr').
  assert (eligible (safe_committed m vs) r') as Hel.
  { unfold eligible. destruct (safe_committed m vs) as [k|] eqn:Hk; [|done]. simpl.
    destruct (safe_committed_marks _ _ _ Hk) as (n0 & r0 & _ & Hr0 & Hc0).
    apply (i_mark _ _ _ Hinv _ _ _ Hr0), HK in Hc0.
    destruct (i_log _ _ _ Hinv _ _ Hr') as [Hg _]. eapply last_offset_ge; [done|done|lia]. }
  assert (log r !! N.to_nat (K - 1) = Some ck) as Hck.
  { apply (key_complete m L E n' r' n r); [done|done|done|done|done|]. by apply Hmax. }
  destruct (i_last _ _ _ Hinv) as [HE|[[lE HE] _]].
  { exfalso. apply (i_bound _ _ _ Hinv) in Hlk. lia. }
  pose proof (i_bound _ _ _ Hinv _ _ Hlk) as Hbnd.
  assert (take (S (N.to_nat (K - 1))) (log r) = take (S (N.to_nat (K - 1))) lE) as Heq.
  { destruct (i_log _ _ _ Hinv _ _ Hr) as [Hg _].
    apply (log_matching L E E _ _ _ ck Hg (i_hist _ _ _ Hinv _ _ HE) Hck). apply (Hlater _ _ HE). lia. }
  destruct Hb as ([lc Hlc] & _ & Hlater'). pose proof (i_bound _ _ _ Hinv _ _ Hlc) as Hbc.
  rewrite <-(Hlater' _ _ HE) by lia. apply (take_lookup_eq _ _ _ _ Heq). apply HK in Ho. lia.
Qed.

(** ** Preservation *)

Lemma quorum_dom m m' Q : dom (replicas m') = dom (replicas m) → is_quorum m Q → is_quorum m' Q.
Proof. unfold is_quorum, quorum. rewrite <-!size_dom. by intros ->. Qed.

Lemma dom_insert_known {A} (m : gmap N A) n r r' : m !! n = Some r → dom (<[n := r']> m) = dom m.
Proof. intros Hr. apply dom_insert_lookup_L. eauto. Qed.

(** A committed entry is in the log of the current epoch. *)
Lemma backed_current m L E o c : inv m L E → backed m L o c → ∃ lE, L !! E = Some lE ∧ lE !! N.to_nat o = Some c.
Proof.
  intros Hinv ([lc Hlc] & _ & Hlater). pose proof (i_bound _ _ _ Hinv _ _ Hlc) as Hb.
  destruct (i_last _ _ _ Hinv) as [HE|[[lE HE] _]]; [lia|]. exists lE. split; [done|]. apply (Hlater _ _ HE). lia.
Qed.

(** [r'] may stand for [r]: nothing the current epoch's log shares is lost. *)
Definition replaces (L : gmap N (list LogEntry)) (E : N) (r r' : Replica) : Prop :=
  good L E (log r') ∧ (promised_epoch r ≤ promised_epoch r' ≤ E)%N
  ∧ ∀ lE o c, L !! E = Some lE → log r !! o = Some c → lE !! o = Some c → log r' !! o = Some c.

Lemma inv_replace m L E n r r' :
  inv m L E → replicas m !! n = Some r → replaces L E r r' →
  (∀ k, committed r' = Some k → is_Some (committed_values m !! k)) →
  (∀ ld, leader m = Some ld → leader_node ld = n → log r' = log r ∧ promised_epoch r' = promised_epoch r) →
  inv (with_replicas m (<[n := r']> (replicas m))) L E.
Proof.
  intros Hinv Hr (Hg & Hp & Hret) Hmark Hld.
  assert (dom (replicas (with_replicas m (<[n:=r']> (replicas m)))) = dom (replicas m)) as Hdom by by eapply dom_insert_known.
  split; simpl.
  - apply Hinv.
  - apply Hinv.
  - intros n0 r0 [[_ <-]|[_ Hr0]]%lookup_insert_Some; [split; [done|lia]|by eapply i_log].
  - destruct (i_last _ _ _ Hinv) as [?|[HE (Q & HQ & Hpq)]]; [by left|right]. split; [done|].
    exists Q. split; [by eapply quorum_dom|]. intros n0 r0 Hn0 [[<- <-]|[_ Hr0]]%lookup_insert_Some; [|by eapply Hpq].
    specialize (Hpq _ _ Hn0 Hr). lia.
  - intros ld Hl. destruct (i_leader _ _ _ Hinv _ Hl) as (He & r0 & Hr0 & HL & Hp0). split; [done|].
    destruct (decide (leader_node ld = n)) as [Heq|Hne].
    + rewrite Heq in *. destruct (Hld _ Hl Heq) as [Hlog Hpr]. exists r'. rewrite lookup_insert_eq.
      rewrite Hr in Hr0. injection Hr0 as <-. rewrite Hlog, Hpr. done.
    + exists r0. rewrite lookup_insert_ne by done. done.
  - apply Hinv.
  - intros o d Ho. destruct (i_comm _ _ _ Hinv _ _ Ho) as (c & Hd & Hb). exists c. split; [done|].
    destruct (backed_current _ _ _ _ _ Hinv Hb) as (lE & HE & Hc). destruct Hb as (HL & (Q & HQ & Hheld) & Hlater).
    split; [done|]. split; [|done]. exists Q. split; [by eapply quorum_dom|]. simpl.
    intros n0 r0 Hn0 [[<- <-]|[_ Hr0]]%lookup_insert_Some; [|by eapply Hheld]. eapply Hret; eauto.
  - intros n0 r0 k [[_ <-]|[_ Hr0]]%lookup_insert_Some; [by apply Hmark|by eapply i_mark].
Qed.

Lemma replaces_same L E r r' :
  good L E (log r) → (promised_epoch r ≤ promised_epoch r' ≤ E)%N → log r' = log r → replaces L E r r'.
Proof. intros Hg Hp Hl. unfold replaces. rewrite Hl. split; [done|]. split; [done|]. by intros. Qed.

Lemma inv_step_down m L E : inv m L E → inv (with_leader m None) L E.
Proof. intros Hinv. destruct Hinv. split; simpl; try done. Qed.

(** *** Append *)

Lemma inv_append m L E ld r en :
  inv m L E → leader m = Some ld → replicas m !! leader_node ld = Some r →
  offset en = len (log r) → epoch en = E →
  inv (with_replicas m (<[leader_node ld := with_log r (log r ++ [en])]> (replicas m)))
    (<[E := log r ++ [en]]> L) E.
Proof.
  intros Hinv Hl Hr Ho He.
  destruct (i_leader _ _ _ Hinv _ Hl) as (HE & r0 & Hr0 & HL & Hp). rewrite Hr in Hr0. injection Hr0 as <-.
  pose proof (i_bound _ _ _ Hinv _ _ HL) as HE1.
  assert (dom (replicas (with_replicas m (<[leader_node ld:=with_log r (log r ++ [en])]> (replicas m)))) = dom (replicas m))
    as Hdom by by eapply dom_insert_known.
  split; simpl.
  - intros e l [[<- _]|[_ Hel]]%lookup_insert_Some; [done|by eapply i_bound].
  - intros e l [[<- <-]|[_ Hel]]%lookup_insert_Some; [|apply good_extend; [done|by eapply i_hist]].
    apply good_snoc; [done|by eapply i_hist|done|done].
  - intros n0 r0 [[_ <-]|[_ Hr0]]%lookup_insert_Some; simpl.
    + split; [|lia]. apply good_snoc; [done|by eapply i_hist|done|done].
    + destruct (i_log _ _ _ Hinv _ _ Hr0) as [Hg ?]. split; [by apply good_extend|done].
  - right. split; [rewrite lookup_insert_eq; eauto|].
    destruct (i_last _ _ _ Hinv) as [?|[_ (Q & HQ & Hpq)]]; [lia|]. exists Q. split; [by eapply quorum_dom|].
    intros n0 r0 Hn0 [[<- <-]|[_ Hr0]]%lookup_insert_Some; [done|by eapply Hpq].
  - intros ld' Hl'. rewrite Hl in Hl'. injection Hl' as <-. split; [done|].
    exists (with_log r (log r ++ [en])). rewrite !lookup_insert_eq. done.
  - apply Hinv.
  - intros o d Hd. destruct (i_comm _ _ _ Hinv _ _ Hd) as (c & Hdc & HLc & (Q & HQ & Hheld) & Hlater).
    exists c. split; [done|]. split.
    { destruct (decide (epoch c = E)) as [->|]; [rewrite lookup_insert_eq; eauto|by rewrite lookup_insert_ne]. }
    split.
    + exists Q. split; [by eapply quorum_dom|]. simpl.
      intros n0 r0 Hn0 [[<- <-]|[_ Hr0]]%lookup_insert_Some; [|by eapply Hheld].
      simpl. apply lookup_app_l_Some. by eapply Hheld.
    + intros e l [[<- <-]|[_ Hel]]%lookup_insert_Some Hle; [|by eapply Hlater].
      apply lookup_app_l_Some. by eapply Hlater.
  - intros n0 r0 k [[_ <-]|[_ Hr0]]%lookup_insert_Some; simpl; [by eapply i_mark|by eapply i_mark].
Qed.

(** *** Replicate *)

Lemma first_mismatch_Some a b i :
  first_mismatch a b = Some i → take i a = take i b ∧ i < length a ∧ i < length b ∧ a !! i ≠ b !! i.
Proof.
  revert b i. induction a as [|x a IH]; intros [|y b] i; simpl; try done.
  destruct (decide (x = y)) as [->|Hne].
  - destruct (first_mismatch a b) as [j|] eqn:Hj; [|done]. intros [= <-]. destruct (IH b j Hj) as (? & ? & ? & ?).
    simpl. split_and!; [congruence|lia|lia|done].
  - intros [= <-]. simpl. split_and!; [done|lia|lia|congruence].
Qed.

Lemma first_mismatch_None a b :
  first_mismatch a b = None → take (length b) a = take (length a) b.
Proof.
  revert b. induction a as [|x a IH]; intros [|y b]; simpl; try done.
  destruct (decide (x = y)) as [->|Hne]; [|done].
  destruct (first_mismatch a b) eqn:Hj; [done|]. intros _. by rewrite (IH b Hj).
Qed.

Section Follow.
Context (L : gmap N (list LogEntry)) (E : N) (lE : list LogEntry) (en : LogEntry) (r : Replica).
Context (HL : L !! E = Some lE) (Hhist : good L E lE) (Hgood : good L E (log r)).
Context (Hprom : (promised_epoch r ≤ E)%N) (Hen : lE !! N.to_nat (offset en) = Some en) (Hep : epoch en = E).

Let idx := N.to_nat (offset en).

(** A position where the logs differ bounds what they share. *)
Lemma shared_below i o c : log r !! i ≠ lE !! i → log r !! o = Some c → lE !! o = Some c → o < i.
Proof.
  intros Hne Ho HoE. destruct (decide (o < i)) as [|Hge]; [done|]. destruct Hne.
  apply (take_lookup_eq _ _ (S o)); [by eapply log_matching|lia].
Qed.

Lemma follow_prefix_replaces k r' :
  log r' = take k lE → (promised_epoch r ≤ promised_epoch r' ≤ E)%N →
  (∀ o c, log r !! o = Some c → lE !! o = Some c → o < k) → replaces L E r r'.
Proof.
  intros Hl Hp Hk. unfold replaces. rewrite Hl. split; [by apply good_take|]. split; [done|].
  intros lE' o c HL' Ho HoE. rewrite HL in HL'. injection HL' as <-.
  rewrite lookup_take_lt; [done|by eapply Hk].
Qed.

(** The log after the alignment: the leader's prefix, or a longer log that
    already agrees with it. *)
Definition aligned (r2 : Replica) : Prop :=
  promised_epoch r2 = E ∧ committed r2 = committed r
  ∧ ((log r2 = take idx lE ∧ ∀ o c, log r !! o = Some c → lE !! o = Some c → o < idx)
     ∨ (log r2 = log r ∧ take idx (log r) = take idx lE ∧ idx ≤ length (log r))).

Lemma length_prefix : length (take idx lE) = idx.
Proof. apply lookup_lt_Some in Hen. rewrite length_take. unfold idx. lia. Qed.

Lemma align_spec res r2 :
  follow_align (take idx lE) en r = (res, r2) →
  match res with
  | Ok _ => aligned r2
  | Err e => e = CommittedTruncation ∧ committed r2 = committed r ∧ log r2 = log r ∧ promised_epoch r2 = E
  end.
Proof.
  unfold follow_align, mbind, stm_bind, reads, modify. rewrite Hep.
  rewrite (proj2 (N.ltb_ge E (promised_epoch r)) Hprom). simpl.
  set (r1 := if (promised_epoch r <? E)%N then with_promised r E else r).
  assert (promised_epoch r1 = E ∧ committed r1 = committed r ∧ log r1 = log r) as (Hp1 & Hc1 & Hl1).
  { unfold r1. destruct (N.ltb_spec (promised_epoch r) E); simpl; [done|]. split; [lia|done]. }
  clearbody r1. rewrite Hl1. destruct (first_mismatch (log r) (take idx lE)) as [i|] eqn:Hmis.
  - apply first_mismatch_Some in Hmis as (Ht & Hi & Hi' & Hne). rewrite length_prefix in Hi'.
    unfold truncate_uncommitted, mbind, stm_bind, reads, modify.
    destruct (is_some_and _ _); simpl; intros [= <- <-]; [done|].
    rewrite Nat2N.id, Hl1, Ht, take_take, Nat.min_l by lia.
    assert (length (take i lE) = i) as Hli.
    { apply lookup_lt_Some in Hen. rewrite length_take. unfold idx in *. lia. }
    rewrite Hli, length_prefix, (proj2 (Nat.ltb_lt i idx)) by done.
    split; [done|]. split; [done|]. left. simpl. split.
    + rewrite <-(take_drop i (take idx lE)) at 2. rewrite take_take, Nat.min_l by lia. done.
    + intros o c Ho HoE. assert (o < i); [|lia]. apply (shared_below i o c); [|done|done].
      intros Heq. apply Hne. rewrite Heq. symmetry. by apply lookup_take_lt.
  - apply first_mismatch_None in Hmis. rewrite length_prefix in Hmis |- *. rewrite Hl1. intros [= <- <-].
    destruct (Nat.ltb_spec (length (log r)) idx) as [Hlt|Hge]; (split; [done|]; split; [done|]).
    + left. rewrite take_ge in Hmis by lia. simpl. split.
      * rewrite Hmis at 1. apply take_drop.
      * intros o c Ho _. apply lookup_lt_Some in Ho. lia.
    + right. split; [done|]. split; [|done]. rewrite Hmis.
      by rewrite (take_ge (take idx lE)) by (rewrite length_prefix; lia).
Qed.

Lemma push_spec r2 res r' :
  aligned r2 → follow_push (take idx lE) en r2 = (res, r') →
  replaces L E r r' ∧ committed r' = committed r ∧
  match res with
  | Ok _ => take (S idx) (log r') = take (S idx) lE
  | Err e => e = CommittedTruncation ∧ log r' = log r
  end.
Proof.
  intros (Hp2 & Hc2 & Hcase). pose proof length_prefix as Hlp. apply lookup_lt_Some in Hen as Hlen. fold idx in Hlen, Hen.
  assert (take idx lE ++ [en] = take (S idx) lE) as Hpush by (symmetry; by apply take_S_r).
  assert (∀ r3 : Replica, promised_epoch r3 = E → committed r3 = committed r → log r3 = take idx lE →
    (∀ o c, log r !! o = Some c → lE !! o = Some c → o < idx) →
    replaces L E r (with_log r3 (log r3 ++ [en]))
    ∧ committed (with_log r3 (log r3 ++ [en])) = committed r
    ∧ take (S idx) (log (with_log r3 (log r3 ++ [en]))) = take (S idx) lE) as Hdone.
  { intros r3 Hp3 Hc3 Hl3 Hsh. rewrite Hl3, Hpush. split; [|split; [done|simpl; by rewrite take_take, Nat.min_id]].
    apply (follow_prefix_replaces (S idx)); [done|simpl; lia|]. intros o c Ho HoE. specialize (Hsh _ _ Ho HoE). lia. }
  unfold follow_push, mbind, stm_bind, reads, modify. fold idx.
  destruct Hcase as [[Hl2 Hsh]|(Hl2 & Ht & Hge)].
  - rewrite Hl2. rewrite lookup_ge_None_2 by lia. simpl. rewrite Hl2, Hlp, Nat.eqb_refl. simpl.
    rewrite take_take, Nat.min_id, bool_decide_true by done. simpl. intros [= <- <-].
    rewrite <-Hl2. by apply Hdone.
  - rewrite Hl2. destruct (log r !! idx) as [x|] eqn:Hx.
    + destruct (decide (x = en)) as [->|Hne]; simpl.
      * intros [= <- <-]. split; [apply replaces_same; [done|lia|done]|]. split; [done|]. rewrite Hl2.
        by eapply log_matching.
      * assert (∀ o c, log r !! o = Some c → lE !! o = Some c → o < idx) as Hsh.
        { intros o c. apply shared_below. rewrite Hx, Hen. congruence. }
        unfold truncate_uncommitted, mbind, stm_bind, reads, modify.
        destruct (is_some_and _ _); simpl.
        { intros [= <- <-]. split; [apply replaces_same; [done|lia|done]|]. done. }
        fold idx. rewrite Hl2, Ht, Hlp, Nat.eqb_refl. simpl.
        rewrite take_take, Nat.min_id, bool_decide_true by done. simpl. intros [= <- <-].
        apply (Hdone (with_log r2 (take idx lE))); done.
    + apply lookup_ge_None in Hx. assert (length (log r) = idx) as Hleq by lia.
      simpl. rewrite Hl2, Hleq, Nat.eqb_refl. simpl. rewrite Ht, bool_decide_true by done. simpl. intros [= <- <-].
      rewrite <-Hl2. apply Hdone; [done|done| |].
      * rewrite Hl2, <-Ht, take_ge by lia. done.
      * intros o c Ho _. apply lookup_lt_Some in Ho. lia.
Qed.

End Follow.

Lemma inv_replicate m L E f en res m' :
  inv m L E → replicate f en m = (res, m') →
  inv m' L E ∧ committed_values m' = committed_values m ∧ leader m' = leader m.
Proof.
  intros Hinv. unfold replicate, mbind, stm_bind, reads, lift.
  destruct (leader m) as [ld|] eqn:Hl; [|by intros [= <- <-]]. simpl.
  destruct (i_leader _ _ _ Hinv _ Hl) as (HE & lr & Hlr & HL & Hp).
  destruct (N.eqb_spec (epoch en) (leader_epoch ld)) as [He|]; [|by intros [= <- <-]].
  destruct (N.eqb_spec f (leader_node ld)) as [|Hf]; [by intros [= <- <-]|]. simpl. rewrite Hlr. simpl.
  destruct (decide (entry lr (offset en) = Some en)) as [Hen|Hne];
    [rewrite bool_decide_true by done|rewrite bool_decide_false by done; by intros [= <- <-]].
  simpl. destruct (length (log lr) <? N.to_nat (offset en)); [by intros [= <- <-]|]. simpl.
  unfold at_replica. destruct (replicas m !! f) as [r|] eqn:Hr; [|by intros [= <- <-]].
  destruct (i_log _ _ _ Hinv _ _ Hr) as [Hg Hpr]. pose proof (i_hist _ _ _ Hinv _ _ HL) as Hh.
  rewrite HE in He.
  assert (∀ r', replaces L E r r' → committed r' = committed r → inv (with_replicas m (<[f := r']> (replicas m))) L E)
    as Hset.
  { intros r' Hrep Hc. eapply inv_replace; [done|done|done| |].
    - intros k. rewrite Hc. by eapply i_mark.
    - intros ld' Hl' <-. rewrite Hl in Hl'. injection Hl' as <-. done. }
  unfold follow. unfold mbind at 1, stm_bind at 1.
  destruct (follow_align (take (N.to_nat (offset en)) (log lr)) en r) as [[u|e] r2] eqn:Hal;
    apply (align_spec L E (log lr) en r Hh Hg Hpr Hen He) in Hal.
  2:{ destruct Hal as (_ & Hc & Hlg & Hpe). intros [= <- <-]. split; [|done]. apply Hset; [|done].
      apply replaces_same; [done|lia|done]. }
  destruct (follow_push (take (N.to_nat (offset en)) (log lr)) en r2) as [[b|e] r3] eqn:Hpu;
    apply (push_spec L E (log lr) en r HL Hh Hg Hpr Hen He r2 _ _ Hal) in Hpu as (Hrep & Hc & _); simpl.
  - destruct b; [|by intros [= <- <-]; split; [apply Hset|]].
    unfold reads. intros [= _ <-]. split; [by apply Hset|done].
  - intros [= <- <-]. split; [by apply Hset|done].
Qed.

Lemma inv_values m L E o c :
  inv m L E → backed m L o c → (∀ d, committed_values m !! o = Some d → d = digest c) →
  (0 < o → is_Some (committed_values m !! (o - 1)))%N →
  inv (with_values m (<[o := digest c]> (committed_values m))) L E.
Proof.
  intros Hinv Hb Hsame Hgap. split; simpl; try apply Hinv.
  - destruct (i_dom _ _ _ Hinv) as [K HK]. destruct (decide (o < K)%N) as [Hlt|Hge].
    + exists K. intros o'. destruct (decide (o = o')) as [<-|Hne]; [rewrite lookup_insert_eq; split; [done|eauto]|].
      rewrite lookup_insert_ne by done. apply HK.
    + assert (o = K) as ->.
      { destruct (decide (o = 0)%N) as [->|Hnz]; [lia|]. specialize (Hgap ltac:(lia)). apply HK in Hgap. lia. }
      exists (K + 1)%N. intros o'. destruct (decide (K = o')) as [<-|Hne].
      * rewrite lookup_insert_eq. split; [lia|eauto].
      * rewrite lookup_insert_ne by done. rewrite HK. lia.
  - intros o' d [[<- <-]|[_ Hd]]%lookup_insert_Some; [by exists c|exact (i_comm _ _ _ Hinv _ _ Hd)].
  - intros n r k Hr Hk. destruct (decide (o = k)) as [<-|Hne]; [rewrite lookup_insert_eq; eauto|].
    rewrite lookup_insert_ne by done. by eapply i_mark.
Qed.

(** The replicas counted by [commit] form a quorum. *)
Lemma matching_quorum m o en :
  quorum m ≤ length (filter (λ nr : NodeId * Replica, entry nr.2 o = Some en) (map_iter (replicas m))) →
  ∃ Q, is_quorum m Q ∧ ∀ n r, n ∈ Q → replicas m !! n = Some r → log r !! N.to_nat o = Some en.
Proof.
  intros Hq. set (l := filter _ _) in Hq. exists (list_to_set (l.*1)).
  assert (∀ n r, (n, r) ∈ l ↔ entry r o = Some en ∧ replicas m !! n = Some r) as Hl.
  { intros n r. unfold l. rewrite list_elem_of_filter, map_iter_perm, elem_of_map_to_list. done. }
  assert (NoDup (l.*1)) as Hnd.
  { eapply sublist_NoDup; [|apply fmap_sublist, sublist_filter]. rewrite map_iter_perm. apply NoDup_fst_map_to_list. }
  split; [split|].
  - intros n Hn. apply elem_of_list_to_set, list_elem_of_fmap in Hn as ([n' r] & -> & Hin).
    apply Hl in Hin as [_ Hr]. apply elem_of_dom. eauto.
  - rewrite size_list_to_set, length_fmap by done. done.
  - intros n r Hn Hr. apply elem_of_list_to_set, list_elem_of_fmap in Hn as ([n' r'] & -> & Hin).
    apply Hl in Hin as [He Hr']. simpl in Hr. unfold entry in He. congruence.
Qed.

(** An entry of the current epoch that a quorum holds is safe. *)
Lemma current_backed m L E r o en :
  inv m L E → L !! E = Some (log r) → entry r o = Some en → epoch en = E →
  quorum m ≤ length (filter (λ nr, entry nr.2 o = Some en) (map_iter (replicas m))) → backed m L o en.
Proof.
  intros Hinv HL Hen He Hq. split; [rewrite He; eauto|]. split; [by apply matching_quorum|].
  intros e l Hel Hle. assert (e = E) as ->; [|unfold entry in Hen; congruence]. apply (i_bound _ _ _ Hinv) in Hel. lia.
Qed.

Lemma inv_commit m L E o res m' :
  inv m L E → commit o m = (res, m') →
  inv m' L E ∧ committed_values m ⊆ committed_values m' ∧ leader m' = leader m.
Proof.
  intros Hinv. unfold commit, mbind, stm_bind, reads, lift, modify.
  destruct (leader m) as [ld|] eqn:Hl; [|by intros [= <- <-]]. simpl.
  destruct (i_leader _ _ _ Hinv _ Hl) as (HE & lr & Hlr & HL & Hp). rewrite Hlr. simpl.
  destruct (entry lr o) as [en|] eqn:Hen; [|by intros [= <- <-]]. simpl.
  destruct (N.eqb_spec (epoch en) (leader_epoch ld)) as [He|]; [|by intros [= <- <-]]. simpl.
  destruct (Nat.ltb_spec (length (filter (λ nr : NodeId * Replica, entry nr.2 o = Some en) (map_iter (replicas m)))) (quorum m))
    as [|Hq]; [by intros [= <- <-]|]. simpl.
  destruct ((0 <? o)%N && negb (bool_decide (is_Some (committed_values m !! (o - 1)%N)))) eqn:Hgap; [by intros [= <- <-]|].
  simpl. rewrite HE in He.
  assert (backed m L o en) as Hb by by eapply current_backed.
  assert (∀ d, committed_values m !! o = Some d → d = digest en) as Hsame.
  { intros d Hd. destruct (i_comm _ _ _ Hinv _ _ Hd) as (c & <- & Hbc).
    destruct (backed_current _ _ _ _ _ Hinv Hbc) as (lE & HLE & Hc). unfold entry in Hen. congruence. }
  assert (is_some_and (λ d, negb (d =? digest en)%N) (committed_values m !! o) = false) as ->.
  { destruct (committed_values m !! o) as [d|]; [|done]. simpl. rewrite (Hsame d eq_refl). by rewrite N.eqb_refl. }
  simpl. intros [= _ <-]. split; [|split; [|done]].
  - apply (inv_replace (with_values m (<[o:=digest en]> (committed_values m))) L E (leader_node ld) lr); [|done| | |].
    + apply inv_values; [done|done|done|]. intros Hpos.
      apply andb_false_iff in Hgap as [Hg%N.ltb_ge|Hg]; [lia|].
      apply negb_false_iff, bool_decide_eq_true in Hg. done.
    + destruct (i_log _ _ _ Hinv _ _ Hlr) as [Hg Hpr]. apply replaces_same; [done|simpl; lia|done].
    + simpl. intros k [= <-]. rewrite lookup_insert_eq. eauto.
    + done.
  - simpl. destruct (committed_values m !! o) as [d|] eqn:Hd; [|by apply insert_subseteq].
    rewrite insert_id; [done|]. by rewrite Hd, (Hsame d eq_refl).
Qed.

Lemma inv_propagate m L E n o res m' :
  inv m L E → propagate_commit n o m = (res, m') →
  inv m' L E ∧ committed_values m' = committed_values m ∧ leader m' = leader m.
Proof.
  intros Hinv. unfold propagate_commit, mbind, stm_bind, reads, lift, modify.
  destruct (committed_values m !! o) as [d|] eqn:Hd; [|by intros [= <- <-]]. simpl.
  destruct (replicas m !! n) as [r|] eqn:Hr; [|by intros [= <- <-]]. simpl.
  destruct (bool_decide _); simpl; [|by intros [= <- <-]]. intros [= _ <-]. split; [|done].
  destruct (i_log _ _ _ Hinv _ _ Hr) as [Hg Hpr].
  eapply inv_replace; [done|done|apply replaces_same; [done|simpl; lia|done]| |done]. simpl. intros k [= <-]. eauto.
Qed.

(** *** Elect *)

(** The state an election leads to. *)
Definition elected (m : PartitionModel) (c : NodeId) (e : N) (vs : gset NodeId) (source : list LogEntry) : PartitionModel :=
  mkPartition
    (<[c := mkReplica e source (safe_committed m vs)]> (replicas (promise e m vs)))
    (Some (mkLeader c e)) (committed_values m).

Lemma promise_lookup e m vs n :
  replicas (promise e m vs) !! n
  = (λ r, if bool_decide (n ∈ vs) then with_promised r e else r) <$> replicas m !! n.
Proof. unfold promise. simpl. rewrite map_lookup_imap. by destruct (replicas m !! n). Qed.

(** The guards of an election. *)
Definition may_elect (m : PartitionModel) (c : NodeId) (e : N) (vs : gset NodeId) : Prop :=
  is_quorum m vs ∧ c ∈ vs ∧ ∀ n r, n ∈ vs → replicas m !! n = Some r → (promised_epoch r < e)%N.

Lemma elect_cases m c e vs res m' :
  elect c e vs m = (res, m') →
  (m' = m ∧ is_Ok res = false) ∨
  ∃ source, may_elect m c e vs ∧ election_source m vs (safe_committed m vs) = Some source
    ∧ m' = elected m c e vs source ∧ res = check_invariants m'.
Proof.
  unfold elect, mbind, stm_bind, reads, modify.
  destruct ((size vs <? quorum m) || negb (bool_decide (c ∈ vs))) eqn:Hq; simpl; [intros [= <- <-]; by left|].
  apply orb_false_iff in Hq as [Hq Hc]. apply Nat.ltb_ge in Hq. apply negb_false_iff, bool_decide_eq_true in Hc.
  destruct (existsb (λ n, negb (bool_decide (is_Some (replicas m !! n)))) (set_iter vs)) eqn:Hk; simpl; [intros [= <- <-]; by left|].
  destruct (existsb (λ n, is_some_and (λ r, (e <=? promised_epoch r)%N) (replicas m !! n)) (set_iter vs)) eqn:Hp; simpl;
    [intros [= <- <-]; by left|].
  destruct (election_source m vs (safe_committed m vs)) as [source|] eqn:Hs; simpl; [|intros [= <- <-]; by left].
  destruct (match safe_committed m vs with Some c0 => check_prefix m source c0 UnsafeElection | None => Ok () end) as [u|err];
    [|intros [= <- <-]; by left].
  assert (may_elect m c e vs) as Hmay.
  { split; [split; [|done]|split; [done|]].
    - intros n Hn. apply elem_of_dom. 
      by apply elem_of_set_iter, (proj1 (existsb_false_iff _ _) Hk), negb_false_iff, bool_decide_eq_true in Hn.
    - intros n r Hn Hr. apply elem_of_set_iter, (proj1 (existsb_false_iff _ _) Hp) in Hn. rewrite Hr in Hn. simpl in Hn.
      by apply N.leb_gt in Hn. }
  assert (is_Some (replicas m !! c)) as [r Hr] by (apply elem_of_dom; by apply Hmay).
  pose proof (promise_lookup e m vs c) as Hpl. rewrite Hr in Hpl. simpl in Hpl. rewrite bool_decide_true in Hpl by done.
  cbn [replicas] in *. rewrite Hpl. simpl. intros [= <- <-]. right. exists source. done.
Qed.

Lemma election_epoch_fresh m L E c e vs : inv m L E → may_elect m c e vs → (E < e)%N.
Proof.
  intros Hinv (Hvs & _ & Hp). destruct (i_last _ _ _ Hinv) as [->|[_ (Q & HQ & Hpq)]].
  - destruct (quorum_meet m vs vs Hvs Hvs) as (n & Hn & _).
    assert (is_Some (replicas m !! n)) as [r Hr] by (apply elem_of_dom; by apply Hvs). specialize (Hp _ _ Hn Hr). lia.
  - destruct (quorum_meet m vs Q Hvs HQ) as (n & Hn & HnQ).
    assert (is_Some (replicas m !! n)) as [r Hr] by (apply elem_of_dom; by apply Hvs).
    specialize (Hp _ _ Hn Hr). rewrite (Hpq _ _ HnQ Hr) in Hp. done.
Qed.

Lemma elected_lookup m c e vs source n r' :
  replicas (elected m c e vs source) !! n = Some r' →
  (n = c ∧ r' = mkReplica e source (safe_committed m vs))
  ∨ (n ≠ c ∧ ∃ r, replicas m !! n = Some r ∧ log r' = log r ∧ committed r' = committed r
              ∧ promised_epoch r' = if bool_decide (n ∈ vs) then e else promised_epoch r).
Proof.
  unfold elected. cbn [replicas]. intros [[<- <-]|[Hne Hr]]%lookup_insert_Some; [by left|right].
  rewrite promise_lookup in Hr. destruct (replicas m !! n) as [r|]; [|done]. simpl in Hr. injection Hr as <-.
  split; [done|]. exists r. by destruct (bool_decide (n ∈ vs)).
Qed.

Lemma elected_dom m c e vs source : c ∈ vs → vs ⊆ dom (replicas m) →
  dom (replicas (elected m c e vs source)) = dom (replicas m).
Proof.
  intros Hc Hvs. apply set_eq. intros n. unfold elected. cbn [replicas]. rewrite dom_insert_L, elem_of_union, elem_of_singleton.
  rewrite !elem_of_dom, promise_lookup, fmap_is_Some, <-elem_of_dom. set_solver.
Qed.

Lemma inv_elect m L E c e vs source :
  inv m L E → may_elect m c e vs → election_source m vs (safe_committed m vs) = Some source →
  inv (elected m c e vs source) (<[e := source]> L) e.
Proof.
  intros Hinv Hmay Hsrc. pose proof (election_epoch_fresh _ _ _ _ _ _ Hinv Hmay) as Hfresh.
  destruct Hmay as (Hvs & Hc & Hp). pose proof (elected_dom m c e vs source Hc (proj1 Hvs)) as Hdom.
  assert (L !! e = None) as HLe.
  { destruct (L !! e) eqn:HL; [|done]. apply (i_bound _ _ _ Hinv) in HL. lia. }
  assert (L ⊆ <[e := source]> L) as Hsub by by apply insert_subseteq.
  destruct (election_source_spec _ _ _ _ Hsrc) as (ns & rs & _ & Hrs & Hlog & _).
  assert (good (<[e := source]> L) e source) as Hgs.
  { destruct (i_log _ _ _ Hinv _ _ Hrs) as [Hg _]. rewrite Hlog in Hg. eapply good_mono; [done| |done]. lia. }
  split.
  - intros e' l [[<- _]|[_ Hl]]%lookup_insert_Some; [lia|]. apply (i_bound _ _ _ Hinv) in Hl. lia.
  - intros e' l [[<- <-]|[_ Hl]]%lookup_insert_Some; [done|]. apply (i_hist _ _ _ Hinv) in Hl.
    eapply good_mono; [done| |done]. lia.
  - intros n r' [[-> ->]|(_ & r & Hr & Hlg & _ & Hpr)]%elected_lookup; [split; [done|simpl; lia]|].
    rewrite Hlg, Hpr. destruct (i_log _ _ _ Hinv _ _ Hr) as [Hg Hple]. split; [eapply good_mono; [done| |done]; lia|].
    case_bool_decide; lia.
  - right. split; [rewrite lookup_insert_eq; eauto|]. exists vs. split; [by eapply quorum_dom|].
    intros n r' Hn [[-> ->]|(_ & r & _ & _ & _ & Hpr)]%elected_lookup; [done|]. by rewrite bool_decide_true in Hpr.
  - intros ld [= <-]. split; [done|]. exists (mkReplica e source (safe_committed m vs)). unfold elected. simpl.
    rewrite !lookup_insert_eq. done.
  - apply (i_dom _ _ _ Hinv).
  - intros o d Hd. destruct (i_comm _ _ _ Hinv _ _ Hd) as (ce & Hde & Hb). exists ce. split; [done|].
    assert (source !! N.to_nat o = Some ce) as Hso by (eapply source_complete; eauto).
    destruct Hb as ([lc Hlc] & (Q & HQ & Hheld) & Hlater). split; [exists lc; by eapply lookup_weaken|]. split.
    + exists Q. split; [by eapply quorum_dom|].
      intros n r' Hn [[-> ->]|(_ & r & Hr & Hlg & _)]%elected_lookup; [done|]. rewrite Hlg. by eapply Hheld.
    + intros e' l [[<- <-]|[_ Hl]]%lookup_insert_Some Hle; [done|by eapply Hlater].
  - intros n r' k [[-> ->]|(_ & r & Hr & _ & Hcm & _)]%elected_lookup; simpl.
    + intros Hk. destruct (safe_committed_marks _ _ _ Hk) as (n0 & r0 & _ & Hr0 & Hc0). by eapply i_mark.
    + rewrite Hcm. by eapply i_mark.
Qed.

(** ** Reachable states *)

Lemma inv_new nodes m : new nodes = Ok m → inv m ∅ 0.
Proof.
  unfold new. intros (_ & _ & [= <-])%bind_Ok. split; simpl; try done.
  - intros n r Hr. apply elem_of_list_to_map_2, list_elem_of_fmap in Hr as (n' & [= -> ->] & _). simpl. split; [|lia].
    by intros i x Hx.
  - by left.
  - exists 0%N. intros o. rewrite lookup_empty. split; [by intros [? ?]|lia].
  - intros n r k Hr. apply elem_of_list_to_map_2, list_elem_of_fmap in Hr as (n' & [= -> ->] & _). done.
Qed.

Lemma append_cases m L E d res m' :
  inv m L E → append d m = (res, m') →
  m' = m ∨ ∃ ld r, leader m = Some ld ∧ replicas m !! leader_node ld = Some r ∧
    m' = with_replicas m (<[leader_node ld := with_log r (log r ++ [mkLogEntry (len (log r)) E d])]> (replicas m)).
Proof.
  intros Hinv. unfold append, mbind, stm_bind, reads, lift, modify.
  destruct (leader m) as [ld|] eqn:Hl; [|intros [= <- <-]; by left]. simpl.
  destruct (i_leader _ _ _ Hinv _ Hl) as (HE & r & Hr & _). rewrite Hr. simpl.
  destruct (N.eqb_spec (promised_epoch r) (leader_epoch ld)); simpl; [|intros [= <- <-]; by left].
  set (m1 := with_replicas _ _). intros Hm. right. exists ld, r. split; [done|]. split; [done|].
  rewrite <-HE. fold m1. destruct (check_invariants m1); by injection Hm as _ <-.
Qed.

Lemma inv_exec m L E o :
  inv m L E → ∃ L' E', inv (exec o m).2 L' E' ∧ committed_values m ⊆ committed_values (exec o m).2.
Proof.
  intros Hinv. destruct o as [c e vs|d|f en|o|n o|]; simpl.
  - destruct (elect c e vs m) as [res m'] eqn:Hx. simpl.
    destruct (elect_cases _ _ _ _ _ _ Hx) as [[-> _]|(source & Hmay & Hs & -> & _)]; [by exists L, E|].
    exists (<[e := source]> L), e. split; [by eapply inv_elect|done].
  - unfold mbind, stm_bind. destruct (append d m) as [[en|err] m'] eqn:Hx; simpl.
    all: destruct (append_cases _ _ _ _ _ _ Hinv Hx) as [->|(ld & r & Hl & Hr & ->)]; [by exists L, E|].
    all: eexists _, E; split; [by eapply inv_append|done].
  - destruct (replicate f en m) as [res m'] eqn:Hx. simpl. exists L, E.
    destruct (inv_replicate _ _ _ _ _ _ _ Hinv Hx) as (? & -> & _). done.
  - destruct (commit o m) as [res m'] eqn:Hx. simpl. exists L, E.
    destruct (inv_commit _ _ _ _ _ _ Hinv Hx) as (? & ? & _). done.
  - destruct (propagate_commit n o m) as [res m'] eqn:Hx. simpl. exists L, E.
    destruct (inv_propagate _ _ _ _ _ _ _ Hinv Hx) as (? & -> & _). done.
  - exists L, E. split; [by apply inv_step_down|done].
Qed.

Lemma reachable_inv nodes m : reachable nodes m → ∃ L E, inv m L E.
Proof.
  induction 1 as [m Hm|m o _ (L & E & Hinv)]; [exists ∅, 0%N; by eapply inv_new|].
  destruct (inv_exec m L E o Hinv) as (L' & E' & ? & _). eauto.
Qed.

(** A trace of operations, whatever each of them returns. *)
Definition run (ops : list op) (m : PartitionModel) : PartitionModel := foldl (λ m o, (exec o m).2) m ops.

(** C38: in no trace, of any length and with any arguments, does an operation
    change or drop a committed value. *)
Theorem committed_immutable nodes m ops :
  reachable nodes m → committed_values m ⊆ committed_values (run ops m).
Proof.
  intros (L & E & Hinv)%reachable_inv. revert m L E Hinv. induction ops as [|o ops IH]; intros m L E Hinv; [done|].
  destruct (inv_exec m L E o Hinv) as (L' & E' & Hinv' & Hsub). simpl. etransitivity; [exact Hsub|]. by eapply IH.
Qed.

(** Whoever leads, in any reachable state, holds every committed value at its
    offset. *)
Theorem leader_complete nodes m ld :
  reachable nodes m → leader m = Some ld →
  ∃ r, replicas m !! leader_node ld = Some r
       ∧ ∀ o d, committed_values m !! o = Some d → digest <$> entry r o = Some d.
Proof.
  intros (L & E & Hinv)%reachable_inv Hl. destruct (i_leader _ _ _ Hinv _ Hl) as (_ & r & Hr & HL & _).
  exists r. split; [done|]. intros o d Hd. destruct (i_comm _ _ _ Hinv _ _ Hd) as (c & <- & Hb).
  destruct (backed_current _ _ _ _ _ Hinv Hb) as (lE & HLE & Hc). rewrite HL in HLE. injection HLE as <-.
  unfold entry. by rewrite Hc.
Qed.

(** A committed value stays on a majority: in every reachable state the same
    entry, with its offset, epoch and digest, is in the logs of a quorum. *)
Theorem committed_durable nodes m o d :
  reachable nodes m → committed_values m !! o = Some d →
  ∃ c Q, digest c = d ∧ offset c = o ∧ is_quorum m Q
         ∧ ∀ n r, n ∈ Q → replicas m !! n = Some r → entry r o = Some c.
Proof.
  intros (L & E & Hinv)%reachable_inv Hd. destruct (i_comm _ _ _ Hinv _ _ Hd) as (c & <- & Hb).
  destruct (backed_current _ _ _ _ _ Hinv Hb) as (lE & HLE & Hc).
  destruct (i_hist _ _ _ Hinv _ _ HLE _ _ Hc) as (Ho & _). destruct Hb as (_ & (Q & HQ & Hheld) & _).
  exists c, Q. split_and!; [done|lia|done|done].
Qed.

(** A replication that is accepted leaves the follower with the leader's log up
    to and including the entry. *)
Theorem replicate_agrees nodes m f en m' :
  reachable nodes m → replicate f en m = (Ok (), m') →
  ∃ ld lr fr, leader m' = Some ld ∧ replicas m' !! leader_node ld = Some lr ∧ replicas m' !! f = Some fr
    ∧ entry fr (offset en) = Some en
    ∧ take (S (N.to_nat (offset en))) (log fr) = take (S (N.to_nat (offset en))) (log lr).
Proof.
  intros (L & E & Hinv)%reachable_inv. unfold replicate, mbind, stm_bind, reads, lift.
  destruct (leader m) as [ld|] eqn:Hl; [|done]. simpl.
  destruct (i_leader _ _ _ Hinv _ Hl) as (HE & lr & Hlr & HL & Hp).
  destruct (N.eqb_spec (epoch en) (leader_epoch ld)) as [He|]; [|done].
  destruct (N.eqb_spec f (leader_node ld)) as [|Hf]; [done|]. simpl. rewrite Hlr. simpl.
  destruct (decide (entry lr (offset en) = Some en)) as [Hen|];
    [rewrite bool_decide_true by done|by rewrite bool_decide_false by done].
  simpl. destruct (length (log lr) <? N.to_nat (offset en)); [done|]. simpl.
  unfold at_replica. destruct (replicas m !! f) as [r|] eqn:Hr; [|done].
  destruct (i_log _ _ _ Hinv _ _ Hr) as [Hg Hpr]. pose proof (i_hist _ _ _ Hinv _ _ HL) as Hh. rewrite HE in He.
  destruct (follow (take (N.to_nat (offset en)) (log lr)) en r) as [[b|] r'] eqn:Hfo; [|done]. intros Hend.
  assert (m' = with_replicas m (<[f := r']> (replicas m))) as -> by (destruct b; by injection Hend).
  apply stm_bind_Ok in Hfo as (u & r2 & Hal & Hpu). apply (align_spec L E (log lr) en r Hh Hg Hpr Hen He) in Hal.
  apply (push_spec L E (log lr) en r HL Hh Hg Hpr Hen He r2 _ _ Hal) in Hpu as (_ & _ & Ht). simpl in Ht.
  exists ld, lr, r'. simpl. rewrite lookup_insert_eq, lookup_insert_ne by done. split_and!; [done..| |done].
  unfold entry in *. rewrite <-Hen. apply (take_lookup_eq _ _ _ _ Ht). lia.
Qed.

(** ** The self-check *)

(** What the markers of the replicas promise. *)
Definition marked (m : PartitionModel) : Prop :=
  ∀ n r k, replicas m !! n = Some r → committed r = Some k →
    ∀ o, (o ≤ k)%N → ∃ d, committed_values m !! o = Some d ∧ digest <$> log r !! N.to_nat o = Some d.

Lemma check_prefix_Ok m l k err :
  check_prefix m l k err = Ok () ↔
  ∀ o, (o ≤ k)%N → ∃ d, committed_values m !! o = Some d ∧ digest <$> l !! N.to_nat o = Some d.
Proof.
  unfold check_prefix. rewrite try_foldl_unit, Forall_forall. split.
  - intros Hall o Ho. specialize (Hall (N.to_nat o)). rewrite N2Nat.id in Hall.
    destruct (proj1 (bind_Ok _ _ _) (Hall ltac:(apply elem_of_seq; lia))) as (d & Hd%ok_or_Ok & Hc%fail_if_Ok).
    apply negb_false_iff, bool_decide_eq_true in Hc. eauto.
  - intros Hall i Hi%elem_of_seq. destruct (Hall (N.of_nat i)) as (d & Hd & Hl); [lia|].
    rewrite Hd. simpl. rewrite Nat2N.id in Hl. by rewrite Hl, bool_decide_true.
Qed.

Lemma sorted_contiguous {A} (l : list (N * A)) (a K : N) :
  StronglySorted by_key l → NoDup (l.*1) → (∀ o, o ∈ l.*1 ↔ (a ≤ o < K)%N) →
  ∀ k x, l !! k = Some x → x.1 = (a + N.of_nat k)%N.
Proof.
  intros Hs. revert a. induction Hs as [|x l Hs IH Hlt]; intros a Hnd Hin k y; [done|].
  simpl in Hnd. apply NoDup_cons in Hnd as [Hx Hnd]. rewrite Forall_forall in Hlt. simpl in Hin.
  assert (x.1 = a) as Hxa.
  { assert (a ≤ x.1 < K)%N as Hb by (apply Hin; left). assert (a ∈ x.1 :: l.*1) as Ha by (apply Hin; lia).
    apply elem_of_cons in Ha as [|(z & Hz & Hzl)%list_elem_of_fmap]; [done|].
    specialize (Hlt _ Hzl). unfold by_key in Hlt. lia. }
  destruct k as [|k]; simpl; [intros [= <-]; lia|]. intros Hy.
  rewrite (IH (a + 1)%N Hnd) with (k := k) (x := y); [lia| |done].
  intros o. split.
  - intros Ho. assert (a ≤ o < K)%N by (apply Hin; by right). assert (o ≠ x.1) by (intros ->; done). lia.
  - intros Ho. assert (o ∈ x.1 :: l.*1) as Ho' by (apply Hin; lia). apply elem_of_cons in Ho' as [->|?]; [lia|done].
Qed.

(** With the safety invariant, the self-check passes exactly when the markers
    are right. *)
Lemma check_marked m L E : inv m L E → check_invariants m = Ok () ↔ marked m.
Proof.
  intros Hinv. unfold check_invariants.
  assert (∃ j, try_foldl (λ (i : nat) (od : Offset * N), _ ← fail_if (negb (od.1 =? N.of_nat i)%N) CommitGap; Ok (S i)) 0
                 (map_iter (committed_values m)) = Ok j) as [j ->].
  { apply try_foldl_enumerate. destruct (i_dom _ _ _ Hinv) as [K HK]. intros k x Hx.
    rewrite (sorted_contiguous (map_iter (committed_values m)) 0 K) with (k := k) (x := x); [done| | |  |done].
    - apply map_iter_sorted.
    - rewrite map_iter_perm. apply NoDup_fst_map_to_list.
    - intros o. rewrite map_iter_perm. split.
      + intros ([o' d] & -> & Hd%elem_of_map_to_list)%list_elem_of_fmap. simpl. split; [lia|]. apply HK. eauto.
      + intros [_ [d Hd]%HK]. apply list_elem_of_fmap. exists (o, d). split; [done|]. by apply elem_of_map_to_list. }
  simpl. rewrite try_foldl_unit, Forall_forall. split.
  - intros Hall n r k Hr Hk. specialize (Hall (n, r)). rewrite map_iter_perm, elem_of_map_to_list in Hall.
    destruct (proj1 (bind_Ok _ _ _) (Hall Hr)) as (i & _ & Hc). simpl in Hc. rewrite Hk in Hc. by eapply check_prefix_Ok.
  - intros Hm [n r] Hnr. rewrite map_iter_perm, elem_of_map_to_list in Hnr. unfold check_replica. simpl.
    destruct (proj2 (try_foldl_enumerate offset LogGap (log r) 0)) as [i ->].
    { intros k x Hx. destruct (i_log _ _ _ Hinv _ _ Hnr) as [Hg _]. by apply Hg in Hx as [? _]. }
    simpl. destruct (committed r) as [k|] eqn:Hk; [|done]. apply check_prefix_Ok. by eapply Hm.
Qed.

(** A follower keeps the part of its log its marker covers. *)
Definition keeps_below (r r' : Replica) : Prop :=
  committed r' = committed r ∧
  ∀ k, committed r = Some k → (k < len (log r))%N →
    (k < len (log r'))%N ∧ ∀ i, (N.of_nat i ≤ k)%N → log r' !! i = log r !! i.

#[local] Instance keeps_below_preorder : PreOrder keeps_below.
Proof.
  split; [by intros r|]. intros r1 r2 r3 [Hc12 H12] [Hc23 H23]. split; [congruence|].
  intros k Hk Hlt. destruct (H12 k Hk Hlt) as [Hlt2 Hi2]. rewrite <-Hc12 in Hk.
  destruct (H23 k Hk Hlt2) as [Hlt3 Hi3]. split; [done|]. intros i Hi. rewrite Hi3, Hi2; done.
Qed.

Lemma keeps_below_app r l : keeps_below r (with_log r (log r ++ l)).
Proof.
  split; [done|]. intros k Hk Hlt. simpl. split; [rewrite len_app; lia|].
  intros i Hi. apply lookup_app_l. unfold len in Hlt. lia.
Qed.

(** Computations on a replica that keep it. *)
Definition keeping {A} (c : stm Replica ModelError A) : Prop := ∀ r, keeps_below r (c r).2.

Lemma keeping_bind {A B} (c : stm Replica ModelError A) (f : A → stm Replica ModelError B) :
  keeping c → (∀ a, keeping (f a)) → keeping (c ≫= f).
Proof.
  intros Hc Hf r. specialize (Hc r). unfold mbind, stm_bind. destruct (c r) as [[a|e] r1]; [|done].
  transitivity r1; [done|apply Hf].
Qed.

Lemma keeping_reads {A} (f : Replica → result ModelError A) : keeping (reads f).
Proof. by intros r. Qed.

Lemma keeping_mret {A} (a : A) : keeping (mret a).
Proof. by intros r. Qed.

Create HintDb keeping.
#[local] Hint Resolve keeping_bind keeping_reads keeping_mret : keeping.

Lemma truncate_keeping o : keeping (truncate_uncommitted o).
Proof.
  intros r. unfold truncate_uncommitted, mbind, stm_bind, reads, modify.
  destruct (is_some_and (λ c, (o <=? c)%N) (committed r)) eqn:Ho; simpl; [done|].
  split; [done|]. intros k Hk Hlt. rewrite Hk in Ho. simpl in Ho. apply N.leb_gt in Ho. simpl.
  unfold len in *. rewrite length_take. split; [lia|]. intros i Hi. apply lookup_take_lt. lia.
Qed.
#[local] Hint Resolve truncate_keeping : keeping.

Lemma follow_keeping prefix en : keeping (follow prefix en).
Proof.
  apply keeping_bind.
  - apply keeping_bind; [auto with keeping|]. intros _.
    apply keeping_bind; [intros r; unfold modify; simpl; by destruct (promised_epoch r <? epoch en)%N|]. intros _.
    apply keeping_bind.
    + intros r. destruct (first_mismatch (log r) prefix); [apply truncate_keeping|done].
    + intros _ r. unfold modify. simpl. destruct (length (log r) <? length prefix); [apply keeps_below_app|done].
  - intros _. apply keeping_bind.
    + intros r. destruct (log r !! N.to_nat (offset en)) as [x|]; [|done].
      destruct (decide (x = en)); [done|]. apply keeping_bind; auto with keeping.
    + intros []; [apply keeping_mret|]. repeat (apply keeping_bind; [|intros ?]); auto with keeping.
      intros r. apply keeps_below_app.
Qed.

Lemma marked_update m n r r' :
  marked m → replicas m !! n = Some r → keeps_below r r' → marked (with_replicas m (<[n := r']> (replicas m))).
Proof.
  intros Hm Hr [Hc Hk] n' r0 k. simpl. intros [[-> <-]|[_ Hr0]]%lookup_insert_Some Hk0 o Ho; [|by eapply Hm].
  rewrite Hc in Hk0. destruct (Hm _ _ _ Hr Hk0 o Ho) as (d & Hd & Hl). exists d. split; [done|].
  destruct (Hm _ _ _ Hr Hk0 k ltac:(lia)) as (dk & _ & Hlk).
  destruct (Hk k Hk0) as [_ Hi]; [|by rewrite Hi by lia].
  destruct (log r !! N.to_nat k) as [x|] eqn:Hx; [|done]. apply lookup_lt_Some in Hx. unfold len. lia.
Qed.

(** Traces in which no propagation is refused. *)
Inductive orderly (nodes : list NodeId) : PartitionModel → Prop :=
| orderly_new m : new nodes = Ok m → orderly nodes m
| orderly_step m o :
    orderly nodes m → (∀ n k, o = Propagate n k → is_Ok (exec o m).1 = true) → orderly nodes (exec o m).2.

Lemma marked_elect m L E c e vs source :
  inv m L E → marked m → may_elect m c e vs → election_source m vs (safe_committed m vs) = Some source →
  marked (elected m c e vs source).
Proof.
  intros Hinv Hm Hmay Hs n r k Hr Hk o Ho. apply elected_lookup in Hr as [[-> ->]|(_ & r0 & Hr0 & Hlg & Hcm & _)].
  - simpl in Hk. destruct (safe_committed_marks _ _ _ Hk) as (n0 & r0 & _ & Hr0 & Hc0).
    destruct (Hm _ _ _ Hr0 Hc0 o Ho) as (d & Hd & _). exists d. split; [done|].
    destruct (i_comm _ _ _ Hinv _ _ Hd) as (ce & <- & Hb). simpl.
    rewrite (source_complete m L E vs source o ce Hinv); [done|by apply Hmay|done|eauto|done].
  - rewrite Hlg. rewrite Hcm in Hk. by eapply Hm.
Qed.

Lemma marked_replicate m f en : marked m → marked (replicate f en m).2.
Proof.
  intros Hm. unfold replicate, mbind, stm_bind, reads, lift.
  destruct (ok_or (leader m) NoLeader) as [ld|]; [|done]. destruct (fail_if _ StaleEpoch); [|done].
  destruct (ok_or (replicas m !! leader_node ld) UnknownReplica) as [lr|]; [|done].
  destruct (fail_if _ LeaderEntryMismatch); [|done]. destruct (fail_if _ LogGap); [|done].
  unfold at_replica. destruct (replicas m !! f) as [r|] eqn:Hr; [|done].
  pose proof (follow_keeping (take (N.to_nat (offset en)) (log lr)) en r) as Hk.
  destruct (follow _ en r) as [res r']. assert (marked (with_replicas m (<[f := r']> (replicas m)))) by by eapply marked_update.
  destruct res as [[]|]; done.
Qed.

Lemma marked_commit m L E o : inv m L E → marked m → marked (commit o m).2.
Proof.
  intros Hinv Hm. destruct (commit o m) as [res m'] eqn:Hx. simpl. pose proof (inv_commit _ _ _ _ _ _ Hinv Hx) as (Hinv' & Hsub & Hld).
  assert (∀ n r k, replicas m' !! n = Some r → committed r = Some k →
    replicas m !! n = Some r ∨ (∃ ld, leader m = Some ld ∧ n = leader_node ld ∧ L !! E = Some (log r))) as Hrep.
  { revert Hx. unfold commit, mbind, stm_bind, reads, lift, modify.
    destruct (leader m) as [ld|] eqn:Hl; [|intros [= _ <-]; eauto]. simpl.
    destruct (i_leader _ _ _ Hinv _ Hl) as (HE & lr & Hlr & HL & Hp). rewrite Hlr. simpl.
    destruct (entry lr o) as [en|]; [|intros [= _ <-]; eauto]. simpl.
    do 3 (destruct (fail_if _ _); [|intros [= _ <-]; eauto]).
    destruct (fail_if _ _); intros [= _ <-]; [|eauto]. simpl. intros n r k Hr _.
    apply lookup_insert_Some in Hr as [[<- <-]|[_ Hr]]; eauto 6. }
  intros n r k Hr Hk i Hi. destruct (Hrep _ _ _ Hr Hk) as [Hr0|(ld & Hl & -> & HL)].
  - destruct (Hm _ _ _ Hr0 Hk i Hi) as (d & Hd & Hlg). exists d. split; [by eapply lookup_weaken|done].
  - assert (is_Some (committed_values m' !! i)) as [d Hd].
    { destruct (i_dom _ _ _ Hinv') as [K HK]. apply HK. 
      destruct (i_mark _ _ _ Hinv' _ _ _ Hr Hk) as [dk Hdk]. assert (k < K)%N by (apply HK; eauto). lia. }
    exists d. split; [done|]. destruct (i_comm _ _ _ Hinv' _ _ Hd) as (c & <- & Hb).
    destruct (backed_current _ _ _ _ _ Hinv' Hb) as (lE & HLE & Hc). rewrite HL in HLE. injection HLE as <-. by rewrite Hc.
Qed.

Lemma marked_exec m L E o :
  inv m L E → marked m → (∀ n k, o = Propagate n k → is_Ok (exec o m).1 = true) → marked (exec o m).2.
Proof.
  intros Hinv Hm Hp. destruct (inv_exec m L E o Hinv) as (L' & E' & Hinv' & _).
  destruct o as [c e vs|d|f en|o|n o|]; simpl in *.
  - destruct (elect c e vs m) as [res m'] eqn:Hx.
    destruct (elect_cases _ _ _ _ _ _ Hx) as [[-> _]|(source & Hmay & Hs & -> & _)]; [done|by eapply marked_elect].
  - unfold mbind, stm_bind. destruct (append d m) as [[en|err] m'] eqn:Hx; simpl.
    all: destruct (append_cases _ _ _ _ _ _ Hinv Hx) as [->|(ld & r & Hl & Hr & ->)]; [done|].
    all: eapply marked_update; [done|done|apply keeps_below_app].
  - by apply marked_replicate.
  - by eapply marked_commit.
  - specialize (Hp n o eq_refl). apply (check_marked _ L' E' Hinv'). revert Hp.
    unfold propagate_commit, mbind, stm_bind, reads, lift, modify.
    destruct (ok_or (committed_values m !! o) _); [|done]. destruct (ok_or (replicas m !! n) _); [|done].
    destruct (fail_if _ _); [|done]. simpl. by destruct (check_invariants _) as [[]|].
  - done.
Qed.

Lemma orderly_inv nodes m : orderly nodes m → ∃ L E, inv m L E ∧ marked m.
Proof.
  induction 1 as [m Hnew|m o _ (L & E & Hinv & Hm) Hp].
  - exists ∅, 0%N. split; [by eapply inv_new|]. unfold new in Hnew. apply bind_Ok in Hnew as (_ & _ & [= <-]). intros n r k Hr Hk.
    apply elem_of_list_to_map_2, list_elem_of_fmap in Hr as (n' & [= _ ->] & _). done.
  - destruct (inv_exec m L E o Hinv) as (L' & E' & Hinv' & _). exists L', E'. split; [done|]. by eapply marked_exec.
Qed.

(** On traces whose propagations are accepted the model's self-check passes
    after every operation, accepted or refused. *)
Theorem self_check_passes nodes m : orderly nodes m → check_invariants m = Ok ().
Proof. intros (L & E & Hinv & Hm)%orderly_inv. by apply (check_marked m L E). Qed.

Lemma election_source_some m L E c e vs :
  inv m L E → marked m → may_elect m c e vs → is_Some (election_source m vs (safe_committed m vs)).
Proof.
  intros Hinv Hm (Hq & Hc & _). unfold election_source.
  assert (∃ n r, n ∈ vs ∧ replicas m !! n = Some r ∧ eligible (safe_committed m vs) r) as (n & r & Hn & Hr & Hel).
  { destruct (safe_committed m vs) as [k|] eqn:Hs.
    - destruct (safe_committed_marks _ _ _ Hs) as (n & r & Hn & Hr & Hk). exists n, r. split; [done|]. split; [done|].
      destruct (Hm _ _ _ Hr Hk k ltac:(lia)) as (d & _ & (x & Hx & ->)%fmap_Some).
      destruct (i_log _ _ _ Hinv _ _ Hr) as [Hg _]. eapply last_offset_ge; [done|done|lia].
    - destruct Hq as [Hq _]. assert (is_Some (replicas m !! c)) as [r Hr] by (apply elem_of_dom; set_solver). by exists c, r. }
  destruct (filter _ _) as [|x l] eqn:Hf; [|done]. exfalso.
  apply (not_elem_of_nil (n, r)). rewrite <-Hf. apply list_elem_of_filter. split; [exact Hel|]. by apply elem_of_voters.
Qed.

Lemma set_iter_none (f : N → bool) vs : (∀ n, n ∈ vs → f n = false) → existsb f (set_iter vs) = false.
Proof.
  intros Hf. destruct (existsb f (set_iter vs)) eqn:Hx; [|done].
  apply existsb_exists in Hx as (n & Hn%list_elem_of_In%elem_of_set_iter & Ht). rewrite (Hf n Hn) in Ht. done.
Qed.

Lemma elect_runs m c e vs source :
  may_elect m c e vs → election_source m vs (safe_committed m vs) = Some source →
  (∀ k, safe_committed m vs = Some k → check_prefix m source k UnsafeElection = Ok ()) →
  elect c e vs m = (check_invariants (elected m c e vs source), elected m c e vs source).
Proof.
  intros ((Hsub & Hq) & Hc & Hp) Hs Hpre. unfold elect, mbind, stm_bind, reads, modify.
  rewrite (proj2 (Nat.ltb_ge (size vs) (quorum m)) Hq), bool_decide_true by done. simpl.
  rewrite set_iter_none by (intros n Hn; apply negb_false_iff, bool_decide_eq_true, elem_of_dom; set_solver). simpl.
  rewrite set_iter_none; cycle 1.
  { intros n Hn. destruct (replicas m !! n) as [r|] eqn:Hr; [|done]. simpl. apply N.leb_gt. by eapply Hp. }
  simpl. rewrite Hs. simpl.
  assert (match safe_committed m vs with Some c0 => check_prefix m source c0 UnsafeElection | None => Ok () end = Ok ()) as ->.
  { destruct (safe_committed m vs); [by apply Hpre|done]. }
  assert (is_Some (replicas m !! c)) as [r Hr] by (apply elem_of_dom; set_solver).
  pose proof (promise_lookup e m vs c) as Hpl. rewrite Hr in Hpl. simpl in Hpl. rewrite bool_decide_true in Hpl by done.
  cbn [replicas] in *. by rewrite Hpl.
Qed.

(** Elections are live: on orderly traces a candidate wins exactly when it has
    a quorum of known voters, itself among them, that promised only older
    epochs.  [NoSafeElectionSource], [UnsafeElection] and a failed self-check never
    stop one. *)
Theorem elect_succeeds nodes m c e vs :
  orderly nodes m → (elect c e vs m).1 = Ok () ↔ may_elect m c e vs.
Proof.
  intros (L & E & Hinv & Hm)%orderly_inv. split.
  - intros Hok. destruct (elect c e vs m) as [res m'] eqn:Hx. simpl in Hok. subst res.
    destruct (elect_cases _ _ _ _ _ _ Hx) as [[_ ?]|(source & Hmay & _)]; done.
  - intros Hmay. destruct (election_source_some m L E c e vs Hinv Hm Hmay) as [source Hs].
    pose proof (marked_elect _ _ _ _ _ _ _ Hinv Hm Hmay Hs) as Hm'.
    pose proof (inv_elect _ _ _ _ _ _ _ Hinv Hmay Hs) as Hinv'.
    rewrite (elect_runs m c e vs source Hmay Hs); [by apply (check_marked _ _ _ Hinv')|].
    intros k Hk. apply check_prefix_Ok. apply (Hm' c (mkReplica e source (safe_committed m vs)) k); [|done].
    apply lookup_insert_eq.
Qed.

(** ** A failover between replication and commit *)

Section stall.
Context (o : Offset) (d : N).

(** The state as it would be had the value been committed. *)
Definition ghost (m : PartitionModel) : PartitionModel := with_values m (<[o := d]> (committed_values m)).

Definition stalled (m : PartitionModel) : Prop :=
  (∃ L E, inv m L E) ∧
  (∃ L E lE c, inv (ghost m) L E ∧ L !! E = Some lE ∧ lE !! N.to_nat o = Some c ∧ (epoch c < E)%N) ∧
  (∀ o', (o ≤ o')%N → committed_values m !! o' = None).

Lemma ghost_replicate f en m : (replicate f en (ghost m)).2 = ghost (replicate f en m).2.
Proof.
  unfold replicate, mbind, stm_bind, reads, lift. change (leader (ghost m)) with (leader m).
  change (replicas (ghost m)) with (replicas m).
  destruct (ok_or (leader m) NoLeader) as [ld|]; [|done]. destruct (fail_if _ StaleEpoch); [|done].
  destruct (ok_or (replicas m !! leader_node ld) UnknownReplica) as [lr|]; [|done].
  destruct (fail_if _ LeaderEntryMismatch); [|done]. destruct (fail_if _ LogGap); [|done].
  unfold at_replica. change (replicas (ghost m)) with (replicas m). destruct (replicas m !! f) as [r|]; [|done].
  destruct (follow _ en r) as [[[]|] r']; done.
Qed.

Lemma stalled_commit m o' : stalled m → (commit o' m).2 = m.
Proof.
  intros (_ & (L & E & lE & c & Hinv & HL & Hc & Hlt) & Hnone).
  unfold commit, mbind, stm_bind, reads, lift, modify.
  destruct (leader m) as [ld|] eqn:Hl; [|done]. simpl.
  destruct (i_leader _ _ _ Hinv ld Hl) as (HE & r & Hr & HLr & _). simpl in Hr. rewrite Hr. simpl.
  rewrite HL in HLr. injection HLr as ->.
  destruct (entry r o') as [en|] eqn:Hen; [|done]. simpl.
  destruct (N.eqb_spec (epoch en) (leader_epoch ld)) as [He|]; [|done]. simpl.
  destruct (fail_if _ NoQuorum); [|done].
  assert (o < o')%N as Hoo.
  { destruct (decide (o < o')%N) as [|Hge]; [done|]. destruct (i_hist _ _ _ Hinv _ _ HL _ _ Hen) as (_ & _ & _ & Hmono).
    specialize (Hmono (N.to_nat o) c ltac:(lia) Hc). lia. }
  rewrite (proj2 (N.ltb_lt 0 o')) by lia. rewrite (Hnone (o' - 1)%N) by lia. done.
Qed.

Lemma stalled_exec m op : stalled m → stalled (exec op m).2 ∧ committed_values (exec op m).2 = committed_values m.
Proof.
  intros Hs. pose proof Hs as ((L0 & E0 & Hinv0) & (L & E & lE & c & Hinv & HL & Hc & Hlt) & Hnone).
  destruct (inv_exec _ _ _ op Hinv0) as (L0' & E0' & Hinv0' & _).
  assert (∀ L E lE c, inv (ghost (exec op m).2) L E → L !! E = Some lE → lE !! N.to_nat o = Some c → (epoch c < E)%N →
    committed_values (exec op m).2 = committed_values m →
    stalled (exec op m).2 ∧ committed_values (exec op m).2 = committed_values m) as Hfin.
  { intros L1 E1 lE1 c1 Hi HL1 Hc1 Hlt1 Hcv. split; [|done]. split; [eauto|]. split; [by exists L1, E1, lE1, c1|]. by rewrite Hcv. }
  destruct op as [cand e vs|v|f en|o'|n k|]; simpl in *.
  - destruct (elect cand e vs m) as [res m'] eqn:Hx. simpl in *.
    destruct (elect_cases _ _ _ _ _ _ Hx) as [[-> _]|(source & Hmay & Hsrc & -> & _)]; [done|].
    assert (is_Some (committed_values (ghost m) !! o)) as [v Hv] by (simpl; rewrite lookup_insert_eq; eauto).
    destruct (i_comm _ _ _ Hinv _ _ Hv) as (c' & _ & Hb).
    destruct (backed_current _ _ _ _ _ Hinv Hb) as (lE' & HLE & Hc'). assert (c' = c) as -> by congruence.
    apply (Hfin (<[e := source]> L) e source c); [|by rewrite lookup_insert_eq| | |done].
    + exact (inv_elect (ghost m) L E cand e vs source Hinv Hmay Hsrc).
    + apply (source_complete (ghost m) L E vs); [done|apply Hmay|done|eauto|done].
    + pose proof (election_epoch_fresh (ghost m) L E cand e vs Hinv Hmay). lia.
  - revert Hfin Hinv0'. unfold mbind, stm_bind. destruct (append v m) as [[en|err] m'] eqn:Hx; simpl; intros Hfin Hinv0'.
    all: destruct (append_cases _ _ _ _ _ _ Hinv0 Hx) as [->|(ld & r & Hl & Hr & ->)]; [done|].
    all: destruct (i_leader _ _ _ Hinv0 _ Hl) as (HE0 & _); destruct (i_leader _ _ _ Hinv ld Hl) as (HE & r' & Hr' & HLr & _).
    all: simpl in Hr'; simplify_eq.
    all: eapply Hfin; [|apply lookup_insert_eq|by apply lookup_app_l_Some|done|done].
    all: eapply (inv_append (ghost m)); [done|done|done|done|simpl; congruence].
  - destruct (replicate f en (ghost m)) as [res m'] eqn:Hx. pose proof (ghost_replicate f en m) as Hg. rewrite Hx in Hg.
    simpl in Hg. subst m'. destruct (inv_replicate _ _ _ _ _ _ _ Hinv Hx) as (Hinv' & _).
    destruct (replicate f en m) as [res' m'] eqn:Hx'. simpl in *.
    destruct (inv_replicate _ _ _ _ _ _ _ Hinv0 Hx') as (_ & Hcv & _). by apply (Hfin L E lE c).
  - by rewrite stalled_commit.
  - destruct (propagate_commit n k m) as [res m'] eqn:Hx. simpl in *.
    destruct (inv_propagate _ _ _ _ _ _ _ Hinv0 Hx) as (_ & Hcv & _). apply (Hfin L E lE c); [|done..].
    revert Hx. unfold propagate_commit, mbind, stm_bind, reads, lift, modify.
    destruct (committed_values m !! k) as [v|] eqn:Hv; [|by intros [= _ <-]]. simpl.
    destruct (replicas m !! n) as [r|] eqn:Hr; [|by intros [= _ <-]]. simpl.
    destruct (fail_if _ _); intros [= _ <-]; [|done]. destruct (i_log _ _ _ Hinv n r Hr) as [Hg Hpr].
    eapply (inv_replace (ghost m)); [done|done|apply replaces_same; [done|simpl; lia|done]| |done]. simpl. intros k' [= <-].
    destruct (decide (o = k)) as [<-|]; [rewrite lookup_insert_eq|rewrite lookup_insert_ne by done]; eauto.
  - apply (Hfin L E lE c); [|done..]. by apply (inv_step_down (ghost m)).
Qed.

End stall.

(** If the leader changes while the next value to commit is on a majority but
    not committed, the partition never commits again, whatever is tried and
    whoever leads: the inherited entry is refused as an old epoch's and every
    later one because of the gap. *)
Theorem failover_before_commit_stalls nodes m ld r o en cand e vs m1 ops :
  reachable nodes m → leader m = Some ld → replicas m !! leader_node ld = Some r → entry r o = Some en →
  epoch en = leader_epoch ld → quorum m ≤ length (filter (λ nr, entry nr.2 o = Some en) (map_iter (replicas m))) →
  committed_values m !! o = None → (0 < o → is_Some (committed_values m !! (o - 1)))%N →
  elect cand e vs m = (Ok (), m1) →
  committed_values (run ops m1) = committed_values m.
Proof.
  intros (L & E & Hinv)%reachable_inv Hl Hr Hen He Hq Hnone Hgap Hx.
  destruct (i_leader _ _ _ Hinv _ Hl) as (HE & r' & Hr' & HL & _). simplify_eq.
  assert (backed m L o en) as Hb by by eapply current_backed.
  assert (inv (ghost o (digest en) m) L (leader_epoch ld)) as Hg.
  { apply inv_values; [done|done| |done]. intros v Hv. congruence. }
  destruct (elect_cases _ _ _ _ _ _ Hx) as [[_ ?]|(source & Hmay & Hsrc & -> & _)]; [done|].
  assert (stalled o (digest en) (elected m cand e vs source)) as Hs.
  { split; [exists (<[e := source]> L), e; by eapply inv_elect|]. split.
    - exists (<[e := source]> L), e, source, en. split_and!; [exact (inv_elect (ghost o (digest en) m) L _ cand e vs source Hg Hmay Hsrc)| | |].
      + apply lookup_insert_eq.
      + apply (source_complete (ghost o (digest en) m) L (leader_epoch ld) vs); [done|apply Hmay|done| |done].
        simpl. rewrite lookup_insert_eq. eauto.
      + pose proof (election_epoch_fresh _ _ _ _ _ _ Hinv Hmay). lia.
    - simpl. intros o' Ho'. destruct (i_dom _ _ _ Hinv) as [K HK]. apply eq_None_not_Some. intros Hs%HK.
      assert (is_Some (committed_values m !! o)) as [? ?] by (apply HK; lia). congruence. }
  change (committed_values m) with (committed_values (elected m cand e vs source)).
  clear -Hs. revert Hs. generalize (elected m cand e vs source). induction ops as [|op ops IH]; intros m' Hs; [done|].
  destruct (stalled_exec _ _ _ op Hs) as [Hs' <-]. by apply IH.
Qed.
