(* ===== verification/KafkaClients.v ===== *)
(** * Producers, groups and transactions (crates/pepper-kafka-model)

    What the client-facing machines promise on every trace of their operations:
    idempotent production, fenced group generations, and transactions that become
    visible only when every partition carries its commit marker. *)
From stdpp Require Import base gmap sets list strings sorting.
From S2P Require Import Prelude KafkaModel.

(** ** Producers *)

Module ProducerFacts.
Import Producer.

(** A batch as the client sends it. *)
Record request := mkRequest { r_epoch : N; r_first : N; r_count : N; r_digest : N; r_next_offset : N }.

Definition send (q : request) : stm ProducerState ModelError ProduceOutcome :=
  produce (r_epoch q) (r_first q) (r_count q) (r_digest q) (r_next_offset q).

Definition run (qs : list request) (st : ProducerState) : ProducerState := foldl (λ st q, (send q st).2) st qs.

Inductive reachable : ProducerState → Prop :=
| reach_new e : reachable (new e)
| reach_send q st : reachable st → reachable (send q st).2
| reach_bump e st : reachable st → reachable (bump_epoch e st).2.

(** What a call of [produce] does to the state. *)
Lemma produce_cases e s n d o st res st' :
  produce e s n d o st = (res, st') →
  (st' = st ∧ ∀ b, res ≠ Ok (Appended b)) ∨
  ∃ b, e = epoch st ∧ (0 < n)%N ∧ accepted st !! s = None ∧ s = next_sequence st
    ∧ b = mkBatch (s + (n - 1)) o (o + (n - 1)) d ∧ (s + (n - 1) ≤ u32_max)%N
    ∧ ((res = Ok (Appended b) ∧ (s + n ≤ u32_max)%N ∧ st' = mkProducer e (s + n) (<[s := b]> (accepted st)))
       ∨ (res = Err SequenceOverflow ∧ (s + (n - 1) = u32_max)%N ∧ st' = mkProducer e s (<[s := b]> (accepted st)))).
Proof.
  unfold produce, mbind, stm_bind, reads, lift, modify.
  destruct (N.eqb_spec e (epoch st)) as [He|]; simpl; [|intros [= <- <-]; by left].
  destruct (N.eqb_spec n 0) as [|Hn]; simpl; [intros [= <- <-]; by left|].
  destruct (accepted st !! s) as [b|] eqn:Hacc.
  { intros H. left. destruct (digest b =? d)%N; [|by injection H as <- <-].
    destruct (checked_add u32_max s (n - 1)) as [last|]; simpl in H; [|by injection H as <- <-].
    destruct (last_sequence b =? last)%N; by injection H as <- <-. }
  destruct (N.eqb_spec s (next_sequence st)) as [Hs|]; simpl; [|intros [= <- <-]; by left].
  destruct (checked_add u32_max s (n - 1)) as [last|] eqn:Hlast; simpl; [|intros [= <- <-]; by left].
  apply checked_add_Some in Hlast as [-> Hle].
  destruct (checked_add u64_max o (n - 1)) as [lo|] eqn:Hlo; simpl; [|intros [= <- <-]; by left].
  apply checked_add_Some in Hlo as [-> _]. intros H. right. eexists. split_and!; [done|lia|done|done|done|done|].
  destruct (checked_add u32_max (s + (n - 1)) 1) as [nx|] eqn:Hnx; simpl in H; injection H as <- <-.
  - apply checked_add_Some in Hnx as [-> Hb]. left. split_and!; [done|lia|]. subst e.
    by replace (s + (n - 1) + 1)%N with (s + n)%N by lia.
  - apply checked_add_None in Hnx. right. split_and!; [done|lia|]. by subst.
Qed.

Lemma send_mono q st : accepted st ⊆ accepted (send q st).2 ∧ epoch (send q st).2 = epoch st.
Proof.
  unfold send. destruct (produce _ _ _ _ _ st) as [res st'] eqn:Hp. simpl.
  apply produce_cases in Hp as [[-> _]|(b & He & _ & Hnone & _ & _ & _ & [(_ & _ & ->)|(_ & _ & ->)])]; [done|..];
    simpl; (split; [by apply insert_subseteq|done]).
Qed.

Lemma run_mono qs st : accepted st ⊆ accepted (run qs st) ∧ epoch (run qs st) = epoch st.
Proof.
  revert st. induction qs as [|q qs IH]; intros st; [done|]. simpl.
  destruct (send_mono q st) as [Ha He], (IH (send q st).2) as [Ha' He']. split; [by etransitivity|congruence].
Qed.

(** Production is idempotent: once a batch is appended, sending it again, after
    any number of other batches of any client of the same epoch and with whatever
    offset the log has reached, answers with the stored offsets and appends
    nothing. *)
Theorem produce_idempotent e s n d o st b st1 qs o' :
  produce e s n d o st = (Ok (Appended b), st1) →
  produce e s n d o' (run qs st1) = (Ok (Duplicate b), run qs st1).
Proof.
  intros Hp. apply produce_cases in Hp as [[_ Hne]|(b' & He & Hn & _ & _ & Hb & Hle & [(Heq & _ & ->)|(? & _)])];
    [by destruct (Hne b)| |congruence].
  injection Heq as <-. set (st1 := mkProducer e (s + n) (<[s := b]> (accepted st))).
  destruct (run_mono qs st1) as [Hsub Hep]. simpl in Hep.
  assert (accepted (run qs st1) !! s = Some b) as Hacc by exact (lookup_weaken _ _ _ _ (lookup_insert_eq (accepted st) s b) Hsub).
  unfold produce, mbind, stm_bind, reads, lift. rewrite Hep, N.eqb_refl. simpl.
  rewrite (proj2 (N.eqb_neq n 0)) by lia. simpl. rewrite Hacc, Hb. simpl. rewrite N.eqb_refl.
  rewrite (proj2 (checked_add_Some u32_max s (n - 1) (s + (n - 1)))) by done. simpl. by rewrite N.eqb_refl.
Qed.

(** The accepted batches tile the sequence numbers below [next_sequence].  A batch
    that ends at the last number of all is recorded although its call failed. *)
Record tiled (st : ProducerState) : Prop := {
  t_batch f b : accepted st !! f = Some b →
    (f ≤ last_sequence b)%N ∧ (last_offset b - base_offset b = last_sequence b - f)%N
    ∧ ((last_sequence b < next_sequence st)%N ∨ (f = next_sequence st ∧ last_sequence b = u32_max));
  t_cover s : (s < next_sequence st)%N → ∃ f b, accepted st !! f = Some b ∧ (f ≤ s ≤ last_sequence b)%N;
  t_disjoint f b f' b' : accepted st !! f = Some b → accepted st !! f' = Some b' → (f < f')%N → (last_sequence b < f')%N
}.

Lemma tiled_new e : tiled (mkProducer e 0 ∅).
Proof. split; simpl; [by intros f b|lia|by intros f b]. Qed.

Lemma tiled_insert e st b s next :
  tiled st → s = next_sequence st → accepted st !! s = None → (s ≤ last_sequence b ≤ u32_max)%N →
  (last_offset b - base_offset b = last_sequence b - s)%N →
  (next = last_sequence b + 1 ∨ (next = s ∧ last_sequence b = u32_max))%N →
  tiled (mkProducer e next (<[s := b]> (accepted st))).
Proof.
  intros Ht -> Hnone Hl Hlen Hnext.
  assert (∀ f b', accepted st !! f = Some b' → (f < next_sequence st ∧ last_sequence b' < next_sequence st)%N) as Hold.
  { intros f b' Hf. destruct (t_batch _ Ht _ _ Hf) as (? & _ & [?|[-> _]]); [lia|congruence]. }
  split; simpl.
  - intros f b' [[<- <-]|[_ Hf]]%lookup_insert_Some; [split_and!; [lia|done|destruct Hnext as [->|[-> ?]]; [left; lia|by right]]|].
    destruct (t_batch _ Ht _ _ Hf) as (? & ? & _). apply Hold in Hf. split_and!; [done|done|]. left. lia.
  - intros s Hs. destruct (decide (s < next_sequence st)%N) as [Hlt|Hge].
    + destruct (t_cover _ Ht _ Hlt) as (f & b' & Hf & ?). exists f, b'. split; [|done].
      rewrite lookup_insert_ne; [done|]. apply Hold in Hf. lia.
    + exists (next_sequence st), b. rewrite lookup_insert_eq. split; [done|]. lia.
  - intros f b1 f' b2 [[<- <-]|[_ Hf]]%lookup_insert_Some [[<- <-]|[_ Hf']]%lookup_insert_Some Hlt; [lia| | |].
    + apply Hold in Hf'. lia.
    + apply Hold in Hf. lia.
    + by apply (t_disjoint _ Ht f b1 f' b2).
Qed.

(** In every reachable state the accepted batches cover the sequence numbers
    below the next one without gap or overlap, each spanning as many offsets as
    sequence numbers. *)
Theorem accepted_tile st : reachable st → tiled st.
Proof.
  induction 1 as [e|q st _ Ht|e st _ Ht]; [apply tiled_new| |].
  - unfold send. destruct (produce _ _ _ _ _ st) as [res st'] eqn:Hp. simpl.
    apply produce_cases in Hp as [[-> _]|(b & He & Hn & Hnone & Hs & -> & Hle & Hcase)]; [done|].
    destruct Hcase as [(_ & ? & ->)|(_ & ? & ->)]; apply tiled_insert; simpl; try done; lia.
  - unfold bump_epoch, mbind, stm_bind, reads, modify. destruct (fail_if _ _); [apply tiled_new|done].
Qed.

End ProducerFacts.

(** ** Groups *)

Module GroupFacts.
Import Group.

Inductive op :=
| Join (member : string)
| Leave (member : string)
| Sync (who : string) (gen : N) (a : gmap N string).

Definition exec (o : op) : stm GroupModel ModelError unit :=
  match o with
  | Join m => _ ← join m; mret ()
  | Leave m => _ ← leave m; mret ()
  | Sync who gen a => sync who gen a
  end.

Definition run (ops : list op) (g : GroupModel) : GroupModel := foldl (λ g o, (exec o g).2) g ops.

Lemma first_None x : first x = None ↔ x = ∅.
Proof.
  unfold first. split.
  - intros H%head_None. apply leibniz_equiv, elements_empty_iff, Permutation_nil_r. by rewrite <-H, merge_sort_Permutation.
  - intros ->. by rewrite elements_empty.
Qed.

Lemma strangers_false g a : strangers g a = false ↔ ∀ p m, a !! p = Some m → m ∈ members g.
Proof.
  unfold strangers. rewrite <-not_true_iff_false, existsb_exists. split.
  - intros Hn p m Hp. destruct (decide (m ∈ members g)) as [|Hm]; [done|]. destruct Hn. exists (p, m).
    split; [apply list_elem_of_In; unfold map_iter; rewrite merge_sort_Permutation; by apply elem_of_map_to_list|].
    by apply negb_true_iff, bool_decide_eq_false.
  - intros Hall ([p m] & Hin & Hm). apply list_elem_of_In in Hin. unfold map_iter in Hin.
    rewrite merge_sort_Permutation in Hin. apply elem_of_map_to_list in Hin.
    apply negb_true_iff, bool_decide_eq_false in Hm. destruct Hm. by eapply Hall.
Qed.

(** The states of a group below its last generation. *)
Record sound (g : GroupModel) : Prop := {
  s_leader : leader g = first (members g);
  s_members : "" ∉ members g;
  s_assigned p m : assignments g !! p = Some m → m ∈ members g;
  s_pending : synchronized g = false → assignments g = ∅;
  s_synced : synchronized g = true → members g ≠ ∅
}.

Lemma sound_rebalanced n ms : "" ∉ ms → sound (mkGroup n (first ms) ms ∅ false).
Proof. intros Hms. by split. Qed.

Lemma exec_generation o g : (generation g ≤ generation (exec o g).2 ≤ N.max (generation g) u32_max)%N.
Proof.
  destruct o as [m|m|who gen a]; simpl; unfold join, leave, sync, rebalance, mbind, stm_bind, reads, lift, modify.
  - destruct (fail_if _ _); simpl; [|lia].
    destruct (checked_add u32_max (generation g) 1) as [n|] eqn:Hn; simpl; [apply checked_add_Some in Hn|]; lia.
  - destruct (fail_if _ _); simpl; [|lia].
    destruct (checked_add u32_max (generation g) 1) as [n|] eqn:Hn; simpl; [apply checked_add_Some in Hn|]; lia.
  - do 3 (destruct (fail_if _ _); simpl; [|lia]). lia.
Qed.

Lemma run_generation ops g : (generation g ≤ generation (run ops g))%N.
Proof.
  revert g. induction ops as [|o ops IH]; intros g; simpl; [lia|].
  pose proof (exec_generation o g). specialize (IH (exec o g).2). lia.
Qed.

Lemma group_sound_exec o g : (generation (exec o g).2 < u32_max)%N → sound g → sound (exec o g).2.
Proof.
  intros Hlt Hg. assert (generation g < u32_max)%N as Hlt0 by (pose proof (exec_generation o g); lia).
  assert (checked_add u32_max (generation g) 1 = Some (generation g + 1)%N) as Hnx by (apply checked_add_Some; lia).
  clear Hlt. destruct o as [m|m|who gen a]; simpl; unfold join, leave, sync, rebalance, mbind, stm_bind, reads, lift, modify.
  - destruct (bool_decide (m = "")) eqn:Hm; simpl; [done|]. apply bool_decide_eq_false in Hm. rewrite Hnx. simpl.
    apply sound_rebalanced. pose proof (s_members _ Hg). set_solver.
  - destruct (fail_if _ _); simpl; [|done]. rewrite Hnx. simpl. apply sound_rebalanced. pose proof (s_members _ Hg). set_solver.
  - destruct (fail_if _ _); simpl; [|done]. destruct (bool_decide (leader g = Some who)) eqn:Hl; simpl; [|done].
    apply bool_decide_eq_true in Hl. destruct (strangers g a) eqn:Ha; simpl; [done|]. rewrite strangers_false in Ha.
    destruct Hg. split; simpl; try done. intros _ Hms. rewrite s_leader0, (proj2 (first_None _) Hms) in Hl. done.
Qed.

Lemma group_sound_run ops g : (generation (run ops g) < u32_max)%N → sound g → sound (run ops g).
Proof.
  revert g. induction ops as [|o ops IH]; intros g Hlt Hg; [done|]. simpl in *. apply IH; [done|]. apply group_sound_exec; [|done].
  pose proof (run_generation ops (exec o g).2). lia.
Qed.

(** Until the generation counter is exhausted every trace leaves the group
    consistent: its self-check passes, the least member leads, partitions are
    assigned to members only, and only after the leader's synchronization. *)
Theorem group_consistent ops :
  (generation (run ops new) < u32_max)%N →
  check_invariants (run ops new) = Ok () ∧ sound (run ops new).
Proof.
  intros Hlt. assert (sound (run ops new)) as Hs by (apply group_sound_run; [done|]; by split).
  split; [|done]. unfold check_invariants. destruct Hs.
  rewrite (proj2 (strangers_false _ _)) by done. destruct (synchronized (run ops new)); [|done].
  rewrite bool_decide_false; [done|]. rewrite s_leader0, first_None. auto.
Qed.

(** Generations fence: after a member joined or left, an assignment computed
    for an earlier generation is refused and changes nothing, now and after any
    further operations. *)
Theorem sync_fenced g m n g1 ops who old a :
  join m g = (Ok n, g1) ∨ leave m g = (Ok n, g1) → (old ≤ generation g)%N →
  sync who old a (run ops g1) = (Err IllegalGeneration, run ops g1).
Proof.
  intros Hj Hold. assert (generation g1 = generation g + 1)%N as Hg1.
  { destruct Hj as [Hj|Hj]; revert Hj; unfold join, leave, rebalance, mbind, stm_bind, reads, lift, modify;
      (destruct (fail_if _ _); [|done]); simpl;
      destruct (checked_add u32_max (generation g) 1) as [n'|] eqn:Hn; simpl; intros [= <- <-];
      by apply checked_add_Some in Hn as [-> _]. }
  pose proof (run_generation ops g1). unfold sync, mbind, stm_bind, reads.
  by rewrite (proj2 (N.eqb_neq old (generation (run ops g1)))) by lia.
Qed.

Lemma rejoin n : (N.of_nat n ≤ u32_max)%N → n ≠ 0 →
  run (replicate n (Join "a")) new = mkGroup (N.of_nat n) (Some "a") {["a"]} ∅ false.
Proof.
  induction n as [|n IH]; intros Hn Hnz; [done|].
  replace (S n) with (n + 1)%nat by lia. rewrite replicate_add. unfold run. rewrite foldl_app. fold (run (replicate n (Join "a")) new).
  simpl. destruct n as [|n']; [by vm_compute|]. rewrite IH by lia.
  unfold join, rebalance, mbind, stm_bind, reads, lift, modify. simpl.
  rewrite (proj2 (checked_add_Some u32_max (N.of_nat (S n')) 1 _)) by (split; [done|lia]). simpl.
  replace ({["a"]} ∪ {["a"]} : gset string) with ({["a"]} : gset string) by set_solver.
  f_equal. lia.
Qed.

(** In the last generation a membership change fails after it has changed the
    members: the departed member keeps its partitions and the self-check fails. *)
Theorem last_generation_inconsistent :
  ∃ ops, check_invariants (run ops new) = Err UnknownMember ∧ generation (run ops new) = u32_max.
Proof.
  assert (∃ k, N.of_nat k = u32_max) as [k Hk] by (eexists; apply N2Nat.id).
  exists (replicate k (Join "a") ++ [Sync "a" u32_max {[0%N := "a"]}; Leave "a"]).
  unfold run. rewrite foldl_app. fold (run (replicate k (Join "a")) new).
  rewrite rejoin; [|by rewrite Hk|by intros ->]. rewrite Hk. by vm_compute.
Qed.

End GroupFacts.

(** ** Transactions *)

Module TransactionFacts.
Import Transaction.

Inductive op :=
| Begin (e : N)
| Append (e partition first last : N)
| Prepare (e : N) (commit : bool)
| Marker (e partition : N) (commit : bool)
| Complete (e : N).

Definition exec (o : op) : stm TransactionModel ModelError unit :=
  match o with
  | Begin e => begin e
  | Append e p f l => append e p f l
  | Prepare e c => prepare e c
  | Marker e p c => record_marker e p c
  | Complete e => complete e
  end.

Definition run (ops : list op) (t : TransactionModel) : TransactionModel := foldl (λ t o, (exec o t).2) t ops.

(** The decision a phase has taken, if any. *)
Definition decision (p : TransactionPhase) : option bool :=
  match p with
  | PrepareCommit | CompleteCommit => Some true
  | PrepareAbort | CompleteAbort => Some false
  | _ => None
  end.

Definition completed (p : TransactionPhase) : bool :=
  match p with CompleteCommit | CompleteAbort => true | _ => false end.

Record sound (t : TransactionModel) : Prop := {
  m_known : dom (markers t) ⊆ partitions t;
  m_decided p c : markers t !! p = Some c → decision (phase t) = Some c;
  m_complete : completed (phase t) = true → dom (markers t) = partitions t
}.

Ltac open_op :=
  unfold begin, append, prepare, record_marker, complete, require_epoch, mbind, stm_bind, reads, lift, modify.

Lemma transaction_sound_exec o t : sound t → sound (exec o t).2.
Proof.
  intros Ht. destruct o as [e|e p f l|e c|e p c|e]; simpl; open_op; (destruct (e =? producer_epoch t)%N; [|done]).
  - destruct (phase t); simpl; try done; by split.
  - destruct (fail_if _ _) eqn:Hf; simpl; [|done]. apply fail_if_Ok, orb_false_iff in Hf as [Hf _].
    apply negb_false_iff, bool_decide_eq_true in Hf. destruct Ht. split; simpl; [set_solver|done|by rewrite Hf].
  - destruct (fail_if _ _) eqn:Hf; simpl; [|done]. apply fail_if_Ok, negb_false_iff, bool_decide_eq_true in Hf.
    destruct Ht. split; simpl; [done| |by destruct c]. intros p b Hp. apply m_decided0 in Hp. by rewrite Hf in Hp.
  - destruct (match phase t with PrepareCommit => Ok true | PrepareAbort => Ok false | _ => Err InvalidTransactionTransition end)
      as [want|] eqn:Hw; simpl; [|done].
    assert (decision (phase t) = Some want ∧ completed (phase t) = false) as [Hdec Hcom] by (by destruct (phase t); simplify_eq/=).
    destruct (negb (eqb c want) || negb (bool_decide (p ∈ partitions t))) eqn:Hc; simpl; [done|].
    apply orb_false_iff in Hc as [->%negb_false_iff%eqb_prop Hin%negb_false_iff%bool_decide_eq_true].
    destruct Ht. split; simpl; [rewrite dom_insert; set_solver| |by rewrite Hcom].
    intros p' c' [[_ <-]|[_ Hp]]%lookup_insert_Some; [done|by eapply m_decided0].
  - destruct (size (markers t) =? size (partitions t)) eqn:Hsz; simpl; [|done]. apply Nat.eqb_eq in Hsz.
    assert (dom (markers t) = partitions t) as Hdom.
    { apply leibniz_equiv, set_subseteq_size_equiv; [apply Ht|]. rewrite size_dom. lia. }
    pose proof Ht as [Hk Hd _]. destruct (phase t) eqn:Hph; simpl; try done; by split.
Qed.

Lemma transaction_sound_run ops t : sound t → sound (run ops t).
Proof. revert t. induction ops as [|o ops IH]; intros t Ht; [done|]. by apply IH, transaction_sound_exec. Qed.

(** A transaction is visible to read-committed consumers only once every
    partition it wrote to carries its commit marker, on every trace of any
    callers. *)
Theorem visible_means_committed id e ops p :
  read_committed_visible (run ops (new id e)) = true → p ∈ partitions (run ops (new id e)) →
  markers (run ops (new id e)) !! p = Some true.
Proof.
  intros Hv%bool_decide_eq_true Hp. assert (sound (run ops (new id e))) as Ht by (apply transaction_sound_run; by split).
  rewrite <-(m_complete _ Ht) in Hp by by rewrite Hv. apply elem_of_dom in Hp as [c Hc].
  pose proof (m_decided _ Ht _ _ Hc) as Hd. rewrite Hv in Hd. simpl in Hd. congruence.
Qed.

(** The decision is final: after a successful [prepare] no sequence of
    operations other than a new [begin] reverses it, in phase or in markers. *)
Theorem decision_final e c t t1 ops :
  prepare e c t = (Ok (), t1) → (∀ e', Begin e' ∉ ops) →
  decision (phase (run ops t1)) = Some c.
Proof.
  intros Hp Hops. assert (decision (phase t1) = Some c) as Hd.
  { revert Hp. open_op. destruct (e =? producer_epoch t)%N; [|done]. destruct (fail_if _ _); intros [= <-]. by destruct c. }
  clear Hp. revert t1 Hd. induction ops as [|o ops IH]; intros t1 Hd; [done|]. simpl.
  apply IH; [intros e' He; apply (Hops e'); by right|].
  destruct o as [e0|e0 p f l|e0 c0|e0 p c0|e0]; simpl; open_op;
    [destruct (Hops e0); left|destruct (e0 =? producer_epoch t1)%N; [|done]..].
  - by destruct (fail_if _ _).
  - destruct (fail_if _ _) eqn:Hf; simpl; [|done]. apply fail_if_Ok, negb_false_iff, bool_decide_eq_true in Hf.
    by rewrite Hf in Hd.
  - destruct (match phase t1 with PrepareCommit => _ | PrepareAbort => _ | _ => _ end); [|done]. by destruct (fail_if _ _).
  - destruct (fail_if _ _); [|done]. destruct (phase t1) eqn:Hph; simpl; rewrite ?Hph; done.
Qed.

(** The batches of the open transaction. *)
Definition track (o : op) (tb : TransactionModel * list (N * N)) : TransactionModel * list (N * N) :=
  let '(res, t') := exec o tb.1 in
  (t', match o, res with
       | Begin _, Ok _ => []
       | Append _ _ f l, Ok _ => (f, l) :: tb.2
       | _, _ => tb.2
       end).

Definition tracked (ops : list op) (t : TransactionModel) : TransactionModel * list (N * N) :=
  foldl (λ tb o, track o tb) (t, []) ops.

(** [first_offset] and [last_offset] bound the batches tightly. *)
Definition bounds (t : TransactionModel) (bs : list (N * N)) : Prop :=
  match first_offset t, last_offset t with
  | Some f, Some l => (∃ b, b ∈ bs ∧ b.1 = f) ∧ (∃ b, b ∈ bs ∧ b.2 = l) ∧ ∀ b, b ∈ bs → (f ≤ b.1 ∧ b.2 ≤ l)%N
  | None, None => bs = []
  | _, _ => False
  end.

Lemma bounds_append t bs f l :
  bounds t bs →
  bounds (mkTransaction (producer_id t) (producer_epoch t) (phase t)
      (Some (from_option (λ c, N.min c f) f (first_offset t)))
      (Some (from_option (λ c, N.max c l) l (last_offset t))) (partitions t) (markers t)) ((f, l) :: bs).
Proof.
  unfold bounds. simpl. destruct (first_offset t) as [f0|], (last_offset t) as [l0|]; simpl; [|done|done|].
  - intros ((bf & Hbf & <-) & (bl & Hbl & <-) & Hall). split_and!.
    + destruct (decide (bf.1 ≤ f)%N); [exists bf|exists (f, l)]; (split; [set_solver|simpl; lia]).
    + destruct (decide (l ≤ bl.2)%N); [exists bl|exists (f, l)]; (split; [set_solver|simpl; lia]).
    + intros b [->|Hb]%elem_of_cons; simpl; [lia|]. specialize (Hall b Hb). lia.
  - intros ->. split_and!; [exists (f, l); set_solver..|]. intros b ->%list_elem_of_singleton. simpl. lia.
Qed.

Lemma bounds_track o tb : bounds tb.1 tb.2 → bounds (track o tb).1 (track o tb).2.
Proof.
  destruct tb as [t bs]. unfold track. simpl. intros Hb.
  destruct o as [e|e p f l|e c|e p c|e]; simpl; open_op; (destruct (e =? producer_epoch t)%N; [|done]).
  - by destruct (phase t).
  - destruct (fail_if _ _); simpl; [|done]. exact (bounds_append t bs f l Hb).
  - by destruct (fail_if _ _).
  - destruct (match phase t with PrepareCommit => _ | PrepareAbort => _ | _ => _ end); [|done]. by destruct (fail_if _ _).
  - destruct (fail_if _ _); [|done]. by destruct (phase t).
Qed.

Lemma bounds_tracked ops tb :
  bounds tb.1 tb.2 → bounds (foldl (λ tb o, track o tb) tb ops).1 (foldl (λ tb o, track o tb) tb ops).2.
Proof. revert tb. induction ops as [|o ops IH]; intros tb Hb; [done|]. by apply IH, bounds_track. Qed.

(** An open transaction holds the last stable offset at the first offset it
    wrote: exactly the least offset of the batches appended since it began. *)
Theorem last_stable_offset_held id e ops t bs :
  tracked ops (new id e) = (t, bs) → phase t ∈ [Ongoing; PrepareCommit; PrepareAbort] →
  match constrains_last_stable_offset t with
  | Some c => (∃ b, b ∈ bs ∧ b.1 = c) ∧ ∀ b, b ∈ bs → (c ≤ b.1)%N
  | None => bs = []
  end.
Proof.
  intros Htr Hopen. pose proof (bounds_tracked ops (new id e, []) eq_refl) as Hb. unfold tracked in Htr. rewrite Htr in Hb. simpl in Hb.
  assert (constrains_last_stable_offset t = first_offset t) as ->.
  { unfold constrains_last_stable_offset. by destruct (phase t); set_solver. }
  unfold bounds in Hb. destruct (first_offset t), (last_offset t); try done. naive_solver.
Qed.

End TransactionFacts.
