(* ===== verification/KafkaExamples.v ===== *)
(** * Concrete traces of the Kafka models

    Each example runs the models on an input where the hypotheses of a theorem
    hold; the last section runs the traces on which the models misbehave. *)
From stdpp Require Import base gmap sets list strings sorting.
From S2P Require Import Prelude KafkaModel KafkaPartition KafkaClients.

(** ** A partition of three replicas *)

Module PartitionExamples.
Import Partition.

Definition start : PartitionModel :=
  mkPartition (list_to_map ((λ node, (node, mkReplica 0 [] None)) <$> [1; 2; 3]%N)) None ∅.

Lemma start_new : new [1; 2; 3]%N = Ok start.
Proof. reflexivity. Qed.

Lemma start_reachable ops : reachable [1; 2; 3]%N (run ops start).
Proof.
  assert (∀ m, reachable [1; 2; 3]%N m → reachable [1; 2; 3]%N (run ops m)) as Hrun.
  { induction ops as [|o ops IH]; intros m Hm; [done|]. simpl. apply IH. by constructor. }
  apply Hrun, reach_new, start_new.
Qed.

(** Propagations all accepted, decided by running the trace. *)
Fixpoint accepts (ops : list op) (m : PartitionModel) : bool :=
  match ops with
  | [] => true
  | o :: ops =>
      (match o with Propagate _ _ => is_Ok (exec o m).1 | _ => true end) && accepts ops (exec o m).2
  end.

Lemma start_orderly ops : accepts ops start = true → orderly [1; 2; 3]%N (run ops start).
Proof.
  assert (∀ m, orderly [1; 2; 3]%N m → accepts ops m = true → orderly [1; 2; 3]%N (run ops m)) as Hrun.
  { induction ops as [|o ops IH]; intros m Hm Hacc; [done|]. simpl in *. apply andb_true_iff in Hacc as [Ho Hacc].
    apply IH; [|done]. constructor; [done|]. intros n k ->. exact Ho. }
  apply Hrun, orderly_new, start_new.
Qed.

(** Node 1 leads epoch 1 and replicates digest 7 to node 2, *)
Definition before_commit : list op :=
  [Elect 1 1 {[1; 2]}%N; Append 7; Replicate 2 (mkLogEntry 0 1 7)].
(** and commits it. *)
Definition after_commit : list op := before_commit ++ [Commit 0; Propagate 2 0].

Lemma committed_immutable_witness :
  committed_values (run after_commit start) !! 0%N = Some 7%N ∧
  committed_values (run after_commit start) ⊆ committed_values (run [StepDown; Elect 3 2 {[2; 3]}%N; Append 8] (run after_commit start)).
Proof.
  split; [vm_compute; reflexivity|].
  apply (committed_immutable [1; 2; 3]%N (run after_commit start)). apply start_reachable.
Defined.

Lemma leader_complete_witness :
  ∃ r, replicas (run after_commit start) !! 1%N = Some r
       ∧ ∀ o d, committed_values (run after_commit start) !! o = Some d → digest <$> entry r o = Some d.
Proof.
  apply (leader_complete [1; 2; 3]%N (run after_commit start) (mkLeader 1 1)).
  - apply start_reachable.
  - vm_compute. reflexivity.
Defined.

Lemma committed_durable_witness :
  ∃ c Q, digest c = 7%N ∧ offset c = 0%N ∧ is_quorum (run after_commit start) Q
         ∧ ∀ n r, n ∈ Q → replicas (run after_commit start) !! n = Some r → entry r 0%N = Some c.
Proof.
  apply (committed_durable [1; 2; 3]%N (run after_commit start) 0%N 7%N).
  - apply start_reachable.
  - vm_compute. reflexivity.
Defined.

Lemma replicate_agrees_witness :
  ∃ ld lr fr, leader (run before_commit start) = Some ld
    ∧ replicas (run before_commit start) !! leader_node ld = Some lr
    ∧ replicas (run before_commit start) !! 2%N = Some fr
    ∧ entry fr 0%N = Some (mkLogEntry 0 1 7) ∧ take 1 (log fr) = take 1 (log lr).
Proof.
  apply (replicate_agrees [1; 2; 3]%N (run [Elect 1 1 {[1; 2]}%N; Append 7] start) 2%N (mkLogEntry 0 1 7) (run before_commit start)).
  - apply start_reachable.
  - vm_compute. reflexivity.
Defined.

Lemma self_check_passes_witness : check_invariants (run after_commit start) = Ok ().
Proof.
  apply (self_check_passes [1; 2; 3]%N (run after_commit start)). apply start_orderly. vm_compute. reflexivity.
Defined.

Lemma elect_succeeds_witness :
  (elect 3 2 {[2; 3]}%N (run after_commit start)).1 = Ok () ↔ may_elect (run after_commit start) 3 2 {[2; 3]}%N.
Proof.
  apply (elect_succeeds [1; 2; 3]%N (run after_commit start) 3 2 {[2; 3]}%N). apply start_orderly. vm_compute. reflexivity.
Defined.

Lemma failover_before_commit_stalls_witness :
  committed_values (run [Append 8; Replicate 3 (mkLogEntry 1 2 8); Commit 0; Commit 1]
                        (run (before_commit ++ [Elect 2 2 {[2; 3]}%N]) start)) = ∅.
Proof.
  apply (failover_before_commit_stalls [1; 2; 3]%N (run before_commit start) (mkLeader 1 1)
    (mkReplica 1 [mkLogEntry 0 1 7] None) 0%N (mkLogEntry 0 1 7) 2%N 2%N {[2; 3]}%N (run (before_commit ++ [Elect 2 2 {[2; 3]}%N]) start)).
  - apply start_reachable.
  - vm_compute. reflexivity.
  - vm_compute. reflexivity.
  - reflexivity.
  - reflexivity.
  - vm_compute. lia.
  - vm_compute. reflexivity.
  - intros H. lia.
  - vm_compute. reflexivity.
Defined.

(** The committed marker is written before the check, and only the entry at the
    marker is compared: node 1 keeps an uncommitted value at offset 0, yet the
    propagation of offset 1 moves its marker over it, and every later operation
    that checks the model fails. *)
Definition diverging : list op :=
  [Elect 1 1 {[1; 2]}%N; Append 10; Append 20; StepDown; Elect 2 2 {[2; 3]}%N;
   Append 11; Replicate 3 (mkLogEntry 0 2 11); Commit 0; Append 20; Replicate 3 (mkLogEntry 1 2 20); Commit 1].

Lemma propagate_corrupts :
  (propagate_commit 1 1 (run diverging start)).1 = Err CommittedValueChanged
  ∧ check_invariants (run diverging start) = Ok ()
  ∧ committed <$> replicas (run (diverging ++ [Propagate 1 1]) start) !! 1%N = Some (Some 1%N)
  ∧ (append 30 (run (diverging ++ [Propagate 1 1]) start)).1 = Err CommittedValueChanged.
Proof. vm_compute. done. Qed.

End PartitionExamples.

(** ** Clients *)

Module ClientExamples.

Lemma produce_idempotent_witness :
  Producer.produce 1 0 2 5 40 (ProducerFacts.run [ProducerFacts.mkRequest 1 2 1 6 12]
    (Producer.mkProducer 1 2 {[0%N := Producer.mkBatch 1 10 11 5]}))
  = (Ok (Producer.Duplicate (Producer.mkBatch 1 10 11 5)),
     ProducerFacts.run [ProducerFacts.mkRequest 1 2 1 6 12] (Producer.mkProducer 1 2 {[0%N := Producer.mkBatch 1 10 11 5]})).
Proof.
  apply (ProducerFacts.produce_idempotent 1 0 2 5 10 (Producer.new 1)). vm_compute. reflexivity.
Defined.

Lemma accepted_tile_witness :
  ProducerFacts.tiled (ProducerFacts.send (ProducerFacts.mkRequest 1 0 2 5 10) (Producer.new 1)).2.
Proof. apply ProducerFacts.accepted_tile. apply ProducerFacts.reach_send, ProducerFacts.reach_new. Defined.

(** A batch that ends at the last sequence number is recorded before its call
    fails; the retry is answered as a duplicate of a batch that was never
    appended. *)
Lemma overflow_then_duplicate :
  (ProducerFacts.send (ProducerFacts.mkRequest 1 u32_max 1 6 50)
     (ProducerFacts.run [ProducerFacts.mkRequest 1 0 u32_max 5 0] (Producer.new 1))).1 = Err SequenceOverflow
  ∧ (ProducerFacts.send (ProducerFacts.mkRequest 1 u32_max 1 6 50)
       (ProducerFacts.run [ProducerFacts.mkRequest 1 0 u32_max 5 0; ProducerFacts.mkRequest 1 u32_max 1 6 50] (Producer.new 1))).1
    = Ok (Producer.Duplicate (Producer.mkBatch u32_max 50 50 6)).
Proof. vm_compute. done. Qed.

Definition two_members : list GroupFacts.op :=
  [GroupFacts.Join "b"; GroupFacts.Join "a"; GroupFacts.Sync "a" 2 {[0%N := "a"; 1%N := "b"]}].

Lemma group_consistent_witness :
  Group.check_invariants (GroupFacts.run two_members Group.new) = Ok () ∧ GroupFacts.sound (GroupFacts.run two_members Group.new).
Proof. apply (GroupFacts.group_consistent two_members). vm_compute. reflexivity. Defined.

Lemma sync_fenced_witness :
  Group.sync "a" 2 ∅ (GroupFacts.run [] (Group.leave "b" (GroupFacts.run two_members Group.new)).2)
  = (Err IllegalGeneration, (Group.leave "b" (GroupFacts.run two_members Group.new)).2).
Proof.
  apply (GroupFacts.sync_fenced (GroupFacts.run two_members Group.new) "b" 3
           (Group.leave "b" (GroupFacts.run two_members Group.new)).2 [] "a" 2 ∅).
  - right. vm_compute. reflexivity.
  - vm_compute. discriminate.
Defined.

Definition committed_transaction : list TransactionFacts.op :=
  [TransactionFacts.Begin 3; TransactionFacts.Append 3 0 10 12; TransactionFacts.Append 3 1 4 4;
   TransactionFacts.Prepare 3 true; TransactionFacts.Marker 3 0 true; TransactionFacts.Marker 3 1 true;
   TransactionFacts.Complete 3].

Lemma visible_means_committed_witness :
  Transaction.markers (TransactionFacts.run committed_transaction (Transaction.new 9 3)) !! 1%N = Some true.
Proof.
  apply (TransactionFacts.visible_means_committed 9 3 committed_transaction 1).
  - vm_compute. reflexivity.
  - refine (bool_decide_unpack (1%N ∈ Transaction.partitions (TransactionFacts.run committed_transaction (Transaction.new 9 3))) _).
    vm_compute. exact I.
Defined.

Definition ready : Transaction.TransactionModel :=
  TransactionFacts.run [TransactionFacts.Begin 3; TransactionFacts.Append 3 0 10 12] (Transaction.new 9 3).

Lemma decision_final_witness :
  TransactionFacts.decision (Transaction.phase
    (TransactionFacts.run [TransactionFacts.Marker 3 0 false; TransactionFacts.Prepare 3 false]
      (TransactionFacts.run [TransactionFacts.Prepare 3 true] ready))) = Some true.
Proof.
  apply (TransactionFacts.decision_final 3 true ready).
  - vm_compute. reflexivity.
  - intros e He. set_solver.
Defined.

Lemma last_stable_offset_held_witness :
  match Transaction.constrains_last_stable_offset
          (TransactionFacts.tracked (take 3 committed_transaction) (Transaction.new 9 3)).1 with
  | Some c => (∃ b, b ∈ [(4, 4); (10, 12)]%N ∧ b.1 = c) ∧ ∀ b, b ∈ [(4, 4); (10, 12)]%N → (c ≤ b.1)%N
  | None => [(4, 4); (10, 12)]%N = []
  end.
Proof.
  apply (TransactionFacts.last_stable_offset_held 9 3 (take 3 committed_transaction)).
  - vm_compute. reflexivity.
  - vm_compute. left.
Defined.

End ClientExamples.
