(* ===== verification/Placement.v ===== *)
(** * Placement of blocks and namespaces on nodes (crates/pepper-placement)

    Every node computes where a block belongs from the same map: nodes are chosen
    one by one, preferring failure domains not used yet and then the least
    weighted hash.  The file also models the owners of repairs, their temporary
    replacements and the replicas of a namespace. *)
From stdpp Require Import base gmap sets list strings sorting.
From Stdlib Require Import Strings.Byte.
From S2P Require Import Prelude Types.

Definition MAX_PLACEMENT_WEIGHT : N := 1000000.
Definition u128_max : N := 340282366920938463463374607431768211455.

(** ** Data *)

Inductive PlacementMapNodeState := In | Out.

#[export] Instance PlacementMapNodeState_eq_dec : EqDecision PlacementMapNodeState.
Proof. solve_decision. Defined.

Record PlacementMapNode := mkMapNode {
  node_id : string;
  weight : N;
  node_state : PlacementMapNodeState;
  failure_domains : gmap string string
}.

#[export] Instance PlacementMapNode_eq_dec : EqDecision PlacementMapNode.
Proof. solve_decision. Defined.

Record PlacementMap := mkPlacementMap {
  map_epoch : N;
  failure_domain_levels : list string;
  nodes : list PlacementMapNode
}.

Record PlacementDecision := mkDecision { decided_reference : PlacementReference; node_ids : list string }.

Record PlacementException := mkException {
  exception_reference : PlacementReference;
  exception_block_cid : Cid;
  source_epoch : N;
  target_epoch : N;
  exception_generation : N;
  exception_node_ids : list string;
  exception_reason : string;
  exception_created_at : Z;
  expires_at_unix_seconds : Z
}.

Inductive AuthoritativePlacementError :=
| InvalidEpoch
| InvalidFailureDomainLevels
| InvalidNodeIds
| InvalidWeight
| InvalidReference (message : string)
| EpochMismatch (reference map : N)
| InsufficientEligibleNodes
| InvalidRepairOwnerCount
| InvalidException.

Record PlacementNode := mkPlacementNode {
  pn_node_id : string;
  pn_addresses : list string;
  pn_is_local : bool;
  pn_failure_domain : option string;
  pn_labels : gmap string string;
  pn_capacity : option N;
  pn_available : option N
}.

Record ConsensusPlacementNode := mkConsensusNode {
  cn_node_id : string;
  cn_addresses : list string;
  reachable : bool;
  cn_failure_domain : option string;
  consensus_enabled : bool;
  namespace_group_capacity : N;
  namespace_group_count : N;
  max_consensus_log_bytes : N
}.

Inductive ConsensusPlacementError := InsufficientCapableNodes | InsufficientFailureDomains.

(** ** Orders and searches of the standard library *)

(** [Ord::cmp] of byte strings, integers and booleans. *)
Definition cmp_bytes (a b : bytes) : comparison :=
  if bytes_ltb a b then Lt else if bytes_ltb b a then Gt else Eq.
Definition cmp_string (a b : string) : comparison := cmp_bytes (as_bytes a) (as_bytes b).
Definition cmp_bool (a b : bool) : comparison :=
  match a, b with false, true => Lt | true, false => Gt | _, _ => Eq end.

(** [Ordering::then_with] *)
Definition then_with (a b : comparison) : comparison := match a with Eq => b | _ => a end.

(** [iter.min_by(cmp)]: the first of the least elements. *)
Definition min_by {A} (cmp : A → A → comparison) (l : list A) : option A :=
  match l with
  | [] => None
  | x :: l => Some (foldl (λ best y, match cmp best y with Gt => y | _ => best end) x l)
  end.

(** A [BTreeSet<String>] in iteration order. *)
Definition string_set_iter (x : gset string) : list string := (btree_iter (gset_to_gmap () x)).*1.

(** [iter.any(|x| x.is_empty() || !set.insert(x))] *)
Fixpoint empty_or_repeated (seen : gset string) (l : list string) : bool :=
  match l with
  | [] => false
  | x :: l => bool_decide (x = "") || bool_decide (x ∈ seen) || empty_or_repeated ({[x]} ∪ seen) l
  end.

Definition PlacementReferenceError_to_string (e : PlacementReferenceError) : string :=
  match e with
  | InvalidBounds => "placement reference has invalid epoch or replica bounds"
  | InvalidRole => "placement reference fields do not match its role"
  end.

Definition check_reference (r : PlacementReference) : result AuthoritativePlacementError unit :=
  map_err (λ e, InvalidReference (PlacementReferenceError_to_string e)) (PlacementReference_validate r).

(** ** Validation *)

Definition PlacementException_validate (e : PlacementException) : result AuthoritativePlacementError unit :=
  _ ← check_reference (exception_reference e);
  fail_if ((exception_generation e =? 0)%N
           || negb (source_epoch e =? epoch (exception_reference e))%N
           || (target_epoch e =? 0)%N
           || (target_epoch e <? source_epoch e)%N
           || bool_decide (exception_node_ids e = [])
           || existsb (λ n, bool_decide (n = "")) (exception_node_ids e)
           || negb (N.of_nat (size (list_to_set (exception_node_ids e) : gset string)) =? len (exception_node_ids e))%N
           || bool_decide (exception_reason e = "")
           || (expires_at_unix_seconds e <=? exception_created_at e)%Z
           || (bool_decide (role (exception_reference e) = Replicated)
               && negb (bool_decide (exception_block_cid e = seed (exception_reference e)))))
    InvalidException.

(** The loop body of [PlacementMap::validate]. *)
Definition check_map_node (seen : gset string) (n : PlacementMapNode)
  : result AuthoritativePlacementError (gset string) :=
  _ ← fail_if (bool_decide (node_id n = "") || bool_decide (node_id n ∈ seen)) InvalidNodeIds;
  _ ← fail_if ((weight n =? 0)%N || (MAX_PLACEMENT_WEIGHT <? weight n)%N) InvalidWeight;
  _ ← fail_if (existsb (λ lv, bool_decide (lv.1 = "") || bool_decide (lv.2 = "")) (btree_iter (failure_domains n)))
        InvalidFailureDomainLevels;
  Ok ({[node_id n]} ∪ seen).

Definition PlacementMap_validate (m : PlacementMap) : result AuthoritativePlacementError unit :=
  _ ← fail_if (map_epoch m =? 0)%N InvalidEpoch;
  _ ← fail_if (empty_or_repeated ∅ (failure_domain_levels m)) InvalidFailureDomainLevels;
  _ ← try_foldl check_map_node ∅ (nodes m);
  Ok ().

Section Placement.
Context `{Blake3} `{Hex}.

(** ** Costs *)

Definition role_byte (r : PlacementRole) : bytes := [byte_of match r with Replicated => 0 | ErasureShardRole => 1 end].

(** The two costs hash the same fields under their own domain; repairs use index
    zero for all shards of a stripe. *)
Definition hashed_cost (domain : string) (r : PlacementReference) (index : N) (n : PlacementMapNode) : N :=
  let h := hasher_update hasher_new (as_bytes domain) in
  let h := hasher_update h (to_be_bytes (epoch r)) in
  let h := hasher_update h (role_byte (role r)) in
  let h := hasher_update h (as_bytes (Cid_to_string (seed r))) in
  let h := hasher_update h (be_bytes 2 index) in
  let h := hasher_update h (as_bytes (node_id n)) in
  let random := from_be_bytes (take 16 (hasher_finalize h)) in
  ((u128_max - random) / weight n)%N.

Definition weighted_cost (r : PlacementReference) (n : PlacementMapNode) : N :=
  hashed_cost "pepper-authoritative-placement-v1" r (index r) n.

Definition repair_weighted_cost (r : PlacementReference) (n : PlacementMapNode) : N :=
  hashed_cost "pepper-authoritative-repair-owner-v1" r 0 n.

(** ** Failure domains *)

Definition domain_value (n : PlacementMapNode) (level : string) : string :=
  default ("node:" +:+ node_id n) (failure_domains n !! level).

(** The domains used so far, with an entry for every level of the map. *)
Definition no_domains (m : PlacementMap) : gmap string (gset string) :=
  list_to_map ((λ level, (level, ∅)) <$> failure_domain_levels m).

Definition used_at (used : gmap string (gset string)) (level : string) : gset string := default ∅ (used !! level).

Definition record_domains (m : PlacementMap) (n : PlacementMapNode) (used : gmap string (gset string))
  : gmap string (gset string) :=
  foldl (λ used level, <[level := {[domain_value n level]} ∪ used_at used level]> used) used (failure_domain_levels m).

(** The level loop of both comparisons: a node whose domain is new comes first. *)
Fixpoint cmp_levels (levels : list string) (used : gmap string (gset string)) (left right : PlacementMapNode) : comparison :=
  match levels with
  | [] => Eq
  | level :: levels =>
      let left_new := negb (bool_decide (domain_value left level ∈ used_at used level)) in
      let right_new := negb (bool_decide (domain_value right level ∈ used_at used level)) in
      then_with (cmp_bool right_new left_new) (cmp_levels levels used left right)
  end.

Definition cmp_by (cost : PlacementMapNode → N) (m : PlacementMap) (used : gmap string (gset string))
    (left right : PlacementMapNode) : comparison :=
  then_with (cmp_levels (failure_domain_levels m) used left right)
    (then_with (cost left ?= cost right)%N (cmp_string (node_id left) (node_id right))).

Definition compare_candidate (m : PlacementMap) (r : PlacementReference) (used : gmap string (gset string))
  := cmp_by (weighted_cost r) m used.

Definition compare_repair_candidate (m : PlacementMap) (r : PlacementReference) (used : gmap string (gset string))
  := cmp_by (repair_weighted_cost r) m used.

(** [map.nodes.iter().find(..)] and recording the domains of what it finds. *)
Definition record_id (m : PlacementMap) (used : gmap string (gset string)) (id : string) : gmap string (gset string) :=
  match find (λ n, bool_decide (node_id n = id)) (nodes m) with
  | Some n => record_domains m n used
  | None => used
  end.

(** The nodes that may be chosen next. *)
Definition eligible (m : PlacementMap) (excluded : gset string) (selected : list string) : list PlacementMapNode :=
  filter (λ n, node_state n = In ∧ node_id n ∉ excluded ∧ node_id n ∉ selected) (nodes m).

(** The selection loops: [count] nodes are left to choose. *)
Fixpoint pick (compare : gmap string (gset string) → PlacementMapNode → PlacementMapNode → comparison)
    (m : PlacementMap) (excluded : gset string) (count : nat) (selected : list string)
    (used : gmap string (gset string)) : result AuthoritativePlacementError (list string) :=
  match count with
  | O => Ok selected
  | S count =>
      candidate ← ok_or (min_by (compare used) (eligible m excluded selected)) InsufficientEligibleNodes;
      pick compare m excluded count (selected ++ [node_id candidate]) (record_domains m candidate used)
  end.

Definition select_distinct_nodes (m : PlacementMap) (r : PlacementReference) (excluded : list string) (count : N)
  : result AuthoritativePlacementError (list string) :=
  let excluded : gset string := list_to_set excluded in
  let used := foldl (record_id m) (no_domains m) (string_set_iter excluded) in
  pick (compare_candidate m r) m excluded (N.to_nat count) [] used.

(** ** Authoritative selection *)

Definition with_index (r : PlacementReference) (i : N) : PlacementReference :=
  mkPlacement (epoch r) (role r) (seed r) i (replicas r).

(** The shard loop: [rounds] indices from [i] on are left before the last one. *)
Fixpoint select_shard (m : PlacementMap) (r : PlacementReference) (rounds : nat) (i : N) (prior : list string)
  : result AuthoritativePlacementError (list string) :=
  selected ← select_distinct_nodes m (with_index r i) prior 1;
  match rounds with
  | O => Ok selected
  | S rounds => select_shard m r rounds (i + 1) (prior ++ selected)
  end.

Definition select_authoritative (m : PlacementMap) (r : PlacementReference)
  : result AuthoritativePlacementError PlacementDecision :=
  _ ← PlacementMap_validate m;
  _ ← check_reference r;
  _ ← fail_if (negb (epoch r =? map_epoch m)%N) (EpochMismatch (epoch r) (map_epoch m));
  ids ← match role r with
        | Replicated => select_distinct_nodes m r [] (replicas r)
        | ErasureShardRole => select_shard m r (N.to_nat (index r)) 0 []
        end;
  Ok (mkDecision r ids).

(** ** Repairs *)

Definition select_repair_owners (m : PlacementMap) (r : PlacementReference) (limit : N)
  : result AuthoritativePlacementError (list string) :=
  _ ← PlacementMap_validate m;
  _ ← check_reference r;
  _ ← fail_if (limit =? 0)%N InvalidRepairOwnerCount;
  let count := len (filter (λ n, node_state n = In) (nodes m)) in
  _ ← fail_if (count =? 0)%N InsufficientEligibleNodes;
  pick (compare_repair_candidate m r) m ∅ (N.to_nat (N.min limit count)) [] (no_domains m).

Definition select_repair_replacement (m : PlacementMap) (r : PlacementReference) (excluded : list string)
  : result AuthoritativePlacementError string :=
  _ ← PlacementMap_validate m;
  _ ← check_reference r;
  let excluded : gset string := list_to_set excluded in
  let used := foldl (record_id m) (no_domains m) (string_set_iter excluded) in
  ok_or (node_id <$> min_by (compare_repair_candidate m r used) (eligible m excluded [])) InsufficientEligibleNodes.

(** ** Replicas of blocks and namespaces by score *)

Definition placement_score (cid : Cid) (id : string) : bytes :=
  let h := hasher_update hasher_new (as_bytes "pepper-placement-v1") in
  let h := hasher_update h (as_bytes (Cid_to_string cid)) in
  hasher_finalize (hasher_update h (as_bytes id)).

(** [sort_by(cmp)] *)
Definition sort_by {A} (cmp : A → A → comparison) (l : list A) : list A := merge_sort (λ a b, cmp a b ≠ Gt) l.

Definition cmp_scored {A} (id : A → string) (a b : bytes * A) : comparison :=
  then_with (cmp_bytes b.1 a.1) (cmp_string (id a.2) (id b.2)).

Definition select_replicas (cid : Cid) (ns : list PlacementNode) (replication_factor : N) : list PlacementNode :=
  (take (N.to_nat replication_factor)
     (sort_by (cmp_scored pn_node_id) ((λ n, (placement_score cid (pn_node_id n), n)) <$> ns))).*2.

Definition capable (required_log_bytes : N) (n : ConsensusPlacementNode) : bool :=
  consensus_enabled n && reachable n && negb (bool_decide (cn_addresses n = []))
  && (namespace_group_count n <? namespace_group_capacity n)%N
  && (required_log_bytes <=? max_consensus_log_bytes n)%N.

Definition consensus_domain (n : ConsensusPlacementNode) : string :=
  default ("node:" +:+ cn_node_id n) (cn_failure_domain n).

(** The first pass: the best candidate of each domain. *)
Fixpoint pick_domains (count : nat) (candidates selected : list ConsensusPlacementNode) (domains : gset string)
  : list ConsensusPlacementNode :=
  match candidates with
  | [] => selected
  | n :: candidates =>
      let '(selected, domains) :=
        if decide (consensus_domain n ∈ domains) then (selected, domains)
        else (selected ++ [n], {[consensus_domain n]} ∪ domains) in
      if decide (length selected = count) then selected else pick_domains count candidates selected domains
  end.

(** The second pass fills up with the best candidates not selected yet. *)
Fixpoint pick_rest (count : nat) (candidates selected : list ConsensusPlacementNode) : list ConsensusPlacementNode :=
  match candidates with
  | [] => selected
  | n :: candidates =>
      let selected := if existsb (λ s, bool_decide (cn_node_id s = cn_node_id n)) selected then selected else selected ++ [n] in
      if decide (length selected = count) then selected else pick_rest count candidates selected
  end.

Definition select_namespace_replicas_with_count (id : Cid) (ns : list ConsensusPlacementNode)
    (required_log_bytes replica_count : N) : result ConsensusPlacementError (list ConsensusPlacementNode) :=
  _ ← fail_if (negb ((replica_count =? 1)%N || (replica_count =? 3)%N)) InsufficientCapableNodes;
  let candidates := sort_by (cmp_scored cn_node_id)
    ((λ n, (placement_score id (cn_node_id n), n)) <$> filter (λ n, capable required_log_bytes n = true) ns) in
  _ ← fail_if (len candidates <? replica_count)%N InsufficientCapableNodes;
  let count := N.to_nat replica_count in
  let selected := pick_domains count candidates.*2 [] ∅ in
  Ok (if (length selected <? count)%nat then pick_rest count candidates.*2 selected else selected).

Definition select_namespace_replicas (id : Cid) (ns : list ConsensusPlacementNode) (required_log_bytes : N)
  : result ConsensusPlacementError (list ConsensusPlacementNode) :=
  selected ← select_namespace_replicas_with_count id ns required_log_bytes 3;
  if decide (length selected = 3) then Ok selected else Err InsufficientCapableNodes.

Definition cmp_replacement (a b : bool * bytes * ConsensusPlacementNode) : comparison :=
  then_with (cmp_bool b.1.1 a.1.1)
    (then_with (cmp_bytes b.1.2 a.1.2) (cmp_string (cn_node_id a.2) (cn_node_id b.2))).

Definition select_namespace_replacement (id : Cid) (ns : list ConsensusPlacementNode) (retained : list string)
    (required_log_bytes : N) : result ConsensusPlacementError ConsensusPlacementNode :=
  let retained : gset string := list_to_set retained in
  let retained_domains : gset string :=
    list_to_set (consensus_domain <$> filter (λ n, cn_node_id n ∈ retained) ns) in
  let candidates := sort_by cmp_replacement
    ((λ n, (negb (bool_decide (consensus_domain n ∈ retained_domains)), placement_score id (cn_node_id n), n))
       <$> filter (λ n, cn_node_id n ∉ retained ∧ capable required_log_bytes n = true) ns) in
  ok_or (snd <$> head candidates) InsufficientCapableNodes.

End Placement.
