(* ===== verification/PlacementFacts.v ===== *)
(** * What placement promises (crates/pepper-placement)

    The comparison of candidates is a total order on nodes, so a selection does
    not depend on the order of the map, keeps its nodes when others go, uses as
    many failure domains as there are, and fails only for want of nodes. *)
From stdpp Require Import base gmap sets list strings sorting.
From Stdlib Require Import Strings.Byte.
From S2P Require Import Prelude Types Placement.

(** ** Comparisons that are total preorders *)

Class TotalCmp {A} (c : A → A → comparison) : Prop := {
  cmp_opp a b : c b a = CompOpp (c a b);
  cmp_trans a b d : c a b ≠ Gt → c b d ≠ Gt → c a d ≠ Gt
}.

Section TotalCmp.
Context {A : Type} (c : A → A → comparison) `{!TotalCmp c}.

Lemma cmp_refl a : c a a = Eq.
Proof. pose proof (cmp_opp a a) as Ha. by destruct (c a a). Qed.

Lemma cmp_lt_le a b d : c a b = Lt → c b d ≠ Gt → c a d = Lt.
Proof.
  intros Hab Hbd. destruct (c a d) eqn:Had; [|done|].
  - assert (c b a ≠ Gt) as Hba; [|by rewrite (cmp_opp a b), Hab in Hba].
    apply (cmp_trans b d a); [done|]. by rewrite (cmp_opp a d), Had.
  - by destruct (cmp_trans a b d); [rewrite Hab| |].
Qed.

Lemma cmp_le_lt a b d : c a b ≠ Gt → c b d = Lt → c a d = Lt.
Proof.
  intros Hab Hbd. destruct (c a d) eqn:Had; [|done|].
  - assert (c d b ≠ Gt) as Hdb; [|by rewrite (cmp_opp b d), Hbd in Hdb].
    apply (cmp_trans d a b); [|done]. by rewrite (cmp_opp a d), Had.
  - by destruct (cmp_trans a b d); [|rewrite Hbd|].
Qed.

(** The first of the least elements. *)
Lemma min_by_spec l m : min_by c l = Some m → m ∈ l ∧ ∀ x, x ∈ l → c m x ≠ Gt.
Proof.
  destruct l as [|x l]; [done|]. intros [= <-]. revert x. induction l as [|y l IH]; intros x; simpl.
  { split; [by left|]. intros z [->|[]%elem_of_nil]%elem_of_cons. by rewrite cmp_refl. }
  destruct (IH (match c x y with Gt => y | _ => x end)) as [Hin Hmin].
  set (b := foldl _ _ l) in *. clearbody b. destruct (c x y) eqn:Hxy.
  - split; [apply elem_of_cons in Hin as [->|?]; [by left|by right; right]|].
    intros z [->|[->|Hz]%elem_of_cons]%elem_of_cons; [apply Hmin; by left| |apply Hmin; by right].
    apply (cmp_trans b x y); [apply Hmin; by left|by rewrite Hxy].
  - split; [apply elem_of_cons in Hin as [->|?]; [by left|by right; right]|].
    intros z [->|[->|Hz]%elem_of_cons]%elem_of_cons; [apply Hmin; by left| |apply Hmin; by right].
    apply (cmp_trans b x y); [apply Hmin; by left|by rewrite Hxy].
  - split; [by right|]. intros z [->|Hz]%elem_of_cons; [|by apply Hmin].
    apply (cmp_trans b y x); [apply Hmin; by left|by rewrite (cmp_opp x y), Hxy].
Qed.

Lemma min_by_None l : min_by c l = None ↔ l = [].
Proof. by destruct l. Qed.

(** The least element of a list in which only equal elements compare equal. *)
Lemma min_by_unique l m :
  (∀ a b, a ∈ l → b ∈ l → c a b = Eq → a = b) → m ∈ l → (∀ x, x ∈ l → c m x ≠ Gt) → min_by c l = Some m.
Proof.
  intros Hinj Hm Hle. destruct (min_by c l) as [b|] eqn:Hb.
  - apply min_by_spec in Hb as [Hb Hmin]. f_equal. apply Hinj; [done|done|].
    specialize (Hle b Hb). specialize (Hmin m Hm). rewrite (cmp_opp m b) in Hmin. rewrite (cmp_opp m b).
    by destruct (c m b).
  - apply min_by_None in Hb as ->. by apply elem_of_nil in Hm.
Qed.
End TotalCmp.

#[export] Instance then_with_total {A} (c d : A → A → comparison) :
  TotalCmp c → TotalCmp d → TotalCmp (λ a b, then_with (c a b) (d a b)).
Proof.
  intros Hc Hd. split; [intros a b; rewrite (cmp_opp (c := c) a b), (cmp_opp (c := d) a b); by destruct (c a b)|].
  intros a b e. unfold then_with. destruct (c a b) eqn:Hab; [| |done].
  - destruct (c b e) eqn:Hbe; [| |done].
    + intros Hd1 Hd2. assert (c a e = Eq) as ->; [|by apply (cmp_trans a b e)].
      destruct (c a e) eqn:Hae; [done| |].
      * assert (c e a ≠ Gt) as Hea; [|by rewrite (cmp_opp (c := c) a e), Hae in Hea].
        apply (cmp_trans e b a); [by rewrite (cmp_opp (c := c) b e), Hbe|by rewrite (cmp_opp (c := c) a b), Hab].
      * by destruct (cmp_trans (c := c) a b e); [rewrite Hab|rewrite Hbe|].
    + intros _ _. by rewrite (cmp_le_lt c a b e); [|rewrite Hab|].
  - intros _ Hbe. rewrite (cmp_lt_le c a b e); [done|done|]. by destruct (c b e).
Qed.

#[export] Instance on_total {A B} (f : A → B) (c : B → B → comparison) : TotalCmp c → TotalCmp (λ a b, c (f a) (f b)).
Proof. intros Hc. split; [intros a b; apply cmp_opp|intros a b d; apply cmp_trans]. Qed.

#[export] Instance flip_total {A} (c : A → A → comparison) : TotalCmp c → TotalCmp (λ a b, c b a).
Proof. intros Hc. split; [intros a b; apply cmp_opp|]. intros a b d Hab Hbd. by apply (cmp_trans d b a). Qed.

#[export] Instance N_total : TotalCmp N.compare.
Proof.
  split; [intros a b; apply N.compare_antisym|]. intros a b d. rewrite !N.compare_le_iff. lia.
Qed.

#[export] Instance bool_total : TotalCmp cmp_bool.
Proof. split; [by intros [] []|by intros [] [] []]. Qed.

Lemma cmp_bytes_Lt a b : cmp_bytes a b = Lt ↔ bytes_lt a b.
Proof. unfold cmp_bytes, bytes_lt. destruct (bytes_ltb a b); [done|]. by destruct (bytes_ltb b a). Qed.

Lemma cmp_bytes_Eq a b : cmp_bytes a b = Eq ↔ a = b.
Proof.
  unfold cmp_bytes. split.
  - destruct (bytes_lt_trichotomy a b) as [Hlt|[->|Hlt]]; [|done|].
    + unfold bytes_lt in Hlt. by rewrite Hlt.
    + unfold bytes_lt in Hlt. rewrite Hlt. by destruct (bytes_ltb a b).
  - intros ->. by rewrite bytes_ltb_irrefl.
Qed.

#[export] Instance bytes_total : TotalCmp cmp_bytes.
Proof.
  assert (∀ a b, cmp_bytes b a = CompOpp (cmp_bytes a b)) as Hopp.
  { intros a b. unfold cmp_bytes. destruct (bytes_ltb a b) eqn:Hab, (bytes_ltb b a) eqn:Hba; try done.
    exfalso. by apply (bytes_lt_irrefl a), (bytes_lt_trans a b a). }
  split; [done|]. intros a b d Hab Hbd Had. rewrite Hopp in Had. destruct (cmp_bytes d a) eqn:Hda; try done.
  apply cmp_bytes_Lt in Hda. destruct (cmp_bytes a b) eqn:Hab'; [apply cmp_bytes_Eq in Hab' as <-| |done].
  - by rewrite Hopp, (proj2 (cmp_bytes_Lt d a) Hda) in Hbd.
  - apply cmp_bytes_Lt in Hab'. rewrite Hopp, (proj2 (cmp_bytes_Lt d b)) in Hbd; [done|]. by eapply bytes_lt_trans.
Qed.

Lemma cmp_string_Eq a b : cmp_string a b = Eq ↔ a = b.
Proof. unfold cmp_string. rewrite cmp_bytes_Eq. split; [apply as_bytes_inj|by intros ->]. Qed.

#[export] Instance cmp_levels_total levels used : TotalCmp (cmp_levels levels used).
Proof.
  induction levels as [|level levels IH]; [by split|].
  exact (then_with_total
    (λ l r, cmp_bool (negb (bool_decide (domain_value r level ∈ used_at used level)))
                     (negb (bool_decide (domain_value l level ∈ used_at used level)))) (cmp_levels levels used)
    (flip_total _ (on_total (λ n, negb (bool_decide (domain_value n level ∈ used_at used level))) cmp_bool _)) IH).
Qed.

#[export] Instance cmp_by_total cost m used : TotalCmp (cmp_by cost m used).
Proof.
  unfold cmp_by. apply then_with_total; [apply _|]. apply then_with_total.
  - exact (on_total cost N.compare _).
  - exact (on_total (λ n, as_bytes (node_id n)) cmp_bytes _).
Qed.

Lemma cmp_by_Eq cost m used a b : cmp_by cost m used a b = Eq → node_id a = node_id b.
Proof.
  unfold cmp_by, then_with. destruct (cmp_levels _ _ _ _); [|done|done]. destruct (cost a ?= cost b)%N; [|done|done].
  apply cmp_string_Eq.
Qed.

(** A node of a new domain at the first level beats one of a used domain. *)
Lemma cmp_by_new cost m used a b level levels :
  failure_domain_levels m = level :: levels → domain_value a level ∉ used_at used level →
  cmp_by cost m used b a ≠ Gt → domain_value b level ∉ used_at used level.
Proof.
  intros Hl Ha Hle Hb. apply Hle. unfold cmp_by. rewrite Hl. simpl.
  by rewrite (bool_decide_false _ Ha), (bool_decide_true _ Hb).
Qed.

(** ** Valid maps *)

Definition sound_node (n : PlacementMapNode) : Prop :=
  node_id n ≠ "" ∧ (1 ≤ weight n ≤ MAX_PLACEMENT_WEIGHT)%N
  ∧ existsb (λ lv, bool_decide (lv.1 = "") || bool_decide (lv.2 = "")) (btree_iter (failure_domains n)) = false.

Lemma check_nodes_iff l seen :
  is_Ok (try_foldl check_map_node seen l) = true
  ↔ Forall sound_node l ∧ NoDup (node_id <$> l) ∧ ∀ n, n ∈ l → node_id n ∉ seen.
Proof.
  revert seen. induction l as [|n l IH]; intros seen; simpl.
  { split; [intros _; split_and!; [constructor|constructor|by intros n Hn%elem_of_nil]|done]. }
  assert (is_Ok (check_map_node seen n ≫= λ acc, try_foldl check_map_node acc l) = true
    ↔ sound_node n ∧ node_id n ∉ seen ∧ is_Ok (try_foldl check_map_node ({[node_id n]} ∪ seen) l) = true) as ->.
  { unfold check_map_node, sound_node. destruct (decide (node_id n = "")) as [->|Hid]; [by split; [|intros ((? & _) & _)]|].
    rewrite (bool_decide_false _ Hid). destruct (decide (node_id n ∈ seen)) as [Hs|Hs].
    { rewrite (bool_decide_true _ Hs). split; [done|]. by intros (_ & ? & _). }
    rewrite (bool_decide_false _ Hs). simpl.
    destruct (N.eqb_spec (weight n) 0), (N.ltb_spec MAX_PLACEMENT_WEIGHT (weight n)); simpl;
      try (split; [done|]; intros ((_ & ? & _) & _); lia).
    destruct (existsb _ (btree_iter _)); simpl; [split; [done|]; by intros ((_ & _ & ?) & _)|].
    split; [intros Hok; split_and!; done || lia|by intros (_ & _ & ?)]. }
  rewrite IH, NoDup_cons. split.
  - intros (Hn & Hs & Hall & Hnd & Hseen). split_and!; [by constructor| |done|].
    + intros (n' & Heq & Hn')%list_elem_of_fmap. apply (Hseen n' Hn'). set_solver.
    + intros n' [->|Hn']%elem_of_cons; [done|]. specialize (Hseen n' Hn'). set_solver.
  - intros (Hall & (Hnin & Hnd) & Hseen). inversion Hall as [|? ? Hn Hall']; subst.
    split_and!; [done|apply Hseen; by left|done|done|]. intros n' Hn'.
    rewrite not_elem_of_union, not_elem_of_singleton. split; [|apply Hseen; by right].
    intros Heq. apply Hnin. rewrite <-Heq. by apply list_elem_of_fmap_2.
Qed.

Definition sound_map (m : PlacementMap) : Prop :=
  map_epoch m ≠ 0%N ∧ empty_or_repeated ∅ (failure_domain_levels m) = false
  ∧ Forall sound_node (nodes m) ∧ NoDup (node_id <$> nodes m).

Lemma PlacementMap_validate_iff m : PlacementMap_validate m = Ok () ↔ sound_map m.
Proof.
  unfold PlacementMap_validate, sound_map. pose proof (check_nodes_iff (nodes m) ∅) as Hn.
  destruct (N.eqb_spec (map_epoch m) 0) as [->|He]; simpl; [by split; [|intros (? & _)]|].
  destruct (empty_or_repeated ∅ (failure_domain_levels m)); simpl; [by split; [|intros (_ & ? & _)]|].
  destruct (try_foldl check_map_node ∅ (nodes m)) as [acc|e]; simpl in *.
  - split; [intros _; destruct (proj1 Hn eq_refl) as (? & ? & _); done|done].
  - split; [done|]. intros (_ & _ & ? & ?). assert (false = true); [|done]. apply Hn. split_and!; [done|done|set_solver].
Qed.

(** ** The nodes of a map and their domains *)

Definition usable (m : PlacementMap) (excluded : gset string) (n : PlacementMapNode) : Prop :=
  n ∈ nodes m ∧ node_state n = In ∧ node_id n ∉ excluded.

Lemma elem_of_eligible m excluded selected n :
  n ∈ eligible m excluded selected ↔ usable m excluded n ∧ node_id n ∉ selected.
Proof. unfold eligible, usable. rewrite list_elem_of_filter. naive_solver. Qed.

Lemma same_id m a b : NoDup (node_id <$> nodes m) → a ∈ nodes m → b ∈ nodes m → node_id a = node_id b → a = b.
Proof.
  intros Hnd [i Hi]%list_elem_of_lookup [j Hj]%list_elem_of_lookup Heq.
  assert (i = j) as ->; [|congruence].
  eapply (NoDup_lookup (node_id <$> nodes m)); [done|by rewrite list_lookup_fmap, Hi|by rewrite list_lookup_fmap, Hj, Heq].
Qed.

Lemma filter_one {A B} `{EqDecision B} (f : A → B) l c :
  NoDup (f <$> l) → c ∈ l → S (length (filter (λ x, f x ≠ f c) l)) = length l.
Proof.
  induction l as [|x l IH]; [by intros _ []%elem_of_nil|]. rewrite fmap_cons, NoDup_cons. intros [Hx Hnd] Hc.
  destruct (decide (f x = f c)) as [Heq|Hne].
  - rewrite filter_cons_False by tauto. simpl. f_equal. clear IH Hc.
    induction l as [|y l IH]; [done|]. rewrite fmap_cons, NoDup_cons in Hnd. destruct Hnd as [Hy Hnd].
    rewrite fmap_cons, elem_of_cons in Hx. rewrite filter_cons_True by (intros Hyc; apply Hx; left; congruence).
    simpl. f_equal. apply IH; [tauto|done].
  - rewrite filter_cons_True by done. simpl. f_equal. apply IH; [done|].
    apply elem_of_cons in Hc as [->|Hc]; [done|done].
Qed.

Lemma eligible_next m excluded selected c :
  NoDup (node_id <$> nodes m) → c ∈ eligible m excluded selected →
  S (length (eligible m excluded (selected ++ [node_id c]))) = length (eligible m excluded selected).
Proof.
  intros Hnd Hc.
  assert (NoDup (node_id <$> eligible m excluded selected)) as Hnd'.
  { eapply sublist_NoDup; [exact Hnd|]. apply fmap_sublist, sublist_filter. }
  rewrite <-(filter_one node_id (eligible m excluded selected) c Hnd' Hc).
  f_equal. f_equal. unfold eligible. rewrite list_filter_filter. apply list_filter_iff. intros n.
  rewrite elem_of_app, list_elem_of_singleton. tauto.
Qed.

Definition spread (level : string) (ns : list PlacementMapNode) : gset string :=
  list_to_set ((λ n, domain_value n level) <$> ns).

Lemma elem_of_spread level ns v : v ∈ spread level ns ↔ ∃ n, n ∈ ns ∧ domain_value n level = v.
Proof. unfold spread. rewrite elem_of_list_to_set, list_elem_of_fmap. naive_solver. Qed.

Lemma record_other levels n used level :
  level ∉ levels →
  used_at (foldl (λ used level, <[level := {[domain_value n level]} ∪ used_at used level]> used) used levels) level
  = used_at used level.
Proof.
  revert used. induction levels as [|l levels IH]; intros used Hnin; [done|]. simpl.
  rewrite IH by set_solver. unfold used_at. rewrite lookup_insert_ne by set_solver. done.
Qed.

Lemma record_first m level levels n used :
  failure_domain_levels m = level :: levels → level ∉ levels →
  used_at (record_domains m n used) level = {[domain_value n level]} ∪ used_at used level.
Proof. intros Hl Hnin. unfold record_domains. rewrite Hl. simpl. rewrite record_other by done. unfold used_at. by rewrite lookup_insert_eq. Qed.

(** The nodes of the map that take blocks. *)
Definition inside (m : PlacementMap) : list PlacementMapNode := filter (λ n, node_state n = In) (nodes m).

Lemma elem_of_inside m n : n ∈ inside m ↔ n ∈ nodes m ∧ node_state n = In.
Proof. unfold inside. rewrite list_elem_of_filter. tauto. Qed.

(** The nodes chosen use as many domains of a level as can be used. *)
Definition diverse (m : PlacementMap) (level : string) (ns : list PlacementMapNode) : Prop :=
  size (spread level ns) = length ns `min` size (spread level (inside m)).

Lemma spread_snoc level ns c : spread level (ns ++ [c]) = {[domain_value c level]} ∪ spread level ns.
Proof. unfold spread. rewrite fmap_app, list_to_set_app_L. simpl. set_solver. Qed.

Lemma spread_inside m level ns : Forall (λ n, n ∈ inside m) ns → spread level ns ⊆ spread level (inside m).
Proof.
  intros Hall v (n & Hn & <-)%elem_of_spread. apply elem_of_spread. exists n. rewrite Forall_forall in Hall. auto.
Qed.

(** ** The selection loop *)

Section Pick.
Context (cost : PlacementMapNode → N).

Notation pick m := (pick (cmp_by cost m) m).

(** What is chosen: new usable nodes, as many as asked for. *)
Lemma pick_spec m excluded count selected used res :
  pick m excluded count selected used = Ok res →
  ∃ new, res = selected ++ (node_id <$> new) ∧ length new = count ∧ Forall (usable m excluded) new
    ∧ NoDup (node_id <$> new) ∧ ∀ n, n ∈ new → node_id n ∉ selected.
Proof.
  revert selected used. induction count as [|count IH]; intros selected used; simpl.
  { intros [= <-]. exists []. rewrite app_nil_r. split_and!; [done|done|constructor|constructor|by intros n Hn%elem_of_nil]. }
  intros (c & Hc%ok_or_Ok & Hrest)%bind_Ok. apply IH in Hrest as (new & -> & Hlen & Hall & Hnd & Hsel).
  apply min_by_spec in Hc as [Hc _]; [|apply _]. apply elem_of_eligible in Hc as [Hu Hnew].
  exists (c :: new). rewrite fmap_cons, <-app_assoc. split_and!; [done|simpl; by rewrite Hlen|by constructor| |].
  - constructor; [|done]. intros (n & Heq & Hn)%list_elem_of_fmap. apply (Hsel n Hn). rewrite elem_of_app. right. rewrite <-Heq. by left.
  - intros n [->|Hn]%elem_of_cons; [done|]. specialize (Hsel n Hn). rewrite elem_of_app in Hsel. tauto.
Qed.

(** The loop answers exactly when there are enough nodes. *)
Lemma pick_answers m excluded count selected used :
  NoDup (node_id <$> nodes m) →
  if decide (count ≤ length (eligible m excluded selected))
  then ∃ res, pick m excluded count selected used = Ok res
  else pick m excluded count selected used = Err InsufficientEligibleNodes.
Proof.
  intros Hnd. revert selected used. induction count as [|count IH]; intros selected used; cbn [Placement.pick].
  { rewrite decide_True by lia. eauto. }
  destruct (min_by (cmp_by cost m used) (eligible m excluded selected)) as [c|] eqn:Hc; cbn [ok_or mbind result_bind].
  - apply min_by_spec in Hc as [Hc _]; [|apply _]. pose proof (eligible_next m excluded selected c Hnd Hc) as Hlen.
    specialize (IH (selected ++ [node_id c]) (record_domains m c used)).
    destruct (decide (S count ≤ length (eligible m excluded selected))) as [Hle|Hgt]; [rewrite decide_True in IH by lia|rewrite decide_False in IH by lia]; done.
  - apply min_by_None in Hc. rewrite Hc. by rewrite decide_False by (simpl; lia).
Qed.

(** A map that has kept the nodes chosen chooses them again. *)
Lemma pick_sub m m' excluded count selected used res :
  failure_domain_levels m' = failure_domain_levels m → NoDup (node_id <$> nodes m) →
  (∀ n, n ∈ nodes m' → n ∈ nodes m) →
  (∀ n, n ∈ nodes m → node_id n ∈ res → node_id n ∉ selected → n ∈ nodes m') →
  pick m excluded count selected used = Ok res → pick m' excluded count selected used = Ok res.
Proof.
  intros Hl Hnd Hsub. revert selected used. induction count as [|count IH]; intros selected used Hkeep; [done|].
  cbn [Placement.pick]. intros (c & Hc%ok_or_Ok & Hrest)%bind_Ok.
  apply min_by_spec in Hc as [Hc Hmin]; [|apply _]. apply elem_of_eligible in Hc as [(Hin & Hst & Hex) Hnew].
  destruct (pick_spec _ _ _ _ _ _ Hrest) as (new & Hres & _).
  assert (node_id c ∈ res) as Hcres by (rewrite Hres, elem_of_app; left; rewrite elem_of_app; right; by left).
  assert (min_by (cmp_by cost m' used) (eligible m' excluded selected) = Some c) as ->.
  { unfold cmp_by. rewrite Hl. change (min_by (cmp_by cost m used) (eligible m' excluded selected) = Some c).
    apply min_by_unique; [apply _| | |].
    - intros a b [(Ha & _) _]%elem_of_eligible [(Hb & _) _]%elem_of_eligible Heq%cmp_by_Eq. apply (same_id m); auto.
    - apply elem_of_eligible. split; [split; [by apply Hkeep|done]|done].
    - intros x [(Hx & ?) ?]%elem_of_eligible. apply Hmin, elem_of_eligible. split; [split; [by apply Hsub|done]|done]. }
  simpl. unfold record_domains. rewrite Hl. apply IH; [|exact Hrest].
  intros n Hn Hnr Hns. apply Hkeep; [done|done|]. intros Hs. apply Hns. rewrite elem_of_app. by left.
Qed.

Lemma pick_perm m m' excluded count selected used :
  failure_domain_levels m' = failure_domain_levels m → NoDup (node_id <$> nodes m) → nodes m' ≡ₚ nodes m →
  pick m' excluded count selected used = pick m excluded count selected used.
Proof.
  intros Hl Hnd Hp. assert (NoDup (node_id <$> nodes m')) as Hnd' by by rewrite Hp.
  pose proof (pick_answers m excluded count selected used Hnd) as Hm.
  pose proof (pick_answers m' excluded count selected used Hnd') as Hm'.
  assert (length (eligible m' excluded selected) = length (eligible m excluded selected)) as Hlen.
  { apply Permutation_length. unfold eligible. by rewrite Hp. }
  rewrite Hlen in Hm'. destruct (decide _) as [_|_]; [|by rewrite Hm, Hm'].
  destruct Hm as [res Hm]. rewrite Hm. apply (pick_sub m); [done|done| | |done].
  - intros n. by rewrite Hp.
  - intros n Hn _ _. by rewrite Hp.
Qed.

(** As long as a node with a new domain is left, the least candidate has one. *)
Lemma least_is_new m level levels ns used c (E : list PlacementMapNode) :
  NoDup (node_id <$> nodes m) → failure_domain_levels m = level :: levels →
  used_at used level = spread level ns → Forall (λ n, n ∈ inside m) ns →
  (∀ n, n ∈ E ↔ n ∈ inside m ∧ node_id n ∉ node_id <$> ns) → (∀ x, x ∈ E → cmp_by cost m used c x ≠ Gt) →
  domain_value c level ∈ spread level ns → spread level (inside m) ⊆ spread level ns.
Proof.
  intros Hnd Hl Hused Hall HE Hmin Hin v (n & Hn & <-)%elem_of_spread.
  destruct (decide (domain_value n level ∈ spread level ns)) as [|Hno]; [done|]. exfalso.
  assert (n ∈ E) as Hel.
  { apply HE. split; [done|]. intros (n' & Heq & Hn')%list_elem_of_fmap. apply Hno, elem_of_spread.
    exists n'. split; [done|]. f_equal. rewrite Forall_forall in Hall. apply elem_of_inside in Hn as [Hn _].
    specialize (Hall n' Hn'). apply elem_of_inside in Hall as [? _]. by apply (same_id m). }
  rewrite <-Hused in Hno, Hin. by apply (cmp_by_new cost m used n c level levels Hl Hno (Hmin n Hel)).
Qed.

Lemma step_diverse m level levels ns used c (E : list PlacementMapNode) :
  NoDup (node_id <$> nodes m) → failure_domain_levels m = level :: levels →
  used_at used level = spread level ns → Forall (λ n, n ∈ inside m) ns →
  (∀ n, n ∈ E ↔ n ∈ inside m ∧ node_id n ∉ node_id <$> ns) → c ∈ E → (∀ x, x ∈ E → cmp_by cost m used c x ≠ Gt) →
  diverse m level ns → diverse m level (ns ++ [c]).
Proof.
  intros Hnd Hl Hused Hall HE Hc Hmin Hd. unfold diverse in *. rewrite spread_snoc, length_app. simpl.
  assert (c ∈ inside m) as Hci by by apply HE in Hc as [? _].
  pose proof (spread_inside m level ns Hall) as Hincl.
  destruct (decide (domain_value c level ∈ spread level ns)) as [Hin|Hnot].
  - assert ({[domain_value c level]} ∪ spread level ns = spread level ns) as -> by set_solver.
    pose proof (least_is_new m level levels ns used c E Hnd Hl Hused Hall HE Hmin Hin) as Hfull.
    apply subseteq_size in Hfull, Hincl. lia.
  - assert ({[domain_value c level]} ∪ spread level ns ⊆ spread level (inside m)) as Hle.
    { apply union_subseteq. split; [|done]. apply singleton_subseteq_l, elem_of_spread. by exists c. }
    apply subseteq_size in Hle. rewrite size_union, size_singleton in * by set_solver. lia.
Qed.

Lemma pick_diverse m level levels count ns used res :
  NoDup (node_id <$> nodes m) → failure_domain_levels m = level :: levels → level ∉ levels →
  used_at used level = spread level ns → Forall (λ n, n ∈ inside m) ns → diverse m level ns →
  pick m ∅ count (node_id <$> ns) used = Ok res →
  ∃ all, res = node_id <$> all ∧ Forall (λ n, n ∈ inside m) all ∧ diverse m level all.
Proof.
  intros Hnd Hl Hnin. revert ns used. induction count as [|count IH]; intros ns used Hused Hall Hd; cbn [Placement.pick].
  { intros [= <-]. by exists ns. }
  intros (c & Hc%ok_or_Ok & Hrest)%bind_Ok. apply min_by_spec in Hc as [Hc Hmin]; [|apply _].
  assert (∀ n, n ∈ eligible m ∅ (node_id <$> ns) ↔ n ∈ inside m ∧ node_id n ∉ node_id <$> ns) as HE.
  { intros n. rewrite elem_of_eligible, elem_of_inside. unfold usable. set_solver. }
  apply (IH (ns ++ [c]) (record_domains m c used)).
  - by rewrite (record_first m level levels), Hused, spread_snoc.
  - apply Forall_app. split; [done|]. constructor; [|done]. by apply HE in Hc as [? _].
  - by apply (step_diverse m level levels ns used c (eligible m ∅ (node_id <$> ns))).
  - rewrite fmap_app. exact Hrest.
Qed.

End Pick.

Lemma levels_distinct l seen : empty_or_repeated seen l = false → NoDup l ∧ ∀ x, x ∈ l → x ∉ seen.
Proof.
  revert seen. induction l as [|x l IH]; intros seen; simpl; [split; [constructor|by intros x []%elem_of_nil]|].
  rewrite !orb_false_iff, !bool_decide_eq_false. intros [[_ Hx] Hl]. apply IH in Hl as [Hnd Hseen]. split.
  - constructor; [|done]. intros Hin. specialize (Hseen x Hin). set_solver.
  - intros y [->|Hy]%elem_of_cons; [done|]. specialize (Hseen y Hy). set_solver.
Qed.

Lemma first_level m level levels :
  sound_map m → failure_domain_levels m = level :: levels → level ∉ levels.
Proof. intros (_ & Hl & _) Heq. apply levels_distinct in Hl as [Hnd _]. rewrite Heq in Hnd. by inversion Hnd. Qed.

Section Promises.
Context `{Blake3} `{Hex}.

(** ** Replicated blocks *)

Lemma same_ids m l l' :
  NoDup (node_id <$> nodes m) → Forall (λ n, n ∈ inside m) l → Forall (λ n, n ∈ inside m) l' →
  node_id <$> l = node_id <$> l' → l = l'.
Proof.
  intros Hnd Hl. revert l'. induction Hl as [|n l Hn _ IH]; intros [|n' l'] Hl' Heq; [done|done|done|].
  apply Forall_cons in Hl' as [Hn' Hl']. injection Heq as Hid Heq. apply elem_of_inside in Hn as [Hn _], Hn' as [Hn' _]. f_equal; [by apply (same_id m)|by apply IH].
Qed.

(** A choice of [count] nodes for the map. *)
Definition chosen_well (m : PlacementMap) (count : N) (chosen : list PlacementMapNode) : Prop :=
  len chosen = count ∧ NoDup (node_id <$> chosen) ∧ Forall (λ n, n ∈ inside m) chosen
  ∧ ∀ level levels, failure_domain_levels m = level :: levels → diverse m level chosen.

Lemma no_domains_used m level : used_at (no_domains m) level = ∅.
Proof.
  unfold used_at, no_domains. induction (failure_domain_levels m) as [|l ls IH]; simpl; [done|].
  destruct (decide (l = level)) as [->|Hne]; [by rewrite lookup_insert_eq|by rewrite lookup_insert_ne].
Qed.

Lemma pick_chosen cost m count used :
  sound_map m → (∀ level, used_at used level = ∅) →
  match pick (cmp_by cost m) m ∅ count [] used with
  | Ok ids => ∃ chosen, ids = node_id <$> chosen ∧ chosen_well m (N.of_nat count) chosen
  | Err e => e = InsufficientEligibleNodes ∧ length (inside m) < count
  end.
Proof.
  intros Hm Hused. pose proof Hm as (_ & _ & _ & Hnd). pose proof (pick_answers cost m ∅ count [] used Hnd) as Hans.
  assert (eligible m ∅ [] = inside m) as Hel.
  { unfold eligible, inside. apply list_filter_iff. intros n. set_solver. }
  rewrite Hel in Hans. destruct (decide (count ≤ length (inside m))) as [Hle|Hgt]; [|rewrite Hans; split; [done|lia]].
  destruct Hans as [ids Hids]. rewrite Hids.
  destruct (pick_spec _ _ _ _ _ _ _ Hids) as (new & -> & Hlen & Hall & Hnd' & _). exists new. simpl. split; [done|].
  assert (Forall (λ n, n ∈ inside m) new) as Hin.
  { eapply Forall_impl; [exact Hall|]. intros n (Hn & Hst & _). by apply elem_of_inside. }
  split_and!; [unfold len; lia|done|done|]. intros level levels Hl.
  destruct (pick_diverse cost m level levels count [] used (node_id <$> new)) as (all & Heq & Hall' & Hd);
    [done|done|by apply (first_level m)|by rewrite Hused|constructor|done|done|].
  by rewrite (same_ids m new all).
Qed.

Lemma string_set_iter_empty : string_set_iter (list_to_set []) = [].
Proof. reflexivity. Qed.

(** C36: a replicated block is placed on as many distinct nodes of the map as asked
    for, using as many failure domains of the first level as there are, and the
    only failure of a valid request is that the map has too few nodes. *)
Theorem replicated_placement m r :
  PlacementMap_validate m = Ok () → check_reference r = Ok () → epoch r = map_epoch m → role r = Replicated →
  match select_authoritative m r with
  | Ok d => decided_reference d = r ∧ ∃ chosen, node_ids d = node_id <$> chosen ∧ chosen_well m (replicas r) chosen
  | Err e => e = InsufficientEligibleNodes ∧ (len (inside m) < replicas r)%N
  end.
Proof.
  intros Hm Hr He Hrole. unfold select_authoritative. rewrite Hm, Hr, He, N.eqb_refl, Hrole. simpl.
  unfold select_distinct_nodes. rewrite string_set_iter_empty. simpl. apply PlacementMap_validate_iff in Hm.
  pose proof (pick_chosen (weighted_cost r) m (N.to_nat (replicas r)) (no_domains m) Hm (no_domains_used m)) as Hpick.
  fold (compare_candidate m r) in Hpick. change (cmp_by (weighted_cost r) m) with (compare_candidate m r) in Hpick.
  destruct (pick (compare_candidate m r) m ∅ (N.to_nat (replicas r)) [] (no_domains m)) as [ids|e]; simpl.
  - destruct Hpick as (chosen & -> & Hc). split; [done|]. exists chosen. by rewrite N2Nat.id in Hc.
  - destruct Hpick as [-> Hlt]. split; [done|]. unfold len. lia.
Qed.

(** ** Erasure shards *)

(** The nodes of the shards before the [k]-th. *)
Fixpoint shards (m : PlacementMap) (r : PlacementReference) (k : nat) : result AuthoritativePlacementError (list string) :=
  match k with
  | O => Ok []
  | S k =>
      prior ← shards m r k;
      selected ← select_distinct_nodes m (with_index r (N.of_nat k)) prior 1;
      Ok (prior ++ selected)
  end.

Lemma select_shard_spec m r rounds k prior :
  shards m r k = Ok prior →
  select_shard m r rounds (N.of_nat k) prior
  = (prior ← shards m r (k + rounds); select_distinct_nodes m (with_index r (N.of_nat (k + rounds))) prior 1).
Proof.
  revert k prior. induction rounds as [|rounds IH]; intros k prior Hk; simpl.
  - rewrite Nat.add_0_r, Hk. simpl. by destruct (select_distinct_nodes _ _ _ _).
  - destruct (select_distinct_nodes m (with_index r (N.of_nat k)) prior 1) as [sel|e] eqn:Hsel; simpl.
    + replace (N.of_nat k + 1)%N with (N.of_nat (S k)) by lia. rewrite <-Nat.add_succ_comm. apply IH. simpl. rewrite Hk. simpl. by rewrite Hsel.
    + assert (∀ n, shards m r (S k + n) = Err e) as Herr.
      { induction n as [|n IHn]; [rewrite Nat.add_0_r; simpl; rewrite Hk; simpl; by rewrite Hsel|].
        rewrite Nat.add_succ_r. simpl in *. by rewrite IHn. }
      rewrite <-Nat.add_succ_comm, Herr. done.
Qed.

Lemma elem_of_string_set_iter x s : s ∈ string_set_iter x ↔ s ∈ x.
Proof.
  unfold string_set_iter. rewrite list_elem_of_fmap. split.
  - intros ([k []] & -> & Hk). unfold btree_iter in Hk. rewrite merge_sort_Permutation, elem_of_map_to_list in Hk.
    by apply lookup_gset_to_gmap_Some in Hk as [? _].
  - intros Hs. exists (s, ()). split; [done|]. unfold btree_iter. rewrite merge_sort_Permutation, elem_of_map_to_list.
    by apply lookup_gset_to_gmap_Some.
Qed.

Lemma find_node m n :
  NoDup (node_id <$> nodes m) → n ∈ nodes m → find (λ x, bool_decide (node_id x = node_id n)) (nodes m) = Some n.
Proof.
  intros Hnd Hn. destruct (find _ (nodes m)) as [x|] eqn:Hf.
  - apply find_some in Hf as [Hx%list_elem_of_In Heq%bool_decide_eq_true]. f_equal. by apply (same_id m).
  - apply list_elem_of_In in Hn. specialize (find_none _ _ Hf n Hn) as Hno. simpl in Hno. by rewrite bool_decide_true in Hno.
Qed.

(** The domains recorded for a list of node ids. *)
Lemma record_ids m level levels ids used v :
  NoDup (node_id <$> nodes m) → failure_domain_levels m = level :: levels → level ∉ levels →
  v ∈ used_at (foldl (record_id m) used ids) level
  ↔ v ∈ used_at used level ∨ ∃ n, n ∈ nodes m ∧ node_id n ∈ ids ∧ domain_value n level = v.
Proof.
  intros Hnd Hl Hnin. revert used. induction ids as [|id ids IH]; intros used; simpl.
  { split; [by left|]. intros [?|(n & _ & []%elem_of_nil & _)]. done. }
  rewrite IH. unfold record_id. destruct (find (λ n, bool_decide (node_id n = id)) (nodes m)) as [x|] eqn:Hf.
  - apply find_some in Hf as [Hx%list_elem_of_In Heq%bool_decide_eq_true]. subst id.
    rewrite (record_first m level levels), elem_of_union, elem_of_singleton by done. split.
    + intros [[->|?]|(n & ? & ? & ?)]; [right; exists x|by left|right; exists n]; set_solver.
    + intros [?|(n & Hn & [Heq|Hin]%elem_of_cons & Hv)]; [by left; right| |right; by exists n].
      left. left. assert (n = x) as -> by (by apply (same_id m)). done.
  - split; [intros [?|(n & ? & ? & ?)]; [by left|right; exists n; set_solver]|].
    intros [?|(n & Hn & [Heq|Hin]%elem_of_cons & Hv)]; [by left| |right; by exists n].
    subst id. by rewrite (find_node m n) in Hf.
Qed.

Lemma prior_domains m level levels prior :
  sound_map m → failure_domain_levels m = level :: levels → Forall (λ n, n ∈ inside m) prior →
  used_at (foldl (record_id m) (no_domains m) (string_set_iter (list_to_set (node_id <$> prior)))) level = spread level prior.
Proof.
  intros Hm Hl Hin. pose proof Hm as (_ & _ & _ & Hnd). pose proof (first_level m level levels Hm Hl) as Hnin.
  apply set_eq. intros v. rewrite (record_ids m level levels) by done. rewrite no_domains_used, elem_of_spread.
  rewrite Forall_forall in Hin. split.
  - intros [[]%elem_of_empty|(n & Hn & Hid & Hv)].
    apply elem_of_string_set_iter, elem_of_list_to_set, list_elem_of_fmap in Hid as (n' & Heq & Hn').
    exists n'. split; [done|]. rewrite <-Hv. f_equal. apply (same_id m); [done| |done|done]. by apply Hin, elem_of_inside in Hn' as [? _].
  - intros (n & Hn & Hv). right. exists n. split_and!; [by apply Hin, elem_of_inside in Hn as [? _]| |done].
    apply elem_of_string_set_iter, elem_of_list_to_set, list_elem_of_fmap. by exists n.
Qed.

(** One shard: a node the earlier ones do not have, of a new domain if there is one. *)
Lemma select_one m r (prior : list PlacementMapNode) :
  sound_map m → chosen_well m (len prior) prior →
  match select_distinct_nodes m r (node_id <$> prior) 1 with
  | Ok ids => ∃ c, ids = [node_id c] ∧ chosen_well m (len prior + 1) (prior ++ [c])
  | Err e => e = InsufficientEligibleNodes ∧ length (inside m) ≤ length prior
  end.
Proof.
  intros Hm (Hlen & Hnd' & Hin & Hdiv). pose proof Hm as (_ & _ & _ & Hnd). unfold select_distinct_nodes.
  set (used := foldl _ _ _). change (N.to_nat 1) with 1. cbn [pick].
  assert (∀ n, n ∈ eligible m (list_to_set (node_id <$> prior)) [] ↔ n ∈ inside m ∧ node_id n ∉ node_id <$> prior) as HE.
  { intros n. rewrite elem_of_eligible, elem_of_inside. unfold usable. rewrite elem_of_list_to_set. split; [tauto|].
    intros [[? ?] ?]. split; [done|]. by intros []%elem_of_nil. }
  destruct (min_by _ _) as [c|] eqn:Hc; simpl.
  - apply min_by_spec in Hc as [Hc Hmin]; [|apply _]. exists c. split; [done|].
    pose proof Hc as [Hci Hcn]%HE. split_and!.
    + by rewrite len_app, len_cons, len_nil.
    + rewrite fmap_app. apply NoDup_app. split_and!; [done| |apply NoDup_singleton].
      intros x Hx Hx'. apply list_elem_of_singleton in Hx'. by subst x.
    + apply Forall_app. split; [done|by constructor].
    + intros level levels Hl. apply (step_diverse (weighted_cost r) m level levels prior used c
        (eligible m (list_to_set (node_id <$> prior)) [])); try done; [|by eapply Hdiv].
      by apply (prior_domains m level levels).
  - apply min_by_None in Hc. split; [done|]. rewrite <-(length_fmap node_id (inside m)), <-(length_fmap node_id prior).
    apply submseteq_length, NoDup_submseteq.
    + eapply sublist_NoDup; [exact Hnd|]. apply fmap_sublist, sublist_filter.
    + intros x (n & -> & Hn)%list_elem_of_fmap. destruct (decide (node_id n ∈ node_id <$> prior)) as [|Hno]; [done|].
      assert (n ∈ eligible m (list_to_set (node_id <$> prior)) []) as Hel by by apply HE. rewrite Hc in Hel. by apply elem_of_nil in Hel.
Qed.

Lemma chosen_none m : chosen_well m 0 [].
Proof. split_and!; [done|constructor|constructor|done]. Qed.

Lemma shards_spec m r k :
  sound_map m →
  match shards m r k with
  | Ok ids => ∃ chosen, ids = node_id <$> chosen ∧ chosen_well m (N.of_nat k) chosen
  | Err e => e = InsufficientEligibleNodes ∧ length (inside m) < k
  end.
Proof.
  intros Hm. induction k as [|k IH]; simpl; [exists []; split; [done|apply chosen_none]|].
  destruct (shards m r k) as [ids|e]; simpl; [|destruct IH as [-> ?]; split; [done|lia]].
  destruct IH as (prior & -> & Hw). pose proof Hw as (Hlen & _). rewrite <-Hlen in Hw.
  pose proof (select_one m (with_index r (N.of_nat k)) prior Hm Hw) as Hone.
  destruct (select_distinct_nodes _ _ _ _) as [ids|e]; simpl.
  - destruct Hone as (c & -> & Hc). exists (prior ++ [c]). rewrite fmap_app. split; [done|].
    by replace (N.of_nat (S k)) with (len prior + 1)%N by lia.
  - destruct Hone as [-> Hle]. split; [done|]. unfold len in Hlen. lia.
Qed.

Lemma shards_prefix m r k j ids : shards m r k = Ok ids → j ≤ k → sound_map m → shards m r j = Ok (take j ids).
Proof.
  intros Hk Hj Hm. revert ids Hk. induction Hj as [|k Hj IH]; intros ids Hk.
  - pose proof (shards_spec m r j Hm) as Hs. rewrite Hk in Hs. destruct Hs as (chosen & -> & (Hlen & _)).
    rewrite take_ge; [done|]. rewrite length_fmap. unfold len in Hlen. lia.
  - simpl in Hk. apply bind_Ok in Hk as (prior & Hprior & Hk). apply bind_Ok in Hk as (sel & _ & [= <-]).
    rewrite (IH _ Hprior). f_equal. pose proof (shards_spec m r k Hm) as Hs. rewrite Hprior in Hs.
    destruct Hs as (chosen & -> & (Hlen & _)). rewrite take_app_le; [done|]. rewrite length_fmap. unfold len in Hlen. lia.
Qed.

Lemma chosen_bound m n chosen : sound_map m → chosen_well m n chosen → length chosen ≤ length (inside m).
Proof.
  intros Hm (_ & Hnd & Hin & _). rewrite <-(length_fmap node_id chosen), <-(length_fmap node_id (inside m)).
  apply submseteq_length, NoDup_submseteq; [done|]. intros x (y & -> & Hy)%list_elem_of_fmap.
  rewrite Forall_forall in Hin. by apply list_elem_of_fmap_2, Hin.
Qed.

Lemma select_indexed m r i :
  PlacementMap_validate m = Ok () → check_reference r = Ok () → epoch r = map_epoch m → role r = ErasureShardRole →
  select_authoritative m (with_index r (N.of_nat i))
  = (ids ← (prior ← shards m r i; select_distinct_nodes m (with_index r (N.of_nat i)) prior 1);
     Ok (mkDecision (with_index r (N.of_nat i)) ids)).
Proof.
  intros Hm Hr He Hrole. assert (check_reference (with_index r (N.of_nat i)) = Ok ()) as Hri.
  { unfold check_reference, PlacementReference_validate in *. simpl. by rewrite Hrole in *. }
  unfold select_authoritative. rewrite Hm, Hri. simpl. rewrite He, N.eqb_refl, Hrole. simpl. rewrite Nat2N.id.
  change 0%N with (N.of_nat 0). rewrite (select_shard_spec m (with_index r (N.of_nat i)) i 0 [] eq_refl). simpl.
  assert (∀ k, shards m (with_index r (N.of_nat i)) k = shards m r k) as ->; [|done].
  induction k as [|k IHk]; [done|]. simpl. by rewrite IHk.
Qed.

(** The shards of a stripe are placed along one sequence of all nodes of the
    map: shard [i] goes to the [i]-th, so no two shards share a node, the first
    shards use as many failure domains as there are, and only a shard beyond the
    number of nodes is refused. *)
Theorem stripe_placement m r :
  PlacementMap_validate m = Ok () → check_reference r = Ok () → epoch r = map_epoch m → role r = ErasureShardRole →
  ∃ order, length order = length (inside m)
    ∧ (∀ k, k ≤ length order → chosen_well m (N.of_nat k) (take k order))
    ∧ ∀ i, select_authoritative m (with_index r (N.of_nat i))
           = match order !! i with
             | Some c => Ok (mkDecision (with_index r (N.of_nat i)) [node_id c])
             | None => Err InsufficientEligibleNodes
             end.
Proof.
  intros Hm Hr He Hrole. pose proof (λ i, select_indexed m r i Hm Hr He Hrole) as Hsel.
  apply PlacementMap_validate_iff in Hm. pose proof (shards_spec m r (length (inside m)) Hm) as Hall.
  destruct (shards m r (length (inside m))) as [ids|e] eqn:Hids; [|destruct Hall; lia].
  destruct Hall as (order & -> & Hw). pose proof Hw as (Hlen & _). exists order.
  assert (length order = length (inside m)) as Hl by (unfold len in Hlen; lia). split; [done|].
  assert (∀ k, k ≤ length order → ∃ chosen, take k (node_id <$> order) = node_id <$> chosen ∧ chosen_well m (N.of_nat k) chosen) as Hpre.
  { intros k Hk. pose proof (shards_spec m r k Hm) as Hs. rewrite (shards_prefix m r _ k _ Hids) in Hs by (done || lia). done. }
  split.
  - intros k Hk. destruct (Hpre k Hk) as (chosen & Heq & Hwk). rewrite <-fmap_take in Heq.
    apply (same_ids m) in Heq as ->; [done|by destruct Hm as (_ & _ & _ & ?)|by apply Forall_take; destruct Hw as (_ & _ & ? & _)|by destruct Hwk as (_ & _ & ? & _)].
  - intros i. rewrite Hsel. destruct (order !! i) as [c|] eqn:Hi.
    + apply lookup_lt_Some in Hi as Hlt. pose proof (shards_prefix m r _ (S i) _ Hids ltac:(lia) Hm) as HS.
      pose proof (shards_prefix m r _ i _ Hids ltac:(lia) Hm) as Hp. simpl in HS. rewrite Hp in *. simpl in *.
      apply bind_Ok in HS as (sel & -> & [= Heq]). simpl. f_equal. f_equal.
      rewrite (take_S_r _ i (node_id c)) in Heq by by rewrite list_lookup_fmap, Hi. by apply app_inv_head in Heq.
    + apply lookup_ge_None in Hi. pose proof (shards_spec m r (S i) Hm) as HS. simpl in HS.
      destruct (shards m r i) as [prior|e]; simpl in *; [|by destruct HS as [-> _]].
      destruct (select_distinct_nodes _ _ _ _) as [sel|e]; simpl in *; [|by destruct HS as [-> _]].
      destruct HS as (chosen & _ & Hc). pose proof (chosen_bound m _ chosen Hm Hc). destruct Hc as (Hcl & _). unfold len in Hcl. lia.
Qed.

(** ** Changing the map *)

(** The same nodes in another order. *)
Definition reordered (m m' : PlacementMap) : Prop :=
  nodes m' ≡ₚ nodes m ∧ failure_domain_levels m' = failure_domain_levels m ∧ map_epoch m' = map_epoch m.

(** A map that keeps the nodes with these ids and has no others than [m]. *)
Definition shrunk (m m' : PlacementMap) (kept : list string) : Prop :=
  (∀ n, n ∈ nodes m' → n ∈ nodes m) ∧ (∀ n, n ∈ nodes m → node_id n ∈ kept → n ∈ nodes m')
  ∧ failure_domain_levels m' = failure_domain_levels m ∧ map_epoch m' = map_epoch m.

Lemma record_id_kept m m' kept used id :
  NoDup (node_id <$> nodes m) → NoDup (node_id <$> nodes m') → shrunk m m' kept → id ∈ kept →
  record_id m' used id = record_id m used id.
Proof.
  intros Hnd Hnd' (Hsub & Hkeep & Hl & _) Hid. unfold record_id, record_domains. rewrite Hl.
  destruct (find (λ n, bool_decide (node_id n = id)) (nodes m)) as [n|] eqn:Hf.
  - apply find_some in Hf as [Hn%list_elem_of_In Heq%bool_decide_eq_true]. subst id. rewrite (find_node m'); auto.
  - destruct (find (λ n, bool_decide (node_id n = id)) (nodes m')) as [n|] eqn:Hf'; [|done]. exfalso.
    apply find_some in Hf' as [Hn%list_elem_of_In Heq%bool_decide_eq_true]. subst id.
    rewrite (find_node m n) in Hf; auto. done.
Qed.

Lemma record_ids_kept m m' kept used ids :
  NoDup (node_id <$> nodes m) → NoDup (node_id <$> nodes m') → shrunk m m' kept → (∀ id, id ∈ ids → id ∈ kept) →
  foldl (record_id m') used ids = foldl (record_id m) used ids.
Proof.
  intros Hnd Hnd' Hs. revert used. induction ids as [|id ids IH]; intros used Hids; [done|]. simpl.
  rewrite (record_id_kept m m' kept); [|done|done|done|apply Hids; by left]. apply IH. intros id' Hid'. apply Hids. by right.
Qed.

Lemma no_domains_levels m m' : failure_domain_levels m' = failure_domain_levels m → no_domains m' = no_domains m.
Proof. intros Hl. unfold no_domains. by rewrite Hl. Qed.

Lemma select_distinct_kept m m' r prior count ids :
  sound_map m → sound_map m' → shrunk m m' (prior ++ ids) →
  select_distinct_nodes m r prior count = Ok ids → select_distinct_nodes m' r prior count = Ok ids.
Proof.
  intros (_ & _ & _ & Hnd) (_ & _ & _ & Hnd') Hs. unfold select_distinct_nodes.
  rewrite (no_domains_levels m m') by apply Hs.
  rewrite (record_ids_kept m m' (prior ++ ids)); [|done|done|done|].
  - destruct Hs as (Hsub & Hkeep & Hl & _). apply pick_sub; [done|done|done|].
    intros n Hn Hid _. apply Hkeep; [done|]. rewrite elem_of_app. by right.
  - intros id Hid. apply elem_of_string_set_iter, elem_of_list_to_set in Hid. rewrite elem_of_app. by left.
Qed.

Lemma shards_kept m m' r k ids :
  sound_map m → sound_map m' → shrunk m m' ids → shards m r k = Ok ids → shards m' r k = Ok ids.
Proof.
  intros Hm Hm'. revert ids. induction k as [|k IH]; intros ids Hs; simpl; [done|].
  intros (prior & Hprior & (sel & Hsel & [= <-])%bind_Ok)%bind_Ok. rewrite (IH prior); [|clear Hsel|done].
  - simpl. by rewrite (select_distinct_kept m m' _ prior 1 sel).
  - destruct Hs as (Hsub & Hkeep & Hl & He). split_and!; [done| |done|done]. intros n Hn Hid. apply Hkeep; [done|].
    rewrite elem_of_app. by left.
Qed.

Lemma shrunk_weaken m m' kept ids : shrunk m m' kept → (∀ id, id ∈ ids → id ∈ kept) → shrunk m m' ids.
Proof. intros (? & Hkeep & ? & ?) Hids. split_and!; auto. Qed.

Lemma prior_decided m r i prior id :
  PlacementMap_validate m = Ok () → check_reference r = Ok () → epoch r = map_epoch m → role r = ErasureShardRole →
  shards m r i = Ok prior → id ∈ prior →
  ∃ j d, j < i ∧ select_authoritative m (with_index r (N.of_nat j)) = Ok d ∧ id ∈ node_ids d.
Proof.
  intros Hm Hr He Hrole. revert prior. induction i as [|i IH]; intros prior; simpl.
  { intros [= <-] []%elem_of_nil. }
  intros (before & Hb & (sel & Hsel & [= <-])%bind_Ok)%bind_Ok [Hid|Hid]%elem_of_app.
  - destruct (IH before Hb Hid) as (j & d & ? & ?). exists j, d. split; [lia|done].
  - exists i, (mkDecision (with_index r (N.of_nat i)) sel). split; [lia|]. split; [|done].
    rewrite select_indexed by done. rewrite Hb. simpl. by rewrite Hsel.
Qed.

Lemma with_index_id r : with_index r (index r) = r.
Proof. by destruct r. Qed.

(** A node that leaves the map moves a block only if it holds it: as long as
    the nodes chosen for it, and for the shards of its stripe before it, are kept,
    the choice is the same.  Read backwards, a node that joins is the only one to
    which blocks move. *)
Theorem placement_stable m m' r d kept :
  PlacementMap_validate m = Ok () → PlacementMap_validate m' = Ok () → shrunk m m' kept →
  (∀ j dj, (j ≤ index r)%N → select_authoritative m (with_index r j) = Ok dj → ∀ id, id ∈ node_ids dj → id ∈ kept) →
  select_authoritative m r = Ok d → select_authoritative m' r = Ok d.
Proof.
  intros Hm Hm' Hs Hkept Hd. pose proof (Hkept (index r) d ltac:(lia)) as Hown. rewrite with_index_id in Hown. specialize (Hown Hd).
  pose proof Hm as Hsm%PlacementMap_validate_iff. pose proof Hm' as Hsm'%PlacementMap_validate_iff.
  pose proof Hs as (_ & _ & _ & Hep). unfold select_authoritative in Hd. rewrite Hm in Hd. simpl in Hd.
  apply bind_Ok in Hd as ([] & Hr & Hd). apply bind_Ok in Hd as ([] & He%fail_if_Ok & Hd).
  apply bind_Ok in Hd as (ids & Hids & [= <-]). simpl in Hown.
  unfold select_authoritative. rewrite Hm', Hr. simpl. rewrite Hep, He. simpl.
  apply negb_false_iff, N.eqb_eq in He. destruct (role r) eqn:Hrole.
  - rewrite (select_distinct_kept m m' r [] (replicas r) ids); [done|done|done| |done]. by apply (shrunk_weaken m m' kept).
  - pose proof (select_shard_spec m r (N.to_nat (index r)) 0 [] eq_refl) as Hspec.
    pose proof (select_shard_spec m' r (N.to_nat (index r)) 0 [] eq_refl) as Hspec'. simpl in Hspec, Hspec'.
    change (N.of_nat 0) with 0%N in *. rewrite Hspec in Hids. rewrite Hspec'. apply bind_Ok in Hids as (prior & Hprior & Hids).
    assert (∀ id, id ∈ prior → id ∈ kept) as Hpk.
    { intros id Hid. destruct (prior_decided m r _ prior id Hm Hr He Hrole Hprior Hid) as (j & dj & Hj & Hdj & Hidj).
      eapply (Hkept (N.of_nat j)); [lia|done|done]. }
    rewrite (shards_kept m m' r _ prior); [|done|done|by apply (shrunk_weaken m m' kept)|done]. simpl.
    rewrite (select_distinct_kept m m' _ prior 1 ids); [done|done|done| |done]. apply (shrunk_weaken m m' kept); [done|].
    intros id [?|?]%elem_of_app; auto.
Qed.

Lemma reordered_sound m m' : reordered m m' → sound_map m → sound_map m'.
Proof. intros (Hp & Hl & He) (? & ? & Hall & Hnd). unfold sound_map. by rewrite Hl, He, Hp. Qed.

Lemma reordered_shrunk m m' kept : reordered m m' → shrunk m m' kept.
Proof. intros (Hp & Hl & He). split_and!; [intros n; by rewrite Hp|intros n Hn _; by rewrite Hp|done|done]. Qed.

Lemma select_distinct_reordered m m' r prior count :
  reordered m m' → sound_map m → select_distinct_nodes m' r prior count = select_distinct_nodes m r prior count.
Proof.
  intros Hre Hm. pose proof (reordered_sound m m' Hre Hm) as Hm'. pose proof (reordered_shrunk m m' prior Hre) as Hs.
  destruct Hm as (_ & _ & _ & Hnd), Hm' as (_ & _ & _ & Hnd'), Hre as (Hp & Hl & _). unfold select_distinct_nodes.
  rewrite (no_domains_levels m m' Hl), (record_ids_kept m m' prior _ _ Hnd Hnd' Hs); [by apply pick_perm|].
  intros id Hid. by apply elem_of_string_set_iter, elem_of_list_to_set in Hid.
Qed.

Lemma select_shard_reordered m m' r rounds i prior :
  reordered m m' → sound_map m → select_shard m' r rounds i prior = select_shard m r rounds i prior.
Proof.
  intros Hre Hm. revert i prior. induction rounds as [|rounds IH]; intros i prior; simpl;
    rewrite (select_distinct_reordered m m') by done; [done|].
  destruct (select_distinct_nodes _ _ _ _); simpl; [apply IH|done].
Qed.

Lemma least_reordered cost m m' used excluded :
  reordered m m' → sound_map m →
  min_by (cmp_by cost m' used) (eligible m' excluded []) = min_by (cmp_by cost m used) (eligible m excluded []).
Proof.
  intros (Hp & Hl & _) (_ & _ & _ & Hnd). unfold cmp_by at 1. rewrite Hl. fold (cmp_by cost m used).
  change (min_by (cmp_by cost m used) (eligible m' excluded []) = min_by (cmp_by cost m used) (eligible m excluded [])).
  assert (∀ n, n ∈ eligible m' excluded [] ↔ n ∈ eligible m excluded []) as Hel.
  { intros n. unfold eligible. by rewrite Hp. }
  destruct (min_by _ (eligible m excluded [])) as [c|] eqn:Hc.
  - apply min_by_spec in Hc as [Hc Hmin]; [|apply _]. apply min_by_unique; [apply _| |by apply Hel|].
    + intros a b Ha%Hel%elem_of_eligible Hb%Hel%elem_of_eligible Heq%cmp_by_Eq. destruct Ha as [(? & _) _], Hb as [(? & _) _].
      by apply (same_id m).
    + intros x Hx%Hel. by apply Hmin.
  - apply min_by_None in Hc. apply min_by_None. destruct (eligible m' excluded []) as [|n l]; [done|].
    exfalso. rewrite Hc in Hel. apply (elem_of_nil n), Hel. by left.
Qed.

(** Selections depend on the nodes of the map, not on the order in which it
    lists them: placements, repair owners and replacements are the same. *)
Theorem placement_order_independent m m' r excluded limit :
  PlacementMap_validate m = Ok () → reordered m m' →
  select_authoritative m' r = select_authoritative m r
  ∧ select_repair_owners m' r limit = select_repair_owners m r limit
  ∧ select_repair_replacement m' r excluded = select_repair_replacement m r excluded.
Proof.
  intros Hm Hre. pose proof Hm as Hsm%PlacementMap_validate_iff. pose proof (reordered_sound m m' Hre Hsm) as Hsm'.
  pose proof Hsm' as Hm'%PlacementMap_validate_iff. pose proof Hre as (Hp & Hl & He). split_and!.
  - unfold select_authoritative. rewrite Hm, Hm', He. simpl.
    rewrite (select_distinct_reordered m m'), (select_shard_reordered m m') by done. done.
  - unfold select_repair_owners. rewrite Hm, Hm', (no_domains_levels m m' Hl). simpl.
    assert (len (filter (λ n, node_state n = In) (nodes m')) = len (filter (λ n, node_state n = In) (nodes m))) as ->.
    { unfold len. by rewrite Hp. }
    destruct Hsm as (_ & _ & _ & Hnd). unfold compare_repair_candidate. by rewrite (pick_perm _ m m').
  - unfold select_repair_replacement. rewrite Hm, Hm', (no_domains_levels m m' Hl). simpl.
    destruct Hsm as (? & ? & ? & Hnd), Hsm' as (_ & _ & _ & Hnd').
    rewrite (record_ids_kept m m' excluded); [|done|done|by apply reordered_shrunk|].
    + unfold compare_repair_candidate. by rewrite (least_reordered _ m m').
    + intros id Hid. by apply elem_of_string_set_iter, elem_of_list_to_set in Hid.
Qed.

(** ** Replicas of a namespace *)

Definition domains_of (ns : list ConsensusPlacementNode) : gset string := list_to_set (consensus_domain <$> ns).

Lemma domains_snoc ns n : domains_of (ns ++ [n]) = {[consensus_domain n]} ∪ domains_of ns.
Proof. unfold domains_of. rewrite fmap_app, list_to_set_app_L. simpl. set_solver. Qed.

(** The first pass takes one node of each domain until it has enough. *)
Lemma pick_domains_spec count candidates selected :
  length selected < count → size (domains_of selected) = length selected →
  ∃ new, pick_domains count candidates selected (domains_of selected) = selected ++ new
    ∧ new `sublist_of` candidates ∧ size (domains_of (selected ++ new)) = length (selected ++ new)
    ∧ length (selected ++ new) ≤ count
    ∧ (length (selected ++ new) < count → domains_of (selected ++ candidates) ⊆ domains_of (selected ++ new)).
Proof.
  revert selected. induction candidates as [|n candidates IH]; intros selected Hlen Hsize; cbn [pick_domains].
  { exists []. rewrite app_nil_r. split_and!; [done|done|done|lia|done]. }
  destruct (decide (consensus_domain n ∈ domains_of selected)) as [Hin|Hnin].
  - rewrite decide_False by lia. destruct (IH selected Hlen Hsize) as (new & -> & Hsub & Hs & Hl & Hall).
    exists new. split_and!; [done|by apply sublist_cons|done|done|]. intros Hlt. etransitivity; [|by apply Hall].
    unfold domains_of in *. rewrite fmap_app in *. simpl. set_solver.
  - assert (size (domains_of (selected ++ [n])) = length (selected ++ [n])) as Hsize'.
    { rewrite domains_snoc, size_union, size_singleton, length_app by set_solver. simpl. lia. }
    rewrite <-domains_snoc. destruct (decide (length (selected ++ [n]) = count)) as [Heq|Hne].
    + exists [n]. split_and!; [done|apply sublist_skip, sublist_nil_l|done|lia|lia].
    + destruct (IH (selected ++ [n])) as (new & -> & Hsub & Hs & Hl & Hall); [rewrite length_app in *; simpl in *; lia|done|].
      exists (n :: new). rewrite <-!app_assoc in *. simpl in *. split_and!; [done|by apply sublist_skip|done|done|done].
Qed.

Lemma filter_ext_in {A} (P Q : A → Prop) `{!∀ x, Decision (P x), !∀ x, Decision (Q x)} (l : list A) :
  (∀ x, x ∈ l → P x ↔ Q x) → filter P l = filter Q l.
Proof.
  induction l as [|x l IH]; intros Hl; [done|]. rewrite !filter_cons, IH by (intros y Hy; apply Hl; by right).
  specialize (Hl x ltac:(by left)). destruct (decide (P x)), (decide (Q x)); tauto.
Qed.

(** The second pass fills up with the others. *)
Lemma pick_rest_spec count candidates selected :
  length selected < count → NoDup (cn_node_id <$> candidates) →
  count ≤ length selected + length (filter (λ n, cn_node_id n ∉ cn_node_id <$> selected) candidates) →
  ∃ new, pick_rest count candidates selected = selected ++ new ∧ length (selected ++ new) = count
    ∧ new `sublist_of` candidates ∧ NoDup (cn_node_id <$> new) ∧ ∀ n, n ∈ new → cn_node_id n ∉ cn_node_id <$> selected.
Proof.
  revert selected. induction candidates as [|n candidates IH]; intros selected Hlen Hnd Hcount; cbn [pick_rest].
  { simpl in Hcount. lia. }
  rewrite fmap_cons, NoDup_cons in Hnd. destruct Hnd as [Hn Hnd].
  assert (existsb (λ s, bool_decide (cn_node_id s = cn_node_id n)) selected = bool_decide (cn_node_id n ∈ cn_node_id <$> selected)) as ->.
  { apply eq_true_iff_eq. rewrite bool_decide_eq_true, existsb_exists, list_elem_of_fmap. split.
    - intros (x & Hx%list_elem_of_In & Heq%bool_decide_eq_true). by exists x.
    - intros (x & Heq & Hx). exists x. rewrite <-list_elem_of_In. split; [done|]. by apply bool_decide_eq_true. }
  case_bool_decide as Hin.
  - rewrite decide_False by lia. rewrite filter_cons_False in Hcount by tauto.
    destruct (IH selected Hlen Hnd Hcount) as (new & -> & ? & ? & ? & ?). exists new. split_and!; [done|done|by apply sublist_cons|done|done].
  - rewrite filter_cons_True in Hcount by done. simpl in Hcount.
    destruct (decide (length (selected ++ [n]) = count)) as [Heq|Hne].
    + exists [n]. split_and!; [done|done|apply sublist_skip, sublist_nil_l|apply NoDup_singleton|]. by intros x ->%list_elem_of_singleton.
    + assert (filter (λ x, cn_node_id x ∉ cn_node_id <$> selected ++ [n]) candidates
        = filter (λ x, cn_node_id x ∉ cn_node_id <$> selected) candidates) as Hf.
      { apply filter_ext_in. intros x Hx. rewrite fmap_app, not_elem_of_app. cbn [fmap list_fmap]. rewrite list_elem_of_singleton. split; [tauto|].
        intros Hs. split; [done|]. intros Heq. apply Hn. rewrite <-Heq. by apply list_elem_of_fmap_2. }
      destruct (IH (selected ++ [n])) as (new & -> & Hl & Hsub & Hnd' & Hnew);
        [rewrite length_app in *; simpl in *; lia|done|rewrite Hf, length_app; simpl; lia|].
      assert (∀ x, x ∈ new → cn_node_id x ∉ cn_node_id <$> selected ∧ cn_node_id x ≠ cn_node_id n) as Hnew'.
      { intros x Hx. specialize (Hnew x Hx). rewrite fmap_app, not_elem_of_app in Hnew. cbn [fmap list_fmap] in Hnew.
        rewrite list_elem_of_singleton in Hnew. tauto. }
      exists (n :: new). rewrite <-!app_assoc in *. simpl in *. split_and!; [done|done|by apply sublist_skip| |].
      * constructor; [|done]. intros (x & Heq & Hx)%list_elem_of_fmap. by destruct (Hnew' x Hx) as [_ ?].
      * intros x [->|Hx]%elem_of_cons; [done|]. by apply Hnew'.
Qed.

Lemma filter_out (l l' : list ConsensusPlacementNode) :
  l' `sublist_of` l → NoDup (cn_node_id <$> l) →
  length l' + length (filter (λ n, cn_node_id n ∉ cn_node_id <$> l') l) = length l.
Proof.
  intros Hsub. induction Hsub as [|x l' l Hsub IH|x l' l Hsub IH]; [done| |]; rewrite fmap_cons, NoDup_cons; intros [Hx Hnd].
  - rewrite filter_cons_False by (rewrite fmap_cons; set_solver). simpl. rewrite <-IH by done. do 2 f_equal.
    f_equal. apply filter_ext_in. intros y Hy. rewrite not_elem_of_cons. split; [tauto|]. intros Hy'. split; [|done].
    intros Heq. apply Hx. rewrite <-Heq. by apply list_elem_of_fmap_2.
  - assert (cn_node_id x ∉ cn_node_id <$> l') as Hx'.
    { intros (y & Heq & Hy)%list_elem_of_fmap. apply Hx. rewrite Heq. apply list_elem_of_fmap_2. by eapply elem_of_sublist. }
    rewrite filter_cons_True by done. simpl. specialize (IH Hnd). lia.
Qed.

Lemma domains_mono l l' : (∀ n, n ∈ l → n ∈ l') → domains_of l ⊆ domains_of l'.
Proof.
  intros Hl v. unfold domains_of. rewrite !elem_of_list_to_set, !list_elem_of_fmap. intros (n & -> & Hn). exists n. auto.
Qed.

(** A namespace gets as many distinct capable nodes as replicas, with as many
    failure domains among them as the capable nodes have; it is refused only when
    there are too few capable nodes. *)
Theorem namespace_replicas_spread id ns required count :
  NoDup (cn_node_id <$> ns) → (count = 1 ∨ count = 3)%N →
  let capable_nodes := filter (λ n, capable required n = true) ns in
  match select_namespace_replicas_with_count id ns required count with
  | Ok chosen =>
      len chosen = count ∧ NoDup (cn_node_id <$> chosen) ∧ (∀ n, n ∈ chosen → n ∈ capable_nodes)
      ∧ size (domains_of chosen) = length chosen `min` size (domains_of capable_nodes)
  | Err _ => (len capable_nodes < count)%N
  end.
Proof.
  intros Hnd Hcount capable_nodes. unfold select_namespace_replicas_with_count. fold capable_nodes.
  set (sorted := sort_by _ _).
  assert (sorted.*2 ≡ₚ capable_nodes) as Hperm.
  { unfold sorted, sort_by. rewrite merge_sort_Permutation, <-list_fmap_compose. by rewrite list_fmap_id. }
  assert (len sorted = len capable_nodes) as Hlen.
  { unfold len. by rewrite <-(length_fmap snd sorted), Hperm. }
  assert (NoDup (cn_node_id <$> sorted.*2)) as Hnds.
  { rewrite Hperm. eapply sublist_NoDup; [exact Hnd|]. apply fmap_sublist, sublist_filter. }
  assert (fail_if (negb ((count =? 1)%N || (count =? 3)%N)) InsufficientCapableNodes = Ok ()) as -> by (by destruct Hcount as [-> | ->]).
  rewrite Hlen. simpl. destruct (N.ltb_spec (len capable_nodes) count) as [|Hge]; [done|]. simpl.
  assert (0 < N.to_nat count) as Hpos by (destruct Hcount as [-> | ->]; lia).
  assert (∀ n, n ∈ sorted.*2 ↔ n ∈ capable_nodes) as Helem by (intros n; by rewrite Hperm).
  destruct (pick_domains_spec (N.to_nat count) sorted.*2 []) as (first & Hfirst & Hsub & Hsize & Hle & Hfull); [done|done|].
  change (domains_of []) with (∅ : gset string) in Hfirst. simpl in Hfirst, Hsize, Hle, Hfull. rewrite Hfirst.
  assert (∀ n, n ∈ first → n ∈ capable_nodes) as Hfc by (intros n Hn; apply Helem; by eapply elem_of_sublist).
  pose proof (subseteq_size _ _ (domains_mono first capable_nodes Hfc)) as Hub.
  destruct (Nat.ltb_spec (length first) (N.to_nat count)) as [Hlt|Hnlt].
  2:{ split_and!; [unfold len; lia| |done|lia]. eapply sublist_NoDup; [exact Hnds|]. by apply fmap_sublist. }
  pose proof (filter_out _ _ Hsub Hnds) as Hout.
  destruct (pick_rest_spec (N.to_nat count) sorted.*2 first Hlt Hnds) as (rest & -> & Hcl & Hrsub & Hrnd & Hrnew).
  { rewrite length_fmap in Hout. unfold len in *. lia. }
  assert (∀ n, n ∈ first ++ rest → n ∈ capable_nodes) as Hall.
  { intros n [?|Hn]%elem_of_app; [auto|]. apply Helem. by eapply elem_of_sublist. }
  split_and!; [unfold len; lia| |done|].
  - rewrite fmap_app. apply NoDup_app. split_and!; [eapply sublist_NoDup; [exact Hnds|]; by apply fmap_sublist| |done].
    intros x Hx (n & -> & Hn)%list_elem_of_fmap. by apply (Hrnew n Hn).
  - pose proof (subseteq_size _ _ (domains_mono (first ++ rest) capable_nodes Hall)) as Hub'.
    assert (domains_of first ⊆ domains_of (first ++ rest)) as Hlow%subseteq_size.
    { apply domains_mono. intros n Hn. rewrite elem_of_app. by left. }
    assert (domains_of capable_nodes ⊆ domains_of first) as Hcov.
    { etransitivity; [|by apply Hfull]. apply domains_mono. intros n Hn. by apply Helem. }
    apply subseteq_size in Hcov. lia.
Qed.

End Promises.
