(* ===== verification/PlacementExamples.v ===== *)
(** * Placement on a sample map

    The selections of crates/pepper-placement with the reference hash on a map of
    four nodes in two zones. *)
From stdpp Require Import base gmap sets list strings sorting.
From S2P Require Import Prelude Types Placement PlacementFacts.

#[local] Existing Instances ref_blake3 ref_hex.

Definition zone_node (id zone : string) : PlacementMapNode := mkMapNode id 1 In {["zone" := zone]}.

Definition zones : PlacementMap :=
  mkPlacementMap 7 ["zone"] [zone_node "n1" "east"; zone_node "n2" "east"; zone_node "n3" "west"; zone_node "n4" "west"].

Definition mirrored : PlacementMap :=
  mkPlacementMap 7 ["zone"] [zone_node "n4" "west"; zone_node "n3" "west"; zone_node "n2" "east"; zone_node "n1" "east"].

Definition two_copies : PlacementReference := PlacementReference_replicated 7 sample_cid 2.
Definition stripe : PlacementReference := PlacementReference_erasure_shard 7 sample_cid 0.

Lemma zones_valid : PlacementMap_validate zones = Ok ().
Proof. vm_compute. reflexivity. Qed.

Definition placed : PlacementDecision :=
  match select_authoritative zones two_copies with Ok d => d | Err _ => mkDecision two_copies [] end.

Lemma placed_ok : select_authoritative zones two_copies = Ok placed.
Proof. vm_compute. reflexivity. Qed.

Lemma replicated_placement_witness :
  ∃ chosen, node_ids placed = node_id <$> chosen ∧ chosen_well zones 2 chosen.
Proof.
  pose proof (replicated_placement zones two_copies zones_valid eq_refl eq_refl eq_refl) as Hd.
  rewrite placed_ok in Hd. exact (proj2 Hd).
Defined.

Lemma stripe_placement_witness :
  ∃ order, length order = 4 ∧ ∀ i, select_authoritative zones (with_index stripe (N.of_nat i))
    = match order !! i with
      | Some c => Ok (mkDecision (with_index stripe (N.of_nat i)) [node_id c])
      | None => Err InsufficientEligibleNodes
      end.
Proof.
  destruct (stripe_placement zones stripe zones_valid eq_refl eq_refl eq_refl) as (order & Hlen & _ & Hall).
  exists order. split; [exact Hlen|exact Hall].
Defined.

(** The map without a node that holds no copy. *)
Definition spare : string :=
  default "" (head (filter (λ id, id ∉ node_ids placed) (node_id <$> nodes zones))).

Definition smaller : PlacementMap :=
  mkPlacementMap 7 ["zone"] (filter (λ n, node_id n ≠ spare) (nodes zones)).

Lemma placement_stable_witness : select_authoritative smaller two_copies = Ok placed.
Proof.
  apply (placement_stable zones smaller two_copies placed (node_ids placed)).
  - exact zones_valid.
  - vm_compute. reflexivity.
  - split; [|split; [|split; reflexivity]].
    + intros n Hn. apply list_elem_of_filter in Hn. exact (proj2 Hn).
    + intros n Hn Hid. apply list_elem_of_filter. split; [|exact Hn]. intros Heq. rewrite Heq in Hid. revert Hid.
      apply (bool_decide_unpack (spare ∉ node_ids placed)). vm_compute. exact I.
  - intros j dj Hj Hdj id Hid. change (index two_copies) with 0%N in Hj. apply N.le_0_r in Hj as ->.
    change (with_index two_copies 0) with two_copies in Hdj. rewrite placed_ok in Hdj. apply Ok_inj in Hdj as <-. exact Hid.
  - exact placed_ok.
Defined.

Lemma placement_order_independent_witness : select_authoritative mirrored two_copies = Ok placed.
Proof.
  rewrite (proj1 (placement_order_independent zones mirrored two_copies [] 1 zones_valid
    (conj (reverse_Permutation (nodes zones)) (conj eq_refl eq_refl)))).
  exact placed_ok.
Defined.

Definition voter (id : string) (domain : option string) : ConsensusPlacementNode :=
  mkConsensusNode id ["addr"] true domain true 8 0 1024.

Definition voters : list ConsensusPlacementNode :=
  [voter "n1" (Some "east"); voter "n2" (Some "east"); voter "n3" (Some "west"); voter "n4" None].

Definition seats : list ConsensusPlacementNode :=
  match select_namespace_replicas_with_count sample_cid voters 512 3 with Ok l => l | Err _ => [] end.

Lemma namespace_replicas_spread_witness :
  len seats = 3%N ∧ NoDup (cn_node_id <$> seats) ∧ size (domains_of seats) = 3.
Proof.
  pose proof (namespace_replicas_spread sample_cid voters 512 3) as Hs. cbv zeta in Hs.
  assert (select_namespace_replicas_with_count sample_cid voters 512 3 = Ok seats) as Heq by (vm_compute; reflexivity).
  rewrite Heq in Hs. destruct Hs as (Hl & Hnd & _ & Hd).
  - apply (bool_decide_unpack (NoDup (cn_node_id <$> voters))). vm_compute. exact I.
  - right. reflexivity.
  - split; [exact Hl|]. split; [exact Hnd|]. rewrite Hd. vm_compute. reflexivity.
Defined.
