(* ===== verification/Rsm.v ===== *)
(** * Hosting replicated state machines (crates/pepper-rsm, crates/pepper-kafka-model/src/rsm.rs)

    Group identities and their storage scopes, the registry, the host that applies
    batches and restores snapshots, the gate that lets overlapping reads share one
    quorum proof, and the batcher that one runner drains on demand.  The two
    concurrent parts are step relations: one constructor per atomic section of the
    code, between the points where a task can wait or be dropped. *)
From stdpp Require Import base gmap sets list strings sorting.
From Stdlib Require Import Strings.Byte.
From S2P Require Import Prelude Types.

Inductive HostError :=
| InvalidGroupId
| GroupExists
| GroupMissing
| GroupLimit (limit : N)
| SnapshotDigest
| CodecFailed (message : string).

(** ** Group identities and storage scopes *)

Record GroupId := mkGroupId { product : string; group : string }.

#[export] Instance GroupId_eq_dec : EqDecision GroupId.
Proof. solve_decision. Defined.

#[export] Instance GroupId_countable : Countable GroupId.
Proof. refine (inj_countable' (λ g, (product g, group g)) (λ '(p, g), mkGroupId p g) _). by intros []. Defined.

Definition in_range (lo hi : N) (b : byte) : bool := (lo <=? Byte.to_N b)%N && (Byte.to_N b <=? hi)%N.

(** [u8::is_ascii_alphanumeric] or one of [-_.:] *)
Definition portable_byte (b : byte) : bool :=
  in_range 48 57 b || in_range 65 90 b || in_range 97 122 b
  || bool_decide (b = "-"%byte) || bool_decide (b = "_"%byte) || bool_decide (b = "."%byte) || bool_decide (b = ":"%byte).

Definition portable_id (value : string) : bool :=
  negb (bool_decide (value = "")) && (slen value <=? 1024)%N && forallb portable_byte (as_bytes value).

(** [u8::is_ascii_graphic] *)
Definition group_component (value : string) : bool :=
  negb (bool_decide (value = "")) && (slen value <=? 4096)%N && forallb (in_range 33 126) (as_bytes value).

Definition GroupId_new (p g : string) : result HostError GroupId :=
  if negb (portable_id p) || negb (group_component g) then Err InvalidGroupId else Ok (mkGroupId p g).

Definition length_prefix (value : string) : string := fmt_radix 10 (slen value) +:+ ":" +:+ value.

Record StorageScope := mkScope { prefix : string }.

Definition StorageScope_new (id : GroupId) : StorageScope :=
  mkScope ("rsm/" +:+ length_prefix (product id) +:+ "/" +:+ length_prefix (group id) +:+ "/").

Definition StorageScope_key (s : StorageScope) (record_class suffix : string) : result HostError string :=
  if negb (portable_id record_class) then Err InvalidGroupId
  else Ok (prefix s +:+ record_class +:+ "/" +:+ suffix).

(** ** State machines and their host *)

(** [ReplicatedStateMachine], with the [Display] of its error. *)
Class ReplicatedStateMachine (State Command Response Error : Type) := {
  machine_apply : Command → stm State Error Response;
  encode_state : State → result Error bytes;
  decode_state : bytes → result Error State;
  error_to_string : Error → string
}.

Record StateSnapshot := mkSnapshot { snapshot_index : N; state_bytes : bytes; snapshot_digest : bytes }.

Record HostedState (State : Type) := mkHosted { applied_index : N; value : State }.
Arguments mkHosted {_}.
Arguments applied_index {_}.
Arguments value {_}.

Section Host.
Context {State Command Response Error : Type} `{ReplicatedStateMachine State Command Response Error} `{Blake3}.

Definition DeterministicHost_new (initial : State) : HostedState State := mkHosted 0 initial.

(** The command loop of [apply_batch], on the clone. *)
Fixpoint run_commands (commands : list Command) (responses : list Response) : stm State Error (list Response) :=
  match commands with
  | [] => mret responses
  | c :: commands => r ← machine_apply c; run_commands commands (responses ++ [r])
  end.

(** The clone is dropped when a command fails. *)
Definition apply_batch (commands : list Command) : stm (HostedState State) Error (list Response) := λ h,
  match run_commands commands [] (value h) with
  | (Ok responses, next) =>
      (Ok responses, mkHosted (saturating_add u64_max (applied_index h) (len responses)) next)
  | (Err e, _) => (Err e, h)
  end.

Definition snapshot (h : HostedState State) : result HostError StateSnapshot :=
  bytes ← map_err (λ e, CodecFailed (error_to_string e)) (encode_state (value h));
  Ok (mkSnapshot (applied_index h) bytes (blake3_hash bytes)).

Definition restore (s : StateSnapshot) : stm (HostedState State) HostError unit :=
  _ ← lift (fail_if (negb (bool_decide (blake3_hash (state_bytes s) = snapshot_digest s))) SnapshotDigest);
  v ← lift (map_err (λ e, CodecFailed (error_to_string e)) (decode_state (state_bytes s)));
  modify (λ _, mkHosted (snapshot_index s) v).

End Host.

(** ** The registry *)

Record GroupRegistry (H : Type) := mkRegistry { capacity : N; groups : gmap GroupId H }.
Arguments mkRegistry {_}.
Arguments capacity {_}.
Arguments groups {_}.

Section Registry.
Context {H : Type}.

Definition GroupRegistry_new (c : N) : result HostError (GroupRegistry H) :=
  if (c =? 0)%N then Err (GroupLimit 0) else Ok (mkRegistry c ∅).

Definition registry_insert (id : GroupId) (handle : H) : stm (GroupRegistry H) HostError unit :=
  _ ← reads (λ r, fail_if (bool_decide (is_Some (groups r !! id))) GroupExists);
  _ ← reads (λ r, fail_if (capacity r <=? N.of_nat (size (groups r)))%N (GroupLimit (capacity r)));
  modify (λ r, mkRegistry (capacity r) (<[id := handle]> (groups r))).

Definition registry_get (r : GroupRegistry H) (id : GroupId) : result HostError H := ok_or (groups r !! id) GroupMissing.

Definition registry_remove (id : GroupId) : stm (GroupRegistry H) HostError H :=
  h ← reads (λ r, ok_or (groups r !! id) GroupMissing);
  _ ← modify (λ r, mkRegistry (capacity r) (delete id (groups r)));
  mret h.

Definition registry_len (r : GroupRegistry H) : N := N.of_nat (size (groups r)).
Definition registry_is_empty (r : GroupRegistry H) : bool := (registry_len r =? 0)%N.
Definition registry_handles (r : GroupRegistry H) : list H := (map_to_list (groups r)).*2.

End Registry.

(** ** Leases *)

Record ReadLease := mkLease {
  local_node : N;
  current_leader : option N;
  millis_since_quorum_ack : option N;
  maximum_age_millis : N;
  last_applied_index : option N;
  last_log_index : option N
}.

(** [Option]'s order: [None] is least. *)
Definition opt_ge (a b : option N) : bool :=
  match a, b with _, None => true | None, Some _ => false | Some a, Some b => (b <=? a)%N end.

Definition is_current (l : ReadLease) : bool :=
  bool_decide (current_leader l = Some (local_node l))
  && is_some_and (λ m, (m <=? maximum_age_millis l)%N) (millis_since_quorum_ack l)
  && opt_ge (last_applied_index l) (last_log_index l).

(** ** The read gate *)

Module Gate.

(** Where a call of [ensure] is: waiting for the lock, holding it before the
    check, in the join window, awaiting its proof, or returned. *)
Inductive Phase :=
| Waiting
| Holding
| Joining
| Proving (cover_through : N) (started : nat)
| Returned (ok : bool).

Record Reader := mkReader { arrival : N; phase : Phase; arrived : nat }.

(** The gate with its calls.  The clock, the arrival times and the list of proofs
    that succeeded, each with its start, record the run and steer nothing. *)
Record Gate := mkGate {
  arrivals : N;
  covered : N;
  lock : option nat;
  readers : gmap nat Reader;
  clock : nat;
  proofs : list nat
}.

Definition new : Gate := mkGate 0 0 None ∅ 0 [].

Definition set_reader (g : Gate) (t : nat) (r : Reader) (l : option nat) : Gate :=
  mkGate (arrivals g) (covered g) l (<[t := r]> (readers g)) (S (clock g)) (proofs g).

Definition with_phase (r : Reader) (p : Phase) : Reader := mkReader (arrival r) p (arrived r).

Inductive step (g : Gate) : Gate → Prop :=
(** [arrivals.fetch_add(1) + 1] *)
| Arrive t :
    readers g !! t = None →
    let a := wrapping_add u64_max (arrivals g) 1 in
    step g (mkGate a (covered g) (lock g) (<[t := mkReader a Waiting (clock g)]> (readers g)) (S (clock g)) (proofs g))
(** [lock().await] *)
| Acquire t r :
    readers g !! t = Some r → phase r = Waiting → lock g = None →
    step g (set_reader g t (with_phase r Holding) (Some t))
(** the early return *)
| Covered t r :
    readers g !! t = Some r → phase r = Holding → (arrival r ≤ covered g)%N →
    step g (set_reader g t (with_phase r (Returned true)) None)
(** [sleep(join_window)] *)
| Join t r :
    readers g !! t = Some r → phase r = Holding → (covered g < arrival r)%N →
    step g (set_reader g t (with_phase r Joining) (lock g))
(** [arrivals.load()] and the start of the proof *)
| Prove t r :
    readers g !! t = Some r → phase r = Joining →
    step g (set_reader g t (with_phase r (Proving (arrivals g) (clock g))) (lock g))
(** the proof succeeds *)
| Proved t r c s :
    readers g !! t = Some r → phase r = Proving c s →
    step g (mkGate (arrivals g) c None (<[t := with_phase r (Returned true)]> (readers g)) (S (clock g)) (proofs g ++ [s]))
(** the proof fails *)
| Failed t r c s :
    readers g !! t = Some r → phase r = Proving c s →
    step g (set_reader g t (with_phase r (Returned false)) None)
(** the call is dropped; a guard it holds is released *)
| Dropped t r :
    readers g !! t = Some r → (∀ ok, phase r ≠ Returned ok) →
    step g (mkGate (arrivals g) (covered g) (if decide (lock g = Some t) then None else lock g) (delete t (readers g))
              (S (clock g)) (proofs g)).

End Gate.

(** ** The batcher *)

Module Batcher.
Section Batcher.
Context {I O E : Type}.

Record BatchJob := mkJob { job_id : nat; input : I; encoded_bytes : N }.

Inductive BatchError :=
| Processor (e : E)
| OutputCount (expected actual : N)
| ResponseDropped
| QueueFull (limit : N).

Record Limits := mkBatchLimits { maximum_items : N; maximum_bytes : N; maximum_queued : N }.

Definition LazyBatcher_new (items bytes : N) : result HostError Limits :=
  if (items =? 0)%N || (bytes =? 0)%N then Err (GroupLimit 0)
  else Ok (mkBatchLimits items bytes (saturating_mul u64_max items 8)).

(** The runner task: spawned, about to take jobs, about to look whether it may
    stop, or awaiting the processor. *)
Inductive Runner := Spawned | Draining | Checking | Processing (jobs : list BatchJob).

(** The state under the lock, the counters and the runner tasks.  [accepted]
    records the jobs in the order they were queued and [served] the batches with
    the result of the processor; they steer nothing. *)
Record Batcher := mkBatcher {
  running : bool;
  queue : list BatchJob;
  submitted : N;
  batches : N;
  maximum_batch_size : N;
  active_runners : N;
  runners : gmap nat Runner;
  accepted : list BatchJob;
  served : list (list BatchJob * result E (list O))
}.

Definition new : Batcher := mkBatcher false [] 0 0 0 0 ∅ [] [].

(** [submit] up to the spawn: whether the caller leads. *)
Definition submit (l : Limits) (j : BatchJob) : stm Batcher BatchError bool := λ b,
  if (maximum_queued l <=? len (queue b))%N then (Err (QueueFull (maximum_queued l)), b)
  else (Ok (negb (running b)),
        mkBatcher true (queue b ++ [j]) (wrapping_add u64_max (submitted b) 1) (batches b) (maximum_batch_size b)
          (active_runners b) (runners b) (accepted b ++ [j]) (served b)).

Definition set_runner (r : nat) (p : Runner) (b : Batcher) : Batcher :=
  mkBatcher (running b) (queue b) (submitted b) (batches b) (maximum_batch_size b) (active_runners b)
    (<[r := p]> (runners b)) (accepted b) (served b).

(** The job loop of [drain]: what it takes and what it leaves. *)
Fixpoint take_jobs (l : Limits) (jobs : list BatchJob) (bytes : N) (queue : list BatchJob) : list BatchJob * list BatchJob :=
  match queue with
  | [] => (jobs, [])
  | next :: rest =>
      if (maximum_items l <=? len jobs)%N then (jobs, queue)
      else
        let next_bytes := saturating_add u64_max bytes (encoded_bytes next) in
        if (0 <? len jobs)%N && (maximum_bytes l <? next_bytes)%N then (jobs, queue)
        else take_jobs l (jobs ++ [next]) next_bytes rest
  end.

(** The first lock of an iteration of [drain], with the counters when it took jobs. *)
Definition drain_take (l : Limits) (b : Batcher) : list BatchJob * Batcher :=
  let '(jobs, rest) := take_jobs l [] 0 (queue b) in
  if (len jobs =? 0)%N then (jobs, b)
  else (jobs, mkBatcher (running b) rest (submitted b) (wrapping_add u64_max (batches b) 1)
                (N.max (maximum_batch_size b) (len jobs)) (active_runners b) (runners b) (accepted b) (served b)).

(** Its second lock, after an empty take: whether the runner stops. *)
Definition drain_check (b : Batcher) : bool * Batcher :=
  match queue b with
  | [] => (true, mkBatcher false [] (submitted b) (batches b) (maximum_batch_size b) (active_runners b - 1)
              (runners b) (accepted b) (served b))
  | _ :: _ => (false, b)
  end.

(** What each job of a batch is sent. *)
Definition answers (jobs : list BatchJob) (r : result E (list O)) : list (BatchJob * result BatchError O) :=
  match r with
  | Ok outputs =>
      if (len outputs =? len jobs)%N then zip jobs (Ok <$> outputs)
      else (λ j, (j, Err (OutputCount (len jobs) (len outputs)))) <$> jobs
  | Err e => (λ j, (j, Err (Processor e))) <$> jobs
  end.

Inductive step (l : Limits) (b : Batcher) : Batcher → Prop :=
(** the first submitter spawns a runner *)
| Lead j r b' :
    submit l j b = (Ok true, b') → runners b !! r = None → step l b (set_runner r Spawned b')
| Follow j b' :
    submit l j b = (Ok false, b') → step l b b'
(** [drain] begins *)
| Begin r :
    runners b !! r = Some Spawned →
    step l b (set_runner r Draining
                (mkBatcher (running b) (queue b) (submitted b) (batches b) (maximum_batch_size b) (active_runners b + 1)
                   (runners b) (accepted b) (served b)))
| Take r jobs b' :
    runners b !! r = Some Draining → drain_take l b = (jobs, b') →
    step l b (set_runner r (match jobs with [] => Checking | _ => Processing jobs end) b')
| Stop r b' :
    runners b !! r = Some Checking → drain_check b = (true, b') →
    step l b (mkBatcher (running b') (queue b') (submitted b') (batches b') (maximum_batch_size b') (active_runners b')
                (delete r (runners b')) (accepted b') (served b'))
| Resume r b' :
    runners b !! r = Some Checking → drain_check b = (false, b') → step l b (set_runner r Draining b')
(** the processor returns, with any result, and the jobs are answered *)
| Answer r jobs res :
    runners b !! r = Some (Processing jobs) →
    step l b (mkBatcher (running b) (queue b) (submitted b) (batches b) (maximum_batch_size b) (active_runners b)
                (<[r := Draining]> (runners b)) (accepted b) (served b ++ [(jobs, res)])).

End Batcher.
End Batcher.
