(* ===== verification/RsmFacts.v ===== *)
(** * Theorems about hosted state machines

    Storage keys of different groups never meet, a batch is its commands in order
    and all or nothing, and a snapshot stands for the history before it. *)
From stdpp Require Import base gmap sets list strings sorting.
From Stdlib Require Import Strings.Byte Strings.Ascii.
From S2P Require Import Prelude Types Tables Rsm.

(** ** Storage keys *)

(** Texts of one length in front are determined. *)
Lemma cut_at_length p q s t : slen p = slen q → p +:+ s = q +:+ t → p = q ∧ s = t.
Proof.
  unfold slen, len. rewrite Nat2N.inj_iff. revert q.
  induction p as [|c p IH]; intros [|d q] Hl Heq; [done..|].
  cbn in Heq. injection Hl as Hl. simplify_eq. by destruct (IH q) as [-> ->].
Qed.

Lemma fmt_radix_inj a b :
  (a ≤ u64_max)%N → (b ≤ u64_max)%N → fmt_radix 10 a = fmt_radix 10 b → a = b.
Proof.
  intros Ha Hb Heq. pose proof (from_str_radix_fmt 10 u64_max a ltac:(lia) Ha) as H1.
  rewrite Heq, (from_str_radix_fmt 10 u64_max b ltac:(lia) Hb) in H1. by injection H1.
Qed.

Lemma fmt_radix_no_colon n :
  string_forallb (λ c, negb (bool_decide (c = ":"%char))) (fmt_radix 10 n) = true.
Proof. apply fmt_go_forallb; [lia|apply digit_not_colon|done]. Qed.

(** A length-prefixed text is cut off whole. *)
Lemma length_prefix_cut p q s t :
  (slen p ≤ u64_max)%N → (slen q ≤ u64_max)%N →
  length_prefix p +:+ s = length_prefix q +:+ t → p = q ∧ s = t.
Proof.
  unfold length_prefix. intros Hp Hq. rewrite !sapp_assoc. intros Heq.
  apply cut_at_sep in Heq as [Hn Heq]; [|apply fmt_radix_no_colon..].
  apply fmt_radix_inj in Hn; [|done..]. by apply cut_at_length.
Qed.

Lemma GroupId_new_lengths p g id :
  GroupId_new p g = Ok id → (slen (product id) ≤ u64_max)%N ∧ (slen (group id) ≤ u64_max)%N.
Proof.
  unfold GroupId_new, portable_id, group_component. intros H. destruct (_ || _) eqn:Hc; [done|].
  injection H as <-. cbn [product group].
  apply orb_false_iff in Hc as [H1 H2]. rewrite negb_false_iff in H1, H2.
  rewrite !andb_true_iff, !N.leb_le in H1, H2. unfold u64_max. lia.
Qed.

Lemma portable_no_slash v :
  portable_id v = true → string_forallb (λ c, negb (bool_decide (c = "/"%char))) v = true.
Proof.
  unfold portable_id. rewrite !andb_true_iff. intros [_ Hall]. induction v as [|c v IH]; [done|].
  cbn in Hall |- *. rewrite andb_true_iff in Hall |- *. destruct Hall as [Hc Hv].
  split; [|by apply IH]. rewrite negb_true_iff, bool_decide_eq_false. intros ->. by vm_compute in Hc.
Qed.

(** The scope of a group is a prefix of no record of another group. *)
Lemma scope_cut p g p' g' id id' s t :
  GroupId_new p g = Ok id → GroupId_new p' g' = Ok id' →
  prefix (StorageScope_new id) +:+ s = prefix (StorageScope_new id') +:+ t → id = id' ∧ s = t.
Proof.
  intros [H1 H2]%GroupId_new_lengths [H3 H4]%GroupId_new_lengths. unfold StorageScope_new. cbn [prefix].
  rewrite !sapp_assoc. intros Heq. cbn in Heq. injection Heq as Heq.
  apply length_prefix_cut in Heq as [Hp Heq]; [|done..]. injection Heq as Heq.
  apply length_prefix_cut in Heq as [Hg Heq]; [|done..]. injection Heq as Heq.
  destruct id, id'; cbn in Hp, Hg. by subst.
Qed.

(** A scan over the scope of a group meets the key. *)
Definition in_scope (id : GroupId) (key : string) : Prop := ∃ rest, key = prefix (StorageScope_new id) +:+ rest.

(** Storage keys are collision-free.  A record key of one group, whatever the
    class and the suffix, is never in the scope of another group, so that a scan
    over a scope meets the group's own records only; and a key determines its
    group, its class and its suffix. *)
Theorem storage_keys_separate p g p' g' id id' class class' suffix suffix' key key' :
  GroupId_new p g = Ok id → GroupId_new p' g' = Ok id' →
  StorageScope_key (StorageScope_new id) class suffix = Ok key →
  StorageScope_key (StorageScope_new id') class' suffix' = Ok key' →
  in_scope id key ∧ (in_scope id' key → id = id') ∧
  (key = key' → id = id' ∧ class = class' ∧ suffix = suffix').
Proof.
  intros Hid Hid'. unfold StorageScope_key.
  destruct (portable_id class) eqn:Hc; [|done]. destruct (portable_id class') eqn:Hc'; [|done].
  cbn [negb]. intros Hk Hk'. apply Ok_inj in Hk as <-, Hk' as <-. split_and!.
  - by eexists.
  - intros [rest Heq]. by eapply scope_cut in Heq as [-> _].
  - intros Heq. eapply scope_cut in Heq as [-> Heq]; [|done..]. split; [done|].
    apply (cut_at_sep "/"%char) in Heq; auto using portable_no_slash.
Qed.

(** ** The host *)

Section Host.
Context {State Command Response Error : Type} `{ReplicatedStateMachine State Command Response Error} `{Blake3}.
Implicit Types h : HostedState State.

Lemma run_commands_acc cs rs s :
  run_commands cs rs s =
  match run_commands cs [] s with (Ok r, s') => (Ok (rs ++ r), s') | (Err e, s') => (Err e, s') end.
Proof.
  revert rs s. induction cs as [|c cs IH]; intros rs s.
  - cbn. by rewrite app_nil_r.
  - cbn [run_commands]. unfold mbind, stm_bind. destruct (machine_apply c s) as [[r|e] s']; [|done].
    rewrite IH, (IH ([] ++ [r])). destruct (run_commands cs [] s') as [[r'|e] s'']; [|done].
    by rewrite <-(assoc_L (++)).
Qed.

Lemma run_commands_app cs1 cs2 s :
  run_commands (cs1 ++ cs2) [] s =
  match run_commands cs1 [] s with
  | (Ok r1, s1) => match run_commands cs2 [] s1 with (Ok r2, s2) => (Ok (r1 ++ r2), s2) | (Err e, s2) => (Err e, s2) end
  | (Err e, s1) => (Err e, s1)
  end.
Proof.
  revert s. induction cs1 as [|c cs1 IH]; intros s.
  - cbn. by destruct (run_commands cs2 [] s) as [[]].
  - cbn [run_commands app]. unfold mbind, stm_bind. destruct (machine_apply c s) as [[r|e] s1]; [|done].
    rewrite (run_commands_acc (cs1 ++ cs2)), (run_commands_acc cs1), IH.
    destruct (run_commands cs1 [] s1) as [[r1|e] s2]; [|done].
    destruct (run_commands cs2 [] s2) as [[r2|e] s3]; [|done]. by rewrite (assoc_L (++)).
Qed.

Lemma saturating_add_assoc max a b c :
  saturating_add max (saturating_add max a b) c = saturating_add max a (b + c).
Proof. unfold saturating_add. lia. Qed.

Lemma apply_batch_app cs1 cs2 h :
  apply_batch (cs1 ++ cs2) h =
  match apply_batch cs1 h with
  | (Ok r1, h1) =>
      match apply_batch cs2 h1 with
      | (Ok r2, h2) => (Ok (r1 ++ r2), h2)
      | (Err e, _) => (Err e, h)
      end
  | (Err e, _) => (Err e, h)
  end.
Proof.
  unfold apply_batch. rewrite run_commands_app.
  destruct (run_commands cs1 [] (value h)) as [[r1|e] s1]; [|done]. cbn [value applied_index].
  destruct (run_commands cs2 [] s1) as [[r2|e] s2]; [|done].
  by rewrite saturating_add_assoc, len_app.
Qed.

(** A host over its life: batches one after the other, whatever they return. *)
Fixpoint run_batches (bs : list (list Command)) h : HostedState State :=
  match bs with [] => h | b :: bs => run_batches bs (apply_batch b h).2 end.

(** The batches that succeeded. *)
Fixpoint committed (bs : list (list Command)) h : list (list Command) :=
  match bs with
  | [] => []
  | b :: bs =>
      match apply_batch b h with
      | (Ok _, h') => b :: committed bs h'
      | (Err _, h') => committed bs h'
      end
  end.

Lemma apply_batch_Err b h e h' : apply_batch b h = (Err e, h') → h' = h.
Proof. unfold apply_batch. destruct (run_commands _ _ _) as [[]]; naive_solver. Qed.

Lemma apply_batch_bound b h rs h' : apply_batch b h = (Ok rs, h') → (applied_index h' ≤ u64_max)%N.
Proof.
  unfold apply_batch. destruct (run_commands _ _ _) as [[]]; [|done]. intros [= _ <-].
  apply saturating_add_bound.
Qed.

Lemma apply_batch_nil h : (applied_index h ≤ u64_max)%N → apply_batch [] h = (Ok [], h).
Proof.
  intros Hb. unfold apply_batch. destruct h as [i v]. cbn [run_commands mret stm_ret value applied_index] in *.
  change (@len Response []) with 0%N. rewrite saturating_add_exact; by rewrite N.add_0_r.
Qed.

Lemma run_batches_committed bs h :
  (applied_index h ≤ u64_max)%N → ∃ rs, apply_batch (concat (committed bs h)) h = (Ok rs, run_batches bs h).
Proof.
  revert h. induction bs as [|b bs IH]; intros h Hb; cbn [committed run_batches].
  - exists []. by apply apply_batch_nil.
  - destruct (apply_batch b h) as [[r|e] h'] eqn:Hab; cbn [snd concat].
    + destruct (IH h') as [rs Hrs]; [by eapply apply_batch_bound|]. exists (r ++ rs). by rewrite apply_batch_app, Hab, Hrs.
    + apply apply_batch_Err in Hab as ->. by apply IH.
Qed.

Lemma committed_Forall (P : Command → Prop) bs h :
  Forall (Forall P) bs → Forall P (concat (committed bs h)).
Proof.
  intros Hbs. revert h. induction Hbs as [|b bs Hb _ IH]; intros h; cbn [committed]; [constructor|].
  destruct (apply_batch b h) as [[]]; [|apply IH]. cbn [concat]. apply Forall_app. auto.
Qed.

(** A property of the host that single commands preserve holds through its life. *)
Lemma run_batches_ind (P : HostedState State → Prop) bs h :
  (∀ c h rs h', P h → apply_batch [c] h = (Ok rs, h') → P h') →
  (applied_index h ≤ u64_max)%N → P h → P (run_batches bs h).
Proof.
  intros Hstep Hb Hh. destruct (run_batches_committed bs h Hb) as [rs Hrs].
  revert Hrs. generalize (concat (committed bs h)) as cs, (run_batches bs h) as h'. intros cs h'.
  revert h rs Hb Hh. induction cs as [|c cs IH]; intros h rs Hb Hh Hrs.
  - rewrite apply_batch_nil in Hrs by done. by injection Hrs as _ <-.
  - change (c :: cs) with ([c] ++ cs) in Hrs. rewrite apply_batch_app in Hrs.
    destruct (apply_batch [c] h) as [[r1|] h1] eqn:H1; [|done].
    destruct (apply_batch cs h1) as [[r2|] h2] eqn:H2; [|done]. injection Hrs as _ <-.
    by eapply (IH h1 r2 (apply_batch_bound _ _ _ _ H1) (Hstep c h r1 h1 Hh H1)).
Qed.

(** How commands are batched cannot be observed.  A batch is its two halves one
    after the other, with the responses in order, the same state and the same
    applied index, and when a command of either half fails the host is as before
    the whole batch.  So after any sequence of batches, failed ones included, a
    host is where one batch of the commands of the successful ones brings it. *)
Theorem batches_replay cs1 cs2 bs h s0 :
  (apply_batch (cs1 ++ cs2) h =
   match apply_batch cs1 h with
   | (Ok r1, h1) =>
       match apply_batch cs2 h1 with
       | (Ok r2, h2) => (Ok (r1 ++ r2), h2)
       | (Err e, _) => (Err e, h)
       end
   | (Err e, _) => (Err e, h)
   end) ∧
  ∃ rs, apply_batch (concat (committed bs (DeterministicHost_new s0))) (DeterministicHost_new s0)
        = (Ok rs, run_batches bs (DeterministicHost_new s0)).
Proof. split; [apply apply_batch_app|]. apply run_batches_committed. done. Qed.

(** What a machine's codec is for: a state it wrote is read back. *)
Class MachineLaws : Prop := {
  decode_encode s b : encode_state s = Ok b → decode_state b = Ok s
}.

(** A snapshot stands for the history before it.  Restored into any host, it
    continues with the batches that follow as the host it was taken from would
    have; a snapshot whose bytes do not have its digest is refused, and whatever
    the reason a refusal leaves the host as it was. *)
Theorem snapshot_resumes `{!MachineLaws} before after s0 other snap :
  snapshot (run_batches before (DeterministicHost_new s0)) = Ok snap →
  (∃ h, restore snap other = (Ok (), h) ∧
        run_batches after h = run_batches (before ++ after) (DeterministicHost_new s0)) ∧
  (∀ bad, blake3_hash (state_bytes bad) ≠ snapshot_digest bad → restore bad other = (Err SnapshotDigest, other)) ∧
  (∀ bad e h, restore bad other = (Err e, h) → h = other).
Proof.
  generalize (DeterministicHost_new s0) as h0. intros h0 Hs.
  assert (run_batches (before ++ after) h0 = run_batches after (run_batches before h0)) as ->.
  { clear Hs. revert h0. induction before as [|b bs IH]; intros h0; [done|]. apply IH. }
  revert Hs. generalize (run_batches before h0) as h. intros h Hs. split_and!.
  - exists h. split; [|done]. unfold snapshot in Hs. apply bind_Ok in Hs as (b & Hb & Hs).
    apply Ok_inj in Hs as <-. destruct (encode_state (value h)) as [b'|] eqn:He; [|done]. apply Ok_inj in Hb as ->.
    unfold restore. cbn. rewrite bool_decide_eq_true_2 by done. cbn. rewrite (decode_encode _ _ He). by destruct h.
  - intros bad Hne. unfold restore. cbn. by rewrite bool_decide_eq_false_2.
  - intros bad e h'. unfold restore. cbn. destruct (bool_decide _); cbn; [|by intros [= _ <-]].
    destruct (decode_state _); cbn; [done|]. by intros [= _ <-].
Qed.

End Host.

Arguments MachineLaws _ _ _ _ {_}.
