(* ===== verification/RsmSteps.v ===== *)
(** * Theorems about the read gate and the batcher

    Both are proved by induction on the steps of any interleaving: readers return
    only behind a proof that started after they arrived, one runner serves every
    accepted job once and in order, and neither can get stuck. *)
From stdpp Require Import base gmap sets list strings sorting.
From S2P Require Import Prelude Types Rsm.

(** ** Sums over the tasks of a map *)

Section Sum.
Context {A : Type} (w : A → nat).

Definition total (m : gmap nat A) : nat := map_fold (λ _ a n, w a + n) 0 m.

Lemma total_delete m k a : m !! k = Some a → total m = w a + total (delete k m).
Proof. intros Hk. apply (map_fold_delete_L (λ _ a n, w a + n)); [lia|done]. Qed.

Lemma total_insert m k a a' : m !! k = Some a → total (<[k := a']> m) + w a = total m + w a'.
Proof.
  intros Hk. rewrite (total_delete (<[k := a']> m) k a') by apply lookup_insert_eq.
  rewrite delete_insert_eq, (total_delete m k a) by done. lia.
Qed.

End Sum.

(** ** The read gate *)

Module GateFacts.
Import Gate.

Definition holds_lock (p : Phase) : Prop :=
  match p with Holding | Joining | Proving _ _ => True | Waiting | Returned _ => False end.

(** A proof that started after the call arrived has succeeded. *)
Definition proven (g : Gate) (r : Reader) : Prop := ∃ s, s ∈ proofs g ∧ arrived r ≤ s.

Definition reader_ok (g : Gate) (r : Reader) : Prop :=
  (arrival r ≤ arrivals g)%N ∧ arrived r ≤ clock g ∧
  ((arrival r ≤ covered g)%N → proven g r) ∧ (phase r = Returned true → proven g r) ∧
  ∀ c s, phase r = Proving c s →
    (arrival r ≤ c ≤ arrivals g)%N ∧ ∀ t' r', readers g !! t' = Some r' → (arrival r' ≤ c)%N → arrived r' ≤ s.

Record gate_inv (g : Gate) : Prop := {
  gate_count : (arrivals g ≤ N.of_nat (clock g))%N;
  gate_covered : (covered g ≤ arrivals g)%N;
  gate_lock t : lock g = Some t ↔ ∃ r, readers g !! t = Some r ∧ holds_lock (phase r);
  gate_readers t r : readers g !! t = Some r → reader_ok g r
}.

Lemma gate_new_inv : gate_inv new.
Proof. split; cbn; try done. intros t. split; [done|]. intros (r & Hr & _). by rewrite lookup_empty in Hr. Qed.

(** Changing a phase leaves the times of the calls. *)
Lemma update_times (m : gmap nat Reader) t r p t' r' :
  m !! t = Some r → <[t := with_phase r p]> m !! t' = Some r' →
  ∃ r0, m !! t' = Some r0 ∧ arrival r' = arrival r0 ∧ arrived r' = arrived r0 ∧ (t' ≠ t → r' = r0).
Proof.
  intros Hr. destruct (decide (t = t')) as [<-|Hne].
  - rewrite lookup_insert_eq. intros [= <-]. by exists r.
  - rewrite lookup_insert_ne by done. intros Hr'. by exists r'.
Qed.

(** The steps that change only the phase of one call and perhaps the lock. *)
Lemma set_reader_inv g t r p l :
  gate_inv g → readers g !! t = Some r →
  (∀ t', l = Some t' ↔ if decide (t' = t) then holds_lock p else lock g = Some t') →
  (p = Returned true → proven g r) →
  (∀ c s, p = Proving c s → c = arrivals g ∧ s = clock g) →
  gate_inv (set_reader g t (with_phase r p) l).
Proof.
  intros Hi Hr Hl Hret Hprov.
  split; cbn [set_reader arrivals covered lock readers clock proofs].
  - pose proof (gate_count g Hi). lia.
  - apply (gate_covered g Hi).
  - intros t'. rewrite Hl. destruct (decide (t' = t)) as [->|Hne].
    + rewrite lookup_insert_eq. naive_solver.
    + rewrite lookup_insert_ne by done. apply (gate_lock g Hi).
  - intros t' r' Hr'. destruct (update_times _ _ _ _ _ _ Hr Hr') as (r0 & Hr0 & Ea & Et & Hsame).
    destruct (gate_readers g Hi t' r0 Hr0) as (Ha & Hc & Hcov & Hdone & Hp).
    unfold reader_ok, proven. cbn [set_reader arrivals covered lock readers clock proofs]. rewrite Ea, Et.
    split_and!; [done|lia|done|..].
    + intros Hph. destruct (decide (t' = t)) as [->|Hne].
      * rewrite lookup_insert_eq in Hr'. simplify_eq. by apply Hret.
      * rewrite <-(Hsame Hne) in Hdone. rewrite <-Et. by apply Hdone.
    + intros c s Hph. destruct (decide (t' = t)) as [->|Hne].
      * rewrite lookup_insert_eq in Hr'. simplify_eq. destruct (Hprov c s Hph) as [-> ->]. split; [by rewrite <-?Ea|].
        intros t1 r1 H1 _. destruct (update_times _ _ _ _ _ _ Hr H1) as (r2 & H2 & _ & -> & _).
        apply (gate_readers g Hi t1 r2 H2).
      * rewrite <-(Hsame Hne) in Hp. destruct (Hp c s Hph) as [Hca Hall]. split; [by rewrite <-?Ea|].
        intros t1 r1 H1. destruct (update_times _ _ _ _ _ _ Hr H1) as (r2 & H2 & -> & -> & _). eauto.
Qed.

Lemma arrive_inv g t :
  gate_inv g → (N.of_nat (clock g) < u64_max)%N → readers g !! t = None →
  let a := wrapping_add u64_max (arrivals g) 1 in
  gate_inv (mkGate a (covered g) (lock g) (<[t := mkReader a Waiting (clock g)]> (readers g)) (S (clock g)) (proofs g)).
Proof.
  intros Hi Hclock Ht a. pose proof (gate_count g Hi). pose proof (gate_covered g Hi).
  assert (a = arrivals g + 1)%N as -> by (subst a; unfold wrapping_add; rewrite N.mod_small; lia).
  split; cbn [arrivals covered lock readers clock proofs]; [lia|lia|..].
  - intros t'. rewrite (gate_lock g Hi). destruct (decide (t = t')) as [<-|Hne].
    + rewrite lookup_insert_eq, Ht. naive_solver.
    + by rewrite lookup_insert_ne.
  - intros t' r'. rewrite lookup_insert_Some. intros [[<- <-]|[Hne Hr']].
    + unfold reader_ok. cbn. split_and!; [lia|lia|lia|done|done].
    + destruct (gate_readers g Hi t' r' Hr') as (Ha & Hc & Hcov & Hdone & Hp).
      unfold reader_ok, proven in *. cbn. split_and!; [lia|lia|done|done|].
      intros c s Hph. destruct (Hp c s Hph) as [Hca Hall]. split; [lia|].
      intros t1 r1. rewrite lookup_insert_Some. intros [[<- <-]|[? ?]]; cbn; [lia|eauto].
Qed.

Lemma proved_inv g t r c s :
  gate_inv g → readers g !! t = Some r → phase r = Proving c s →
  gate_inv (mkGate (arrivals g) c None (<[t := with_phase r (Returned true)]> (readers g)) (S (clock g)) (proofs g ++ [s])).
Proof.
  intros Hi Hr Hph. destruct (gate_readers g Hi t r Hr) as (_ & _ & _ & _ & Hp).
  destruct (Hp c s Hph) as [[Hac Hca] Hall]. assert (lock g = Some t) as Hlock.
  { apply (gate_lock g Hi). exists r. by rewrite Hph. }
  assert (∀ t' r', readers g !! t' = Some r' → t' ≠ t → ¬ holds_lock (phase r')) as Hone.
  { intros t' r' Hr' Hne Hh. assert (lock g = Some t') by (apply (gate_lock g Hi); eauto). naive_solver. }
  pose proof (gate_count g Hi). split; cbn [arrivals covered lock readers clock proofs]; [lia|done|..].
  - intros t'. split; [done|]. intros (r' & Hr' & Hh). apply lookup_insert_Some in Hr' as [[<- <-]|[Hne Hr']]; [done|].
    exfalso. eapply Hone; eauto.
  - intros t' r' Hr'. destruct (update_times _ _ _ _ _ _ Hr Hr') as (r0 & Hr0 & Ea & Et & Hsame).
    destruct (gate_readers g Hi t' r0 Hr0) as (Ha' & Hc' & Hcov' & Hdone' & _).
    unfold reader_ok, proven. cbn [arrivals covered readers clock proofs]. rewrite Ea, Et.
    assert (arrived r0 ≤ s → ∃ s', s' ∈ proofs g ++ [s] ∧ arrived r0 ≤ s') as Hnew.
    { intros. exists s. split; [|done]. apply elem_of_app. right. by apply list_elem_of_singleton. }
    split_and!; [done|lia|by eauto|..].
    + intros Hret. destruct (decide (t' = t)) as [->|Hne].
      * rewrite Hr in Hr0. injection Hr0 as <-. by apply Hnew, (Hall t r Hr).
      * rewrite (Hsame Hne) in Hret. destruct (Hdone' Hret) as (s' & ? & ?). exists s'. split; [|done].
        apply elem_of_app. by left.
    + intros c' s' Hph'. exfalso. destruct (decide (t' = t)) as [->|Hne].
      * rewrite lookup_insert_eq in Hr'. by simplify_eq.
      * eapply Hone; [exact Hr0|done|]. rewrite <-(Hsame Hne), Hph'. done.
Qed.

Lemma dropped_inv g t r :
  gate_inv g → readers g !! t = Some r →
  gate_inv (mkGate (arrivals g) (covered g) (if decide (lock g = Some t) then None else lock g) (delete t (readers g))
              (S (clock g)) (proofs g)).
Proof.
  intros Hi Hr. pose proof (gate_count g Hi). pose proof (gate_covered g Hi).
  split; cbn [arrivals covered lock readers clock proofs]; [lia|done|..].
  - intros t'. setoid_rewrite lookup_delete_Some. pose proof (gate_lock g Hi t') as Hl.
    destruct (decide (lock g = Some t)) as [Ht|Ht].
    + split; [done|]. intros (r' & [Hne Hr'] & Hh). assert (lock g = Some t') by (apply Hl; eauto). naive_solver.
    + rewrite Hl. naive_solver.
  - intros t' r'. rewrite lookup_delete_Some. intros [Hne Hr'].
    destruct (gate_readers g Hi t' r' Hr') as (Ha & Hc & Hcov & Hdone & Hp).
    unfold reader_ok, proven. cbn [arrivals covered readers clock proofs]. split_and!; [done|lia|done|done|].
    intros c s Hph. destruct (Hp c s Hph) as [? Hall]. split; [done|].
    intros t1 r1. rewrite lookup_delete_Some. intros [_ Hr1]. eauto.
Qed.

(** A call that has the lock keeps it or gives it up. *)
Lemma keep_lock g t r p :
  gate_inv g → readers g !! t = Some r → holds_lock (phase r) → holds_lock p →
  ∀ t', lock g = Some t' ↔ if decide (t' = t) then holds_lock p else lock g = Some t'.
Proof.
  intros Hi Hr Hh Hp t'. assert (lock g = Some t) by (apply (gate_lock g Hi); eauto).
  destruct (decide _); naive_solver.
Qed.

Lemma release_lock g t r p :
  gate_inv g → readers g !! t = Some r → holds_lock (phase r) → ¬ holds_lock p →
  ∀ t', None = Some t' ↔ if decide (t' = t) then holds_lock p else lock g = Some t'.
Proof.
  intros Hi Hr Hh Hp t'. assert (lock g = Some t) by (apply (gate_lock g Hi); eauto).
  destruct (decide _); naive_solver.
Qed.

Lemma gate_step_inv g g' : gate_inv g → (N.of_nat (clock g) < u64_max)%N → step g g' → gate_inv g'.
Proof.
  intros Hi Hc [t Ht|t r Hr Hp Hl|t r Hr Hp Hcov|t r Hr Hp Hcov|t r Hr Hp|t r c s Hr Hp|t r c s Hr Hp|t r Hr Hp].
  - by apply arrive_inv.
  - apply set_reader_inv; try done. intros t'. rewrite Hl. destruct (decide _); naive_solver.
  - apply set_reader_inv; try done.
    + eapply release_lock; [done|done|by rewrite Hp|by intros []].
    + intros _. destruct (gate_readers g Hi t r Hr) as (_ & _ & Hpr & _). by apply Hpr.
  - apply set_reader_inv; try done. eapply keep_lock; [done|done|by rewrite Hp|done].
  - apply set_reader_inv; try done; [|naive_solver]. eapply keep_lock; [done|done|by rewrite Hp|done].
  - by apply proved_inv.
  - apply set_reader_inv; try done. eapply release_lock; [done|done|by rewrite Hp|by intros []].
  - by eapply dropped_inv.
Qed.

Lemma step_clock g g' : step g g' → clock g' = S (clock g).
Proof. by intros []. Qed.

Lemma rtc_clock g g' : rtc step g g' → clock g ≤ clock g'.
Proof. induction 1 as [|g g1 g2 Hs%step_clock _ IH]; lia. Qed.

Lemma gate_reachable g : rtc step new g → (N.of_nat (clock g) ≤ u64_max)%N → gate_inv g.
Proof.
  revert g. apply (rtc_ind_r (λ g, (N.of_nat (clock g) ≤ u64_max)%N → gate_inv g)); [intros _; apply gate_new_inv|].
  intros g g' _ Hs IH Hb. pose proof (step_clock _ _ Hs). eapply gate_step_inv; [apply IH; lia| |done]. lia.
Qed.

(** C11: a read that the gate lets pass is linearizable.  In every interleaving of
    calls, failed proofs and dropped calls (of fewer than 2^64 steps), a call of
    [ensure] that has returned success is behind a proof that succeeded and that
    started after the call arrived; whether it made the proof itself or shared
    that of another call. *)
Theorem reads_linearizable g t r :
  rtc step new g → (N.of_nat (clock g) ≤ u64_max)%N → readers g !! t = Some r → phase r = Returned true →
  proven g r.
Proof.
  intros Hg Hb Hr Hp. pose proof (gate_reachable g Hg Hb) as Hi.
  destruct (gate_readers g Hi t r Hr) as (_ & _ & _ & Hdone & _). by apply Hdone.
Qed.

(** What a call still has to go through. *)
Definition steps_left (r : Reader) : nat :=
  match phase r with Waiting => 4 | Holding => 3 | Joining => 2 | Proving _ _ => 1 | Returned _ => 0 end.

Definition work_left (g : Gate) : nat := total steps_left (readers g).

Lemma work_left_update g t r p :
  readers g !! t = Some r → steps_left (with_phase r p) < steps_left r →
  total steps_left (<[t := with_phase r p]> (readers g)) < work_left g.
Proof. intros Hr Hlt. pose proof (total_insert steps_left _ _ _ (with_phase r p) Hr). unfold work_left. lia. Qed.

Lemma step_work g g' : step g g' → (∃ t, readers g !! t = None ∧ is_Some (readers g' !! t)) ∨ work_left g' < work_left g.
Proof.
  intros [t Ht|t r Hr Hp Hl|t r Hr Hp Hcov|t r Hr Hp Hcov|t r Hr Hp|t r c s Hr Hp|t r c s Hr Hp|t r Hr Hp].
  { left. exists t. cbn. by rewrite lookup_insert_eq. }
  all: right; try (apply work_left_update; [done|]; unfold steps_left; rewrite Hp; cbn; lia).
  assert (0 < steps_left r) by (unfold steps_left; destruct (phase r); [lia..|naive_solver]).
  unfold work_left. cbn [readers]. pose proof (total_delete steps_left (readers g) t r Hr). lia.
Qed.

Lemma set_reader_dom g t r r' l : readers g !! t = Some r → dom (readers (set_reader g t r' l)) = dom (readers g).
Proof. intros Hr. cbn. apply dom_insert_lookup_L. eauto. Qed.

(** The call with the lock can go on. *)
Lemma holder_steps g t r :
  readers g !! t = Some r → holds_lock (phase r) → ∃ g', step g g' ∧ dom (readers g') = dom (readers g).
Proof.
  intros Hr Hh. destruct (phase r) as [| | |c s|ok] eqn:Hp; [done| | | |done].
  - destruct (decide (arrival r ≤ covered g)%N).
    + eexists. split; [by eapply Covered|by eapply set_reader_dom].
    + eexists. split; [eapply Join; [done..|lia]|by eapply set_reader_dom].
  - eexists. split; [by eapply Prove|by eapply set_reader_dom].
  - eexists. split; [by eapply Failed|by eapply set_reader_dom].
Qed.

(** C37: the gate cannot get stuck.  As long as a call has not returned, a step other
    than a new arrival or the drop of a call is possible, and every step other than
    an arrival brings the calls closer to returning: [work_left] strictly falls, so
    without new arrivals every call returns within [work_left] steps. *)
Theorem gate_drains g :
  rtc step new g → (N.of_nat (clock g) ≤ u64_max)%N →
  ((∃ t r, readers g !! t = Some r ∧ ∀ ok, phase r ≠ Returned ok) →
   ∃ g', step g g' ∧ dom (readers g') = dom (readers g)) ∧
  ∀ g', step g g' → (∃ t, readers g !! t = None ∧ is_Some (readers g' !! t)) ∨ work_left g' < work_left g.
Proof.
  intros Hg Hb. pose proof (gate_reachable g Hg Hb) as Hi. split; [|apply step_work].
  intros (t & r & Hr & Hp). destruct (lock g) as [t0|] eqn:Hl.
  - apply (gate_lock g Hi) in Hl as (r0 & Hr0 & Hh). by eapply holder_steps.
  - assert (¬ holds_lock (phase r)) as Hn.
    { intros Hh. assert (lock g = Some t) by (apply (gate_lock g Hi); eauto). congruence. }
    assert (phase r = Waiting) by (destruct (phase r); naive_solver).
    eexists. split; [by eapply Acquire|by eapply set_reader_dom].
Qed.

End GateFacts.

(** ** The batcher *)

Module BatcherFacts.
Import Batcher.
Section Batcher.
Context {I O E : Type}.
Notation Job := (@BatchJob I).
Notation State := (@Batcher I O E).
Implicit Types (b : State) (jobs rest q : list Job).

(** The bytes of a batch as the loop adds them up. *)
Definition batch_bytes jobs : N := foldl (λ n j, saturating_add u64_max n (encoded_bytes j)) 0%N jobs.

(** A batch within its limits; one job may exceed the byte limit alone. *)
Definition batch_ok (l : Limits) jobs : Prop :=
  jobs ≠ [] ∧ (len jobs ≤ maximum_items l)%N ∧ ((batch_bytes jobs ≤ maximum_bytes l)%N ∨ len jobs = 1%N).

(** What a runner holds. *)
Definition in_flight (p : Runner) : list Job := match p with Processing jobs => jobs | _ => [] end.

Definition runner_ok (l : Limits) (p : Runner) : Prop :=
  match p with Processing jobs => batch_ok l jobs | _ => True end.

(** The loop keeps its batch within the limits and in order. *)
Lemma take_jobs_ok l q jobs jobs' rest :
  take_jobs l jobs (batch_bytes jobs) q = (jobs', rest) → jobs = [] ∨ batch_ok l jobs →
  jobs ++ q = jobs' ++ rest ∧ (jobs' = [] ∨ batch_ok l jobs').
Proof.
  revert jobs. induction q as [|j q IH]; intros jobs; cbn [take_jobs]; [naive_solver|].
  destruct (N.leb_spec (maximum_items l) (len jobs)) as [|Hroom]; [naive_solver|].
  destruct (_ && _) eqn:Hfull; [naive_solver|].
  assert (saturating_add u64_max (batch_bytes jobs) (encoded_bytes j) = batch_bytes (jobs ++ [j])) as Hb.
  { unfold batch_bytes. by rewrite foldl_app. }
  rewrite Hb in *. intros Ht Hok. apply IH in Ht as [<- Hok'].
  - by rewrite <-(assoc_L (++)).
  - right. split_and!; [by destruct jobs|rewrite len_app; change (len [j]) with 1%N; lia|].
    apply andb_false_iff in Hfull as [Hz|Hz].
    + right. apply N.ltb_ge in Hz. rewrite len_app. change (len [j]) with 1%N. lia.
    + left. by apply N.ltb_ge.
Qed.

(** It takes a job when there is one. *)
Lemma take_jobs_some l q : (maximum_items l ≠ 0)%N → q ≠ [] → (take_jobs l [] 0 q).1 ≠ [].
Proof.
  intros Hi Hq. assert (∀ q jobs n, jobs ≠ [] → (take_jobs l jobs n q).1 ≠ []) as Hk.
  { clear q Hq. induction q as [|j q IH]; intros jobs n Hne; cbn [take_jobs]; [done|].
    destruct (_ <=? _)%N; [done|]. destruct (_ && _); [done|]. apply IH. by destruct jobs. }
  destruct q as [|j q]; [done|]. cbn [take_jobs]. change (len []) with 0%N.
  destruct (N.leb_spec (maximum_items l) 0); [lia|]. by apply Hk.
Qed.

Lemma answers_jobs jobs (r : result E (list O)) : (answers jobs r).*1 = jobs.
Proof.
  unfold answers. destruct r as [outs|e].
  - destruct (N.eqb_spec (len outs) (len jobs)) as [Hl|_].
    + apply fst_zip. rewrite length_fmap. unfold len in Hl. lia.
    + rewrite <-list_fmap_compose. apply list_fmap_id.
  - rewrite <-list_fmap_compose. apply list_fmap_id.
Qed.

(** One runner while jobs are queued or in flight, none otherwise; and where every
    accepted job is. *)
Record batcher_inv (l : Limits) b : Prop := {
  one_runner :
    (running b = false ∧ runners b = ∅ ∧ queue b = [] ∧ active_runners b = 0%N ∧
     accepted b = concat (served b).*1) ∨
    ∃ r p, running b = true ∧ runners b = {[r := p]} ∧
      active_runners b = match p with Spawned => 0%N | _ => 1%N end ∧
      accepted b = concat (served b).*1 ++ in_flight p ++ queue b ∧ runner_ok l p;
  queue_bound : (len (queue b) ≤ maximum_queued l)%N;
  batches_ok : Forall (batch_ok l) (served b).*1;
  size_bound : (maximum_batch_size b ≤ maximum_items l)%N
}.

Lemma batcher_new_inv l : batcher_inv l new.
Proof. split; cbn; [by left|..]; unfold len; cbn; [lia|done|lia]. Qed.

(** The runner that takes a step is the only one. *)
Lemma the_runner l b r p :
  batcher_inv l b → runners b !! r = Some p →
  running b = true ∧ runners b = {[r := p]} ∧ active_runners b = match p with Spawned => 0%N | _ => 1%N end ∧
  accepted b = concat (served b).*1 ++ in_flight p ++ queue b ∧ runner_ok l p.
Proof.
  intros [[(_ & Hr & _)|(r0 & p0 & ? & Hr & ? & ? & ?)] _ _ _] Hp; rewrite Hr in Hp.
  - by rewrite lookup_empty in Hp.
  - apply lookup_singleton_Some in Hp as [-> ->]. done.
Qed.

Lemma submit_Ok l j b lead b' :
  submit l j b = (Ok lead, b') →
  (len (queue b) < maximum_queued l)%N ∧ lead = negb (running b) ∧
  b' = mkBatcher true (queue b ++ [j]) (wrapping_add u64_max (submitted b) 1) (batches b) (maximum_batch_size b)
         (active_runners b) (runners b) (accepted b ++ [j]) (served b).
Proof. unfold submit. destruct (N.leb_spec (maximum_queued l) (len (queue b))); [done|]. intros [= <- <-]. done. Qed.

Lemma len_snoc {A} (q : list A) x : len (q ++ [x]) = (len q + 1)%N.
Proof. by rewrite len_app. Qed.

Lemma lead_inv l j r b b' :
  batcher_inv l b → submit l j b = (Ok true, b') → batcher_inv l (set_runner r Spawned b').
Proof.
  intros [Hone Hq Hb Hs] (Hroom & Hlead & ->)%submit_Ok.
  destruct Hone as [(Hrun & Hr & Hqe & Ha & Hacc)|(r0 & p0 & Hrun & _)]; [|by rewrite Hrun in Hlead].
  split; cbn; [|rewrite len_snoc; lia|done|done].
  right. exists r, Spawned. rewrite Hr, Hacc, Hqe, insert_empty. split_and!; done.
Qed.

Lemma follow_inv l j b b' : batcher_inv l b → submit l j b = (Ok false, b') → batcher_inv l b'.
Proof.
  intros [Hone Hq Hb Hs] (Hroom & Hlead & ->)%submit_Ok.
  destruct Hone as [(Hrun & _)|(r0 & p0 & Hrun & Hr & Ha & Hacc & Hok)]; [by rewrite Hrun in Hlead|].
  split; cbn; [|rewrite len_snoc; lia|done|done].
  right. exists r0, p0. rewrite Hacc, <-!(assoc_L (++)). done.
Qed.

Lemma take_inv l r jobs b b' :
  batcher_inv l b → runners b !! r = Some Draining → drain_take l b = (jobs, b') →
  batcher_inv l (set_runner r (match jobs with [] => Checking | _ => Processing jobs end) b').
Proof.
  intros Hi Hr Ht. destruct (the_runner l b r _ Hi Hr) as (Hrun & Hrs & Ha & Hacc & _). destruct Hi as [_ Hq Hb Hs].
  unfold drain_take in Ht. destruct (take_jobs l [] 0 (queue b)) as [jobs0 rest] eqn:Htake.
  apply (take_jobs_ok l (queue b) []) in Htake as [Hsplit Hok]; [|by left]. cbn in Hsplit.
  destruct jobs0 as [|j0 jobs0]; cbn in Ht; injection Ht as <- <-.
  - split; cbn; [|done..]. right. exists r, Checking. rewrite Hrs, insert_singleton_eq. split_and!; done.
  - destruct Hok as [|Hok]; [done|]. split; cbn -[len].
    + right. exists r, (Processing (j0 :: jobs0)). rewrite Hrs, insert_singleton_eq, Hacc, Hsplit. split_and!; done.
    + rewrite Hsplit, len_app in Hq. lia.
    + done.
    + destruct Hok as (_ & Hl & _). lia.
Qed.

Lemma batcher_step_inv l b b' : batcher_inv l b → step l b b' → batcher_inv l b'.
Proof.
  intros Hi [j r b1 Hs Hr|j b1 Hs|r Hr|r jobs b1 Hr Ht|r b1 Hr Hc|r b1 Hr Hc|r jobs res Hr].
  - by eapply lead_inv.
  - by eapply follow_inv.
  - destruct (the_runner l b r _ Hi Hr) as (Hrun & Hrs & Ha & Hacc & _). destruct Hi as [_ Hq Hb Hs].
    split; cbn; [|done..]. right. exists r, Draining. rewrite Hrs, insert_singleton_eq, Ha. split_and!; done.
  - by eapply take_inv.
  - destruct (the_runner l b r _ Hi Hr) as (Hrun & Hrs & Ha & Hacc & _). destruct Hi as [_ Hq Hb Hs].
    unfold drain_check in Hc. destruct (queue b) eqn:Hqe; [|done]. injection Hc as <-.
    split; cbn; [|unfold len; cbn; lia|done..]. left. rewrite Hrs, delete_singleton_eq, Ha, Hacc. cbn. by rewrite app_nil_r.
  - destruct (the_runner l b r _ Hi Hr) as (Hrun & Hrs & Ha & Hacc & _). destruct Hi as [_ Hq Hb Hs].
    unfold drain_check in Hc. destruct (queue b) eqn:Hqe; [done|]. injection Hc as <-.
    split; cbn; [|by rewrite Hqe|done..]. right. exists r, Draining. rewrite Hrs, insert_singleton_eq, Hqe. split_and!; done.
  - destruct (the_runner l b r _ Hi Hr) as (Hrun & Hrs & Ha & Hacc & Hok). destruct Hi as [_ Hq Hb Hs].
    split; cbn; [|done| |done].
    + right. exists r, Draining. rewrite Hrs, insert_singleton_eq, fmap_app, concat_app, Hacc. cbn.
      rewrite app_nil_r, (assoc_L (++)). split_and!; done.
    + rewrite fmap_app, Forall_app. split; [done|]. by apply Forall_singleton.
Qed.

Lemma batcher_reachable l b : rtc (step l) new b → batcher_inv l b.
Proof. revert b. apply rtc_ind_r; [apply batcher_new_inv|]. intros b b' _ Hs IH. by eapply batcher_step_inv. Qed.

(** C12: every job the batcher accepts is served once, in order, by one runner.  In
    every interleaving of submissions, runner steps and processor results, the
    accepted jobs are those answered so far, then those in flight, then the queue,
    with one answer each; at most one runner is active, and none is left when no
    job is; the queue stays within [8 * maximum_items], and each batch is not
    empty, within the item limit, and within the byte limit unless it is a single
    job. *)
Theorem batcher_serves items bytes l b :
  LazyBatcher_new items bytes = Ok l → rtc (step l) new b →
  (∃ flying : list Job,
     accepted b = concat (served b).*1 ++ flying ++ queue b ∧
     (flying ≠ [] → ∃ r, runners b = {[r := Processing flying]})) ∧
  (concat ((λ '(jobs, r), answers jobs r) <$> served b)).*1 = concat (served b).*1 ∧
  (active_runners b ≤ 1)%N ∧ (size (runners b) ≤ 1) ∧ (running b = false ↔ runners b = ∅) ∧
  (len (queue b) ≤ 8 * items)%N ∧ Forall (batch_ok l) (served b).*1 ∧ (maximum_batch_size b ≤ items)%N.
Proof.
  intros Hl Hb. destruct (batcher_reachable l b Hb) as [Hone Hq Hok Hs].
  assert (maximum_items l = items ∧ (maximum_queued l ≤ 8 * items)%N) as [Hit Hqd].
  { unfold LazyBatcher_new in Hl. destruct (_ || _); [done|]. apply Ok_inj in Hl as <-. cbn. unfold saturating_mul. lia. }
  split_and!; [| | | | |lia|done|lia].
  - destruct Hone as [(_ & _ & -> & _ & ->)|(r & p & _ & -> & _ & -> & _)].
    + exists []. by rewrite app_nil_r.
    + exists (in_flight p). split; [done|]. destruct p; cbn; naive_solver.
  - clear. induction (served b) as [|[jobs r] sv IH]; [done|]. rewrite !fmap_cons. cbn [concat].
    by rewrite fmap_app, IH, answers_jobs.
  - destruct Hone as [(_ & _ & _ & -> & _)|(r & [] & _ & _ & -> & _)]; lia.
  - destruct Hone as [(_ & -> & _)|(r & p & _ & -> & _)]; [by rewrite map_size_empty; lia|by rewrite map_size_singleton].
  - destruct Hone as [(-> & -> & _)|(r & p & -> & -> & _)]; [done|]. split; [done|].
    intros Heq. by apply map_non_empty_singleton in Heq.
Qed.

(** What is left to do: the queued jobs, and the phase of the runner. *)
Definition phase_left (q : list Job) (p : @Runner I) : nat :=
  match p, q with
  | Spawned, _ => 3 | Draining, _ => 2 | Checking, [] => 1 | Checking, _ => 3 | Processing _, _ => 3
  end.

Definition pending b : nat := 4 * length (queue b) + total (phase_left (queue b)) (runners b).

Lemma total_singleton {A} (w : A → nat) r p : total w {[r := p]} = w p.
Proof. unfold total. rewrite map_fold_singleton. lia. Qed.

Lemma pending_one b r p : runners b = {[r := p]} → pending b = 4 * length (queue b) + phase_left (queue b) p.
Proof. intros Hr. unfold pending. by rewrite Hr, total_singleton. Qed.

(** The runner moves on. *)
Lemma pending_set b b' r p p' :
  runners b = {[r := p]} → runners b' = {[r := p]} →
  4 * length (queue b') + phase_left (queue b') p' < 4 * length (queue b) + phase_left (queue b) p →
  pending (set_runner r p' b') < pending b.
Proof.
  intros Hr Hr' Hlt. rewrite (pending_one b r p Hr), (pending_one (set_runner r p' b') r p'); [done|].
  cbn. by rewrite Hr', insert_singleton_eq.
Qed.

Lemma snoc_ne {A} (q : list A) x : q ++ [x] ≠ q.
Proof. intros Heq. apply (f_equal length) in Heq. rewrite length_app in Heq. cbn in Heq. lia. Qed.

Lemma take_pending l r jobs b b' :
  batcher_inv l b → (maximum_items l ≠ 0)%N → runners b !! r = Some Draining → drain_take l b = (jobs, b') →
  pending (set_runner r (match jobs with [] => Checking | _ => Processing jobs end) b') < pending b.
Proof.
  intros Hi Hit Hr Ht. destruct (the_runner l b r _ Hi Hr) as (_ & Hrs & _).
  pose proof (take_jobs_some l (queue b) Hit) as Hsome. unfold drain_take in Ht.
  destruct (take_jobs l [] 0 (queue b)) as [jobs0 rest] eqn:Htake.
  apply (take_jobs_ok l (queue b) []) in Htake as [Hsplit _]; [|by left]. cbn in Hsplit, Hsome.
  destruct jobs0 as [|j0 jobs0]; cbn in Ht; injection Ht as <- <-.
  - apply (pending_set _ _ _ Draining); [done..|]. destruct (queue b) eqn:Hq; [cbn; lia|]. by destruct Hsome.
  - apply (pending_set _ _ _ Draining); [done..|]. rewrite Hsplit. cbn. rewrite length_app. lia.
Qed.

Lemma step_pending l b b' :
  batcher_inv l b → (maximum_items l ≠ 0)%N → step l b b' → accepted b' = accepted b → pending b' < pending b.
Proof.
  intros Hi Hit [j r b1 Hs Hr|j b1 Hs|r Hr|r jobs b1 Hr Ht|r b1 Hr Hc|r b1 Hr Hc|r jobs res Hr] Hacc.
  - apply submit_Ok in Hs as (_ & _ & ->). by apply snoc_ne in Hacc.
  - apply submit_Ok in Hs as (_ & _ & ->). by apply snoc_ne in Hacc.
  - destruct (the_runner l b r _ Hi Hr) as (_ & Hrs & _). apply (pending_set _ _ _ Spawned); [done..|]. cbn. lia.
  - by eapply take_pending.
  - destruct (the_runner l b r _ Hi Hr) as (_ & Hrs & _). rewrite (pending_one b r Checking Hrs).
    unfold drain_check in Hc. destruct (queue b) eqn:Hq; [|done]. injection Hc as <-.
    unfold pending. cbn. rewrite Hrs, delete_singleton_eq. cbn. unfold total. rewrite map_fold_empty. lia.
  - destruct (the_runner l b r _ Hi Hr) as (_ & Hrs & _). unfold drain_check in Hc.
    destruct (queue b) eqn:Hq; [done|]. injection Hc as <-.
    apply (pending_set _ _ _ Checking); [done..|]. rewrite Hq. cbn. lia.
  - destruct (the_runner l b r _ Hi Hr) as (_ & Hrs & _).
    apply (pending_set _ (mkBatcher (running b) (queue b) (submitted b) (batches b) (maximum_batch_size b)
      (active_runners b) (runners b) (accepted b) (served b ++ [(jobs, res)])) _ (Processing jobs)); [done..|]. cbn. lia.
Qed.

(** The batcher cannot get stuck and cannot spin.  Either every accepted job has
    been answered and no runner is left, or the runner has a step; and every step
    but a new submission strictly decreases [pending], so that without new
    submissions the batcher comes to rest with every job answered within [pending]
    steps, the processor returning each time. *)
Theorem batcher_drains items bytes l b :
  LazyBatcher_new items bytes = Ok l → rtc (step l) new b →
  ((accepted b = concat (served b).*1 ∧ runners b = ∅) ∨ ∃ b', step l b b' ∧ accepted b' = accepted b) ∧
  ∀ b', step l b b' → accepted b' = accepted b → pending b' < pending b.
Proof.
  intros Hl Hb. pose proof (batcher_reachable l b Hb) as Hi. split.
  - destruct (one_runner l b Hi) as [(_ & Hr & _ & _ & Hacc)|(r & p & _ & Hrs & _)]; [by left|right].
    assert (runners b !! r = Some p) as Hr by (rewrite Hrs; apply lookup_singleton_eq).
    destruct p as [| | |jobs].
    + eexists. split; [by eapply Begin|done].
    + destruct (drain_take l b) as [jobs b'] eqn:Ht. eexists. split; [by eapply Take|].
      unfold drain_take in Ht. destruct (take_jobs _ _ _ _) as [jobs0 rest]. by destruct (_ =? _)%N; simplify_eq.
    + destruct (drain_check b) as [[] b'] eqn:Hc; (eexists; split; [first [by eapply Stop|by eapply Resume]|]);
        unfold drain_check in Hc; destruct (queue b); by simplify_eq.
    + eexists. split; [by eapply (Answer _ _ _ _ (Ok []))|done].
  - intros b'. apply step_pending; [done|]. unfold LazyBatcher_new in Hl.
    destruct (N.eqb_spec items 0); [done|]. destruct (_ =? _)%N; [done|]. by apply Ok_inj in Hl as <-.
Qed.

End Batcher.
End BatcherFacts.
