(* ===== verification/RsmMachines.v ===== *)
(** * The metadata and coordinator machines (crates/pepper-kafka-model/src/rsm.rs)

    The two machines that Kafka hosts on the generic runtime, as instances of
    [ReplicatedStateMachine], with the assignment of topics and groups to shards. *)
From stdpp Require Import base gmap sets list strings sorting.
From Stdlib Require Import Strings.Byte Strings.Ascii.
From S2P Require Import Prelude Types Merkle Rsm RsmFacts.

Inductive TestRsmError := Invalid | Conflict | Fenced | Codec (message : string).

#[export] Instance TestRsmError_eq_dec : EqDecision TestRsmError.
Proof. solve_decision. Defined.

Definition TestRsmError_to_string (e : TestRsmError) : string :=
  match e with
  | Invalid => "invalid test RSM command"
  | Conflict => "test RSM entity already exists"
  | Fenced => "test RSM command is fenced"
  | Codec message => "test RSM codec failed: " +:+ message
  end.

Section Shards.
Context `{Blake3}.

Definition shard (key : string) (shards : N) : result TestRsmError N :=
  if bool_decide (key = "") || (shards =? 0)%N then Err Invalid
  else Ok (from_be_bytes (take 8 (blake3_hash (as_bytes key))) mod shards)%N.

Definition metadata_shard (topic : string) (shards : N) : result TestRsmError N := shard topic shards.
Definition coordinator_shard (group : string) (shards : N) : result TestRsmError N := shard group shards.

End Shards.

(** ** Topics *)

Record TopicRecord := mkTopic { partitions : N; replication_factor : N; epoch : N }.
Record MetadataState := mkMetadata { revision : N; topics : gmap string TopicRecord }.

Inductive MetadataCommand :=
| CreateTopic (name : string) (partitions replication_factor : N)
| DeleteTopic (name : string) (expected_epoch : N).

Record MetadataResponse := mkMetadataResponse { response_revision : N; topic : option TopicRecord }.

Definition MetadataState_default : MetadataState := mkMetadata 0 ∅.

Definition metadata_apply (command : MetadataCommand) : stm MetadataState TestRsmError MetadataResponse := λ s,
  match command with
  | CreateTopic name partitions replication_factor =>
      if bool_decide (name = "") || (partitions =? 0)%N || (replication_factor =? 0)%N then (Err Invalid, s)
      else if bool_decide (is_Some (topics s !! name)) then (Err Conflict, s)
      else
        let revision := saturating_add u64_max (revision s) 1 in
        let record := mkTopic partitions replication_factor revision in
        (Ok (mkMetadataResponse revision (Some record)), mkMetadata revision (<[name := record]> (topics s)))
  | DeleteTopic name expected_epoch =>
      if negb (bool_decide (epoch <$> topics s !! name = Some expected_epoch)) then (Err Fenced, s)
      else
        let revision := saturating_add u64_max (revision s) 1 in
        (Ok (mkMetadataResponse revision None), mkMetadata revision (delete name (topics s)))
  end.

Definition metadata_command_class (command : MetadataCommand) : string :=
  match command with CreateTopic _ _ _ => "create_topic" | DeleteTopic _ _ => "delete_topic" end.

#[export] Instance TestMetadataMachine `{Json MetadataState} :
  ReplicatedStateMachine MetadataState MetadataCommand MetadataResponse TestRsmError := {
  machine_apply := metadata_apply;
  encode_state s := map_err Codec (to_vec s);
  decode_state b := map_err Codec (from_slice b);
  error_to_string := TestRsmError_to_string
}.

(** ** Groups *)

Record GroupRecord := mkGroup { generation : N; members : gset string; offsets : gmap string N }.
Record CoordinatorState := mkCoordinator { groups : gmap string GroupRecord }.

Inductive CoordinatorCommand :=
| Join (group member : string)
| Leave (group member : string) (generation : N)
| CommitOffset (group member : string) (generation : N) (topic : string) (partition offset : N).

Record CoordinatorResponse := mkCoordinatorResponse { response_generation : N; member_count : N }.

Definition CoordinatorState_default : CoordinatorState := mkCoordinator ∅.
Definition GroupRecord_default : GroupRecord := mkGroup 0 ∅ ∅.

Definition command_group (command : CoordinatorCommand) : string :=
  match command with Join group _ | Leave group _ _ | CommitOffset group _ _ _ _ _ => group end.
Definition command_member (command : CoordinatorCommand) : string :=
  match command with Join _ member | Leave _ member _ | CommitOffset _ member _ _ _ _ => member end.

Definition validate_member (g : GroupRecord) (member : string) (gen : N) : result TestRsmError unit :=
  if negb (generation g =? gen)%N || negb (bool_decide (member ∈ members g)) then Err Fenced else Ok ().

Definition offset_key (topic : string) (partition : N) : string := topic +:+ ":" +:+ fmt_padded 10 10 partition.

(** The [match] on the command, on the group's record. *)
Definition group_command (command : CoordinatorCommand) (g : GroupRecord) : result TestRsmError GroupRecord :=
  match command with
  | Join _ member =>
      Ok (if bool_decide (member ∈ members g) then g
          else mkGroup (saturating_add u32_max (generation g) 1) ({[member]} ∪ members g) (offsets g))
  | Leave _ member gen =>
      _ ← validate_member g member gen;
      Ok (mkGroup (saturating_add u32_max (generation g) 1) (members g ∖ {[member]}) (offsets g))
  | CommitOffset _ member gen topic partition offset =>
      _ ← validate_member g member gen;
      _ ← fail_if (bool_decide (topic = "")) Invalid;
      Ok (mkGroup (generation g) (members g) (<[offset_key topic partition := offset]> (offsets g)))
  end.

(** [entry(..).or_default()] has put a record even when the command then fails. *)
Definition coordinator_apply (command : CoordinatorCommand) : stm CoordinatorState TestRsmError CoordinatorResponse := λ s,
  if bool_decide (command_group command = "") || bool_decide (command_member command = "") then (Err Invalid, s)
  else
    let g := default GroupRecord_default (groups s !! command_group command) in
    match group_command command g with
    | Ok g' => (Ok (mkCoordinatorResponse (generation g') (N.of_nat (size (members g')))),
                mkCoordinator (<[command_group command := g']> (groups s)))
    | Err e => (Err e, mkCoordinator (<[command_group command := g]> (groups s)))
    end.

Definition coordinator_command_class (command : CoordinatorCommand) : string :=
  match command with Join _ _ => "join" | Leave _ _ _ => "leave" | CommitOffset _ _ _ _ _ _ => "commit_offset" end.

#[export] Instance TestCoordinatorMachine `{Json CoordinatorState} :
  ReplicatedStateMachine CoordinatorState CoordinatorCommand CoordinatorResponse TestRsmError := {
  machine_apply := coordinator_apply;
  encode_state s := map_err Codec (to_vec s);
  decode_state b := map_err Codec (from_slice b);
  error_to_string := TestRsmError_to_string
}.

(** ** Offset keys *)

Lemma partition_length n : (n ≤ u32_max)%N → length (as_bytes (fmt_padded 10 10 n)) = 10.
Proof. intros Hn. apply fmt_padded_length; [lia|done|]. unfold u32_max in Hn. cbn. lia. Qed.

Lemma offset_key_inj t p t' p' :
  (p ≤ u32_max)%N → (p' ≤ u32_max)%N → offset_key t p = offset_key t' p' → t = t' ∧ p = p'.
Proof.
  intros Hp Hp' Heq. unfold offset_key in Heq. apply cut_at_length in Heq as [-> Heq].
  - split; [done|]. injection Heq as Heq. change (fmt_padded 10 10 p = fmt_padded 10 10 p') in Heq.
    pose proof (parse_padded 10 u32_max 10 p ltac:(lia) Hp) as H1.
    rewrite Heq, (parse_padded 10 u32_max 10 p' ltac:(lia) Hp') in H1. by injection H1.
  - apply (f_equal (length ∘ as_bytes)) in Heq. unfold compose in Heq. rewrite !as_bytes_app, !length_app in Heq.
    rewrite !partition_length in Heq by done. unfold slen, len. lia.
Qed.

(** ** Histories *)

Section Machines.
Context `{Blake3} `{Json MetadataState} `{Json CoordinatorState}.

Lemma apply_one {State Command Response Error} `{ReplicatedStateMachine State Command Response Error} c
    (h : HostedState State) rs h' :
  apply_batch [c] h = (Ok rs, h') →
  ∃ r, machine_apply c (value h) = (Ok r, value h') ∧ applied_index h' = saturating_add u64_max (applied_index h) 1.
Proof.
  unfold apply_batch. cbn [run_commands]. unfold mbind, stm_bind.
  destruct (machine_apply c (value h)) as [[r|e] s]; [|done].
  cbn. intros Heq. injection Heq as _ <-. by exists r.
Qed.

(** Topics have the epochs of the revisions that made them. *)
Definition metadata_ok (h : HostedState MetadataState) : Prop :=
  revision (value h) = applied_index h ∧ (revision (value h) ≤ u64_max)%N ∧
  (∀ n r, topics (value h) !! n = Some r → (epoch r ≤ revision (value h))%N) ∧
  ((revision (value h) < u64_max)%N →
   ∀ n n' r r', topics (value h) !! n = Some r → topics (value h) !! n' = Some r' → epoch r = epoch r' → n = n').

Lemma metadata_step c h rs h' : metadata_ok h → apply_batch [c] h = (Ok rs, h') → metadata_ok h'.
Proof.
  intros (Hrev & Hmax & Hle & Hinj) (r & Hm & Hidx)%apply_one. cbn in Hm. unfold metadata_ok. rewrite Hidx, <-Hrev.
  destruct c as [name parts rf|name ep]; cbn in Hm.
  - destruct (_ || _); [done|]. destruct (bool_decide _) eqn:Hnew; [done|].
    apply bool_decide_eq_false in Hnew. injection Hm as _ <-. cbn. unfold saturating_add.
    split_and!; [done|lia|..].
    + intros n r'. rewrite lookup_insert_Some. intros [[<- <-]|[_ Hr]]; cbn; [lia|]. pose proof (Hle n r' Hr). lia.
    + intros Hlt n n' r1 r2. rewrite !lookup_insert_Some. intros [[<- <-]|[_ H1']] [[<- <-]|[_ H2']]; cbn; [done|..].
      * pose proof (Hle n' r2 H2'). lia.
      * pose proof (Hle n r1 H1'). lia.
      * apply Hinj; [lia|done..].
  - destruct (negb _); [done|]. injection Hm as _ <-. cbn. unfold saturating_add. split_and!; [done|lia|..].
    + intros n r'. rewrite lookup_delete_Some. intros [_ Hr]. pose proof (Hle n r' Hr). lia.
    + intros Hlt n n' r1 r2. rewrite !lookup_delete_Some. intros [_ H1'] [_ H2']. apply Hinj; [lia|done..].
Qed.

(** The metadata machine on its host.  After any batches the revision is the
    host's applied index; no topic has an epoch beyond it, and as long as it is
    below [u64::MAX] no two topics have one epoch, so that an epoch names one
    creation and a delete that expects it can remove no later topic. *)
Theorem metadata_epochs bs :
  let h := run_batches bs (DeterministicHost_new MetadataState_default) in
  revision (value h) = applied_index h ∧
  (∀ n r, topics (value h) !! n = Some r → (epoch r ≤ applied_index h)%N) ∧
  ((applied_index h < u64_max)%N →
   ∀ n n' r r', topics (value h) !! n = Some r → topics (value h) !! n' = Some r' → epoch r = epoch r' → n = n').
Proof.
  intros h. assert (metadata_ok h) as (Hrev & _ & Hle & Hinj); [|by rewrite <-Hrev].
  apply run_batches_ind; [by eauto using metadata_step|done|].
  unfold metadata_ok. cbn. setoid_rewrite lookup_empty. done.
Qed.

(** The offset a group has committed for a partition. *)
Definition offset_of (s : CoordinatorState) (group topic : string) (partition : N) : option N :=
  groups s !! group ≫= λ g, offsets g !! offset_key topic partition.

(** The last offset that a list of commands commits for a partition. *)
Definition last_commit (commands : list CoordinatorCommand) (group topic : string) (partition : N) : option N :=
  foldl (λ acc c,
    match c with
    | CommitOffset g _ _ t p o => if decide ((g, t, p) = (group, topic, partition)) then Some o else acc
    | _ => acc
    end) None commands.

(** The partition of a command is a [u32]. *)
Definition command_u32 (c : CoordinatorCommand) : Prop :=
  match c with CommitOffset _ _ _ _ p _ => (p ≤ u32_max)%N | _ => True end.

Lemma commit_step c h rs h' group topic partition :
  command_u32 c → (partition ≤ u32_max)%N → apply_batch [c] h = (Ok rs, h') →
  offset_of (value h') group topic partition =
  match c with
  | CommitOffset g _ _ t p o =>
      if decide ((g, t, p) = (group, topic, partition)) then Some o else offset_of (value h) group topic partition
  | _ => offset_of (value h) group topic partition
  end.
Proof.
  intros Hc Hp (r & Hm & _)%apply_one. cbn in Hm. unfold coordinator_apply in Hm. destruct (_ || _); [done|].
  set (g := default GroupRecord_default (groups (value h) !! command_group c)) in Hm.
  destruct (group_command c g) as [g'|] eqn:Hg; [|done]. injection Hm as _ <-.
  assert (offset_of (value h) (command_group c) topic partition = offsets g !! offset_key topic partition) as Hold.
  { subst g. unfold offset_of. destruct (groups (value h) !! command_group c); cbn; [done|]. by rewrite lookup_empty. }
  unfold offset_of at 1. cbn [groups]. destruct (decide (command_group c = group)) as [<-|Hne].
  - rewrite lookup_insert_eq. cbn [mbind option_bind]. rewrite Hold.
    destruct c as [gr m|gr m gen|gr m gen t p o]; cbn [command_group group_command] in *.
    + apply Ok_inj in Hg as <-. by destruct (bool_decide _).
    + apply bind_Ok in Hg as (_ & _ & Hg). by apply Ok_inj in Hg as <-.
    + apply bind_Ok in Hg as (_ & _ & Hg). apply bind_Ok in Hg as (_ & _ & Hg). apply Ok_inj in Hg as <-. cbn [offsets].
      destruct (decide _) as [[= -> ->]|Hne]; [by rewrite lookup_insert_eq|].
      rewrite lookup_insert_ne; [done|]. intros [-> ->]%offset_key_inj; done.
  - rewrite lookup_insert_ne by done. fold (offset_of (value h) group topic partition).
    destruct c; cbn in Hne; try done. rewrite decide_False; [done|]. naive_solver.
Qed.

Lemma commits_fold cs h rs h' group topic partition :
  Forall command_u32 cs → (partition ≤ u32_max)%N → (applied_index h ≤ u64_max)%N → apply_batch cs h = (Ok rs, h') →
  offset_of (value h') group topic partition =
  foldl (λ acc c,
    match c with
    | CommitOffset g _ _ t p o => if decide ((g, t, p) = (group, topic, partition)) then Some o else acc
    | _ => acc
    end) (offset_of (value h) group topic partition) cs.
Proof.
  intros Hcs Hp. revert h rs. induction Hcs as [|c cs Hc _ IH]; intros h rs Hb Hrs.
  - rewrite apply_batch_nil in Hrs by done. by injection Hrs as _ <-.
  - change (c :: cs) with ([c] ++ cs) in Hrs. rewrite apply_batch_app in Hrs.
    destruct (apply_batch [c] h) as [[r1|] h1] eqn:H1'; [|done].
    destruct (apply_batch cs h1) as [[r2|] h2] eqn:H2'; [|done]. injection Hrs as _ <-.
    rewrite (IH h1 r2); [|by eapply apply_batch_bound|done]. cbn [foldl].
    by rewrite (commit_step _ _ _ _ _ _ _ Hc Hp H1').
Qed.

(** A group's offset for a partition is the last one committed.  After any
    batches the coordinator holds, for every group, topic and partition, the offset
    of the last [CommitOffset] for exactly these among the successful commands, and
    none if there is none: failed commands and failed batches leave no trace, and
    topics whose names run into the partition number do not mix. *)
Theorem offsets_last_commit bs group topic partition :
  Forall (Forall command_u32) bs → (partition ≤ u32_max)%N →
  let h0 := DeterministicHost_new CoordinatorState_default in
  offset_of (value (run_batches bs h0)) group topic partition = last_commit (concat (committed bs h0)) group topic partition.
Proof.
  intros Hbs Hp h0. destruct (run_batches_committed bs h0) as [rs Hrs]; [done|].
  eapply commits_fold in Hrs; [|by apply committed_Forall|exact Hp|done]. rewrite Hrs. unfold last_commit. done.
Qed.

End Machines.

(** Both codecs read back what they wrote, as JSON does. *)
#[export] Instance metadata_machine_laws `{Blake3, JsonLaws MetadataState} :
  MachineLaws MetadataState MetadataCommand MetadataResponse TestRsmError.
Proof.
  split. intros s b. cbn. destruct (to_vec s) as [p|] eqn:Hp; [|done]. intros Hb. apply Ok_inj in Hb as <-.
  by rewrite (from_slice_to_vec s p Hp).
Qed.

#[export] Instance coordinator_machine_laws `{Blake3, JsonLaws CoordinatorState} :
  MachineLaws CoordinatorState CoordinatorCommand CoordinatorResponse TestRsmError.
Proof.
  split. intros s b. cbn. destruct (to_vec s) as [p|] eqn:Hp; [|done]. intros Hb. apply Ok_inj in Hb as <-.
  by rewrite (from_slice_to_vec s p Hp).
Qed.
