(* ===== verification/RsmExamples.v ===== *)
(** * Hosted machines at work

    The theorems of the runtime applied to concrete groups, histories and
    interleavings, with the reference instances of the hash and of JSON. *)
From stdpp Require Import base gmap sets list strings sorting.
From Stdlib Require Import Strings.Byte.
From S2P Require Import Prelude Types Merkle Reference Rsm RsmFacts RsmSteps RsmMachines.

(** A group whose name runs like the scope of another. *)
Lemma storage_keys_separate_witness :
  ∃ id id' key key',
    GroupId_new "kafka" "a" = Ok id ∧ GroupId_new "kafka" "a/3:log" = Ok id' ∧
    StorageScope_key (StorageScope_new id) "log" "3:log/0" = Ok key ∧
    StorageScope_key (StorageScope_new id') "log" "0" = Ok key' ∧
    (key = key' → id = id' ∧ "log" = "log" ∧ "3:log/0" = "0").
Proof.
  eexists _, _, _, _. split; [vm_compute; reflexivity|]. split; [vm_compute; reflexivity|].
  split; [vm_compute; reflexivity|]. split; [vm_compute; reflexivity|].
  apply (storage_keys_separate "kafka" "a" "kafka" "a/3:log" _ _ "log" "log" "3:log/0" "0"); vm_compute; reflexivity.
Defined.

#[local] Instance Topic_ser : Ser TopicRecord.
Proof. refine (inj_ser (λ t, (partitions t, replication_factor t, epoch t)) (λ '(p, r, e), mkTopic p r e) _). by intros []. Defined.

#[local] Instance MetadataState_ser : Ser MetadataState.
Proof.
  refine (inj_ser (λ s, (revision s, topics s)) (λ '(r, t), mkMetadata r t) _). by intros [].
Defined.

#[local] Instance Group_ser : Ser GroupRecord.
Proof.
  refine (inj_ser (λ g, (generation g, elements (members g), offsets g))
            (λ '(n, m, o), mkGroup n (list_to_set m) o) _).
  intros [n m o]. cbn. f_equal. apply list_to_set_elements_L.
Defined.

#[local] Instance CoordinatorState_ser : Ser CoordinatorState.
Proof.
  refine (inj_ser groups mkCoordinator _). by intros [].
Defined.

#[local] Existing Instance ref_blake3.
#[local] Instance metadata_json : Json MetadataState := ref_json.
#[local] Instance coordinator_json : Json CoordinatorState := ref_json.
#[local] Instance metadata_json_laws : JsonLaws MetadataState := ref_json_laws.
#[local] Instance coordinator_json_laws : JsonLaws CoordinatorState := ref_json_laws.

(** Two topics; the second batch fails at its second command. *)
Definition topic_batches : list (list MetadataCommand) :=
  [[CreateTopic "orders" 12 3]; [CreateTopic "payments" 6 3; CreateTopic "orders" 1 1]; [CreateTopic "payments" 6 3]].

Lemma snapshot_resumes_witness :
  ∃ snap h, snapshot (run_batches topic_batches (DeterministicHost_new MetadataState_default)) = Ok snap ∧
    restore snap (DeterministicHost_new MetadataState_default) = (Ok (), h) ∧
    run_batches [[DeleteTopic "orders" 1]] h =
    run_batches (topic_batches ++ [[DeleteTopic "orders" 1]]) (DeterministicHost_new MetadataState_default).
Proof.
  destruct (snapshot (run_batches topic_batches (DeterministicHost_new MetadataState_default))) as [snap|] eqn:Hs;
    [|by vm_compute in Hs].
  destruct (snapshot_resumes topic_batches [[DeleteTopic "orders" 1]] MetadataState_default
    (DeterministicHost_new MetadataState_default) snap Hs) as [(h & Hr & Heq) _].
  exists snap, h. done.
Defined.

(** A commit by a member, one from a former generation, and topics that share a
    prefix. *)
Definition offset_batches : list (list CoordinatorCommand) :=
  [[Join "g" "m"]; [CommitOffset "g" "m" 1 "t" 7 41; CommitOffset "g" "m" 1 "t:1" 7 42];
   [Join "g" "n"]; [CommitOffset "g" "m" 1 "t" 7 43]; [CommitOffset "g" "n" 2 "t" 7 44]].

Lemma offsets_last_commit_witness :
  offset_of (value (run_batches offset_batches (DeterministicHost_new CoordinatorState_default))) "g" "t" 7 = Some 44%N ∧
  offset_of (value (run_batches offset_batches (DeterministicHost_new CoordinatorState_default))) "g" "t:1" 7 = Some 42%N.
Proof.
  split; (etrans; [apply offsets_last_commit; [repeat constructor; vm_compute; discriminate|vm_compute; discriminate]|]);
    vm_compute; reflexivity.
Defined.


(** Two overlapping reads: the second arrives in the join window of the first and
    returns on its proof. *)
Lemma two_reads : ∃ g r,
  rtc Gate.step Gate.new g ∧ Gate.clock g = 8 ∧ Gate.readers g !! 1 = Some r ∧ Gate.phase r = Gate.Returned true.
Proof.
  eexists _, _. split.
  - eapply rtc_l; [apply (Gate.Arrive _ 0); reflexivity|].
    eapply rtc_l; [eapply (Gate.Acquire _ 0); reflexivity|].
    eapply rtc_l; [eapply (Gate.Join _ 0); reflexivity|].
    eapply rtc_l; [apply (Gate.Arrive _ 1); reflexivity|].
    eapply rtc_l; [eapply (Gate.Prove _ 0); reflexivity|].
    eapply rtc_l; [eapply (Gate.Proved _ 0); reflexivity|].
    eapply rtc_l; [eapply (Gate.Acquire _ 1); reflexivity|].
    eapply rtc_l; [eapply (Gate.Covered _ 1); [reflexivity|reflexivity|vm_compute; discriminate]|].
    apply rtc_refl.
  - split; [reflexivity|]. split; reflexivity.
Defined.

Lemma reads_linearizable_witness :
  ∃ g r started, rtc Gate.step Gate.new g ∧ Gate.readers g !! 1 = Some r ∧ Gate.phase r = Gate.Returned true ∧
    started ∈ Gate.proofs g ∧ Gate.arrived r ≤ started.
Proof.
  destruct two_reads as (g & r & Hg & Hc & Hr & Hp).
  destruct (GateFacts.reads_linearizable g 1 r Hg) as (s & Hs & Hle);
    [rewrite Hc; vm_compute; discriminate|done|done|].
  exists g, r, s. done.
Defined.

Lemma gate_drains_witness :
  ∃ g, rtc Gate.step Gate.new g ∧ ∃ g', Gate.step g g' ∧ dom (Gate.readers g') = dom (Gate.readers g).
Proof.
  eexists. split; [eapply rtc_l; [apply (Gate.Arrive _ 0); reflexivity|]; apply rtc_refl|].
  apply GateFacts.gate_drains.
  - eapply rtc_l; [apply (Gate.Arrive _ 0); reflexivity|]. apply rtc_refl.
  - vm_compute. discriminate.
  - exists 0. eexists. split; [reflexivity|]. done.
Defined.

(** One job is in flight and a second one queued. *)
Lemma one_queued : ∃ b : @Batcher.Batcher nat nat unit,
  rtc (Batcher.step (Batcher.mkBatchLimits 2 100 16)) Batcher.new b ∧
  Batcher.accepted b = [Batcher.mkJob 0 10 5; Batcher.mkJob 1 11 6] ∧ Batcher.queue b = [Batcher.mkJob 1 11 6].
Proof.
  eexists. split.
  - eapply rtc_l; [eapply (Batcher.Lead _ _ (Batcher.mkJob 0 10 5) 0); reflexivity|].
    eapply rtc_l; [eapply (Batcher.Begin _ _ 0); reflexivity|].
    eapply rtc_l; [eapply (Batcher.Take _ _ 0); reflexivity|].
    eapply rtc_l; [eapply (Batcher.Follow _ _ (Batcher.mkJob 1 11 6)); reflexivity|]. apply rtc_refl.
  - split; reflexivity.
Defined.

Lemma batcher_serves_witness :
  ∃ b : @Batcher.Batcher nat nat unit,
    rtc (Batcher.step (Batcher.mkBatchLimits 2 100 16)) Batcher.new b ∧ Batcher.queue b ≠ [] ∧
    (Batcher.active_runners b ≤ 1)%N.
Proof.
  destruct one_queued as (b & Hb & _ & Hq). exists b. split; [done|]. split; [by rewrite Hq|].
  by apply (BatcherFacts.batcher_serves 2 100 (Batcher.mkBatchLimits 2 100 16) b).
Defined.

Lemma batcher_drains_witness :
  ∃ b b' : @Batcher.Batcher nat nat unit,
    rtc (Batcher.step (Batcher.mkBatchLimits 2 100 16)) Batcher.new b ∧
    Batcher.step (Batcher.mkBatchLimits 2 100 16) b b' ∧ BatcherFacts.pending b' < BatcherFacts.pending b.
Proof.
  destruct one_queued as (b & Hb & Hacc & Hq).
  destruct (BatcherFacts.batcher_drains 2 100 (Batcher.mkBatchLimits 2 100 16) b eq_refl Hb) as [[[Hall Hr]|(b' & Hs & Ha)] Hlt].
  - destruct (BatcherFacts.one_runner _ _ (BatcherFacts.batcher_reachable _ _ Hb)) as [(_ & _ & Hq' & _)|(r & p & _ & Hr' & _)].
    + by rewrite Hq' in Hq.
    + rewrite Hr' in Hr. by apply map_non_empty_singleton in Hr.
  - exists b, b'. eauto.
Defined.
