(* ===== verification/Commit.v ===== *)
(** * The commit engine (crates/pepper-commit)

    The order in which a product's artifacts are prepared, staged, made durable,
    proposed, reconciled and released.  The engine is a program over the calls it makes:
    the methods of the product's workflow, the fault injector and the counters.  The
    product answers the calls, so that one engine runs against any product, alone or
    interleaved with other commits. *)
From stdpp Require Import base gmap list strings.
From S2P Require Import Prelude.

(** Closed transition boundaries for fault injection. *)
Inductive CommitStage :=
| PrepareBefore | PrepareAfter | StageBefore | StageAfter | DurabilityBefore | DurabilityAfter
| ProposalBefore | ProposalAfter | AmbiguousLookupBefore | AmbiguousLookupAfter
| ReconcileBefore | ReconcileAfter | FinalizeBefore | FinalizeAfter.

#[export] Instance CommitStage_eq_dec : EqDecision CommitStage.
Proof. solve_decision. Defined.

Inductive CommitDisposition := Committed | Rejected | AmbiguousUnresolved.

#[export] Instance CommitDisposition_eq_dec : EqDecision CommitDisposition.
Proof. solve_decision. Defined.

(** A known response, or an outcome that may have committed. *)
Inductive ProposalAttempt (P E : Type) :=
| Definitive (p : P)
| Ambiguous (e : E).
Arguments Definitive {_ _} _.
Arguments Ambiguous {_ _} _.

Record CommitInput (R G : Type) := mkCommitInput { request : R; guard : G }.
Arguments mkCommitInput {_ _} _ _.
Arguments request {_ _} _.
Arguments guard {_ _} _.

Record CommitOutcome (R E : Type) := mkOutcome { outcome_result : R; evidence : E; ambiguous_recovered : bool }.
Arguments mkOutcome {_ _} _ _ _.
Arguments outcome_result {_ _} _.
Arguments evidence {_ _} _.
Arguments ambiguous_recovered {_ _} _.

(** The process-wide counters. *)
Inductive Counter := PREPARED | STAGED | DURABLE | PROPOSED | AMBIGUOUS | RECOVERED | RECONCILED | FINALIZED.

Record CommitStats := mkCommitStats {
  prepared : N; staged_count : N; durable : N; proposed : N; ambiguous : N; recovered : N; reconciled : N; finalized : N
}.

Definition process_start : CommitStats := mkCommitStats 0 0 0 0 0 0 0 0.

#[export] Instance Counter_eq_dec : EqDecision Counter.
Proof. solve_decision. Defined.

(** [fetch_add(1, Relaxed)] *)
Definition fetch_add (c : Counter) (s : CommitStats) : CommitStats :=
  let add d n := if decide (c = d) then wrapping_add u64_max n 1 else n in
  mkCommitStats (add PREPARED (prepared s)) (add STAGED (staged_count s)) (add DURABLE (durable s))
    (add PROPOSED (proposed s)) (add AMBIGUOUS (ambiguous s)) (add RECOVERED (recovered s))
    (add RECONCILED (reconciled s)) (add FINALIZED (finalized s)).

Section Engine.
(** The associated types of [CommitTypes]. *)
Context {Request Prepared Evidence Guard Proposal Res Error : Type}.

(** [GuardedProposer::interpret] *)
Variable interpret : Proposal → result Error Res.

(** What the engine calls, and the type of the answer.  A method that takes
    [&mut prepared] answers with the prepared value it leaves. *)
Inductive Op :=
| Fault (stage : CommitStage)
| Prepare (r : Request)
| Stage (r : Request) (p : Prepared)
| Establish (r : Request) (p : Prepared)
| Propose (r : Request) (p : Prepared) (e : Evidence) (g : Guard)
| Lookup (r : Request) (p : Prepared)
| Reconcile (r : Request) (p : Prepared) (e : Evidence) (res : Res)
| Finalize (r : Request) (p : Prepared) (d : CommitDisposition)
| Count (c : Counter).

Definition answer (o : Op) : Type :=
  match o with
  | Fault _ => result Error unit
  | Prepare _ => result Error Prepared
  | Stage _ _ | Finalize _ _ _ => result Error unit * Prepared
  | Establish _ _ => result Error Evidence * Prepared
  | Propose _ _ _ _ => ProposalAttempt Proposal Error
  | Lookup _ _ => result Error (option Res)
  | Reconcile _ _ _ _ => result Error unit
  | Count _ => unit
  end.

(** An [async fn]: done, or waiting for the answer of a call. *)
Inductive prog (A : Type) : Type :=
| Done (a : A)
| Do (o : Op) (k : answer o → prog A).
#[global] Arguments Done {_} _.
#[global] Arguments Do {_} _ _.

Fixpoint prog_bind {A B} (t : prog A) (f : A → prog B) : prog B :=
  match t with
  | Done a => f a
  | Do o k => Do o (λ x, prog_bind (k x) f)
  end.

Definition fallible (A : Type) : Type := prog (result Error A).

#[global] Instance fallible_ret : MRet fallible := λ A a, Done (Ok a).
#[global] Instance fallible_bind : MBind fallible := λ A B f m,
  prog_bind m (λ r, match r with Ok a => f a | Err e => Done (Err e) end).

Definition call (o : Op) : fallible (answer o) := Do o (λ x, Done (Ok x)).
(** [r?] *)
Definition attempt {A} (r : result Error A) : fallible A := Done r.

Definition fault (stage : CommitStage) : fallible unit := Do (Fault stage) (λ x, Done x).
Definition count (c : Counter) : fallible unit := Do (Count c) (λ _, Done (Ok ())).

Definition finalize_failure (r : Request) (p : Prepared) (d : CommitDisposition) : fallible unit :=
  _ ← fault FinalizeBefore;
  '(released, _) ← call (Finalize r p d);
  _ ← attempt released;
  _ ← count FINALIZED;
  fault FinalizeAfter.

(** [if let Err(error) = m { self.finalize_failure(.., Rejected).await?; return Err(error) }] *)
Definition or_reject {A} (r : Request) (p : Prepared) (m : fallible A) : fallible A :=
  prog_bind m (λ x, match x return fallible A with
    | Ok a => mret a
    | Err error => _ ← finalize_failure r p Rejected; attempt (Err error)
    end).

Definition recover_ambiguous (r : Request) (p : Prepared) (original : Error) : fallible (Res * bool) :=
  _ ← count AMBIGUOUS;
  _ ← fault AmbiguousLookupBefore;
  found ← call (Lookup r p);
  found ← attempt found;
  _ ← fault AmbiguousLookupAfter;
  match found with
  | Some res => _ ← count RECOVERED; mret (res, true)
  | None => _ ← finalize_failure r p AmbiguousUnresolved; attempt (Err original)
  end.

(** The match on the proposal's attempt. *)
Definition settle (r : Request) (p : Prepared) (a : ProposalAttempt Proposal Error) : fallible (Res * bool) :=
  match a with
  | Definitive proposal =>
      after ← call (Fault ProposalAfter);
      match after with
      | Err error => recover_ambiguous r p error
      | Ok _ => res ← or_reject r p (attempt (interpret proposal)); mret (res, false)
      end
  | Ambiguous error => recover_ambiguous r p error
  end.

Definition execute (input : CommitInput Request Guard) : fallible (CommitOutcome Res Evidence) :=
  let r := request input in
  _ ← fault PrepareBefore;
  p ← call (Prepare r);
  p ← attempt p;
  _ ← count PREPARED;
  _ ← fault PrepareAfter;
  _ ← fault StageBefore;
  '(staged, p) ← call (Stage r p);
  _ ← attempt staged;
  _ ← count STAGED;
  _ ← or_reject r p (fault StageAfter);
  _ ← or_reject r p (fault DurabilityBefore);
  '(established, p) ← call (Establish r p);
  e ← or_reject r p (attempt established);
  _ ← count DURABLE;
  _ ← or_reject r p (fault DurabilityAfter);
  _ ← or_reject r p (fault ProposalBefore);
  a ← call (Propose r p e (guard input));
  _ ← count PROPOSED;
  '(res, ambiguous_recovered) ← settle r p a;
  _ ← fault ReconcileBefore;
  done ← call (Reconcile r p e res);
  _ ← attempt done;
  _ ← count RECONCILED;
  _ ← fault ReconcileAfter;
  _ ← fault FinalizeBefore;
  '(released, _) ← call (Finalize r p Committed);
  _ ← attempt released;
  _ ← count FINALIZED;
  _ ← fault FinalizeAfter;
  mret (mkOutcome res e ambiguous_recovered).

(** ** Running the engine against a product *)

(** A product that answers every call at once. *)
Fixpoint run {W A} (handle : ∀ o : Op, W → answer o * W) (t : prog A) (w : W) : A * W :=
  match t with
  | Done a => (a, w)
  | Do o k => let '(x, w) := handle o w in run handle (k x) w
  end.

(** The calls of one run with their answers. *)
Definition Event : Type := { o : Op & answer o }.

Fixpoint runs {A} (t : prog A) (events : list Event) (a : A) : Prop :=
  match t with
  | Done b => events = [] ∧ a = b
  | Do o k => ∃ x rest, events = existT o x :: rest ∧ runs (k x) rest a
  end.

(** ** Batches

    [stream::iter(..).buffered(limit)]: the futures in progress are a window of the
    inputs; a result leaves the window when those before it have left.  What the
    product does while no commit calls it, such as a lost proposal that commits late,
    is a step of its own. *)
Record Batch (W : Type) := mkBatch {
  waiting : list (CommitInput Request Guard);
  window : list (fallible (CommitOutcome Res Evidence));
  yielded : list (result Error (CommitOutcome Res Evidence));
  world : W
}.
#[global] Arguments mkBatch {_} _ _ _ _.
#[global] Arguments waiting {_} _.
#[global] Arguments window {_} _.
#[global] Arguments yielded {_} _.
#[global] Arguments world {_} _.

(** How a product may answer a call, and what it does by itself. *)
Class Product (W : Type) := {
  acts : ∀ o : Op, W → answer o → W → Prop;
  drifts : W → W → Prop
}.

Definition execute_batch {W} (inputs : list (CommitInput Request Guard)) (w : W) : Batch W := mkBatch inputs [] [] w.

Inductive engine_step {W} `{!Product W} (max_in_flight : nat) : Batch W → Batch W → Prop :=
| Start input rest ts ys w :
    length ts < Nat.max max_in_flight 1 →
    engine_step max_in_flight (mkBatch (input :: rest) ts ys w) (mkBatch rest (ts ++ [execute input]) ys w)
| Act inputs ts ys w i o k x w' :
    ts !! i = Some (Do o k) → acts o w x w' →
    engine_step max_in_flight (mkBatch inputs ts ys w) (mkBatch inputs (<[i := k x]> ts) ys w')
| Yield inputs ts ys w r :
    engine_step max_in_flight (mkBatch inputs (Done r :: ts) ys w) (mkBatch inputs ts (ys ++ [r]) w).

Inductive batch_step {W} `{!Product W} (max_in_flight : nat) (b : Batch W) : Batch W → Prop :=
| Engine b' : engine_step max_in_flight b b' → batch_step max_in_flight b b'
| Drift w' : drifts (world b) w' → batch_step max_in_flight b (mkBatch (waiting b) (window b) (yielded b) w').

End Engine.

Arguments Op : clear implicits.
