(* ===== verification/CommitFacts.v ===== *)
(** * The commit engine is correct

    Every run of the engine keeps to a protocol ([execute_protocol]).  A batch finishes
    in a bounded number of steps and yields the results of its inputs in their order,
    whatever the interleaving ([batch_completes]).  For a product that keeps the
    contract of its traits, nothing that may have committed is ever without
    protection ([commits_protected]). *)
From stdpp Require Import base gmap list strings.
From S2P Require Import Prelude Commit.

Lemma Forall2_impl_l {A B} (P Q : A → B → Prop) l k :
  Forall2 P l k → (∀ x y, x ∈ l → P x y → Q x y) → Forall2 Q l k.
Proof. induction 1; constructor; [set_solver|]. apply IHForall2. set_solver. Qed.

(** One pair changes, the others are carried over. *)
Lemma Forall2_update {A B} (P Q : A → B → Prop) l k j x y' :
  Forall2 P l k → l !! j = Some x → Q x y' →
  (∀ j' x' y, j' ≠ j → l !! j' = Some x' → P x' y → Q x' y) → Forall2 Q l (<[j := y']> k).
Proof.
  intros HF. revert j. induction HF as [|a b l k Hab HF IH]; intros [|j] Hj HQ Ho; try done; simpl in *.
  - injection Hj as ->. constructor; [done|]. eapply Forall2_impl_l; [done|].
    intros x' y Hx' HP. apply list_elem_of_lookup in Hx' as [j' Hj']. by apply (Ho (S j')).
  - constructor; [by apply (Ho 0)|]. apply IH; [done..|]. intros j' x' y Hne Hl. apply (Ho (S j')); [lia|done].
Qed.

Section Facts.
Context {Request Prepared Evidence Guard Proposal Res Error : Type}.
Variable interpret : Proposal → result Error Res.

Local Abbreviation Op := (Op Request Prepared Evidence Guard Res).
Local Abbreviation answer := (answer (Request:=Request) (Prepared:=Prepared) (Evidence:=Evidence) (Guard:=Guard)
  (Proposal:=Proposal) (Res:=Res) (Error:=Error)).
Local Abbreviation prog := (prog (Request:=Request) (Prepared:=Prepared) (Evidence:=Evidence) (Guard:=Guard)
  (Proposal:=Proposal) (Res:=Res) (Error:=Error)).
Local Abbreviation Event := (Event (Request:=Request) (Prepared:=Prepared) (Evidence:=Evidence) (Guard:=Guard)
  (Proposal:=Proposal) (Res:=Res) (Error:=Error)).
Local Abbreviation Input := (CommitInput Request Guard).
Local Abbreviation Outcome := (CommitOutcome Res Evidence).

(** ** The protocol *)

Inductive Phase :=
| Fresh
| Readied
| Staged
| Undurable
| Durable
| Decided (r : result Error Res)
| Unknown
| Found
| Lost
| Reconciled (looked_up : bool)
| Halted
| Closed (d : CommitDisposition) (looked_up : bool).

(** The phase after a call, if the protocol allows the call. *)
Definition next (s : Phase) (o : Op) : answer o → option Phase :=
  match o return answer o → option Phase with
  | Count _ => λ _, Some s
  | Fault ProposalAfter => λ x, match x, s with Err _, Decided _ => Some Unknown | _, _ => Some s end
  | Fault _ => λ _, Some s
  | Prepare _ => λ x, match s with Fresh => Some (if is_Ok x then Readied else Halted) | _ => None end
  | Stage _ _ => λ x, match s with Readied => Some (if is_Ok x.1 then Staged else Halted) | _ => None end
  | Establish _ _ => λ x, match s with Staged => Some (if is_Ok x.1 then Durable else Undurable) | _ => None end
  | Propose _ _ _ _ => λ x,
      match s, x with
      | Durable, Definitive p => Some (Decided (interpret p))
      | Durable, Ambiguous _ => Some Unknown
      | _, _ => None
      end
  | Lookup _ _ => λ x,
      match s, x with
      | Unknown, Ok (Some _) => Some Found
      | Unknown, Ok None => Some Lost
      | Unknown, Err _ => Some Halted
      | _, _ => None
      end
  | Reconcile _ _ _ _ => λ x,
      match s with
      | Decided (Ok _) => Some (if is_Ok x then Reconciled false else Halted)
      | Found => Some (if is_Ok x then Reconciled true else Halted)
      | _ => None
      end
  | Finalize _ _ d => λ _,
      match s, d with
      | (Staged | Undurable | Durable | Decided (Err _)), Rejected => Some (Closed d false)
      | Lost, AmbiguousUnresolved => Some (Closed d true)
      | Reconciled b, Committed => Some (Closed d b)
      | _, _ => None
      end
  end.

Fixpoint path (s : Phase) (events : list Event) : option Phase :=
  match events with
  | [] => Some s
  | existT o x :: events => s ← next s o x; path s events
  end.

Definition unfaulted (e : Event) : Prop :=
  match e with existT o x =>
    match o return answer o → Prop with Fault _ => λ x, x = Ok () | _ => λ _, True end x
  end.

(** A run that no fault cut short released its staging, or ended in a call that says
    that it must be kept. *)
Definition settled (s : Phase) : Prop := match s with Halted | Closed _ _ => True | _ => False end.

Definition ends (faults : bool) (s : Phase) (r : result Error Outcome) : Prop :=
  match r with
  | Ok out => s = Closed Committed (ambiguous_recovered out)
  | Err _ => faults = false → settled s
  end.

(** Every run of [t] from phase [s] keeps to the protocol and ends well. *)
Fixpoint obeys (faults : bool) (t : prog (result Error Outcome)) (s : Phase) : Prop :=
  match t with
  | Done r => ends faults s r
  | Do o k => ∀ x, (faults = false → unfaulted (existT o x)) →
      match next s o x with Some s => obeys faults (k x) s | None => False end
  end.

Lemma obeys_path faults t : ∀ s events r,
  obeys faults t s → (faults = false → Forall unfaulted events) → runs t events r →
  ∃ s', path s events = Some s' ∧ ends faults s' r.
Proof.
  induction t as [r|o k IH]; intros s events r' Ho Hf Hr; cbn [obeys runs] in *.
  - destruct Hr as [-> ->]. by exists s.
  - destruct Hr as (x & rest & -> & Hr). specialize (Ho x).
    assert (faults = false → unfaulted (existT o x)) as Hx by (intros Hff; by specialize (Hf Hff); apply Forall_cons in Hf as [? _]).
    specialize (Ho Hx). cbn [path]. destruct (next s o x) as [s'|]; [|done]. cbn.
    eapply IH; [done| |done]. intros Hff. specialize (Hf Hff). by apply Forall_cons in Hf as [_ ?].
Qed.

(** [walk] follows every answer of every call. *)
Ltac walk :=
  repeat (cbn; match goal with
  | |- ∀ _, _ => intros ?
  | x : result _ _ * _ |- _ => destruct x as [[?|?] ?]
  | x : result _ _ |- _ => destruct x as [?|?]
  | x : ProposalAttempt _ _ |- _ => destruct x as [?|?]
  | x : option _ |- _ => destruct x as [?|]
  | x : unit |- _ => destruct x
  | H : ?f = false → Err _ = Ok _, E : ?f = false |- _ => discriminate (H E)
  | |- context [match interpret ?p with _ => _ end] => destruct (interpret p) eqn:?
  end).

Lemma execute_obeys faults input : obeys faults (execute interpret input) Fresh.
Proof.
  unfold execute, settle, recover_ambiguous, or_reject, finalize_failure, fault, count, call, attempt.
  walk; done.
Qed.

(** C26: the commit protocol.  However the product answers and whatever faults strike,
    the calls of a commit follow the protocol: stage after prepare, durability after
    staging, the proposal after durability, a lookup only when the outcome is unknown,
    reconciliation only of a result, and the staging released last - as committed only
    after reconciliation, as rejected only when nothing was proposed or the proposal
    was refused, as ambiguous only when the lookup found nothing.  A commit succeeds
    exactly at the end of this path, with a lookup if and only if it says so; and when no
    fault strikes, a commit that fails has released its staging or failed in preparing,
    staging, looking up or reconciling. *)
Theorem execute_protocol input events r :
  runs (execute interpret input) events r →
  ∃ s, path Fresh events = Some s ∧
    (∀ out, r = Ok out → s = Closed Committed (ambiguous_recovered out)) ∧
    (Forall unfaulted events → ∀ e, r = Err e → settled s).
Proof.
  intros Hr.
  destruct (obeys_path true _ Fresh events r (execute_obeys true input)) as (s & Hs & He); [done|done|].
  exists s. split_and!; [done|intros out ->; done|]. intros Hf e ->.
  destruct (obeys_path false _ Fresh events (Err e) (execute_obeys false input)) as (s' & Hs' & He'); [done|done|].
  rewrite Hs in Hs'. injection Hs' as ->. by apply He'.
Qed.

(** ** Batches *)

(** A program in the middle of a run. *)
Inductive after {A} (t : prog A) : list Event → prog A → Prop :=
| after_start : after t [] t
| after_call events o k x : after t events (Do o k) → after t (events ++ [existT o x]) (k x).

Lemma after_runs {A} (t u : prog A) events : after t events u → ∀ rest a, runs u rest a → runs t (events ++ rest) a.
Proof.
  induction 1 as [|events o k x _ IH]; intros rest a Hr; [done|].
  rewrite <-app_assoc. apply IH. cbn. eauto.
Qed.

(** At most [n] calls are left. *)
Fixpoint within {A} (n : nat) (t : prog A) : Prop :=
  match t, n with
  | Done _, _ => True
  | Do o k, O => False
  | Do o k, S n => ∀ x, within n (k x)
  end.

Definition most_calls : nat := 29.

Lemma execute_within input : within most_calls (execute interpret input).
Proof.
  unfold most_calls, execute, settle, recover_ambiguous, or_reject, finalize_failure, fault, count, call, attempt.
  walk; done.
Qed.

Section Batch.
Context {W : Type} `{!Product (Request:=Request) (Prepared:=Prepared) (Evidence:=Evidence) (Guard:=Guard)
  (Proposal:=Proposal) (Res:=Res) (Error:=Error) W}.
Variable max_in_flight : nat.
Implicit Types b : Batch (Request:=Request) (Prepared:=Prepared) (Evidence:=Evidence) (Guard:=Guard)
  (Proposal:=Proposal) (Res:=Res) (Error:=Error) W.

(** A run of a batch, with the number of steps of the engine. *)
Inductive batch_run : nat → Batch W → Batch W → Prop :=
| run_start b : batch_run 0 b b
| run_engine n b b' b'' : batch_run n b b' → engine_step interpret max_in_flight b' b'' → batch_run (S n) b b''
| run_drift n b b' w' : batch_run n b b' → drifts (world b') w' →
    batch_run n b (mkBatch (waiting b') (window b') (yielded b') w').

(** A property that every step keeps holds throughout. *)
Lemma batch_run_inv (I : nat → Batch W → Prop) n b b' :
  (∀ n b b', I n b → engine_step interpret max_in_flight b b' → I (S n) b') →
  (∀ n b w', I n b → drifts (world b) w' → I n (mkBatch (waiting b) (window b) (yielded b) w')) →
  I 0 b → batch_run n b b' → I n b'.
Proof. intros He Hd H0. induction 1; eauto. Qed.

Definition answered (i : Input) (r : result Error Outcome) : Prop := ∃ events : list Event, runs (execute interpret i) events r.
Definition underway (i : Input) (t : prog (result Error Outcome)) : Prop := ∃ events : list Event, after (execute interpret i) events t.

Fixpoint calls_left (l : list nat) : nat :=
  match l with [] => 0 | n :: l => n + calls_left l end.

(** The inputs are those answered, those in the window and those that wait, in this
    order, and the steps done and left are bounded. *)
Definition in_order (inputs : list Input) (n : nat) b : Prop :=
  ∃ before live left,
    inputs = before ++ live ++ waiting b ∧ Forall2 answered before (yielded b) ∧ Forall2 underway live (window b) ∧
    Forall2 within left (window b) ∧ length (window b) ≤ Nat.max max_in_flight 1 ∧
    n + calls_left left + length (window b) + length (waiting b) * S (S most_calls) ≤ length inputs * S (S most_calls).

Lemma calls_left_app l k : calls_left (l ++ k) = calls_left l + calls_left k.
Proof. induction l as [|x l IH]; cbn; [done|]. rewrite IH. lia. Qed.

Lemma calls_left_insert l i m n : l !! i = Some m → calls_left (<[i:=n]> l) + m = calls_left l + n.
Proof.
  revert i. induction l as [|x l IH]; intros [|i]; simpl; [done..| |].
  - intros [= ->]. lia.
  - intros H. specialize (IH i H). lia.
Qed.

Lemma in_order_step inputs n b b' :
  in_order inputs n b → engine_step interpret max_in_flight b b' → in_order inputs (S n) b'.
Proof.
  intros (before & live & left & -> & Hd & Hl & Hb & Hlen & Hn) Hs.
  destruct Hs as [input rest ts ys w Hw|rest ts ys w i o k x w' Hi _|rest ts ys w r]; cbn in *.
  - exists before, (live ++ [input]), (left ++ [most_calls]). cbn. split_and!.
    + by rewrite <-app_assoc.
    + done.
    + apply Forall2_app; [done|]. constructor; [|done]. exists []. constructor.
    + apply Forall2_app; [done|]. constructor; [apply execute_within|done].
    + rewrite length_app; cbn. lia.
    + rewrite calls_left_app, !length_app in *. cbn [calls_left length] in *. unfold most_calls in *. lia.
  - destruct (Forall2_lookup_r _ _ _ _ _ Hl Hi) as (input & Hin & events & Hev).
    destruct (Forall2_lookup_r _ _ _ _ _ Hb Hi) as (m & Hm & Hwi). destruct m as [|m]; [done|].
    exists before, live, (<[i := m]> left). cbn. split_and!; [done|done| | | |].
    + rewrite <-(list_insert_id live i input Hin). apply Forall2_insert; [done|]. eexists. by constructor.
    + apply Forall2_insert; [done|]. apply Hwi.
    + by rewrite length_insert.
    + pose proof (calls_left_insert left i (S m) m Hm). rewrite length_insert, !length_app in *. lia.
  - apply Forall2_cons_inv_r in Hl as (input & live' & [events Hev] & Hl & ->).
    apply Forall2_cons_inv_r in Hb as (m & left' & _ & Hb & ->).
    exists (before ++ [input]), live', left'. cbn. split_and!; [by rewrite <-app_assoc| |done|done|lia|].
    + apply Forall2_app; [done|]. constructor; [|done]. exists (events ++ []). by eapply after_runs.
    + rewrite !length_app in *. cbn [calls_left length] in *. rewrite !length_app in *. unfold most_calls in *. lia.
Qed.

Lemma in_order_run inputs w n b : batch_run n (execute_batch inputs w) b → in_order inputs n b.
Proof.
  apply (batch_run_inv (in_order inputs)); [by intros; eapply in_order_step|done|].
  exists [], [], []. cbn. split_and!; try done; try constructor; lia.
Qed.


End Batch.

(** ** Protection

    What can be seen of a request in the world: whether temporary staging protects its
    artifacts, whether its proposal has committed or still may, whether permanent
    retention protects them, and the results on record. *)
Record View := mkView { staging : Prop; may_commit : Prop; permanent : Prop; recorded : Res → Prop }.

Definition safe (v : View) : Prop := may_commit v → staging v ∨ permanent v.

(** What others may do to a request: protect it, settle it, never expose it. *)
Definition interferes (v v' : View) : Prop :=
  (staging v → staging v') ∧ (permanent v → permanent v') ∧ (may_commit v' → may_commit v) ∧
  (∀ res, recorded v res → recorded v' res).

(** The contract of the traits: what a call for a request does to it. *)
Definition effect (o : Op) : answer o → View → View → Prop :=
  match o return answer o → View → View → Prop with
  | Stage _ _ => λ x v v', interferes v v' ∧ (is_Ok x.1 = true → staging v')
  | Propose _ _ _ _ => λ x v v',
      (staging v → staging v') ∧ (permanent v → permanent v') ∧ (∀ res, recorded v res → recorded v' res) ∧
      match x with
      | Ambiguous _ => True
      | Definitive p => match interpret p with Ok res => recorded v' res | Err _ => may_commit v' → may_commit v end
      end
  | Lookup _ _ => λ x v v', interferes v v' ∧ (∀ res, x = Ok (Some res) → recorded v' res)
  | Reconcile _ _ _ _ => λ x v v', interferes v v' ∧ (x = Ok () → permanent v')
  | Finalize _ _ d => λ _ v v',
      (permanent v → permanent v') ∧ (may_commit v' → may_commit v) ∧ (∀ res, recorded v res → recorded v' res) ∧
      (d = AmbiguousUnresolved → staging v → staging v')
  | _ => λ _ v v', interferes v v'
  end.

Definition request_of (o : Op) : option Request :=
  match o with
  | Fault _ | Count _ => None
  | Prepare r | Stage r _ | Establish r _ | Propose r _ _ _ | Lookup r _ | Reconcile r _ _ _ | Finalize r _ _ => Some r
  end.

Class Protects (W : Type) `{!Product (Request:=Request) (Prepared:=Prepared) (Evidence:=Evidence) (Guard:=Guard)
    (Proposal:=Proposal) (Res:=Res) (Error:=Error) W} := {
  view : W → Request → View;
  acts_on_own o w x w' r : acts o w x w' → request_of o = Some r → effect o x (view w r) (view w' r);
  acts_on_others o w x w' r : acts o w x w' → request_of o ≠ Some r → interferes (view w r) (view w' r);
  drifts_safely w w' r : drifts w w' → interferes (view w r) (view w' r)
}.

Lemma interferes_refl v : interferes v v.
Proof. by repeat split. Qed.

Lemma interferes_trans u v w : interferes u v → interferes v w → interferes u w.
Proof. unfold interferes. naive_solver. Qed.

(** *** Assertions about one request that others cannot break *)

Definition assertion (P : View → Prop) : Prop :=
  (∀ v v', P v → interferes v v' → P v') ∧ ∀ v, P v → safe v.

Definition Quiet (v : View) : Prop := ¬ may_commit v.
Definition Sheltered (v : View) : Prop := ¬ may_commit v ∧ staging v.
Definition Open (v : View) : Prop := staging v.
Definition Known (res : Res) (v : View) : Prop := staging v ∧ recorded v res.
Definition Kept (res : Res) (v : View) : Prop := permanent v ∧ recorded v res.

Lemma quiet_assertion : assertion Quiet.
Proof. unfold assertion, Quiet, interferes, safe. naive_solver. Qed.
Lemma sheltered_assertion : assertion Sheltered.
Proof. unfold assertion, Sheltered, interferes, safe. naive_solver. Qed.
Lemma open_assertion : assertion Open.
Proof. unfold assertion, Open, interferes, safe. naive_solver. Qed.
Lemma known_assertion res : assertion (Known res).
Proof. unfold assertion, Known, interferes, safe. naive_solver. Qed.
Lemma kept_assertion res : assertion (Kept res).
Proof. unfold assertion, Kept, interferes, safe. naive_solver. Qed.

Create HintDb commit.
#[local] Hint Resolve quiet_assertion sheltered_assertion open_assertion known_assertion kept_assertion : commit.

Section Hoare.
Variable r : Request.

(** From view [v], whatever others do between the calls, the request is safe at every
    moment and the result satisfies [Q]. *)
Fixpoint wp {A} (t : prog A) (Q : A → View → Prop) (v : View) : Prop :=
  safe v ∧
  match t with
  | Done a => Q a v
  | Do o k => (request_of o = None ∨ request_of o = Some r) ∧
      ∀ v1 x v2, interferes v v1 → effect o x v1 v2 → wp (k x) Q v2
  end.

Definition hoare {A} (P : View → Prop) (m : fallible A) (Q : A → View → Prop) : Prop :=
  ∀ v, P v → wp m (λ x v, match x with Ok a => Q a v | Err _ => True end) v.

Lemma wp_bind {A B} (t : prog A) (f : A → prog B) Q v : wp t (λ a v, wp (f a) Q v) v → wp (prog_bind t f) Q v.
Proof.
  revert v. induction t as [a|o k IH]; intros v; cbn; [by intros [_ ?]|].
  intros (Hs & Ho & Hk). split_and!; [done|done|]. intros v1 x v2 Hi He. apply IH. by eapply Hk.
Qed.

Lemma wp_mono {A} (t : prog A) Q Q' v : (∀ a v, safe v → Q a v → Q' a v) → wp t Q v → wp t Q' v.
Proof.
  intros HQ. revert v. induction t as [a|o k IH]; intros v; cbn; [naive_solver|].
  intros (Hs & Ho & Hk). split_and!; [done|done|]. intros v1 x v2 Hi He. apply IH. by eapply Hk.
Qed.

Lemma hoare_bind {A B} P (m : fallible A) R (f : A → fallible B) Q :
  hoare P m R → (∀ a, hoare (R a) (f a) Q) → hoare P (m ≫= f) Q.
Proof.
  intros Hm Hf v Hv. apply wp_bind. eapply wp_mono, Hm, Hv. intros [a|e] v' Hs Ha; [by apply Hf|by split].
Qed.

Lemma hoare_attempt {A} P (x : result Error A) Q :
  assertion P → (∀ a v, x = Ok a → P v → Q a v) → hoare P (attempt x) Q.
Proof. intros [_ Hs] HQ v Hv. split; [by apply Hs|]. destruct x; naive_solver. Qed.

Lemma hoare_call P o (Q : answer o → View → Prop) :
  (request_of o = None ∨ request_of o = Some r) → assertion P → (∀ x v v', P v → effect o x v v' → Q x v') →
  (∀ x, assertion (Q x)) → hoare P (call o) Q.
Proof.
  intros Ho [Hst Hs] HQ Ha v Hv. split_and!; [by apply Hs|done|]. intros v1 x v2 Hi He.
  assert (Q x v2) by (eapply HQ; [by eapply Hst|done]). split; [by apply (Ha x)|done].
Qed.

Lemma hoare_fault P stage : assertion P → hoare P (fault stage) (λ _, P).
Proof.
  intros [Hst Hs] v Hv. split_and!; [by apply Hs|by left|]. intros v1 x v2 Hi He. cbn in He.
  assert (P v2) by eauto. split; [by apply Hs|]. by destruct x.
Qed.

Lemma hoare_count P c : assertion P → hoare P (count c) (λ _, P).
Proof.
  intros [Hst Hs] v Hv. split_and!; [by apply Hs|by left|]. intros v1 x v2 Hi He. cbn in He.
  split; [apply Hs|]; eauto.
Qed.

Lemma hoare_mono {A} P P' (m : fallible A) Q Q' :
  (∀ v, P v → P' v) → hoare P' m Q → (∀ a v, Q a v → Q' a v) → hoare P m Q'.
Proof. intros HP Hm HQ v Hv. eapply wp_mono; [|by apply Hm, HP]. intros [a|e] v' _; [apply HQ|done]. Qed.

Lemma hoare_drop {A} P (m : fallible A) Q : hoare P m Q → hoare P m (λ _ _, True).
Proof. intros Hm. by eapply hoare_mono; [|done|]. Qed.

(** *** The engine *)

Lemma finalize_spec P R p d :
  assertion P → assertion R → (∀ x v v', P v → effect (Finalize r p d) x v v' → R v') →
  hoare P (finalize_failure r p d) (λ _, R).
Proof.
  intros HP HR HPR. eapply hoare_bind; [by apply hoare_fault|]. intros [].
  eapply (hoare_bind _ _ (λ _, R)); [apply hoare_call; auto|]. intros [x p'].
  eapply (hoare_bind _ _ (λ _, R)); [by apply hoare_attempt|]. intros [].
  eapply hoare_bind; [by apply hoare_count|]. intros []. by apply hoare_fault.
Qed.

Lemma reject_spec {A} p e Q : hoare Sheltered (_ ← finalize_failure r p Rejected; attempt (A:=A) (Err e)) Q.
Proof.
  eapply (hoare_bind _ _ (λ _, Quiet)).
  - apply finalize_spec; [auto with commit..|]. unfold Sheltered, Quiet; cbn. naive_solver.
  - intros []. by apply hoare_attempt; [auto with commit|].
Qed.

Lemma or_reject_attempt {A} p (x : result Error A) P Q :
  assertion P → (∀ a v, x = Ok a → P v → Q a v) → (∀ e v, x = Err e → P v → Sheltered v) →
  hoare P (or_reject r p (attempt x)) Q.
Proof.
  intros [Hst Hs] HQ HR v Hv. unfold or_reject, attempt; cbn [prog_bind]. destruct x as [a|e].
  - split; [by apply Hs|]. by apply HQ.
  - apply (reject_spec p e Q). by apply (HR e).
Qed.

Lemma or_reject_fault p stage : hoare Sheltered (or_reject r p (fault stage)) (λ _, Sheltered).
Proof.
  intros v Hv. split_and!; [by apply sheltered_assertion|by left|]. intros v1 x v2 Hi He. cbn [effect] in He.
  assert (Sheltered v2) as H2 by (do 2 (eapply sheltered_assertion; [|done]); done).
  destruct x as [[]|e]; [split; [by apply sheltered_assertion|done]|]. by apply (reject_spec p e (λ _, Sheltered)).
Qed.

Lemma recover_spec p e : hoare Open (recover_ambiguous r p e) (λ x, Known x.1).
Proof.
  eapply hoare_bind; [apply hoare_count; auto with commit|]. intros [].
  eapply hoare_bind; [apply hoare_fault; auto with commit|]. intros [].
  eapply (hoare_bind _ _ (λ x v, match x with Ok (Some res) => Known res v | _ => Open v end)).
  { apply hoare_call; [by right|auto with commit| |].
    - intros x v v' Hv [Hi Hx]. unfold Open in *. assert (staging v') by (by apply Hi).
      destruct x as [[res|]|e']; [by split; auto|done..].
    - intros [[res|]|e']; auto with commit. }
  intros found. eapply (hoare_bind _ _ (λ x v, match x with Some res => Known res v | None => Open v end)).
  { apply hoare_attempt; [destruct found as [[]|]; auto with commit|]. by intros [res|] v ->. }
  intros found'. eapply hoare_bind; [apply hoare_fault; destruct found'; auto with commit|]. intros [].
  destruct found' as [res|].
  - eapply hoare_bind; [apply hoare_count; auto with commit|]. intros []. apply hoare_attempt; [auto with commit|]. by intros ? ? [= <-].
  - eapply (hoare_bind _ _ (λ _, Open)).
    + apply finalize_spec; [auto with commit..|]. unfold Open; cbn. naive_solver.
    + intros []. by apply hoare_attempt; [auto with commit|].
Qed.

(** What is known after the proposal's answer. *)
Definition proposed (a : ProposalAttempt Proposal Error) (v : View) : Prop :=
  staging v ∧
  match a with
  | Ambiguous _ => True
  | Definitive p => match interpret p with Ok res => recorded v res | Err _ => ¬ may_commit v end
  end.

Lemma proposed_assertion a : assertion (proposed a).
Proof.
  unfold assertion, proposed, interferes, safe.
  destruct a as [p|e]; [destruct (interpret p)|]; naive_solver.
Qed.

Lemma settle_spec p a : hoare (proposed a) (settle interpret r p a) (λ x, Known x.1).
Proof.
  destruct a as [q|e]; cbn [settle].
  - eapply (hoare_bind _ _ (λ _, proposed (Definitive q))).
    { apply hoare_call; [by left|apply proposed_assertion| |intros []; apply proposed_assertion].
      intros x v v' Hv Hi. by eapply proposed_assertion. }
    intros [[]|e].
    + eapply (hoare_bind _ _ Known).
      * apply or_reject_attempt; [apply proposed_assertion|..]; unfold proposed, Known, Sheltered; intros ? v ->; tauto.
      * intros res. apply hoare_attempt; [auto with commit|]. by intros ? ? [= <-].
    + eapply hoare_mono; [|apply recover_spec|done]. unfold proposed, Open. tauto.
  - eapply hoare_mono; [|apply recover_spec|done]. unfold proposed, Open. tauto.
Qed.

Lemma complete_spec p e (res : Res) (b : bool) :
  hoare (Known res)
    (_ ← fault ReconcileBefore; done ← call (Reconcile r p e res); _ ← attempt done; _ ← count RECONCILED;
     _ ← fault ReconcileAfter; _ ← fault FinalizeBefore; '(released, _) ← call (Finalize r p Committed);
     _ ← attempt released; _ ← count FINALIZED; _ ← fault FinalizeAfter; mret (mkOutcome res e b))
    (λ out, Kept (outcome_result out)).
Proof.
  eapply hoare_bind; [apply hoare_fault; auto with commit|]. intros [].
  eapply (hoare_bind _ _ (λ x v, Known res v ∧ (x = Ok () → permanent v))).
  { apply hoare_call; [by right|auto with commit| |].
    - intros x v v' Hv [Hi Hx]. split; [|done]. by eapply known_assertion.
    - intros x. unfold assertion, Known, interferes, safe. naive_solver. }
  intros x. eapply (hoare_bind _ _ (λ _, Kept res)).
  { apply hoare_attempt; [unfold assertion, Known, interferes, safe; naive_solver|].
    unfold Known, Kept. intros [] v ->. naive_solver. }
  intros []. eapply hoare_bind; [apply hoare_count; auto with commit|]. intros [].
  eapply hoare_bind; [apply hoare_fault; auto with commit|]. intros [].
  eapply hoare_bind; [apply hoare_fault; auto with commit|]. intros [].
  eapply (hoare_bind _ _ (λ _, Kept res)).
  { apply hoare_call; [by right|auto with commit| |auto with commit]. unfold Kept; cbn. naive_solver. }
  intros [y p']. eapply (hoare_bind _ _ (λ _, Kept res)); [apply hoare_attempt; auto with commit|]. intros [].
  eapply hoare_bind; [apply hoare_count; auto with commit|]. intros [].
  eapply hoare_bind; [apply hoare_fault; auto with commit|]. intros [].
  apply hoare_attempt; [auto with commit|]. by intros ? ? [= <-].
Qed.

Lemma execute_spec g : hoare Quiet (execute interpret (mkCommitInput r g)) (λ out, Kept (outcome_result out)).
Proof.
  unfold execute; cbn [request guard].
  eapply hoare_bind; [apply hoare_fault; auto with commit|]. intros [].
  eapply (hoare_bind _ _ (λ _, Quiet)).
  { apply hoare_call; [by right|auto with commit| |auto with commit]. intros x v v'. apply quiet_assertion. }
  intros p. eapply (hoare_bind _ _ (λ _, Quiet)); [apply hoare_attempt; auto with commit|]. intros p'.
  eapply hoare_bind; [apply hoare_count; auto with commit|]. intros [].
  do 2 (eapply hoare_bind; [apply hoare_fault; auto with commit|]; intros []).
  eapply (hoare_bind _ _ (λ x v, Quiet v ∧ (is_Ok x.1 = true → staging v))).
  { apply hoare_call; [by right|auto with commit| |].
    - intros x v v' Hv [Hi Hx]. split; [by eapply quiet_assertion|done].
    - intros x. unfold assertion, Quiet, interferes, safe. naive_solver. }
  intros [x p2]. eapply (hoare_bind _ _ (λ _, Sheltered)).
  { apply hoare_attempt; [unfold assertion, Quiet, interferes, safe; naive_solver|].
    unfold Sheltered, Quiet. intros [] v -> [? H]. split; [done|by apply H]. }
  intros []. eapply hoare_bind; [apply hoare_count; auto with commit|]. intros [].
  do 2 (eapply hoare_bind; [apply or_reject_fault|]; intros []).
  eapply (hoare_bind _ _ (λ _, Sheltered)).
  { apply hoare_call; [by right|auto with commit| |auto with commit]. intros y v v'. apply sheltered_assertion. }
  intros [y p3]. eapply (hoare_bind _ _ (λ _, Sheltered)); [by apply or_reject_attempt; [auto with commit|..]|].
  intros e. eapply hoare_bind; [apply hoare_count; auto with commit|]. intros [].
  do 2 (eapply hoare_bind; [apply or_reject_fault|]; intros []).
  eapply (hoare_bind _ _ proposed).
  { apply hoare_call; [by right|auto with commit| |apply proposed_assertion].
    intros a v v' [Hm Hs] (Hst & _ & _ & Ha). split; [by apply Hst|]. destruct a as [q|]; [|done]. destruct (interpret q); tauto. }
  intros a. eapply hoare_bind; [apply hoare_count, proposed_assertion|]. intros [].
  eapply hoare_bind; [apply settle_spec|]. intros [res b]. apply complete_spec.
Qed.

Lemma wp_interferes {A} (t : prog A) Q v v' :
  (∀ a v v', Q a v → interferes v v' → Q a v') → interferes v v' → wp t Q v → wp t Q v'.
Proof.
  intros HQ Hi. assert (safe v → safe v') by (unfold safe, interferes in *; naive_solver).
  destruct t as [a|o k]; cbn; [naive_solver|]. intros (Hs & Ho & Hk). split_and!; [auto|done|].
  intros v1 x v2 Hi'. apply Hk. by eapply interferes_trans.
Qed.

Lemma wp_safe {A} (t : prog A) Q v : wp t Q v → safe v.
Proof. by destruct t; intros [? _]. Qed.

End Hoare.

Section Protected.
Context {W : Type} `{!Product (Request:=Request) (Prepared:=Prepared) (Evidence:=Evidence) (Guard:=Guard)
  (Proposal:=Proposal) (Res:=Res) (Error:=Error) W} `{!Protects W}.
Variable max_in_flight : nat.

Definition good (x : result Error Outcome) (v : View) : Prop :=
  match x with Ok out => Kept (outcome_result out) v | Err _ => True end.

Lemma good_interferes x v v' : good x v → interferes v v' → good x v'.
Proof. destruct x; [apply kept_assertion|done]. Qed.

(** Where the commit of a request stands. *)
Definition finished (w : W) (i : Input) (x : result Error Outcome) : Prop :=
  safe (view w (request i)) ∧ good x (view w (request i)).
Definition going (w : W) (i : Input) (t : prog (result Error Outcome)) : Prop :=
  wp (request i) t good (view w (request i)).
Definition unstarted (w : W) (i : Input) : Prop := Quiet (view w (request i)).

Lemma stages_interfere w w' i :
  interferes (view w (request i)) (view w' (request i)) →
  (∀ x, finished w i x → finished w' i x) ∧ (∀ t, going w i t → going w' i t) ∧ (unstarted w i → unstarted w' i).
Proof.
  intros Hi. split_and!.
  - intros x [Hs Hg]. split; [unfold safe, interferes in *; naive_solver|by eapply good_interferes].
  - intros t. by apply wp_interferes; [apply good_interferes|].
  - intros Hq. by eapply quiet_assertion.
Qed.

Definition all_protected (inputs : list Input) (b : Batch W) : Prop :=
  ∃ before live, inputs = before ++ live ++ waiting b ∧
    Forall2 (finished (world b)) before (yielded b) ∧ Forall2 (going (world b)) live (window b) ∧
    Forall (unstarted (world b)) (waiting b).

(** A step of the world that leaves everyone in peace. *)
Lemma protected_drift inputs b w' :
  (∀ i, i ∈ inputs → interferes (view (world b) (request i)) (view w' (request i))) →
  all_protected inputs b → all_protected inputs (mkBatch (waiting b) (window b) (yielded b) w').
Proof.
  intros Hi (before & live & -> & Hb & Hl & Hw). exists before, live. cbn. split_and!; [done|..].
  - eapply Forall2_impl_l; [done|]. intros i x Hin. apply stages_interfere, Hi. set_solver.
  - eapply Forall2_impl_l; [done|]. intros i x Hin. apply stages_interfere, Hi. set_solver.
  - rewrite Forall_forall in *. intros i Hin. eapply stages_interfere; [apply Hi; set_solver|by apply Hw].
Qed.

(** A call of one commit leaves the others in peace. *)
Lemma call_interferes o w x w' (i i' : Input) :
  acts o w x w' → request_of o = None ∨ request_of o = Some (request i) → request i' ≠ request i →
  interferes (view w (request i')) (view w' (request i')).
Proof. intros Ha [Ho|Ho] Hne; apply (acts_on_others o w x w'); try done; rewrite Ho; congruence. Qed.

Lemma call_goes_on o w x w' (i : Input) k :
  acts o w x w' → going w i (Do o k) →
  (request_of o = None ∨ request_of o = Some (request i)) ∧ going w' i (k x).
Proof.
  intros Ha (_ & Ho & Hk). split; [done|]. eapply Hk; [apply interferes_refl|].
  destruct Ho as [Ho|Ho]; [|by eapply acts_on_own].
  destruct o; try done; cbn; (by eapply acts_on_others; [|rewrite Ho]).
Qed.

Lemma protected_step inputs b b' :
  NoDup (request <$> inputs) → all_protected inputs b → engine_step interpret max_in_flight b b' → all_protected inputs b'.
Proof.
  intros Hnd (before & live & Hin & Hb & Hl & Hw) Hs.
  destruct Hs as [input rest ts ys w Hlen|rest ts ys w j o k x w' Hj Ha|rest ts ys w r]; cbn in *.
  - apply Forall_cons in Hw as [Hi Hw]. exists before, (live ++ [input]). cbn. rewrite <-app_assoc. split_and!; [done..| |done].
    apply Forall2_app; [done|]. constructor; [|done]. destruct input as [r g]. by apply execute_spec.
  - destruct (Forall2_lookup_r _ _ _ _ _ Hl Hj) as (i & Hi & Hg). destruct (call_goes_on _ _ _ _ _ _ Ha Hg) as [Ho Hg'].
    assert (∀ n i', inputs !! n = Some i' → n ≠ length before + j → interferes (view w (request i')) (view w' (request i'))) as Hothers.
    { intros n i' Hn Hne. eapply call_interferes; [done..|]. intros Heq. apply Hne.
      eapply NoDup_lookup; [done| |]; rewrite list_lookup_fmap; [by rewrite Hn|]. rewrite Hin, lookup_app_r by lia.
      rewrite lookup_app_l by (apply lookup_lt_Some in Hi; lia). replace (length before + j - length before) with j by lia. by rewrite Hi, Heq. }
    exists before, live. cbn. split_and!; [done|..].
    + eapply Forall2_impl_l; [done|]. intros i' y Hi'. apply list_elem_of_lookup in Hi' as [n Hn]. apply stages_interfere.
      apply (Hothers n); [rewrite Hin; by apply lookup_app_l_Some|]. apply lookup_lt_Some in Hn. lia.
    + eapply Forall2_update; [done..|]. intros n i' t Hne Hn. apply stages_interfere, (Hothers (length before + n)); [|lia].
      rewrite Hin, lookup_app_r, lookup_app_l by (apply lookup_lt_Some in Hn; lia). by replace (_ + n - _) with n by lia.
    + rewrite Forall_forall in *. intros i' Hi'. apply list_elem_of_lookup in Hi' as [n Hn].
      eapply stages_interfere; [|apply Hw; by eapply list_elem_of_lookup_2].
      apply (Hothers (length before + length live + n)); [|apply lookup_lt_Some in Hi; lia].
      rewrite Hin, !lookup_app_r by lia. rewrite <-Hn. f_equal. lia.
  - apply Forall2_cons_inv_r in Hl as (i & live' & Hg & Hl & ->). exists (before ++ [i]), live'. cbn.
    rewrite <-app_assoc. split_and!; [done| |done..]. apply Forall2_app; [done|]. by constructor.
Qed.

End Protected.
End Facts.
