(* ===== verification/CommitExamples.v ===== *)
(** * The commit engine on a product in memory

    A product in the manner of the mock workflow of the crate's tests, that can lose the
    response of a proposal, fail a durability barrier or a lookup.  It keeps the contract
    of the traits; the theorems are applied to it, and a retry is shown to release the
    staging of an earlier attempt. *)
From stdpp Require Import base gmap sets list strings.
From S2P Require Import Prelude Commit CommitFacts.

Record Memory := mkMemory {
  staged_requests : gset N;
  in_flight : gset N;
  results : gmap N N;
  reconciled_requests : gset N;
  stats : CommitStats
}.

Definition empty_memory : Memory := mkMemory ∅ ∅ ∅ ∅ process_start.

(** What goes wrong at a call. *)
Inductive Mishap := Nothing | Lost | Unavailable.

Local Abbreviation MOp := (Op N N N N N).
Local Abbreviation reply o := (answer (Proposal:=N) (Error:=string) (o : MOp)).

Definition set_staged (f : gset N → gset N) (m : Memory) : Memory :=
  mkMemory (f (staged_requests m)) (in_flight m) (results m) (reconciled_requests m) (stats m).

(** A proposal that is already on record keeps its result. *)
Definition land (r v : N) (m : Memory) : N * Memory :=
  match results m !! r with
  | Some v => (v, m)
  | None => (v, mkMemory (staged_requests m) (in_flight m) (<[r := v]> (results m)) (reconciled_requests m) (stats m))
  end.

Definition handle (mishap : Mishap) (o : MOp) : Memory → reply o * Memory :=
  match o return Memory → reply o * Memory with
  | Fault _ => λ m, (match mishap with Nothing => Ok () | _ => Err "injected" end, m)
  | Prepare r => λ m, (Ok r, m)
  | Stage r p => λ m, ((Ok (), p), set_staged (union {[r]}) m)
  | Establish r p => λ m, ((match mishap with Nothing => Ok (r + 10)%N | _ => Err "device failed" end, p), m)
  | Propose r _ e g => λ m,
      match mishap with
      | Nothing => let '(v, m) := land r (r + e + g)%N m in (Definitive v, m)
      | _ => (Ambiguous "response lost",
              mkMemory (staged_requests m) ({[r]} ∪ in_flight m) (results m) (reconciled_requests m) (stats m))
      end
  | Lookup r _ => λ m, (match mishap with Nothing => Ok (results m !! r) | _ => Err "unreachable" end, m)
  | Reconcile r _ _ _ => λ m,
      match mishap with
      | Nothing => (Ok (), mkMemory (staged_requests m) (in_flight m) (results m) ({[r]} ∪ reconciled_requests m) (stats m))
      | _ => (Err "unreachable", m)
      end
  | Finalize r p d => λ m,
      match d with
      | AmbiguousUnresolved => ((Ok (), p), m)
      | _ => ((Ok (), p), set_staged (.∖ {[r]}) m)
      end
  | Count c => λ m, ((), mkMemory (staged_requests m) (in_flight m) (results m) (reconciled_requests m) (fetch_add c (stats m)))
  end.

(** A lost proposal commits late. *)
Definition lands_late (m m' : Memory) : Prop := ∃ r v, r ∈ in_flight m ∧ (land r v m).2 = m'.

#[export] Instance memory_product : Product (Proposal:=N) (Error:=string) Memory := {|
  acts o m x m' := ∃ mishap, handle mishap o m = (x, m');
  drifts := lands_late
|}.

Definition keep : N → result string N := Ok.

Definition memory_view (m : Memory) (r : N) : View := {|
  staging := r ∈ staged_requests m;
  may_commit := r ∈ in_flight m ∨ is_Some (results m !! r);
  permanent := r ∈ reconciled_requests m;
  recorded v := results m !! r = Some v
|}.

Lemma land_view r v m r' :
  interferes (mkView (r' ∈ staged_requests m) (may_commit (memory_view m r') ∨ r' = r) (r' ∈ reconciled_requests m) (λ v, results m !! r' = Some v))
    (memory_view (land r v m).2 r') ∧ results (land r v m).2 !! r = Some (land r v m).1.
Proof.
  unfold land, interferes. destruct (results m !! r) as [u|] eqn:Hr; cbn; [naive_solver|].
  split_and!; [done..|destruct (decide (r = r')) as [<-|]; [by right|]|destruct (decide (r = r')) as [<-|]|].
  - intros [?|[u Hu]]; [tauto|]. rewrite lookup_insert_ne in Hu by done. left. right. eauto.
  - congruence.
  - intros u Hu. by rewrite lookup_insert_ne.
  - by rewrite lookup_insert_eq.
Qed.

Ltac peace := unfold interferes; cbn; split_and!; intros; first [done|set_solver].

(** A call changes the view of another request only by proposals, which do not touch it. *)
Lemma handle_others mishap o m r :
  request_of o ≠ Some r → interferes (memory_view m r) (memory_view (handle mishap o m).2 r).
Proof.
  intros Hr. destruct o as [|q|q p|q p|q p e g|q p|q p e v|q p d|]; cbn in Hr; try peace.
  - destruct mishap; cbn; [|peace..].
    pose proof (land_view q (q + e + g)%N m r) as [Hi _]. destruct (land q _ m) as [u m'] eqn:Hl. cbn in *.
    unfold interferes in *. cbn in *. naive_solver.
  - destruct mishap; peace.
  - destruct d; peace.
Qed.

Lemma handle_own mishap o m r :
  request_of o = Some r →
  effect keep o (handle mishap o m).1 (memory_view m r) (memory_view (handle mishap o m).2 r).
Proof.
  intros Hr. destruct o as [|q|q p|q p|q p e g|q p|q p e v|q p d|]; cbn in Hr; try discriminate Hr; injection Hr as ->; cbn.
  - peace.
  - split; [peace|set_solver].
  - peace.
  - destruct mishap; cbn; [|peace..].
    pose proof (land_view r (r + e + g)%N m r) as [Hi Hl]. destruct (land r _ m) as [u m'] eqn:He. cbn in *.
    unfold interferes in *. cbn in *. naive_solver.
  - split; [peace|]. destruct mishap; [|done..]. by intros res [= ?].
  - destruct mishap; cbn; (split; [peace|]); [set_solver|done..].
  - destruct d; peace.
Qed.

#[export] Instance memory_protects : Protects keep Memory.
Proof.
  refine {| view := memory_view |}.
  - intros o m x m' r [mishap Hm] Hr. pose proof (handle_own mishap o m r Hr) as He. by rewrite Hm in He.
  - intros o m x m' r [mishap Hm] Hr. pose proof (handle_others mishap o m r Hr) as He. by rewrite Hm in He.
  - intros m m' r (q & v & Hq & <-). pose proof (land_view q v m r) as [Hi _]. unfold interferes in *. cbn in *.
    split_and!; try apply Hi. intros Hm. destruct Hi as (_ & _ & Hi & _). destruct (Hi Hm) as [?| ->]; tauto.
Defined.

(** ** Runs *)

(** The mishaps of a run, by call. *)
Definition scripted (script : MOp → Mishap) (o : MOp) : Memory → reply o * Memory := handle (script o) o.

Definition commit_one (script : MOp → Mishap) (r : N) (m : Memory) : result string (CommitOutcome N N) * Memory :=
  run (scripted script) (execute keep (mkCommitInput r 2%N)) m.

Lemma scripted_acts script o m : acts o m (scripted script o m).1 (scripted script o m).2.
Proof. exists (script o). unfold scripted. by destruct (handle (script o) o m). Qed.

(** A run by itself is a run of a batch. *)
Lemma commit_is_batch script r m :
  ∃ n, batch_run keep 1 n (execute_batch [mkCommitInput r 2%N] m)
         (mkBatch [] [] [(commit_one script r m).1] (commit_one script r m).2).
Proof.
  assert (∀ t n b m, batch_run keep 1 n b (mkBatch [] [t] [] m) →
    ∃ n', batch_run keep 1 n' b (mkBatch [] [] [(run (scripted script) t m).1] (run (scripted script) t m).2)) as H.
  { induction t as [x|o k IH]; intros n b m0 Hr.
    - exists (S n). eapply run_engine; [done|]. apply (Yield _ _ _ _ []).
    - cbn. pose proof (scripted_acts script o m0) as Ha. destruct (scripted script o m0) as [x m1]. cbn in Ha.
      apply (IH x (S n)). eapply run_engine; [done|]. by apply (Act _ _ _ [Do o k] _ _ 0). }
  eapply (H _ 1). eapply run_engine; [apply run_start|]. apply (Start keep 1 _ [] []). cbn. lia.
Qed.

Definition no_mishap (o : MOp) : Mishap := Nothing.
Definition response_lost (o : MOp) : Mishap := match o with Propose _ _ _ _ => Lost | _ => Nothing end.
Definition lookup_fails (o : MOp) : Mishap := match o with Propose _ _ _ _ | Lookup _ _ => Lost | _ => Nothing end.
Definition device_fails (o : MOp) : Mishap := match o with Establish _ _ => Unavailable | _ => Nothing end.

Example ordinary_commit :
  (commit_one no_mishap 1 empty_memory).1 = Ok (mkOutcome 14%N 11%N false) ∧
  stats (commit_one no_mishap 1 empty_memory).2 = mkCommitStats 1 1 1 1 0 0 1 1.
Proof. split; vm_compute; reflexivity. Qed.

(** The proposal of a commit whose response was lost has landed when its lookup comes. *)
Example recovered_commit :
  let m := mkMemory ∅ ∅ {[7%N := 27%N]} ∅ process_start in
  (commit_one response_lost 7 m).1 = Ok (mkOutcome 27%N 17%N true) ∧ ambiguous (stats (commit_one response_lost 7 m).2) = 1%N.
Proof. split; vm_compute; reflexivity. Qed.



(** A run is the calls it makes. *)
Lemma run_runs {A} (h : ∀ o : MOp, Memory → reply o * Memory) (t : prog A) (m : Memory) :
  ∃ events, runs t events (run h t m).1.
Proof.
  revert m. induction t as [a|o k IH]; intros m; cbn; [by exists []|].
  destruct (h o m) as [x m']. destruct (IH x m') as [events He]. by exists (existT o x :: events), x, events.
Qed.

Lemma execute_protocol_witness :
  ∃ events : list (Event (Request:=N) (Prepared:=N) (Evidence:=N) (Guard:=N) (Proposal:=N) (Res:=N) (Error:=string)),
    runs (execute keep (mkCommitInput 1%N 2%N)) events (Ok (mkOutcome 14%N 11%N false)) ∧
    path keep Fresh events = Some (Closed Committed false).
Proof.
  destruct (run_runs (scripted no_mishap) (execute keep (mkCommitInput 1%N 2%N)) empty_memory) as [events He].
  change (run _ _ _) with (commit_one no_mishap 1 empty_memory) in He. rewrite (proj1 ordinary_commit) in He.
  exists events. split; [exact He|]. destruct (execute_protocol keep _ events _ He) as (s & Hs & Hok & _).
  rewrite Hs. f_equal. by apply (Hok (mkOutcome 14%N 11%N false)).
Defined.

(** A retry withdraws the protection of an earlier attempt: the first attempt's response
    is lost and its lookup fails, so its staging is kept; the second fails before its
    proposal and is finalized as rejected; the first proposal may still commit and
    nothing protects it. *)
Example retry_exposes :
  let m1 := (commit_one lookup_fails 7 empty_memory).2 in
  let m2 := (commit_one device_fails 7 m1).2 in
  staging (memory_view m1 7) ∧ may_commit (memory_view m2 7) ∧ ¬ staging (memory_view m2 7) ∧ ¬ permanent (memory_view m2 7).
Proof.
  refine (conj _ (conj (or_introl _) (conj _ _))); cbn [staging permanent memory_view].
  - apply (bool_decide_unpack (7%N ∈ staged_requests (commit_one lookup_fails 7 empty_memory).2)). vm_compute. done.
  - apply (bool_decide_unpack (7%N ∈ in_flight (commit_one device_fails 7 (commit_one lookup_fails 7 empty_memory).2).2)). vm_compute. done.
  - apply (bool_decide_unpack (7%N ∉ staged_requests (commit_one device_fails 7 (commit_one lookup_fails 7 empty_memory).2).2)). vm_compute. done.
  - apply (bool_decide_unpack (7%N ∉ reconciled_requests (commit_one device_fails 7 (commit_one lookup_fails 7 empty_memory).2).2)). vm_compute. done.
Qed.
