(* ===== verification/Pins.v ===== *)
(** * Pins (crates/pepper-metadata and crates/pepper-agent/src/publication.rs)

    The repository of pin records, the interface by which publications protect blocks
    with its default methods, and the agent's implementation of it, which keeps one pin
    for each namespace, block and reason.  The tables of the metadata database hold
    records; a transaction that the database itself fails is outside the model. *)
From stdpp Require Import base gmap sets list strings sorting.
From Stdlib Require Import Strings.Byte.
From S2P Require Import Prelude Tables Types Merkle Namespace.

(** ** Records *)

Record PinRecord := mkPin {
  pin_id : string;
  pin_root : Cid;
  pin_owner : string;
  pin_replication_factor : N;
  pin_created_at : Z;
  pin_expires_at : option Z;
  pin_status : string;
  signature_hex : string
}.

(** [PublicationIntentRecord] of crates/pepper-consensus *)
Record PublicationIntentRecord := mkIntent {
  intent_id : string;
  intent_namespace : NamespaceId;
  intent_log_index : N;
  intent_request : string;
  intent_cid : Cid;
  intent_action : PinAction;
  intent_reason : string;
  intent_status : string;
  intent_created_at : Z
}.

(** The errors that the repository decides itself. *)
Inductive MetadataError := ImmutablePinFields | PinReactivation.

Definition MetadataError_to_string (e : MetadataError) : string :=
  match e with
  | ImmutablePinFields => "pin update attempted to change immutable fields"
  | PinReactivation => "deleted pin records cannot be reactivated"
  end.

Inductive PublicationFaultPoint :=
| ValueDurability | CandidateRoot | StagingLeasePoint | LeaderValidation | LocalLogPersistence | FollowerLogPersistence
| QuorumCommit | StateMachineApply | PinIntentApply | CheckpointPublication | StagingRelease | OldRootRetirement.

Inductive PublicationError :=
| PublicationInvalidLimits
| StagingUnavailable
| TransactionExpired
| DurabilityNotMet (cid : Cid)
| PublicationConflict (message : string)
| Application (code message : string)
| PublicationStorage (message : string)
| Protection (message : string)
| TraversalFailed (message : string)
| NamespaceFailed (message : string)
| Injected (point : PublicationFaultPoint).

(** ** The repository *)

Record PinTables := mkPinTables {
  pins : gmap string PinRecord;
  pins_by_root : gmap string string
}.

(** A write transaction: an error drops what was written. *)
Definition transaction {S E} (f : S → result E S) : stm S E unit := λ s,
  match f s with
  | Ok s' => (Ok (), s')
  | Err e => (Err e, s)
  end.

Definition validate_pin_update (existing pin : PinRecord) : result MetadataError unit :=
  _ ← fail_if (negb (bool_decide (pin_owner existing = pin_owner pin)) || negb (bool_decide (pin_root existing = pin_root pin))
               || negb (bool_decide (pin_replication_factor existing = pin_replication_factor pin))
               || negb (bool_decide (pin_created_at existing = pin_created_at pin))
               || negb (bool_decide (pin_expires_at existing = pin_expires_at pin))) ImmutablePinFields;
  fail_if (bool_decide (pin_status existing = "deleted") && negb (bool_decide (pin_status pin = "deleted"))) PinReactivation.

(** The check of an existing record and the [insert]. *)
Definition insert_pin (t : gmap string PinRecord) (pin : PinRecord) : result MetadataError (gmap string PinRecord) :=
  _ ← match t !! pin_id pin with Some existing => validate_pin_update existing pin | None => Ok () end;
  Ok (<[pin_id pin := pin]> t).

Definition insert_indexed `{Hex} (t : PinTables) (pin : PinRecord) : result MetadataError PinTables :=
  ps ← insert_pin (pins t) pin;
  Ok (mkPinTables ps (<[Cid_to_string (pin_root pin) +:+ ":" +:+ pin_id pin := pin_id pin]> (pins_by_root t))).

Definition put `{Hex} (pin : PinRecord) : stm PinTables MetadataError unit :=
  transaction (λ t, insert_indexed t pin).

(** The pins of [put_record_with_pins]. *)
Definition insert_all `{Hex} (ps : list PinRecord) (t : PinTables) : result MetadataError PinTables :=
  try_foldl insert_indexed t ps.

Definition replace (ps : list PinRecord) : stm PinTables MetadataError unit :=
  transaction (λ t, written ← try_foldl insert_pin (pins t) ps; Ok (mkPinTables written (pins_by_root t))).

(** [table.range(prefix..)], up to the first key without the prefix. *)
Definition prefixed (prefix : string) (t : PinTables) : list PinRecord := (rows_with prefix (pins t)).*2.

(** ** The interface

    Every method runs at a time of the system clock. *)
Class ProtectionBackend (P : Type) := {
  protect : NamespaceId → Cid → string → option Z → Z → stm P PublicationError unit;
  release : NamespaceId → Cid → string → Z → stm P PublicationError unit;
  protect_many : NamespaceId → list Cid → string → option Z → Z → stm P PublicationError unit;
  release_many : NamespaceId → list Cid → string → Z → stm P PublicationError unit;
  prepare_protect_pins : P → NamespaceId → list Cid → string → option Z → Z → result PublicationError (option (list PinRecord));
  release_many_grouped : NamespaceId → list Cid → list string → Z → stm P PublicationError unit;
  apply_pin_intents : list PublicationIntentRecord → Z → stm P PublicationError unit
}.

(** [for x in l { f(x)? }] *)
Definition for_each {S E A} (f : A → stm S E unit) (l : list A) : stm S E unit :=
  foldr (λ x rest, _ ← f x; rest) (mret ()) l.

(** The default methods. *)
Section Defaults.
Context {P : Type}.
Variable protect_one : NamespaceId → Cid → string → option Z → Z → stm P PublicationError unit.
Variable release_one : NamespaceId → Cid → string → Z → stm P PublicationError unit.

Definition default_protect_many (ns : NamespaceId) (cids : list Cid) (reason : string) (expires : option Z) (now : Z)
    : stm P PublicationError unit :=
  for_each (λ cid, protect_one ns cid reason expires now) cids.

Definition default_release_many (ns : NamespaceId) (cids : list Cid) (reason : string) (now : Z) : stm P PublicationError unit :=
  for_each (λ cid, release_one ns cid reason now) cids.

Definition default_release_many_grouped (ns : NamespaceId) (cids : list Cid) (reasons : list string) (now : Z)
    : stm P PublicationError unit :=
  for_each (λ reason, default_release_many ns cids reason now) reasons.

Definition default_apply_pin_intents (intents : list PublicationIntentRecord) (now : Z) : stm P PublicationError unit :=
  for_each (λ i, match intent_action i with
                 | Protect => protect_one (intent_namespace i) (intent_cid i) (intent_reason i) None now
                 | Release => release_one (intent_namespace i) (intent_cid i) (intent_reason i) now
                 end) intents.
End Defaults.

(** ** The agent's backend *)

(** Integers as text. *)
Definition fmt_i64 (z : Z) : string :=
  if (z <? 0)%Z then "-" +:+ fmt_radix 10 (Z.to_N (- z)) else fmt_radix 10 (Z.to_N z).

(** [AgentProtectionBackend]: the node's identity, with its signature. *)
Record Identity := mkIdentity {
  sign_payload : bytes → bytes;
  node_id : string;
  replication_factor : N
}.

Section Agent.
Context `{Blake3} `{Hex} `{Json PinRecord}.
Variable self : Identity.

Definition pin_prefix (ns : NamespaceId) (cid : Cid) (reason : string) : string :=
  let h := hasher_update hasher_new (as_bytes "pepper-namespace-pin-v1") in
  let h := hasher_update h (as_bytes (Cid_to_string (id_cid ns))) in
  let h := hasher_update h (as_bytes (Cid_to_string cid)) in
  let h := hasher_update h (as_bytes reason) in
  "namespace-" +:+ hex_encode (hasher_finalize h).

Definition sign (pin : PinRecord) : result PublicationError PinRecord :=
  let with_signature s := mkPin (pin_id pin) (pin_root pin) (pin_owner pin) (pin_replication_factor pin) (pin_created_at pin)
                            (pin_expires_at pin) (pin_status pin) s in
  payload ← map_err Protection (to_vec (with_signature ""));
  Ok (with_signature (hex_encode (sign_payload self payload))).

Definition protection {A} (m : stm PinTables MetadataError A) : stm PinTables PublicationError A := λ t,
  let '(r, t) := m t in (map_err (λ e, Protection (MetadataError_to_string e)) r, t).

Definition owned_active (pin : PinRecord) : bool :=
  bool_decide (pin_owner pin = node_id self) && bool_decide (pin_status pin = "active").

(** The id of the pin of this node. *)
Definition pin_name (prefix : string) (expires : option Z) : string :=
  prefix +:+ "-" +:+ match expires with None => "permanent" | Some value => fmt_i64 value end +:+ "-" +:+ node_id self.

Definition new_pin (name : string) (cid : Cid) (expires : option Z) (now : Z) : PinRecord :=
  mkPin name cid (node_id self) (replication_factor self) now expires "active" "".

(** [pin.status = "deleted"] *)
Definition deleted (pin : PinRecord) : PinRecord :=
  mkPin (pin_id pin) (pin_root pin) (pin_owner pin) (pin_replication_factor pin) (pin_created_at pin) (pin_expires_at pin)
    "deleted" (signature_hex pin).

Fixpoint sign_all (ps : list PinRecord) : result PublicationError (list PinRecord) :=
  match ps with
  | [] => Ok []
  | p :: ps => p ← sign p; ps ← sign_all ps; Ok (p :: ps)
  end.

Definition agent_protect (ns : NamespaceId) (cid : Cid) (reason : string) (expires : option Z) (now : Z)
    : stm PinTables PublicationError unit := λ t,
  let prefix := pin_prefix ns cid reason in
  if existsb (λ pin, owned_active pin && bool_decide (pin_expires_at pin = expires)) (prefixed prefix t) then (Ok (), t)
  else (pin ← lift (sign (new_pin (pin_name prefix expires) cid expires now)); protection (put pin)) t.

Definition agent_release (ns : NamespaceId) (cid : Cid) (reason : string) (now : Z) : stm PinTables PublicationError unit := λ t,
  let ps := filter owned_active (prefixed (pin_prefix ns cid reason) t) in
  (ps ← lift (sign_all (deleted <$> ps)); protection (replace ps)) t.

(** The pins that are not there yet, signed. *)
Fixpoint missing_pins (active : string → string → bool) (ns : NamespaceId) (cids : list Cid) (reason : string) (expires : option Z) (now : Z)
    : result PublicationError (list PinRecord) :=
  match cids with
  | [] => Ok []
  | cid :: cids =>
      let prefix := pin_prefix ns cid reason in
      let name := pin_name prefix expires in
      if active prefix name then missing_pins active ns cids reason expires now
      else
        pin ← sign (new_pin name cid expires now);
        rest ← missing_pins active ns cids reason expires now;
        Ok (pin :: rest)
  end.

Definition agent_protect_many (ns : NamespaceId) (cids : list Cid) (reason : string) (expires : option Z) (now : Z)
    : stm PinTables PublicationError unit := λ t,
  let active_pin_ids : gset string :=
    list_to_set (pin_id <$> filter owned_active (concat ((λ cid, prefixed (pin_prefix ns cid reason) t) <$> cids))) in
  (ps ← lift (missing_pins (λ _ name, bool_decide (name ∈ active_pin_ids)) ns cids reason expires now);
   protection (replace ps)) t.

(** The owned active pins of a block and reason. *)
Definition active_under (t : PinTables) (ns : NamespaceId) (cid : Cid) (reason : string) : list PinRecord :=
  filter owned_active (prefixed (pin_prefix ns cid reason +:+ "-") t).

Definition agent_release_many (ns : NamespaceId) (cids : list Cid) (reason : string) (now : Z) : stm PinTables PublicationError unit := λ t,
  (ps ← lift (sign_all (deleted <$> concat ((λ cid, active_under t ns cid reason) <$> cids)));
   protection (replace ps)) t.

Definition agent_prepare_protect_pins (t : PinTables) (ns : NamespaceId) (cids : list Cid) (reason : string) (expires : option Z) (now : Z)
    : result PublicationError (option (list PinRecord)) :=
  ps ← missing_pins (λ prefix name, existsb (λ pin, bool_decide (pin_id pin = name) && owned_active pin) (prefixed prefix t))
         ns cids reason expires now;
  Ok (Some ps).

Definition agent_release_many_grouped (ns : NamespaceId) (cids : list Cid) (reasons : list string) (now : Z)
    : stm PinTables PublicationError unit := λ t,
  (ps ← lift (sign_all (deleted <$> concat ((λ reason, concat ((λ cid, active_under t ns cid reason) <$> cids)) <$> reasons)));
   protection (replace ps)) t.

(** The writes of one intent, from the table before the batch. *)
Definition intent_writes (t : PinTables) (now : Z) (i : PublicationIntentRecord) : result PublicationError (list PinRecord) :=
  match intent_action i with
  | Protect =>
      let prefix := pin_prefix (intent_namespace i) (intent_cid i) (intent_reason i) in
      let name := pin_name prefix None in
      if existsb (λ pin, bool_decide (pin_id pin = name) && owned_active pin && bool_decide (pin_expires_at pin = None)) (prefixed prefix t)
      then Ok []
      else pin ← sign (new_pin name (intent_cid i) None now); Ok [pin]
  | Release => sign_all (deleted <$> active_under t (intent_namespace i) (intent_cid i) (intent_reason i))
  end.

Definition agent_apply_pin_intents (intents : list PublicationIntentRecord) (now : Z) : stm PinTables PublicationError unit := λ t,
  (ps ← lift (try_foldl (λ writes i, more ← intent_writes t now i; Ok (writes ++ more)) [] intents);
   protection (replace ps)) t.

#[global] Instance AgentProtectionBackend : ProtectionBackend PinTables := {|
  protect := agent_protect;
  release := agent_release;
  protect_many := agent_protect_many;
  release_many := agent_release_many;
  prepare_protect_pins := agent_prepare_protect_pins;
  release_many_grouped := agent_release_many_grouped;
  apply_pin_intents := agent_apply_pin_intents
|}.

End Agent.
