(* ===== verification/PinsFacts.v ===== *)
(** * What pin intents do to the pins

    [pin_effect] says what one intent means for one record.  The agent's batched
    [apply_pin_intents] does this for every intent, as the one-by-one default does, as
    long as the intents are about different pins and none protects again what was
    released before ([batch_is_sequential]).  Otherwise a release wins over every
    protection of its batch ([release_wins]), and an intent that protects a released
    pin again makes every batch fail that it is in ([reprotection_fails]). *)
From stdpp Require Import base gmap sets list strings sorting.
From Stdlib Require Import Strings.Byte.
From S2P Require Import Prelude Tables Types Merkle Namespace Pins.

Lemma prefixed_spec p t pin : pin ∈ prefixed p t ↔ ∃ k, pins t !! k = Some pin ∧ has_prefix p k.
Proof.
  unfold prefixed. rewrite list_elem_of_fmap. split; [intros ([k q] & -> & Hk%rows_with_spec); eauto|].
  intros (k & Hk & Hp). exists (k, pin). split; [done|]. by apply rows_with_spec.
Qed.

(** Every record is stored under its id. *)
Definition named (t : gmap string PinRecord) : Prop := ∀ k p, t !! k = Some p → pin_id p = k.

Lemma prefixed_nodup p t : named (pins t) → NoDup (pin_id <$> prefixed p t).
Proof.
  intros Ht. unfold prefixed. pose proof (rows_with_sublist p (pins t)) as Hl. revert Hl. generalize (rows_with p (pins t)). intros l Hl.
  assert (pin_id <$> l.*2 = l.*1) as ->.
  { rewrite <-list_fmap_compose. apply list_fmap_ext. intros n [k q] Hn. cbn. apply Ht.
    apply elem_of_btree_iter. eapply elem_of_sublist; [|done]. by eapply list_elem_of_lookup_2. }
  eapply sublist_NoDup; [apply (btree_iter_keys (pins t))|by apply fmap_sublist].
Qed.

(** Records that an update may replace stay deleted. *)
Lemma insert_pin_Ok u pin u' :
  insert_pin u pin = Ok u' ↔
  u' = <[pin_id pin := pin]> u ∧ ∀ e, u !! pin_id pin = Some e → validate_pin_update e pin = Ok ().
Proof.
  unfold insert_pin. destruct (u !! pin_id pin) as [e|] eqn:He; cbn.
  - destruct (validate_pin_update e pin) as [[]|err] eqn:Hv; cbn; split.
    + intros [= <-]. split; [done|]. by intros ? [= <-].
    + by intros [-> _].
    + done.
    + intros [_ Hx]. by rewrite (Hx e eq_refl) in Hv.
  - split; [by intros [= <-]|by intros [-> _]].
Qed.

Lemma update_keeps_deleted e pin : validate_pin_update e pin = Ok () → pin_status e = "deleted" → pin_status pin = "deleted".
Proof.
  intros Hv He. unfold validate_pin_update in Hv. inv_ok. rewrite He, bool_decide_true in Hv by done. cbn in Hv.
  apply negb_false_iff, bool_decide_eq_true in Hv. done.
Qed.

Definition is_deleted (u : gmap string PinRecord) (k : string) : Prop := ∃ p, u !! k = Some p ∧ pin_status p = "deleted".

Lemma inserts_keep_deleted ws u u' k : try_foldl insert_pin u ws = Ok u' → is_deleted u k → is_deleted u' k.
Proof.
  intros Hw Hd. revert Hw. apply (try_foldl_inv (λ u, is_deleted u k)); [|done].
  intros v pin v' _ (p & Hp & Hs) [-> Hv]%insert_pin_Ok. destruct (decide (pin_id pin = k)) as [<-|Hne].
  - exists pin. rewrite lookup_insert_eq. split; [done|]. by eapply update_keeps_deleted; [apply Hv|].
  - exists p. by rewrite lookup_insert_ne.
Qed.

Lemma inserts_named ws u u' : try_foldl insert_pin u ws = Ok u' → named u → named u'.
Proof.
  intros Hw Hu. revert Hw. apply (try_foldl_inv named); [|done].
  intros v pin v' _ Hv [-> _]%insert_pin_Ok k p [[<- <-]|[_ Hp]]%lookup_insert_Some; [done|by apply Hv].
Qed.

(** *** What every operation of the repository does: it inserts pins *)
Definition inserts (t t' : PinTables) : Prop := ∃ ws, try_foldl insert_pin (pins t) ws = Ok (pins t').

Lemma inserts_refl t : inserts t t.
Proof. by exists []. Qed.

Lemma inserts_trans t1 t2 t3 : inserts t1 t2 → inserts t2 t3 → inserts t1 t3.
Proof. intros [ws Hws] [vs Hvs]. exists (ws ++ vs). by rewrite try_foldl_app, Hws. Qed.

Lemma replace_inserts ps t : inserts t (replace ps t).2.
Proof.
  unfold replace, transaction. destruct (try_foldl insert_pin (pins t) ps) as [u|e] eqn:Hu; cbn; [by exists ps|apply inserts_refl].
Qed.

Lemma insert_indexed_inserts `{Hex} t pin t' : insert_indexed t pin = Ok t' → inserts t t'.
Proof. unfold insert_indexed. intros (u & Hu & [= <-])%bind_Ok. exists [pin]. cbn. by rewrite Hu. Qed.

Lemma insert_all_inserts `{Hex} ps t t' : insert_all ps t = Ok t' → inserts t t'.
Proof.
  unfold insert_all. apply (try_foldl_inv (inserts t)); [|apply inserts_refl].
  intros u pin u' _ Hu Hp. eapply inserts_trans; [done|]. by eapply insert_indexed_inserts.
Qed.

Section Agent.
Context `{Blake3} `{!Blake3Laws} `{Hex} `{!HexLaws} `{Json PinRecord}.
Variable self : Identity.

Definition intent_prefix (i : PublicationIntentRecord) : string := pin_prefix (intent_namespace i) (intent_cid i) (intent_reason i).
(** The pin that protects. *)
Definition intent_name (i : PublicationIntentRecord) : string := pin_name self (intent_prefix i) None.

Lemma pin_prefix_slen ns cid reason : slen (pin_prefix ns cid reason) = 74%N.
Proof.
  unfold pin_prefix. unfold slen. rewrite as_bytes_app. unfold len. rewrite length_app, hex_encode_lower.
  pose proof (slen_hex (hasher_finalize (hasher_update (hasher_update (hasher_update
    (hasher_update hasher_new (as_bytes "pepper-namespace-pin-v1")) (as_bytes (Cid_to_string (id_cid ns))))
    (as_bytes (Cid_to_string cid))) (as_bytes reason)))) as Hl.
  unfold slen, len in Hl. rewrite finalize_length in Hl.
  change (length (as_bytes "namespace-")) with 10. lia.
Qed.

Lemma name_has_prefix p e : has_prefix p (pin_name self p e).
Proof. unfold pin_name. by eexists. Qed.

Lemma name_has_dash p e : has_prefix (p +:+ "-") (pin_name self p e).
Proof.
  exists (match e with None => "permanent" | Some value => fmt_i64 value end +:+ "-" +:+ node_id self).
  unfold pin_name. apply as_bytes_inj. by rewrite !as_bytes_app, <-!app_assoc.
Qed.

(** The records that the agent signs. *)
Definition signed (p : PinRecord) : PinRecord := match sign self p with Ok q => q | Err _ => p end.

Lemma signed_fields p :
  pin_id (signed p) = pin_id p ∧ pin_root (signed p) = pin_root p ∧ pin_owner (signed p) = pin_owner p ∧
  pin_replication_factor (signed p) = pin_replication_factor p ∧ pin_created_at (signed p) = pin_created_at p ∧
  pin_expires_at (signed p) = pin_expires_at p ∧ pin_status (signed p) = pin_status p.
Proof. unfold signed, sign. destruct (to_vec _); done. Qed.

Lemma sign_signed p q : sign self p = Ok q → q = signed p.
Proof. unfold signed. by intros ->. Qed.

Lemma sign_all_signed ps qs : sign_all self ps = Ok qs → qs = signed <$> ps.
Proof.
  revert qs. induction ps as [|p ps IH]; cbn; intros qs Hq; [by injection Hq as <-|].
  inv_ok. f_equal; [by apply sign_signed|by apply IH].
Qed.

(** ** Releases win *)

Lemma batch_writes t now intents ps :
  try_foldl (λ writes i, more ← intent_writes self t now i; Ok (writes ++ more)) [] intents = Ok ps →
  ∀ i, i ∈ intents → ∃ ws, intent_writes self t now i = Ok ws ∧ ws ⊆ ps.
Proof.
  assert (∀ acc, try_foldl (λ writes i, more ← intent_writes self t now i; Ok (writes ++ more)) acc intents = Ok ps →
    acc ⊆ ps ∧ ∀ i, i ∈ intents → ∃ ws, intent_writes self t now i = Ok ws ∧ ws ⊆ ps) as Hacc; [|intros Hf; apply (Hacc _ Hf)].
  induction intents as [|i intents IH]; intros acc Hf; cbn in Hf.
  - injection Hf as <-. split; [done|]. by intros i ?%elem_of_nil.
  - apply bind_Ok in Hf as (acc' & Hw & Hf). apply bind_Ok in Hw as (ws & Hw & [= <-]). destruct (IH _ Hf) as [Hsub Hall].
    split; [set_solver|]. intros j [->|Hj]%elem_of_cons; [exists ws; set_solver|by apply Hall].
Qed.

Lemma apply_Ok t now intents t' :
  agent_apply_pin_intents self intents now t = (Ok (), t') →
  ∃ ps, try_foldl (λ writes i, more ← intent_writes self t now i; Ok (writes ++ more)) [] intents = Ok ps ∧
    try_foldl insert_pin (pins t) ps = Ok (pins t').
Proof.
  unfold agent_apply_pin_intents. rewrite stm_bind_Ok. intros (ps & s & [Hps <-]%lift_inv & Hr).
  exists ps. split; [done|]. unfold protection, replace, transaction in Hr.
  destruct (try_foldl insert_pin (pins t) ps) as [w|e] eqn:Hw; cbn in Hr; [|done]. by injection Hr as <-.
Qed.

(** The shape of the agent's operations: sign some pins and write them. *)
Lemma protection_inserts {A} (r : result PublicationError A) (f : A → stm PinTables MetadataError unit) t :
  (∀ a, inserts t (f a t).2) → inserts t ((a ← lift r; protection (f a)) t).2.
Proof.
  intros Hf. unfold mbind, stm_bind, lift. destruct r as [a|e]; [|apply inserts_refl]. specialize (Hf a).
  unfold protection. by destruct (f a t).
Qed.

Lemma agent_protect_many_inserts ns cids reason expires now t : inserts t (agent_protect_many self ns cids reason expires now t).2.
Proof. apply protection_inserts. intros ps. apply replace_inserts. Qed.

Lemma agent_release_many_grouped_inserts ns cids reasons now t : inserts t (agent_release_many_grouped self ns cids reasons now t).2.
Proof. apply protection_inserts. intros ps. apply replace_inserts. Qed.

(** A release wins over the protections of its batch.  When a batch of intents
    releases a pin that is active, the pin is deleted after the batch, even if a later
    intent of the batch protects the same block for the same reason. *)
Theorem release_wins t now intents t' i k p :
  agent_apply_pin_intents self intents now t = (Ok (), t') →
  i ∈ intents → intent_action i = Release → named (pins t) →
  pins t !! k = Some p → has_prefix (intent_prefix i +:+ "-") k → owned_active self p = true →
  is_deleted (pins t') k.
Proof.
  intros (ps & Hps & Hw)%apply_Ok Hi Ha Ht Hk Hpre Hact.
  destruct (batch_writes _ _ _ _ Hps i Hi) as (ws & Hws & Hsub). unfold intent_writes in Hws. rewrite Ha in Hws.
  apply sign_all_signed in Hws as ->.
  assert (signed (deleted p) ∈ ps) as Hin.
  { apply Hsub, list_elem_of_fmap. exists (deleted p). split; [done|]. apply list_elem_of_fmap. exists p. split; [done|].
    apply list_elem_of_filter. split; [by rewrite Hact|]. apply prefixed_spec. by exists k. }
  apply list_elem_of_split in Hin as (l1 & l2 & ->). rewrite try_foldl_app in Hw. apply bind_Ok in Hw as (u & _ & Hw).
  cbn [try_foldl] in Hw. apply bind_Ok in Hw as (v & [-> _]%insert_pin_Ok & Hw). eapply inserts_keep_deleted; [done|].
  destruct (signed_fields (deleted p)) as (Hid & _ & _ & _ & _ & _ & Hst).
  exists (signed (deleted p)). rewrite Hid. cbn. rewrite (Ht _ _ Hk), lookup_insert_eq. by rewrite Hst.
Qed.

(** What was released is never protected again: a batch with an intent that protects
    a block for a reason whose pin is deleted fails and changes nothing. *)
Lemma reprotection_fails t now intents i :
  named (pins t) → i ∈ intents → intent_action i = Protect → is_deleted (pins t) (intent_name i) →
  ∃ e, agent_apply_pin_intents self intents now t = (Err e, t).
Proof.
  intros Ht Hi Ha Hd. unfold agent_apply_pin_intents. unfold mbind, stm_bind, lift.
  destruct (try_foldl _ _ intents) as [ps|e] eqn:Hps; [|by exists e].
  unfold protection, replace, transaction. destruct (try_foldl insert_pin (pins t) ps) as [w|e] eqn:Hw; cbn; [exfalso|by eexists].
  destruct (batch_writes _ _ _ _ Hps i Hi) as (ws & Hws & Hsub). unfold intent_writes in Hws. rewrite Ha in Hws.
  destruct (existsb _ _) eqn:He.
  - apply existsb_exists in He as (q & Hq & Hb). apply list_elem_of_In, prefixed_spec in Hq as (k & Hk & _).
    destruct Hd as (p & Hp & Hs). rewrite !andb_true_iff, !bool_decide_eq_true in Hb. destruct Hb as [[Hn Hact] _].
    rewrite (Ht _ _ Hk) in Hn. fold (intent_prefix i) (intent_name i) in Hn. subst k. rewrite Hp in Hk. injection Hk as <-.
    unfold owned_active in Hact. rewrite Hs in Hact. by rewrite andb_false_r in Hact.
  - apply bind_Ok in Hws as (pin & Hpin & [= <-]). apply sign_signed in Hpin as ->.
    assert (signed (new_pin self (intent_name i) (intent_cid i) None now) ∈ ps) as Hin by (apply Hsub; left).
    apply list_elem_of_split in Hin as (l1 & l2 & ->). rewrite try_foldl_app in Hw. apply bind_Ok in Hw as (u & Hu & Hw).
    cbn [try_foldl] in Hw. apply bind_Ok in Hw as (v & [_ Hv]%insert_pin_Ok & _).
    destruct (inserts_keep_deleted _ _ _ _ Hu Hd) as (p & Hp & Hs).
    destruct (signed_fields (new_pin self (intent_name i) (intent_cid i) None now)) as (Hid & _ & _ & _ & _ & _ & Hst).
    rewrite Hid in Hv. apply Hv in Hp. by rewrite (update_keeps_deleted _ _ Hp Hs) in Hst.
Qed.

(** ** Batches of unrelated intents *)

(** Serializing a record does not fail. *)
Hypothesis serializes : ∀ p : PinRecord, ∃ b, to_vec p = Ok b.

Lemma sign_ok p : sign self p = Ok (signed p).
Proof.
  unfold signed, sign.
  destruct (serializes (mkPin (pin_id p) (pin_root p) (pin_owner p) (pin_replication_factor p) (pin_created_at p)
    (pin_expires_at p) (pin_status p) "")) as [b ->]. done.
Qed.

Lemma sign_all_ok ps : sign_all self ps = Ok (signed <$> ps).
Proof. induction ps as [|p ps IH]; cbn; [done|]. rewrite sign_ok. cbn. by rewrite IH. Qed.

(** What one intent means for the record under one key. *)
Definition pin_effect (now : Z) (i : PublicationIntentRecord) (k : string) (o : option PinRecord) : option PinRecord :=
  match intent_action i with
  | Protect =>
      if decide (k = intent_name i) then
        Some (match o with
              | Some p => p
              | None => signed (new_pin self (intent_name i) (intent_cid i) None now)
              end)
      else o
  | Release =>
      if decide (has_prefix (intent_prefix i +:+ "-") k) then (λ p, if owned_active self p then signed (deleted p) else p) <$> o
      else o
  end.

(** The pin to protect is new, or it is there and active. *)
Definition protectable (u : gmap string PinRecord) (i : PublicationIntentRecord) : Prop :=
  intent_action i = Protect → ∀ p, u !! intent_name i = Some p → owned_active self p = true ∧ pin_expires_at p = None.

Lemma update_deleted p : validate_pin_update p (signed (deleted p)) = Ok ().
Proof.
  destruct (signed_fields (deleted p)) as (_ & Hr & Ho & Hf & Hc & He & Hs). unfold validate_pin_update.
  rewrite Hr, Ho, Hf, Hc, He, Hs. cbn.
  repeat match goal with |- context [bool_decide (?x = ?x)] => rewrite (bool_decide_true (x = x) eq_refl) end.
  cbn. by rewrite andb_false_r.
Qed.

Lemma insert_deleted l : ∀ u, NoDup (pin_id <$> l) → (∀ p, p ∈ l → u !! pin_id p = Some p) →
  ∃ u', try_foldl insert_pin u (signed <$> (deleted <$> l)) = Ok u' ∧
    ∀ k, u' !! k = (λ p, if decide (k ∈ pin_id <$> l) then signed (deleted p) else p) <$> u !! k.
Proof.
  induction l as [|p l IH]; intros u Hnd Hu; cbn.
  - exists u. split; [done|]. intros k. destruct (u !! k); done.
  - cbn in Hnd. apply NoDup_cons in Hnd as [Hp Hnd]. destruct (signed_fields (deleted p)) as (Hid & _).
    assert (insert_pin u (signed (deleted p)) = Ok (<[pin_id p := signed (deleted p)]> u)) as ->.
    { apply insert_pin_Ok. rewrite Hid. split; [done|]. cbn. intros e He. rewrite (Hu p) in He by left. injection He as <-. apply update_deleted. }
    destruct (IH (<[pin_id p := signed (deleted p)]> u)) as (u' & Hu' & Hk); [done| |].
    { intros q Hq. rewrite lookup_insert_ne; [apply Hu; by right|]. intros Heq. apply Hp. rewrite Heq. by apply list_elem_of_fmap_2. }
    exists u'. split; [done|]. intros k. rewrite Hk. destruct (decide (k = pin_id p)) as [->|Hne].
    + rewrite lookup_insert_eq, (Hu p) by left. cbn. rewrite decide_False by done. rewrite decide_True by left. done.
    + rewrite lookup_insert_ne by done. destruct (u !! k) as [q|]; [|done]. cbn. f_equal.
      destruct (decide (k ∈ pin_id <$> l)) as [Hin|Hin]; [rewrite decide_True by (by right)|rewrite decide_False]; [done|done|].
      intros [?|?]%elem_of_cons; done.
Qed.

(** The writes of an intent, computed from a table that agrees on the pins concerned. *)
Lemma intent_insert t now i u :
  named (pins t) → (∀ k, has_prefix (intent_prefix i) k → u !! k = pins t !! k) → protectable u i →
  ∃ ws u', intent_writes self t now i = Ok ws ∧ try_foldl insert_pin u ws = Ok u' ∧
    ∀ k, u' !! k = pin_effect now i k (u !! k).
Proof.
  intros Ht Hagree Hprot. unfold intent_writes, pin_effect. fold (intent_prefix i) (intent_name i).
  assert (has_prefix (intent_prefix i) (intent_name i)) as Hpre by apply name_has_prefix.
  destruct (intent_action i) eqn:Ha.
  - destruct (pins t !! intent_name i) as [p|] eqn:Hp.
    + destruct (Hprot Ha p) as [Hact Hexp]; [by rewrite Hagree|].
      assert (existsb (λ pin, bool_decide (pin_id pin = intent_name i) && owned_active self pin && bool_decide (pin_expires_at pin = None))
        (prefixed (intent_prefix i) t) = true) as ->.
      { apply existsb_exists. exists p. split; [apply list_elem_of_In, prefixed_spec; by eexists|].
        rewrite (Ht _ _ Hp), Hact, Hexp. by rewrite !bool_decide_true. }
      exists [], u. split_and!; [done|done|]. intros k. destruct (decide (k = intent_name i)) as [->|]; [|done]. by rewrite Hagree, Hp.
    + assert (existsb (λ pin, bool_decide (pin_id pin = intent_name i) && owned_active self pin && bool_decide (pin_expires_at pin = None))
        (prefixed (intent_prefix i) t) = false) as ->.
      { apply existsb_false_iff. intros q (k & Hk & _)%prefixed_spec. rewrite (Ht _ _ Hk). rewrite bool_decide_false; [done|].
        intros ->. congruence. }
      rewrite sign_ok. cbn [mbind result_bind]. set (pin := signed _). destruct (signed_fields (new_pin self (intent_name i) (intent_cid i) None now)) as (Hid & _).
      exists [pin], (<[intent_name i := pin]> u). cbn [try_foldl]. split_and!; [done| |].
      * assert (insert_pin u pin = Ok (<[intent_name i := pin]> u)) as ->; [|done]. apply insert_pin_Ok. unfold pin. rewrite Hid. cbn.
        split; [done|]. intros e He. rewrite Hagree, Hp in He by done. done.
      * intros k. destruct (decide (k = intent_name i)) as [->|Hne]; [|by rewrite lookup_insert_ne]. by rewrite lookup_insert_eq, Hagree, Hp.
  - rewrite sign_all_ok. set (l := active_under self t _ _ _).
    assert (∀ q, q ∈ l ↔ pins t !! pin_id q = Some q ∧ has_prefix (intent_prefix i +:+ "-") (pin_id q) ∧ owned_active self q = true) as Hl.
    { intros q. unfold l, active_under. rewrite list_elem_of_filter, prefixed_spec. split.
      - intros [Hact (k & Hk & Hd)]. rewrite (Ht _ _ Hk). split_and!; [done|done|]. by destruct (owned_active self q).
      - intros (Hk & Hd & ->). split; [done|]. by eexists. }
    assert (∀ k, has_prefix (intent_prefix i +:+ "-") k → has_prefix (intent_prefix i) k) as Hdash.
    { intros k. apply has_prefix_shorter. }
    destruct (insert_deleted l u) as (u' & Hu' & Hk).
    + unfold l, active_under. eapply sublist_NoDup; [apply (prefixed_nodup (intent_prefix i +:+ "-") t Ht)|]. apply fmap_sublist, sublist_filter.
    + intros q (Hq & Hd & _)%Hl. rewrite Hagree; [done|auto].
    + eexists _, u'. split_and!; [done|done|]. intros k. rewrite Hk.
      destruct (u !! k) as [q|] eqn:Hq; cbn; [|by destruct (decide _)].
      destruct (decide (has_prefix (intent_prefix i +:+ "-") k)) as [Hd|Hd].
      * pose proof Hq as Hq'. rewrite Hagree in Hq' by auto. cbn. f_equal. destruct (owned_active self q) eqn:Hact.
        -- rewrite decide_True; [done|]. apply list_elem_of_fmap. exists q. split; [symmetry; by apply Ht|]. apply Hl. by rewrite (Ht _ _ Hq').
        -- rewrite decide_False; [done|]. intros (q' & -> & (Hq2 & _ & Hact')%Hl)%list_elem_of_fmap. congruence.
      * rewrite decide_False; [done|]. intros (q' & -> & (_ & Hd' & _)%Hl)%list_elem_of_fmap. done.
Qed.

Lemma pin_effect_other now i k o : ¬ has_prefix (intent_prefix i) k → pin_effect now i k o = o.
Proof.
  intros Hk. unfold pin_effect. destruct (intent_action i).
  - rewrite decide_False; [done|]. intros ->. apply Hk, name_has_prefix.
  - rewrite decide_False; [done|]. by intros ?%has_prefix_shorter.
Qed.

Lemma prefixes_apart i j k : intent_prefix i ≠ intent_prefix j → has_prefix (intent_prefix i) k → ¬ has_prefix (intent_prefix j) k.
Proof. intros Hne Hi Hj. apply Hne. eapply same_prefix; [|done..]. unfold intent_prefix. by rewrite !pin_prefix_slen. Qed.

(** What the intents mean for the record under one key, in their order. *)
Definition pin_effects (now : Z) (intents : list PublicationIntentRecord) (k : string) (o : option PinRecord) : option PinRecord :=
  foldl (λ o i, pin_effect now i k o) o intents.

Lemma pin_effects_other now intents k o :
  (∀ i, i ∈ intents → ¬ has_prefix (intent_prefix i) k) → pin_effects now intents k o = o.
Proof.
  revert o. induction intents as [|i intents IH]; intros o Hk; cbn; [done|].
  rewrite pin_effect_other by (apply Hk; left). apply IH. intros j Hj. apply Hk. by right.
Qed.

(** Under a prefix of one intent, only this intent counts. *)
Lemma pin_effects_one now intents i k o :
  NoDup (intent_prefix <$> intents) → i ∈ intents → has_prefix (intent_prefix i) k →
  pin_effects now intents k o = pin_effect now i k o.
Proof.
  revert o. induction intents as [|j intents IH]; intros o Hnd Hi Hk; [by apply elem_of_nil in Hi|]. cbn in Hnd.
  apply NoDup_cons in Hnd as [Hj Hnd]. unfold pin_effects. cbn [foldl]. apply elem_of_cons in Hi as [->|Hi].
  - apply pin_effects_other. intros l Hl. apply prefixes_apart with (i := j); [|done]. intros Heq. apply Hj. rewrite Heq. by apply list_elem_of_fmap_2.
  - rewrite pin_effect_other; [by apply IH|]. apply prefixes_apart with (i := i); [|done].
    intros Heq. apply Hj. rewrite <-Heq. by apply list_elem_of_fmap_2.
Qed.

Lemma batch_spec t now intents : ∀ u,
  named (pins t) → NoDup (intent_prefix <$> intents) →
  (∀ i k, i ∈ intents → has_prefix (intent_prefix i) k → u !! k = pins t !! k) → (∀ i, i ∈ intents → protectable (pins t) i) →
  ∃ ws u', (∀ acc, try_foldl (λ writes i, more ← intent_writes self t now i; Ok (writes ++ more)) acc intents = Ok (acc ++ ws)) ∧
    try_foldl insert_pin u ws = Ok u' ∧ ∀ k, u' !! k = pin_effects now intents k (u !! k).
Proof.
  induction intents as [|i intents IH]; intros u Ht Hnd Hagree Hprot.
  - exists [], u. split_and!; [intros acc; cbn; by rewrite app_nil_r|done|done].
  - cbn in Hnd. apply NoDup_cons in Hnd as [Hi Hnd].
    destruct (intent_insert t now i u) as (ws & u1 & Hws & Hu1 & Hk1); [done|intros k; apply Hagree; left| |].
    { intros Ha p. rewrite (Hagree i) by (left || apply name_has_prefix). apply Hprot; [left|done]. }
    destruct (IH u1) as (ws' & u2 & Hws' & Hu2 & Hk2); [done|done| |by intros j Hj; apply Hprot; right|].
    { intros j k Hj Hk. rewrite Hk1, pin_effect_other; [by apply (Hagree j); [right|]|].
      apply prefixes_apart with (i := j); [|done]. intros Heq. apply Hi. rewrite <-Heq. by apply list_elem_of_fmap_2. }
    exists (ws ++ ws'), u2. split_and!.
    + intros acc. cbn [try_foldl]. rewrite Hws. cbn. rewrite Hws'. by rewrite app_assoc.
    + rewrite try_foldl_app, Hu1. done.
    + intros k. by rewrite Hk2, Hk1.
Qed.

(** ** The one-by-one default *)

(** The agent's own pins are named by their expiry. *)
Definition own_names (u : gmap string PinRecord) : Prop :=
  ∀ k p ns cid reason, u !! k = Some p → pin_owner p = node_id self → has_prefix (pin_prefix ns cid reason) k →
    k = pin_name self (pin_prefix ns cid reason) (pin_expires_at p).

Lemma named_effect u now i u' : (∀ k, u' !! k = pin_effect now i k (u !! k)) → named u → named u'.
Proof.
  intros Hk Hu k p Hp. rewrite Hk in Hp. unfold pin_effect in Hp.
  destruct (intent_action i); (case_decide as He; [|by eapply Hu]).
  - injection Hp as <-. destruct (u !! k) as [q|] eqn:Hq; [by eapply Hu|]. destruct (signed_fields (new_pin self (intent_name i) (intent_cid i) None now)) as [-> _]. done.
  - destruct (u !! k) as [q|] eqn:Hq; [|done]. injection Hp as <-. destruct (owned_active self q); [|by eapply Hu].
    destruct (signed_fields (deleted q)) as [-> _]. cbn. by apply Hu.
Qed.

Lemma own_names_effect u now i u' : (∀ k, u' !! k = pin_effect now i k (u !! k)) → own_names u → own_names u'.
Proof.
  intros Hk Hu k p ns cid reason Hp Ho Hpre. rewrite Hk in Hp. unfold pin_effect in Hp.
  destruct (intent_action i); (case_decide as He; [|by eapply Hu]).
  - destruct (u !! k) as [q|] eqn:Hq; injection Hp as <-; [by apply Hu|].
    destruct (signed_fields (new_pin self (intent_name i) (intent_cid i) None now)) as (_ & _ & _ & _ & _ & -> & _).
    cbn. subst k. unfold intent_name. f_equal. eapply same_prefix; [|apply name_has_prefix|done]. unfold intent_prefix. by rewrite !pin_prefix_slen.
  - destruct (u !! k) as [q|] eqn:Hq; [|done]. injection Hp as <-. destruct (owned_active self q); [|by apply Hu].
    destruct (signed_fields (deleted q)) as (_ & _ & Ho' & _ & _ & He' & _). rewrite Ho' in Ho. rewrite He'. by apply (Hu k q).
Qed.

(** Under a prefix, the owned pins that do not expire are the one that protects. *)
Lemma own_permanent u i k p :
  own_names u → u !! k = Some p → has_prefix (intent_prefix i) k → owned_active self p = true → pin_expires_at p = None → k = intent_name i.
Proof.
  intros Hn Hk Hpre Hact Hexp. unfold owned_active in Hact. apply andb_true_iff in Hact as [Ho%bool_decide_eq_true _].
  rewrite (Hn _ _ _ _ _ Hk Ho Hpre), Hexp. done.
Qed.

Lemma protect_step t now i :
  intent_action i = Protect → named (pins t) → own_names (pins t) → protectable (pins t) i →
  ∃ t', agent_protect self (intent_namespace i) (intent_cid i) (intent_reason i) None now t = (Ok (), t') ∧
    ∀ k, pins t' !! k = pin_effect now i k (pins t !! k).
Proof.
  intros Ha Ht Hn Hprot. destruct (intent_insert t now i (pins t)) as (ws & u' & Hws & Hu' & Hk); [done|done|done|].
  unfold agent_protect. cbv zeta. fold (intent_prefix i) (intent_name i). unfold intent_writes in Hws. rewrite Ha in Hws.
  fold (intent_prefix i) (intent_name i) in Hws. destruct (existsb _ (prefixed _ t)) eqn:He in Hws.
  - match goal with |- context [existsb ?f ?l] => destruct (existsb f l) eqn:He' end; [exists t; split; [done|]; injection Hws as <-; cbn in Hu'; by injection Hu' as <-|exfalso].
    apply existsb_exists in He as (q & Hq & Hb). rewrite existsb_false_iff in He'. specialize (He' q (proj2 (list_elem_of_In _ _) Hq)).
    rewrite !andb_true_iff, !bool_decide_eq_true in Hb. destruct Hb as [[_ Hact] Hexp]. rewrite Hact, bool_decide_true in He'; done.
  - match goal with |- context [existsb ?f ?l] => destruct (existsb f l) eqn:He' end.
    { exfalso. apply existsb_exists in He' as (q & Hq & Hb). apply list_elem_of_In in Hq. rewrite existsb_false_iff in He. specialize (He q Hq).
      apply prefixed_spec in Hq as (k & Hq & Hpre). rewrite !andb_true_iff, !bool_decide_eq_true in Hb. destruct Hb as [Hact Hexp].
      rewrite Hact, (Ht _ _ Hq), !bool_decide_true in He; [done|done|]. by eapply own_permanent. }
    rewrite sign_ok in Hws |- *. cbn [mbind result_bind] in Hws. injection Hws as <-. cbn [try_foldl] in Hu'.
    apply bind_Ok in Hu' as (v & Hv & [= <-]). unfold mbind, stm_bind, lift, protection, put, transaction, insert_indexed. rewrite Hv. cbn.
    eexists. split; [done|]. exact Hk.
Qed.

Lemma release_step t now i :
  intent_action i = Release → named (pins t) → own_names (pins t) →
  ∃ t', agent_release self (intent_namespace i) (intent_cid i) (intent_reason i) now t = (Ok (), t') ∧
    ∀ k, pins t' !! k = pin_effect now i k (pins t !! k).
Proof.
  intros Ha Ht Hn. unfold agent_release. cbv zeta. fold (intent_prefix i). set (l := filter _ _).
  assert (∀ q, q ∈ l ↔ pins t !! pin_id q = Some q ∧ has_prefix (intent_prefix i +:+ "-") (pin_id q) ∧ owned_active self q = true) as Hl.
  { intros q. unfold l. rewrite list_elem_of_filter, prefixed_spec. split.
    - intros [Hact (k & Hk & Hd)]. rewrite (Ht _ _ Hk). assert (owned_active self q = true) as Hact' by (by destruct (owned_active self q)).
      split_and!; [done| |done]. unfold owned_active in Hact'. apply andb_true_iff in Hact' as [Ho%bool_decide_eq_true _].
      rewrite (Hn _ _ _ _ _ Hk Ho Hd). apply name_has_dash.
    - intros (Hk & Hd%has_prefix_shorter & ->). split; [done|]. by eexists. }
  destruct (insert_deleted l (pins t)) as (u' & Hu' & Hk).
  - unfold l. eapply sublist_NoDup; [apply (prefixed_nodup (intent_prefix i) t Ht)|]. apply fmap_sublist, sublist_filter.
  - by intros q (Hq & _)%Hl.
  - unfold mbind, stm_bind, lift. rewrite sign_all_ok. unfold protection, replace, transaction. rewrite Hu'. cbn.
    eexists. split; [done|]. intros k. cbn. rewrite Hk. unfold pin_effect. rewrite Ha.
    destruct (pins t !! k) as [q|] eqn:Hq; cbn; [|by destruct (decide _)].
    destruct (decide (has_prefix (intent_prefix i +:+ "-") k)) as [Hd|Hd]; cbn; [f_equal; destruct (owned_active self q) eqn:Hact|].
    + rewrite decide_True; [done|]. apply list_elem_of_fmap. exists q. split; [symmetry; by apply Ht|]. apply Hl. by rewrite (Ht _ _ Hq).
    + rewrite decide_False; [done|]. intros (q' & -> & (Hq2 & _ & Hact')%Hl)%list_elem_of_fmap. congruence.
    + rewrite decide_False; [done|]. intros (q' & -> & (_ & Hd' & _)%Hl)%list_elem_of_fmap. done.
Qed.

Lemma sequential_spec now intents : ∀ t,
  named (pins t) → own_names (pins t) → NoDup (intent_prefix <$> intents) → (∀ i, i ∈ intents → protectable (pins t) i) →
  ∃ t', default_apply_pin_intents (agent_protect self) (agent_release self) intents now t = (Ok (), t') ∧
    ∀ k, pins t' !! k = pin_effects now intents k (pins t !! k).
Proof.
  induction intents as [|i intents IH]; intros t Ht Hn Hnd Hprot; [by exists t|].
  cbn in Hnd. apply NoDup_cons in Hnd as [Hi Hnd].
  assert (∃ t1, match intent_action i with
        | Protect => agent_protect self (intent_namespace i) (intent_cid i) (intent_reason i) None now
        | Release => agent_release self (intent_namespace i) (intent_cid i) (intent_reason i) now
        end t = (Ok (), t1) ∧ ∀ k, pins t1 !! k = pin_effect now i k (pins t !! k)) as (t1 & Hs & Hk1).
  { destruct (intent_action i) eqn:Ha; [apply protect_step; auto; apply Hprot; left|by apply release_step]. }
  destruct (IH t1) as (t2 & Hs2 & Hk2); [by eapply named_effect|by eapply own_names_effect|done| |].
  - intros j Hj Ha p. rewrite Hk1, pin_effect_other; [apply Hprot; [by right|done]|].
    apply prefixes_apart with (i := j); [|apply name_has_prefix]. intros Heq. apply Hi. rewrite <-Heq. by apply list_elem_of_fmap_2.
  - exists t2. split; [|intros k; by rewrite Hk2, Hk1]. unfold default_apply_pin_intents, for_each in *. cbn [foldr].
    unfold mbind, stm_bind. rewrite Hs. exact Hs2.
Qed.

(** C29: the batch does what the intents say one by one.  When the intents are about
    different pins and none protects a pin that was released, the agent's single
    transaction succeeds and leaves the pins that the default implementation leaves:
    what is to be protected has an active pin that does not expire, what is to be
    released has no active pin of this node, and all other pins are as before. *)
Theorem batch_is_sequential t now intents :
  named (pins t) → own_names (pins t) → NoDup (intent_prefix <$> intents) → (∀ i, i ∈ intents → protectable (pins t) i) →
  ∃ t1 t2, agent_apply_pin_intents self intents now t = (Ok (), t1) ∧
    default_apply_pin_intents (agent_protect self) (agent_release self) intents now t = (Ok (), t2) ∧ pins t1 = pins t2 ∧
    (∀ i, i ∈ intents → intent_action i = Protect →
      ∃ p, pins t1 !! intent_name i = Some p ∧ owned_active self p = true ∧ pin_expires_at p = None) ∧
    (∀ i k p, i ∈ intents → intent_action i = Release → pins t1 !! k = Some p → has_prefix (intent_prefix i) k → owned_active self p = false) ∧
    (∀ k, (∀ i, i ∈ intents → ¬ has_prefix (intent_prefix i) k) → pins t1 !! k = pins t !! k).
Proof.
  intros Ht Hn Hnd Hprot. destruct (sequential_spec now intents t) as (t2 & Hs & Hk2); [done..|].
  destruct (batch_spec t now intents (pins t)) as (ws & u' & Hws & Hu' & Hk); [done..|].
  exists (mkPinTables u' (pins_by_root t)), t2. cbn. split_and!; [|done|apply map_eq; intros k; by rewrite Hk, Hk2|..].
  - unfold agent_apply_pin_intents. rewrite (Hws []). cbn [app]. unfold protection, replace, transaction.
    unfold mbind at 1, stm_bind, lift. by rewrite Hu'.
  - intros i Hi Ha. rewrite Hk, (pin_effects_one now intents i); [|done|done|apply name_has_prefix]. unfold pin_effect.
    rewrite Ha, decide_True by done. eexists. split; [done|]. destruct (pins t !! intent_name i) as [p|] eqn:Hp; [by eapply Hprot|].
    unfold owned_active. destruct (signed_fields (new_pin self (intent_name i) (intent_cid i) None now)) as (_ & _ & -> & _ & _ & -> & ->).
    cbn. by rewrite bool_decide_true.
  - intros i k p Hi Ha Hp Hpre. rewrite Hk, (pin_effects_one now intents i) in Hp by done. unfold pin_effect in Hp. rewrite Ha in Hp.
    assert (∀ q, pins t !! k = Some q → owned_active self q = true → has_prefix (intent_prefix i +:+ "-") k) as Hdash.
    { intros q Hq Hact. unfold owned_active in Hact. apply andb_true_iff in Hact as [Ho%bool_decide_eq_true _].
      rewrite (Hn _ _ _ _ _ Hq Ho Hpre). apply name_has_dash. }
    destruct (pins t !! k) as [q|] eqn:Hq; [|by destruct (decide _)]. specialize (Hdash q eq_refl).
    destruct (decide (has_prefix (intent_prefix i +:+ "-") k)) as [Hd|Hd].
    + injection Hp as <-. destruct (owned_active self q) eqn:Hact; [|done]. unfold owned_active.
      destruct (signed_fields (deleted q)) as (_ & _ & _ & _ & _ & _ & ->). cbn. by rewrite andb_false_r.
    + injection Hp as <-. destruct (owned_active self q); [|done]. by destruct (Hd (Hdash eq_refl)).
  - intros k Hno. by rewrite Hk, pin_effects_other.
Qed.
End Agent.
