(* ===== verification/Determinism.v ===== *)
(** * What a command depends on

    Replicas of a namespace apply the same commands to stores that do not hold the same
    blocks, and a node that restarts applies its commands again to a store that holds
    their results already.  A command reads blocks by their names, and so computes the
    same on a store with more blocks: the same response, the same next state, the same
    blocks written, unless a block that it reads is missing ([apply_agrees]). *)
From stdpp Require Import base gmap sets list strings sorting.
From Stdlib Require Import Strings.Byte.
From S2P Require Import Prelude Types Merkle Namespace.

Create HintDb agree.

(** The second store has the blocks of the first; writes answer alike and keep this. *)
Class Simulation {S1 S2 : Type} `{MerkleStore S1} `{MerkleStore S2} (sub : S1 → S2 → Prop) : Prop := {
  sub_get s1 s2 c p : sub s1 s2 → store_get s1 c = Ok p → store_get s2 c = Ok p;
  sub_put s1 s2 k p r1 t1 r2 t2 :
    sub s1 s2 → store_put k p s1 = (r1, t1) → store_put k p s2 = (r2, t2) → r1 = r2 ∧ sub t1 t2
}.

Section Determinism.
Context {S1 S2 : Type} `{MerkleStore S1} `{MerkleStore S2} (sub : S1 → S2 → Prop) `{!Simulation sub}.

(** ** Computations that agree *)

Section Errors.
Context {E : Type}.
(** The failures of a read. *)
Variable missing : E → Prop.

Definition same_answer {A} (r1 r2 : result E A) : Prop := r1 = r2 ∨ ∃ e, r1 = Err e ∧ missing e.

(** On stores with the same blocks: the same answer and again stores with the same
    blocks, or the first misses a block where it is. *)
Definition agree {A} (c1 : stm S1 E A) (c2 : stm S2 E A) : Prop :=
  ∀ s1 s2, sub s1 s2 →
  (∃ r t1 t2, c1 s1 = (r, t1) ∧ c2 s2 = (r, t2) ∧ sub t1 t2) ∨ ∃ e t1 t2, c1 s1 = (Err e, t1) ∧ missing e ∧ sub t1 t2.

Lemma agree_ret {A} (a : A) : agree (mret a) (mret a).
Proof. intros s1 s2 Hs. left. by exists (Ok a), s1, s2. Qed.

Lemma agree_lift {A} (r : result E A) : agree (lift r) (lift r).
Proof. intros s1 s2 Hs. left. by exists r, s1, s2. Qed.

Lemma agree_reads {A} (f1 : S1 → result E A) (f2 : S2 → result E A) :
  (∀ s1 s2, sub s1 s2 → same_answer (f1 s1) (f2 s2)) → agree (reads f1) (reads f2).
Proof.
  intros Hf s1 s2 Hs. destruct (Hf s1 s2 Hs) as [Heq|(e & He & Hm)]; unfold reads.
  - left. exists (f1 s1), s1, s2. by rewrite Heq.
  - right. exists e, s1, s2. by rewrite He.
Qed.

Lemma agree_bind {A B} (c1 : stm S1 E A) (c2 : stm S2 E A) (f1 : A → stm S1 E B) (f2 : A → stm S2 E B) :
  agree c1 c2 → (∀ a, agree (f1 a) (f2 a)) → agree (c1 ≫= f1) (c2 ≫= f2).
Proof.
  intros Hc Hf s1 s2 Hs. unfold mbind, stm_bind. destruct (Hc s1 s2 Hs) as [(r & t1 & t2 & -> & -> & Ht)|(e & t1 & t2 & -> & Hm & Ht)].
  - destruct r as [a|e]; [by apply Hf|]. left. by exists (Err e), t1, t2.
  - right. by exists e, t1, t2.
Qed.

Lemma same_refl {A} (r : result E A) : same_answer r r.
Proof. by left. Qed.

Lemma same_bind {A B} (r1 r2 : result E A) (f1 f2 : A → result E B) :
  same_answer r1 r2 → (∀ a, same_answer (f1 a) (f2 a)) → same_answer (r1 ≫= f1) (r2 ≫= f2).
Proof.
  intros [->|(e & -> & Hm)] Hf; [|by right; exists e]. destruct r2 as [a|e]; [apply Hf|by left].
Qed.

Lemma same_foldl {A B} (f1 f2 : A → B → result E A) a l :
  (∀ a b, same_answer (f1 a b) (f2 a b)) → same_answer (try_foldl f1 a l) (try_foldl f2 a l).
Proof. intros Hf. revert a. induction l as [|b l IH]; intros a; cbn; [by left|]. by apply same_bind. Qed.
End Errors.

Lemma put_agree {E} (missing : E → Prop) (wrap : string → E) k p :
  agree missing (λ s, let '(r, s') := store_put k p s in (map_err wrap r, s')) (λ s, let '(r, s') := store_put k p s in (map_err wrap r, s')).
Proof.
  intros s1 s2 Hs. destruct (store_put k p s1) as [r1 t1] eqn:H1, (store_put k p s2) as [r2 t2] eqn:H2.
  destruct (sub_put _ _ _ _ _ _ _ _ Hs H1 H2) as [-> Ht]. left. by eexists _, t1, t2.
Qed.

#[local] Hint Resolve agree_ret agree_lift same_refl put_agree : agree.

(** [follow] compares two runs of the same code step by step. *)
Ltac follow :=
  repeat (intros; first
    [ solve [eauto with agree]
    | apply agree_bind | apply same_bind | apply same_foldl
    | match goal with
      | |- agree _ (match ?x with _ => _ end) _ => destruct x
      | |- same_answer _ (match ?x with _ => _ end) _ => destruct x
      end ]).

(** ** The Merkle map *)

Section Merkle.
Context `{Blake3} `{Hex} `{Json Node} `{Json CursorRecord}.

Definition unread (e : MerkleError) : Prop := ∃ c m, e = Merkle.Read c m.

Lemma load_node_same s1 s2 cid limits : sub s1 s2 → same_answer unread (load_node s1 cid limits) (load_node s2 cid limits).
Proof.
  intros Hs. unfold load_node. apply same_bind; [apply same_refl|]. intros []. destruct (store_get s1 cid) as [p|m] eqn:Hp.
  - rewrite (sub_get s1 s2 cid p Hs Hp). apply same_refl.
  - right. eexists. split; [done|]. by eexists _, _.
Qed.

Lemma load_agree cid limits : agree unread (load cid limits) (load cid limits).
Proof. apply agree_reads. intros s1 s2 Hs. by apply load_node_same. Qed.

#[local] Hint Resolve load_node_same load_agree : agree.

Lemma store_node_agree node limits : agree unread (store_node node limits) (store_node node limits).
Proof. unfold store_node. follow. Qed.

#[local] Hint Resolve store_node_agree : agree.

Lemma empty_root_agree limits : agree unread (empty_root limits) (empty_root limits).
Proof. unfold empty_root. follow. Qed.

Lemma normalize_agree node limits : agree unread (normalize_and_store node limits) (normalize_and_store node limits).
Proof. unfold normalize_and_store. follow. Qed.

Lemma insert_split_agree node prefix remaining common value limits :
  agree unread (insert_split node prefix remaining common value limits) (insert_split node prefix remaining common value limits).
Proof. unfold insert_split. follow. Qed.

#[local] Hint Resolve empty_root_agree normalize_agree insert_split_agree : agree.

Lemma insert_at_agree limits key value levels : ∀ cid offset,
  agree unread (insert_at limits key value levels cid offset) (insert_at limits key value levels cid offset).
Proof. induction levels as [|levels IH]; intros cid offset; cbn [insert_at]; follow. Qed.

Lemma delete_at_agree limits key levels : ∀ cid offset,
  agree unread (delete_at limits key levels cid offset) (delete_at limits key levels cid offset).
Proof. induction levels as [|levels IH]; intros cid offset; cbn [delete_at]; follow. Qed.

#[local] Hint Resolve insert_at_agree delete_at_agree : agree.

Lemma apply_mutations_agree limits ms : ∀ current,
  agree unread (apply_mutations limits current ms) (apply_mutations limits current ms).
Proof. induction ms as [|m ms IH]; intros current; cbn [apply_mutations]; unfold apply_mutation; follow. Qed.

#[local] Hint Resolve apply_mutations_agree : agree.

Lemma apply_batch_agree root ms limits : agree unread (apply_batch root ms limits) (apply_batch root ms limits).
Proof. unfold apply_batch. follow. Qed.

Lemma get_loop_same s1 s2 limits key levels : sub s1 s2 → ∀ cid offset,
  same_answer unread (get_loop s1 limits key levels cid offset) (get_loop s2 limits key levels cid offset).
Proof. intros Hs. induction levels as [|levels IH]; intros cid offset; cbn [get_loop]; follow. Qed.

#[local] Hint Resolve get_loop_same : agree.

Lemma get_same s1 s2 root key limits : sub s1 s2 → same_answer unread (get s1 root key limits) (get s2 root key limits).
Proof. intros Hs. unfold get. follow. Qed.

Lemma scan_loop_same s1 s2 limits query after budget : sub s1 s2 → ∀ stack entries nodes_read,
  same_answer unread (scan_loop s1 limits query after budget stack entries nodes_read)
                     (scan_loop s2 limits query after budget stack entries nodes_read).
Proof.
  intros Hs. induction budget as [|budget IH]; intros [|[[cid parent] depth] stack] entries nodes_read; cbn [scan_loop]; follow.
Qed.

#[local] Hint Resolve scan_loop_same : agree.

Lemma scan_same s1 s2 root query limits : sub s1 s2 → same_answer unread (scan s1 root query limits) (scan s2 root query limits).
Proof. intros Hs. unfold scan. follow. Qed.
End Merkle.

(** ** The namespace *)

Section Namespace.
Context `{Blake3} `{Hex} `{Json Node} `{Json CursorRecord} `{NamespaceJson} `{CommandAuthorizer}.

Definition lost (e : NamespaceError) : Prop := ∃ e', unread e' ∧ e = from_merkle e'.

Lemma same_merkle {A} (r1 r2 : result MerkleError A) :
  same_answer unread r1 r2 → same_answer lost (map_err from_merkle r1) (map_err from_merkle r2).
Proof. intros [->|(e & -> & He)]; [by left|]. right. eexists. split; [done|]. by exists e. Qed.

Lemma merkle_agree {A} (c1 : stm S1 MerkleError A) (c2 : stm S2 MerkleError A) :
  agree unread c1 c2 → agree lost (merkle c1) (merkle c2).
Proof.
  intros Hc s1 s2 Hs. unfold merkle. destruct (Hc s1 s2 Hs) as [(r & t1 & t2 & -> & -> & Ht)|(e & t1 & t2 & -> & He & Ht)].
  - left. by eexists _, t1, t2.
  - right. eexists _, t1, t2. split_and!; [done| |done]. by exists e.
Qed.

#[local] Hint Resolve merkle_agree apply_batch_agree same_merkle get_same scan_same : agree.

Lemma put_canonical_agree k p : agree lost (put_canonical k p) (put_canonical k p).
Proof. unfold put_canonical. follow. Qed.

#[local] Hint Resolve put_canonical_agree : agree.

Lemma commit_agree st draft envelope ml :
  agree lost (commit_merkle_mutations st draft envelope ml) (commit_merkle_mutations st draft envelope ml).
Proof. unfold commit_merkle_mutations. follow. Qed.

Lemma plan_same s1 s2 root ml acc m : sub s1 s2 → same_answer lost (plan_mutation s1 root ml acc m) (plan_mutation s2 root ml acc m).
Proof. intros Hs. unfold plan_mutation. follow. Qed.

Lemma read_all_same s1 s2 root limit ml : sub s1 s2 → same_answer lost (read_all s1 root limit ml) (read_all s2 root limit ml).
Proof.
  intros Hs. unfold read_all. generalize (∅ : gmap bytes MerkleValue) (None : option string).
  induction (N.to_nat (limit + 2)) as [|rounds IH]; intros values cursor; cbn [read_all_loop]; follow.
Qed.

#[local] Hint Resolve commit_agree plan_same read_all_same : agree.

Lemma run_command_agree st e limits ml : agree lost (run_command st e limits ml) (run_command st e limits ml).
Proof.
  unfold run_command, apply_transaction, rollback. destruct (command e); follow; try (apply agree_reads; follow).
Qed.

(** Two machines with the same state, the second with the blocks of the first. *)
Definition alike (M1 : NamespaceStateMachine S1) (M2 : NamespaceStateMachine S2) : Prop :=
  sub (store M1) (store M2) ∧ state M1 = state M2 ∧ namespace_limits M1 = namespace_limits M2 ∧ merkle_limits M1 = merkle_limits M2.

Lemma apply_alike e M1 M2 :
  alike M1 M2 →
  (∃ r M1' M2', apply e M1 = (r, M1') ∧ apply e M2 = (r, M2') ∧ alike M1' M2') ∨ ∃ err M1' M2', apply e M1 = (Err err, M1') ∧ lost err ∧ alike M1' M2'.
Proof.
  intros (Hs & Hst & Hl & Hml). unfold apply, mbind, stm_bind, reads, lift. rewrite <-Hst, <-Hl.
  destruct (validate_envelope _ _) as [[]|err]; [|left; by eexists _, M1, M2].
  destruct (canonical_signing_payload _ _) as [payload|err]; [|left; by eexists _, M1, M2].
  destruct (map_err _ _) as [[]|err]; [|left; by eexists _, M1, M2].
  destruct (idempotency_fingerprint _ _) as [f|err]; [|left; by eexists _, M1, M2].
  destruct (idempotency (state M1) !! request_id e) as [record|].
  { left. destruct (fail_if _ _) as [[]|err]; by eexists _, M1, M2. }
  unfold on_store, modify. rewrite <-Hst, <-Hl, <-Hml.
  destruct (run_command_agree (state M1) (stamped (state M1) e) (namespace_limits M1) (merkle_limits M1) _ _ Hs)
    as [(r & t1 & t2 & -> & -> & Ht)|(err & t1 & t2 & -> & Hlost & Ht)].
  - left. destruct r as [[resp next]|err]; by eexists _, _, _.
  - right. eexists err, _, (mkMachine t2 (state M2) (namespace_limits M2) (merkle_limits M2)). by split_and!.
Qed.
End Namespace.
End Determinism.
