(* ===== verification/Consensus.v ===== *)
(** * The storage of a namespace group (crates/pepper-consensus)

    What the crate gives to the consensus library: the log of a group and the state
    machine that applies it, both in tables of the metadata database, and the buffer
    between a command and the block store.  The library itself, its votes and its
    memberships are parameters. *)
From stdpp Require Import base gmap sets list strings sorting.
From Stdlib Require Import Strings.Byte.
From S2P Require Import Prelude Tables Types Merkle Namespace Pins.

(** ** What the library names *)

Record LogId := mkLogId { leader_term : N; leader_node : N; log_index : N }.

(** Votes and memberships of the library. *)
Class Openraft := {
  Vote : Type;
  Membership : Type;
  default_membership : Membership;
  voter_ids : Membership → list N;
  (** the nodes with their addresses *)
  member_nodes : Membership → list (N * string);
  log_id_to_string : LogId → string
}.

Section Types.
Context `{Openraft}.

Inductive EntryPayload :=
| Blank
| Normal (commands : list CommandEnvelope)
| MembershipChange (m : Membership).

Record Entry := mkEntry { entry_log_id : LogId; entry_payload : EntryPayload }.

Record StoredMembership := mkStoredMembership { membership_log_id : option LogId; stored_membership : Membership }.

Record PersistedStateMachine := mkPersisted {
  last_applied_log : option LogId;
  membership_epoch : N;
  membership : StoredMembership;
  namespace_state : NamespaceState
}.

Record SnapshotPointer := mkPointer {
  pointer_checkpoint : Cid;
  pointer_epoch : N;
  replica_node_ids : list string
}.

Record SnapshotMeta := mkMeta {
  last_log_id : option LogId;
  last_membership : StoredMembership;
  snapshot_id : string
}.

Record StoredSnapshotRecord := mkSnapshotRecord { snapshot_meta : SnapshotMeta; snapshot_pointer : SnapshotPointer }.
End Types.

Record ConsensusResponse := mkConsensusResponse {
  consensus_result : option ApplyResult;
  error_code : option string;
  consensus_error : option string
}.

Definition namespace_error_code (e : NamespaceError) : string :=
  match e with
  | Namespace.GenerationConflict _ => "generation_conflict"
  | IdempotencyConflict => "idempotency_conflict"
  | StaleSnapshot => "stale_snapshot"
  | Unauthorized _ => "unauthorized"
  | UnknownRevision _ => "unknown_revision"
  | SnapshotExists _ => "snapshot_exists"
  | SnapshotNotFound _ => "snapshot_not_found"
  | EmptyTransaction | NoChanges => "no_changes"
  | _ => "invalid_namespace_command"
  end.

Definition application_error (e : NamespaceError) : ConsensusResponse :=
  mkConsensusResponse None (Some (namespace_error_code e)) (Some (NamespaceError_to_string e)).

(** [StorageError] of the library, by the helper that makes it. *)
Inductive StorageError :=
| ReadLogs (message : string)
| WriteLogs (message : string)
| WriteState (message : string)
| ApplyFailed (at_ : LogId) (message : string)
| WriteSnapshot (message : string)
| ReadSnapshot (message : string).

(** The errors of the tables, of [ConsensusError]. *)
Inductive ConsensusError := MetadataFailed (message : string) | SerdeFailed (message : string).

Definition ConsensusError_to_string (e : ConsensusError) : string :=
  match e with
  | MetadataFailed m => "metadata operation failed: " +:+ m
  | SerdeFailed m => "serialization failed: " +:+ m
  end.

(** [CidParseError]'s [Display] *)
Definition CidParseError_to_string (e : CidParseError) : string :=
  match e with
  | InvalidPrefix => "CID must start with cid://"
  | MissingPart part => "CID is missing " +:+ part
  | TooManyParts => "CID has too many parts"
  | UnsupportedVersion v => "unsupported CID version " +:+ fmt_radix 10 v
  | UnsupportedHashAlg alg => "unsupported hash algorithm " +:+ alg
  | Types.InvalidCodec m => "invalid codec: " +:+ m
  | InvalidDigest m => "invalid digest: " +:+ m
  end.

(** The tables of the database that a group writes; the two tables of intents are
    shared with the publication layer. *)
Record ConsensusTables := mkTables {
  raft_vote : gmap string bytes;
  raft_log : gmap string bytes;
  raft_membership : gmap string bytes;
  state_table : gmap string bytes;
  checkpoint_table : gmap string bytes;
  live_intents : gmap string PublicationIntentRecord;
  retired_intents : gmap string PublicationIntentRecord
}.

Definition set_vote v t := mkTables v (raft_log t) (raft_membership t) (state_table t) (checkpoint_table t) (live_intents t) (retired_intents t).
Definition set_log l t := mkTables (raft_vote t) l (raft_membership t) (state_table t) (checkpoint_table t) (live_intents t) (retired_intents t).
Definition set_state s m t := mkTables (raft_vote t) (raft_log t) m s (checkpoint_table t) (live_intents t) (retired_intents t).
Definition set_checkpoints c t := mkTables (raft_vote t) (raft_log t) (raft_membership t) (state_table t) c (live_intents t) (retired_intents t).
Definition set_group_intents live retired t :=
  mkTables (raft_vote t) (raft_log t) (raft_membership t) (state_table t) (checkpoint_table t) live retired.

(** ** Blocks *)

(** [ConsensusDataBackend] *)
Class ConsensusDataBackend (S : Type) := {
  backend_store :: MerkleStore S;
  put_batch : list (Codec * bytes) → stm S string (list Cid);
  get_from_replicas : Cid → list string → stm S string bytes
}.

Section Backends.
Context {S : Type} `{MerkleStore S}.

(** The default methods. *)
Fixpoint default_put_batch (blocks : list (Codec * bytes)) : stm S string (list Cid) :=
  match blocks with
  | [] => mret []
  | (k, p) :: blocks => cid ← store_put k p; cids ← default_put_batch blocks; mret (cid :: cids)
  end.

Definition default_get_from_replicas (cid : Cid) (_ : list string) : stm S string bytes := reads (λ s, store_get s cid).
End Backends.

Section Memory.
Context `{Hex} `{Blake3}.

#[global] Instance MemoryDataBackend_store : MerkleStore (gmap string bytes) := {|
  store_get s cid := ok_or (s !! Cid_to_string cid) "block not found";
  store_put k p s := let cid := Cid_new k p in (Ok cid, <[Cid_to_string cid := p]> s)
|}.

#[global] Instance MemoryDataBackend : ConsensusDataBackend (gmap string bytes) := {|
  backend_store := MemoryDataBackend_store;
  put_batch := default_put_batch;
  get_from_replicas := default_get_from_replicas
|}.
End Memory.

(** [BufferedConsensusDataStore] *)
Record Buffered (S : Type) := mkBuffered { base : S; buffered : gmap string (Codec * bytes) }.
Arguments mkBuffered {_} _ _.
Arguments base {_} _.
Arguments buffered {_} _.

Section Buffers.
Context `{Hex} `{Blake3} {S : Type} `{!ConsensusDataBackend S}.

Definition Buffered_new (base : S) : Buffered S := mkBuffered base ∅.

#[global] Instance Buffered_store : MerkleStore (Buffered S) := {|
  store_get s cid := match buffered s !! Cid_to_string cid with
                     | Some kp => Ok kp.2
                     | None => store_get (base s) cid
                     end;
  store_put k p s := let cid := Cid_new k p in (Ok cid, mkBuffered (base s) (<[Cid_to_string cid := (k, p)]> (buffered s)))
|}.

Definition flush : stm (Buffered S) string unit := λ s,
  let blocks := (btree_iter (buffered s)).*2 in
  if bool_decide (blocks = []) then (Ok (), Buffered_new (base s))
  else
    let expected := (λ kp, Cid_new kp.1 kp.2) <$> blocks in
    let '(actual, base) := put_batch blocks (base s) in
    (actual ← actual;
     fail_if (negb (bool_decide (actual = expected))) "batch store returned a CID different from the buffered block", Buffered_new base).
End Buffers.

(** ** The log *)

(** [RangeBounds<u64>] *)
Inductive Bound := Included (n : N) | Excluded (n : N) | Unbounded.
Record LogRange := mkRange { start_bound : Bound; end_bound : Bound }.

Definition range_contains (r : LogRange) (i : N) : bool :=
  match start_bound r with Included n => (n <=? i)%N | Excluded n => (n <? i)%N | Unbounded => true end
  && match end_bound r with Included n => (i <=? n)%N | Excluded n => (i <? n)%N | Unbounded => true end.

(** [RedbLogStore]; the cached total of bytes is [u64::MAX] when it is not known. *)
Record LogStore := mkLogStore { log_group : string; max_log_bytes : N; log_bytes_cached : N }.

Definition LogStore_new (group : string) (max_log_bytes : N) : LogStore := mkLogStore group max_log_bytes u64_max.

Definition cache (n : N) (l : LogStore) : LogStore := mkLogStore (log_group l) (max_log_bytes l) n.

Section Log.
Context `{Openraft} `{Blake3} `{Hex} `{Json Entry} `{Json Vote} `{Json LogId} `{Json (option LogId)}.

(** The store and the tables. *)
Definition logged (A : Type) : Type := stm (LogStore * ConsensusTables) StorageError A.

Definition state_key (group name : string) : string := group +:+ "|" +:+ name.
Definition log_prefix (group : string) : string := group +:+ "|log|".
Definition log_key (group : string) (index : N) : string := log_prefix group +:+ fmt_padded 10 20 index.

Definition read_value {A} `{Json A} (key : string) (t : ConsensusTables) : result StorageError (option A) :=
  match raft_vote t !! key with
  | None => Ok None
  | Some bytes => value ← map_err ReadLogs (from_slice bytes); Ok (Some value)
  end.

Definition write_value {A} `{Json A} (key : string) (value : A) : logged unit := λ '(l, t),
  match to_vec value with
  | Err m => (Err (WriteLogs m), (l, t))
  | Ok bytes => (Ok (), (l, set_vote (<[key := bytes]> (raft_vote t)) t))
  end.

(** The index in a key. *)
Definition key_index (group key : string) : option N :=
  rest ← strip_prefix (log_prefix group) key;
  match from_str_radix 10 u64_max rest with Ok i => Some i | Err _ => None end.

(** The loop of [read_logs]: up to the first key that is not of the range. *)
Fixpoint read_entries (group : string) (range : LogRange) (rows : list (string * bytes)) : result StorageError (list Entry) :=
  match rows with
  | [] => Ok []
  | (key, value) :: rows =>
      match key_index group key with
      | None => Ok []
      | Some index =>
          if range_contains range index then
            entry ← map_err ReadLogs (from_slice value);
            entries ← read_entries group range rows;
            Ok (entry :: entries)
          else Ok []
      end
  end.

Definition read_logs (group : string) (range : LogRange) (t : ConsensusTables) : result StorageError (list Entry) :=
  let lower := match start_bound range with
               | Included i => i
               | Excluded i => saturating_add u64_max i 1
               | Unbounded => 0%N
               end in
  read_entries group range (range_from (log_key group lower) (raft_log t)).

Definition log_bytes : logged N := λ '(l, t),
  if negb (log_bytes_cached l =? u64_max)%N then (Ok (log_bytes_cached l), (l, t))
  else
    let bytes := foldl (λ n kv, saturating_add u64_max n (len kv.2)) 0%N (rows_with (log_prefix (log_group l)) (raft_log t)) in
    (Ok bytes, (cache bytes l, t)).

Record LogState := mkLogState { last_purged_log_id : option LogId; state_last_log_id : option LogId }.

Definition get_log_state (group : string) (t : ConsensusTables) : result StorageError LogState :=
  last_purged ← read_value (A := LogId) (state_key group "last_purged") t;
  entries ← read_logs group (mkRange Unbounded Unbounded) t;
  Ok (mkLogState last_purged (match last entries with Some e => Some (entry_log_id e) | None => last_purged end)).

Definition save_vote (vote : Vote) : logged unit := λ s, write_value (state_key (log_group s.1) "vote") vote s.
Definition read_vote (group : string) (t : ConsensusTables) : result StorageError (option Vote) := read_value (state_key group "vote") t.
Definition save_committed (committed : option LogId) : logged unit := λ s, write_value (state_key (log_group s.1) "committed") committed s.
(** The stored value is itself an [Option]. *)
Definition read_committed (group : string) (t : ConsensusTables) : result StorageError (option LogId) :=
  read_value (state_key group "committed") t.

(** *** Intents *)

(** [committed_publication_intent] *)
Definition committed_publication_intent (ns : NamespaceId) (index : N) (request : string) (intent : PinIntent) (now : Z)
    : PublicationIntentRecord :=
  let verb := match action intent with Protect => "protect" | Release => "release" end in
  mkIntent (Cid_to_string (id_cid ns) +:+ "|" +:+ fmt_padded 16 16 index +:+ "|committed|" +:+ hex_encode (blake3_hash (as_bytes request))
              +:+ "|" +:+ verb +:+ "|" +:+ Cid_to_string (pin_cid intent))
    ns index request (pin_cid intent) (action intent) (reason intent) "pending" now.

(** [parse_namespace_id]; the error is the text of [NetworkError::BlockService]. *)
Definition parse_namespace_id (value : string) : result string NamespaceId :=
  c ← map_err (λ e, "block service error: " +:+ CidParseError_to_string e) (Cid_from_str value);
  map_err (λ e, "block service error: " +:+ NamespaceError_to_string e) (NamespaceId_new c).

Definition put_values (e : CommandEnvelope) : list Cid :=
  match command e with
  | ApplyTransaction t => omap (λ m, match m with Put _ c _ _ _ => Some c | Assert _ _ | Delete _ _ => None end) (mutations t)
  | _ => []
  end.

Definition proposal_protection_intents (group : string) (entry : Entry) (now : Z) : list PublicationIntentRecord :=
  match entry_payload entry, parse_namespace_id group with
  | Normal commands, Ok ns =>
      concat ((λ e, (λ c,
        mkIntent (group +:+ "|" +:+ fmt_padded 16 16 (log_index (entry_log_id entry)) +:+ "|proposal|"
                    +:+ hex_encode (blake3_hash (as_bytes (request_id e))) +:+ "|" +:+ Cid_to_string c)
          ns (log_index (entry_log_id entry)) (request_id e) c Protect "proposal-input" "pending" now) <$> put_values e) <$> commands)
  | _, _ => []
  end.

(** *** Writes *)

Fixpoint encode_entries (entries : list Entry) : result StorageError (list bytes) :=
  match entries with
  | [] => Ok []
  | e :: entries => b ← map_err WriteLogs (to_vec e); bs ← encode_entries entries; Ok (b :: bs)
  end.

(** The sum of the sizes, in a release build. *)
Definition added_bytes (encoded : list bytes) : N := foldl (λ n b, wrapping_add u64_max n (len b)) 0%N encoded.

Definition append (entries : list Entry) (now : Z) : logged unit := λ s,
  match encode_entries entries with
  | Err e => (Err e, s)
  | Ok encoded =>
      let added := added_bytes encoded in
      match log_bytes s with
      | (Err e, s) => (Err e, s)
      | (Ok total, (l, t)) =>
          if (max_log_bytes l <? saturating_add u64_max total added)%N
          then (Err (WriteLogs "consensus log byte limit exceeded"), (l, t))
          else
            let intents := concat ((λ e, proposal_protection_intents (log_group l) e now) <$> entries) in
            let log := foldl (λ log eb, <[log_key (log_group l) (log_index (entry_log_id eb.1)) := eb.2]> log) (raft_log t) (zip entries encoded) in
            let live := foldl (λ live i, <[intent_id i := i]> live) (live_intents t) intents in
            let l := if negb (log_bytes_cached l =? u64_max)%N then cache (wrapping_add u64_max (log_bytes_cached l) added) l else l in
            (Ok (), (l, set_group_intents live (retired_intents t) (set_log log t)))
      end
  end.

(** The rows of the group, up to the first key that is not one of its entries. *)
Fixpoint indexed (group : string) (rows : list (string * bytes)) : list (N * string) :=
  match rows with
  | [] => []
  | (key, _) :: rows => match key_index group key with Some i => (i, key) :: indexed group rows | None => [] end
  end.

Definition remove_keys {A} (keys : list string) (t : gmap string A) : gmap string A := foldl (λ t k, delete k t) t keys.

Definition delete_logs (group : string) (range : LogRange) (t : ConsensusTables) : ConsensusTables :=
  let keys := (filter (λ ik, range_contains range ik.1 = true) (indexed group (range_from (log_prefix group) (raft_log t)))).*2 in
  set_log (remove_keys keys (raft_log t)) t.

Definition truncate (id : LogId) : logged unit := λ '(l, t),
  (Ok (), (cache u64_max l, delete_logs (log_group l) (mkRange (Included (log_index id)) Unbounded) t)).

Definition purge (id : LogId) : logged unit := λ '(l, t),
  let l := cache u64_max l in
  match to_vec id with
  | Err m => (Err (WriteLogs m), (l, t))
  | Ok bytes =>
      let t := delete_logs (log_group l) (mkRange Unbounded (Included (log_index id))) t in
      (Ok (), (l, set_vote (<[state_key (log_group l) "last_purged" := bytes]> (raft_vote t)) t))
  end.
End Log.

(** [namespace_log_contains] *)
Definition namespace_log_contains `{Hex} (t : ConsensusTables) (ns : NamespaceId) (index : N) : bool :=
  bool_decide (is_Some (raft_log t !! log_key (Cid_to_string (id_cid ns)) index)).

(** ** The state machine *)

Definition INITIAL_MEMBERSHIP_EPOCH : N := 1.
(** Applied entries between two writes of the whole state. *)
Definition STATE_PERSIST_CADENCE_ENTRIES : N := 32.

(** [RedbStateMachineStore] *)
Record StateMachineStore `{Openraft} (S : Type) := mkStateMachine {
  machine_group : string;
  data_store : S;
  memory : PersistedStateMachine;
  current_snapshot : option StoredSnapshotRecord;
  shared_epoch : N;
  last_persisted_applied : N
}.
Arguments mkStateMachine {_ _} _ _ _ _ _ _.
Arguments machine_group {_ _} _.
Arguments data_store {_ _} _.
Arguments memory {_ _} _.
Arguments current_snapshot {_ _} _.
Arguments shared_epoch {_ _} _.
Arguments last_persisted_applied {_ _} _.

Definition applied_index `{Openraft} (p : PersistedStateMachine) : N := default 0%N (log_index <$> last_applied_log p).

Section Machine.
Context `{Openraft} `{Blake3} `{Hex} `{Json Node} `{Json CursorRecord} `{!NamespaceJson} {S : Type} `{!ConsensusDataBackend S}.
Context `{Json PersistedStateMachine} `{Json StoredMembership} `{Json StoredSnapshotRecord} `{Json SnapshotPointer}.
#[local] Existing Instance AllowAllAuthorizer.

(** [NamespaceRsmAdapter::apply]: a state that the command did not reach stays. *)
Definition adapter_apply (c : CommandEnvelope) (st : NamespaceState) (s : Buffered S)
    : result NamespaceError ApplyResult * NamespaceState * Buffered S :=
  match with_authorizer s st NamespaceLimits_default MerkleLimits_default with
  | Err e => (Err e, st, s)
  | Ok machine =>
      match apply c machine with
      | (Ok r, machine) => (Ok r, state machine, store machine)
      | (Err e, machine) => (Err e, st, store machine)
      end
  end.

(** The commands of one entry: the responses and the intents. *)
Fixpoint apply_commands (index : N) (now : Z) (cs : list CommandEnvelope) (st : NamespaceState) (s : Buffered S)
    : list ConsensusResponse * list PublicationIntentRecord * NamespaceState * Buffered S :=
  match cs with
  | [] => ([], [], st, s)
  | c :: cs =>
      let '(r, st, s) := adapter_apply c st s in
      let '(response, intents) :=
        match r with
        | Ok result => (mkConsensusResponse (Some result) None None,
                        (λ i, committed_publication_intent (namespace_id st) index (request_id c) i now) <$> pin_intents result)
        | Err e => (application_error e, [])
        end in
      let '(responses, more, st, s) := apply_commands index now cs st s in
      (response :: responses, intents ++ more, st, s)
  end.

(** What the loop over the entries collects. *)
Record Progress := mkProgress {
  next : PersistedStateMachine;
  responses : list (list ConsensusResponse);
  publication_intents : list PublicationIntentRecord;
  resolved_log_indexes : list N;
  membership_changed : bool
}.

Definition apply_entry (now : Z) (g : Progress) (entry : Entry) : stm S StorageError Progress := λ s,
  let id := entry_log_id entry in
  let p := next g in
  match entry_payload entry with
  | Blank =>
      (Ok (mkProgress (mkPersisted (Some id) (membership_epoch p) (membership p) (namespace_state p))
             (responses g ++ [[]]) (publication_intents g) (resolved_log_indexes g) (membership_changed g)), s)
  | MembershipChange m =>
      (Ok (mkProgress (mkPersisted (Some id) (saturating_add u64_max (membership_epoch p) 1) (mkStoredMembership (Some id) m) (namespace_state p))
             (responses g ++ [[]]) (publication_intents g) (resolved_log_indexes g) true), s)
  | Normal commands =>
      let '(rs, intents, st, b) := apply_commands (log_index id) now commands (namespace_state p) (Buffered_new s) in
      let '(flushed, b) := flush b in
      (_ ← map_err (ApplyFailed id) flushed;
       Ok (mkProgress (mkPersisted (Some id) (membership_epoch p) (membership p) st)
             (responses g ++ [rs]) (publication_intents g ++ intents) (resolved_log_indexes g ++ [log_index id]) (membership_changed g)), base b)
  end.

Fixpoint apply_entries (now : Z) (g : Progress) (entries : list Entry) : stm S StorageError Progress :=
  match entries with
  | [] => mret g
  | e :: entries => g ← apply_entry now g e; apply_entries now g entries
  end.

(** The store and the tables. *)
Definition Host : Type := StateMachineStore S * ConsensusTables.

(** [persist_state_sync] *)
Definition persist_state_sync (p : PersistedStateMachine) : stm Host ConsensusError unit := λ '(m, t),
  match to_vec p, to_vec (membership p) with
  | Ok state_bytes, Ok membership_bytes =>
      (Ok (), (mkStateMachine (machine_group m) (data_store m) (memory m) (current_snapshot m) (shared_epoch m) (applied_index p),
               set_state (<[machine_group m := state_bytes]> (state_table t)) (<[machine_group m := membership_bytes]> (raft_membership t)) t))
  | Err e, _ | _, Err e => (Err (SerdeFailed e), (m, t))
  end.

Definition resolved (i : PublicationIntentRecord) : PublicationIntentRecord :=
  mkIntent (intent_id i) (intent_namespace i) (intent_log_index i) (intent_request i) (intent_cid i) (intent_action i) (intent_reason i)
    "resolved" (intent_created_at i).

(** The loop over the resolved entries: their proposals leave the live table. *)
Definition resolve_proposals (group : string) (live_retired : gmap string PublicationIntentRecord * gmap string PublicationIntentRecord) (index : N)
    : gmap string PublicationIntentRecord * gmap string PublicationIntentRecord :=
  foldl (λ '(live, retired) ki, (delete ki.1 live, <[ki.1 := resolved ki.2]> retired)) live_retired
    (rows_with (group +:+ "|" +:+ fmt_padded 16 16 index +:+ "|proposal|") live_retired.1).

Definition persist_intents_sync (group : string) (intents : list PublicationIntentRecord) (indexes : list N) (t : ConsensusTables)
    : ConsensusTables :=
  let '(live, retired) := foldl (resolve_proposals group) (live_intents t, retired_intents t) indexes in
  set_group_intents (foldl (λ live i, <[intent_id i := i]> live) live intents) retired t.

(** [RaftStateMachine::apply] *)
Definition apply_log (now : Z) (entries : list Entry) : stm Host StorageError (list (list ConsensusResponse)) := λ '(m, t),
  let with_blocks s := mkStateMachine (machine_group m) s (memory m) (current_snapshot m) (shared_epoch m) (last_persisted_applied m) in
  match apply_entries now (mkProgress (memory m) [] [] [] false) entries (data_store m) with
  | (Err e, s) => (Err e, (with_blocks s, t))
  | (Ok g, s) =>
      let t := persist_intents_sync (machine_group m) (publication_intents g) (resolved_log_indexes g) t in
      let due := membership_changed g
                 || (STATE_PERSIST_CADENCE_ENTRIES <=? saturating_sub (applied_index (next g)) (last_persisted_applied m))%N in
      let '(persisted, (m, t)) := if due then persist_state_sync (next g) (with_blocks s, t) else (Ok (), (with_blocks s, t)) in
      match persisted with
      | Err e => (Err (WriteState (ConsensusError_to_string e)), (m, t))
      | Ok _ => (Ok (responses g),
                 (mkStateMachine (machine_group m) (data_store m) (next g) (current_snapshot m) (membership_epoch (next g)) (last_persisted_applied m), t))
      end
  end.

(** [read_json_table] *)
Definition read_json_table {A} `{Json A} (table : gmap string bytes) (key : string) : result ConsensusError (option A) :=
  match table !! key with
  | None => Ok None
  | Some bytes => value ← map_err SerdeFailed (from_slice bytes); Ok (Some value)
  end.

(** [RedbStateMachineStore::open], on the tables of a start or a restart. *)
Definition open (group : string) (s : S) (initial : NamespaceState) (t : ConsensusTables) : result ConsensusError Host :=
  stored ← read_json_table (A := PersistedStateMachine) (state_table t) group;
  let p := default (mkPersisted None INITIAL_MEMBERSHIP_EPOCH (mkStoredMembership None default_membership) initial) stored in
  snapshot ← read_json_table (A := StoredSnapshotRecord) (checkpoint_table t) group;
  let m := mkStateMachine group s p snapshot (membership_epoch p) (applied_index p) in
  let '(r, host) := persist_state_sync p (m, t) in
  _ ← r;
  Ok host.

(** *** Snapshots *)

(** Strings in their order, without repetitions. *)
Definition string_le (a b : string) : Prop := bytes_leb (as_bytes a) (as_bytes b) = true.
#[local] Instance string_le_dec : RelDecision string_le.
Proof. intros a b. unfold string_le. apply _. Defined.

Definition snapshot_replica_node_ids (p : PersistedStateMachine) : list string :=
  let m := stored_membership (membership p) in
  let identities := (filter (λ n, n.1 ∈ voter_ids m) (member_nodes m)).*2 in
  let identities := if bool_decide (identities = []) then initial_replica_set (descriptor (namespace_state p)) else identities in
  dedup (merge_sort string_le identities).

(** The intents of a new checkpoint: it is protected, and the one before released. *)
Definition checkpoint_intents (group : string) (ns : NamespaceId) (snapshot : StoredSnapshotRecord) (previous : option StoredSnapshotRecord) (now : Z)
    : list PublicationIntentRecord :=
  let index := default 0%N (log_index <$> last_log_id (snapshot_meta snapshot)) in
  let request := "checkpoint-" +:+ snapshot_id (snapshot_meta snapshot) in
  let named kind c a := mkIntent (group +:+ "|" +:+ fmt_padded 16 16 index +:+ kind +:+ Cid_to_string c)
                          ns index request c a "namespace_checkpoint" "pending" now in
  let c := pointer_checkpoint (snapshot_pointer snapshot) in
  named "|checkpoint|" c Protect ::
  match previous with
  | Some previous =>
      let old := pointer_checkpoint (snapshot_pointer previous) in
      if bool_decide (old = c) then [] else [named "|checkpoint-release|" old Release]
  | None => []
  end.

Definition insert_intents (intents : list PublicationIntentRecord) (t : ConsensusTables) : ConsensusTables :=
  set_group_intents (foldl (λ live i, <[intent_id i := i]> live) (live_intents t) intents) (retired_intents t) t.

Definition persist_snapshot_sync (group : string) (snapshot : StoredSnapshotRecord) (previous : option StoredSnapshotRecord) (now : Z)
    (t : ConsensusTables) : result ConsensusError ConsensusTables :=
  bytes ← map_err SerdeFailed (to_vec snapshot);
  ns ← map_err MetadataFailed (parse_namespace_id group);
  Ok (insert_intents (checkpoint_intents group ns snapshot previous now) (set_checkpoints (<[group := bytes]> (checkpoint_table t)) t)).

Definition persist_installed_snapshot_sync (group : string) (p : PersistedStateMachine) (snapshot : StoredSnapshotRecord)
    (previous : option StoredSnapshotRecord) (now : Z) (t : ConsensusTables) : result ConsensusError ConsensusTables :=
  state_bytes ← map_err SerdeFailed (to_vec p);
  membership_bytes ← map_err SerdeFailed (to_vec (membership p));
  snapshot_bytes ← map_err SerdeFailed (to_vec snapshot);
  let t := set_state (<[group := state_bytes]> (state_table t)) (<[group := membership_bytes]> (raft_membership t)) t in
  let t := set_checkpoints (<[group := snapshot_bytes]> (checkpoint_table t)) t in
  Ok (insert_intents (checkpoint_intents group (namespace_id (namespace_state p)) snapshot previous now) t).

(** [hydrate_merkle_tree]: reads the tree of a root from the replicas. *)
Variable hydrate : Cid → list string → stm S string unit.

(** A step on the blocks of the store. *)
Definition on_blocks {A} (wrap : string → StorageError) (c : stm S string A) : stm Host StorageError A := λ '(m, t),
  let '(r, s) := c (data_store m) in
  (map_err wrap r, (mkStateMachine (machine_group m) s (memory m) (current_snapshot m) (shared_epoch m) (last_persisted_applied m), t)).

(** A namespace operation on the blocks, its error as text. *)
Definition textual {A} (c : stm S NamespaceError A) : stm S string A := λ s,
  let '(r, s) := c s in (map_err NamespaceError_to_string r, s).

(** A write of the tables. *)
Definition on_tables (wrap : string → StorageError) (f : StateMachineStore S → ConsensusTables → result ConsensusError ConsensusTables)
    : stm Host StorageError unit := λ '(m, t),
  match f m t with Ok t => (Ok (), (m, t)) | Err e => (Err (wrap (ConsensusError_to_string e)), (m, t)) end.

Definition keep_snapshot (r : StoredSnapshotRecord) : stm Host StorageError unit := modify (λ '(m, t),
  (mkStateMachine (machine_group m) (data_store m) (memory m) (Some r) (shared_epoch m) (last_persisted_applied m), t)).

(** [build_snapshot] *)
Definition build_snapshot (now : Z) : stm Host StorageError (SnapshotMeta * bytes) :=
  p ← reads (λ h, Ok (memory h.1));
  _ ← (λ h, let '(r, h) := persist_state_sync p h in (map_err (λ e, WriteSnapshot (ConsensusError_to_string e)) r, h));
  let replicas := snapshot_replica_node_ids p in
  let st := namespace_state p in
  _ ← on_blocks WriteSnapshot (hydrate (current_root_cid st) replicas);
  let timestamp := match history st !! current_revision st with Some r => committed_at_unix_seconds r | None => 0%Z end in
  c ← on_blocks WriteSnapshot (textual (write_checkpoint st timestamp));
  let pointer := mkPointer c (membership_epoch p) replicas in
  data ← lift (map_err WriteSnapshot (to_vec pointer));
  let meta := mkMeta (last_applied_log p) (membership p)
                (match last_applied_log p with Some id => log_id_to_string id | None => "none" end +:+ "-" +:+ Cid_to_string c) in
  let record := mkSnapshotRecord meta pointer in
  _ ← on_tables WriteSnapshot (λ m t, persist_snapshot_sync (machine_group m) record (current_snapshot m) now t);
  _ ← keep_snapshot record;
  mret (meta, data).

(** [install_snapshot] *)
Definition install_snapshot (meta : SnapshotMeta) (data : bytes) (now : Z) : stm Host StorageError unit :=
  _ ← lift (fail_if (1024 <? len data)%N (ReadSnapshot "snapshot pointer exceeds 1024 bytes"));
  pointer ← lift (map_err ReadSnapshot (from_slice (A := SnapshotPointer) data));
  let count := len (replica_node_ids pointer) in
  let distinct : gset string := list_to_set (replica_node_ids pointer) in
  _ ← lift (fail_if (negb ((count =? 1)%N || ((3 <=? count) && (count <=? 6))%N) || negb (N.of_nat (size distinct) =? count)%N)
              (ReadSnapshot "snapshot must identify one demo replica or three to six production replicas"));
  _ ← on_blocks ReadSnapshot (get_from_replicas (pointer_checkpoint pointer) (replica_node_ids pointer));
  st ← on_blocks ReadSnapshot (textual (reads (λ s, load_checkpoint s (pointer_checkpoint pointer) NamespaceLimits_default)));
  _ ← on_blocks ReadSnapshot (hydrate (current_root_cid st) (replica_node_ids pointer));
  let p := mkPersisted (last_log_id meta) (pointer_epoch pointer) (last_membership meta) st in
  let record := mkSnapshotRecord meta pointer in
  _ ← on_tables WriteSnapshot (λ m t, persist_installed_snapshot_sync (machine_group m) p record (current_snapshot m) now t);
  modify (λ '(m, t), (mkStateMachine (machine_group m) (data_store m) p (Some record) (membership_epoch p) (applied_index p), t)).

(** [get_current_snapshot] *)
Definition get_current_snapshot (m : StateMachineStore S) : result StorageError (option (SnapshotMeta * bytes)) :=
  match current_snapshot m with
  | None => Ok None
  | Some r => data ← map_err ReadSnapshot (to_vec (snapshot_pointer r)); Ok (Some (snapshot_meta r, data))
  end.
End Machine.
