(* ===== verification/ConsensusLog.v ===== *)
(** * The log of a group is an array of entries

    The keys of the log table order entries by their index ([log_key_order]), so a bounded
    scan reads a range of the log ([read_logs_spec]).  Appending, truncating and purging
    act on the log as on a map from indexes to entries and leave the logs of other groups
    alone. *)
From stdpp Require Import base gmap sets list strings sorting.
From Stdlib Require Import Strings.Byte Strings.Ascii.
From S2P Require Import Prelude Tables Types Merkle Namespace Pins Consensus.

(** ** Padded numbers keep their order *)

Definition digit_byte (d : N) : byte := byte_of_ascii (digit_char d).

Lemma digit_byte_order a b : (a < 16)%N → (b < 16)%N → (Byte.to_N (digit_byte a) < Byte.to_N (digit_byte b))%N ↔ (a < b)%N.
Proof.
  intros Ha Hb. rewrite <-N.ltb_lt, <-(N.ltb_lt a b).
  assert (∀ i j, (i < 16)%nat → (j < 16)%nat →
    (Byte.to_N (digit_byte (N.of_nat i)) <? Byte.to_N (digit_byte (N.of_nat j)))%N = (N.of_nat i <? N.of_nat j)%N) as Hall.
  { intros i j Hi Hj. do 16 (destruct i as [|i]; [do 16 (destruct j as [|j]; [reflexivity|]); lia|]). lia. }
  specialize (Hall (N.to_nat a) (N.to_nat b)). rewrite !N2Nat.id in Hall. rewrite Hall by lia. done.
Qed.

Lemma bytes_lt_snoc a b x y :
  length a = length b → bytes_lt (a ++ [x]) (b ++ [y]) ↔ bytes_lt a b ∨ a = b ∧ (Byte.to_N x < Byte.to_N y)%N.
Proof.
  unfold bytes_lt. revert b. induction a as [|c a IH]; intros [|d b] Hl; [|done..|].
  - cbn. destruct (N.ltb_spec (Byte.to_N x) (Byte.to_N y)); [naive_solver|]. destruct (_ =? _)%N; naive_solver lia.
  - cbn [app]. rewrite !bytes_ltb_cons, IH by (cbn in Hl; lia). naive_solver.
Qed.
Section Padded.
Variable base : N.
Hypothesis base_ok : (2 ≤ base ≤ 16)%N.

(** The last digit of a padded number is its remainder. *)
Lemma padded_snoc w n :
  as_bytes (fmt_padded base (S (S w)) n) = as_bytes (fmt_padded base (S w) (n / base)) ++ [digit_byte (n mod base)].
Proof.
  pose proof (N.mod_lt n base ltac:(lia)) as Hmod. unfold fmt_padded. rewrite !as_bytes_app.
  destruct (decide (n / base = 0)%N) as [H0|Hne].
  - assert (fmt_radix base n = String (digit_char (n mod base)) "") as ->.
    { unfold fmt_radix. cbn [fmt_go]. by rewrite (proj2 (N.eqb_eq _ _) H0). }
    rewrite H0. change (as_bytes (fmt_radix base 0)) with (as_bytes (String (digit_char (0 mod base)) "")).
    rewrite N.Div0.mod_0_l. change (as_bytes (String (digit_char 0) "")) with [digit_byte 0].
    change (as_bytes (String (digit_char (n mod base)) "")) with [digit_byte (n mod base)]. f_equal. cbn [length].
    replace (S (S w) - 1) with (S w) by lia. replace (S w - 1) with w by lia.
    induction w as [|w IH]; [done|]. change (as_bytes (zeros (S (S w)))) with (digit_byte 0 :: as_bytes (zeros (S w))). by rewrite IH at 1.
  - assert (fmt_radix base n = fmt_radix base (n / base) +:+ String (digit_char (n mod base)) "") as ->.
    { rewrite <-fmt_radix_snoc by lia. f_equal. rewrite (N.mul_comm _ base). apply N.div_mod. lia. }
    rewrite as_bytes_app, length_app, app_assoc. change (as_bytes (String (digit_char (n mod base)) "")) with [digit_byte (n mod base)].
    cbn [length]. do 3 f_equal. f_equal. lia.
Qed.

Lemma padded_lt w n m :
  (n < base ^ N.of_nat (S w))%N → (m < base ^ N.of_nat (S w))%N →
  bytes_lt (as_bytes (fmt_padded base (S w) n)) (as_bytes (fmt_padded base (S w) m)) ↔ (n < m)%N.
Proof.
  revert n m. induction w as [|w IH]; intros n m Hn Hm.
  - rewrite N.pow_1_r in Hn, Hm. assert (∀ k, (k < base)%N → as_bytes (fmt_padded base 1 k) = [digit_byte k]) as Hone.
    { intros k Hk. unfold fmt_padded, fmt_radix. cbn [fmt_go]. rewrite (N.div_small k), N.mod_small by lia. done. }
    rewrite !Hone by done. change [digit_byte n] with ([] ++ [digit_byte n]). change [digit_byte m] with ([] ++ [digit_byte m]).
    rewrite bytes_lt_snoc by done. rewrite digit_byte_order by lia. split; [by intros [?|[_ ?]]|by right].
  - rewrite !padded_snoc.
    assert (∀ k, (k < base ^ N.of_nat (S (S w)))%N → (k / base < base ^ N.of_nat (S w))%N) as Hdiv.
    { intros k Hk. apply N.Div0.div_lt_upper_bound. by rewrite Nat2N.inj_succ, N.pow_succ_r' in Hk. }
    rewrite bytes_lt_snoc by (rewrite !fmt_padded_length; [done|lia|done|by apply Hdiv|lia|done|by apply Hdiv]).
    pose proof (N.mod_lt n base ltac:(lia)). pose proof (N.mod_lt m base ltac:(lia)).
    rewrite IH by (by apply Hdiv). rewrite digit_byte_order by lia.
    assert (as_bytes (fmt_padded base (S w) (n / base)) = as_bytes (fmt_padded base (S w) (m / base)) ↔ (n / base = m / base)%N) as ->.
    { split; [|by intros ->]. intros Heq. destruct (N.lt_trichotomy (n / base) (m / base)) as [Hlt|[?|Hlt]]; [|done|].
      - apply (IH (n / base) (m / base))%N in Hlt; [|by apply Hdiv..]. rewrite Heq in Hlt. by apply bytes_lt_irrefl in Hlt.
      - apply (IH (m / base) (n / base))%N in Hlt; [|by apply Hdiv..]. rewrite Heq in Hlt. by apply bytes_lt_irrefl in Hlt. }
    pose proof (N.div_mod n base ltac:(lia)) as En. pose proof (N.div_mod m base ltac:(lia)) as Em.
    clear -base_ok En Em H H0. revert H H0 En Em. generalize (n / base)%N (m / base)%N (n mod base)%N (m mod base)%N.
    intros q q' r r' Hr Hr' -> ->. split; [intros [Hlt|[-> Hlt]]; nia|]. intros Hlt.
    destruct (N.lt_trichotomy q q') as [?|[->|Hgt]]; [by left|right; split; [done|lia]|nia].
Qed.
End Padded.

(** ** Keys *)

Lemma u64_digits i : (i ≤ u64_max)%N → (i < 10 ^ N.of_nat 20)%N.
Proof. intros Hi. apply (N.le_lt_trans _ u64_max); [done|]. vm_compute. reflexivity. Qed.

(** Keys sort as indexes do. *)
Lemma log_key_order group i j :
  (i ≤ u64_max)%N → (j ≤ u64_max)%N → bytes_leb (as_bytes (log_key group i)) (as_bytes (log_key group j)) = true ↔ (i ≤ j)%N.
Proof.
  intros Hi%u64_digits Hj%u64_digits. unfold log_key, bytes_leb. rewrite !as_bytes_app, negb_true_iff, <-not_true_iff_false.
  pose proof (bytes_lt_app_l (as_bytes (log_prefix group)) (as_bytes (fmt_padded 10 20 j)) (as_bytes (fmt_padded 10 20 i))) as Happ.
  unfold bytes_lt in Happ at 1. rewrite Happ, (padded_lt 10 ltac:(lia) 19) by done. lia.
Qed.

Lemma log_key_inj group i j : (i ≤ u64_max)%N → (j ≤ u64_max)%N → log_key group i = log_key group j → i = j.
Proof.
  intros Hi Hj Heq. pose proof (proj1 (log_key_order group i j Hi Hj)) as Hij. pose proof (proj1 (log_key_order group j i Hj Hi)) as Hji.
  rewrite Heq in Hij, Hji. unfold bytes_leb in *. rewrite bytes_ltb_irrefl in *. specialize (Hij eq_refl). specialize (Hji eq_refl). lia.
Qed.

Lemma padded_digits w n : string_forallb (λ c, negb (bool_decide (c = "+"%char))) (fmt_padded 10 w n) = true.
Proof.
  unfold fmt_padded. assert (∀ k s, string_forallb (λ c, negb (bool_decide (c = "+"%char))) s = true →
    string_forallb (λ c, negb (bool_decide (c = "+"%char))) (zeros k +:+ s) = true) as Hz.
  { induction k as [|k IH]; intros s Hs; [done|]. by apply IH. }
  apply Hz, fmt_go_forallb; [lia| |done]. intros d Hd. apply digit_char_props in Hd as (_ & Hd & _). by rewrite bool_decide_eq_false_2.
Qed.

Lemma key_index_log_key group i : (i ≤ u64_max)%N → key_index group (log_key group i) = Some i.
Proof.
  intros Hi. unfold key_index, log_key. rewrite strip_prefix_app. cbn [mbind option_bind].
  pose proof (parse_padded 10 u64_max 20 i ltac:(lia) Hi) as Hp. pose proof (padded_digits 20 i) as Hd.
  pose proof (fmt_padded_length 10 20 i ltac:(lia) ltac:(done) (u64_digits i Hi)) as Hl.
  destruct (fmt_padded 10 20 i) as [|c rest]; [done|]. cbn [string_forallb] in Hd. apply andb_true_iff in Hd as [Hc _].
  apply negb_true_iff, bool_decide_eq_false in Hc. unfold from_str_radix.
  destruct rest; rewrite decide_False by done; by rewrite Hp.
Qed.

Lemma key_index_prefix group k i : key_index group k = Some i → has_prefix (log_prefix group) k.
Proof. unfold key_index. intros (r & Hr & _)%bind_Some. apply strip_prefix_Some in Hr. by exists r. Qed.

(** ** The log as a map *)
Section Log.
Context `{Openraft} `{Blake3} `{Hex} `{Json Entry} `{!JsonLaws Entry} `{Json Vote} `{!JsonLaws Vote} `{Json LogId} `{!JsonLaws LogId} `{Json (option LogId)}.
Implicit Types (group : string) (t : ConsensusTables) (L : gmap N Entry).

Definition entry_at (e : Entry) : N := log_index (entry_log_id e).

(** The table holds the entries of the map under their keys, and below the prefix of
    the group nothing else. *)
Record log_is group t L : Prop := {
  log_lookup i : (i ≤ u64_max)%N → raft_log t !! log_key group i = None ∧ L !! i = None ∨
    ∃ b e, raft_log t !! log_key group i = Some b ∧ L !! i = Some e ∧ from_slice b = Ok e;
  log_only k : is_Some (raft_log t !! k) → has_prefix (log_prefix group) k → ∃ i, (i ≤ u64_max)%N ∧ k = log_key group i;
  log_index_of i e : L !! i = Some e → entry_at e = i ∧ (i ≤ u64_max)%N
}.

Definition in_range group (range : LogRange) (row : string * bytes) : bool :=
  match key_index group row.1 with Some i => range_contains range i | None => false end.

Lemma read_entries_take group range rows :
  Forall (λ row, ∃ e : Entry, from_slice row.2 = Ok e) (take_while (in_range group range) rows) →
  ∃ es, read_entries group range rows = Ok es ∧ Forall2 (λ row e, from_slice row.2 = Ok e) (take_while (in_range group range) rows) es.
Proof.
  induction rows as [|[k b] rows IH]; intros Hall; cbn [read_entries take_while] in *; [by exists []|].
  unfold in_range at 1. cbn [fst]. unfold in_range at 1 in Hall. cbn [fst] in Hall.
  destruct (key_index group k) as [i|]; [|by exists []]. destruct (range_contains range i); [|by exists []].
  apply Forall_cons in Hall as [(e & He) Hall]. destruct (IH Hall) as (es & -> & Hes). cbn in He. exists (e :: es). rewrite He. cbn.
  split; [done|]. by constructor.
Qed.

(** Where a scan of a range starts. *)
Definition lowest (range : LogRange) : N :=
  match start_bound range with Included i => i | Excluded i => saturating_add u64_max i 1 | Unbounded => 0%N end.

Lemma range_lowest range i : (i ≤ u64_max)%N → range_contains range i = true → (lowest range ≤ i)%N.
Proof.
  unfold range_contains, lowest. intros Hi [Hs _]%andb_true_iff. destruct (start_bound range) as [n|n|]; [by apply N.leb_le|apply N.ltb_lt in Hs|lia].
  unfold saturating_add. lia.
Qed.

Lemma range_convex range i j : (lowest range ≤ i)%N → (i ≤ j)%N → (j ≤ u64_max)%N → range_contains range j = true → range_contains range i = true.
Proof.
  unfold range_contains, lowest. rewrite !andb_true_iff. intros Hl Hij Hj [Hs He]. split.
  - destruct (start_bound range) as [n|n|]; [by apply N.leb_le| |done]. apply N.ltb_lt in Hs. apply N.ltb_lt. unfold saturating_add in Hl. lia.
  - destruct (end_bound range) as [n|n|]; [apply N.leb_le in He; apply N.leb_le; lia|apply N.ltb_lt in He; apply N.ltb_lt; lia|done].
Qed.

(** The rows that a scan reads. *)
Lemma scanned_rows group range t L k b :
  log_is group t L → (lowest range ≤ u64_max)%N →
  (k, b) ∈ take_while (in_range group range) (range_from (log_key group (lowest range)) (raft_log t)) ↔
  ∃ i, (i ≤ u64_max)%N ∧ k = log_key group i ∧ raft_log t !! k = Some b ∧ range_contains range i = true.
Proof.
  intros HL Hlow. assert (∀ y c i, (y, c) ∈ range_from (log_key group (lowest range)) (raft_log t) → key_index group y = Some i →
    raft_log t !! y = Some c ∧ (i ≤ u64_max)%N ∧ y = log_key group i ∧ (lowest range ≤ i)%N) as Hrow.
  { intros y c i [Hy Hle]%range_from_elem Hki. destruct (log_only _ _ _ HL y) as (j & Hj & ->); [by rewrite Hy|by eapply key_index_prefix|].
    rewrite key_index_log_key in Hki by done. injection Hki as ->. split_and!; [done..|]. by eapply log_key_order. }
  rewrite (take_while_sorted btree_le); [|apply range_from_sorted|].
  - unfold in_range. cbn [fst]. split.
    + intros [Hk Hin]. destruct (key_index group k) as [i|] eqn:Hki; [|done]. destruct (Hrow _ _ _ Hk Hki) as (? & ? & ? & _). by exists i.
    + intros (i & Hi & -> & Hk & Hin). rewrite key_index_log_key by done. split; [|done]. apply range_from_elem. split; [done|].
      apply log_key_order; [done|done|]. by apply range_lowest.
  - intros [y a] [z c] Hy Hz Hyz. unfold btree_le, in_range in *. cbn [fst] in *.
    destruct (key_index group z) as [j|] eqn:Hkj; [|done]. destruct (Hrow _ _ _ Hz Hkj) as (_ & Hj & -> & _). intros Hin.
    apply range_from_elem in Hy as Hy'. destruct Hy' as [Hya Hle].
    destruct (log_only _ _ _ HL y) as (i & Hi & ->); [by rewrite Hya| |].
    { eapply (prefix_between _ (log_key group (lowest range)) _ (log_key group j)); [by eexists|by eexists|done|done]. }
    rewrite key_index_log_key by done. apply (range_convex range i j); [by eapply log_key_order|by eapply log_key_order|done|done].
Qed.

(** The rows of a scan have increasing indexes. *)
Lemma rows_increase group (rows : list (string * bytes)) (es : list Entry) :
  StronglySorted btree_le rows → NoDup rows.*1 →
  Forall2 (λ row e, ∃ i, (i ≤ u64_max)%N ∧ row.1 = log_key group i ∧ entry_at e = i) rows es → StronglySorted N.lt (entry_at <$> es).
Proof.
  intros Hs Hnd Hall. induction Hall as [|row e rows es (i & Hi & Hk & He) Hall IH]; [constructor|]. cbn in *.
  apply StronglySorted_inv in Hs as [Hs Hle]. apply NoDup_cons in Hnd as [Hnot Hnd]. constructor; [by apply IH|].
  apply Forall_fmap, Forall_forall. intros e' He'. apply list_elem_of_lookup in He' as (n & Hn).
  destruct (Forall2_lookup_r _ _ _ _ _ Hall Hn) as (row' & Hrow' & j & Hj & Hk' & He''). cbn. rewrite He, He''.
  rewrite Forall_forall in Hle. specialize (Hle row' (list_elem_of_lookup_2 _ _ _ Hrow')). unfold btree_le in Hle. rewrite Hk, Hk' in Hle.
  apply log_key_order in Hle; [|done|done]. destruct (decide (i = j)) as [->|]; [|lia]. destruct Hnot.
  rewrite Hk, <-Hk'. by eapply list_elem_of_fmap_2, list_elem_of_lookup_2.
Qed.

(** Reading a range of the log. *)
Lemma read_logs_spec group range t L :
  log_is group t L → (lowest range ≤ u64_max)%N →
  ∃ es, read_logs group range t = Ok es ∧ StronglySorted N.lt (entry_at <$> es) ∧
    ∀ e, e ∈ es ↔ ∃ i, L !! i = Some e ∧ range_contains range i = true.
Proof.
  intros HL Hlow. unfold read_logs. fold (lowest range). set (rows := range_from _ _).
  pose proof (scanned_rows group range t L) as Hrows. fold rows in Hrows.
  assert (∀ k b, (k, b) ∈ take_while (in_range group range) rows →
    ∃ i e, (i ≤ u64_max)%N ∧ k = log_key group i ∧ from_slice b = Ok e ∧ L !! i = Some e ∧ range_contains range i = true) as Hrow.
  { intros k b (i & Hi & -> & Hb & Hin)%Hrows; [|done|done]. destruct (log_lookup _ _ _ HL i Hi) as [[Hn _]|(b' & e & Hb' & He & Hfrom)]; [congruence|].
    rewrite Hb in Hb'. injection Hb' as <-. by exists i, e. }
  destruct (read_entries_take group range rows) as (es & -> & Hes).
  { apply Forall_forall. intros [k b] Hk. destruct (Hrow _ _ Hk) as (i & e & _ & _ & He & _). by exists e. }
  assert (Forall2 (λ row e, ∃ i, (i ≤ u64_max)%N ∧ row.1 = log_key group i ∧ entry_at e = i ∧ L !! i = Some e ∧ range_contains range i = true)
    (take_while (in_range group range) rows) es) as Hall.
  { apply Forall2_same_length_lookup. split; [by eapply Forall2_length|]. intros n [k b] e Hn He.
    destruct (Hrow k b) as (i & e' & Hi & -> & Hb & Hle & Hin); [by eapply list_elem_of_lookup_2|].
    pose proof (Forall2_lookup_lr _ _ _ _ _ _ Hes Hn He) as Hb'. cbn in Hb'. rewrite Hb in Hb'. injection Hb' as <-.
    exists i. split_and!; [done|done| |done|done]. by eapply log_index_of. }
  exists es. split_and!; [done| |].
  - eapply (rows_increase group); [| |eapply Forall2_impl; [exact Hall|naive_solver]].
    + eapply StronglySorted_sublist; [apply take_while_sublist|apply range_from_sorted].
    + eapply sublist_NoDup; [apply (range_from_keys (log_key group (lowest range)) (raft_log t))|]. apply fmap_sublist, take_while_sublist.
  - intros e. split.
    + intros (n & Hn)%list_elem_of_lookup. destruct (Forall2_lookup_r _ _ _ _ _ Hall Hn) as (row & _ & i & _ & _ & _ & He & Hin). eauto.
    + intros (i & He & Hin). destruct (log_index_of _ _ _ HL i e He) as [_ Hi].
      destruct (log_lookup _ _ _ HL i Hi) as [[_ Hn]|(b & e' & Hb & He' & Hfrom)]; [congruence|]. rewrite He in He'. injection He' as <-.
      assert ((log_key group i, b) ∈ take_while (in_range group range) rows) as Hk by (apply Hrows; [done|done|by exists i]).
      apply list_elem_of_lookup in Hk as (n & Hn). destruct (Forall2_lookup_l _ _ _ _ _ Hes Hn) as (e' & He' & Hb'). cbn in Hb'.
      rewrite Hfrom in Hb'. injection Hb' as <-. by eapply list_elem_of_lookup_2.
Qed.

(** ** Writes *)

Lemma encode_entries_Forall2 entries encoded :
  encode_entries entries = Ok encoded → Forall2 (λ (e : Entry) b, from_slice b = Ok e) entries encoded.
Proof.
  revert encoded. induction entries as [|e entries IH]; intros encoded He; cbn in He; [injection He as <-; constructor|].
  apply bind_Ok in He as (b & Hb & He). apply bind_Ok in He as (bs & Hbs & [= <-]). constructor; [|by apply IH].
  destruct (to_vec e) as [b'|] eqn:Hv; [|done]. injection Hb as <-. by apply from_slice_to_vec.
Qed.

(** Appending, entry by entry. *)
Lemma insert_log group t L e b :
  log_is group t L → from_slice b = Ok e → (entry_at e ≤ u64_max)%N →
  log_is group (set_log (<[log_key group (entry_at e) := b]> (raft_log t)) t) (<[entry_at e := e]> L).
Proof.
  intros HL Hb He. split; cbn.
  - intros i Hi. destruct (decide (i = entry_at e)) as [->|Hne].
    + right. exists b, e. by rewrite !lookup_insert_eq.
    + rewrite (lookup_insert_ne L) by done. rewrite lookup_insert_ne; [by apply (log_lookup _ _ _ HL)|].
      intros Heq. apply Hne. symmetry. by eapply log_key_inj.
  - intros k Hk Hp. destruct (decide (k = log_key group (entry_at e))) as [->|Hne]; [eauto|].
    rewrite lookup_insert_ne in Hk by done. by apply (log_only _ _ _ HL).
  - intros i e' [[<- <-]|[_ He']]%lookup_insert_Some; [done|]. by apply (log_index_of _ _ _ HL).
Qed.

Definition appended L (entries : list Entry) : gmap N Entry := foldl (λ L e, <[entry_at e := e]> L) L entries.

Lemma insert_logs group entries : ∀ encoded t L,
  log_is group t L → Forall2 (λ (e : Entry) b, from_slice b = Ok e) entries encoded → Forall (λ e, entry_at e ≤ u64_max)%N entries →
  log_is group (set_log (foldl (λ log eb, <[log_key group (log_index (entry_log_id eb.1)) := eb.2]> log) (raft_log t) (zip entries encoded)) t)
    (appended L entries).
Proof.
  induction entries as [|e entries IH]; intros encoded t L HL Hall Hi; inversion Hall as [|? b ? encoded' Hb Hall']; subst; cbn [zip_with foldl appended].
  { by destruct t. }
  apply Forall_cons in Hi as [Hi His]. specialize (IH encoded' _ _ (insert_log _ _ _ _ _ HL Hb Hi) Hall' His). exact IH.
Qed.

(** Tables with the same log. *)
Lemma log_is_ext group t t' L : raft_log t = raft_log t' → log_is group t L → log_is group t' L.
Proof. intros Heq HL. destruct HL as [H1' H2' H3']. split; [by rewrite <-Heq|by rewrite <-Heq|done]. Qed.

Lemma log_bytes_tables l t r l' t' : log_bytes (l, t) = (r, (l', t')) → t' = t ∧ log_group l' = log_group l.
Proof. unfold log_bytes. destruct (negb _); by intros [= _ <- <-]. Qed.

Lemma append_log entries now l t l' t' L :
  append entries now (l, t) = (Ok (), (l', t')) → log_is (log_group l) t L → Forall (λ e, entry_at e ≤ u64_max)%N entries →
  log_is (log_group l) t' (appended L entries).
Proof.
  unfold append. intros Ha HL Hi. destruct (encode_entries entries) as [encoded|e] eqn:He; [|done].
  destruct (log_bytes (l, t)) as [[total|e] [l1 t1]] eqn:Hb; [|done]. apply log_bytes_tables in Hb as [-> Hg].
  destruct (_ <? _)%N; [done|]. injection Ha as _ <-. rewrite Hg.
  eapply log_is_ext, insert_logs; [|exact HL|by apply encode_entries_Forall2|done]. done.
Qed.

(** *** Removing *)

Lemma remove_keys_lookup {A} keys (m : gmap string A) k : remove_keys keys m !! k = if decide (k ∈ keys) then None else m !! k.
Proof.
  unfold remove_keys. revert m. induction keys as [|k' keys IH]; intros m; cbn [foldl]; [by rewrite decide_False by apply not_elem_of_nil|].
  rewrite IH. destruct (decide (k ∈ keys)) as [Hk|Hk]; [by rewrite decide_True by (by right)|].
  destruct (decide (k = k')) as [->|Hne]; [rewrite decide_True by left; apply lookup_delete_eq|].
  rewrite decide_False by (by intros [?|?]%elem_of_cons). by apply lookup_delete_ne.
Qed.

Definition has_index group (row : string * bytes) : bool := bool_decide (is_Some (key_index group row.1)).

Lemma indexed_elem group rows i k :
  (i, k) ∈ indexed group rows ↔ key_index group k = Some i ∧ ∃ b, (k, b) ∈ take_while (has_index group) rows.
Proof.
  induction rows as [|[k' b'] rows IH]; cbn [indexed take_while]; [split; [by intros ?%elem_of_nil|by intros (_ & b & ?%elem_of_nil)]|].
  unfold has_index at 1. cbn [fst]. destruct (key_index group k') as [i'|] eqn:Hk'.
  - rewrite bool_decide_eq_true_2 by eauto. rewrite elem_of_cons, IH. setoid_rewrite elem_of_cons. naive_solver.
  - rewrite bool_decide_eq_false_2 by (by intros [? ?]). split; [by intros ?%elem_of_nil|by intros (_ & b & ?%elem_of_nil)].
Qed.

Lemma removed_keys group range t L k :
  log_is group t L →
  k ∈ (filter (λ ik, range_contains range ik.1 = true) (indexed group (range_from (log_prefix group) (raft_log t)))).*2 ↔
  ∃ i, (i ≤ u64_max)%N ∧ k = log_key group i ∧ is_Some (raft_log t !! k) ∧ range_contains range i = true.
Proof.
  intros HL. rewrite list_elem_of_fmap. setoid_rewrite list_elem_of_filter.
  assert (∀ b, (k, b) ∈ take_while (has_index group) (range_from (log_prefix group) (raft_log t)) ↔ raft_log t !! k = Some b ∧ is_Some (key_index group k)) as Hrow.
  { intros b. rewrite (take_while_sorted btree_le); [|apply range_from_sorted|].
    - rewrite range_from_elem. unfold has_index. rewrite bool_decide_eq_true. cbn [fst]. split; [tauto|]. intros [Hb [i Hi]].
      split_and!; [done| |eauto]. by apply prefix_leb; eapply key_index_prefix.
    - intros [y a] [z c] Hy Hz Hyz. unfold has_index, btree_le in *. cbn [fst] in *. rewrite !bool_decide_eq_true. intros [j Hj].
      apply range_from_elem in Hy as [Hy Hle]. apply key_index_prefix in Hj.
      destruct (log_only _ _ _ HL y) as (i & Hi & ->); [by rewrite Hy| |rewrite key_index_log_key by done; eauto].
      eapply (prefix_between _ (log_prefix group) y z); [exists ""; apply as_bytes_inj; by rewrite as_bytes_app, app_nil_r|done..]. }
  split.
  - intros ([i k'] & -> & Hin & [Hki (b & [Hb _]%Hrow)]%indexed_elem). cbn [fst snd] in *.
    destruct (log_only _ _ _ HL k') as (j & Hj & ->); [by rewrite Hb|by eapply key_index_prefix|].
    rewrite key_index_log_key in Hki by done. injection Hki as ->. exists i. split_and!; [done..|by rewrite Hb|done].
  - intros (i & Hi & -> & [b Hb] & Hin). exists (i, log_key group i). split_and!; [done|done|]. apply indexed_elem.
    rewrite key_index_log_key by done. split; [done|]. exists b. apply Hrow. rewrite key_index_log_key by done. eauto.
Qed.

Lemma delete_logs_log group range t L :
  log_is group t L → log_is group (delete_logs group range t) (filter (λ ie, range_contains range ie.1 = false) L).
Proof.
  intros HL. pose proof (λ k, removed_keys group range t L k HL) as Hkeys. unfold delete_logs. split; cbn.
  - intros i Hi. rewrite remove_keys_lookup. destruct (decide _) as [Hk|Hk].
    + left. split; [done|]. apply Hkeys in Hk as (j & Hj & Heq & _ & Hin). apply log_key_inj in Heq as <-; [|done..].
      apply map_lookup_filter_None. right. intros e _. cbn. by rewrite Hin.
    + destruct (log_lookup _ _ _ HL i Hi) as [[Ht Hn]|(b & e & Ht & He & Hb)].
      * left. split; [done|]. apply map_lookup_filter_None. by left.
      * right. exists b, e. split_and!; [done| |done]. apply map_lookup_filter_Some. split; [done|]. cbn.
        destruct (range_contains range i) eqn:Hin; [|done]. destruct Hk. apply Hkeys. exists i. by rewrite Ht.
  - intros k Hk Hp. rewrite remove_keys_lookup in Hk. destruct (decide _); [by destruct Hk|]. by apply (log_only _ _ _ HL).
  - intros i e [He _]%map_lookup_filter_Some. by apply (log_index_of _ _ _ HL).
Qed.

(** *** Other groups *)

(** The text of a group has no separator in it. *)
Definition plain group : Prop := string_forallb (λ c, negb (bool_decide (c = "|"%char))) group = true.

Lemma other_log_key g g' i : plain g → plain g' → g ≠ g' → ¬ has_prefix (log_prefix g') (log_key g i).
Proof.
  intros Hg Hg' Hne [r Hr]. unfold log_key, log_prefix in Hr. rewrite !sapp_assoc in Hr. cbn [String.append] in Hr.
  apply cut_at_sep in Hr as [? _]; [done..].
Qed.

Lemma other_state_key g g' n n' : plain g → plain g' → state_key g n = state_key g' n' → g = g' ∧ n = n'.
Proof. intros Hg Hg' Hk. unfold state_key in Hk. by apply cut_at_sep in Hk. Qed.

(** Tables with the same rows below the prefix of a group hold the same log. *)
Lemma log_is_below group t t' L :
  (∀ k, has_prefix (log_prefix group) k → raft_log t' !! k = raft_log t !! k) → log_is group t L → log_is group t' L.
Proof.
  intros Heq HL. split.
  - intros i Hi. rewrite Heq by (by eexists). by apply (log_lookup _ _ _ HL).
  - intros k Hk Hp. rewrite Heq in Hk by done. by apply (log_only _ _ _ HL).
  - apply (log_index_of _ _ _ HL).
Qed.

(** ** The specification: an array of entries, the last purged identity and the vote *)

Record AbstractLog := mkAbstract { log_entries : gmap N Entry; purged : option LogId; voted : option Vote }.

Inductive log_op :=
| Append (entries : list Entry) (now : Z)
| Truncate (id : LogId)
| Purge (id : LogId)
| SaveVote (vote : Vote)
| SaveCommitted (committed : option LogId).

Definition spec_op (op : log_op) (a : AbstractLog) : AbstractLog :=
  match op with
  | Append entries _ => mkAbstract (appended (log_entries a) entries) (purged a) (voted a)
  | Truncate id => mkAbstract (filter (λ ie, ie.1 < log_index id)%N (log_entries a)) (purged a) (voted a)
  | Purge id => mkAbstract (filter (λ ie, log_index id < ie.1)%N (log_entries a)) (Some id) (voted a)
  | SaveVote vote => mkAbstract (log_entries a) (purged a) (Some vote)
  | SaveCommitted _ => a
  end.

Definition perform (op : log_op) : logged unit :=
  match op with
  | Append entries now => append entries now
  | Truncate id => truncate id
  | Purge id => purge id
  | SaveVote vote => save_vote vote
  | SaveCommitted committed => save_committed committed
  end.

Definition fits (op : log_op) : Prop :=
  match op with Append entries _ => Forall (λ e, entry_at e ≤ u64_max)%N entries | _ => True end.

Definition stored {A} `{Json A} group name t (v : option A) : Prop :=
  match v with
  | None => raft_vote t !! state_key group name = None
  | Some a => ∃ b, raft_vote t !! state_key group name = Some b ∧ from_slice b = Ok a
  end.

Lemma stored_read {A} `{Json A} group name t (v : option A) : stored group name t v → read_value (state_key group name) t = Ok v.
Proof.
  unfold stored, read_value. destruct v as [a|]; [intros (b & Hb & Ha); by rewrite Hb, Ha|by intros ->].
Qed.

Lemma stored_ext {A} `{Json A} group name t t' (v : option A) :
  raft_vote t' !! state_key group name = raft_vote t !! state_key group name → stored group name t v → stored group name t' v.
Proof. unfold stored. by intros ->. Qed.

(** The tables stand for the abstract log of a group. *)
Record stands_for group t (a : AbstractLog) : Prop := {
  stands_entries : log_is group t (log_entries a);
  stands_purged : stored group "last_purged" t (purged a);
  stands_voted : stored group "vote" t (voted a)
}.

Lemma write_value_Ok {A} `{Json A} key (a : A) l t r l' t' :
  write_value key a (l, t) = (r, (l', t')) →
  l' = l ∧ (r = Ok () ∧ (∃ b, to_vec a = Ok b ∧ t' = set_vote (<[key := b]> (raft_vote t)) t) ∨ (∃ e, r = Err e) ∧ t' = t).
Proof. unfold write_value. destruct (to_vec a) as [b|m]; intros [= <- <- <-]; eauto 10. Qed.

(** What an operation does outside the log. *)
Lemma perform_vote op l t r l' t' key :
  perform op (l, t) = (r, (l', t')) →
  raft_vote t' !! key = raft_vote t !! key ∨
  key = state_key (log_group l) (match op with Purge _ => "last_purged" | SaveVote _ => "vote" | _ => "committed" end).
Proof.
  destruct op as [entries now|id|id|vote|committed]; cbn [perform]; intros Hp.
  - left. unfold append in Hp. destruct (encode_entries entries); [|by injection Hp as _ _ <-].
    destruct (log_bytes (l, t)) as [[total|] [l1 t1]] eqn:Hb; apply log_bytes_tables in Hb as [-> _]; [|by injection Hp as _ _ <-].
    destruct (_ <? _)%N; by injection Hp as _ _ <-.
  - left. by injection Hp as _ _ <-.
  - unfold purge in Hp. destruct (to_vec id); injection Hp as _ _ <-; [|by left]. cbn.
    destruct (decide (key = state_key (log_group l) "last_purged")); [by right|left]. by apply lookup_insert_ne.
  - apply write_value_Ok in Hp as [_ [[_ (b & _ & ->)]|[_ ->]]]; [|by left]. cbn.
    destruct (decide (key = state_key (log_group l) "vote")); [by right|left]. by apply lookup_insert_ne.
  - apply write_value_Ok in Hp as [_ [[_ (b & _ & ->)]|[_ ->]]]; [|by left]. cbn.
    destruct (decide (key = state_key (log_group l) "committed")); [by right|left]. by apply lookup_insert_ne.
Qed.

Lemma state_key_inj group n n' : state_key group n = state_key group n' → n = n'.
Proof. unfold state_key. intros Hk. apply String.app_inj in Hk. by injection Hk. Qed.

Lemma filter_log_ext (P Q : N * Entry → Prop) `{∀ x, Decision (P x)} `{∀ x, Decision (Q x)} group t L :
  (∀ i e, P (i, e) ↔ Q (i, e)) → log_is group t (filter P L) → log_is group t (filter Q L).
Proof. intros HPQ. by rewrite (proj1 (map_filter_ext P Q L)) by (intros i e _; apply HPQ). Qed.

Lemma perform_entries op l t l' t' a :
  perform op (l, t) = (Ok (), (l', t')) → fits op → log_is (log_group l) t (log_entries a) →
  log_is (log_group l) t' (log_entries (spec_op op a)).
Proof.
  destruct op as [entries now|id|id|vote|committed]; cbn [perform fits spec_op log_entries]; intros Hp Hf He.
  - by eapply append_log.
  - injection Hp as <- <-. eapply filter_log_ext, (delete_logs_log _ (mkRange (Included (log_index id)) Unbounded)), He.
    intros i e. unfold range_contains. cbn. rewrite andb_true_r. apply N.leb_gt.
  - unfold purge in Hp. destruct (to_vec id) as [b|m] eqn:Hb; [|done]. injection Hp as <- <-.
    eapply log_is_ext, filter_log_ext, (delete_logs_log _ (mkRange Unbounded (Included (log_index id)))), He; [done|].
    intros i e. unfold range_contains. cbn. apply N.leb_gt.
  - apply write_value_Ok in Hp as [_ [[_ (b & _ & ->)]|[_ ->]]]; [by eapply log_is_ext, He|done].
  - apply write_value_Ok in Hp as [_ [[_ (b & _ & ->)]|[_ ->]]]; [by eapply log_is_ext, He|done].
Qed.

Lemma perform_stands op l t l' t' a :
  perform op (l, t) = (Ok (), (l', t')) → fits op → stands_for (log_group l) t a → stands_for (log_group l) t' (spec_op op a).
Proof.
  intros Hp Hf [He Hpu Hvo]. split; [by eapply perform_entries|..].
  - destruct op as [entries now|id|id|vote|committed];
      try (apply (stored_ext _ _ t); [|exact Hpu]; destruct (perform_vote _ _ _ _ _ _ (state_key (log_group l) "last_purged") Hp) as [?|Hk];
        [done|by apply state_key_inj in Hk]).
    cbn [perform] in Hp. unfold purge in Hp. destruct (to_vec id) as [b|m] eqn:Hb; [|done]. injection Hp as <- <-.
    exists b. split; [apply lookup_insert_eq|by eapply from_slice_to_vec].
  - destruct op as [entries now|id|id|vote|committed];
      try (apply (stored_ext _ _ t); [|exact Hvo]; destruct (perform_vote _ _ _ _ _ _ (state_key (log_group l) "vote") Hp) as [?|Hk];
        [done|by apply state_key_inj in Hk]).
    apply write_value_Ok in Hp as [_ [[_ (b & Hb & ->)]|[[e [=]] _]]]. exists b. split; [apply lookup_insert_eq|by eapply from_slice_to_vec].
Qed.

Lemma append_below entries now l t r l' t' k group :
  append entries now (l, t) = (r, (l', t')) → plain group → plain (log_group l) → log_group l ≠ group → has_prefix (log_prefix group) k →
  raft_log t' !! k = raft_log t !! k.
Proof.
  intros Ha Hg Hl Hne Hk. unfold append in Ha. destruct (encode_entries entries) as [encoded|]; [|by injection Ha as _ _ <-].
  destruct (log_bytes (l, t)) as [[total|] [l1 t1]] eqn:Hb; apply log_bytes_tables in Hb as [-> Hgr]; [|by injection Ha as _ _ <-].
  destruct (_ <? _)%N; injection Ha as _ _ <-; [done|]. cbn. rewrite Hgr.
  generalize (zip entries encoded), (raft_log t). intros rows. induction rows as [|[e b] rows IH]; intros log; cbn [foldl]; [done|].
  rewrite IH. apply lookup_insert_ne. intros <-. by eapply other_log_key in Hk.
Qed.

Lemma delete_logs_below g range t k group :
  plain group → plain g → g ≠ group → has_prefix (log_prefix group) k → raft_log (delete_logs g range t) !! k = raft_log t !! k.
Proof.
  intros Hg Hl Hne Hk. unfold delete_logs. cbn. rewrite remove_keys_lookup, decide_False; [done|].
  rewrite list_elem_of_fmap. intros ([i k'] & -> & [_ Hin]%list_elem_of_filter). apply indexed_elem in Hin as [Hi _].
  apply key_index_prefix in Hi as [r ->]. destruct Hk as [r' Hr]. cbn in Hr. unfold log_prefix in Hr.
  rewrite !sapp_assoc in Hr. cbn [String.append] in Hr. apply cut_at_sep in Hr as [? _]; [done..].
Qed.

Lemma perform_others op l t r l' t' a group :
  perform op (l, t) = (r, (l', t')) → plain group → plain (log_group l) → log_group l ≠ group →
  stands_for group t a → stands_for group t' a.
Proof.
  intros Hp Hg Hl Hne [He Hpu Hvo].
  assert (∀ name, raft_vote t' !! state_key group name = raft_vote t !! state_key group name) as Hv.
  { intros name. destruct (perform_vote _ _ _ _ _ _ (state_key group name) Hp) as [?|Hk]; [done|]. by apply other_state_key in Hk as [? _]. }
  split; [|eapply stored_ext; [apply Hv|done]..]. eapply log_is_below, He. intros k Hk.
  destruct op as [entries now|id|id|vote|committed]; cbn [perform] in Hp.
  - exact (append_below _ _ _ _ _ _ _ _ _ Hp Hg Hl Hne Hk).
  - injection Hp as _ _ <-. by apply (delete_logs_below _ _ _ _ group).
  - unfold purge in Hp. destruct (to_vec id); injection Hp as _ _ <-; [by apply (delete_logs_below _ _ _ _ group)|done].
  - by apply write_value_Ok in Hp as [_ [[_ (b & _ & ->)]|[_ ->]]].
  - by apply write_value_Ok in Hp as [_ [[_ (b & _ & ->)]|[_ ->]]].
Qed.

(** An operation that fails changes nothing. *)
Lemma perform_fails op l t e l' t' : perform op (l, t) = (Err e, (l', t')) → t' = t.
Proof.
  destruct op as [entries now|id|id|vote|committed]; cbn [perform]; intros Hp.
  - unfold append in Hp. destruct (encode_entries entries); [|by injection Hp as _ _ <-].
    destruct (log_bytes (l, t)) as [[total|] [l1 t1]] eqn:Hb; apply log_bytes_tables in Hb as [-> _]; [|by injection Hp as _ _ <-].
    destruct (_ <? _)%N; [by injection Hp as _ _ <-|done].
  - done.
  - unfold purge in Hp. destruct (to_vec id); [done|by injection Hp as _ _ <-].
  - by apply write_value_Ok in Hp as [_ [[[=] _]|[_ ->]]].
  - by apply write_value_Ok in Hp as [_ [[[=] _]|[_ ->]]].
Qed.

(** ** Histories of operations of the groups that share the tables *)

Inductive log_history : list (string * log_op) → ConsensusTables → Prop :=
| history_start t : raft_log t = ∅ → raft_vote t = ∅ → log_history [] t
| history_done ops t op l l' t' :
    log_history ops t → perform op (l, t) = (Ok (), (l', t')) → plain (log_group l) → fits op →
    log_history (ops ++ [(log_group l, op)]) t'
| history_failed ops t op l e l' t' : log_history ops t → perform op (l, t) = (Err e, (l', t')) → log_history ops t'.

(** What a group's own operations come to. *)
Definition spec_log group (ops : list (string * log_op)) : AbstractLog :=
  foldl (λ a go, if bool_decide (go.1 = group) then spec_op go.2 a else a) (mkAbstract ∅ None None) ops.

Lemma history_stands group ops t : log_history ops t → plain group → stands_for group t (spec_log group ops).
Proof.
  intros Hh Hg. induction Hh as [t Hl Hv|ops t op l l' t' _ IH Hp Hpl Hf|ops t op l e l' t' _ IH Hp].
  - split; cbn; [|by rewrite Hv..]. split.
    + intros i _. left. by rewrite Hl.
    + intros k [b Hb]. by rewrite Hl in Hb.
    + by intros i e.
  - unfold spec_log. rewrite foldl_app. cbn [foldl fst snd]. destruct (bool_decide _) eqn:Hd.
    + apply bool_decide_eq_true in Hd as <-. by eapply perform_stands.
    + apply bool_decide_eq_false in Hd. exact (perform_others _ _ _ _ _ _ _ _ Hp Hg Hpl Hd IH).
  - by rewrite (perform_fails _ _ _ _ _ _ Hp).
Qed.

(** The entries of a log in a range, in order. *)
Definition log_slice L (range : LogRange) (es : list Entry) : Prop :=
  StronglySorted N.lt (entry_at <$> es) ∧ ∀ e, e ∈ es ↔ ∃ i, L !! i = Some e ∧ range_contains range i = true.

(** The identity of the last entry, and of the last purged one when there is none. *)
Definition last_id (a : AbstractLog) (id : option LogId) : Prop :=
  (∃ i e, log_entries a !! i = Some e ∧ id = Some (entry_log_id e) ∧ ∀ j, is_Some (log_entries a !! j) → (j ≤ i)%N)
  ∨ log_entries a = ∅ ∧ id = purged a.

Lemma slice_last L es e :
  log_slice L (mkRange Unbounded Unbounded) es → last es = Some e → ∀ j, is_Some (L !! j) → (∀ i e, L !! i = Some e → entry_at e = i) → (j ≤ entry_at e)%N.
Proof.
  intros [Hs He] [es' ->]%last_Some j [e' Hj] Hat. assert (e' ∈ es' ++ [e]) as Hin by (apply He; eauto).
  rewrite <-(Hat _ _ Hj). apply elem_of_app in Hin as [Hin| ->%list_elem_of_singleton]; [|done].
  rewrite fmap_app in Hs. apply N.lt_le_incl, (StronglySorted_app_1_elem_of _ _ _ _ _ Hs); [by apply list_elem_of_fmap_2|by apply list_elem_of_singleton].
Qed.

(** C21: The tables implement the log: after any history of appends, truncations, purges and
    votes of groups that share them (failed operations included), a group reads back, in any
    range, exactly the entries its own operations leave, in the order of their indexes, with
    the identity of its last entry, of the last one it purged, and its last vote. *)
Theorem log_refines group ops t :
  log_history ops t → plain group →
  let a := spec_log group ops in
  (∀ range, (lowest range ≤ u64_max)%N → ∃ es, read_logs group range t = Ok es ∧ log_slice (log_entries a) range es) ∧
  (∃ id, get_log_state group t = Ok (mkLogState (purged a) id) ∧ last_id a id) ∧
  read_vote group t = Ok (voted a).
Proof.
  intros Hh Hg a. destruct (history_stands _ _ _ Hh Hg) as [He Hp Hv]. fold a in He, Hp, Hv. split_and!.
  - intros range Hr. by apply read_logs_spec.
  - destruct (read_logs_spec group (mkRange Unbounded Unbounded) t (log_entries a)) as (es & Hes & Hs & Hin); [done|done|].
    unfold get_log_state. rewrite (stored_read _ _ _ _ Hp), Hes. cbn [mbind result_bind]. eexists. split; [done|].
    destruct (last es) as [e|] eqn:Hl.
    + left. exists (entry_at e), e. destruct (proj1 (Hin e)) as (i & Hi & _); [apply last_Some in Hl as [? ->]; apply elem_of_app; right; by left|].
      pose proof (log_index_of _ _ _ He _ _ Hi) as [<- _]. split_and!; [done..|]. intros j Hj. eapply (slice_last (log_entries a)); [by split|done|done|].
      intros i' e' Hi'. by apply (log_index_of _ _ _ He).
    + right. split; [|done]. apply last_None in Hl as ->. apply map_eq. intros i. rewrite lookup_empty. destruct (log_entries a !! i) as [e|] eqn:Hi; [|done].
      exfalso. apply (not_elem_of_nil e). apply Hin. eauto.
  - by apply stored_read.
Qed.
End Log.

(** ** Intents of the entries *)

Lemma digit_plain d : (d < 16)%N → negb (bool_decide (digit_char d = "|"%char)) = true.
Proof. revert d. apply N_lt_16_cases; reflexivity. Qed.

Lemma radix_plain base n : (2 ≤ base ≤ 16)%N → plain (fmt_radix base n).
Proof. intros Hb. apply fmt_go_forallb; [lia|intros d Hd; apply digit_plain; lia|done]. Qed.

Lemma padded_plain base width n : (2 ≤ base ≤ 16)%N → plain (fmt_padded base width n).
Proof.
  intros Hb. unfold plain, fmt_padded. rewrite string_forallb_app, andb_true_iff. split; [|by apply radix_plain].
  generalize (width - length (as_bytes (fmt_radix base n)))%nat. induction n0 as [|k IH]; [done|]. exact IH.
Qed.

(** The text of a CID, by which groups are named, has no separator in it. *)
Lemma cid_plain `{Hex} `{!HexLaws} c : plain (Cid_to_string c).
Proof.
  unfold plain, Cid_to_string, canonical_display.
  rewrite !string_forallb_app, hex_encode_lower, (hex_lower_forallb _ _ digit_plain), (radix_plain 16) by done.
  destruct (hash_alg c). destruct (version c =? 1)%N; [done|]. by rewrite string_forallb_app, (radix_plain 10).
Qed.

(** A key of the tables of intents, at an index of the log of a group. *)
Definition intent_at (group : string) (index : N) (k : string) : Prop :=
  has_prefix (group +:+ "|" +:+ fmt_padded 16 16 index +:+ "|") k.

Lemma intent_at_same g g' i i' k :
  plain g → plain g' → (i ≤ u64_max)%N → (i' ≤ u64_max)%N → intent_at g i k → intent_at g' i' k → i = i'.
Proof.
  intros Hg Hg' Hi Hi' [r ->] [r' Hr]. rewrite !sapp_assoc in Hr. cbn [String.append] in Hr.
  apply cut_at_sep in Hr as [-> Hr]; [|done..]. apply cut_at_sep in Hr as [Hr _]; [|by apply padded_plain..].
  pose proof (parse_padded 16 u64_max 16 i ltac:(done) Hi) as Hp. rewrite Hr, (parse_padded 16 u64_max 16 i' ltac:(done) Hi') in Hp.
  by injection Hp.
Qed.

Section Intents.
Context `{Openraft} `{Blake3} `{Hex} `{!HexLaws} `{Json Node} `{Json CursorRecord} `{!NamespaceJson} {S : Type} `{!ConsensusDataBackend S}.
Context `{Json PersistedStateMachine} `{Json StoredMembership}.

(** Entries other than that of an intent leave it in the table. *)
Definition elsewhere (index : N) (es : list Entry) : Prop := Forall (λ e, entry_at e ≤ u64_max ∧ entry_at e ≠ index)%N es.

Lemma resolve_keeps group index live retired k i g idx :
  plain group → plain g → (index ≤ u64_max)%N → (idx ≤ u64_max)%N → index ≠ idx → intent_at g idx k →
  live !! k = Some i → (resolve_proposals group (live, retired) index).1 !! k = Some i.
Proof.
  intros Hgr Hg Hi Hidx Hne Hk Hl. unfold resolve_proposals. cbn [fst].
  assert (k ∉ (rows_with (group +:+ "|" +:+ fmt_padded 16 16 index +:+ "|proposal|") live).*1) as Hnot.
  { intros ([k' x] & -> & [_ [r Hp]]%rows_with_spec)%list_elem_of_fmap. cbn in Hk. apply Hne.
    apply (intent_at_same group g index idx k'); [done..| |done]. exists ("proposal|" +:+ r). rewrite Hp. by rewrite !sapp_assoc. }
  revert Hnot Hl. generalize (rows_with (group +:+ "|" +:+ fmt_padded 16 16 index +:+ "|proposal|") live).
  intros rows. revert live retired. induction rows as [|[k' x] rows IH]; intros live retired Hnot Hl; [done|]. cbn [foldl fst snd].
  apply IH; [set_solver|]. rewrite lookup_delete_ne; [done|]. set_solver.
Qed.

Lemma commands_at index now cs : ∀ st (s : Buffered S) rs intents st' s',
  apply_commands index now cs st s = (rs, intents, st', s') → Forall (λ i, ∃ c, intent_at (Cid_to_string c) index (intent_id i)) intents.
Proof.
  induction cs as [|c cs IH]; intros st s rs intents st' s' Hc; cbn [apply_commands] in Hc; [by injection Hc as _ <- _ _|].
  destruct (adapter_apply c st s) as [[r st1] s1]. destruct r as [result|e];
    destruct (apply_commands index now cs st1 s1) as [[[rs2 more] st2] s2] eqn:Hmore; injection Hc as _ <- _ _; [|by eapply IH].
  apply Forall_app_2; [|by eapply IH]. rewrite Forall_fmap. apply Forall_true. intros x. exists (id_cid (namespace_id st1)).
  unfold intent_at, committed_publication_intent. cbn [intent_id compose]. eexists. by rewrite !sapp_assoc.
Qed.

(** What the entries add: intents at their indexes. *)
Lemma entries_at now es : ∀ (p q : Progress) s s',
  apply_entries now p es s = (Ok q, s') →
  (∃ more, publication_intents q = publication_intents p ++ more ∧
    Forall (λ i, ∃ c e, e ∈ es ∧ intent_at (Cid_to_string c) (entry_at e) (intent_id i)) more) ∧
  ∃ indexes, resolved_log_indexes q = resolved_log_indexes p ++ indexes ∧ Forall (λ n, ∃ e, e ∈ es ∧ n = entry_at e) indexes.
Proof.
  induction es as [|e es IH]; intros p q s s' Ha; cbn [apply_entries] in Ha.
  { injection Ha as <- _. split; exists []; by rewrite app_nil_r. }
  apply stm_bind_Ok in Ha as (p1 & s1 & He & Ha). destruct (IH _ _ _ _ Ha) as [(more & Hq & Hm) (indexes & Hq' & Hi)].
  assert ((∃ more, publication_intents p1 = publication_intents p ++ more ∧
             Forall (λ i, ∃ c, intent_at (Cid_to_string c) (entry_at e) (intent_id i)) more) ∧
          ∃ indexes, resolved_log_indexes p1 = resolved_log_indexes p ++ indexes ∧ Forall (λ n, n = entry_at e) indexes) as
    [(more1 & Hp1 & Hm1) (indexes1 & Hp1' & Hi1)].
  { unfold apply_entry in He. destruct (entry_payload e) as [|cs|mem].
    - injection He as <- _. split; exists []; by rewrite app_nil_r.
    - destruct (apply_commands _ now cs _ _) as [[[rs is_] st] b] eqn:Hc. destruct (flush b) as [[[]|f] u]; [|done]. injection He as <- _.
      split; eexists; (split; [done|]); [by eapply commands_at|by constructor].
    - injection He as <- _. split; exists []; by rewrite app_nil_r. }
  split.
  - exists (more1 ++ more). rewrite Hq, Hp1, app_assoc. split; [done|]. apply Forall_app_2.
    + eapply Forall_impl; [exact Hm1|]. intros i [c Hc]. exists c, e. split; [by left|done].
    + eapply Forall_impl; [exact Hm|]. intros i (c & e' & He' & Hc). exists c, e'. split; [by right|done].
  - exists (indexes1 ++ indexes). rewrite Hq', Hp1', app_assoc. split; [done|]. apply Forall_app_2.
    + eapply Forall_impl; [exact Hi1|]. intros n ->. exists e. split; [by left|done].
    + eapply Forall_impl; [exact Hi|]. intros n (e' & He' & ->). exists e'. split; [by right|done].
Qed.

Lemma persist_intents_keeps group intents indexes t k i g idx :
  plain group → plain g → (idx ≤ u64_max)%N → intent_at g idx k →
  Forall (λ n, n ≤ u64_max ∧ n ≠ idx)%N indexes → Forall (λ j, intent_id j ≠ k) intents →
  live_intents t !! k = Some i → live_intents (persist_intents_sync group intents indexes t) !! k = Some i.
Proof.
  intros Hgr Hg Hidx Hk Hind Hint Hl. unfold persist_intents_sync.
  assert ((foldl (resolve_proposals group) (live_intents t, retired_intents t) indexes).1 !! k = Some i) as Hlive.
  { revert Hl. generalize (live_intents t), (retired_intents t). induction Hind as [|n indexes [Hn Hne] _ IH]; intros live retired Hl; [done|].
    cbn [foldl]. pose proof (resolve_keeps group n live retired k i g idx Hgr Hg Hn Hidx Hne Hk Hl) as Hstep.
    destruct (resolve_proposals group (live, retired) n). by apply IH. }
  destruct (foldl (resolve_proposals group) _ indexes) as [live retired]. cbn in *. clear Hl Hind.
  revert live Hlive. induction Hint as [|j intents Hj _ IH]; intros live Hlive; [done|]. cbn [foldl]. apply IH. by rewrite lookup_insert_ne.
Qed.

Lemma apply_log_keeps now es (m : StateMachineStore S) t r m' t' k i g idx :
  apply_log now es (m, t) = (r, (m', t')) → plain (machine_group m) → plain g → (idx ≤ u64_max)%N → intent_at g idx k → elsewhere idx es →
  live_intents t !! k = Some i → live_intents t' !! k = Some i.
Proof.
  intros Ha Hgr Hg Hidx Hk Hes Hl. unfold elsewhere in Hes. rewrite Forall_forall in Hes. unfold apply_log in Ha.
  destruct (apply_entries _ _ es _) as [[q|e] s] eqn:Hq; [|by injection Ha as _ _ <-].
  destruct (entries_at _ _ _ _ _ _ Hq) as [(more & Hint & Hm) (indexes & Hind & Hi)]. cbn [app publication_intents resolved_log_indexes] in Hint, Hind.
  assert (live_intents (persist_intents_sync (machine_group m) (publication_intents q) (resolved_log_indexes q) t) !! k = Some i) as Hlive.
  { apply (persist_intents_keeps _ _ _ _ _ _ g idx); [done..| | |done].
    - rewrite Hind. eapply Forall_impl; [exact Hi|]. intros n (e & He & ->). by apply Hes.
    - rewrite Hint. eapply Forall_impl; [exact Hm|]. intros j (c & e & He & Hj) Heq. subst k. destruct (Hes e He) as [Hb Hne].
      apply Hne. by eapply (intent_at_same (Cid_to_string c) g); [apply cid_plain|..]. }
  destruct (_ || _); [|by injection Ha as _ _ <-]. unfold persist_state_sync in Ha.
  destruct (to_vec (next q)); [destruct (to_vec (membership (next q)))|]; by injection Ha as _ _ <-.
Qed.
End Intents.
