(* ===== verification/ConsensusFacts.v ===== *)
(** * Replicas and restarts

    The commands of a log entry go through a buffer over the block store.  Replicas whose
    stores differ compute the same states and responses ([replicas_agree]), and a node
    that restarts from the state it wrote last and applies its log again is where it was
    ([recovery_restores]), as long as no block that a command reads is missing. *)
From stdpp Require Import base gmap sets list strings sorting.
From Stdlib Require Import Strings.Byte.
From S2P Require Import Prelude Types Merkle MerkleTree MerkleRefinement Namespace NamespaceFacts NamespaceCheckpoints Pins Consensus Determinism.

Section Facts.
Context `{Openraft} `{Blake3} `{Hex} `{Json Node} `{Json CursorRecord} `{!NamespaceJson} {S : Type} `{!ConsensusDataBackend S}.
#[local] Existing Instance AllowAllAuthorizer.

(** What a batch of blocks does to a store, as the block store and its mirror on another
    replica do it: nothing is lost, and what one has, the other gets. *)
Class BackendLaws : Prop := {
  batch_keeps blocks (s : S) r t : put_batch blocks s = (r, t) → keeps s t;
  batch_monotone blocks (s1 s2 : S) c1 c2 t1 t2 :
    keeps s1 s2 → put_batch blocks s1 = (Ok c1, t1) → put_batch blocks s2 = (Ok c2, t2) → keeps t1 t2
}.
Context `{!BackendLaws}.

(** ** Buffers *)

Definition over (b1 b2 : Buffered S) : Prop := keeps (base b1) (base b2) ∧ buffered b1 = buffered b2.

#[local] Instance over_simulation : Simulation over.
Proof.
  split.
  - intros b1 b2 c p [Hk Hb]. cbn. rewrite Hb. destruct (buffered b2 !! _); [done|]. apply Hk.
  - intros b1 b2 k p r1 t1 r2 t2 [Hk Hb] [= <- <-] [= <- <-]. split; [done|]. split; [done|]. cbn. by rewrite Hb.
Qed.

(** A response that says a block could not be read. *)
Definition loses (r : ConsensusResponse) : Prop := ∃ e, lost e ∧ r = application_error e.

Lemma adapter_agrees c st b1 b2 :
  over b1 b2 →
  (∃ r st' t1 t2, adapter_apply c st b1 = (r, st', t1) ∧ adapter_apply c st b2 = (r, st', t2) ∧ over t1 t2) ∨
  ∃ e st' t1, adapter_apply c st b1 = (Err e, st', t1) ∧ lost e.
Proof.
  intros Hb. unfold adapter_apply, with_authorizer. cbn [NamespaceLimits_validate].
  destruct (NamespaceLimits_validate _) as [limits|e]; cbn [mbind result_bind]; [|left; by eexists _, _, b1, b2].
  destruct (NamespaceDescriptor_validate _ _) as [[]|e]; cbn [mbind result_bind]; [|left; by eexists _, _, b1, b2].
  destruct (validate_namespace_state _ _) as [[]|e]; cbn [mbind result_bind]; [|left; by eexists _, _, b1, b2].
  destruct (apply_alike over c (mkMachine b1 st limits MerkleLimits_default) (mkMachine b2 st limits MerkleLimits_default))
    as [(r & M1 & M2 & -> & -> & Hs & Hst & _)|(e & M1 & M2 & -> & He & _)]; [done| |].
  - left. destruct r as [r|e]; [|by eexists _, _, _, _]. eexists _, _, _, _. split_and!; [done| |done]. by rewrite Hst.
  - right. by eexists _, _, _.
Qed.

Lemma apply_commands_agree index now cs : ∀ st b1 b2 rs is_ st' t1,
  over b1 b2 → apply_commands index now cs st b1 = (rs, is_, st', t1) → Forall (λ r, ¬ loses r) rs →
  ∃ t2, apply_commands index now cs st b2 = (rs, is_, st', t2) ∧ over t1 t2.
Proof.
  induction cs as [|c cs IH]; intros st b1 b2 rs is_ st' t1 Hb Ha Hl; cbn [apply_commands] in *.
  { injection Ha as <- <- <- <-. by exists b2. }
  destruct (adapter_agrees c st b1 b2 Hb) as [(r & st1 & u1 & u2 & Ha1 & Ha2 & Hu)|(e & st1 & u1 & Ha1 & He)];
    rewrite Ha1 in Ha; cbn zeta beta iota in Ha.
  - rewrite Ha2. destruct (match r with Ok _ => _ | Err _ => _ end) as [response intents].
    destruct (apply_commands index now cs st1 u1) as [[[rs1 is1] st2] v1] eqn:Hc. injection Ha as <- <- <- <-.
    apply Forall_cons in Hl as [_ Hl]. destruct (IH _ _ _ _ _ _ _ Hu Hc Hl) as (v2 & -> & Hv). by exists v2.
  - destruct (apply_commands index now cs st1 u1) as [[[rs1 is1] st2] v1]. injection Ha as <- <- <- <-.
    apply Forall_cons in Hl as [Hl _]. destruct Hl. by exists e.
Qed.

(** A command writes to the buffer only. *)
Definition same_base (s : S) (b1 b2 : Buffered S) : Prop := b1 = b2 ∧ base b1 = s.

#[local] Instance same_base_simulation s : Simulation (same_base s).
Proof.
  split; [by intros b1 b2 c p [<- _]|]. intros b1 b2 k p r1 t1 r2 t2 [<- Hb] [= <- <-] [= <- <-]. by split.
Qed.

Lemma adapter_base c st b r st' t : adapter_apply c st b = (r, st', t) → base t = base b.
Proof.
  unfold adapter_apply. destruct (with_authorizer _ _ _ _) as [M|e] eqn:HM; [|by intros [= _ _ <-]].
  unfold with_authorizer in HM. apply bind_Ok in HM as (limits & _ & HM). apply bind_Ok in HM as ([] & _ & HM).
  apply bind_Ok in HM as ([] & _ & [= <-]).
  destruct (apply_alike (same_base (base b)) c (mkMachine b st limits MerkleLimits_default) (mkMachine b st limits MerkleLimits_default))
    as [(r' & M1 & M2 & -> & _ & [_ Hb] & _)|(e & M1 & M2 & -> & _ & [_ Hb] & _)]; [done| |].
  - destruct r'; by intros [= _ _ <-].
  - by intros [= _ _ <-].
Qed.

Lemma apply_commands_base index now cs : ∀ st b rs is_ st' t,
  apply_commands index now cs st b = (rs, is_, st', t) → base t = base b.
Proof.
  induction cs as [|c cs IH]; intros st b rs is_ st' t Ha; cbn [apply_commands] in Ha; [by injection Ha as _ _ _ <-|].
  destruct (adapter_apply c st b) as [[r st1] u] eqn:Hc. apply adapter_base in Hc.
  destruct (match r with Ok _ => _ | Err _ => _ end). destruct (apply_commands index now cs st1 u) as [[[rs1 is1] st2] v] eqn:Hcs.
  injection Ha as _ _ _ <-. apply IH in Hcs. congruence.
Qed.

Lemma flush_keeps b r t : flush b = (r, t) → keeps (base b) (base t).
Proof.
  unfold flush. case_bool_decide; [by intros [= _ <-]|]. destruct (put_batch _ (base b)) as [actual s] eqn:Hp.
  intros [= _ <-]. by eapply batch_keeps.
Qed.

Lemma flush_monotone b1 b2 t1 t2 :
  over b1 b2 → flush b1 = (Ok (), t1) → flush b2 = (Ok (), t2) → keeps (base t1) (base t2).
Proof.
  intros [Hk Hb]. unfold flush. rewrite Hb. case_bool_decide; [by intros [= <-] [= <-]|].
  destruct (put_batch _ (base b1)) as [[a1|e] s1] eqn:HA; [|done]. destruct (put_batch _ (base b2)) as [[a2|e] s2] eqn:HB; [|done].
  intros [= _ <-] [= _ <-]. by eapply batch_monotone.
Qed.

(** ** Entries *)

(** The responses and the state do not depend on the clock. *)
Lemma apply_commands_clock index now now' cs : ∀ st b rs is_ st' t,
  apply_commands index now cs st b = (rs, is_, st', t) → ∃ is', apply_commands index now' cs st b = (rs, is', st', t).
Proof.
  induction cs as [|c cs IH]; intros st b rs is_ st' t Ha; cbn [apply_commands] in *; [injection Ha as <- <- <- <-; by exists []|].
  destruct (adapter_apply c st b) as [[r st1] u]. destruct (apply_commands index now cs st1 u) as [[[rs1 is1] st2] v] eqn:Hcs.
  destruct (IH _ _ _ _ _ _ Hcs) as (is2 & ->). destruct r as [r|e]; injection Ha as <- <- <- <-; eauto.
Qed.

(** The start of a call. *)
Definition start (p : PersistedStateMachine) : Progress := mkProgress p [] [] [] false.

Definition answered (rs : list (list ConsensusResponse)) : Prop := Forall (Forall (λ r, ¬ loses r)) rs.

Lemma apply_entry_agrees now1 now2 p e s1 s2 h1 t1 h2 t2 :
  keeps s1 s2 → apply_entry now1 (start p) e s1 = (Ok h1, t1) → answered (responses h1) → apply_entry now2 (start p) e s2 = (Ok h2, t2) →
  next h1 = next h2 ∧ responses h1 = responses h2 ∧ keeps t1 t2.
Proof.
  intros Hk HA Hans HB. unfold apply_entry in HA, HB. cbn [next start responses] in HA, HB. destruct (entry_payload e) as [|cs|m].
  - injection HA as <- <-. by injection HB as <- <-.
  - destruct (apply_commands _ now1 cs _ (Buffered_new s1)) as [[[rs1 is1] st1] b1] eqn:Hc1.
    destruct (flush b1) as [[[]|f1] u1] eqn:Hf1; [|done]. injection HA as <- <-. apply Forall_cons in Hans as [Hans _].
    destruct (apply_commands_agree _ _ _ _ (Buffered_new s1) (Buffered_new s2) _ _ _ _ (conj Hk eq_refl) Hc1 Hans) as (b2 & Hc2 & Hover).
    destruct (apply_commands_clock _ _ now2 _ _ _ _ _ _ _ Hc2) as (is2 & Hc2'). rewrite Hc2' in HB.
    destruct (flush b2) as [[[]|f2] u2] eqn:Hf2; [|done]. injection HB as <- <-. split_and!; [done|done|]. by eapply flush_monotone.
  - injection HA as <- <-. by injection HB as <- <-.
Qed.

Lemma apply_entry_keeps now g e s r t : apply_entry now g e s = (r, t) → keeps s t.
Proof.
  unfold apply_entry. destruct (entry_payload e) as [|cs|m]; [by intros [= _ <-]| |by intros [= _ <-]].
  destruct (apply_commands _ now cs _ _) as [[[rs is_] st] b] eqn:Hc. apply apply_commands_base in Hc. cbn in Hc.
  destruct (flush b) as [f u] eqn:Hf. apply flush_keeps in Hf. rewrite Hc in Hf. by intros [= _ <-].
Qed.

(** A run of entries, whatever the times: the responses, the state and the blocks. *)
Inductive runs_to : PersistedStateMachine → S → list Entry → list (list ConsensusResponse) → PersistedStateMachine → S → Prop :=
| runs_nil p s : runs_to p s [] [] p s
| runs_cons now p s e h s1 es rs q t :
    apply_entry now (start p) e s = (Ok h, s1) → runs_to (next h) s1 es rs q t → runs_to p s (e :: es) (responses h ++ rs) q t.

Lemma runs_keeps p s es rs q t : runs_to p s es rs q t → keeps s t.
Proof. induction 1 as [|now p s e h s1 es rs q t He _ IH]; [done|]. etrans; [by eapply apply_entry_keeps|done]. Qed.

Lemma runs_agree p s1 es rs q t1 s2 rs2 q2 t2 :
  keeps s1 s2 → runs_to p s1 es rs q t1 → answered rs → runs_to p s2 es rs2 q2 t2 → q2 = q ∧ rs2 = rs ∧ keeps t1 t2.
Proof.
  intros Hk HA. revert s2 rs2 q2 t2 Hk. induction HA as [p s|now p s e h u1 es rs q t He _ IH]; intros s2 rs2 q2 t2 Hk Hans HB.
  { inversion HB; subst. done. }
  inversion HB as [|now2 ? ? ? h2 u2 ? rs2' ? ? He2 HB2]; subst. apply Forall_app in Hans as [Hh Hrs].
  destruct (apply_entry_agrees _ _ _ _ _ _ _ _ _ _ Hk He Hh He2) as (Hn & Hr & Hu). rewrite <-Hn in HB2.
  destruct (IH _ _ _ _ Hu Hrs HB2) as (-> & -> & ?). by rewrite Hr.
Qed.

Lemma runs_app p s es1 rs1 q t es2 rs2 q' t' :
  runs_to p s es1 rs1 q t → runs_to q t es2 rs2 q' t' → runs_to p s (es1 ++ es2) (rs1 ++ rs2) q' t'.
Proof. induction 1; [done|]. intros. rewrite <-app_assoc. cbn. econstructor; eauto. Qed.

Lemma apply_entry_start now g e s h t :
  apply_entry now g e s = (Ok h, t) →
  ∃ h', apply_entry now (start (next g)) e s = (Ok h', t) ∧ next h' = next h ∧ responses h = responses g ++ responses h'.
Proof.
  unfold apply_entry. cbn [next start responses publication_intents resolved_log_indexes membership_changed].
  destruct (entry_payload e) as [|cs|m]; [intros [= <- <-]; by eexists| |intros [= <- <-]; by eexists].
  destruct (apply_commands _ now cs _ _) as [[[rs is_] st] b]. destruct (flush b) as [[[]|f] u]; [|done]. intros [= <- <-]. by eexists.
Qed.

Lemma apply_entries_runs now es : ∀ g s h t,
  apply_entries now g es s = (Ok h, t) → ∃ rs, runs_to (next g) s es rs (next h) t ∧ responses h = responses g ++ rs.
Proof.
  induction es as [|e es IH]; intros g s h t Ha; cbn [apply_entries] in Ha.
  { injection Ha as <- <-. exists []. rewrite app_nil_r. split; [constructor|done]. }
  apply stm_bind_Ok in Ha as (g1 & s1 & He & Ha). apply apply_entry_start in He as (g1' & He' & Hn & Hr).
  destruct (IH _ _ _ _ Ha) as (rs & Hrun & Hrs). exists (responses g1' ++ rs). split.
  - econstructor; [done|]. by rewrite Hn.
  - by rewrite Hrs, Hr, app_assoc.
Qed.

(** ** Calls *)
Context `{Json PersistedStateMachine} `{!JsonLaws PersistedStateMachine} `{Json StoredMembership} `{Json StoredSnapshotRecord}.

(** The calls of a life, each with its time and its entries. *)
Fixpoint serve (calls : list (Z * list Entry)) : stm Host StorageError (list (list ConsensusResponse)) :=
  match calls with
  | [] => mret []
  | (now, es) :: calls => rs ← apply_log now es; more ← serve calls; mret (rs ++ more)
  end.

Definition entries_of (calls : list (Z * list Entry)) : list Entry := concat calls.*2.

Lemma apply_log_runs now es m t rs m' t' :
  apply_log now es (m, t) = (Ok rs, (m', t')) →
  runs_to (memory m) (data_store m) es rs (memory m') (data_store m') ∧ machine_group m' = machine_group m ∧
  (state_table t' = state_table t ∧ last_persisted_applied m' = last_persisted_applied m ∧
     (applied_index (memory m') < last_persisted_applied m + STATE_PERSIST_CADENCE_ENTRIES)%N ∨
   ∃ b, to_vec (memory m') = Ok b ∧ state_table t' = <[machine_group m := b]> (state_table t) ∧
     last_persisted_applied m' = applied_index (memory m')).
Proof.
  unfold apply_log. destruct (apply_entries _ _ es _) as [[g|e] s] eqn:Ha; [|done].
  apply apply_entries_runs in Ha as (rs' & Hrun & Hrs). cbn [next responses app] in Hrun, Hrs. subst rs'.
  unfold persist_intents_sync. destruct (foldl _ _ _) as [live retired].
  destruct (membership_changed g || _) eqn:Hdue; cbn [persist_state_sync].
  - unfold persist_state_sync. destruct (to_vec (next g)) as [b|] eqn:Hb; [|done]. destruct (to_vec (membership (next g))) as [mb|]; [|done].
    intros [= <- <- <-]. split_and!; [done|done|]. right. exists b. done.
  - intros [= <- <- <-]. split_and!; [done|done|]. left. split_and!; [done|done|]. cbn.
    apply orb_false_iff in Hdue as [_ Hdue%N.leb_gt]. unfold saturating_sub in Hdue. unfold STATE_PERSIST_CADENCE_ENTRIES in *. lia.
Qed.

Lemma serve_runs calls : ∀ m t rs m' t',
  serve calls (m, t) = (Ok rs, (m', t')) → runs_to (memory m) (data_store m) (entries_of calls) rs (memory m') (data_store m').
Proof.
  induction calls as [|[now es] calls IH]; intros m t rs m' t' Hs; cbn [serve] in Hs; [injection Hs as <- <- _; constructor|].
  apply stm_bind_Ok in Hs as (rs1 & [m1 t1] & Ha & Hs). apply stm_bind_Ok in Hs as (more & [m2 t2] & Hs & [= <- <- <-]).
  apply apply_log_runs in Ha as (Hrun & _). eapply runs_app; [done|]. by eapply IH.
Qed.

(** C23: replicas agree.  Two replicas in the same state, the second with the blocks of the
    first, that apply the same entries, in whatever calls and at whatever times, reach the
    same state and give the same responses, as long as the first could read its blocks. *)
Theorem replicas_agree m1 t1 calls1 rs1 m1' t1' m2 t2 calls2 rs2 m2' t2' :
  memory m1 = memory m2 → keeps (data_store m1) (data_store m2) → entries_of calls1 = entries_of calls2 →
  serve calls1 (m1, t1) = (Ok rs1, (m1', t1')) → answered rs1 → serve calls2 (m2, t2) = (Ok rs2, (m2', t2')) →
  memory m1' = memory m2' ∧ rs1 = rs2 ∧ keeps (data_store m1') (data_store m2').
Proof.
  intros Hm Hk Hes HA%serve_runs Hans HB%serve_runs. rewrite Hm, Hes in HA.
  by destruct (runs_agree _ _ _ _ _ _ _ _ _ _ Hk HA Hans HB) as (-> & -> & ?).
Qed.

(** ** Restarts *)

Definition entry_index (e : Entry) : N := log_index (entry_log_id e).

(** Entries of a log that follow what is applied. *)
Definition follows (n : N) (es : list Entry) : Prop := StronglySorted N.lt (n :: (entry_index <$> es)).

Lemma apply_entry_index now g e s h t : apply_entry now g e s = (Ok h, t) → applied_index (next h) = entry_index e.
Proof.
  unfold apply_entry. destruct (entry_payload e) as [|cs|m]; [by intros [= <- _]| |by intros [= <- _]].
  destruct (apply_commands _ now cs _ _) as [[[rs is_] st] b]. destruct (flush b) as [[[]|f] u]; [|done]. by intros [= <- _].
Qed.

Lemma runs_follow p s es rs q t more :
  runs_to p s es rs q t → follows (applied_index p) (es ++ more) →
  follows (applied_index q) more ∧ (applied_index p ≤ applied_index q)%N ∧ Forall (λ e, entry_index e ≤ applied_index q)%N es.
Proof.
  induction 1 as [|now p s e h s1 es rs q t He _ IH]; intros Hf; [done|].
  unfold follows in Hf. cbn in Hf. apply StronglySorted_inv in Hf as [Hs Hall]. apply Forall_cons in Hall as [Hlt _].
  apply apply_entry_index in He. destruct IH as (? & Hle & ?); [by rewrite He|]. rewrite He in Hle.
  split_and!; [done|lia|]. constructor; [done|done].
Qed.

(** What the tables hold: the state after some entries, fewer than a cadence behind. *)
Definition written (p0 : PersistedStateMachine) (s0 : S) (es : list Entry) (rs : list (list ConsensusResponse)) (m : StateMachineStore S)
    (t : ConsensusTables) : Prop :=
  ∃ es1 es2 rs1 rs2 q s1 b, es = es1 ++ es2 ∧ rs = rs1 ++ rs2 ∧ runs_to p0 s0 es1 rs1 q s1 ∧ runs_to q s1 es2 rs2 (memory m) (data_store m) ∧
    to_vec q = Ok b ∧ state_table t !! machine_group m = Some b ∧ last_persisted_applied m = applied_index q ∧
    (applied_index (memory m) < applied_index q + STATE_PERSIST_CADENCE_ENTRIES)%N.

Lemma written_apply p0 s0 es rs m t now es' rs' m' t' :
  written p0 s0 es rs m t → apply_log now es' (m, t) = (Ok rs', (m', t')) → written p0 s0 (es ++ es') (rs ++ rs') m' t'.
Proof.
  intros (es1 & es2 & rs1 & rs2 & q & s1 & b & -> & -> & HA & HB & Hb & Ht & Hl & Hlt) (Hrun & Hg & [(Ht' & Hl' & Hlt')|(b' & Hb' & Ht' & Hl')])%apply_log_runs.
  - exists es1, (es2 ++ es'), rs1, (rs2 ++ rs'), q, s1, b. rewrite <-!app_assoc, Ht', Hg, Hl'.
    split_and!; [done|done|done|by eapply runs_app|done|done|done|]. by rewrite <-Hl.
  - exists ((es1 ++ es2) ++ es'), [], ((rs1 ++ rs2) ++ rs'), [], (memory m'), (data_store m'), b'. rewrite !app_nil_r, Ht', Hg, lookup_insert_eq.
    split_and!; [done|done| |constructor|done|done|done|]; [by eapply runs_app, Hrun; eapply runs_app|]. unfold STATE_PERSIST_CADENCE_ENTRIES. lia.
Qed.

Lemma serve_group calls : ∀ m t rs m' t', serve calls (m, t) = (Ok rs, (m', t')) → machine_group m' = machine_group m.
Proof.
  induction calls as [|[now es] calls IH]; intros m t rs m' t' Hs; cbn [serve] in Hs; [by injection Hs as _ <- _|].
  apply stm_bind_Ok in Hs as (rs1 & [m1 t1] & Ha & Hs). apply stm_bind_Ok in Hs as (more & [m2 t2] & Hs & [= _ <- _]).
  apply apply_log_runs in Ha as (_ & <- & _). by eapply IH.
Qed.

(** The entries that are not applied. *)
Lemma filter_follows n es1 es2 :
  Forall (λ e, entry_index e ≤ n)%N es1 → follows n es2 → filter (λ e, n < entry_index e)%N (es1 ++ es2) = es2.
Proof.
  intros Hle [_ Hgt]%StronglySorted_inv. rewrite Forall_fmap in Hgt. rewrite filter_app. assert (filter (λ e, n < entry_index e)%N es1 = []) as ->.
  { induction Hle as [|e es1 He _ IH]; [done|]. rewrite filter_cons_False by lia. done. }
  cbn. induction Hgt as [|e es2 He _ IH]; [done|]. rewrite filter_cons_True by done. by rewrite IH.
Qed.

Lemma written_serve calls : ∀ p0 s0 es rs m t rs' m' t',
  written p0 s0 es rs m t → serve calls (m, t) = (Ok rs', (m', t')) → written p0 s0 (es ++ entries_of calls) (rs ++ rs') m' t'.
Proof.
  induction calls as [|[now es1] calls IH]; intros p0 s0 es rs m t rs' m' t' Hw Hs; cbn [serve] in Hs.
  { injection Hs as <- <- <-. unfold entries_of. cbn. by rewrite !app_nil_r. }
  apply stm_bind_Ok in Hs as (rs1 & [m1 t1] & Ha & Hs). apply stm_bind_Ok in Hs as (more & [m2 t2] & Hs & [= <- <- <-]).
  unfold entries_of. cbn. rewrite !app_assoc. eapply IH, Hs. by eapply written_apply.
Qed.

Lemma open_written group s initial t m t' :
  open group s initial t = Ok (m, t') → written (memory m) s [] [] m t' ∧ data_store m = s ∧ machine_group m = group.
Proof.
  unfold open. intros Ho. apply bind_Ok in Ho as (stored & _ & Ho). apply bind_Ok in Ho as (snapshot & _ & Ho).
  unfold persist_state_sync in Ho. destruct (to_vec (default _ stored)) as [b|] eqn:Hb; [|done].
  destruct (to_vec (membership _)) as [mb|]; [|done]. injection Ho as <- <-. cbn. split_and!; [|done|done].
  eexists [], [], [], [], _, s, b. cbn. rewrite lookup_insert_eq. split_and!; try done; [constructor|constructor|].
  unfold STATE_PERSIST_CADENCE_ENTRIES. lia.
Qed.

Lemma open_reads group s initial t (m : StateMachineStore S) t' b (p : PersistedStateMachine) :
  open group s initial t = Ok (m, t') → state_table t !! group = Some b → from_slice b = Ok p → memory m = p ∧ data_store m = s.
Proof.
  unfold open, read_json_table. intros Ho Ht Hb. rewrite Ht in Ho. cbn in Ho. rewrite Hb in Ho. cbn in Ho.
  apply bind_Ok in Ho as (snapshot & _ & Ho). unfold persist_state_sync in Ho.
  destruct (to_vec p) as [b'|]; [|done]. destruct (to_vec (membership p)) as [mb|]; [|done]. by injection Ho as <- <-.
Qed.

(** C22: a restart loses nothing.  A node opens its state, applies entries of its log in any
    calls, and stops.  Opened again on its tables and blocks, it has a state from fewer
    than 32 entries back; and when the entries behind that are applied again, its state
    is what it was when it stopped, with the responses that were given. *)
Theorem recovery_restores group s initial t m0 t0 calls rs m t1 m1 t2 now rs' m2 t3 :
  open group s initial t = Ok (m0, t0) → follows (applied_index (memory m0)) (entries_of calls) →
  serve calls (m0, t0) = (Ok rs, (m, t1)) → answered rs →
  open group (data_store m) initial t1 = Ok (m1, t2) →
  apply_log now (filter (λ e, applied_index (memory m1) < entry_index e)%N (entries_of calls)) (m1, t2) = (Ok rs', (m2, t3)) →
  memory m2 = memory m ∧ rs' `suffix_of` rs ∧
  (applied_index (memory m) < applied_index (memory m1) + STATE_PERSIST_CADENCE_ENTRIES)%N.
Proof.
  intros Ho Hf Hs Hans Hre Ha. apply open_written in Ho as (Hw & Hds & Hg).
  destruct (written_serve _ _ _ _ _ _ _ _ _ _ Hw Hs) as (es1 & es2 & rs1 & rs2 & q & s1 & b & Hes & Hrs & HA & HB & Hb & Ht & _ & Hlt).
  cbn [app] in Hes, Hrs. assert (machine_group m = group) as Hgm by (rewrite <-Hg; by eapply serve_group).
  rewrite Hgm in Ht. apply from_slice_to_vec in Hb as Hfrom. destruct (open_reads _ _ _ _ _ _ _ _ Hre Ht Hfrom) as [Hm1 Hd1]. rewrite Hm1 in *.
  rewrite Hes in Hf, Ha. destruct (runs_follow _ _ _ _ _ _ _ HA Hf) as (Hf2 & _ & Hle).
  assert (filter (λ e, applied_index q < entry_index e)%N (es1 ++ es2) = es2) as Hpend by (by apply filter_follows).
  rewrite Hpend in Ha. apply apply_log_runs in Ha as (Hrun & _). rewrite Hm1, Hd1 in Hrun.
  assert (keeps s1 (data_store m)) as Hk by (by eapply runs_keeps).
  rewrite Hrs in Hans. apply Forall_app in Hans as [_ Hans].
  destruct (runs_agree _ _ _ _ _ _ _ _ _ _ Hk HB Hans Hrun) as (-> & -> & _). split_and!; [done| |done]. rewrite Hrs. by exists rs1.
Qed.

(** ** Snapshots *)
Context `{!HexLaws} `{!NamespaceJsonLaws} `{!MerkleStoreLaws S} `{Json SnapshotPointer} `{!JsonLaws SnapshotPointer}.
Variable hydrate : Cid → list string → stm S string unit.
(** Fetching a block adds to the store. *)
Hypothesis fetch_keeps : ∀ c nodes (s : S) r s', get_from_replicas c nodes s = (r, s') → keeps s s'.

Lemma on_blocks_Ok {A} wrap (c : stm S string A) m t a h :
  on_blocks wrap c (m, t) = (Ok a, h) →
  ∃ s, c (data_store m) = (Ok a, s) ∧
    h = (mkStateMachine (machine_group m) s (memory m) (current_snapshot m) (shared_epoch m) (last_persisted_applied m), t).
Proof. unfold on_blocks. destruct (c (data_store m)) as [[x|] s]; [|done]. intros [= <- <-]. eauto. Qed.

Lemma on_tables_Ok wrap f (m : StateMachineStore S) t h : on_tables wrap f (m, t) = (Ok (), h) → ∃ t', f m t = Ok t' ∧ h = (m, t').
Proof. unfold on_tables. destruct (f m t) as [t'|]; [|done]. intros [= <-]. eauto. Qed.

Lemma persist_memory (p : PersistedStateMachine) (m : StateMachineStore S) t r m' t' :
  persist_state_sync p (m, t) = (r, (m', t')) → memory m' = memory m ∧ data_store m' = data_store m.
Proof.
  unfold persist_state_sync. destruct (to_vec p); [destruct (to_vec (membership p))|]; by intros [= _ <- _].
Qed.

(** A checkpoint that loads is the state that was written. *)
Lemma checkpoint_is_state (s s1 s2 : S) st at_ c st' :
  write_checkpoint st at_ s = (Ok c, s1) → keeps s1 s2 → load_checkpoint s2 c NamespaceLimits_default = Ok st' → st' = st.
Proof.
  intros Hw Hk Hload. destruct (Z.ltb_spec at_ 0) as [Hneg|Hat].
  { unfold write_checkpoint, write_checkpoint_with_segment_limit in Hw. rewrite (proj2 (Z.ltb_lt _ _) Hneg) in Hw. done. }
  destruct (write_checkpoint_assembles MerkleLimits_default s st at_ CHECKPOINT_SEGMENT_MAX_BYTES Hat) as (r & s' & Hr & _ & Hpost); [done|].
  unfold write_checkpoint in Hw. rewrite Hw in Hr. injection Hr as <- <-. destruct Hpost as (p & Hp & payload & -> & Hall).
  destruct (Hall s2 Hk) as [Hget Has]. unfold load_checkpoint in Hload. rewrite Hget in Hload. cbn [map_err] in Hload.
  apply bind_Ok in Hload as ([] & _ & Hload). apply bind_Ok in Hload as (q & [= <-] & Hload). apply bind_Ok in Hload as ([] & _ & Hload).
  rewrite Has in Hload. apply bind_Ok in Hload as (q & [= <-] & Hload). rewrite (decode_canonical_ok _ p Hp) in Hload.
  apply bind_Ok in Hload as (q & [= <-] & Hload). cbn [checkpoint_state] in Hload.
  repeat (apply bind_Ok in Hload as (? & _ & Hload)). by injection Hload.
Qed.

Lemma build_snapshot_spec now m t meta data m1 t1 :
  build_snapshot hydrate now (m, t) = (Ok (meta, data), (m1, t1)) →
  ∃ c s at_ nodes, write_checkpoint (namespace_state (memory m)) at_ s = (Ok c, data_store m1) ∧
    to_vec (mkPointer c (membership_epoch (memory m)) nodes) = Ok data ∧
    last_log_id meta = last_applied_log (memory m) ∧ last_membership meta = membership (memory m).
Proof.
  unfold build_snapshot. intros Hb. apply stm_bind_Ok in Hb as (p & h1 & [= <- <-] & Hb).
  apply stm_bind_Ok in Hb as ([] & [m2 t2] & Hp & Hb). destruct (persist_state_sync _ (m, t)) as [r [m3 t3]] eqn:Hpers.
  injection Hp as _ -> ->. apply persist_memory in Hpers as [Hm Hd].
  apply stm_bind_Ok in Hb as ([] & h3 & (s3 & _ & ->)%on_blocks_Ok & Hb).
  apply stm_bind_Ok in Hb as (c & h4 & (s4 & Hw & ->)%on_blocks_Ok & Hb). cbn [data_store] in Hw.
  unfold textual in Hw. destruct (write_checkpoint _ _ s3) as [[c'|] s5] eqn:Hwc; [|done]. injection Hw as -> ->.
  apply stm_bind_Ok in Hb as (d & h5 & Hdata & Hb). unfold lift in Hdata. injection Hdata as Hdata <-.
  apply stm_bind_Ok in Hb as ([] & h6 & (t6 & _ & ->)%on_tables_Ok & Hb).
  apply stm_bind_Ok in Hb as ([] & h7 & [= <-] & [= <- <- <- <-]). cbn.
  destruct (to_vec (mkPointer _ _ _)) as [d'|] eqn:Hv; [|done]. injection Hdata as <-. eauto 10.
Qed.

Lemma install_spec meta data now m t m1 t1 :
  install_snapshot hydrate meta data now (m, t) = (Ok (), (m1, t1)) →
  ∃ pointer st s, from_slice data = Ok pointer ∧ keeps (data_store m) s ∧
    load_checkpoint s (pointer_checkpoint pointer) NamespaceLimits_default = Ok st ∧
    memory m1 = mkPersisted (last_log_id meta) (pointer_epoch pointer) (last_membership meta) st ∧
    last_persisted_applied m1 = applied_index (memory m1) ∧
    ∃ b, to_vec (memory m1) = Ok b ∧ state_table t1 !! machine_group m = Some b.
Proof.
  unfold install_snapshot. intros Hi. apply stm_bind_Ok in Hi as ([] & h1 & [_ <-]%lift_inv & Hi).
  apply stm_bind_Ok in Hi as (pointer & h2 & [Hp <-]%lift_inv & Hi). apply stm_bind_Ok in Hi as ([] & h3 & [_ <-]%lift_inv & Hi).
  apply stm_bind_Ok in Hi as (payload & h4 & (s4 & Hget & ->)%on_blocks_Ok & Hi).
  apply stm_bind_Ok in Hi as (st & h5 & (s5 & Hload & ->)%on_blocks_Ok & Hi). cbn [data_store] in Hload.
  unfold textual, reads in Hload. destruct (load_checkpoint s4 _ _) as [st'|] eqn:Hl; [|done]. injection Hload as -> ->.
  apply stm_bind_Ok in Hi as ([] & h6 & (s6 & _ & ->)%on_blocks_Ok & Hi). cbn [data_store] in Hi.
  apply stm_bind_Ok in Hi as ([] & h7 & (t7 & Ht & ->)%on_tables_Ok & [= <- <-]). cbn in *.
  destruct (from_slice data) as [q|] eqn:Hq; [|done]. injection Hp as ->.
  exists pointer, st, s5. split_and!; [done|by eapply fetch_keeps|done|done|done|].
  unfold persist_installed_snapshot_sync in Ht. apply bind_Ok in Ht as (b & Hb & Ht). exists b.
  apply bind_Ok in Ht as (mb & _ & Ht). apply bind_Ok in Ht as (sb & _ & [= <-]). cbn. rewrite lookup_insert_eq. split; [|done].
  by destruct (to_vec _) as [?|] eqn:Hv; [injection Hb as ->|].
Qed.

End Facts.
