(* ===== verification/ConsensusExamples.v ===== *)
(** * A replica at work

    One voter of a namespace that keeps one revision, on the reference serializers and
    block store: it opens, applies two writes, is stopped and opened again, and sends its
    snapshot to another replica.  The theorems on replicas and logs are applied to it. *)
From stdpp Require Import base gmap sets list strings sorting.
From Stdlib Require Import Strings.Byte.
From S2P Require Import Prelude Types Merkle Reference MerkleTree MerkleRefinement Namespace NamespaceCheckpoints NamespaceReference.
From S2P Require Import Pins Consensus ConsensusLog ConsensusFacts.

(** ** Reference instances *)

#[export] Instance ref_raft : Openraft := {|
  Vote := N;
  Membership := list (N * string);
  default_membership := [];
  voter_ids m := m.*1;
  member_nodes m := m;
  log_id_to_string id := fmt_radix 10 (log_index id)
|}.

#[export] Instance LogId_ser : Ser LogId.
Proof. refine (inj_ser (B := N * N * N) (λ i, (leader_term i, leader_node i, log_index i)) (λ '(t, n, i), mkLogId t n i) _). by intros []. Defined.

#[export] Instance Entry_ser : Ser Entry.
Proof.
  refine (inj_ser (B := LogId * (option (list CommandEnvelope) + list (N * string)))
    (λ e, (entry_log_id e, match entry_payload e with Blank => inl None | Normal cs => inl (Some cs) | MembershipChange m => inr m end))
    (λ '(i, x), mkEntry i match x with inl None => Blank | inl (Some cs) => Normal cs | inr m => MembershipChange m end) _).
  by intros [? []].
Defined.

#[export] Instance StoredMembership_ser : Ser StoredMembership.
Proof.
  refine (inj_ser (B := option LogId * list (N * string)) (λ m, (membership_log_id m, stored_membership m)) (λ '(i, m), mkStoredMembership i m) _). by intros [].
Defined.

#[export] Instance Persisted_ser : Ser PersistedStateMachine.
Proof.
  refine (inj_ser (B := option LogId * N * StoredMembership * NamespaceState) (λ p, (last_applied_log p, membership_epoch p, membership p, namespace_state p)) (λ '(l, e, m, s), mkPersisted l e m s) _).
  by intros [].
Defined.

#[export] Instance Pointer_ser : Ser SnapshotPointer.
Proof.
  refine (inj_ser (B := Cid * N * list string) (λ p, (pointer_checkpoint p, pointer_epoch p, replica_node_ids p)) (λ '(c, e, r), mkPointer c e r) _). by intros [].
Defined.

#[export] Instance Snapshot_ser : Ser StoredSnapshotRecord.
Proof.
  refine (inj_ser (B := option LogId * StoredMembership * string * SnapshotPointer)
    (λ r, (last_log_id (snapshot_meta r), last_membership (snapshot_meta r), snapshot_id (snapshot_meta r), snapshot_pointer r))
    (λ '(l, m, i, p), mkSnapshotRecord (mkMeta l m i) p) _).
  by intros [[] ?].
Defined.

#[export] Existing Instances ref_blake3 ref_hex ref_blake3_laws ref_hex_laws ref_store ref_store_laws
  ref_namespace_json ref_namespace_json_laws.
#[export] Instance any_json {A} `{Ser A} : Json A := ref_json.
#[export] Instance any_json_laws {A} `{Ser A} : JsonLaws A := ref_json_laws.

#[export] Instance ref_backend : ConsensusDataBackend (gmap Cid bytes) := {|
  backend_store := ref_store;
  put_batch := default_put_batch;
  get_from_replicas := default_get_from_replicas
|}.

(** ** The sample *)

Definition kept_once : NamespaceDescriptor :=
  mkDescriptor DESCRIPTOR_TYPE FORMAT_VERSION Kv ["n1"] 1 1 ∅ (mkDurability 1) (mkRetention 1 None) None 5 "ops" "ab".

Definition value_cid (n : N) : Cid := Cid_new 0 [match n with 0%N => x00 | 1%N => x01 | _ => x02 end].

Definition born := create_namespace (S := gmap Cid bytes) kept_once NamespaceLimits_default MerkleLimits_default ∅.

Definition state_of (r : result NamespaceError CreatedNamespace) : NamespaceState :=
  match r with
  | Ok c => created_state c
  | Err _ => mkNamespaceState (mkNamespaceId (value_cid 0)) kept_once 0 (value_cid 0) None ∅ ∅ ∅
  end.

Definition genesis : NamespaceState := state_of born.1.

Definition group : string := Cid_to_string (id_cid (namespace_id genesis)).
Definition no_tables : ConsensusTables := mkTables ∅ ∅ ∅ ∅ ∅ ∅ ∅.

Definition machine_of (x : result ConsensusError (Host (S := gmap Cid bytes))) : Host :=
  match x with
  | Ok h => h
  | Err _ => (mkStateMachine "" ∅ (mkPersisted None 0 (mkStoredMembership None []) genesis) None 0 0, no_tables)
  end.

Definition opened := open group born.2 genesis no_tables.
Definition host0 : Host := machine_of opened.

Definition put (id : string) (at_ : NamespaceState) (n : N) (p : KeyPrecondition) : CommandEnvelope :=
  mkEnvelope id "ops" 7 "ab" (ApplyTransaction (mkTransactionCommand (current_revision at_) (current_root_cid at_)
    [Put (hex_encode [x61]) (value_cid n) "object" ∅ p] None)).

Definition log_entry (i : N) (c : CommandEnvelope) : Entry := mkEntry (mkLogId 1 1 i) (Normal [c]).

Definition first : Entry := log_entry 1 (put "r1" genesis 1 Absent).
Definition served1 := apply_log (S := gmap Cid bytes) 10 [first] host0.
Definition state1 : NamespaceState := namespace_state (memory served1.2.1).
Definition second : Entry := log_entry 2 (put "r2" state1 2 Any).

Definition sample_calls : list (Z * list Entry) := [(10%Z, [first]); (20%Z, [second])].
Definition served := serve sample_calls host0.

(** ** The theorems on the sample *)

Definition answer_of {E A B} (d : A) (x : result E A * B) : A := match x.1 with Ok a => a | Err _ => d end.

Lemma ran {E A B C} (d : A) (x : result E A * (B * C)) : is_Ok x.1 = true → x = (Ok (answer_of d x), (x.2.1, x.2.2)).
Proof. by destruct x as [[a|e] [b c]]. Qed.

Lemma ran_unit {E B C} (x : result E unit * (B * C)) : is_Ok x.1 = true → x = (Ok (), (x.2.1, x.2.2)).
Proof. by destruct x as [[[]|e] [b c]]. Qed.

#[export] Instance ref_backend_laws : BackendLaws (S := gmap Cid bytes).
Proof.
  assert (∀ (s1 s2 : gmap Cid bytes) k p c1 c2 t1 t2, keeps s1 s2 → store_put k p s1 = (Ok c1, t1) → store_put k p s2 = (Ok c2, t2) → keeps t1 t2) as Hput.
  { intros s1 s2 k p c1 c2 t1 t2 Hk H1 H2 c q Hq. destruct (decide (c = c1)) as [->|Hne].
    - assert (c1 = c2) as -> by (cbn in H1, H2; repeat case_match; naive_solver).
      rewrite (put_get _ _ _ _ _ H1) in Hq. injection Hq as <-. by eapply put_get.
    - eapply put_keeps; [exact H2|]. apply Hk. cbn in H1, Hq |- *. repeat case_match; simplify_eq; try done.
      all: by rewrite lookup_insert_ne in * by done; simplify_eq. }
  split; cbn [put_batch ref_backend].
  - induction blocks as [|[k p] blocks IH]; intros s r t Hb; cbn [default_put_batch] in Hb; [by injection Hb as _ <-|].
    unfold mbind, stm_bind in Hb. destruct (store_put k p s) as [[c|e] s1] eqn:Hp; [|injection Hb as _ <-];
      assert (keeps s s1) as Hk by (intros d q; by eapply put_keeps); [|done].
    destruct (default_put_batch blocks s1) as [[cs|e] s2] eqn:Hd; injection Hb as _ <-; etrans; [exact Hk|by eapply IH|exact Hk|by eapply IH].
  - induction blocks as [|[k p] blocks IH]; intros s1 s2 c1 c2 t1 t2 Hk H1 H2; cbn [default_put_batch] in H1, H2; [by injection H1 as _ <-; injection H2 as _ <-|].
    apply stm_bind_Ok in H1 as (d1 & u1 & P1 & H1). apply stm_bind_Ok in H2 as (d2 & u2 & P2 & H2).
    apply stm_bind_Ok in H1 as (e1 & v1 & Q1 & [= _ <-]). apply stm_bind_Ok in H2 as (e2 & v2 & Q2 & [= _ <-]).
    eapply IH; [|exact Q1|exact Q2]. by eapply Hput.
Qed.

(** No response says that a block is missing. *)
Lemma answered_all rs : forallb (forallb (λ r, bool_decide (consensus_error r = None))) rs = true → answered rs.
Proof.
  intros Hall. unfold answered. apply Forall_forall. intros l Hl. apply Forall_forall. intros r Hr (e & _ & ->).
  apply forallb_forall with (x := l) in Hall; [|by apply list_elem_of_In]. apply forallb_forall with (x := application_error e) in Hall; [|by apply list_elem_of_In].
  done.
Qed.

Lemma keeps_more (s : gmap Cid bytes) c p : s !! c = None → keeps s (<[c := p]> s).
Proof. intros Hc d q. cbn. destruct (decide (d = c)) as [->|Hne]; [by rewrite Hc|by rewrite lookup_insert_ne]. Qed.

(** The second replica has a block more and gets both entries at once. *)
Definition with_block (c : Cid) (p : bytes) (m : StateMachineStore (gmap Cid bytes)) : StateMachineStore (gmap Cid bytes) :=
  mkStateMachine (machine_group m) (<[c := p]> (data_store m)) (memory m) None 1 0.

Lemma with_block_same c p m : memory m = memory (with_block c p m).
Proof. reflexivity. Qed.

Lemma with_block_keeps c p m : data_store m !! c = None → keeps (data_store m) (data_store (with_block c p m)).
Proof. apply keeps_more. Qed.

Definition other_replica : StateMachineStore (gmap Cid bytes) := with_block (value_cid 1) [x01] host0.1.
Definition other_served := serve [(99%Z, [first; second])] (other_replica, no_tables).

Lemma replicas_agree_witness :
  memory served.2.1 = memory other_served.2.1 ∧ current_revision (namespace_state (memory other_served.2.1)) = 2%N.
Proof.
  split; [|vm_compute; reflexivity].
  refine (proj1 (replicas_agree host0.1 host0.2 sample_calls (answer_of [] served) served.2.1 served.2.2
    other_replica no_tables [(99%Z, [first; second])] (answer_of [] other_served) other_served.2.1 other_served.2.2 _ _ _ _ _ _)).
  - apply with_block_same.
  - apply with_block_keeps. vm_compute. reflexivity.
  - unfold entries_of, sample_calls. cbn [fmap list_fmap concat app snd]. reflexivity.
  - rewrite <-surjective_pairing. apply ran. vm_compute. reflexivity.
  - apply answered_all. vm_compute. reflexivity.
  - apply ran. vm_compute. reflexivity.
Defined.

(** The node restarts after both entries, none of which is in the state it wrote. *)
Definition reopened := open group (data_store served.2.1) genesis served.2.2.
Definition host1 : Host := machine_of reopened.
Definition replayed_log := apply_log (S := gmap Cid bytes) 30 [first; second] host1.

Lemma opened_is x : is_Ok x = true → x = Ok ((machine_of x).1, (machine_of x).2).
Proof. by destruct x as [[m t]|e]. Qed.

Lemma host1_starts : filter (λ e, applied_index (memory host1.1) < entry_index e)%N (entries_of sample_calls) = [first; second].
Proof.
  assert (applied_index (memory host1.1) = 0%N) as -> by (vm_compute; reflexivity).
  unfold entries_of, sample_calls. cbn [fmap list_fmap concat app snd]. by rewrite !filter_cons_True by done.
Qed.

Lemma recovery_restores_witness :
  memory replayed_log.2.1 = memory served.2.1 ∧ applied_index (memory host1.1) = 0%N.
Proof.
  split; [|vm_compute; reflexivity].
  refine (proj1 (recovery_restores group born.2 genesis no_tables host0.1 host0.2 sample_calls (answer_of [] served) served.2.1 served.2.2
    host1.1 host1.2 30 (answer_of [] replayed_log) replayed_log.2.1 replayed_log.2.2 _ _ _ _ _ _)).
  - apply opened_is. vm_compute. reflexivity.
  - repeat constructor.
  - rewrite <-surjective_pairing. apply ran. vm_compute. reflexivity.
  - apply answered_all. vm_compute. reflexivity.
  - apply opened_is. vm_compute. reflexivity.
  - rewrite <-surjective_pairing, host1_starts. apply (ran []). vm_compute. reflexivity.
Defined.

(** ** A snapshot *)

(** Both replicas have every block. *)
Definition hydrated (_ : Cid) (_ : list string) : stm (gmap Cid bytes) string unit := λ s, (Ok (), s).

Definition built := build_snapshot (S := gmap Cid bytes) hydrated 40 served.2.
Definition no_snapshot : SnapshotMeta * bytes := (mkMeta None (mkStoredMembership None []) "", []).
Definition snapshot : SnapshotMeta * bytes := answer_of no_snapshot built.

(** A replica that has applied nothing. *)
Definition empty_on (s : gmap Cid bytes) : StateMachineStore (gmap Cid bytes) := mkStateMachine group s (memory host0.1) None 1 0.

Lemma empty_on_keeps s : keeps s (data_store (empty_on s)).
Proof. by intros c p. Qed.

Definition newcomer : StateMachineStore (gmap Cid bytes) := empty_on (data_store built.2.1).
Definition installed := install_snapshot (S := gmap Cid bytes) hydrated snapshot.1 snapshot.2 50 (newcomer, no_tables).

Lemma fetches_nothing (c : Cid) (nodes : list string) (s : gmap Cid bytes) (r : result string bytes) (s' : gmap Cid bytes) :
  get_from_replicas c nodes s = (r, s') → keeps s s'.
Proof. by intros [= _ <-]. Qed.


(** ** A log *)

Lemma performed ops t op l :
  log_history ops t → is_Ok (perform op (l, t)).1 = true → plain (log_group l) → fits op →
  log_history (ops ++ [(log_group l, op)]) (perform op (l, t)).2.2.
Proof.
  intros Hh Hok Hp Hf. destruct (perform op (l, t)) as [[[]|e] [l' t']] eqn:Hstep; [|done].
  by apply (history_done ops t op l l').
Qed.

Definition ours : LogStore := LogStore_new group 1000000.
Definition theirs : LogStore := LogStore_new "other" 1000000.

Definition ballot : @Vote ref_raft := 3%N.

Definition sample_ops : list (string * log_op) :=
  [(group, Append [first; second] 10); ("other", Append [first] 11); (group, SaveVote ballot); (group, Purge (mkLogId 1 1 1))].

Definition log1 := (perform (Append [first; second] 10) (ours, no_tables)).2.2.
Definition log2 := (perform (Append [first] 11) (theirs, log1)).2.2.
Definition log3 := (perform (SaveVote ballot) (ours, log2)).2.2.
Definition log4 := (perform (Purge (mkLogId 1 1 1)) (ours, log3)).2.2.

Lemma group_plain : plain group.
Proof. apply cid_plain. Qed.

Lemma fits_append es now : forallb (λ e, entry_at e <=? u64_max)%N es = true → fits (Append es now).
Proof. intros Hall. apply Forall_forall. intros e He. apply N.leb_le. by eapply forallb_forall in Hall; [|apply list_elem_of_In]. Qed.

Lemma sample_spec g e1 e2 :
  g ≠ "other" → entry_at e1 = 1%N → entry_at e2 = 2%N →
  spec_log g [(g, Append [e1; e2] 10); ("other", Append [e1] 11); (g, SaveVote ballot); (g, Purge (mkLogId 1 1 1))]
  = mkAbstract {[2%N := e2]} (Some (mkLogId 1 1 1)) (Some ballot).
Proof.
  intros Hg H1 H2. unfold spec_log. cbn [foldl fst snd].
  rewrite (bool_decide_eq_true_2 (g = g)) by done. rewrite (bool_decide_eq_false_2 ("other" = g)) by done.
  cbn [spec_op log_entries purged voted appended foldl log_index]. unfold entry_at in H1, H2 |- *. rewrite H1, H2. reflexivity.
Qed.

Lemma log_refines_witness :
  (∃ es, read_logs group (mkRange Unbounded Unbounded) log4 = Ok es ∧ log_slice {[2%N := second]} (mkRange Unbounded Unbounded) es) ∧
  read_vote group log4 = Ok (Some ballot).
Proof.
  destruct (log_refines group sample_ops log4) as (Hread & _ & Hvote).
  - assert (log_history [] no_tables) as H0 by (by constructor).
    assert (log_history [(group, Append [first; second] 10)] log1) as H1.
    { apply (performed [] no_tables (Append [first; second] 10) ours H0); [vm_compute; reflexivity|apply group_plain|apply fits_append; reflexivity]. }
    assert (log_history [(group, Append [first; second] 10); ("other", Append [first] 11)] log2) as H2.
    { apply (performed _ log1 (Append [first] 11) theirs H1); [vm_compute; reflexivity|done|apply fits_append; reflexivity]. }
    assert (log_history [(group, Append [first; second] 10); ("other", Append [first] 11); (group, SaveVote ballot)] log3) as H3.
    { apply (performed _ log2 (SaveVote ballot) ours H2); [vm_compute; reflexivity|apply group_plain|done]. }
    apply (performed _ log3 (Purge (mkLogId 1 1 1)) ours H3); [vm_compute; reflexivity|apply group_plain|done].
  - apply group_plain.
  - pose proof (sample_spec group first second ltac:(intros Heq; vm_compute in Heq; discriminate) eq_refl eq_refl) as Hs.
    fold sample_ops in Hs.
    rewrite Hs in Hread, Hvote. split; [by apply (Hread (mkRange Unbounded Unbounded))|exact Hvote].
Defined.
