(* ===== verification/Publication.v ===== *)
(** * Publication (crates/pepper-publication)

    The shared path by which namespace writes are published: staging leases, pins and
    intents in the metadata database, durability receipts with their cache, the barrier
    that makes every block of a command durable before its proposal, and the workflow
    that the commit engine runs.  The durability backend, the proposer, the namespace
    state, the block store and the fault injectors are services of the node. *)
From stdpp Require Import base gmap sets list strings sorting.
From Stdlib Require Import Strings.Byte.
From S2P Require Import Prelude Types Merkle Dag Namespace Commit Pins Consensus.

#[export] Instance PlacementReference_eq_dec : EqDecision PlacementReference.
Proof. solve_decision. Defined.

(** ** Limits and records *)

Record PublicationLimits := mkPublicationLimits {
  max_staging_leases : N;
  max_staging_roots : N;
  max_staging_bytes : N;
  max_staging_ttl_seconds : Z;
  max_read_ttl_seconds : Z;
  max_dag_blocks : N;
  max_dag_depth : N;
  max_dag_links : N;
  max_dag_payload_bytes : N
}.

Definition PublicationLimits_default : PublicationLimits :=
  mkPublicationLimits 10000 10000 (16 * 1024 * 1024 * 1024) (15 * 60) (60 * 60) 1000000 1024 4000000 (16 * 1024 * 1024 * 1024).

Definition PublicationLimits_validate (l : PublicationLimits) : result PublicationError PublicationLimits :=
  _ ← fail_if ((max_staging_leases l =? 0)%N || (max_staging_roots l =? 0)%N || (max_staging_bytes l =? 0)%N
               || (max_staging_ttl_seconds l <=? 0)%Z || (max_read_ttl_seconds l <=? 0)%Z || (max_dag_blocks l =? 0)%N
               || (max_dag_depth l =? 0)%N || (max_dag_links l =? 0)%N || (max_dag_payload_bytes l =? 0)%N) PublicationInvalidLimits;
  Ok l.

(** [usize] has 64 bits. *)
Definition traversal (l : PublicationLimits) : TraversalLimits :=
  mkTraversalLimits (max_dag_depth l) (max_dag_blocks l) (max_dag_links l) (max_dag_links l)
    (N.min (max_dag_payload_bytes l) u64_max) (max_dag_payload_bytes l).

Record StagingLease := mkLease {
  lease_id : string;
  lease_namespace : NamespaceId;
  lease_request : string;
  lease_roots : list Cid;
  staged_bytes : N;
  lease_created_at : Z;
  lease_expires_at : Z;
  lease_status : string
}.

Record ReadLease := mkReadLease {
  read_lease_id : string;
  read_namespace : NamespaceId;
  read_root : Cid;
  read_revision : N;
  read_created_at : Z;
  read_expires_at : Z
}.

Record StoredDurabilityReceipt := mkStored {
  stored_namespace : NamespaceId;
  stored_request : string;
  stored_receipt : DurabilityReceipt;
  verified_at : Z
}.

Record PublicationOperationalStats := mkOperationalStats {
  active_staging_leases : N;
  active_staging_bytes : N;
  active_read_lease_count : N;
  pending_pin_intents : N;
  durability_receipt_count : N
}.

Record PublicationRequest := mkPublicationRequest {
  publication_namespace : NamespaceId;
  publication_command : CommandEnvelope;
  uploaded_roots : list Cid;
  preverified_durability : list DurabilityReceipt;
  metadata_only_cids : list Cid;
  request_staged_bytes : N;
  staging_ttl_seconds : Z;
  retain_uploaded_on_conflict : bool;
  required_replicas : option N
}.

Inductive PublicationGuard :=
| NoGuard
| ApplicationGuard (kind : string) (payload : bytes).

Record PublicationResult := mkPublicationResult {
  published : ApplyResult;
  published_durability : list DurabilityReceipt;
  staging_lease_id : string
}.

(** The metadata database and the receipts in memory.  The tables of intents and the log
    of the namespace groups are the consensus layer's. *)
Record Metadata := mkMetadata {
  pin_tables : PinTables;
  staging_table : gmap string StagingLease;
  read_lease_table : gmap string ReadLease;
  receipt_table : gmap string StoredDurabilityReceipt;
  consensus_tables : ConsensusTables;
  recent_receipts : gmap string StoredDurabilityReceipt
}.

Definition set_pins (t : PinTables) (m : Metadata) : Metadata :=
  mkMetadata t (staging_table m) (read_lease_table m) (receipt_table m) (consensus_tables m) (recent_receipts m).
Definition set_staging (t : gmap string StagingLease) (m : Metadata) : Metadata :=
  mkMetadata (pin_tables m) t (read_lease_table m) (receipt_table m) (consensus_tables m) (recent_receipts m).
Definition set_read_leases (t : gmap string ReadLease) (m : Metadata) : Metadata :=
  mkMetadata (pin_tables m) (staging_table m) t (receipt_table m) (consensus_tables m) (recent_receipts m).
Definition set_receipts (t recent : gmap string StoredDurabilityReceipt) (m : Metadata) : Metadata :=
  mkMetadata (pin_tables m) (staging_table m) (read_lease_table m) t (consensus_tables m) recent.
Definition set_consensus (t : ConsensusTables) (m : Metadata) : Metadata :=
  mkMetadata (pin_tables m) (staging_table m) (read_lease_table m) (receipt_table m) t (recent_receipts m).

Definition intent_table (m : Metadata) : gmap string PublicationIntentRecord := live_intents (consensus_tables m).
Definition intent_history (m : Metadata) : gmap string PublicationIntentRecord := retired_intents (consensus_tables m).
Definition set_intents (live history : gmap string PublicationIntentRecord) (m : Metadata) : Metadata :=
  set_consensus (set_group_intents live history (consensus_tables m)) m.

Definition APPLIED_INTENT_BARRIER_SECONDS : Z := 60 * 60.
Definition RECEIPT_REUSE_WINDOW_SECONDS : Z := 10 * 60.

(** [a - b] in a release build. *)
Definition wrapping_sub_i64 (a b : Z) : Z := ((a - b - i64_min) mod 2 ^ 64 + i64_min)%Z.

(** The values of a table in the order of its keys. *)
Definition table_values {A} (t : gmap string A) : list A := (btree_iter t).*2.

(** ** The repository *)

Section Repository.
Context `{Hex}.
Variable limits : PublicationLimits.
Implicit Types m : Metadata.

Definition active_staging (now : Z) m : list StagingLease :=
  filter (λ l, bool_decide (lease_status l = "active") && (now <? lease_expires_at l)%Z) (table_values (staging_table m)).

(** The admission limits of a lease. *)
Definition staging_refused (lease : StagingLease) m : bool :=
  (max_staging_roots limits <? len (lease_roots lease))%N || (max_staging_bytes limits <? staged_bytes lease)%N
  || (lease_expires_at lease <=? lease_created_at lease)%Z
  || (max_staging_ttl_seconds limits <? wrapping_sub_i64 (lease_expires_at lease) (lease_created_at lease))%Z
  || (max_staging_leases limits <=? len (active_staging (lease_created_at lease) m))%N.

Definition put_staging (lease : StagingLease) : stm Metadata PublicationError unit := λ m,
  if staging_refused lease m then (Err StagingUnavailable, m)
  else (Ok (), set_staging (<[lease_id lease := lease]> (staging_table m)) m).

Definition put_staging_with_pins (lease : StagingLease) (ps : list PinRecord) : stm Metadata PublicationError unit := λ m,
  if staging_refused lease m then (Err StagingUnavailable, m)
  else match insert_all ps (pin_tables m) with
       | Ok t => (Ok (), set_pins t (set_staging (<[lease_id lease := lease]> (staging_table m)) m))
       | Err e => (Err (Protection (MetadataError_to_string e)), m)
       end.

Definition remove_staging (id : string) m : Metadata := set_staging (delete id (staging_table m)) m.
Definition update_staging (lease : StagingLease) m : Metadata := set_staging (<[lease_id lease := lease]> (staging_table m)) m.
Definition staging (id : string) m : option StagingLease := staging_table m !! id.

Definition put_read_lease (lease : ReadLease) : stm Metadata PublicationError unit := λ m,
  if (read_expires_at lease <=? read_created_at lease)%Z
     || (max_read_ttl_seconds limits <? wrapping_sub_i64 (read_expires_at lease) (read_created_at lease))%Z
  then (Err TransactionExpired, m)
  else (Ok (), set_read_leases (<[read_lease_id lease := lease]> (read_lease_table m)) m).

Definition active_read_leases (now : Z) m : list ReadLease :=
  filter (λ l, (now < read_expires_at l)%Z) (table_values (read_lease_table m)).

Definition pending_intents m : list PublicationIntentRecord :=
  filter (λ i, intent_status i = "pending") (table_values (intent_table m)).

Definition operational_stats (now : Z) m : PublicationOperationalStats :=
  let leases := filter (λ l, (now ≤ lease_expires_at l)%Z ∧ lease_status l = "active") (table_values (staging_table m)) in
  mkOperationalStats (len leases) (foldl (λ n l, wrapping_add u64_max n (staged_bytes l)) 0%N leases) (len (active_read_leases now m))
    (len (pending_intents m)) (len (table_values (receipt_table m))).

(** [intents.sort_by(intent_id)], stable: a live record before its history. *)
Definition intent_before (a b : PublicationIntentRecord) : Prop :=
  bytes_leb (as_bytes (intent_id a)) (as_bytes (intent_id b)) = true.

#[local] Instance intent_before_dec : RelDecision intent_before.
Proof. intros a b. unfold intent_before. apply _. Defined.

Definition all_intents m : list PublicationIntentRecord :=
  merge_sort intent_before (table_values (intent_table m) ++ table_values (intent_history m)).

Definition with_status (status : string) (i : PublicationIntentRecord) : PublicationIntentRecord :=
  mkIntent (intent_id i) (intent_namespace i) (intent_log_index i) (intent_request i) (intent_cid i) (intent_action i) (intent_reason i)
    status (intent_created_at i).

(** [history.insert(..)] and [live.remove(..)] of one record. *)
Definition retire_one (i : PublicationIntentRecord) m : Metadata :=
  set_intents (delete (intent_id i) (intent_table m)) (<[intent_id i := i]> (intent_history m)) m.

Definition retire_intents (intents : list PublicationIntentRecord) (status : string) m : Metadata :=
  foldl (λ m i, retire_one (with_status status i) m) m intents.

Definition mark_intent_resolved (i : PublicationIntentRecord) m : Metadata := retire_one (with_status "resolved" i) m.
Definition mark_intent_applied (i : PublicationIntentRecord) m : Metadata := retire_one (with_status "applied" i) m.

(** Chunks of 50000 records until none is left. *)
Definition migrate_terminal_intents m : Metadata :=
  foldl (λ m i, retire_one i m) m (filter (λ i, intent_status i ≠ "pending") (table_values (intent_table m))).

Definition prune_intent_history (now : Z) m : Metadata :=
  let horizon := saturating_sub_i64 now (APPLIED_INTENT_BARRIER_SECONDS * 24) in
  let stale := intent_id <$> filter (λ i, (intent_created_at i < horizon)%Z) (table_values (intent_history m)) in
  set_intents (intent_table m) (foldl (λ t id, delete id t) (intent_history m) stale) m.

(** *** Receipts *)

Definition receipt_key (r : StoredDurabilityReceipt) : string :=
  Cid_to_string (id_cid (stored_namespace r)) +:+ "|" +:+ stored_request r +:+ "|" +:+ Cid_to_string (receipt_cid (stored_receipt r)).

Definition purge_stale_durability_receipts (now : Z) m : Metadata :=
  let stale := receipt_key <$> filter (λ r, (verified_at r < saturating_sub_i64 now RECEIPT_REUSE_WINDOW_SECONDS)%Z) (table_values (receipt_table m)) in
  set_receipts (foldl (λ t k, delete k t) (receipt_table m) stale) (recent_receipts m) m.

Definition purge_terminal_staging_leases m : Metadata :=
  let terminal := lease_id <$> filter (λ l, lease_status l ≠ "active") (table_values (staging_table m)) in
  set_staging (foldl (λ t k, delete k t) (staging_table m) terminal) m.

(** [PublicationRepository::new] on a database. *)
Definition boot (now : Z) m : Metadata :=
  purge_stale_durability_receipts now (purge_terminal_staging_leases (migrate_terminal_intents
    (set_receipts (receipt_table m) ∅ m))).

Definition receipt_matches (cid : Cid) (placement : option PlacementReference) (required : N) (now : Z) (r : StoredDurabilityReceipt) : bool :=
  bool_decide (receipt_cid (stored_receipt r) = cid)
  && is_none_or (λ expected, bool_decide (receipt_placement (stored_receipt r) = Some expected)) placement
  && (required <=? replicas_accepted (stored_receipt r))%N
  && bool_decide (receipt_status (stored_receipt r) = "durable")
  && (saturating_sub_i64 now RECEIPT_REUSE_WINDOW_SECONDS <=? verified_at r)%Z.

(** [max_by_key(verified_at)]: the last of the newest.  The order of a [HashMap] is
    not specified; the keys' is as good as any. *)
Fixpoint newest (l : list StoredDurabilityReceipt) : option StoredDurabilityReceipt :=
  match l with
  | [] => None
  | r :: l => match newest l with
              | Some s => if (verified_at s <? verified_at r)%Z then Some r else Some s
              | None => Some r
              end
  end.

Definition durable_receipt (cid : Cid) (placement : option PlacementReference) (required : N) (now : Z)
    : stm Metadata PublicationError (option DurabilityReceipt) := λ m,
  let find recent := stored_receipt <$> newest (filter (receipt_matches cid placement required now) (table_values recent)) in
  if negb (bool_decide (recent_receipts m = ∅)) then (Ok (find (recent_receipts m)), m)
  else
    let recent := foldl (λ t r, <[receipt_key r := r]> t) (recent_receipts m) (table_values (receipt_table m)) in
    (Ok (find recent), set_receipts (receipt_table m) recent m).

Definition put_durability_batch (records : list StoredDurabilityReceipt) m : Metadata :=
  let add t := foldl (λ t r, <[receipt_key r := r]> t) t records in
  let horizon := saturating_sub_i64 (match verified_at <$> records with [] => 0%Z | v :: vs => foldl Z.max v vs end)
                   RECEIPT_REUSE_WINDOW_SECONDS in
  set_receipts (add (receipt_table m)) (filter (λ kr, (horizon ≤ verified_at kr.2)%Z) (add (recent_receipts m))) m.

(** *** What garbage collection must keep besides the pins *)

Definition intent_barrier (now : Z) (i : PublicationIntentRecord) : bool :=
  match intent_action i with Protect => true | Release => false end
  && (bool_decide (intent_status i = "pending")
      || bool_decide (intent_status i = "applied") && (saturating_sub_i64 now APPLIED_INTENT_BARRIER_SECONDS <=? intent_created_at i)%Z).

Definition protected_roots (now : Z) m : gset Cid :=
  list_to_set (concat (lease_roots <$> active_staging now m))
  ∪ list_to_set (read_root <$> active_read_leases now m)
  ∪ list_to_set (intent_cid <$> filter (intent_barrier now) (table_values (intent_table m) ++ table_values (intent_history m))).

End Repository.

(** ** Commands *)

Definition command_value_cids (envelope : CommandEnvelope) : list Cid :=
  match command envelope with
  | ApplyTransaction t => omap (λ mu, match mu with Put _ value_cid _ _ _ => Some value_cid | _ => None end) (mutations t)
  | _ => []
  end.

Definition response_to_apply (r : ConsensusResponse) : result PublicationError ApplyResult :=
  match consensus_error r with
  | Some message =>
      let code := default "invalid_namespace_command" (error_code r) in
      if bool_decide (code ∈ ["generation_conflict"; "idempotency_conflict"; "stale_snapshot"; "no_changes"])
      then Err (PublicationConflict message)
      else Err (Application code message)
  | None => ok_or (consensus_result r) (NamespaceFailed "consensus returned no namespace result")
  end.

Definition validate_publication_guard (g : PublicationGuard) : result PublicationError unit :=
  match g with
  | NoGuard => Ok ()
  | ApplicationGuard kind payload =>
      fail_if (bool_decide (kind = "") || (128 <? slen kind)%N || (64 * 1024 <? len payload)%N)
        (Application "invalid_publication_guard" "application publication guard exceeds its bounds")
  end.

(** [DagError]'s [Display] *)
Definition DagError_to_string (e : DagError) : string :=
  let n := fmt_radix 10 in
  match e with
  | DagInvalidLimits => "invalid zero-valued DAG traversal limit"
  | UnsupportedCodec k => "no DAG handler is registered for codec " +:+ k
  | DuplicateCodec k => "a DAG handler is already registered for codec " +:+ k
  | Resolve cid message => "failed to resolve DAG block " +:+ cid +:+ ": " +:+ message
  | DagInvalidPayload k message => "invalid " +:+ k +:+ " DAG payload: " +:+ message
  | PayloadTooLarge k actual limit => "DAG payload for codec " +:+ k +:+ " is " +:+ n actual +:+ " bytes, limit is " +:+ n limit
  | TooManyLinks cid actual limit => "DAG block " +:+ cid +:+ " has " +:+ n actual +:+ " links, limit is " +:+ n limit
  | TooManyBlocks limit => "DAG traversal exceeds the " +:+ n limit +:+ "-block limit"
  | TooManyTotalLinks limit => "DAG traversal exceeds the " +:+ n limit +:+ "-link limit"
  | TooManyPayloadBytes limit => "DAG traversal exceeds the " +:+ n limit +:+ "-byte decoded payload limit"
  | TooDeep depth limit => "DAG traversal reached depth " +:+ n depth +:+ ", limit is " +:+ n limit
  end.

(** ** The services of a node *)

Inductive FaultBoundary := FbDurabilityBefore | FbDurabilityAfter | FbPublicationBefore | FbPublicationAfter
| FbStateApplicationBefore | FbStateApplicationAfter.

(** The fault injector, the faults of the current operation, the clock, the durability
    backend, the proposer, the linearizable read of a namespace, and the block store.  A
    proposal may be applied by the replica of the node, on its tables. *)
Class Services (W : Type) := {
  hit : PublicationFaultPoint → stm W PublicationError unit;
  apply_current_fault : FaultBoundary → stm W string unit;
  unix_seconds : W → Z;
  ensure_durable : Cid → N → option PlacementReference → stm W PublicationError DurabilityReceipt;
  propose_command : NamespaceId → PublicationGuard → CommandEnvelope → stm (ConsensusTables * W) PublicationError ConsensusResponse;
  linearizable_namespace_state : NamespaceId → stm W string NamespaceState;
  resolve : W → Cid → result string bytes
}.

(** [RoutedNamespaceProposer] *)
Definition routed_propose {W} (routed_write : NamespaceId → CommandEnvelope → stm (ConsensusTables * W) string ConsensusResponse)
    (ns : NamespaceId) (g : PublicationGuard) (c : CommandEnvelope) : stm (ConsensusTables * W) PublicationError ConsensusResponse := λ w,
  match g with
  | NoGuard => let '(r, w) := routed_write ns c w in (map_err NamespaceFailed r, w)
  | _ => (Err (Application "unsupported_publication_guard" "the default namespace proposer accepts no application guard"), w)
  end.

Record Node (W : Type) := mkNode { metadata : Metadata; services : W }.
Arguments mkNode {_} _ _.
Arguments metadata {_} _.
Arguments services {_} _.

Section Coordinator.
Context `{Hex} `{!NamespaceJson} `{Json ErasureManifest} {W : Type} `{!Services W} `{!ProtectionBackend PinTables} `{Blake3}.
Variable limits : PublicationLimits.
Variable registry : DagCodecRegistry.

(** An action of the node. *)
Definition act (A : Type) : Type := stm (Node W) PublicationError A.

Definition on_services {A} (c : stm W PublicationError A) : act A := λ n,
  let '(r, w) := c (services n) in (r, mkNode (metadata n) w).
Definition on_replica {A} (c : stm (ConsensusTables * W) PublicationError A) : act A := λ n,
  let '(r, (t, w)) := c (consensus_tables (metadata n), services n) in (r, mkNode (set_consensus t (metadata n)) w).
Definition on_repository {A} (c : stm Metadata PublicationError A) : act A := λ n,
  let '(r, m) := c (metadata n) in (r, mkNode m (services n)).
Definition on_metadata (f : Metadata → Metadata) : act unit := modify (λ n, mkNode (f (metadata n)) (services n)).
Definition on_pins {A} (c : Z → stm PinTables PublicationError A) : act A := λ n,
  let '(r, t) := c (unix_seconds (services n)) (pin_tables (metadata n)) in (r, mkNode (set_pins t (metadata n)) (services n)).

Definition fault (point : PublicationFaultPoint) : act unit := on_services (hit point).
(** [apply_current_fault(boundary).await.map_err(f)?] *)
Definition current_fault (boundary : FaultBoundary) (f : string → PublicationError) : act unit := on_services (λ w,
  let '(r, w) := apply_current_fault boundary w in (map_err f r, w)).

Definition lease_name (request : PublicationRequest) : string :=
  Cid_to_string (id_cid (publication_namespace request)) +:+ ":" +:+ request_id (publication_command request).

Definition staging_reason (id : string) : string := "namespace-staging:" +:+ id.
Definition candidate_reason (id : string) : string := "namespace-candidate:" +:+ id.

(** *** Read leases *)

Definition acquire_read_lease (lease : ReadLease) : act unit :=
  _ ← on_repository (put_read_lease limits lease);
  on_pins (protect (read_namespace lease) (read_root lease) ("namespace-read:" +:+ read_lease_id lease) (Some (read_expires_at lease))).

Definition release_read_lease (id : string) : act unit := λ n,
  match read_lease_table (metadata n) !! id with
  | None => (Ok (), n)
  | Some lease =>
      (_ ← on_pins (release (read_namespace lease) (read_root lease) ("namespace-read:" +:+ read_lease_id lease));
       on_metadata (λ m, set_read_leases (delete id (read_lease_table m)) m)) n
  end.

(** *** The durability barrier *)

Definition required_for (request : PublicationRequest) : act N :=
  match required_replicas request with
  | Some required => mret required
  | None => on_services (λ w,
      let '(r, w) := linearizable_namespace_state (publication_namespace request) w in
      (state ← map_err NamespaceFailed r; Ok (replicas (durability (descriptor state))), w))
  end.

Definition preverified (request : PublicationRequest) (cid : Cid) : bool :=
  existsb (λ r, bool_decide (receipt_cid r = cid)) (preverified_durability request).

(** The blocks known to be part of the publication and the roots to walk. *)
Definition frontier (request : PublicationRequest) : list Cid * list Cid :=
  foldl (λ '(durable, walk) cid,
      if bool_decide (cid ∈ metadata_only_cids request) then (durable, walk)
      else if preverified request cid then (durable ++ [cid], walk)
      else if bool_decide (cid ∈ walk) then (durable, walk)
      else (durable ++ [cid], walk ++ [cid]))
    (uploaded_roots request ++ (receipt_cid <$> preverified_durability request),
     filter (λ root, preverified request root = false) (uploaded_roots request))
    (command_value_cids (publication_command request)).

(** A traversal always answers. *)
Definition walk_root (root : Cid) : act (list Cid) := reads (λ n,
  match traverse registry (resolve (services n)) (traversal limits) root with
  | Some r => t ← map_err (λ e, TraversalFailed (DagError_to_string e)) r; Ok (cids t)
  | None => Err (TraversalFailed "unreachable")
  end).

Fixpoint walk_roots (roots : list Cid) : act (list Cid) :=
  match roots with
  | [] => mret []
  | root :: roots => reached ← walk_root root; rest ← walk_roots roots; mret (reached ++ rest)
  end.

(** How many replicas and which placement a block needs. *)
Definition Requirements : Type := gmap Cid (N * PlacementReference).

Definition receipt_requirements (request : PublicationRequest) : Requirements :=
  foldl (λ req r, match receipt_placement r with
                  | Some p => if bool_decide (role p = ErasureShardRole) then <[receipt_cid r := (1%N, p)]> req else req
                  | None => req
                  end) ∅ (preverified_durability request).

Definition shard_requirements (manifest : ErasureManifest) (req : Requirements) : Requirements :=
  foldl (λ req s, <[shard_cid s := (1%N, shard_placement s)]> req) req (concat (shards <$> stripes manifest)).

Fixpoint manifest_requirements (request : PublicationRequest) (l : list Cid) (req : Requirements) : act Requirements :=
  match l with
  | [] => mret req
  | cid :: l =>
      if negb (codec cid =? CODEC_ERASURE_MANIFEST)%N || preverified request cid then manifest_requirements request l req
      else
        payload ← reads (λ n, map_err TraversalFailed (resolve (services n) cid));
        manifest ← lift (map_err TraversalFailed (from_slice payload));
        _ ← lift (map_err (λ e, TraversalFailed (ManifestError_to_string e)) (ErasureManifest_validate manifest));
        manifest_requirements request l (shard_requirements manifest req)
  end.

(** The loop that adds the blocks to the lease. *)
Definition extend_roots (roots cids : list Cid) : list Cid * list Cid :=
  foldl (λ '(roots, added) cid, if bool_decide (cid ∈ roots) then (roots, added) else (roots ++ [cid], added ++ [cid])) (roots, []) cids.

Definition with_roots (roots : list Cid) (l : StagingLease) : StagingLease :=
  mkLease (lease_id l) (lease_namespace l) (lease_request l) roots (staged_bytes l) (lease_created_at l) (lease_expires_at l) (lease_status l).

(** A receipt that satisfies the requirements of a block. *)
Definition satisfies (required : N) (expected : option PlacementReference) (r : DurabilityReceipt) : bool :=
  (required <=? replicas_accepted r)%N && bool_decide (receipt_status r = "durable")
  && is_none_or (λ p, bool_decide (receipt_placement r = Some p)) expected.

(** The receipt of one block, and whether it is to be stored. *)
Definition receipt_for (request : PublicationRequest) (now : Z) (required : N) (req : Requirements) (cid : Cid)
    : act (DurabilityReceipt * bool) :=
  let needed := default required (fst <$> req !! cid) in
  let expected := snd <$> req !! cid in
  found ← match List.find (λ r, bool_decide (receipt_cid r = cid) && satisfies needed expected r) (preverified_durability request) with
          | Some r => mret (r, true)
          | None =>
              cached ← on_repository (durable_receipt cid expected needed now);
              match cached with
              | Some r => mret (r, false)
              | None => r ← on_services (ensure_durable cid needed expected); mret (r, true)
              end
          end;
  _ ← lift (fail_if (negb (satisfies needed expected found.1)) (DurabilityNotMet cid));
  mret found.

Fixpoint receipts_for (request : PublicationRequest) (now : Z) (required : N) (req : Requirements) (l : list Cid)
    : act (list (DurabilityReceipt * bool)) :=
  match l with
  | [] => mret []
  | cid :: l => r ← receipt_for request now required req cid; rest ← receipts_for request now required req l; mret (r :: rest)
  end.

(** [&mut lease]: the lease as far as it got, also when the barrier fails. *)
Definition leased (A : Type) : Type := stm (StagingLease * Node W) PublicationError A.
Definition on_node {A} (c : act A) : leased A := λ '(lease, n), let '(r, n) := c n in (r, (lease, n)).
Definition with_lease {A} (f : StagingLease → act A) : leased A := λ '(lease, n), on_node (f lease) (lease, n).
Definition change_lease (f : StagingLease → StagingLease) : leased unit := λ '(lease, n), (Ok (), (f lease, n)).

(** The blocks that the lease did not have. *)
Definition add_roots (cids : list Cid) : leased (list Cid) := λ '(lease, n),
  let '(roots, added) := extend_roots (lease_roots lease) cids in (Ok added, (with_roots roots lease, n)).

Definition establish_durability (request : PublicationRequest) (now : Z) : leased (list DurabilityReceipt) :=
  _ ← on_node (fault LeaderValidation);
  _ ← on_node (fault CandidateRoot);
  required ← on_node (required_for request);
  let '(known, roots_to_walk) := frontier request in
  reached ← on_node (walk_roots roots_to_walk);
  let durable_cids := dedup (sort_cids (known ++ reached)) in
  req ← on_node (manifest_requirements request durable_cids (receipt_requirements request));
  candidate_roots ← add_roots durable_cids;
  _ ← with_lease (λ lease, on_pins (protect_many (publication_namespace request) candidate_roots
         (candidate_reason (lease_id lease)) (Some (lease_expires_at lease))));
  _ ← change_lease (λ lease, with_roots (dedup (sort_cids (lease_roots lease))) lease);
  _ ← with_lease (λ lease, on_metadata (update_staging lease));
  _ ← on_node (current_fault FbDurabilityBefore PublicationStorage);
  receipts ← on_node (receipts_for request now required req durable_cids);
  let stored := (λ rb, mkStored (publication_namespace request) (request_id (publication_command request)) rb.1 now)
                  <$> filter (λ rb, rb.2 = true) receipts in
  _ ← on_node (if bool_decide (stored = []) then mret () else on_metadata (put_durability_batch stored));
  _ ← on_node (fault ValueDurability);
  _ ← on_node (current_fault FbDurabilityAfter PublicationStorage);
  mret receipts.*1.

(** *** The proposal *)

Definition Attempt : Type := ProposalAttempt (result PublicationError ConsensusResponse) PublicationError.

(** [if let Err(error) = c { return wrap(error) }] *)
Definition or_answer {A} (c : act A) (wrap : PublicationError → Attempt) (k : A → Node W → Attempt * Node W) (n : Node W) : Attempt * Node W :=
  match c n with
  | (Ok a, n) => k a n
  | (Err e, n) => (wrap e, n)
  end.

Definition refuse (e : PublicationError) : Attempt := Definitive (Err e).
Definition unknown (e : PublicationError) : Attempt := Ambiguous e.

Definition propose_durable (request : PublicationRequest) (g : PublicationGuard) : Node W → Attempt * Node W :=
  or_answer (_ ← fault LocalLogPersistence; fault FollowerLogPersistence) refuse (λ _,
  or_answer (current_fault FbPublicationBefore NamespaceFailed) refuse (λ _,
  or_answer (current_fault FbStateApplicationBefore NamespaceFailed) refuse (λ _,
  or_answer (on_replica (propose_command (publication_namespace request) g (publication_command request))) unknown (λ response,
  or_answer (current_fault FbStateApplicationAfter NamespaceFailed) unknown (λ _,
  or_answer (current_fault FbPublicationAfter NamespaceFailed) unknown (λ _,
  or_answer (_ ← fault QuorumCommit; _ ← fault StateMachineApply; fault CheckpointPublication) unknown (λ _ n,
  (Definitive (Ok response), n)))))))).

(** *** Staging *)

Definition released (l : StagingLease) : StagingLease :=
  mkLease (lease_id l) (lease_namespace l) (lease_request l) (lease_roots l) (staged_bytes l) (lease_created_at l) (lease_expires_at l) "released".

Definition release_staging : leased unit :=
  _ ← on_node (fault StagingRelease);
  _ ← change_lease released;
  _ ← with_lease (λ lease, on_pins (release_many_grouped (lease_namespace lease) (lease_roots lease)
        [staging_reason (lease_id lease); candidate_reason (lease_id lease)]));
  with_lease (λ lease, on_metadata (remove_staging (lease_id lease))).

(** *** Reconciliation and expiry

    The reconciliation lock makes each of these one step. *)
Definition reconcile_pin_intents : act N := λ n,
  let intents := pending_intents (metadata n) in
  if bool_decide (intents = []) then (Ok 0%N, n)
  else (_ ← on_pins (apply_pin_intents intents); _ ← on_metadata (retire_intents intents "applied"); mret (len intents)) n.

Definition coordinator_reconcile : act N :=
  _ ← fault PinIntentApply;
  applied ← reconcile_pin_intents;
  _ ← fault OldRootRetirement;
  mret applied.

(** The proposals of a lease: those that left the log are resolved, and the rest can
    still commit. *)
Fixpoint proposals_pending (proposals : list PublicationIntentRecord) : Node W → bool * Node W := λ n,
  match proposals with
  | [] => (false, n)
  | i :: proposals =>
      if namespace_log_contains (consensus_tables (metadata n)) (intent_namespace i) (intent_log_index i) then
        let '(_, n) := proposals_pending proposals n in (true, n)
      else proposals_pending proposals (mkNode (mark_intent_resolved i (metadata n)) (services n))
  end.

Definition expired (l : StagingLease) : StagingLease :=
  mkLease (lease_id l) (lease_namespace l) (lease_request l) (lease_roots l) (staged_bytes l) (lease_created_at l) (lease_expires_at l) "expired".

(** One lease; [true] if it expired. *)
Definition expire_lease (committed : gset Cid) (lease : StagingLease) : act bool := λ n,
  let proposals := filter (λ i, intent_request i = lease_request lease ∧ intent_reason i = "proposal-input") (pending_intents (metadata n)) in
  let '(can_commit, n) := proposals_pending proposals n in
  if can_commit then (Ok false, n)
  else
    (_ ← on_metadata (update_staging (expired lease));
     _ ← for_each (λ root,
           if bool_decide (root ∈ committed) then mret ()
           else
             _ ← on_pins (release (lease_namespace lease) root (staging_reason (lease_id lease)));
             on_pins (release (lease_namespace lease) root (candidate_reason (lease_id lease)))) (lease_roots lease);
     _ ← on_metadata (remove_staging (lease_id lease));
     mret true) n.

Fixpoint expire_leases (committed : gset Cid) (leases : list StagingLease) : act N :=
  match leases with
  | [] => mret 0%N
  | lease :: leases =>
      gone ← expire_lease committed lease;
      rest ← expire_leases committed leases;
      mret (if gone : bool then 1 + rest else rest)%N
  end.

Definition expire_staging_leases (now : Z) : act N := λ n,
  let leases := filter (λ l, lease_status l = "active" ∧ (lease_expires_at l ≤ now)%Z) (table_values (staging_table (metadata n))) in
  expire_leases (protected_roots now (metadata n)) leases n.

(** ** The workflow *)

Record NamespaceCommitRequest := mkCommitRequest { publication : PublicationRequest; commit_now : Z }.

Definition checked_add_i64 (a b : Z) : option Z :=
  if ((i64_min <=? a + b) && (a + b <=? i64_max))%Z then Some (a + b)%Z else None.

Definition prepare (input : NamespaceCommitRequest) : result PublicationError StagingLease :=
  let request := publication input in
  expires ← ok_or (checked_add_i64 (commit_now input) (staging_ttl_seconds request)) StagingUnavailable;
  let command_cids := command_value_cids (publication_command request) in
  let unique : gset Cid := list_to_set (metadata_only_cids request) in
  _ ← fail_if (negb (N.of_nat (size unique) =? len (metadata_only_cids request))%N
               || (len command_cids <? len (metadata_only_cids request))%N
               || existsb (λ cid, negb (bool_decide (cid ∈ command_cids))) (metadata_only_cids request))
        (Application "invalid_metadata_only_cid" "metadata-only CIDs must be command values");
  let roots := filter (λ cid, cid ∉ metadata_only_cids request) command_cids ++ uploaded_roots request in
  Ok (mkLease (lease_name request) (publication_namespace request) (request_id (publication_command request)) (dedup (sort_cids roots))
        (request_staged_bytes request) (commit_now input) expires "active").

Definition stage (input : NamespaceCommitRequest) (lease : StagingLease) : act unit := λ n,
  let ns := publication_namespace (publication input) in
  let reason := staging_reason (lease_id lease) in
  match prepare_protect_pins (pin_tables (metadata n)) ns (lease_roots lease) reason (Some (lease_expires_at lease)) (unix_seconds (services n)) with
  | Err e => (Err e, n)
  | Ok (Some ps) => (_ ← on_repository (put_staging_with_pins limits lease ps); fault StagingLeasePoint) n
  | Ok None =>
      (_ ← on_repository (put_staging limits lease);
       _ ← fault StagingLeasePoint;
       on_pins (protect_many ns (lease_roots lease) reason (Some (lease_expires_at lease)))) n
  end.

Definition finalize (input : NamespaceCommitRequest) (disposition : CommitDisposition) : leased unit :=
  _ ← on_node (if negb (bool_decide (disposition = Committed)) && retain_uploaded_on_conflict (publication input)
               then on_pins (protect_many (publication_namespace (publication input)) (uploaded_roots (publication input))
                               "uploaded-publication-conflict" None)
               else mret ());
  release_staging.

Definition interpret (proposal : result PublicationError ConsensusResponse) : result PublicationError ApplyResult :=
  response ← proposal; response_to_apply response.

Definition lookup_result (input : NamespaceCommitRequest) : act (option ApplyResult) := on_services (λ w,
  let '(r, w) := linearizable_namespace_state (publication_namespace (publication input)) w in
  (state ← map_err NamespaceFailed r;
   map_err (λ e, PublicationConflict (NamespaceError_to_string e)) (idempotent_apply_result_for state (publication_command (publication input))), w)).

(** The answers of the workflow to the engine, which has no fault injector here.  The
    engine's counters are those of the process. *)
Definition answer_call (o : Op NamespaceCommitRequest StagingLease (list DurabilityReceipt) PublicationGuard ApplyResult)
    : Node W → answer (Proposal := result PublicationError ConsensusResponse) (Error := PublicationError) o * Node W :=
  match o return Node W → answer o * Node W with
  | Commit.Fault _ => λ n, (Ok (), n)
  | Prepare r => λ n, (prepare r, n)
  | Stage r lease => λ n, let '(x, n) := stage r lease n in ((x, lease), n)
  | Establish r lease => λ n,
      let '(x, (lease, n)) := establish_durability (publication r) (commit_now r) (lease, n) in ((x, lease), n)
  | Propose r _ _ g => λ n, propose_durable (publication r) g n
  | Lookup r _ => λ n, lookup_result r n
  | Reconcile _ _ _ _ => λ n, let '(x, n) := coordinator_reconcile n in (_ ← x; Ok (), n)
  | Finalize r lease d => λ n, let '(x, (lease, n)) := finalize r d (lease, n) in ((x, lease), n)
  | Count _ => λ n, ((), n)
  end.

Definition publish_guarded (request : PublicationRequest) (g : PublicationGuard) (now : Z) : act PublicationResult := λ n,
  match validate_publication_guard g with
  | Err e => (Err e, n)
  | Ok _ =>
      let '(r, n) := run answer_call (execute interpret (mkCommitInput (mkCommitRequest request now) g)) n in
      (outcome ← r; Ok (mkPublicationResult (outcome_result outcome) (evidence outcome) (lease_name request)), n)
  end.

Definition publish (request : PublicationRequest) (now : Z) : act PublicationResult := publish_guarded request NoGuard now.

(** A batch of publications; each call of the workflow is one of its steps. *)
Definition PublicationBatch : Type :=
  Batch (Request := NamespaceCommitRequest) (Prepared := StagingLease) (Evidence := list DurabilityReceipt) (Guard := PublicationGuard)
    (Proposal := result PublicationError ConsensusResponse) (Res := ApplyResult) (Error := PublicationError) (Node W).

#[global] Instance workflow_product : Product (Proposal := result PublicationError ConsensusResponse) (Error := PublicationError) (Node W) := {|
  acts o n x n' := answer_call o n = (x, n');
  drifts _ _ := False
|}.

Record BatchedPublicationRequest := mkBatched { batched_request : PublicationRequest; batched_guard : PublicationGuard }.

Definition publish_batch (requests : list BatchedPublicationRequest) (max_in_flight : N) (now : Z) (n : Node W)
    : result PublicationError PublicationBatch :=
  _ ← fail_if ((4096 <? len requests)%N || (max_in_flight =? 0)%N || (1024 <? max_in_flight)%N)
        (Application "invalid_publication_batch" "publication batch or concurrency exceeds its bound");
  _ ← try_foldl (λ _ b, validate_publication_guard (batched_guard b)) () requests;
  Ok (execute_batch ((λ b, mkCommitInput (mkCommitRequest (batched_request b) now) (batched_guard b)) <$> requests) n).

(** The results of the batch when it is done. *)
Definition batch_results (requests : list BatchedPublicationRequest) (b : PublicationBatch) : list (result PublicationError PublicationResult) :=
  zip_with (λ r request, outcome ← r; Ok (mkPublicationResult (outcome_result outcome) (evidence outcome) (lease_name (batched_request request))))
    (yielded b) requests.

End Coordinator.
