(* ===== verification/PublicationFacts.v ===== *)
(** * What a publication guarantees

    A publication that succeeds had a sufficient receipt for every block of its command
    before it was proposed ([publish_is_durable]); and entries of the log that are applied
    again and protect what was released stop every publication of the node
    ([replay_stops_publication]). *)
From stdpp Require Import base gmap sets list strings sorting relations.
From Stdlib Require Import Strings.Byte.
From S2P Require Import Prelude Types Merkle Dag DagFacts Namespace Commit Pins PinsFacts Consensus Publication.

(** A step of [leased] that succeeds. *)
Lemma on_node_Ok {W A} (c : act (W:=W) A) lease n a s :
  on_node c (lease, n) = (Ok a, s) ↔ ∃ n', c n = (Ok a, n') ∧ s = (lease, n').
Proof. unfold on_node. destruct (c n) as [r n']. naive_solver. Qed.

(** ** What the calls of a successful commit were *)
Section Runs.
Context {Request Prepared Evidence Guard Proposal Res Error W : Type}.
Variable interpret : Proposal → result Error Res.
Variable handle : ∀ o : Op Request Prepared Evidence Guard Res, W → answer (Proposal := Proposal) (Error := Error) o * W.
(** What every call keeps. *)
Variable keeps : W → Prop.
Hypothesis kept : ∀ o w x w', keeps w → handle o w = (x, w') → keeps w'.

Lemma run_bind_Ok {A B} (m : fallible A) (f : A → fallible B) w b w' :
  keeps w → run handle (m ≫= f) w = (Ok b, w') →
  ∃ a w1, keeps w1 ∧ run handle m w = (Ok a, w1) ∧ run handle (f a) w1 = (Ok b, w').
Proof.
  revert w. induction m as [x|o k IH]; intros w Hw Hr; [destruct x as [a|e]; [by exists a, w|done]|].
  cbn in *. destruct (handle o w) as [x w1] eqn:Ho. apply (IH x w1); [by eapply kept|done].
Qed.

Lemma run_call_Ok o w x w' : run handle (call o) w = (Ok x, w') → handle o w = (x, w').
Proof. cbn. destruct (handle o w) as [y w1]. by intros [= <- <-]. Qed.

Lemma run_attempt_Ok {A} (x : result Error A) w a w' : run handle (attempt x) w = (Ok a, w') → x = Ok a ∧ w' = w.
Proof. cbn. by intros [= <- <-]. Qed.

Lemma run_keeps {A} (t : prog A) w a w' : keeps w → run handle t w = (a, w') → keeps w'.
Proof.
  revert w. induction t as [b|o k IH]; intros w Hw; cbn; [by intros [= _ <-]|].
  destruct (handle o w) as [x w1] eqn:Ho. apply IH. by eapply kept.
Qed.

(** What succeeds although a failure would have released the staging. *)
Lemma run_or_reject_Ok {A} r p (m : fallible A) w a w' :
  keeps w → run handle (or_reject r p m) w = (Ok a, w') → run handle m w = (Ok a, w').
Proof.
  unfold or_reject. revert w. induction m as [x|o k IH]; intros w Hw Hr.
  - destruct x as [b|e]; [done|]. cbn [prog_bind] in Hr. by apply run_bind_Ok in Hr as (? & ? & _ & _ & ?).
  - cbn in *. destruct (handle o w) as [x w1] eqn:Ho. apply (IH x w1); [by eapply kept|done].
Qed.

(** A commit that succeeds established its evidence and then reconciled. *)
Lemma run_execute_Ok input w out w' :
  keeps w → run handle (execute interpret input) w = (Ok out, w') →
  (∃ p w1 p' w2, keeps w1 ∧ handle (Establish (request input) p) w1 = ((Ok (evidence out), p'), w2)) ∧
  (∃ p w1 w2, keeps w1 ∧ handle (Reconcile (request input) p (evidence out) (outcome_result out)) w1 = (Ok (), w2)).
Proof.
  intros Hw Hr. unfold execute in Hr.
  repeat (apply run_bind_Ok in Hr as (? & ? & ? & ?Hcall & Hr); [|assumption];
          repeat match type of Hr with context [let '(_, _) := ?x in _] => is_var x; destruct x end).
  injection Hr as <- _.
  repeat match goal with
  | H : run handle (call ?o) _ = _ |- _ => apply (run_call_Ok o) in H
  | H : run handle (attempt _) _ = _ |- _ => apply run_attempt_Ok in H as [? ->]
  | H : run handle (or_reject _ _ (attempt _)) _ = _ |- _ => apply run_or_reject_Ok in H; [|assumption]
  end.
  subst. repeat match goal with u : unit |- _ => destruct u end. split; eauto 10.
Qed.
End Runs.

(** ** What the steps of a publication may change *)

(** A call of a service other than a proposal. *)
Inductive calls `{!Services W} (w : W) : W → Prop :=
| calls_hit point : calls w (hit point w).2
| calls_fault boundary : calls w (apply_current_fault boundary w).2
| calls_durable c k p : calls w (ensure_durable c k p w).2
| calls_state ns : calls w (linearizable_namespace_state ns w).2.

Section Steps.
Context `{Hex} `{!NamespaceJson} `{Json ErasureManifest} {W : Type} `{!Services W} `{!ProtectionBackend PinTables} `{Blake3}.
Variable limits : PublicationLimits.
Variable registry : DagCodecRegistry.
(** What a publication does to the node until it reconciles. *)
Variable R : relation (Node W).
Context `{!PreOrder R}.
Hypothesis calls_R : ∀ m w w', calls w w' → R (mkNode m w) (mkNode m w').
Hypothesis propose_R : ∀ n ns g c, R n (on_replica (propose_command ns g c) n).2.
Hypothesis protect_many_R : ∀ m w ns cids reason expires now, R (mkNode m w) (mkNode (set_pins (protect_many ns cids reason expires now (pin_tables m)).2 m) w).
Hypothesis release_many_R : ∀ m w ns cids reasons now, R (mkNode m w) (mkNode (set_pins (release_many_grouped ns cids reasons now (pin_tables m)).2 m) w).
Hypothesis insert_all_R : ∀ m w ps t, insert_all ps (pin_tables m) = Ok t → R (mkNode m w) (mkNode (set_pins t m) w).
Hypothesis set_staging_R : ∀ m w t, R (mkNode m w) (mkNode (set_staging t m) w).
Hypothesis set_receipts_R : ∀ m w t recent, R (mkNode m w) (mkNode (set_receipts t recent m) w).

Definition growing {A} (c : act A) : Prop := ∀ n, R n (c n).2.
Definition growing_leased {A} (c : leased A) : Prop := ∀ s, R s.2 (c s).2.2.

Lemma growing_ret {A} (a : A) : growing (mret a).
Proof. intros n. reflexivity. Qed.

Lemma growing_reads {A} (f : Node W → result PublicationError A) : growing (reads f).
Proof. intros n. reflexivity. Qed.

Lemma growing_lift {A} (r : result PublicationError A) : growing (lift r).
Proof. intros n. reflexivity. Qed.

Lemma growing_bind {A B} (c : act A) (f : A → act B) : growing c → (∀ a, growing (f a)) → growing (c ≫= f).
Proof.
  intros Hc Hf n. specialize (Hc n). unfold mbind, stm_bind. destruct (c n) as [[a|e] n1]; [|done]. by etrans; [|apply Hf].
Qed.

Lemma growing_services {A} (c : stm W PublicationError A) : (∀ w, calls w (c w).2) → growing (on_services c).
Proof. intros Hc [m w]. specialize (Hc w). unfold on_services. cbn. destruct (c w). by apply calls_R. Qed.

Lemma growing_propose ns g c : growing (on_replica (propose_command ns g c)).
Proof. intros n. apply propose_R. Qed.

Lemma growing_fault point : growing (fault point).
Proof. apply growing_services. intros w. constructor. Qed.

Lemma growing_current_fault boundary f : growing (current_fault boundary f).
Proof. apply growing_services. intros w. pose proof (calls_fault w boundary). by destruct (apply_current_fault boundary w). Qed.

Lemma growing_repository {A} (c : stm Metadata PublicationError A) :
  (∀ m w, R (mkNode m w) (mkNode (c m).2 w)) → growing (on_repository c).
Proof. intros Hc [m w]. specialize (Hc m w). unfold on_repository. cbn. by destruct (c m). Qed.

Lemma growing_metadata (f : Metadata → Metadata) : (∀ m w, R (mkNode m w) (mkNode (f m) w)) → growing (on_metadata f).
Proof. intros Hf [m w]. apply Hf. Qed.

Lemma growing_pins {A} (c : Z → stm PinTables PublicationError A) :
  (∀ now m w, R (mkNode m w) (mkNode (set_pins (c now (pin_tables m)).2 m) w)) → growing (on_pins c).
Proof.
  intros Hc [m w]. specialize (Hc (unix_seconds w) m w). unfold on_pins. cbn. by destruct (c _ (pin_tables m)).
Qed.

Lemma growing_leased_bind {A B} (c : leased A) (f : A → leased B) :
  growing_leased c → (∀ a, growing_leased (f a)) → growing_leased (c ≫= f).
Proof.
  intros Hc Hf s. specialize (Hc s). unfold mbind, stm_bind. destruct (c s) as [[a|e] s1]; [|done]. by etrans; [|apply Hf].
Qed.

Lemma growing_leased_ret {A} (a : A) : growing_leased (mret a).
Proof. intros s. reflexivity. Qed.

Lemma growing_on_node {A} (c : act A) : growing c → growing_leased (on_node c).
Proof. intros Hc [lease n]. specialize (Hc n). cbn. by destruct (c n). Qed.

Lemma growing_with_lease {A} (f : StagingLease → act A) : (∀ lease, growing (f lease)) → growing_leased (with_lease f).
Proof. intros Hf [lease n]. apply (growing_on_node (f lease) (Hf lease) (lease, n)). Qed.

Lemma growing_change_lease f : growing_leased (change_lease f).
Proof. intros [lease n]. cbn. reflexivity. Qed.

Lemma growing_add_roots cids : growing_leased (add_roots cids).
Proof. intros [lease n]. cbn. destruct (extend_roots _ _). reflexivity. Qed.

#[local] Hint Resolve growing_ret growing_reads growing_lift growing_fault growing_current_fault growing_leased_ret growing_change_lease growing_propose
  growing_add_roots protect_many_R release_many_R set_staging_R set_receipts_R : growing.

(** [grow] follows the steps of an operation. *)
Ltac grow :=
  repeat (intros; first
    [ solve [eauto with growing]
    | apply growing_leased_bind | apply growing_bind | apply growing_on_node | apply growing_with_lease
    | apply growing_pins | apply growing_metadata | apply growing_repository ]).

Lemma put_staging_R lease m w : R (mkNode m w) (mkNode (put_staging limits lease m).2 w).
Proof. unfold put_staging. by destruct (staging_refused _ _ _); [|apply set_staging_R]. Qed.

Lemma put_staging_with_pins_R lease ps m w : R (mkNode m w) (mkNode (put_staging_with_pins limits lease ps m).2 w).
Proof.
  unfold put_staging_with_pins. destruct (staging_refused _ _ _); [done|].
  destruct (insert_all ps (pin_tables m)) as [t|e] eqn:Ht; [|done]. cbn.
  etrans; [apply (set_staging_R m w)|]. by eapply insert_all_R.
Qed.

Lemma durable_receipt_R cid p k now m w : R (mkNode m w) (mkNode (durable_receipt cid p k now m).2 w).
Proof. unfold durable_receipt. by destruct (negb _); [|apply set_receipts_R]. Qed.

#[local] Hint Resolve put_staging_R put_staging_with_pins_R durable_receipt_R : growing.

Lemma stage_grows input lease : growing (stage limits input lease).
Proof.
  intros n. unfold stage. destruct (prepare_protect_pins _ _ _ _ _ _) as [[ps|]|e]; [| |done]; revert n; fold (growing (A := unit)); grow.
Qed.

Lemma walk_roots_grows roots : growing (walk_roots limits registry roots).
Proof. induction roots; cbn; unfold walk_root; grow. Qed.

Lemma manifest_requirements_grows request l req : growing (manifest_requirements request l req).
Proof. revert req. induction l as [|cid l IH]; intros req; cbn; [grow|]. destruct (negb _ || _); [done|]. grow. Qed.

Lemma receipts_for_grows request now required req l : growing (receipts_for request now required req l).
Proof.
  induction l as [|cid l IH]; cbn [receipts_for]; [grow|]. apply growing_bind; [|grow]. unfold receipt_for.
  apply growing_bind; [|grow]. destruct (List.find _ _); [grow|]. apply growing_bind; [grow|].
  intros []; [grow|]. apply growing_bind; [|grow]. apply growing_services. constructor.
Qed.

Lemma required_for_grows request : growing (required_for request).
Proof.
  unfold required_for. destruct (required_replicas request); [grow|]. apply growing_services. intros w.
  pose proof (calls_state w (publication_namespace request)). by destruct (linearizable_namespace_state _ w).
Qed.

#[local] Hint Resolve stage_grows walk_roots_grows manifest_requirements_grows receipts_for_grows required_for_grows : growing.

Lemma establish_grows request now : growing_leased (establish_durability limits registry request now).
Proof.
  unfold establish_durability. destruct (frontier request) as [known walk]. grow. destruct (bool_decide _); grow.
Qed.

Lemma finalize_grows input d : growing_leased (finalize input d).
Proof. unfold finalize, release_staging. apply growing_leased_bind; [destruct (_ && _)|]; grow. Qed.

Lemma propose_grows request g n : R n (propose_durable request g n).2.
Proof.
  assert (∀ A (c : act A) wrap k, growing c → (∀ a n, R n (k a n).2) → ∀ n, R n (or_answer c wrap k n).2) as Hor.
  { intros A c wrap k Hc Hk n1. specialize (Hc n1). unfold or_answer. destruct (c n1) as [[a|e] n2]; [|done]. by etrans; [|apply Hk]. }
  unfold propose_durable. repeat (apply Hor; [grow|intros]). done.
Qed.

Lemma answer_grows o n x n' :
  answer_call limits registry o n = (x, n') → R n n' ∨ ∃ r p e res, o = Reconcile r p e res.
Proof.
  intros Ho. destruct o; cbn in Ho; try (injection Ho as <- <-; by left); [left..|by right; eauto|left].
  - pose proof (stage_grows r p n) as Hg. destruct (stage _ _ _ _). by injection Ho as <- <-.
  - pose proof (establish_grows (publication r) (commit_now r) (p, n)) as Hg.
    destruct (establish_durability _ _ _ _ _) as [? [??]]. by injection Ho as <- <-.
  - pose proof (propose_grows (publication r) g n) as Hg. by rewrite Ho in Hg.
  - apply (f_equal snd) in Ho. cbn [snd] in Ho. subst n'. apply growing_services. intros w.
    pose proof (calls_state w (publication_namespace (publication r))). by destruct (linearizable_namespace_state _ w).
  - pose proof (finalize_grows r d (p, n)) as Hg. destruct (finalize _ _ _) as [? [??]]. by injection Ho as <- <-.
Qed.
End Steps.

Section Facts.
Context `{Hex} `{!NamespaceJson} `{Json ErasureManifest} {W : Type} `{!Services W} `{!ProtectionBackend PinTables} `{Blake3}.
Variable limits : PublicationLimits.
Variable registry : DagCodecRegistry.
Implicit Types (request : PublicationRequest) (n : Node W) (lease : StagingLease).

(** ** The blocks of a publication *)

(** A link between blocks, as the traversal reads them from the services. *)
Definition linked (w : W) : Cid → Cid → Prop := link registry (resolve w) (traversal limits).

(** The roots that a command brings: uploads, and values that are blocks. *)
Definition brings request (root : Cid) : Prop :=
  root ∈ uploaded_roots request ∨ root ∈ command_value_cids (publication_command request) ∧ root ∉ metadata_only_cids request.

(** The blocks that must be durable: the roots, the blocks with a receipt from their
    upload, and what is below a root without such a receipt. *)
Inductive part_of request (w : W) : Cid → Prop :=
| part_root c : brings request c → part_of request w c
| part_receipt r : r ∈ preverified_durability request → part_of request w (receipt_cid r)
| part_below root c : brings request root → preverified request root = false → rtc (linked w) root c → part_of request w c.

Lemma walk_roots_spec roots n l n' :
  walk_roots limits registry roots n = (Ok l, n') →
  n' = n ∧ ∀ c, c ∈ l ↔ ∃ root, root ∈ roots ∧ rtc (linked (services n)) root c.
Proof.
  revert l n'. induction roots as [|root roots IH]; intros l n' Hw; cbn [walk_roots] in Hw.
  - injection Hw as <- <-. split; [done|]. intros c. split; [by intros ?%elem_of_nil|]. by intros (? & ?%elem_of_nil & _).
  - apply stm_bind_Ok in Hw as (reached & n1 & Hr & Hw). unfold walk_root, reads in Hr. injection Hr as Hr <-.
    apply stm_bind_Ok in Hw as (rest & n2 & Hrest & [= <- <-]).
    apply IH in Hrest as [-> Hrest]. split; [done|].
    destruct (traverse_spec registry (resolve (services n)) (traversal limits) root) as (r & Ht & Hc).
    rewrite Ht in Hr. destruct r as [t|e]; [|done]. cbn in Hr. injection Hr as <-.
    intros c. rewrite elem_of_app, (covers_exact _ _ _ _ _ Hc), Hrest. setoid_rewrite elem_of_cons. naive_solver.
Qed.

(** What the loop over the command's values keeps. *)
Lemma frontier_spec request :
  let '(known, walk) := frontier request in
  (∀ c, brings request c → c ∈ known) ∧ (∀ r, r ∈ preverified_durability request → receipt_cid r ∈ known) ∧
  (∀ root, brings request root → preverified request root = false → root ∈ walk).
Proof.
  unfold frontier, brings.
  set (known0 := uploaded_roots request ++ (receipt_cid <$> preverified_durability request)).
  set (walk0 := filter (λ root, preverified request root = false) (uploaded_roots request)).
  assert (∀ l known walk, walk ⊆ known →
    let '(known', walk') := foldl (λ '(durable, walk) cid,
      if bool_decide (cid ∈ metadata_only_cids request) then (durable, walk)
      else if preverified request cid then (durable ++ [cid], walk)
      else if bool_decide (cid ∈ walk) then (durable, walk)
      else (durable ++ [cid], walk ++ [cid])) (known, walk) l in
    known ⊆ known' ∧ walk ⊆ walk' ∧
    ∀ c, c ∈ l → c ∉ metadata_only_cids request → c ∈ known' ∧ (preverified request c = false → c ∈ walk')) as Hl.
  { induction l as [|cid l IH]; intros known walk Hsub; cbn [foldl]; [split_and!; [done|done|]; by intros c ?%elem_of_nil|].
    destruct (bool_decide (cid ∈ metadata_only_cids request)) eqn:Hm; [|destruct (preverified request cid) eqn:Hp; [|destruct (bool_decide (cid ∈ walk)) eqn:Hw]].
    - apply bool_decide_eq_true in Hm. specialize (IH known walk Hsub). destruct (foldl _ _ l) as [known' walk']. destruct IH as (Hk & Hw & Hall).
      split_and!; [done|done|]. intros c [->|Hc]%elem_of_cons Hn; [done|by apply Hall].
    - specialize (IH (known ++ [cid]) walk). destruct (foldl _ _ l) as [known' walk']. destruct IH as (Hk & Hw & Hall); [set_solver|].
      split_and!; [set_solver|done|]. intros c [->|Hc]%elem_of_cons Hn; [|by apply Hall]. split; [set_solver|congruence].
    - apply bool_decide_eq_true in Hw. specialize (IH known walk Hsub). destruct (foldl _ _ l) as [known' walk']. destruct IH as (Hk & Hw' & Hall).
      split_and!; [done|done|]. intros c [->|Hc]%elem_of_cons Hn; [|by apply Hall]. split; [set_solver|set_solver].
    - specialize (IH (known ++ [cid]) (walk ++ [cid])). destruct (foldl _ _ l) as [known' walk']. destruct IH as (Hk & Hw' & Hall); [set_solver|].
      split_and!; [set_solver|set_solver|]. intros c [->|Hc]%elem_of_cons Hn; [|by apply Hall]. split; [set_solver|set_solver]. }
  specialize (Hl (command_value_cids (publication_command request)) known0 walk0).
  destruct (foldl _ _ _) as [known walk]. destruct Hl as (Hk & Hw & Hall).
  { unfold known0, walk0. intros c [_ Hc]%list_elem_of_filter. set_solver. }
  split_and!.
  - intros c [Hc|[Hc Hn]]; [apply Hk; unfold known0; set_solver|by apply Hall].
  - intros r Hr. apply Hk. unfold known0. apply elem_of_app. right. by apply list_elem_of_fmap_2.
  - intros root [Hc|[Hc Hn]] Hp; [|by apply Hall]. apply Hw. unfold walk0. by apply list_elem_of_filter.
Qed.
(** ** Receipts *)

(** A block that is an erasure shard: of a receipt from its upload, or of a manifest
    that is part of the publication. *)
Inductive shard_of request (w : W) (c : Cid) (p : PlacementReference) : Prop :=
| shard_receipt r :
    r ∈ preverified_durability request → receipt_cid r = c → receipt_placement r = Some p → role p = ErasureShardRole →
    shard_of request w c p
| shard_manifest m payload manifest s :
    codec m = CODEC_ERASURE_MANIFEST → preverified request m = false →
    resolve w m = Ok payload → from_slice payload = Ok manifest → ErasureManifest_validate manifest = Ok () →
    s ∈ concat (shards <$> stripes manifest) → shard_cid s = c → shard_placement s = p →
    shard_of request w c p.

(** What a publication requires of a block: its number of replicas, and one copy in its
    place of an erasure shard. *)
Definition required_of request (w : W) (req : Requirements) : Prop :=
  ∀ c k p, req !! c = Some (k, p) → k = 1%N ∧ shard_of request w c p.

Lemma receipt_requirements_spec request w : required_of request w (receipt_requirements request).
Proof.
  unfold receipt_requirements. generalize (reflexivity (preverified_durability request) : preverified_durability request ⊆ preverified_durability request).
  generalize (preverified_durability request) at 1 3 as l. intros l.
  assert (required_of request w ∅) as Hnil by (intros c k p Hc; by apply lookup_empty_Some in Hc).
  revert Hnil. generalize (∅ : Requirements) as req.
  induction l as [|r l IH]; intros req Hreq Hl; [done|]. cbn [foldl]. apply IH; [|set_solver].
  destruct (receipt_placement r) as [p|] eqn:Hp; [|done]. case_bool_decide as Hrole; [|done].
  intros c k q [[<- [= <- <-]]|[_ Hc]]%lookup_insert_Some; [|by apply (Hreq c)]. split; [done|]. apply (shard_receipt _ _ _ _ r); set_solver.
Qed.

Lemma shard_requirements_spec request w m payload manifest req :
  codec m = CODEC_ERASURE_MANIFEST → preverified request m = false →
  resolve w m = Ok payload → from_slice payload = Ok manifest → ErasureManifest_validate manifest = Ok () →
  required_of request w req → required_of request w (shard_requirements manifest req).
Proof.
  intros Hm Hpre Hr Hs Hv. unfold shard_requirements. revert req.
  generalize (reflexivity (concat (shards <$> stripes manifest)) : concat (shards <$> stripes manifest) ⊆ concat (shards <$> stripes manifest)).
  generalize (concat (shards <$> stripes manifest)) at 1 3 as l.
  induction l as [|s l IH]; intros Hl req Hreq; [done|]. cbn [foldl]. apply IH; [set_solver|].
  intros c k q [[<- [= <- <-]]|[_ Hc]]%lookup_insert_Some; [|by apply (Hreq c)]. split; [done|]. eapply shard_manifest; [done..| |done|done]. set_solver.
Qed.

Lemma manifest_requirements_spec request l req n req' n' :
  manifest_requirements request l req n = (Ok req', n') → required_of request (services n) req →
  n' = n ∧ required_of request (services n) req'.
Proof.
  revert req. induction l as [|m l IH]; intros req Hm Hreq; cbn [manifest_requirements] in Hm; [by injection Hm as <- <-|].
  destruct (negb _ || _) eqn:Hskip; [by apply IH in Hm|]. apply orb_false_iff in Hskip as [Hc%negb_false_iff%N.eqb_eq Hpre].
  apply stm_bind_Ok in Hm as (payload & n1 & [Hr <-]%reads_inv & Hm). apply stm_bind_Ok in Hm as (manifest & n2 & Hs & Hm).
  apply stm_bind_Ok in Hm as ([] & n3 & Hv & Hm). unfold lift in Hs, Hv. injection Hs as Hs <-. injection Hv as Hv <-.
  apply IH in Hm; [done|]. eapply shard_requirements_spec; [done|done| | | |done];
    (destruct (resolve (services n) m); [|done]; injection Hr as <-); [done|..].
  - by destruct (from_slice _); [injection Hs as <-|].
  - by destruct (ErasureManifest_validate _) as [[]|].
Qed.

(** The number of replicas: the request's own, or that of the namespace. *)
Definition demanded request (required : N) : Prop :=
  match required_replicas request with
  | Some k => required = k
  | None => ∃ w st w', linearizable_namespace_state (publication_namespace request) w = (Ok st, w') ∧ required = replicas (durability (descriptor st))
  end.

(** A receipt that is enough for a block. *)
Definition enough (required : N) (req : Requirements) (c : Cid) (r : DurabilityReceipt) : Prop :=
  receipt_cid r = c ∧ satisfies (default required (fst <$> req !! c)) (snd <$> req !! c) r = true.

(** The backend's receipts are for the block it was asked about. *)
Definition answers_for : Prop := ∀ c k p w r w', ensure_durable c k p w = (Ok r, w') → receipt_cid r = c.

Lemma newest_elem l r : newest l = Some r → r ∈ l.
Proof.
  revert r. induction l as [|a l IH]; intros r Hn; [done|]. cbn in Hn. destruct (newest l) as [b|]; [destruct (_ <? _)%Z|]; set_solver.
Qed.

Lemma durable_receipt_cid c p k now m r m' : durable_receipt c p k now m = (Ok (Some r), m') → receipt_cid r = c.
Proof.
  unfold durable_receipt. intros Hd. assert (∃ t, stored_receipt <$> newest (filter (receipt_matches c p k now) t) = Some r) as (t & Ht).
  { destruct (negb _); injection Hd as Hd _; eauto. }
  apply fmap_Some in Ht as (s & Hs%newest_elem & ->). apply list_elem_of_filter in Hs as [Hs _].
  unfold receipt_matches in Hs. destruct (bool_decide (receipt_cid _ = c)) eqn:Hc; [by apply bool_decide_eq_true in Hc|done].
Qed.

Lemma receipt_for_enough request now required req c n rb n' :
  answers_for → receipt_for request now required req c n = (Ok rb, n') → enough required req c rb.1.
Proof.
  intros Hans Hr. unfold receipt_for in Hr. apply stm_bind_Ok in Hr as (found & n1 & Hfound & Hr).
  apply stm_bind_Ok in Hr as ([] & n2 & Hs & [= <- <-]). injection Hs as Hs%fail_if_Ok%negb_false_iff _.
  split; [|done]. destruct (List.find _ _) as [r|] eqn:Hfind.
  - injection Hfound as <- <-. apply List.find_some in Hfind as [_ [Hc%bool_decide_eq_true _]%andb_true_iff]. done.
  - apply stm_bind_Ok in Hfound as (cached & n3 & Hcached & Hfound). destruct cached as [r|].
    + injection Hfound as <- <-. unfold on_repository in Hcached. destruct (durable_receipt _ _ _ _ _) as [x m] eqn:Hd.
      injection Hcached as -> _. by apply durable_receipt_cid in Hd.
    + apply stm_bind_Ok in Hfound as (r & n4 & Hr & [= <- <-]). unfold on_services in Hr.
      destruct (ensure_durable _ _ _ _) as [x w] eqn:He. injection Hr as -> _. by apply Hans in He.
Qed.

Lemma receipts_for_enough request now required req l n rs n' :
  answers_for → receipts_for request now required req l n = (Ok rs, n') → Forall2 (λ c rb, enough required req c rb.1) l rs.
Proof.
  intros Hans. revert n rs. induction l as [|c l IH]; intros n rs Hr; cbn [receipts_for] in Hr; [injection Hr as <- _; constructor|].
  apply stm_bind_Ok in Hr as (r & n1 & Hr1 & Hr). apply stm_bind_Ok in Hr as (rest & n2 & Hrest & [= <- <-]).
  constructor; [by eapply receipt_for_enough|by eapply IH].
Qed.

(** ** The services along a publication *)

Inductive moves (w : W) : W → Prop :=
| moves_calls w' : calls w w' → moves w w'
| moves_propose ns g c t : moves w (propose_command ns g c (t, w)).2.2.

Definition moved n n' : Prop := rtc moves (services n) (services n').
#[local] Instance moved_preorder : PreOrder moved.
Proof. split; [intros n; constructor|]. intros n1 n2 n3 HA HB. unfold moved in *. by etrans. Qed.

Lemma moved_calls m w w' : calls w w' → moved (mkNode m w) (mkNode m w').
Proof. intros Hc. by apply rtc_once, moves_calls. Qed.

Lemma moved_propose n ns g c : moved n (on_replica (propose_command ns g c) n).2.
Proof.
  pose proof (moves_propose (services n) ns g c (consensus_tables (metadata n))) as Hm. unfold on_replica.
  destruct (propose_command _ _ _ _) as [r [t w]]. by apply rtc_once.
Qed.

Lemma moved_metadata m m' w : moved (mkNode m w) (mkNode m' w).
Proof. constructor. Qed.

#[local] Hint Resolve moved_calls moved_propose moved_metadata : moved.

Lemma reconcile_moves : growing moved coordinator_reconcile.
Proof.
  apply (growing_bind moved); [apply (growing_fault moved); eauto with moved|]. intros []. apply (growing_bind moved).
  - intros n1. unfold reconcile_pin_intents. destruct (bool_decide _); [done|].
    refine (growing_bind moved _ _ _ _ n1); [apply (growing_pins moved); eauto with moved|].
    intros []. apply (growing_bind moved); [apply (growing_metadata moved); eauto with moved|]. intros []. apply (growing_ret moved).
  - intros k. apply (growing_bind moved); [apply (growing_fault moved); eauto with moved|]. intros []. apply (growing_ret moved).
Qed.

Lemma answer_moves o n x n' : answer_call limits registry o n = (x, n') → moved n n'.
Proof.
  intros Ho. destruct (answer_grows limits registry moved) with o n x n' as [Hg|(r & p & ev & res & ->)]; [eauto with moved..|].
  cbn in Ho. pose proof (reconcile_moves n) as Hm. destruct (coordinator_reconcile n) as [y n1]. by injection Ho as <- <-.
Qed.

(** The services do not lose blocks: what is staged is pinned. *)
Definition keeps_blocks : Prop := ∀ w w' c b, moves w w' → resolve w c = Ok b → resolve w' c = Ok b.

Definition has_blocks (w w' : W) : Prop := ∀ c b, resolve w c = Ok b → resolve w' c = Ok b.

Lemma moves_blocks w w' : keeps_blocks → rtc moves w w' → has_blocks w w'.
Proof. intros Hk. induction 1 as [|w w1 w2 Hm _ IH]; intros c b Hb; [done|]. by eapply IH, Hk. Qed.

Lemma linked_blocks w w' a b : has_blocks w w' → linked w a b → linked w' a b.
Proof.
  intros Hb (ls & Hls & Hin). exists ls. split; [|done]. unfold block_links in *.
  destruct (handler registry (codec a)) as [h|e]; [|done]. cbn [mbind result_bind] in *. destruct (negb _); [done|].
  destruct (resolve w a) as [payload|e] eqn:Hr; [|done]. by rewrite (Hb _ _ Hr).
Qed.

Lemma part_blocks request w w' c : has_blocks w w' → part_of request w c → part_of request w' c.
Proof.
  intros Hb [d Hd|r Hr|root d Hbr Hp Hd]; [by apply part_root|by apply part_receipt|]. eapply part_below; [done..|].
  eapply rtc_subrel; [|done]. intros a b. by apply linked_blocks.
Qed.

(** ** The barrier *)

Lemma establish_spec request now s receipts s' :
  answers_for → establish_durability limits registry request now s = (Ok receipts, s') →
  ∃ w required req, rtc moves (services s.2) w ∧ demanded request required ∧ required_of request w req ∧
    ∀ c, part_of request w c → ∃ r, r ∈ receipts ∧ enough required req c r.
Proof.
  intros Hans He. unfold establish_durability in He. destruct s as [lease n].
  apply stm_bind_Ok in He as ([] & s1 & (n1 & Hs1 & ->)%on_node_Ok & He).
  apply stm_bind_Ok in He as ([] & s2 & (n2 & Hs2 & ->)%on_node_Ok & He).
  apply stm_bind_Ok in He as (required & s3 & (n3 & Hs3 & ->)%on_node_Ok & He).
  pose proof (frontier_spec request) as Hf. destruct (frontier request) as [known walk]. destruct Hf as (Hknown & Hpre & Hwalk).
  apply stm_bind_Ok in He as (reached & s4 & (n4 & [-> Hs4]%walk_roots_spec & ->)%on_node_Ok & He).
  apply stm_bind_Ok in He as (req & s5 & (n5 & [-> Hs5]%manifest_requirements_spec & ->)%on_node_Ok & He);
    [|apply receipt_requirements_spec].
  do 5 (apply stm_bind_Ok in He as (? & [??] & _ & He)).
  apply stm_bind_Ok in He as (rs & sx & (nx & Hs6 & ->)%on_node_Ok & He).
  do 3 (apply stm_bind_Ok in He as (? & ? & _ & He)). injection He as <- _.
  exists (services n3), required, req. split_and!; [| |done|].
  - pose proof (growing_fault moved moved_calls LeaderValidation n) as Hg1. pose proof (growing_fault moved moved_calls CandidateRoot n1) as Hg2.
    pose proof (required_for_grows moved moved_calls request n2) as Hg3. rewrite Hs1 in Hg1. rewrite Hs2 in Hg2. rewrite Hs3 in Hg3.
    etrans; [exact Hg1|]. by etrans.
  - unfold demanded. unfold required_for in Hs3. destruct (required_replicas request); [by injection Hs3|]. unfold on_services in Hs3.
    destruct (linearizable_namespace_state _ (services n2)) as [[st|] w'] eqn:Hst; [|done]. injection Hs3 as <- _. eauto.
  - apply receipts_for_enough in Hs6; [|done]. intros c Hc. assert (c ∈ dedup (sort_cids (known ++ reached))) as Hin.
    { rewrite elem_of_dedup, sort_cids_perm, elem_of_app, Hs4. destruct Hc; [by left; auto..|]. right. eauto. }
    apply list_elem_of_lookup in Hin as (i & Hi). destruct (Forall2_lookup_l _ _ _ _ _ Hs6 Hi) as (rb & Hrb & Hen).
    exists rb.1. split; [|done]. apply list_elem_of_fmap_2, (list_elem_of_lookup_2 _ _ _ Hrb).
Qed.

(** C27: a publication that succeeds is durable.  Given services that lose no block and a
    backend that answers for the block it is asked about, every block of the
    publication - its roots, the blocks uploaded with a receipt, and all that can be
    reached from the other roots in the blocks of the node - has a receipt in the result
    that says it is durable, with as many replicas as the request asks for or else the
    namespace, or for an erasure shard in exactly the place that its manifest or its
    upload names. *)
Theorem publish_is_durable request g now n published n' :
  answers_for → keeps_blocks → publish_guarded limits registry request g now n = (Ok published, n') →
  ∃ w required req, has_blocks (services n) w ∧ demanded request required ∧ required_of request w req ∧
    ∀ c, part_of request (services n) c → ∃ r, r ∈ published_durability published ∧ enough required req c r.
Proof.
  intros Hans Hkeep Hp. unfold publish_guarded in Hp. destruct (validate_publication_guard g) as [_|e]; [|done].
  set (input := mkCommitInput _ _) in Hp. destruct (run _ (execute interpret input) n) as [r n1] eqn:Hr.
  destruct r as [out|e]; [|done]. injection Hp as <- <-.
  apply (run_execute_Ok _ _ (λ n1, rtc moves (services n) (services n1))) in Hr as [(lease & n2 & lease' & n3 & Hm & Ho) _];
    [|intros; by etrans; [|eapply answer_moves]|done].
  cbn in Ho. destruct (establish_durability _ _ _ _ _) as [x [lease1 n4]] eqn:He. injection Ho as -> _ _.
  apply establish_spec in He as (w & required & req & Hw & Hreq & Hof & Hall); [|done].
  assert (has_blocks (services n) w) by (apply moves_blocks; [done|]; by etrans).
  exists w, required, req. split_and!; [done..|]. intros c Hc. by eapply Hall, part_blocks.
Qed.

End Facts.

(** ** Intents that cannot be applied *)
Section Wedge.
Context `{Blake3} `{!Blake3Laws} `{Hex} `{!HexLaws} `{Json PinRecord} `{!NamespaceJson} `{Json ErasureManifest} {W : Type} `{!Services W}.
Variable self : Identity.
Variable limits : PublicationLimits.
Variable registry : DagCodecRegistry.

#[local] Instance backend : ProtectionBackend PinTables := AgentProtectionBackend self.

(** A pending intent of the node protects a block whose pin was deleted. *)
Definition wedged (i : PublicationIntentRecord) (n : Node W) : Prop :=
  intent_table (metadata n) !! intent_id i = Some i ∧ intent_status i = "pending" ∧ intent_action i = Protect ∧ named (pins (pin_tables (metadata n))) ∧
  is_deleted (pins (pin_tables (metadata n))) (intent_name self i).

Lemma wedged_pending i n : wedged i n → i ∈ pending_intents (metadata n).
Proof.
  intros (Hi & Hs & _). unfold pending_intents, table_values. apply list_elem_of_filter. split; [done|].
  apply list_elem_of_fmap. exists (intent_id i, i). by rewrite elem_of_btree_iter.
Qed.

(** Services under which an intent stays in the table, as long as the node is [fine]: only
    reconciliation takes out an intent that is no proposal's. *)
Record keeps_intent (i : PublicationIntentRecord) (fine : ConsensusTables → W → Prop) : Prop := {
  keeps_calls t w w' : calls w w' → fine t w → fine t w';
  keeps_propose ns g c t w : fine t w →
    let '(_, (t', w')) := propose_command ns g c (t, w) in
    fine t' w' ∧ (live_intents t !! intent_id i = Some i → live_intents t' !! intent_id i = Some i)
}.

Section Kept.
Variable i : PublicationIntentRecord.
Variable fine : ConsensusTables → W → Prop.
Hypothesis kept : keeps_intent i fine.

Definition stuck (n : Node W) : Prop := wedged i n ∧ fine (consensus_tables (metadata n)) (services n).

(** Pins are inserted, and the intent stays. *)
Definition only_pins (n n' : Node W) : Prop :=
  fine (consensus_tables (metadata n)) (services n) →
  fine (consensus_tables (metadata n')) (services n') ∧ inserts (pin_tables (metadata n)) (pin_tables (metadata n')) ∧
  (intent_table (metadata n) !! intent_id i = Some i → intent_table (metadata n') !! intent_id i = Some i).

#[local] Instance only_pins_preorder : PreOrder only_pins.
Proof.
  split; [intros n Hf; split_and!; [done|apply inserts_refl|done]|].
  intros n1 n2 n3 H12 H23 Hf. destruct (H12 Hf) as (Hf2 & I12 & E12). destruct (H23 Hf2) as (Hf3 & I23 & E23).
  split_and!; [done|by eapply inserts_trans|eauto].
Qed.

Lemma only_pins_stuck n n' : only_pins n n' → stuck n → stuck n'.
Proof.
  intros Ho [(Hi & Hs & Ha & Hn & Hd) Hf]. destruct (Ho Hf) as (Hf' & [ws Hws] & Hk).
  split; [|done]. split_and!; [by apply Hk|done|done|by eapply inserts_named|by eapply inserts_keep_deleted].
Qed.

Lemma only_pins_tables m m' w :
  inserts (pin_tables m) (pin_tables m') → consensus_tables m' = consensus_tables m → only_pins (mkNode m w) (mkNode m' w).
Proof. intros Hins Heq Hf. unfold intent_table. cbn in *. by rewrite Heq. Qed.

Lemma only_pins_calls m w w' : calls w w' → only_pins (mkNode m w) (mkNode m w').
Proof. intros Hc Hf. split_and!; [by eapply keeps_calls|apply inserts_refl|done]. Qed.

Lemma only_pins_propose n ns g c : only_pins n (on_replica (propose_command ns g c) n).2.
Proof.
  intros Hf. pose proof (keeps_propose _ _ kept ns g c _ _ Hf) as Hk. unfold on_replica.
  destruct (propose_command _ _ _ _) as [r [t w]]. destruct Hk as [Hf' Hk]. split_and!; [done|apply inserts_refl|done].
Qed.

Lemma reconcile_fails n : stuck n → ∃ e n', coordinator_reconcile n = (Err e, n') ∧ stuck n'.
Proof.
  intros [Hw Hf]. unfold coordinator_reconcile, mbind, stm_bind, fault, on_services.
  pose proof (keeps_calls _ _ kept _ _ _ (calls_hit (services n) PinIntentApply) Hf) as Hf1.
  destruct (hit PinIntentApply (services n)) as [[[]|e] w]; [|by eexists e, _].
  pose proof Hw as (_ & _ & Ha & Hn & Hd). pose proof (wedged_pending i n Hw) as Hp. unfold reconcile_pin_intents. cbn [metadata].
  rewrite bool_decide_eq_false_2 by (intros Hnil; rewrite Hnil in Hp; by apply elem_of_nil in Hp).
  unfold mbind, stm_bind, on_pins. cbn [apply_pin_intents backend AgentProtectionBackend metadata services].
  destruct (reprotection_fails self (pin_tables (metadata n)) (unix_seconds w) _ i Hn Hp Ha Hd) as [e ->].
  by exists e, (mkNode (set_pins (pin_tables (metadata n)) (metadata n)) w).
Qed.

Lemma answer_keeps_stuck o n x n' : stuck n → answer_call limits registry o n = (x, n') → stuck n'.
Proof.
  intros Hw Ho. destruct (answer_grows limits registry only_pins) with o n x n' as [Hg|(r & p & ev & res & ->)];
    [apply only_pins_calls|apply only_pins_propose|intros; apply only_pins_tables; [|done]..|done| |].
  - apply agent_protect_many_inserts.
  - apply agent_release_many_grouped_inserts.
  - by eapply insert_all_inserts.
  - apply inserts_refl.
  - apply inserts_refl.
  - by eapply only_pins_stuck.
  - cbn in Ho. destruct (reconcile_fails n Hw) as (err & n1 & Hr & Hg). rewrite Hr in Ho. by injection Ho as <- <-.
Qed.

Lemma stuck_fails request g now n :
  stuck n → ∃ e n', publish_guarded limits registry request g now n = (Err e, n') ∧ stuck n'.
Proof.
  intros Hw. unfold publish_guarded. destruct (validate_publication_guard g) as [_|e]; [|by exists e, n].
  set (input := mkCommitInput _ _). destruct (run _ (execute interpret input) n) as [r n'] eqn:Hr.
  assert (stuck n') by (by eapply (run_keeps _ stuck); [intros; by eapply answer_keeps_stuck|..]).
  destruct r as [out|e]; [exfalso|by exists e, n'].
  apply (run_execute_Ok _ _ stuck) in Hr as [_ (p & n1 & n2 & Hn1 & Ho)]; [|intros; by eapply answer_keeps_stuck|done].
  cbn in Ho. destruct (reconcile_fails n1 Hn1) as (e & n3 & Hf & _). by rewrite Hf in Ho.
Qed.
End Kept.

(** ** Entries that are applied again *)
Context `{Openraft} `{Json Merkle.Node} `{Json CursorRecord} {S : Type} `{!ConsensusDataBackend S}.
Context `{Json PersistedStateMachine} `{Json StoredMembership}.

(** The intents of the entries that a replica applies. *)
Definition yields (now : Z) (es : list Entry) (m : StateMachineStore S) (intents : list PublicationIntentRecord) : Prop :=
  ∃ p s, apply_entries now (mkProgress (memory m) [] [] [] false) es (data_store m) = (Ok p, s) ∧ publication_intents p = intents.

Lemma commands_pending index now cs : ∀ st (s : Buffered S) rs intents st' s',
  apply_commands index now cs st s = (rs, intents, st', s') → Forall (λ i, intent_status i = "pending") intents.
Proof.
  induction cs as [|c cs IH]; intros st s rs intents st' s' Hc; cbn [apply_commands] in Hc; [by injection Hc as _ <- _ _|].
  destruct (adapter_apply c st s) as [[r st1] s1]. destruct r as [result|e];
    destruct (apply_commands index now cs st1 s1) as [[[rs2 more] st2] s2] eqn:Hmore; injection Hc as _ <- _ _; [|by eapply IH].
  apply Forall_app_2; [|by eapply IH]. rewrite Forall_fmap. by apply Forall_true.
Qed.

Lemma yields_pending now es m intents : yields now es m intents → Forall (λ i, intent_status i = "pending") intents.
Proof.
  intros (p & s & Hes & <-). revert Hes. generalize (data_store m).
  assert (Forall (λ i, intent_status i = "pending") (publication_intents (mkProgress (memory m) [] [] [] false))) as Hp by constructor.
  revert Hp. generalize (mkProgress (memory m) [] [] [] false). induction es as [|e es IH]; intros q Hq s0 Hes; [by injection Hes as <- _|].
  apply stm_bind_Ok in Hes as (q1 & s1 & He & Hes). eapply IH, Hes. unfold apply_entry in He.
  destruct (entry_payload e) as [|cs|mem]; [by injection He as <- _| |by injection He as <- _].
  destruct (apply_commands _ now cs _ _) as [[[rs is_] st] b] eqn:Hc. destruct (flush b) as [[[]|f] u]; [|done]. injection He as <- _.
  apply Forall_app_2; [done|by eapply commands_pending].
Qed.

Lemma insert_last (intents : list PublicationIntentRecord) i (live : gmap string PublicationIntentRecord) :
  NoDup (intent_id <$> intents) → i ∈ intents → foldl (λ live i, <[intent_id i := i]> live) live intents !! intent_id i = Some i.
Proof.
  revert live. induction intents as [|j intents IH]; intros live Hnd Hi; [by apply elem_of_nil in Hi|].
  apply NoDup_cons in Hnd as [Hj Hnd]. cbn [foldl]. apply elem_of_cons in Hi as [->|Hi]; [|by apply IH].
  assert (∀ live' : gmap string PublicationIntentRecord, live' !! intent_id j = Some j → foldl (λ live i, <[intent_id i := i]> live) live' intents !! intent_id j = Some j) as Hk.
  { clear IH Hnd. induction intents as [|k intents IH]; intros live' Hl; [done|]. cbn [foldl]. apply IH; [by intros ?; apply Hj; right|].
    rewrite lookup_insert_ne; [done|]. intros Heq. apply Hj. rewrite <-Heq. by left. }
  apply Hk, lookup_insert_eq.
Qed.

Lemma apply_log_inserts now es m t rs m' t' intents i :
  apply_log now es (m, t) = (Ok rs, (m', t')) → yields now es m intents → NoDup (intent_id <$> intents) → i ∈ intents →
  live_intents t' !! intent_id i = Some i.
Proof.
  intros Ha (p & s & Hes & <-) Hnd Hi. unfold apply_log in Ha. rewrite Hes in Ha.
  assert (live_intents (persist_intents_sync (machine_group m) (publication_intents p) (resolved_log_indexes p) t) !! intent_id i = Some i) as Hlive.
  { unfold persist_intents_sync. destruct (foldl _ _ (resolved_log_indexes p)) as [live retired]. cbn. by apply insert_last. }
  destruct (_ || _); [|by injection Ha as _ _ <-]. unfold persist_state_sync in Ha.
  destruct (to_vec (next p)); [destruct (to_vec (membership (next p)))|]; [|done..]. by injection Ha as _ _ <-.
Qed.

(** Publications one after the other. *)
Fixpoint publish_all (requests : list (PublicationRequest * PublicationGuard * Z)) (n : Publication.Node W)
    : list (result PublicationError PublicationResult) :=
  match requests with
  | [] => []
  | (request, g, at_) :: requests => let '(r, n) := publish_guarded limits registry request g at_ n in r :: publish_all requests n
  end.

(** C28: entries that are applied again can stop a node for good.  When the replica of a
    node applies entries - again after a restart, or the retry of a request - that yield
    an intent to protect a block for a reason whose pin was released in the meantime,
    every publication of the node fails from then on, whatever it publishes and whatever
    the services answer, although its command may have committed. *)
Theorem replay_stops_publication now es m n rs m' t' intents i fine requests :
  apply_log now es (m, consensus_tables (metadata n)) = (Ok rs, (m', t')) →
  yields now es m intents → NoDup (intent_id <$> intents) → i ∈ intents → intent_action i = Protect →
  named (pins (pin_tables (metadata n))) → is_deleted (pins (pin_tables (metadata n))) (intent_name self i) →
  keeps_intent i fine → fine t' (services n) →
  Forall (λ r, is_Ok r = false) (publish_all requests (mkNode (set_consensus t' (metadata n)) (services n))).
Proof.
  intros Ha Hy Hnd Hi Hact Hn Hd Hkeep Hf. set (n' := mkNode _ _). pose proof (yields_pending _ _ _ _ Hy) as Hs.
  rewrite Forall_forall in Hs.
  assert (stuck i fine n') as Hw by (split; [|done]; split_and!; [|by apply Hs|done..]; by eapply apply_log_inserts).
  clear Ha. revert Hw. generalize n'. induction requests as [|[[request g] at_] requests IH]; intros n0 Hw; cbn [publish_all]; [constructor|].
  destruct (stuck_fails i fine Hkeep request g at_ n0 Hw) as (e & n1 & -> & Hw1). constructor; [done|by apply IH].
Qed.
End Wedge.
