(* ===== verification/Dataset.v ===== *)
(** * Versioned datasets

    The crate crates/pepper-dataset: descriptors of dataset roots, the changed
    frontier of an update and its exact base, plans that read slices of packs, and
    the cache that keeps the blocks of leased snapshots. *)
From stdpp Require Import base gmap sets list strings sorting.
From Stdlib Require Import Strings.Byte.
From S2P Require Import Prelude Types.

Inductive DatasetError :=
| DatasetInvalid (message : string)
| DatasetLimit (message : string)
| DatasetStorage (message : string).

Definition DatasetError_to_string (e : DatasetError) : string :=
  match e with
  | DatasetInvalid m => "invalid dataset: " +:+ m
  | DatasetLimit m => "dataset limit exceeded: " +:+ m
  | DatasetStorage m => "dataset storage failed: " +:+ m
  end.

(** ** Roots *)

Inductive IndexKind := SparseMerkle | FixedFanout (fanout depth : N).

Definition IndexKind_depth (k : IndexKind) : N := match k with SparseMerkle => 256 | FixedFanout _ depth => depth end.

Definition IndexKind_validate (k : IndexKind) : result DatasetError unit :=
  match k with
  | SparseMerkle => Ok ()
  | FixedFanout fanout depth =>
      fail_if (negb ((2 <=? fanout)%N && (0 <? depth)%N && is_power_of_two fanout))
        (DatasetInvalid "fixed-fanout index requires a power-of-two fanout and nonzero depth")
  end.

Record DatasetRoot := mkDatasetRoot {
  product : string;
  format_version : N;
  dataset_generation : N;
  index_kind : IndexKind;
  index_root : Cid;
  previous_root : option Cid;
  logical_bytes : N
}.

Definition DatasetRoot_validate (r : DatasetRoot) : result DatasetError unit :=
  _ ← fail_if (bool_decide (product r = "") || (64 <? slen (product r))%N || (format_version r =? 0)%N
               || (dataset_generation r =? 0)%N) (DatasetInvalid "invalid root descriptor header");
  IndexKind_validate (index_kind r).

Record ExactBase := mkExactBase { base_generation : N; base_root : Cid }.

(** ** The changed frontier *)

Record MutationFrontier := mkMutationFrontier {
  changed_keys : N;
  index_depth : N;
  candidate_index_root : Cid;
  new_index_nodes : list Cid;
  new_data_roots : list Cid;
  verified_descendants : list Cid
}.

Record FrontierStats := mkFrontierStats {
  stats_changed_keys : N;
  stats_index_nodes : N;
  stats_data_roots : N;
  stats_descendants : N;
  validation_objects : N;
  maximum_index_nodes : N
}.

(** Insert the CIDs one by one into a set that has none of them yet. *)
Definition insert_unique {E} (e : E) (cids : list Cid) (unique : gset Cid) : result E (gset Cid) :=
  try_foldl (λ (unique : gset Cid) cid, _ ← fail_if (bool_decide (cid ∈ unique)) e; Ok ({[cid]} ∪ unique)) unique cids.

Definition frontier_cids (f : MutationFrontier) : list Cid := new_index_nodes f ++ new_data_roots f ++ verified_descendants f.

Definition MutationFrontier_validate (f : MutationFrontier) : result DatasetError FrontierStats :=
  _ ← fail_if ((index_depth f =? 0)%N || (65536 <? index_depth f)%N) (DatasetLimit "index depth");
  below ← ok_or (checked_mul u64_max (changed_keys f) (index_depth f)) (DatasetLimit "frontier node bound");
  maximum_nodes ← ok_or (checked_add u64_max 1 below) (DatasetLimit "frontier node bound");
  _ ← fail_if (maximum_nodes <? len (new_index_nodes f))%N
        (DatasetLimit ("index frontier contains " +:+ fmt_radix 10 (len (new_index_nodes f)) +:+ " nodes, bound is "
                       +:+ fmt_radix 10 maximum_nodes));
  _ ← (if (changed_keys f =? 0)%N then
         fail_if (negb (bool_decide (new_index_nodes f = [])) || negb (bool_decide (new_data_roots f = [])))
           (DatasetInvalid "unchanged frontier declares new objects")
       else
         fail_if (negb (bool_decide (candidate_index_root f ∈ new_index_nodes f)))
           (DatasetInvalid "changed candidate index root is absent from its frontier"));
  unique ← insert_unique (DatasetInvalid "frontier categories overlap or contain duplicates") (frontier_cids f) ∅;
  Ok (mkFrontierStats (changed_keys f) (len (new_index_nodes f)) (len (new_data_roots f)) (len (verified_descendants f))
        (1 + N.of_nat (size unique)) maximum_nodes).

Definition required_objects (f : MutationFrontier) (outer_root : Cid) : result DatasetError (list Cid) :=
  _ ← MutationFrontier_validate f;
  let required := outer_root :: frontier_cids f in
  _ ← insert_unique (DatasetInvalid "outer root overlaps its strong-link frontier") required ∅;
  Ok required.

Record PreparedDatasetArtifact := mkArtifact {
  exact_base : ExactBase;
  candidate_root : Cid;
  artifact_descriptor : DatasetRoot;
  artifact_frontier : MutationFrontier
}.

Definition PreparedDatasetArtifact_validate (a : PreparedDatasetArtifact) : result DatasetError FrontierStats :=
  let d := artifact_descriptor a in
  _ ← DatasetRoot_validate d;
  _ ← fail_if (negb (dataset_generation d =? saturating_add u64_max (base_generation (exact_base a)) 1)%N
               || negb (bool_decide (previous_root d = Some (base_root (exact_base a))))
               || negb (bool_decide (index_root d = candidate_index_root (artifact_frontier a)))
               || bool_decide (candidate_root a = base_root (exact_base a)))
        (DatasetInvalid "candidate does not advance the exact protected base");
  MutationFrontier_validate (artifact_frontier a).

(** ** Index adapters

    The boundary that products implement for their own index formats. *)

Record BulkRead (V : Type) := mkDatasetBulkRead { bulk_values : list (option V); unique_index_nodes : N }.
Arguments mkDatasetBulkRead {_}.
Arguments bulk_values {_}.
Arguments unique_index_nodes {_}.

Record IndexUpdate (R : Type) := mkIndexUpdate { update_root : R; update_frontier : MutationFrontier }.
Arguments mkIndexUpdate {_}.
Arguments update_root {_}.
Arguments update_frontier {_}.

Class IndexAdapter (S Root Key Value Mutation : Type) := {
  adapter_kind : IndexKind;
  adapter_get_many : S → Root → list Key → result DatasetError (BulkRead Value);
  adapter_apply : Root → list Mutation → stm S DatasetError (IndexUpdate Root)
}.

(** ** Reading slices of packs *)

Record PackSlice := mkSlice {
  output_index : N;
  slice_pack : Cid;
  slice_offset : N;
  slice_length : N;
  blake3_hex : option string
}.

Record PackReadPlan := mkPlan { slices : list PackSlice; plan_packs : list Cid; output_bytes : N }.

Definition index_le (a b : PackSlice) : Prop := (output_index a <= output_index b)%N.
#[local] Instance index_le_dec : RelDecision index_le.
Proof. intros a b. unfold index_le. apply _. Defined.

(** [slices.sort_by_key(|slice| slice.output_index)] *)
Definition sort_slices (l : list PackSlice) : list PackSlice := merge_sort index_le l.

Definition hex_digit (b : byte) : bool :=
  let n := Byte.to_N b in (48 <=? n)%N && (n <=? 57)%N || (97 <=? n)%N && (n <=? 102)%N.

(** One slice at its place: the next place and the bytes so far. *)
Definition check_slice (acc : N * N) (s : PackSlice) : result DatasetError (N * N) :=
  let '(expected, bytes) := acc in
  _ ← fail_if (negb (output_index s =? expected)%N || (slice_length s =? 0)%N)
        (DatasetInvalid "pack slices must cover each output position exactly once");
  _ ← ok_or (checked_add u32_max (slice_offset s) (slice_length s)) (DatasetLimit "pack slice range");
  _ ← fail_if (is_some_and (λ digest, negb (slen digest =? 64)%N || negb (forallb hex_digit (as_bytes digest))) (blake3_hex s))
        (DatasetInvalid "invalid BLAKE3 digest");
  bytes ← ok_or (checked_add u64_max bytes (slice_length s)) (DatasetLimit "pack output bytes");
  Ok ((expected + 1)%N, bytes).

(** The packs in the order in which they first occur. *)
Fixpoint first_packs (seen : gset Cid) (l : list PackSlice) : list Cid :=
  match l with
  | [] => []
  | s :: l => if decide (slice_pack s ∈ seen) then first_packs seen l else slice_pack s :: first_packs ({[slice_pack s]} ∪ seen) l
  end.

Definition PackReadPlan_build (l : list PackSlice) (maximum_slices maximum_output_bytes : N) : result DatasetError PackReadPlan :=
  _ ← fail_if (bool_decide (l = []) || (maximum_slices <? len l)%N) (DatasetLimit "pack slice count");
  let l := sort_slices l in
  '(_, bytes) ← try_foldl check_slice (0, 0)%N l;
  _ ← fail_if (maximum_output_bytes <? bytes)%N (DatasetLimit "pack output bytes");
  Ok (mkPlan l (first_packs ∅ l) bytes).

Section Packs.
Context `{Blake3} `{Hex}.

(** [blake3::hash(bytes).to_hex()] *)
Definition hash_hex (b : bytes) : string := hex_lower (blake3_hash b).

Definition read_slice (packs : gmap Cid bytes) (s : PackSlice) : result DatasetError bytes :=
  pack ← ok_or (packs !! slice_pack s) (DatasetStorage ("missing pack " +:+ Cid_to_string (slice_pack s)));
  stop ← ok_or (checked_add u64_max (slice_offset s) (slice_length s)) (DatasetInvalid "pack slice exceeds its backing pack");
  _ ← fail_if (len pack <? stop)%N (DatasetInvalid "pack slice exceeds its backing pack");
  let b := take (N.to_nat (slice_length s)) (drop (N.to_nat (slice_offset s)) pack) in
  _ ← fail_if (is_some_and (λ expected, negb (bool_decide (hash_hex b = expected))) (blake3_hex s))
        (DatasetInvalid ("pack slice " +:+ fmt_radix 10 (output_index s) +:+ " failed verification"));
  Ok b.

Definition assemble (plan : PackReadPlan) (packs : gmap Cid bytes) : result DatasetError bytes :=
  try_foldl (λ out s, b ← read_slice packs s; Ok (out ++ b)) [] (slices plan).

End Packs.

(** ** The snapshot cache *)

Inductive CacheAdmission := ReuseExpected | Scan.
#[export] Instance CacheAdmission_eq_dec : EqDecision CacheAdmission.
Proof. solve_decision. Defined.

Record CacheEntry := mkCacheEntry { entry_bytes : bytes; entry_snapshots : gset Cid }.

Record CacheState := mkCacheState {
  cache_entries : gmap Cid CacheEntry;
  cache_order : list Cid;
  active_snapshots : gmap Cid N;
  scan_ghosts : gset Cid;
  cache_bytes : N
}.

Definition cache_new : CacheState := mkCacheState ∅ [] ∅ ∅ 0.

Definition with_order (s : CacheState) (order : list Cid) : CacheState :=
  mkCacheState (cache_entries s) order (active_snapshots s) (scan_ghosts s) (cache_bytes s).
Definition with_entries (s : CacheState) (entries : gmap Cid CacheEntry) : CacheState :=
  mkCacheState entries (cache_order s) (active_snapshots s) (scan_ghosts s) (cache_bytes s).
Definition with_active (s : CacheState) (active : gmap Cid N) : CacheState :=
  mkCacheState (cache_entries s) (cache_order s) active (scan_ghosts s) (cache_bytes s).
Definition with_ghosts (s : CacheState) (ghosts : gset Cid) : CacheState :=
  mkCacheState (cache_entries s) (cache_order s) (active_snapshots s) ghosts (cache_bytes s).

(** Remove the first occurrence. *)
Definition remove_first (cid : Cid) (order : list Cid) : list Cid :=
  match list_find (cid =.) order with Some (i, _) => delete i order | None => order end.

Definition touch (order : list Cid) (cid : Cid) : list Cid := remove_first cid order ++ [cid].

(** Taking, cloning and dropping a lease. *)
Definition lease (snapshot : Cid) (s : CacheState) : CacheState :=
  with_active s (<[snapshot := (default 0 (active_snapshots s !! snapshot) + 1)%N]> (active_snapshots s)).

(** A clone counts as one more lease of the same snapshot. *)
Definition clone_lease (snapshot : Cid) (s : CacheState) : CacheState :=
  with_active s (<[snapshot := (default 0 (active_snapshots s !! snapshot) + 1)%N]> (active_snapshots s)).

Definition drop_lease (snapshot : Cid) (s : CacheState) : CacheState :=
  match active_snapshots s !! snapshot with
  | None => s
  | Some count =>
      with_active s (if (count - 1 =? 0)%N then delete snapshot (active_snapshots s)
                     else <[snapshot := (count - 1)%N]> (active_snapshots s))
  end.

Definition cache_get (cid : Cid) (s : CacheState) : option bytes * CacheState :=
  match cache_entries s !! cid with
  | None => (None, s)
  | Some e => (Some (entry_bytes e), with_order s (touch (cache_order s) cid))
  end.

Definition retain_for_snapshot (snapshot cid : Cid) (s : CacheState) : bool * CacheState :=
  match cache_entries s !! cid with
  | None => (false, s)
  | Some e => (true, with_entries s (<[cid := mkCacheEntry (entry_bytes e) ({[snapshot]} ∪ entry_snapshots e)]> (cache_entries s)))
  end.

(** No snapshot that uses the entry is leased. *)
Definition evictable (s : CacheState) (cid : Cid) : bool :=
  match cache_entries s !! cid with
  | None => false
  | Some e => forallb (λ snapshot, negb (bool_decide (is_Some (active_snapshots s !! snapshot)))) (elements (entry_snapshots e))
  end.

Definition evict (victim_index : nat) (victim : Cid) (s : CacheState) : CacheState :=
  let order := delete victim_index (cache_order s) in
  match cache_entries s !! victim with
  | None => with_order s order
  | Some removed =>
      mkCacheState (delete victim (cache_entries s)) order (active_snapshots s) (scan_ghosts s)
        (saturating_sub (cache_bytes s) (len (entry_bytes removed)))
  end.

(** Evict until there is room: [false] when nothing more can go.  Every round takes
    an element out of the order, so its length bounds the rounds. *)
Fixpoint make_room (maximum_bytes size : N) (rounds : nat) (s : CacheState) : bool * CacheState :=
  if (maximum_bytes <? saturating_add u64_max (cache_bytes s) size)%N then
    match list_find (λ c, evictable s c = true) (cache_order s), rounds with
    | Some (i, victim), S rounds => make_room maximum_bytes size rounds (evict i victim s)
    | _, _ => (false, s)
    end
  else (true, s).

Definition cache_insert (maximum_bytes : N) (snapshot : option Cid) (cid : Cid) (b : bytes) (admission : CacheAdmission)
    (s : CacheState) : bool * CacheState :=
  if (maximum_bytes <? len b)%N then (false, s)
  else match cache_entries s !! cid with
  | Some e =>
      let e := match snapshot with Some snapshot => mkCacheEntry (entry_bytes e) ({[snapshot]} ∪ entry_snapshots e) | None => e end in
      (true, with_order (with_entries s (<[cid := e]> (cache_entries s))) (touch (cache_order s) cid))
  | None =>
      if bool_decide (admission = Scan) && negb (bool_decide (cid ∈ scan_ghosts s))
      then (false, with_ghosts s ({[cid]} ∪ scan_ghosts s))
      else
        let s := if bool_decide (admission = Scan) then with_ghosts s (scan_ghosts s ∖ {[cid]}) else s in
        match make_room maximum_bytes (len b) (length (cache_order s)) s with
        | (false, s) => (false, s)
        | (true, s) =>
            (true, mkCacheState (<[cid := mkCacheEntry b (match snapshot with Some c => {[c]} | None => ∅ end)]> (cache_entries s))
                     (cache_order s ++ [cid]) (active_snapshots s) (scan_ghosts s) (cache_bytes s + len b))
        end
  end.

Definition insert_verified `{Blake3} (maximum_bytes : N) (snapshot : option Cid) (cid : Cid) (b : bytes) (admission : CacheAdmission)
    (s : CacheState) : bool * CacheState :=
  if Cid_verify cid b then cache_insert maximum_bytes snapshot cid b admission s else (false, s).

Definition insert_resolved : N → option Cid → Cid → bytes → CacheAdmission → CacheState → bool * CacheState := cache_insert.

Definition current_bytes (s : CacheState) : N := cache_bytes s.
