(* ===== verification/DatasetFacts.v ===== *)
(** * Facts about versioned datasets

    The frontier of an update, the plan that reads slices of packs, and the cache:
    its accounting, and what a lease protects. *)
From stdpp Require Import base gmap sets list strings sorting.
From S2P Require Import Prelude Types Dataset.

(** ** Sets of listed elements *)

Lemma size_listed {A} `{Countable A} (l : list A) : size (list_to_set l : gset A) ≤ length l.
Proof.
  induction l as [|a l IH]; [done|]. rewrite list_to_set_cons. cbn [length].
  rewrite size_union_alt, size_singleton. pose proof (subseteq_size (list_to_set l ∖ {[a]}) (list_to_set l : gset A)). specialize (H0 ltac:(set_solver)). lia.
Qed.

Lemma size_listed_distinct {A} `{Countable A} (l : list A) : size (list_to_set l : gset A) = length l → NoDup l.
Proof.
  induction l as [|a l IH]; [constructor|]. rewrite list_to_set_cons. cbn [length]. intros Hs.
  pose proof (size_listed l) as Hl. destruct (decide (a ∈ l)) as [Hin|Hout].
  - rewrite subseteq_union_1_L in Hs by (apply singleton_subseteq_l; by apply elem_of_list_to_set). lia.
  - constructor; [done|]. apply IH. rewrite size_union, size_singleton in Hs; [lia|]. apply disjoint_singleton_l.
    by rewrite elem_of_list_to_set.
Qed.

(** ** The changed frontier *)

Lemma insert_unique_spec {E} (e : E) l (unique unique' : gset Cid) :
  insert_unique e l unique = Ok unique'
  ↔ NoDup l ∧ (∀ c, c ∈ l → c ∉ unique) ∧ unique' = list_to_set l ∪ unique.
Proof.
  unfold insert_unique. revert unique. induction l as [|c l IH]; intros unique; cbn [try_foldl].
  - split; [intros [= <-]|intros (_ & _ & ->); f_equal; set_solver].
    split; [constructor|split; set_solver].
  - destruct (decide (c ∈ unique)) as [Hin|Hout].
    + rewrite bool_decide_true by done. split; [done|]. intros (_ & Hn & _). destruct (Hn c); [left|done].
    + rewrite bool_decide_false by done. cbn [fail_if mbind result_bind].
      rewrite IH, NoDup_cons, list_to_set_cons. split.
      * intros (Hd & Hn & ->). split; [split; [intros Hc; apply (Hn c Hc); set_solver|done]|].
        split; [intros d [->|Hd']%elem_of_cons; [done|specialize (Hn d Hd'); set_solver]|set_solver].
      * intros ((Hc & Hd) & Hn & ->). split; [done|]. split; [|set_solver].
        intros d Hd' [->%elem_of_singleton|Hu]%elem_of_union; [done|]. apply (Hn d); [by right|done].
Qed.

(** What a valid frontier declares. *)
Record frontier_ok (f : MutationFrontier) : Prop := {
  frontier_depth : (0 < index_depth f ≤ 65536)%N;
  frontier_fits : (1 + changed_keys f * index_depth f ≤ u64_max)%N;
  frontier_bound : (len (new_index_nodes f) ≤ 1 + changed_keys f * index_depth f)%N;
  frontier_unchanged : changed_keys f = 0%N → new_index_nodes f = [] ∧ new_data_roots f = [];
  frontier_root : changed_keys f ≠ 0%N → candidate_index_root f ∈ new_index_nodes f;
  frontier_distinct : NoDup (frontier_cids f)
}.

Definition frontier_stats (f : MutationFrontier) : FrontierStats :=
  mkFrontierStats (changed_keys f) (len (new_index_nodes f)) (len (new_data_roots f)) (len (verified_descendants f))
    (1 + len (frontier_cids f)) (1 + changed_keys f * index_depth f).

Lemma validate_frontier f stats :
  MutationFrontier_validate f = Ok stats ↔ frontier_ok f ∧ stats = frontier_stats f.
Proof.
  unfold MutationFrontier_validate, frontier_stats. split.
  - intros ([] & Hd%fail_if_Ok & (below & Hb%ok_or_Ok & (most & Hm%ok_or_Ok & ([] & Hn%fail_if_Ok & ([] & Hc &
      (unique & (Hdup & _ & ->)%insert_unique_spec & [= <-])%bind_Ok)%bind_Ok)%bind_Ok)%bind_Ok)%bind_Ok)%bind_Ok.
    apply checked_mul_Some in Hb as [-> Hb]. apply checked_add_Some in Hm as [-> Hm].
    rewrite orb_false_iff, N.eqb_neq, N.ltb_ge in Hd. rewrite N.ltb_ge in Hn. rewrite union_empty_r_L, size_list_to_set by done. split; [|done].
    destruct (N.eqb_spec (changed_keys f) 0) as [Hz|Hz]; apply fail_if_Ok in Hc;
      rewrite ?orb_false_iff, ?negb_false_iff, ?bool_decide_eq_true in Hc; split; done || lia || (intros ?; done || lia).
  - intros [[Hd Hf Hb Hu Hr Hn] ->].
    apply bind_Ok. exists (). split; [apply fail_if_Ok; rewrite orb_false_iff, N.eqb_neq, N.ltb_ge; lia|].
    apply bind_Ok. eexists. split; [apply ok_or_Ok, checked_mul_Some; split; [done|lia]|].
    apply bind_Ok. eexists. split; [apply ok_or_Ok, checked_add_Some; split; [done|lia]|].
    apply bind_Ok. exists (). split; [by apply fail_if_Ok, N.ltb_ge|].
    apply bind_Ok. exists (). split.
    { destruct (N.eqb_spec (changed_keys f) 0) as [Hz|Hz]; apply fail_if_Ok.
      - destruct (Hu Hz) as [-> ->]. done.
      - by rewrite bool_decide_true by auto. }
    apply bind_Ok. eexists. split; [apply insert_unique_spec; split; [done|split; [set_solver|done]]|].
    by rewrite union_empty_r_L, size_list_to_set by done.
Qed.

Lemma required_frontier f outer_root l :
  required_objects f outer_root = Ok l
  ↔ frontier_ok f ∧ outer_root ∉ frontier_cids f ∧ l = outer_root :: frontier_cids f.
Proof.
  unfold required_objects. rewrite bind_Ok. split.
  - intros (stats & [Hf _]%validate_frontier & (u & (Hn & _)%insert_unique_spec & [= <-])%bind_Ok).
    split; [done|]. by apply NoDup_cons in Hn as [Hn _].
  - intros (Hf & Hn & ->). exists (frontier_stats f). split; [by apply validate_frontier|].
    apply bind_Ok. eexists. split; [|done]. apply insert_unique_spec. split; [|split; [set_solver|done]].
    constructor; [done|apply Hf].
Qed.

(** A prepared artifact that validates is the direct successor of the base it
    names (its generation, but for the last one, is the next, its previous root is the
    base and its own root another); the frontier it has to make durable is the outer
    root and each listed object once, at most one index node for the root and one per
    level and changed key, with the candidate's index root among them when a key
    changed; and the statistics count exactly these objects. *)
Theorem artifact_advances a stats :
  PreparedDatasetArtifact_validate a = Ok stats →
  let d := artifact_descriptor a in
  let f := artifact_frontier a in
  ((base_generation (exact_base a) < u64_max)%N → dataset_generation d = (base_generation (exact_base a) + 1)%N)
  ∧ previous_root d = Some (base_root (exact_base a)) ∧ candidate_root a ≠ base_root (exact_base a)
  ∧ index_root d = candidate_index_root f
  ∧ (changed_keys f ≠ 0%N → index_root d ∈ new_index_nodes f)
  ∧ (len (new_index_nodes f) ≤ maximum_index_nodes stats)%N
  ∧ (candidate_root a ∉ frontier_cids f → ∃ l, required_objects f (candidate_root a) = Ok l ∧ NoDup l
     ∧ len l = validation_objects stats ∧ ∀ c, c ∈ l ↔ c = candidate_root a ∨ c ∈ frontier_cids f).
Proof.
  intros ([] & _ & ([] & Hg%fail_if_Ok & [Hf ->]%validate_frontier)%bind_Ok)%bind_Ok. cbn zeta.
  rewrite !orb_false_iff, !negb_false_iff, !bool_decide_eq_true, bool_decide_eq_false, N.eqb_eq in Hg.
  destruct Hg as [[[Hg Hp] Hi] Hc]. pose proof Hf as [_ _ Hb _ Hr Hn].
  split; [intros Hlt; rewrite Hg; apply saturating_add_exact; lia|].
  do 3 (split; [done|]). split; [intros Hz; rewrite Hi; auto|]. split; [done|].
  intros Hout. exists (candidate_root a :: frontier_cids (artifact_frontier a)).
  split; [by apply required_frontier|]. split; [by constructor|].
  split; [unfold frontier_stats, len; cbn [validation_objects length]; lia|]. intros c. by rewrite elem_of_cons.
Qed.

(** ** Reading slices of packs *)

Definition valid_digest (digest : string) : Prop := slen digest = 64%N ∧ forallb hex_digit (as_bytes digest) = true.

(** A slice that [build] accepts at place [i]. *)
Record slice_ok (i : N) (s : PackSlice) : Prop := {
  slice_place : output_index s = i;
  slice_nonempty : slice_length s ≠ 0%N;
  slice_range : (slice_offset s + slice_length s ≤ u32_max)%N;
  slice_digest : ∀ digest, blake3_hex s = Some digest → valid_digest digest
}.

Definition slices_length (l : list PackSlice) : N := foldr (λ s n, (slice_length s + n)%N) 0%N l.

Lemma check_slice_Ok i n s j m :
  check_slice (i, n) s = Ok (j, m) →
  slice_ok i s ∧ j = (i + 1)%N ∧ m = (n + slice_length s)%N ∧ (n + slice_length s ≤ u64_max)%N.
Proof.
  intros ([] & Hp%fail_if_Ok & (r & [_ Hr]%ok_or_Ok%checked_add_Some & ([] & Hd%fail_if_Ok &
    (m' & [-> Hm]%ok_or_Ok%checked_add_Some & [= <- <-])%bind_Ok)%bind_Ok)%bind_Ok)%bind_Ok.
  rewrite orb_false_iff, negb_false_iff, N.eqb_eq, N.eqb_neq in Hp. destruct Hp as [Hp Hz].
  split; [split; try done|done]. intros digest Hs. rewrite Hs in Hd. cbn [is_some_and] in Hd.
  by rewrite orb_false_iff, !negb_false_iff, N.eqb_eq in Hd.
Qed.

Lemma check_slices l : ∀ i n j m,
  try_foldl check_slice (i, n) l = Ok (j, m) →
  (∀ k s, l !! k = Some s → slice_ok (i + N.of_nat k) s) ∧ m = (n + slices_length l)%N.
Proof.
  induction l as [|s l IH]; intros i n j m; cbn [try_foldl slices_length foldr].
  - intros [= <- <-]. split; [done|lia].
  - intros ([i' n'] & (Hs & -> & -> & _)%check_slice_Ok & [Hl ->]%IH)%bind_Ok.
    split; [|unfold slices_length; lia]. intros [|k] s' Hk.
    + injection Hk as <-. by rewrite N.add_0_r.
    + replace (i + N.of_nat (S k))%N with (i + 1 + N.of_nat k)%N by lia. by apply Hl.
Qed.

Lemma first_packs_spec l : ∀ seen,
  NoDup (first_packs seen l) ∧ ∀ c, c ∈ first_packs seen l ↔ c ∉ seen ∧ ∃ s, s ∈ l ∧ slice_pack s = c.
Proof.
  induction l as [|s l IH]; intros seen; cbn [first_packs].
  - split; [constructor|]. set_solver.
  - case_decide as Hseen; [destruct (IH seen) as [Hn Hc]|destruct (IH ({[slice_pack s]} ∪ seen)) as [Hn Hc]].
    + split; [done|]. intros c. rewrite Hc. set_solver.
    + split; [constructor; [rewrite Hc; set_solver|done]|]. intros c. rewrite elem_of_cons, Hc.
      destruct (decide (c = slice_pack s)) as [->|Hne]; set_solver.
Qed.

Section Packs.
Context `{Blake3} `{Hex}.

(** The bytes that a slice denotes in the given packs. *)
Definition slice_bytes (packs : gmap Cid bytes) (s : PackSlice) : bytes :=
  take (N.to_nat (slice_length s)) (drop (N.to_nat (slice_offset s)) (default [] (packs !! slice_pack s))).

(** The packs hold the slice, with the digest it declares. *)
Definition readable (packs : gmap Cid bytes) (s : PackSlice) : Prop :=
  (∃ pack, packs !! slice_pack s = Some pack ∧ (slice_offset s + slice_length s ≤ len pack)%N)
  ∧ ∀ digest, blake3_hex s = Some digest → hash_hex (slice_bytes packs s) = digest.

Lemma read_slice_spec packs s b :
  (slice_offset s + slice_length s ≤ u64_max)%N →
  read_slice packs s = Ok b ↔ readable packs s ∧ b = slice_bytes packs s.
Proof.
  intros Hfit. unfold read_slice, readable, slice_bytes. split.
  - intros (pack & Hp%ok_or_Ok & (stop & [-> _]%ok_or_Ok%checked_add_Some & ([] & Hl%fail_if_Ok & ([] & Hd%fail_if_Ok &
      [= <-])%bind_Ok)%bind_Ok)%bind_Ok)%bind_Ok.
    rewrite Hp. cbn [default]. split; [split; [exists pack; split; [done|by apply N.ltb_ge]|]|done].
    intros digest Hs. rewrite Hs in Hd. cbn [is_some_and] in Hd. by rewrite negb_false_iff, bool_decide_eq_true in Hd.
  - intros [[(pack & Hp & Hl) Hd] ->]. rewrite Hp in Hd |- *. cbn [default] in Hd |- *.
    apply bind_Ok. exists pack. split; [done|]. apply bind_Ok. eexists. split; [by apply ok_or_Ok, checked_add_Some|].
    apply bind_Ok. exists (). split; [by apply fail_if_Ok, N.ltb_ge|].
    apply bind_Ok. exists (). split; [|done]. apply fail_if_Ok. destruct (blake3_hex s); [|done]. cbn [is_some_and].
    by rewrite bool_decide_true by auto.
Qed.

Lemma assemble_slices packs l : ∀ out acc,
  Forall (λ s, (slice_offset s + slice_length s ≤ u64_max)%N) l →
  try_foldl (λ out s, b ← read_slice packs s; Ok (out ++ b)) acc l = Ok out
  ↔ Forall (readable packs) l ∧ out = acc ++ concat (slice_bytes packs <$> l).
Proof.
  induction l as [|s l IH]; intros out acc Hfit; cbn [try_foldl].
  - rewrite app_nil_r. split; [by intros [= <-]|by intros [_ ->]].
  - apply Forall_cons in Hfit as [Hs Hl]. rewrite bind_Ok, Forall_cons, fmap_cons. cbn [concat]. split.
    + intros (acc' & (b & Hr & [= <-])%bind_Ok & Hf).
      apply read_slice_spec in Hr as [Hr ->]; [|done]. apply IH in Hf as [Hf ->]; [|done]. by rewrite <-app_assoc.
    + intros [[Hr Hf] ->]. exists (acc ++ slice_bytes packs s). split.
      * apply bind_Ok. exists (slice_bytes packs s). split; [by apply read_slice_spec|done].
      * apply IH; [done|]. by rewrite <-app_assoc.
Qed.

Lemma slices_bytes_length packs l :
  Forall (readable packs) l → len (concat (slice_bytes packs <$> l)) = slices_length l.
Proof.
  induction 1 as [|s l [(pack & Hp & Hl) _] _ IH]; [done|].
  rewrite fmap_cons. cbn [concat slices_length foldr]. unfold slices_length in IH. rewrite <-IH.
  unfold len in *. rewrite length_app. unfold slice_bytes at 1. rewrite Hp. cbn [default].
  rewrite length_take, length_drop. unfold id. lia.
Qed.

(** A plan that [build] accepts has the given slices in the order of their output
    positions, which are 0, 1, 2, ... without a gap, and names each backing pack once;
    [assemble] then succeeds exactly when every slice lies within its pack and has the
    digest it declares, and returns the slices' bytes one after the other: exactly
    [output_bytes] of them, within the caller's bound. *)
Theorem pack_plan_correct l maximum_slices maximum_output_bytes plan :
  PackReadPlan_build l maximum_slices maximum_output_bytes = Ok plan →
  slices plan ≡ₚ l
  ∧ (∀ i s, slices plan !! i = Some s → output_index s = N.of_nat i)
  ∧ NoDup (plan_packs plan)
  ∧ (∀ c, c ∈ plan_packs plan ↔ ∃ s, s ∈ l ∧ slice_pack s = c)
  ∧ (output_bytes plan ≤ maximum_output_bytes)%N
  ∧ ∀ packs out, assemble plan packs = Ok out
    ↔ Forall (readable packs) l ∧ out = concat (slice_bytes packs <$> slices plan) ∧ len out = output_bytes plan.
Proof.
  intros ([] & _ & ([j m] & Hc%check_slices & ([] & Hm%fail_if_Ok & [= <-])%bind_Ok)%bind_Ok)%bind_Ok.
  cbn [slices plan_packs output_bytes]. destruct Hc as [Hc ->]. apply N.ltb_ge in Hm.
  assert (Hp : sort_slices l ≡ₚ l) by apply merge_sort_Permutation.
  destruct (first_packs_spec (sort_slices l) ∅) as [Hn Hin].
  split; [done|]. split; [intros i s Hi; by destruct (Hc i s Hi)|]. split; [done|].
  split; [intros c; rewrite Hin; setoid_rewrite Hp; set_solver|]. split; [done|].
  intros packs out. unfold assemble. cbn [slices]. rewrite assemble_slices.
  2:{ apply Forall_lookup. intros i s Hi. destruct (Hc i s Hi) as [_ _ Hr _]. unfold u32_max, u64_max in *. lia. }
  rewrite <-(Forall_Permutation (readable packs) (readable packs) (λ _, iff_refl _) _ _ Hp). cbn [app].
  split; [intros [Hf ->]|by intros (Hf & -> & _)].
  split; [done|]. split; [done|]. by apply slices_bytes_length.
Qed.

End Packs.

(** ** The snapshot cache *)

Definition total_bytes (entries : gmap Cid CacheEntry) : N :=
  map_fold (λ _ e n, (len (entry_bytes e) + n)%N) 0%N entries.

Lemma cache_total_insert entries c e :
  entries !! c = None → total_bytes (<[c := e]> entries) = (len (entry_bytes e) + total_bytes entries)%N.
Proof. intros Hc. unfold total_bytes. rewrite map_fold_insert_L; [done|intros; lia|done]. Qed.

Lemma cache_total_delete entries c e :
  entries !! c = Some e → total_bytes entries = (len (entry_bytes e) + total_bytes (delete c entries))%N.
Proof. intros Hc. rewrite <-(insert_delete_id entries c e Hc) at 1. apply cache_total_insert, lookup_delete_eq. Qed.

Lemma cache_total_update entries c e e' :
  entries !! c = Some e → entry_bytes e' = entry_bytes e → total_bytes (<[c := e']> entries) = total_bytes entries.
Proof.
  intros Hc Heq. rewrite (cache_total_delete entries c e Hc), <-Heq, <-insert_delete_eq.
  apply cache_total_insert, lookup_delete_eq.
Qed.

(** The order lists the cached blocks once each, the size is theirs and within the
    bound, and a snapshot that is listed as leased has a lease. *)
Record cache_ok (maximum_bytes : N) (s : CacheState) : Prop := {
  order_distinct : NoDup (cache_order s);
  order_entries c : c ∈ cache_order s ↔ is_Some (cache_entries s !! c);
  bytes_total : cache_bytes s = total_bytes (cache_entries s);
  bytes_bound : (cache_bytes s ≤ maximum_bytes)%N;
  leases_positive c n : active_snapshots s !! c = Some n → n ≠ 0%N
}.

Definition leases (snapshot : Cid) (s : CacheState) : N := default 0%N (active_snapshots s !! snapshot).

(** A block that a leased snapshot uses. *)
Definition protected (s : CacheState) (c : Cid) : Prop :=
  ∃ e snapshot, cache_entries s !! c = Some e ∧ snapshot ∈ entry_snapshots e ∧ is_Some (active_snapshots s !! snapshot).

Lemma evictable_spec s c :
  evictable s c = true ↔ is_Some (cache_entries s !! c) ∧ ¬ protected s c.
Proof.
  unfold evictable, protected. destruct (cache_entries s !! c) as [e|]; [|naive_solver].
  rewrite forallb_forall. setoid_rewrite <-list_elem_of_In. setoid_rewrite elem_of_elements.
  setoid_rewrite negb_true_iff. setoid_rewrite bool_decide_eq_false. split; [|intros [_ Hn]; naive_solver].
  intros Hall. split; [done|]. intros (e' & snapshot & [= <-] & Hin & Ha). by apply (Hall snapshot).
Qed.

Lemma remove_first_spec c order :
  NoDup order → c ∈ order → c :: remove_first c order ≡ₚ order.
Proof.
  intros Hn Hc. unfold remove_first.
  destruct (list_find (c =.) order) as [[i d]|] eqn:Hf.
  - apply list_find_Some in Hf as (Hi & <- & _). symmetry. by apply delete_Permutation.
  - apply list_find_None, Forall_forall with (x := c) in Hf; done.
Qed.

Lemma touch_perm c order : NoDup order → c ∈ order → touch order c ≡ₚ order.
Proof. intros Hn Hc. unfold touch. by rewrite <-Permutation_cons_append, remove_first_spec. Qed.

Lemma order_ok maximum_bytes s order : order ≡ₚ cache_order s → cache_ok maximum_bytes s → cache_ok maximum_bytes (with_order s order).
Proof. intros Hp [Hd Ho Ht Hb Hl]. split; cbn; [by rewrite Hp|intros c; by rewrite Hp|done..]. Qed.

Lemma update_ok maximum_bytes s c e e' :
  cache_entries s !! c = Some e → entry_bytes e' = entry_bytes e → cache_ok maximum_bytes s →
  cache_ok maximum_bytes (with_entries s (<[c := e']> (cache_entries s))).
Proof.
  intros Hc Heq [Hd Ho Ht Hb Hl]. split; cbn; [done| |by rewrite (cache_total_update _ _ e)|done..].
  intros d. rewrite Ho. destruct (decide (d = c)) as [->|Hne].
  - rewrite lookup_insert_eq, Hc. by split; intros _; eexists.
  - by rewrite lookup_insert_ne.
Qed.

Lemma evict_spec maximum_bytes s i victim e :
  cache_ok maximum_bytes s → cache_order s !! i = Some victim → cache_entries s !! victim = Some e →
  let s' := evict i victim s in
  cache_ok maximum_bytes s' ∧ cache_entries s' = delete victim (cache_entries s)
  ∧ active_snapshots s' = active_snapshots s ∧ scan_ghosts s' = scan_ghosts s
  ∧ length (cache_order s) = S (length (cache_order s')).
Proof.
  intros [Hd Ho Ht Hb Hl] Hi Hv. unfold evict. rewrite Hv. cbn.
  pose proof (delete_Permutation _ _ _ Hi) as Hp. set (order := delete i (cache_order s)) in *.
  pose proof (cache_total_delete _ _ _ Hv) as Hsum.
  rewrite Hp in Hd. apply NoDup_cons in Hd as [Hout Hd].
  split; [split; cbn; [done| |unfold saturating_sub; lia|unfold saturating_sub; lia|done]|split_and!; try done; by apply Permutation_length in Hp].
  intros c. destruct (decide (c = victim)) as [->|Hne].
  - rewrite lookup_delete_eq. split; [done|by intros [? [=]]].
  - rewrite lookup_delete_ne, <-Ho, Hp by done. set_solver.
Qed.

(** What making room leaves of a cache. *)
Record shrunk (s s' : CacheState) : Prop := {
  shrunk_active : active_snapshots s' = active_snapshots s;
  shrunk_ghosts : scan_ghosts s' = scan_ghosts s;
  shrunk_subset : cache_entries s' ⊆ cache_entries s;
  shrunk_protected c : protected s c → cache_entries s' !! c = cache_entries s !! c
}.

Lemma shrunk_refl s : shrunk s s.
Proof. by split. Qed.

Lemma evict_shrunk maximum_bytes s i victim :
  cache_ok maximum_bytes s → cache_order s !! i = Some victim → evictable s victim = true →
  cache_ok maximum_bytes (evict i victim s) ∧ shrunk s (evict i victim s)
  ∧ length (cache_order s) = S (length (cache_order (evict i victim s))).
Proof.
  intros Hok Hi [[e He] Hfree]%evictable_spec.
  destruct (evict_spec maximum_bytes s i victim e Hok Hi He) as (Hok' & Hent & Hact & Hg & Hlen).
  split; [done|]. split; [|done]. split; [done|done|rewrite Hent; apply delete_subseteq|].
  intros c Hc. rewrite Hent. apply lookup_delete_ne. intros ->. done.
Qed.

Lemma shrunk_trans s1 s2 s3 : shrunk s1 s2 → shrunk s2 s3 → shrunk s1 s3.
Proof.
  intros [Ha Hg Hs Hp] [Ha' Hg' Hs' Hp']. split; [congruence|congruence|by etrans|].
  intros c Hc. rewrite Hp'; [by apply Hp|]. destruct Hc as (e & snapshot & He & Hin & Hact).
  exists e, snapshot. rewrite Ha, Hp; [done|]. by exists e, snapshot.
Qed.

Lemma no_victim maximum_bytes s :
  cache_ok maximum_bytes s → list_find (λ c, evictable s c = true) (cache_order s) = None →
  ∀ c, is_Some (cache_entries s !! c) → protected s c.
Proof.
  intros Hok Hf c Hc. pose proof Hc as Hin%(order_entries _ _ Hok).
  apply list_find_None, Forall_forall with (x := c) in Hf; [|done]. destruct Hc as [e He].
  destruct (decide (set_Exists (λ snapshot, is_Some (active_snapshots s !! snapshot)) (entry_snapshots e)))
    as [(snapshot & Hs & Ha)|Hn]; [by exists e, snapshot|].
  exfalso. apply Hf, evictable_spec. split; [by exists e|]. intros (e' & snapshot & He' & Hs & Ha).
  apply Hn. exists snapshot. by simplify_eq.
Qed.

Lemma make_room_spec maximum_bytes size : (maximum_bytes < u64_max)%N → ∀ rounds s,
  cache_ok maximum_bytes s → length (cache_order s) ≤ rounds →
  let '(room, s') := make_room maximum_bytes size rounds s in
  cache_ok maximum_bytes s' ∧ shrunk s s'
  ∧ if room then (cache_bytes s' + size ≤ maximum_bytes)%N
    else (maximum_bytes < cache_bytes s' + size)%N ∧ ∀ c, is_Some (cache_entries s' !! c) → protected s' c.
Proof.
  intros Hmax rounds. induction rounds as [|rounds IH]; intros s Hok Hlen; cbn [make_room].
  all: destruct (N.ltb_spec maximum_bytes (saturating_add u64_max (cache_bytes s) size)) as [Hfull|Hroom];
    [|split; [done|split; [apply shrunk_refl|unfold saturating_add in Hroom; lia]]].
  all: assert (Hover : (maximum_bytes < cache_bytes s + size)%N) by (unfold saturating_add in Hfull; lia).
  all: destruct (list_find _ (cache_order s)) as [[i victim]|] eqn:Hf;
    [apply list_find_Some in Hf as (Hi & Hv & _)|by eauto using shrunk_refl, no_victim].
  { apply lookup_lt_Some in Hi. lia. }
  destruct (evict_shrunk maximum_bytes s i victim Hok Hi Hv) as (Hok' & Hs & Hl).
  specialize (IH _ Hok' ltac:(lia)). destruct (make_room _ _ _ _) as [room s'].
  destruct IH as (Hok'' & Hs' & Hr). eauto using shrunk_trans.
Qed.

(** *** Sequences of calls *)

Inductive CacheCall :=
| CallLease (snapshot : Cid)
| CallClone (snapshot : Cid)
| CallDrop (snapshot : Cid)
| CallGet (cid : Cid)
| CallRetain (snapshot cid : Cid)
| CallInsert (snapshot : option Cid) (cid : Cid) (b : bytes) (admission : CacheAdmission).

Definition cache_call (maximum_bytes : N) (s : CacheState) (call : CacheCall) : CacheState :=
  match call with
  | CallLease snapshot => lease snapshot s
  | CallClone snapshot => clone_lease snapshot s
  | CallDrop snapshot => drop_lease snapshot s
  | CallGet cid => (cache_get cid s).2
  | CallRetain snapshot cid => (retain_for_snapshot snapshot cid s).2
  | CallInsert snapshot cid b admission => (insert_resolved maximum_bytes snapshot cid b admission s).2
  end.

Definition cache_calls (maximum_bytes : N) (s : CacheState) (calls : list CacheCall) : CacheState :=
  foldl (cache_call maximum_bytes) s calls.

(** What an insertion does: it keeps what leases protect; it answers [true] exactly
    when the block is cached afterwards. *)
Record inserted (maximum_bytes : N) (snapshot : option Cid) (cid : Cid) (b : bytes) (admission : CacheAdmission)
    (s : CacheState) (answer : bool) (s' : CacheState) : Prop := {
  inserted_ok : cache_ok maximum_bytes s';
  inserted_active : active_snapshots s' = active_snapshots s;
  inserted_kept c e : cache_entries s !! c = Some e → protected s c →
    ∃ e', cache_entries s' !! c = Some e' ∧ entry_bytes e' = entry_bytes e ∧ entry_snapshots e ⊆ entry_snapshots e';
  inserted_answer : answer = true → ∃ e, cache_entries s' !! cid = Some e
    ∧ entry_bytes e = default b (entry_bytes <$> cache_entries s !! cid)
    ∧ (∀ c, snapshot = Some c → c ∈ entry_snapshots e);
  inserted_refused : answer = false → (maximum_bytes < len b)%N
    ∨ cache_entries s !! cid = None
      ∧ (admission = Scan ∧ cid ∉ scan_ghosts s ∧ cid ∈ scan_ghosts s'
         ∨ (maximum_bytes < cache_bytes s' + len b)%N ∧ ∀ c, is_Some (cache_entries s' !! c) → protected s' c)
}.

Lemma update_inserted maximum_bytes snapshot cid b admission s e e' :
  cache_ok maximum_bytes s → cache_entries s !! cid = Some e → entry_bytes e' = entry_bytes e →
  entry_snapshots e ⊆ entry_snapshots e' → (∀ c, snapshot = Some c → c ∈ entry_snapshots e') →
  inserted maximum_bytes snapshot cid b admission s true
    (with_order (with_entries s (<[cid := e']> (cache_entries s))) (touch (cache_order s) cid)).
Proof.
  intros Hok He Heq Hsub Hsn. split; cbn; [| |intros c d Hd _|intros _|done].
  - apply order_ok; [|by eapply update_ok]. apply touch_perm; [apply Hok|]. by apply (order_entries _ _ Hok); eexists.
  - done.
  - destruct (decide (c = cid)) as [->|Hne]; simplify_eq.
    + exists e'. by rewrite lookup_insert_eq.
    + exists d. by rewrite lookup_insert_ne.
  - exists e'. rewrite lookup_insert_eq, He. done.
Qed.

Lemma admission_ok maximum_bytes s cid e :
  cache_ok maximum_bytes s → cache_entries s !! cid = None → (cache_bytes s + len (entry_bytes e) ≤ maximum_bytes)%N →
  cache_ok maximum_bytes (mkCacheState (<[cid := e]> (cache_entries s)) (cache_order s ++ [cid]) (active_snapshots s)
    (scan_ghosts s) (cache_bytes s + len (entry_bytes e))).
Proof.
  intros [Hd Ho Ht Hb Hl] Hc Hfit. split; cbn.
  - apply NoDup_app. split; [done|]. split; [|apply NoDup_singleton].
    intros c Hin ->%list_elem_of_singleton. apply Ho in Hin. rewrite Hc in Hin. by destruct Hin.
  - intros c. rewrite elem_of_app, list_elem_of_singleton, Ho. destruct (decide (c = cid)) as [->|Hne].
    + rewrite lookup_insert_eq. split; [by eexists|by right].
    + rewrite lookup_insert_ne by done. naive_solver.
  - rewrite cache_total_insert by done. lia.
  - done.
  - done.
Qed.

Lemma ghosts_ok maximum_bytes s ghosts : cache_ok maximum_bytes s → cache_ok maximum_bytes (with_ghosts s ghosts).
Proof. by intros [Hd Ho Ht Hb Hl]. Qed.

Lemma fresh_inserted maximum_bytes snapshot cid b admission s s0 :
  (maximum_bytes < u64_max)%N → cache_ok maximum_bytes s → cache_entries s !! cid = None →
  cache_entries s0 = cache_entries s → cache_order s0 = cache_order s → active_snapshots s0 = active_snapshots s →
  cache_bytes s0 = cache_bytes s →
  let '(answer, s') := match make_room maximum_bytes (len b) (length (cache_order s0)) s0 with
    | (false, s) => (false, s)
    | (true, s) =>
        (true, mkCacheState (<[cid := mkCacheEntry b (match snapshot with Some c => {[c]} | None => ∅ end)]> (cache_entries s))
                 (cache_order s ++ [cid]) (active_snapshots s) (scan_ghosts s) (cache_bytes s + len b))
    end in
  inserted maximum_bytes snapshot cid b admission s answer s'.
Proof.
  intros Hmax Hok Hc He Ho Ha Hb.
  assert (Hok0 : cache_ok maximum_bytes s0) by (destruct Hok; split; by rewrite ?He, ?Ho, ?Ha, ?Hb).
  pose proof (make_room_spec maximum_bytes (len b) Hmax (length (cache_order s0)) s0 Hok0 (le_n _)) as Hroom.
  assert (Hprot : ∀ c, protected s c → protected s0 c) by (unfold protected; by rewrite He, Ha).
  destruct (make_room _ _ _ s0) as [[] s1]; destruct Hroom as (Hok1 & [Ha1 _ Hsub Hp] & Hr).
  all: assert (Hc1 : cache_entries s1 !! cid = None) by (eapply lookup_weaken_None; [|done]; by rewrite He).
  - split; [by apply admission_ok|cbn; congruence|cbn; intros c e Hce Hpc|cbn; intros _|done].
    + exists e. rewrite lookup_insert_ne by (intros ->; congruence). rewrite Hp, He by auto. done.
    + eexists. rewrite lookup_insert_eq, Hc. split; [done|]. split; [done|]. intros c ->. cbn. set_solver.
  - split; [done|congruence|intros c e Hce Hpc|done|intros _; right; by auto].
    exists e. by rewrite Hp, He by auto.
Qed.

Lemma insert_spec maximum_bytes snapshot cid b admission s :
  (maximum_bytes < u64_max)%N → cache_ok maximum_bytes s →
  let '(answer, s') := insert_resolved maximum_bytes snapshot cid b admission s in
  inserted maximum_bytes snapshot cid b admission s answer s'.
Proof.
  intros Hmax Hok. unfold insert_resolved, cache_insert.
  destruct (N.ltb_spec maximum_bytes (len b)) as [Hbig|Hsmall].
  { split; [done..|intros c e He _; by exists e|done|by left]. }
  destruct (cache_entries s !! cid) as [e|] eqn:He.
  { destruct snapshot; (apply update_inserted with e; [done|done|done|cbn; set_solver|]);
      intros ? [= <-]; cbn; set_solver. }
  case_bool_decide as Ha; [case_bool_decide as Hg; cbn [negb andb]|cbn [negb andb]].
  - by apply fresh_inserted.
  - split; [by apply ghosts_ok|done|intros c d Hd _; by exists d|done|].
    intros _. right. split; [done|left]. cbn. set_solver.
  - by apply fresh_inserted.
Qed.

Lemma active_ok maximum_bytes s active :
  (∀ c n, active !! c = Some n → n ≠ 0%N) → cache_ok maximum_bytes s → cache_ok maximum_bytes (with_active s active).
Proof. by intros Ha [Hd Ho Ht Hb Hl]. Qed.

Lemma lease_ok maximum_bytes snapshot s : cache_ok maximum_bytes s → cache_ok maximum_bytes (lease snapshot s).
Proof.
  intros Hok. apply active_ok; [|done]. intros c n. rewrite lookup_insert_Some.
  intros [[_ <-]|[_ Hn]]; [lia|by eapply leases_positive].
Qed.

Lemma drop_ok maximum_bytes snapshot s : cache_ok maximum_bytes s → cache_ok maximum_bytes (drop_lease snapshot s).
Proof.
  intros Hok. unfold drop_lease. destruct (active_snapshots s !! snapshot) as [count|]; [|done].
  apply active_ok; [|done]. intros c n. destruct (N.eqb_spec (count - 1) 0).
  - intros [_ Hn]%lookup_delete_Some. by eapply leases_positive.
  - intros [[_ <-]|[_ Hn]]%lookup_insert_Some; [done|by eapply leases_positive].
Qed.

Lemma call_ok maximum_bytes s call :
  (maximum_bytes < u64_max)%N → cache_ok maximum_bytes s → cache_ok maximum_bytes (cache_call maximum_bytes s call).
Proof.
  intros Hmax Hok. destruct call as [c|c|c|c|sn c|sn c b a]; cbn [cache_call].
  - by apply lease_ok.
  - by apply (lease_ok maximum_bytes c).
  - by apply drop_ok.
  - unfold cache_get. destruct (cache_entries s !! c) as [e|] eqn:He; [|done]. apply order_ok; [|done].
    apply touch_perm; [apply Hok|]. by apply (order_entries _ _ Hok); eexists.
  - unfold retain_for_snapshot. destruct (cache_entries s !! c) as [e|] eqn:He; [|done]. by eapply update_ok.
  - pose proof (insert_spec maximum_bytes sn c b a s Hmax Hok) as Hi.
    destruct (insert_resolved _ _ _ _ _ _) as [answer s']. apply Hi.
Qed.

Lemma calls_ok maximum_bytes calls : (maximum_bytes < u64_max)%N → ∀ s,
  cache_ok maximum_bytes s → cache_ok maximum_bytes (cache_calls maximum_bytes s calls).
Proof. intros Hmax. induction calls as [|call calls IH]; intros s Hok; [done|]. by apply IH, call_ok. Qed.

Lemma new_ok maximum_bytes : cache_ok maximum_bytes cache_new.
Proof.
  split; cbn; [constructor| |done|lia|done]. intros c. rewrite lookup_empty. split; [by intros ?%elem_of_nil|by intros []].
Qed.

(** C34: after any sequence of calls the cache is well formed: its recency order lists
    exactly the cached blocks, each once; the byte count it keeps is the sum of their
    sizes and never passes the configured maximum; and every snapshot it counts as
    leased has a positive count. *)
Theorem cache_well_formed maximum_bytes calls :
  (maximum_bytes < u64_max)%N →
  let s := cache_calls maximum_bytes cache_new calls in
  cache_ok maximum_bytes s ∧ (current_bytes s ≤ maximum_bytes)%N ∧ current_bytes s = total_bytes (cache_entries s).
Proof.
  intros Hmax. pose proof (calls_ok maximum_bytes calls Hmax _ (new_ok _)) as Hok. split; [done|]. split; apply Hok.
Qed.

(** The calls never give back the last lease of the snapshot: besides one lease that is
    kept, [others] are held when they begin. *)
Fixpoint lease_held (snapshot : Cid) (others : N) (calls : list CacheCall) : bool :=
  match calls with
  | [] => true
  | CallLease c :: calls | CallClone c :: calls =>
      lease_held snapshot (if decide (c = snapshot) then others + 1 else others)%N calls
  | CallDrop c :: calls =>
      if decide (c = snapshot) then (0 <? others)%N && lease_held snapshot (others - 1) calls else lease_held snapshot others calls
  | _ :: calls => lease_held snapshot others calls
  end.

(** The block is cached with these bytes for the snapshot, which has a lease besides
    the [others]. *)
Definition holds_block (snapshot : Cid) (others : N) (cid : Cid) (b : bytes) (s : CacheState) : Prop :=
  active_snapshots s !! snapshot = Some (others + 1)%N
  ∧ ∃ e, cache_entries s !! cid = Some e ∧ entry_bytes e = b ∧ snapshot ∈ entry_snapshots e.

Lemma lease_holds snapshot others cid b s c :
  holds_block snapshot others cid b s →
  holds_block snapshot (if decide (c = snapshot) then others + 1 else others)%N cid b (lease c s).
Proof.
  intros [Ha He]. split; [|done]. cbn. case_decide as Hc.
  - subst c. rewrite lookup_insert_eq, Ha. done.
  - by rewrite lookup_insert_ne.
Qed.

Lemma drop_holds snapshot others cid b s c :
  holds_block snapshot others cid b s → (c = snapshot → 0 < others)%N →
  holds_block snapshot (if decide (c = snapshot) then others - 1 else others)%N cid b (drop_lease c s).
Proof.
  intros [Ha He] Hc. unfold drop_lease. case_decide as Heq.
  - subst c. specialize (Hc eq_refl). rewrite Ha. destruct (N.eqb_spec (others + 1 - 1) 0); [lia|].
    split; [|done]. cbn. rewrite lookup_insert_eq. f_equal. lia.
  - destruct (active_snapshots s !! c) as [count|]; [|done]. split; [|done]. cbn.
    destruct (count - 1 =? 0)%N; [by rewrite lookup_delete_ne|by rewrite lookup_insert_ne].
Qed.

Lemma quiet_holds maximum_bytes snapshot others cid b s call :
  (maximum_bytes < u64_max)%N → cache_ok maximum_bytes s → holds_block snapshot others cid b s →
  match call with CallGet _ | CallRetain _ _ | CallInsert _ _ _ _ => True | _ => False end →
  holds_block snapshot others cid b (cache_call maximum_bytes s call).
Proof.
  intros Hmax Hok [Ha (e & He & Hb & Hs)] Hq. destruct call as [c|c|c|c|sn c|sn c d a]; try done; cbn [cache_call].
  - unfold cache_get. destruct (cache_entries s !! c); (split; [done|by exists e]).
  - unfold retain_for_snapshot. destruct (cache_entries s !! c) as [e'|] eqn:Hc; [|split; [done|by exists e]].
    split; [done|]. cbn. destruct (decide (c = cid)) as [->|Hne].
    + simplify_eq. rewrite lookup_insert_eq. eexists. split; [done|]. cbn. set_solver.
    + rewrite lookup_insert_ne by done. by exists e.
  - pose proof (insert_spec maximum_bytes sn c d a s Hmax Hok) as Hi.
    destruct (insert_resolved _ _ _ _ _ _) as [answer s']. destruct Hi as [_ Ha' Hk _ _]. cbn.
    destruct (Hk cid e He) as (e' & He' & Hb' & Hsub); [exists e, snapshot; by rewrite Ha|].
    split; [by rewrite Ha'|]. exists e'. split; [done|]. split; [congruence|set_solver].
Qed.

Lemma calls_hold maximum_bytes snapshot cid b calls : (maximum_bytes < u64_max)%N → ∀ others s,
  cache_ok maximum_bytes s → holds_block snapshot others cid b s → lease_held snapshot others calls = true →
  ∃ others', holds_block snapshot others' cid b (cache_calls maximum_bytes s calls).
Proof.
  intros Hmax. induction calls as [|call calls IH]; intros others s Hok Hh Hl; [by exists others|].
  pose proof (call_ok maximum_bytes s call Hmax Hok) as Hok'.
  destruct call as [c|c|c|c|sn c|sn c d a]; cbn [lease_held] in Hl;
    try (by eapply IH; [done|apply quiet_holds|done]).
  - eapply IH; [done|by apply lease_holds|done].
  - eapply IH; [done|by apply lease_holds|done].
  - case_decide as Hc.
    + apply andb_true_iff in Hl as [Hpos%N.ltb_lt Hl]. apply (drop_holds _ _ _ _ _ c) in Hh; [|done].
      rewrite decide_True in Hh by done. by eapply IH.
    + apply (drop_holds _ _ _ _ _ c) in Hh; [|done]. rewrite decide_False in Hh by done. by eapply IH.
Qed.

(** C16: a lease protects what its snapshot uses.  Whatever calls follow (insertions
    that need room, scans, other leases taken and dropped), as long as one lease of
    the snapshot is kept, a block cached for the snapshot stays cached, and a read
    returns the same bytes. *)
Theorem leased_block_kept maximum_bytes before calls snapshot others cid b :
  (maximum_bytes < u64_max)%N →
  let s := cache_calls maximum_bytes cache_new before in
  leases snapshot s = (others + 1)%N →
  (retain_for_snapshot snapshot cid s).1 = true →
  (cache_get cid s).1 = Some b →
  lease_held snapshot others calls = true →
  (cache_get cid (cache_calls maximum_bytes (retain_for_snapshot snapshot cid s).2 calls)).1 = Some b.
Proof.
  intros Hmax s Hl Hr Hg Hheld. pose proof (calls_ok maximum_bytes before Hmax _ (new_ok _)) as Hok. fold s in Hok.
  pose proof (call_ok maximum_bytes s (CallRetain snapshot cid) Hmax Hok) as Hok'. cbn [cache_call] in Hok'.
  destruct (calls_hold maximum_bytes snapshot cid b calls Hmax others _ Hok') as (others' & _ & e & He & <- & _); [|done|].
  - unfold leases in Hl. unfold retain_for_snapshot, cache_get in *.
    destruct (cache_entries s !! cid) as [e|] eqn:He; [|done]. injection Hg as <-. split; cbn.
    + destruct (active_snapshots s !! snapshot); cbn in Hl; [by rewrite Hl|lia].
    + rewrite lookup_insert_eq. eexists. split; [done|]. cbn. set_solver.
  - unfold cache_get. by rewrite He.
Qed.
