(* ===== verification/DatasetExamples.v ===== *)
(** * Datasets at work

    Concrete frontiers, packs and caches for the theorems of [DatasetFacts]. *)
From stdpp Require Import base gmap sets list strings sorting.
From Stdlib Require Import Strings.Byte.
From S2P Require Import Prelude Types Reference Dataset DatasetFacts.

#[local] Existing Instances ref_blake3 ref_hex.

Definition block (n : byte) : Cid := Cid_new CODEC_RAW [n].

(** ** An artifact *)

Definition sample_artifact : PreparedDatasetArtifact :=
  mkArtifact (mkExactBase 6 (block x00)) (block x01)
    (mkDatasetRoot "sqlite" 1 7 (FixedFanout 256 4) (block x02) (Some (block x00)) 4096)
    (mkMutationFrontier 1 4 (block x02) [block x03; block x02] [block x04] []).

Lemma artifact_advances_witness :
  dataset_generation (artifact_descriptor sample_artifact) = 7%N
  ∧ previous_root (artifact_descriptor sample_artifact) = Some (block x00).
Proof.
  assert (Hv : PreparedDatasetArtifact_validate sample_artifact = Ok (frontier_stats (artifact_frontier sample_artifact)))
    by (vm_compute; reflexivity).
  destruct (artifact_advances sample_artifact _ Hv) as (Hg & Hp & _). split; [apply Hg; reflexivity|exact Hp].
Defined.

(** ** A plan over two packs, its slices given out of order *)

Definition sample_slices : list PackSlice :=
  [mkSlice 1 (block x01) 1 2 None; mkSlice 0 (block x02) 0 1 (Some (hash_hex [x0a])); mkSlice 2 (block x02) 1 1 None].

Definition sample_plan : PackReadPlan :=
  match PackReadPlan_build sample_slices 8 64 with Ok p => p | Err _ => mkPlan [] [] 0 end.

Definition sample_packs : gmap Cid bytes := <[block x01 := [x00; x0b; x0c]]> {[block x02 := [x0a; x0d]]}.

Lemma pack_plan_correct_witness :
  PackReadPlan_build sample_slices 8 64 = Ok sample_plan
  ∧ Forall (readable sample_packs) sample_slices
  ∧ assemble sample_plan sample_packs = Ok [x0a; x0b; x0c; x0d].
Proof.
  assert (Hb : PackReadPlan_build sample_slices 8 64 = Ok sample_plan) by (vm_compute; reflexivity).
  assert (Ha : assemble sample_plan sample_packs = Ok [x0a; x0b; x0c; x0d]) by (vm_compute; reflexivity).
  destruct (pack_plan_correct sample_slices 8 64 sample_plan Hb) as (_ & _ & _ & _ & _ & Hread).
  split; [exact Hb|]. split; [exact (proj1 (proj1 (Hread sample_packs _) Ha))|exact Ha].
Defined.

(** A slice whose bytes do not have the declared digest is refused. *)
Example tampered_pack_refused :
  assemble sample_plan (<[block x02 := [x0e; x0d]]> sample_packs) = Err (DatasetInvalid "pack slice 0 failed verification").
Proof. vm_compute. reflexivity. Qed.

(** ** A cache of four bytes *)

Definition warm_up : list CacheCall :=
  [CallLease (block xa0); CallInsert None (block x01) [x01; x01] ReuseExpected; CallInsert None (block x02) [x02; x02] ReuseExpected].

Definition churn : list CacheCall :=
  [CallClone (block xa0); CallInsert None (block x03) [x03; x03] ReuseExpected; CallDrop (block xa0);
   CallInsert None (block x04) [x04; x04; x04] ReuseExpected; CallInsert None (block x05) [x05] Scan;
   CallInsert None (block x05) [x05] Scan].

Lemma cache_well_formed_witness : (current_bytes (cache_calls 4 cache_new (warm_up ++ churn)) ≤ 4)%N.
Proof. apply (cache_well_formed 4 (warm_up ++ churn)). vm_compute. reflexivity. Defined.

Lemma leased_block_kept_witness :
  (cache_get (block x01) (cache_calls 4 (retain_for_snapshot (block xa0) (block x01) (cache_calls 4 cache_new warm_up)).2 churn)).1
  = Some [x01; x01].
Proof. apply (leased_block_kept 4 warm_up churn (block xa0) 0); vm_compute; reflexivity. Defined.

(** A refused insertion can still have evicted: the blocks that could go went before
    the leased one stopped it. *)
Example refusal_evicts :
  let s := (retain_for_snapshot (block xa0) (block x01) (cache_calls 4 cache_new warm_up)).2 in
  let '(answer, s') := insert_resolved 4 None (block x03) [x03; x03; x03] ReuseExpected s in
  answer = false ∧ (cache_get (block x02) s).1 = Some [x02; x02] ∧ (cache_get (block x02) s').1 = None.
Proof. vm_compute. repeat split. Qed.

(** Blocks seen once by a scan are remembered without a bound, in a cache of any size. *)
Example ghosts_grow :
  let calls := (λ n, CallInsert None (block n) [n] Scan) <$> [x00; x01; x02; x03; x04; x05; x06; x07] in
  let s := cache_calls 1 cache_new calls in
  size (scan_ghosts s) = 8 ∧ current_bytes s = 0%N.
Proof. vm_compute. repeat split. Qed.
