(* ===== verification/SqlitePages.v ===== *)
(** * SQLite pages (crates/pepper-sqlite/src/format.rs and page_table.rs)

    Descriptors, references to pages, and the page table: a tree of fixed depth
    over the four bytes of a page number, stored as immutable blocks and updated
    by rewriting the path to what changes. *)
From stdpp Require Import base gmap sets list strings sorting.
From Stdlib Require Import Strings.Byte.
From S2P Require Import Prelude Types Merkle Dag.

(** [SqlitePanicked] stands for a failed [expect]. *)
Inductive SqliteError :=
| Invalid (message : string)
| NonCanonical
| Limit (message : string)
| Storage (message : string)
| GenerationConflict (current_generation : N)
| Busy
| Timeout
| Fenced
| AmbiguousCommit (idempotency_key : string)
| Unsupported (message : string)
| SqlitePanicked.

Definition CODEC_SQLITE_DATABASE : Codec := 17.
Definition CODEC_SQLITE_SNAPSHOT : Codec := 18.
Definition CODEC_SQLITE_PAGE_TABLE : Codec := 19.

Definition SQLITE_FORMAT_VERSION : N := 1.
Definition DATABASE_TYPE : string := "pepper.sqlite_database".
Definition SNAPSHOT_TYPE : string := "pepper.sqlite_snapshot".
Definition PAGE_TABLE_TYPE : string := "pepper.sqlite_page_table".

(** [u32::to_be_bytes] *)
Definition page_bytes (n : N) : bytes := be_bytes 4 n.

(** ** Limits, policies and descriptors *)

Record SqliteFormatLimits := mkFormatLimits {
  max_descriptor_bytes : N;
  max_page_table_node_bytes : N;
  max_page_count : N;
  max_logical_bytes : N;
  max_page_size : N;
  max_pack_bytes : N
}.

Definition SqliteFormatLimits_default : SqliteFormatLimits :=
  mkFormatLimits (64 * 1024) (256 * 1024) 33554432 (128 * 1024 * 1024 * 1024) 65536 (4 * 1024 * 1024).

Definition SqliteFormatLimits_validate (l : SqliteFormatLimits) : result SqliteError SqliteFormatLimits :=
  if (max_descriptor_bytes l =? 0)%N || (max_page_table_node_bytes l =? 0)%N || (max_page_count l =? 0)%N
     || (max_logical_bytes l =? 0)%N || (max_page_size l <? 512)%N || negb (is_power_of_two (max_page_size l))
     || (max_pack_bytes l =? 0)%N
  then Err (Invalid "invalid format limits") else Ok l.

Inductive PageStoragePolicy :=
| ReplicatedPages (replicas : N)
| ErasurePages (data_shards parity_shards shard_copies : N)
| AdaptivePages (small_commit_replicas large_commit_data_shards large_commit_parity_shards large_commit_shard_copies
    threshold_bytes : N).

Definition valid_shards (data parity copies : N) : bool :=
  (0 <? data)%N && (0 <? parity)%N && (0 <? copies)%N
  && is_some_and (λ total, (total <=? 32)%N) (checked_add u16_max data parity).

Definition PageStoragePolicy_validate (p : PageStoragePolicy) (max_pack_bytes : N) : result SqliteError unit :=
  let ok :=
    match p with
    | ReplicatedPages replicas => (1 <=? replicas)%N && (replicas <=? 16)%N
    | ErasurePages d p c => valid_shards d p c
    | AdaptivePages replicas d p c threshold =>
        (1 <=? replicas)%N && (replicas <=? 16)%N && valid_shards d p c && (0 <? threshold)%N
        && (threshold <=? max_pack_bytes)%N
    end in
  if ok then Ok () else Err (Invalid "invalid page storage policy").

Record CachePolicyBounds := mkCacheBounds { minimum_bytes : N; maximum_bytes : N }.

Definition CachePolicyBounds_validate (b : CachePolicyBounds) (page_size : N) : result SqliteError unit :=
  fail_if ((minimum_bytes b <? page_size)%N || (maximum_bytes b <? minimum_bytes b)%N
           || (64 * 1024 * 1024 * 1024 <? maximum_bytes b)%N) (Invalid "invalid cache policy bounds").

Record DatabaseDescriptor := mkDatabase {
  database_type : string;
  database_version : N;
  database_page_size : N;
  database_max_page_count : N;
  page_pack_target_bytes : N;
  storage_policy : PageStoragePolicy;
  cache_policy_bounds : CachePolicyBounds;
  database_created_at : Z;
  database_creator : string
}.

Definition DatabaseDescriptor_new (page_size max_page_count page_pack_target_bytes : N) (storage_policy : PageStoragePolicy)
    (cache_policy_bounds : CachePolicyBounds) (created_at : Z) (creator : string) : DatabaseDescriptor :=
  mkDatabase DATABASE_TYPE SQLITE_FORMAT_VERSION page_size max_page_count page_pack_target_bytes storage_policy
    cache_policy_bounds created_at creator.

Definition DatabaseDescriptor_validate (d : DatabaseDescriptor) (limits : SqliteFormatLimits) : result SqliteError unit :=
  limits ← SqliteFormatLimits_validate limits;
  _ ← fail_if (negb (bool_decide (database_type d = DATABASE_TYPE)) || negb (database_version d =? SQLITE_FORMAT_VERSION)%N)
        (Invalid "unsupported database descriptor type or version");
  _ ← fail_if ((database_page_size d <? 512)%N || (max_page_size limits <? database_page_size d)%N
               || negb (is_power_of_two (database_page_size d)) || (database_max_page_count d =? 0)%N
               || (max_page_count limits <? database_max_page_count d)%N
               || (max_logical_bytes limits <? database_max_page_count d * database_page_size d)%N
               || (page_pack_target_bytes d <? database_page_size d)%N
               || (max_pack_bytes limits <? page_pack_target_bytes d)%N
               || negb (page_pack_target_bytes d mod database_page_size d =? 0)%N
               || (database_created_at d <? 0)%Z || bool_decide (database_creator d = "")
               || (1024 <? slen (database_creator d))%N)
        (Invalid "invalid page size, page count, or pack target");
  _ ← PageStoragePolicy_validate (storage_policy d) (max_pack_bytes limits);
  CachePolicyBounds_validate (cache_policy_bounds d) (database_page_size d).

Record SnapshotDescriptor := mkSnapshotDescriptor {
  snapshot_type : string;
  snapshot_version : N;
  database_cid : Cid;
  page_table_root_cid : Cid;
  snapshot_page_size : N;
  snapshot_page_count : N;
  logical_size : N;
  base_snapshot_cid : option Cid
}.

Definition SnapshotDescriptor_validate (d : SnapshotDescriptor) (limits : SqliteFormatLimits) : result SqliteError unit :=
  limits ← SqliteFormatLimits_validate limits;
  fail_if (negb (bool_decide (snapshot_type d = SNAPSHOT_TYPE)) || negb (snapshot_version d =? SQLITE_FORMAT_VERSION)%N
           || negb (codec (database_cid d) =? CODEC_SQLITE_DATABASE)%N
           || negb (codec (page_table_root_cid d) =? CODEC_SQLITE_PAGE_TABLE)%N
           || is_some_and (λ c, negb (codec c =? CODEC_SQLITE_SNAPSHOT)%N) (base_snapshot_cid d)
           || (snapshot_page_size d <? 512)%N || (max_page_size limits <? snapshot_page_size d)%N
           || negb (is_power_of_two (snapshot_page_size d)) || (max_page_count limits <? snapshot_page_count d)%N
           || (max_logical_bytes limits <? logical_size d)%N
           || negb (logical_size d =? snapshot_page_count d * snapshot_page_size d)%N)
    (Invalid "invalid snapshot descriptor").

(** ** Pages and nodes *)

Record PageReference := mkPage {
  page_number : N;
  pack_cid : Cid;
  page_offset : N;
  page_length : N;
  page_hash : string
}.

#[export] Instance PageReference_eq_dec : EqDecision PageReference.
Proof. solve_decision. Defined.

(** A lower-case hexadecimal digit. *)
Definition lower_hex_byte (b : byte) : bool :=
  let n := Byte.to_N b in (48 <=? n)%N && (n <=? 57)%N || (97 <=? n)%N && (n <=? 102)%N.

Definition PageReference_validate (p : PageReference) (expected_page_size : N) (limits : SqliteFormatLimits)
    : result SqliteError unit :=
  fail_if ((page_number p =? 0)%N || (max_page_count limits <? page_number p)%N
           || negb (page_length p =? expected_page_size)%N || (page_length p <? 512)%N
           || (max_page_size limits <? page_length p)%N || negb (is_power_of_two (page_length p))
           || negb (page_offset p mod expected_page_size =? 0)%N
           || (u32_max <? page_offset p + page_length p)%N
           || (max_pack_bytes limits <? page_offset p + page_length p)%N
           || negb ((codec (pack_cid p) =? CODEC_SMALL_OBJECT)%N || (codec (pack_cid p) =? CODEC_OBJECT_MANIFEST)%N
                    || (codec (pack_cid p) =? CODEC_ERASURE_MANIFEST)%N)
           || negb (slen (page_hash p) =? 64)%N || negb (forallb lower_hex_byte (as_bytes (page_hash p))))
    (Invalid ("invalid page reference " +:+ fmt_radix 10 (page_number p))).

Inductive PageTableNodeKind := Internal | Leaf.

#[export] Instance PageTableNodeKind_eq_dec : EqDecision PageTableNodeKind.
Proof. solve_decision. Defined.

Record PageTableChild := mkTableChild { edge : byte; child_node : Cid }.

#[export] Instance PageTableChild_eq_dec : EqDecision PageTableChild.
Proof. solve_decision. Defined.

Record PageTableNode := mkTableNode {
  table_type : string;
  table_version : N;
  node_kind : PageTableNodeKind;
  level : N;
  node_prefix : string;
  children : list PageTableChild;
  pages : list PageReference
}.

#[export] Instance PageTableNode_eq_dec : EqDecision PageTableNode.
Proof. solve_decision. Defined.

(** Two digits for each byte, the high one first. *)
Definition hex_prefix (bs : bytes) : string := hex_lower bs.

Definition PageTableNode_internal (l : N) (prefix : bytes) (cs : list PageTableChild) : PageTableNode :=
  mkTableNode PAGE_TABLE_TYPE SQLITE_FORMAT_VERSION Internal l (hex_prefix prefix) cs [].

Definition PageTableNode_empty_root : PageTableNode := PageTableNode_internal 0 [] [].

Definition PageTableNode_leaf (prefix : bytes) (ps : list PageReference) : PageTableNode :=
  mkTableNode PAGE_TABLE_TYPE SQLITE_FORMAT_VERSION Leaf 3 (hex_prefix prefix) [] ps.

Definition check_table_child (acc : option byte * gset Cid) (c : PageTableChild)
    : result SqliteError (option byte * gset Cid) :=
  _ ← fail_if (is_some_and (λ e, (Byte.to_N (edge c) <=? Byte.to_N e)%N) acc.1
               || negb (codec (child_node c) =? CODEC_SQLITE_PAGE_TABLE)%N || bool_decide (child_node c ∈ acc.2))
        (Invalid "unsorted or invalid page-table child");
  Ok (Some (edge c), {[child_node c]} ∪ acc.2).

Definition check_leaf_page (prefix : N) (limits : SqliteFormatLimits) (prior : option N) (p : PageReference)
    : result SqliteError (option N) :=
  _ ← fail_if (negb (bool_decide (take 3 (page_bytes (page_number p))
                                  = [byte_of (N.shiftr prefix 16); byte_of (N.shiftr prefix 8); byte_of prefix]))
               || is_some_and (λ n, (page_number p <=? n)%N) prior)
        (Invalid "unsorted page or page outside leaf prefix");
  _ ← PageReference_validate p (page_length p) limits;
  Ok (Some (page_number p)).

Definition PageTableNode_validate (n : PageTableNode) (limits : SqliteFormatLimits) : result SqliteError unit :=
  _ ← fail_if (negb (bool_decide (table_type n = PAGE_TABLE_TYPE)) || negb (table_version n =? SQLITE_FORMAT_VERSION)%N
               || negb (slen (node_prefix n) =? level n * 2)%N
               || negb (forallb lower_hex_byte (as_bytes (node_prefix n))))
        (Invalid "invalid page-table header");
  match node_kind n with
  | Internal =>
      _ ← fail_if ((2 <? level n)%N || negb (bool_decide (pages n = [])) || (256 <? len (children n))%N)
            (Invalid "invalid page-table internal node");
      _ ← try_foldl check_table_child (None, ∅) (children n);
      Ok ()
  | Leaf =>
      _ ← fail_if (negb (level n =? 3)%N || negb (bool_decide (children n = [])) || (256 <? len (pages n))%N)
            (Invalid "invalid page-table leaf");
      prefix ← map_err (λ _, Invalid "invalid leaf prefix") (from_str_radix 16 u32_max (node_prefix n));
      _ ← try_foldl (check_leaf_page prefix limits) None (pages n);
      Ok ()
  end.

(** [slice.binary_search_by_key(&key, key_of)] on a sorted slice: where the key
    is, or where it would be inserted. *)
Fixpoint search_by {A} (key_of : A → N) (key : N) (l : list A) : nat + nat :=
  match l with
  | [] => inr 0
  | x :: l =>
      if (key_of x <? key)%N then match search_by key_of key l with inl i => inl (S i) | inr i => inr (S i) end
      else if (key_of x =? key)%N then inl 0 else inr 0
  end.

Definition edge_key (c : PageTableChild) : N := Byte.to_N (edge c).

Definition set_child (cs : list PageTableChild) (e : byte) (cid : option Cid) : list PageTableChild :=
  match search_by edge_key (Byte.to_N e) cs with
  | inl i => match cid with Some cid => <[i := mkTableChild e cid]> cs | None => delete i cs end
  | inr i => match cid with Some cid => vec_insert i (mkTableChild e cid) cs | None => cs end
  end.

Definition child_at (cs : list PageTableChild) (e : byte) : option Cid :=
  (λ found, child_node found.2) <$> list_find (λ c, edge c = e) cs.

(** ** The page table *)

Inductive PageMutation := PutPage (page : PageReference) | DeletePage (number : N).

Definition mutation_number (m : PageMutation) : N :=
  match m with PutPage page => page_number page | DeletePage number => number end.

Record PageTableUpdate := mkTableUpdate { new_root : Cid; written_nodes : list Cid }.

Record PageTableValidation := mkTableValidation {
  node_count : N;
  page_count : N;
  node_cids : list Cid;
  page_pack_roots : list Cid
}.

Record PageTableBulkRead := mkBulkRead { values : list (option PageReference); unique_nodes_read : N }.

Section PageTable.
Context `{Blake3} `{Hex} `{Json PageTableNode} {S : Type} `{MerkleStore S} (limits : SqliteFormatLimits).

Definition PageTableNode_links (n : PageTableNode) : list Cid :=
  dedup (sort_cids
           match node_kind n with Internal => child_node <$> children n | Leaf => pack_cid <$> pages n end).

Definition ensure_unique_links (links : list Cid) : result SqliteError unit :=
  _ ← try_foldl (λ (seen : gset Cid) c, _ ← fail_if (bool_decide (c ∈ seen)) (Invalid "duplicate strong link"); Ok ({[c]} ∪ seen))
        ∅ links;
  Ok ().

Definition limit_message (actual max_bytes : N) : string :=
  "encoded block is " +:+ fmt_radix 10 actual +:+ " bytes, limit is " +:+ fmt_radix 10 max_bytes.

Definition encode_canonical {A} `{Json A} (value : A) (max_bytes : N) : result SqliteError bytes :=
  payload ← map_err Invalid (to_vec value);
  _ ← fail_if (max_bytes <? len payload)%N (Limit (limit_message (len payload) max_bytes));
  Ok payload.

Definition decode_canonical {A} `{Json A} (payload : bytes) (max_bytes : N) : result SqliteError A :=
  _ ← fail_if (max_bytes <? len payload)%N (Limit (limit_message (len payload) max_bytes));
  value ← map_err Invalid (from_slice payload);
  encoded ← encode_canonical value max_bytes;
  _ ← fail_if (negb (bool_decide (encoded = payload))) NonCanonical;
  Ok value.

Definition validate_page_number (n : N) : result SqliteError unit :=
  fail_if ((n =? 0)%N || (max_page_count limits <? n)%N)
    (Invalid ("page number " +:+ fmt_radix 10 n +:+ " is outside configured limits")).

Definition check_page_size (page_size : N) : result SqliteError unit :=
  fail_if ((page_size <? 512)%N || (max_page_size limits <? page_size)%N || negb (is_power_of_two page_size))
    (Invalid "invalid page size").

(** The last mutation of a page counts. *)
Definition normalize (page_size : N) (mutations : list PageMutation) : result SqliteError (gmap N PageMutation) :=
  _ ← check_page_size page_size;
  try_foldl (λ out m,
      _ ← validate_page_number (mutation_number m);
      _ ← match m with PutPage page => PageReference_validate page page_size limits | DeletePage _ => Ok () end;
      Ok (<[mutation_number m := m]> out)) ∅ mutations.

Definition get_node (s : S) (cid : Cid) : result SqliteError PageTableNode :=
  _ ← fail_if (negb (codec cid =? CODEC_SQLITE_PAGE_TABLE)%N) (Invalid "unexpected page-table codec");
  payload ← map_err Storage (store_get s cid);
  _ ← fail_if (negb (Cid_verify cid payload))
        (Storage ("page-table block " +:+ Cid_to_string cid +:+ " failed hash verification"));
  node ← decode_canonical payload (max_page_table_node_bytes limits);
  _ ← PageTableNode_validate node limits;
  Ok node.

Definition put_node (node : PageTableNode) : stm S SqliteError Cid :=
  _ ← lift (PageTableNode_validate node limits);
  payload ← lift (encode_canonical node (max_page_table_node_bytes limits));
  let expected := Cid_new CODEC_SQLITE_PAGE_TABLE payload in
  actual ← (λ s, let '(r, s') := store_put CODEC_SQLITE_PAGE_TABLE payload s in (map_err Storage r, s'));
  _ ← lift (fail_if (negb (bool_decide (actual = expected)))
              (Storage ("store returned " +:+ Cid_to_string actual +:+ ", expected " +:+ Cid_to_string expected)));
  mret actual.

Definition expect_node (node : PageTableNode) (kind : PageTableNodeKind) (l : N) (prefix : bytes) : result SqliteError unit :=
  _ ← PageTableNode_validate node limits;
  let expected := node_prefix (PageTableNode_internal l prefix []) in
  fail_if (negb (bool_decide (node_kind node = kind)) || negb (level node =? l)%N
           || negb (bool_decide (node_prefix node = expected)))
    (Invalid "page-table child is at the wrong path").

Definition empty_root : stm S SqliteError Cid := put_node PageTableNode_empty_root.

(** ** Reading *)

Definition page_in (ps : list PageReference) (number : N) : option PageReference :=
  match search_by page_number number ps with inl i => ps !! i | inr _ => None end.

(** The levels from [l] on, with the bytes of the page number from there. *)
Fixpoint get_from (load : Cid → result SqliteError PageTableNode) (l : nat) (seen rest : bytes) (number : N) (cid : Cid)
    : result SqliteError (option PageReference) :=
  node ← load cid;
  match rest with
  | e :: (_ :: _) as rest =>
      _ ← expect_node node Internal (N.of_nat l) seen;
      match child_at (children node) e with
      | None => Ok None
      | Some cid => get_from load (1 + l) (seen ++ [e]) rest number cid
      end
  | _ =>
      _ ← expect_node node Leaf 3 seen;
      Ok (page_in (pages node) number)
  end.

Definition get (s : S) (root : Cid) (number : N) : result SqliteError (option PageReference) :=
  _ ← validate_page_number number;
  get_from (get_node s) 0 [] (page_bytes number) number root.

(** A node of the request's cache, or else of the store. *)
Definition cached_node (s : S) (cid : Cid) : stm (gmap Cid PageTableNode) SqliteError PageTableNode := λ cache,
  match cache !! cid with
  | Some node => (Ok node, cache)
  | None => match get_node s cid with Ok node => (Ok node, <[cid := node]> cache) | Err e => (Err e, cache) end
  end.

(** The walk of [get] over the cache. *)
Fixpoint get_cached (s : S) (l : nat) (seen rest : bytes) (number : N) (cid : Cid)
    : stm (gmap Cid PageTableNode) SqliteError (option PageReference) :=
  node ← cached_node s cid;
  match rest with
  | e :: (_ :: _) as rest =>
      _ ← lift (expect_node node Internal (N.of_nat l) seen);
      match child_at (children node) e with
      | None => mret None
      | Some cid => get_cached s (1 + l) (seen ++ [e]) rest number cid
      end
  | _ =>
      _ ← lift (expect_node node Leaf 3 seen);
      mret (page_in (pages node) number)
  end.

Fixpoint get_each (s : S) (root : Cid) (numbers : list N) (acc : list (option PageReference))
    : stm (gmap Cid PageTableNode) SqliteError (list (option PageReference)) :=
  match numbers with
  | [] => mret acc
  | n :: numbers =>
      _ ← lift (validate_page_number n);
      v ← get_cached s 0 [] (page_bytes n) n root;
      get_each s root numbers (acc ++ [v])
  end.

Definition get_many_with_stats (s : S) (root : Cid) (numbers : list N) : result SqliteError PageTableBulkRead :=
  _ ← fail_if (256 <? len numbers)%N (Limit "page lookup batch exceeds 256");
  match get_each s root numbers [] ∅ with
  | (Ok values, cache) => Ok (mkBulkRead values (N.of_nat (size cache)))
  | (Err e, _) => Err e
  end.

Definition get_many (s : S) (root : Cid) (numbers : list N) : result SqliteError (list (option PageReference)) :=
  read ← get_many_with_stats s root numbers; Ok (values read).

(** ** Validating a whole table *)

(** What the walk carries along. *)
Record Walk := mkWalk {
  visited : gset Cid;
  walk_nodes : N;
  walk_pages : N;
  prior_page : option N;
  walk_cids : list Cid;
  walk_packs : gset Cid
}.

Definition check_page (page_size : N) (require_dense : bool) (w : Walk) (p : PageReference) : result SqliteError Walk :=
  _ ← PageReference_validate p page_size limits;
  _ ← fail_if (is_some_and (λ prior, (page_number p <=? prior)%N) (prior_page w))
        (Invalid "page-table traversal is not strictly ordered");
  _ ← fail_if (require_dense && negb (page_number p =? saturating_add u32_max (walk_pages w) 1)%N)
        (Invalid "page table is sparse");
  count ← ok_or (checked_add u32_max (walk_pages w) 1) (Limit "page-table page count");
  Ok (mkWalk (visited w) (walk_nodes w) count (Some (page_number p)) (walk_cids w) ({[pack_cid p]} ∪ walk_packs w)).

(** The nodes in the order in which the stack of the loop yields them: a node,
    then the subtrees of its children by ascending edge. *)
Fixpoint walk (s : S) (page_size : N) (require_dense : bool) (height : nat) (prefix : bytes) (cid : Cid) (w : Walk)
    : result SqliteError Walk :=
  _ ← fail_if (bool_decide (cid ∈ visited w)) (Invalid "page-table node is linked more than once or forms a cycle");
  count ← ok_or (checked_add u64_max (walk_nodes w) 1) (Limit "page-table node count");
  node ← get_node s cid;
  let w := mkWalk ({[cid]} ∪ visited w) count (walk_pages w) (prior_page w) (walk_cids w ++ [cid]) (walk_packs w) in
  match height with
  | O =>
      _ ← expect_node node Leaf 3 prefix;
      try_foldl (check_page page_size require_dense) w (pages node)
  | Datatypes.S height =>
      _ ← expect_node node Internal (2 - N.of_nat height) prefix;
      try_foldl (λ w c, walk s page_size require_dense height (prefix ++ [edge c]) (child_node c) w) w (children node)
  end.

Definition validate_complete (s : S) (root : Cid) (page_size expected_page_count : N) (require_dense : bool)
    : result SqliteError PageTableValidation :=
  _ ← normalize page_size [];
  _ ← fail_if (max_page_count limits <? expected_page_count)%N (Limit "page-table page count");
  w ← walk s page_size require_dense 3 [] root (mkWalk ∅ 0 0 None [] ∅);
  _ ← fail_if (negb (walk_pages w =? expected_page_count)%N)
        (Invalid ("page table has " +:+ fmt_radix 10 (walk_pages w) +:+ " pages, expected "
                  +:+ fmt_radix 10 expected_page_count));
  Ok (mkTableValidation (walk_nodes w) (walk_pages w) (walk_cids w) (sort_cids (elements (walk_packs w)))).

(** ** Writing *)

(** [load_child_internal] *)
Definition load_child_internal (s : S) (parent : PageTableNode) (e : byte) (l : N) (prefix : bytes)
    : result SqliteError PageTableNode :=
  match child_at (children parent) e with
  | Some cid => node ← get_node s cid; _ ← expect_node node Internal l prefix; Ok node
  | None => Ok (PageTableNode_internal l prefix [])
  end.

Definition load_leaf (s : S) (parent : PageTableNode) (e : byte) (prefix : bytes) : result SqliteError PageTableNode :=
  match child_at (children parent) e with
  | Some cid => node ← get_node s cid; _ ← expect_node node Leaf 3 prefix; Ok node
  | None => Ok (PageTableNode_leaf prefix [])
  end.

(** The nodes that a transaction has in memory, by the prefixes they stand for. *)
Abbreviation Nodes := (gmap bytes PageTableNode).

(** [if let Entry::Vacant(entry) = nodes.entry(prefix)] *)
Definition entry_or (nodes : Nodes) (prefix : bytes) (load : result SqliteError PageTableNode) : result SqliteError Nodes :=
  match nodes !! prefix with
  | Some _ => Ok nodes
  | None => node ← load; Ok (<[prefix := node]> nodes)
  end.

Record Loaded := mkLoaded { level_one : Nodes; level_two : Nodes; leaves : Nodes }.

Definition load_path (s : S) (root : PageTableNode) (loaded : Loaded) (m : PageMutation) : result SqliteError Loaded :=
  let bs := page_bytes (mutation_number m) in
  let byte i := default x00 (bs !! i) in
  one ← entry_or (level_one loaded) (take 1 bs) (load_child_internal s root (byte 0) 1 (take 1 bs));
  parent ← ok_or (one !! take 1 bs) SqlitePanicked;
  two ← entry_or (level_two loaded) (take 2 bs) (load_child_internal s parent (byte 1) 2 (take 2 bs));
  parent ← ok_or (two !! take 2 bs) SqlitePanicked;
  leaves ← entry_or (leaves loaded) (take 3 bs) (load_leaf s parent (byte 2) (take 3 bs));
  Ok (mkLoaded one two leaves).

Definition with_pages (n : PageTableNode) (ps : list PageReference) : PageTableNode :=
  mkTableNode (table_type n) (table_version n) (node_kind n) (level n) (node_prefix n) (children n) ps.
Definition with_children (n : PageTableNode) (cs : list PageTableChild) : PageTableNode :=
  mkTableNode (table_type n) (table_version n) (node_kind n) (level n) (node_prefix n) cs (pages n).

Definition mutate_pages (ps : list PageReference) (m : PageMutation) : list PageReference :=
  match search_by page_number (mutation_number m) ps, m with
  | inl i, PutPage page => <[i := page]> ps
  | inr i, PutPage page => vec_insert i page ps
  | inl i, DeletePage _ => delete i ps
  | inr _, DeletePage _ => ps
  end.

Definition mutate_leaf (leaves : Nodes) (m : PageMutation) : result SqliteError Nodes :=
  let prefix := take 3 (page_bytes (mutation_number m)) in
  leaf ← ok_or (leaves !! prefix) SqlitePanicked;
  Ok (<[prefix := with_pages leaf (mutate_pages (pages leaf) m)]> leaves).

(** Write a node unless it is empty, and remember its CID. *)
Definition put_unless (empty : bool) (node : PageTableNode) (written : list Cid) : stm S SqliteError (option Cid * list Cid) :=
  if empty then mret (None, written)
  else cid ← put_node node; mret (Some cid, written ++ [cid]).

(** One level of nodes is written and hung into the level above. *)
Fixpoint write_level (empty : PageTableNode → bool) (nodes : list (bytes * PageTableNode)) (parents : Nodes)
    (written : list Cid) : stm S SqliteError (Nodes * list Cid) :=
  match nodes with
  | [] => mret (parents, written)
  | (prefix, node) :: nodes =>
      let up := take (length prefix - 1) prefix in
      parent ← lift (ok_or (parents !! up) SqlitePanicked);
      '(cid, written) ← put_unless (empty node) node written;
      e ← lift (ok_or (last prefix) SqlitePanicked);
      write_level empty nodes (<[up := with_children parent (set_child (children parent) e cid)]> parents) written
  end.

Definition no_pages (n : PageTableNode) : bool := bool_decide (pages n = []).
Definition no_children (n : PageTableNode) : bool := bool_decide (children n = []).

(** A [BTreeMap] keyed by byte arrays is walked in the order of the bytes. *)
Definition prefix_le (x y : bytes) : Prop := bytes_leb x y = true.
#[local] Instance prefix_le_dec : RelDecision prefix_le.
Proof. intros x y. unfold prefix_le. apply _. Defined.
Definition in_order (keys : gset bytes) : list bytes := merge_sort prefix_le (elements keys).

(** The nodes at some prefixes. *)
Definition nodes_at (nodes : Nodes) (keys : gset bytes) : result SqliteError (list (bytes * PageTableNode)) :=
  try_foldl (λ acc p, node ← ok_or (nodes !! p) SqlitePanicked; Ok (acc ++ [(p, node)])) [] (in_order keys).

(** The prefixes of the parents. *)
Definition parents_of (keys : gset bytes) : gset bytes := set_map (λ p : bytes, take (length p - 1) p) keys.

Definition number_le {A} (x y : N * A) : Prop := (x.1 <= y.1)%N.
#[local] Instance number_le_dec {A} : RelDecision (@number_le A).
Proof. intros x y. unfold number_le. apply _. Defined.
Definition by_number (ms : gmap N PageMutation) : list PageMutation := (merge_sort number_le (map_to_list ms)).*2.

(** From the changed leaves up to the root. *)
Definition write_back (root_node : PageTableNode) (loaded : Loaded) (leaves : Nodes) : stm S SqliteError PageTableUpdate :=
  nodes ← lift (nodes_at leaves (dom leaves));
  '(two, written) ← write_level no_pages nodes (level_two loaded) [];
  let changed_level_two := parents_of (dom leaves) in
  nodes ← lift (nodes_at two changed_level_two);
  '(one, written) ← write_level no_children nodes (level_one loaded) written;
  nodes ← lift (nodes_at one (parents_of changed_level_two));
  '(top, written) ← write_level no_children nodes {[[] := root_node]} written;
  new_root ← lift (ok_or (top !! []) SqlitePanicked);
  new_root_cid ← put_node new_root;
  mret (mkTableUpdate new_root_cid (written ++ [new_root_cid])).

Definition apply (root : Cid) (page_size : N) (mutations : list PageMutation) : stm S SqliteError PageTableUpdate :=
  root_node ← reads (λ s, get_node s root);
  _ ← lift (expect_node root_node Internal 0 []);
  normalized ← lift (normalize page_size mutations);
  if bool_decide (normalized = ∅) then mret (mkTableUpdate root [])
  else
    loaded ← reads (λ s, try_foldl (load_path s root_node) (mkLoaded ∅ ∅ ∅) (by_number normalized));
    leaves ← lift (try_foldl mutate_leaf (leaves loaded) (by_number normalized));
    write_back root_node loaded leaves.

(** The part of [truncate] below the root: the subtree at [cid] without the pages
    above the boundary, or [None] when nothing is left.  [rest] are the bytes of the
    boundary from the node's level on. *)
Fixpoint truncate_below (l : nat) (seen rest : bytes) (new_page_count : N) (cid : Cid) (written : list Cid)
    : stm S SqliteError (option Cid * list Cid) :=
  node ← reads (λ s, get_node s cid);
  match rest with
  | e :: (_ :: _) as rest =>
      _ ← lift (expect_node node Internal (N.of_nat l) seen);
      let kept := filter (λ c, (Byte.to_N (edge c) <= Byte.to_N e)%N) (children node) in
      '(kept, written) ←
        match child_at kept e with
        | Some child =>
            '(cid, written) ← truncate_below (1 + l) (seen ++ [e]) rest new_page_count child written;
            mret (set_child kept e cid, written)
        | None => mret (kept, written)
        end;
      put_unless (bool_decide (kept = [])) (with_children node kept) written
  | _ =>
      _ ← lift (expect_node node Leaf 3 seen);
      let kept := filter (λ p, (page_number p <= new_page_count)%N) (pages node) in
      put_unless (bool_decide (kept = [])) (with_pages node kept) written
  end.

Definition truncate (root : Cid) (page_size old_page_count new_page_count : N) : stm S SqliteError PageTableUpdate :=
  _ ← lift (normalize page_size []);
  _ ← lift (fail_if ((old_page_count <? new_page_count)%N || (max_page_count limits <? old_page_count)%N)
              (Invalid "invalid page-table truncation"));
  if (new_page_count =? old_page_count)%N then mret (mkTableUpdate root [])
  else if (new_page_count =? 0)%N then
    empty ← empty_root;
    mret (mkTableUpdate empty [empty])
  else
    let boundary := page_bytes new_page_count in
    root_node ← reads (λ s, get_node s root);
    _ ← lift (expect_node root_node Internal 0 []);
    let e := default x00 (head boundary) in
    let kept := filter (λ c, (Byte.to_N (edge c) <= Byte.to_N e)%N) (children root_node) in
    match child_at kept e with
    | None =>
        new_root ← put_node (with_children root_node kept);
        mret (mkTableUpdate new_root [new_root])
    | Some level_one_cid =>
        '(cid, written) ← truncate_below 1 [e] (drop 1 boundary) new_page_count level_one_cid [];
        new_root ← put_node (with_children root_node (set_child kept e cid));
        mret (mkTableUpdate new_root (written ++ [new_root]))
    end.

(** ** Building in bulk *)

Record PageTableBulkBuilder := mkBuilder {
  builder_page_size : N;
  builder_prior : option N;
  current_prefix : option bytes;
  current_pages : list PageReference;
  builder_leaves : list (bytes * Cid);
  builder_written : list Cid
}.

Definition bulk_builder (page_size : N) : result SqliteError PageTableBulkBuilder :=
  _ ← check_page_size page_size;
  Ok (mkBuilder page_size None None [] [] []).

(** The prefix and the pages have been taken when the write fails. *)
Definition flush_leaf : stm (PageTableBulkBuilder * S) SqliteError unit := λ '(b, s),
  match current_prefix b with
  | None => (Ok (), (b, s))
  | Some prefix =>
      match put_node (PageTableNode_leaf prefix (current_pages b)) s with
      | (Ok cid, s) =>
          (Ok (), (mkBuilder (builder_page_size b) (builder_prior b) None [] (builder_leaves b ++ [(prefix, cid)])
                     (builder_written b ++ [cid]), s))
      | (Err e, s) =>
          (Err e, (mkBuilder (builder_page_size b) (builder_prior b) None [] (builder_leaves b) (builder_written b), s))
      end
  end.

Definition push (page : PageReference) : stm (PageTableBulkBuilder * S) SqliteError unit :=
  _ ← reads (λ '(b, _), PageReference_validate page (builder_page_size b) limits);
  _ ← reads (λ '(b, _), fail_if (is_some_and (λ prior, (page_number page <=? prior)%N) (builder_prior b))
                (Invalid "bulk page references must be strictly sorted"));
  let prefix := take 3 (page_bytes (page_number page)) in
  _ ← (λ '(b, s), if is_some_and (λ current, negb (bool_decide (current = prefix))) (current_prefix b)
                  then flush_leaf (b, s) else (Ok (), (b, s)));
  modify (λ '(b, s), (mkBuilder (builder_page_size b) (Some (page_number page)) (Some prefix) (current_pages b ++ [page])
                        (builder_leaves b) (builder_written b), s)).

(** The runs of neighbours with one parent, as children of that parent. *)
Fixpoint runs (nodes : list (bytes * Cid)) : list (bytes * list PageTableChild) :=
  match nodes with
  | [] => []
  | (p, cid) :: nodes =>
      let up := take (length p - 1) p in
      let child := mkTableChild (default x00 (last p)) cid in
      match runs nodes with
      | (q, cs) :: groups => if decide (up = q) then (q, child :: cs) :: groups else (up, [child]) :: (q, cs) :: groups
      | [] => [(up, [child])]
      end
  end.

Fixpoint write_runs (l : N) (groups : list (bytes * list PageTableChild)) (above : list (bytes * Cid)) (written : list Cid)
    : stm S SqliteError (list (bytes * Cid) * list Cid) :=
  match groups with
  | [] => mret (above, written)
  | (p, cs) :: groups =>
      cid ← put_node (PageTableNode_internal l p cs);
      write_runs l groups (above ++ [(p, cid)]) (written ++ [cid])
  end.

Definition finish_levels (leaves : list (bytes * Cid)) (written : list Cid) : stm S SqliteError PageTableUpdate :=
  '(level_two, written) ← write_runs 2 (runs leaves) [] written;
  '(level_one, written) ← write_runs 1 (runs level_two) [] written;
  root ← put_node (PageTableNode_internal 0 [] ((λ pc, mkTableChild (default x00 (head pc.1)) pc.2) <$> level_one));
  mret (mkTableUpdate root (written ++ [root])).

Definition finish : stm (PageTableBulkBuilder * S) SqliteError PageTableUpdate :=
  _ ← flush_leaf;
  (λ bs, let '(r, s) := finish_levels (builder_leaves bs.1) (builder_written bs.1) bs.2 in (r, (bs.1, s)))
    : stm (PageTableBulkBuilder * S) SqliteError PageTableUpdate.

End PageTable.
