(* ===== verification/SqlitePagesFacts.v ===== *)
(** * The page table implements a finite map (crates/pepper-sqlite)

    [denotes] relates a node to the pages below it.  Reads, updates, truncation and
    bulk building act on the map of pages, and the root of a table is determined by
    its map. *)
From stdpp Require Import base gmap sets list strings sorting.
From Stdlib Require Import Strings.Byte Strings.Ascii.
From S2P Require Import Prelude Types Merkle SqlitePages.

(** ** Slices sorted by a key *)

Section Sorted.
Context {A : Type} (key_of : A → N).

Definition key_lt (x y : A) : Prop := (key_of x < key_of y)%N.

Lemma search_inl key l i :
  StronglySorted key_lt l → search_by key_of key l = inl i →
  ∃ l1 x l2, l = l1 ++ x :: l2 ∧ i = length l1 ∧ key_of x = key
    ∧ Forall (λ y, key_of y < key)%N l1 ∧ Forall (λ y, key < key_of y)%N l2.
Proof.
  intros Hs. revert i. induction Hs as [|x l _ IH Hx]; intros i; [done|]. cbn [search_by].
  destruct (N.ltb_spec (key_of x) key) as [Hlt|Hge].
  - destruct (search_by key_of key l) as [j|j]; [|done]. intros [= <-].
    destruct (IH j eq_refl) as (l1 & y & l2 & -> & -> & ? & ? & ?). exists (x :: l1), y, l2. split_and!; try done. by constructor.
  - destruct (N.eqb_spec (key_of x) key) as [<-|]; [|done]. intros [= <-].
    exists [], x, l. split_and!; try done.
Qed.

Lemma search_inr key l i :
  StronglySorted key_lt l → search_by key_of key l = inr i →
  ∃ l1 l2, l = l1 ++ l2 ∧ i = length l1 ∧ Forall (λ y, key_of y < key)%N l1 ∧ Forall (λ y, key < key_of y)%N l2.
Proof.
  intros Hs. revert i. induction Hs as [|x l _ IH Hx]; intros i; cbn [search_by].
  { intros [= <-]. by exists [], []. }
  destruct (N.ltb_spec (key_of x) key) as [Hlt|Hge].
  - destruct (search_by key_of key l) as [j|j]; [done|]. intros [= <-].
    destruct (IH j eq_refl) as (l1 & l2 & -> & -> & ? & ?). exists (x :: l1), l2. split_and!; try done. by constructor.
  - destruct (N.eqb_spec (key_of x) key) as [|Hne]; [done|]. intros [= <-].
    exists [], (x :: l). split_and!; try done. constructor; [lia|]. eapply Forall_impl; [exact Hx|].
    unfold key_lt. intros. lia.
Qed.

(** Replace or insert, as the code does around a search. *)
Definition put_by (x : A) (l : list A) : list A :=
  match search_by key_of (key_of x) l with inl i => <[i := x]> l | inr i => vec_insert i x l end.
Definition del_by (key : N) (l : list A) : list A :=
  match search_by key_of key l with inl i => delete i l | inr _ => l end.

Lemma put_by_cases x l :
  StronglySorted key_lt l →
  ∃ l1 old l2, l = l1 ++ old ++ l2 ∧ put_by x l = l1 ++ x :: l2 ∧ Forall (λ y, key_of y = key_of x) old
    ∧ Forall (λ y, key_of y < key_of x)%N l1 ∧ Forall (λ y, key_of x < key_of y)%N l2.
Proof.
  intros Hs. unfold put_by. destruct (search_by key_of (key_of x) l) as [i|i] eqn:Hi.
  - destruct (search_inl _ _ _ Hs Hi) as (l1 & y & l2 & -> & -> & Hy & H1 & H2). exists l1, [y], l2.
    split_and!; try done; [|by constructor]. rewrite insert_app_r_alt, Nat.sub_diag by done. done.
  - destruct (search_inr _ _ _ Hs Hi) as (l1 & l2 & -> & -> & H1 & H2). exists l1, [], l2.
    split_and!; try done. unfold vec_insert. by rewrite take_app_length, drop_app_length.
Qed.

Lemma del_by_cases key l :
  StronglySorted key_lt l →
  ∃ l1 old l2, l = l1 ++ old ++ l2 ∧ del_by key l = l1 ++ l2 ∧ Forall (λ y, key_of y = key) old
    ∧ Forall (λ y, key_of y < key)%N l1 ∧ Forall (λ y, key < key_of y)%N l2.
Proof.
  intros Hs. unfold del_by. destruct (search_by key_of key l) as [i|i] eqn:Hi.
  - destruct (search_inl _ _ _ Hs Hi) as (l1 & y & l2 & -> & -> & Hy & H1 & H2). exists l1, [y], l2.
    split_and!; try done; [|by constructor]. by rewrite delete_middle.
  - destruct (search_inr _ _ _ Hs Hi) as (l1 & l2 & -> & -> & H1 & H2). by exists l1, [], l2.
Qed.

Lemma sorted_app l1 l2 :
  StronglySorted key_lt (l1 ++ l2) ↔
  StronglySorted key_lt l1 ∧ StronglySorted key_lt l2 ∧ ∀ x y, x ∈ l1 → y ∈ l2 → (key_of x < key_of y)%N.
Proof.
  induction l1 as [|a l1 IH]; cbn.
  - split; [intros; split_and!; [constructor|done|]; by intros ? ? ?%elem_of_nil|by intros (_ & ? & _)].
  - split.
    + intros Hs. inversion Hs as [|? ? Hs' Ha]; subst. apply IH in Hs' as (H1 & H2 & H12).
      apply Forall_app in Ha as [Ha1 Ha2]. split_and!; [by constructor|done|].
      intros x y [->|Hx]%elem_of_cons Hy; [|by apply H12]. rewrite Forall_forall in Ha2. by apply Ha2.
    + intros (Hs1 & Hs2 & H12). inversion Hs1 as [|? ? Hs' Ha]; subst. constructor.
      * apply IH. split_and!; [done|done|]. intros. apply H12; [by right|done].
      * apply Forall_app. split; [done|]. apply Forall_forall. intros y Hy. apply H12; [by left|done].
Qed.

Lemma put_by_sorted x l : StronglySorted key_lt l → StronglySorted key_lt (put_by x l).
Proof.
  intros Hs. destruct (put_by_cases x l Hs) as (l1 & old & l2 & -> & -> & _ & H1 & H2).
  apply sorted_app in Hs as (Hs1 & (_ & Hs2 & _)%sorted_app & H12). rewrite Forall_forall in H1.
  apply sorted_app. split_and!; [done|by constructor|]. intros a b Ha [->|Hb]%elem_of_cons; [by apply H1|].
  apply H12; [done|]. apply elem_of_app. by right.
Qed.

Lemma del_by_sorted key l : StronglySorted key_lt l → StronglySorted key_lt (del_by key l).
Proof.
  intros Hs. destruct (del_by_cases key l Hs) as (l1 & old & l2 & -> & -> & _ & H1 & H2).
  apply sorted_app in Hs as (Hs1 & (_ & Hs2 & _)%sorted_app & H12).
  apply sorted_app. split_and!; [done|done|]. intros a b Ha Hb. apply H12; [done|]. apply elem_of_app. by right.
Qed.

Lemma elem_of_put_by x y l :
  StronglySorted key_lt l → y ∈ put_by x l ↔ y = x ∨ y ∈ l ∧ key_of y ≠ key_of x.
Proof.
  intros Hs. destruct (put_by_cases x l Hs) as (l1 & old & l2 & -> & -> & Ho & H1 & H2).
  rewrite Forall_forall in Ho, H1, H2. rewrite !elem_of_app, elem_of_cons. split.
  - intros [Hy|[->|Hy]]; [right|by left|right]; (split; [tauto|]).
    + pose proof (H1 _ Hy). lia.
    + pose proof (H2 _ Hy). lia.
  - intros [->|[[Hy|[Hy|Hy]] Hne]]; [tauto|tauto| |tauto]. by destruct Hne; apply Ho.
Qed.

Lemma elem_of_del_by key y l :
  StronglySorted key_lt l → y ∈ del_by key l ↔ y ∈ l ∧ key_of y ≠ key.
Proof.
  intros Hs. destruct (del_by_cases key l Hs) as (l1 & old & l2 & -> & -> & Ho & H1 & H2).
  rewrite Forall_forall in Ho, H1, H2. rewrite !elem_of_app. split.
  - intros [Hy|Hy]; (split; [tauto|]); [pose proof (H1 _ Hy)|pose proof (H2 _ Hy)]; lia.
  - intros [[Hy|[Hy|Hy]] Hne]; [tauto| |tauto]. by destruct Hne; apply Ho.
Qed.

(** Sorted slices with the same elements are equal, and a key occurs once. *)
Lemma sorted_unique l x y : StronglySorted key_lt l → x ∈ l → y ∈ l → key_of x = key_of y → x = y.
Proof.
  intros Hs. induction Hs as [|a l _ IH Ha]; [by intros ?%elem_of_nil|]. rewrite Forall_forall in Ha. unfold key_lt in Ha.
  intros [->|Hx]%elem_of_cons [->|Hy]%elem_of_cons Hk; [done|pose proof (Ha _ Hy); lia|pose proof (Ha _ Hx); lia|by apply IH].
Qed.

Lemma sorted_ext l l' : StronglySorted key_lt l → StronglySorted key_lt l' → (∀ x, x ∈ l ↔ x ∈ l') → l = l'.
Proof.
  intros Hs. revert l'. induction Hs as [|a l Hs IH Ha]; intros l' Hs' Hin.
  - destruct l' as [|b l']; [done|]. by destruct (proj1 (elem_of_nil b)), (Hin b); set_solver.
  - destruct Hs' as [|b l' Hs' Hb]; [by destruct (proj1 (elem_of_nil a)); apply Hin; left|].
    rewrite Forall_forall in Ha, Hb. unfold key_lt in Ha, Hb.
    assert (a = b) as <-.
    { assert (a ∈ b :: l') as [->|Ha']%elem_of_cons by (apply Hin; by left); [done|].
      assert (b ∈ a :: l) as [->|Hb']%elem_of_cons by (apply Hin; by left); [done|].
      pose proof (Ha _ Hb'). pose proof (Hb _ Ha'). lia. }
    f_equal. apply IH; [done|]. intros x. specialize (Hin x). rewrite !elem_of_cons in Hin. split; intros Hx.
    + destruct Hin as [[->|?] _]; [by right|pose proof (Ha _ Hx); lia|done].
    + destruct Hin as [_ [->|?]]; [by right|pose proof (Hb _ Hx); lia|done].
Qed.

Lemma sorted_filter (P : A → Prop) `{∀ x, Decision (P x)} l : StronglySorted key_lt l → StronglySorted key_lt (filter P l).
Proof.
  induction 1 as [|a l _ IH Ha]; [constructor|]. rewrite filter_cons. destruct (decide (P a)); [|done].
  constructor; [done|]. apply Forall_forall. intros x [_ Hx]%list_elem_of_filter. rewrite Forall_forall in Ha. by apply Ha.
Qed.

End Sorted.

(** ** Children and pages as maps *)

Abbreviation edges_sorted := (StronglySorted (key_lt edge_key)).
Abbreviation pages_sorted := (StronglySorted (key_lt page_number)).

Lemma child_at_Some cs e cid : edges_sorted cs → child_at cs e = Some cid ↔ mkTableChild e cid ∈ cs.
Proof.
  intros Hs. unfold child_at. split.
  - destruct (list_find _ cs) as [[i c]|] eqn:Hf; [|done]. cbn. intros [= <-].
    apply list_find_Some in Hf as (Hi & <- & _). destruct c. by eapply list_elem_of_lookup_2.
  - intros Hin. destruct (list_find (λ c, edge c = e) cs) as [[i c]|] eqn:Hf.
    + apply list_find_Some in Hf as (Hi & He & _). cbn. apply list_elem_of_lookup_2 in Hi.
      rewrite (sorted_unique edge_key cs c (mkTableChild e cid)); [done..|]. unfold edge_key. by rewrite He.
    + apply list_find_None in Hf. rewrite Forall_forall in Hf. by destruct (Hf _ Hin).
Qed.

Lemma page_in_Some ps n pg : pages_sorted ps → page_in ps n = Some pg ↔ pg ∈ ps ∧ page_number pg = n.
Proof.
  intros Hs. unfold page_in. destruct (search_by page_number n ps) as [i|i] eqn:Hi.
  - destruct (search_inl _ _ _ _ Hs Hi) as (l1 & x & l2 & -> & -> & Hx & _).
    rewrite lookup_app_r, Nat.sub_diag by done. cbn. split.
    + intros [= <-]. split; [set_solver|done].
    + intros [Hin Hn]. f_equal. apply (sorted_unique _ _ _ _ Hs); [set_solver|done|congruence].
  - destruct (search_inr _ _ _ _ Hs Hi) as (l1 & l2 & -> & _ & H1 & H2). split; [done|]. intros [Hin <-].
    rewrite Forall_forall in H1, H2. apply elem_of_app in Hin as [Hin|Hin]; [pose proof (H1 _ Hin)|pose proof (H2 _ Hin)]; lia.
Qed.

Lemma set_child_spec cs e cid :
  edges_sorted cs →
  edges_sorted (set_child cs e cid) ∧ (∀ e', child_at (set_child cs e cid) e' = if decide (e' = e) then cid else child_at cs e').
Proof.
  intros Hs. assert (∀ e' d, mkTableChild e' d ∈ set_child cs e cid ↔
    if decide (e' = e) then cid = Some d else mkTableChild e' d ∈ cs) as Hin; [|assert (edges_sorted (set_child cs e cid)) as Hs'].
  - intros e' d. assert (edge_key (mkTableChild e' d) = Byte.to_N e ↔ e' = e) as Hk
      by (unfold edge_key; cbn; split; [apply byte_to_N_inj|by intros ->]).
    destruct cid as [cid|].
    + change (set_child cs e (Some cid)) with (put_by edge_key (mkTableChild e cid) cs).
      rewrite (elem_of_put_by edge_key) by done. change (edge_key (mkTableChild e cid)) with (Byte.to_N e).
      rewrite Hk. destruct (decide (e' = e)); naive_solver.
    + change (set_child cs e None) with (del_by edge_key (Byte.to_N e) cs). rewrite (elem_of_del_by edge_key), Hk by done.
      destruct (decide (e' = e)); naive_solver.
  - destruct cid as [cid|]; [by apply (put_by_sorted edge_key (mkTableChild e cid))|exact (del_by_sorted edge_key (Byte.to_N e) cs Hs)].
  - split; [done|]. intros e'. destruct (child_at (set_child cs e cid) e') as [d|] eqn:Hd.
    + apply child_at_Some, Hin in Hd; [|done]. destruct (decide _); [done|]. symmetry. by apply child_at_Some.
    + destruct (decide (e' = e)) as [->|Hne].
      * destruct cid as [cid|]; [|done]. assert (mkTableChild e cid ∈ set_child cs e (Some cid)) as Hc.
        { apply Hin. by rewrite decide_True. }
        apply child_at_Some in Hc; [|done]. congruence.
      * destruct (child_at cs e') as [d|] eqn:Hc; [|done]. apply child_at_Some in Hc; [|done].
        assert (mkTableChild e' d ∈ set_child cs e cid) as Hin' by (apply Hin; by rewrite decide_False).
        apply child_at_Some in Hin'; [|done]. congruence.
Qed.

(** What a mutation does to a map of pages. *)
Definition mutate_page (m : gmap N PageReference) (mu : PageMutation) : gmap N PageReference :=
  match mu with PutPage pg => <[page_number pg := pg]> m | DeletePage n => delete n m end.

Lemma mutate_pages_spec ps mu :
  pages_sorted ps →
  pages_sorted (mutate_pages ps mu) ∧
  (∀ pg, pg ∈ mutate_pages ps mu → pg ∈ ps ∨ mu = PutPage pg) ∧
  (∀ m, (∀ n, m !! n = page_in ps n) → ∀ n, mutate_page m mu !! n = page_in (mutate_pages ps mu) n).
Proof.
  intros Hs. assert (∀ x, x ∈ mutate_pages ps mu ↔
    mu = PutPage x ∨ x ∈ ps ∧ page_number x ≠ mutation_number mu) as Hin; [|assert (pages_sorted (mutate_pages ps mu)) as Hs'].
  - intros x. unfold mutate_pages. destruct mu as [pg|n]; cbn [mutation_number].
    + assert (x ∈ put_by page_number pg ps ↔ PutPage pg = PutPage x ∨ x ∈ ps ∧ page_number x ≠ page_number pg) as Hp.
      { rewrite elem_of_put_by by done. naive_solver. }
      unfold put_by in Hp. by destruct (search_by _ _ _).
    + assert (x ∈ del_by page_number n ps ↔ DeletePage n = PutPage x ∨ x ∈ ps ∧ page_number x ≠ n) as Hp.
      { rewrite elem_of_del_by by done. naive_solver. }
      unfold del_by in Hp. by destruct (search_by _ _ _).
  - unfold mutate_pages. destruct mu as [pg|n]; cbn [mutation_number].
    + pose proof (put_by_sorted page_number pg ps Hs) as Hp. unfold put_by in Hp. by destruct (search_by _ _ _).
    + pose proof (del_by_sorted page_number n ps Hs) as Hp. unfold del_by in Hp. by destruct (search_by _ _ _).
  - split; [done|]. split; [intros pg Hpg%Hin; tauto|]. intros m Hm n. apply option_eq. intros x.
    rewrite page_in_Some by done. rewrite Hin. specialize (Hm n). destruct mu as [pg|k]; cbn.
    + rewrite lookup_insert_Some, Hm, page_in_Some by done. naive_solver.
    + rewrite lookup_delete_Some, Hm, page_in_Some by done. naive_solver.
Qed.

(** ** Prefixes *)

Definition has_prefix (p : bytes) (n : N) : Prop := take (length p) (page_bytes n) = p.
#[export] Instance has_prefix_dec p n : Decision (has_prefix p n).
Proof. unfold has_prefix. apply _. Defined.

Lemma length_page_bytes n : length (page_bytes n) = 4.
Proof. apply length_be_bytes. Qed.

Lemma has_prefix_snoc p e n : length p < 4 → has_prefix (p ++ [e]) n ↔ has_prefix p n ∧ page_bytes n !! length p = Some e.
Proof.
  intros Hp. unfold has_prefix. rewrite length_app. cbn [length]. rewrite Nat.add_1_r.
  destruct (lookup_lt_is_Some_2 (page_bytes n) (length p)) as [b Hb]; [by rewrite length_page_bytes|].
  rewrite (take_S_r _ _ _ Hb), Hb. split.
  - intros [? [= ->]]%app_inj_2; done.
  - by intros [-> [= ->]].
Qed.

Lemma has_prefix_nil n : has_prefix [] n.
Proof. done. Qed.

Lemma has_prefix_next p n : has_prefix p n → length p < 4 → ∃ e, has_prefix (p ++ [e]) n.
Proof.
  intros Hp Hl. destruct (lookup_lt_is_Some_2 (page_bytes n) (length p)) as [b Hb]; [by rewrite length_page_bytes|].
  exists b. by apply has_prefix_snoc.
Qed.

Lemma has_prefix_eq p q n : has_prefix p n → has_prefix q n → length p = length q → p = q.
Proof. unfold has_prefix. intros Hp Hq Heq. transitivity (take (length p) (page_bytes n)); [done|]. by rewrite Heq. Qed.

Lemma has_prefix_up p k n : has_prefix p n → has_prefix (take k p) n.
Proof.
  unfold has_prefix. intros Hp. rewrite <-Hp at 2. rewrite take_take, length_take. f_equal.
Qed.

(** The pages with a prefix. *)
Definition restrict (p : bytes) (m : gmap N PageReference) : gmap N PageReference := filter (λ np, has_prefix p np.1) m.

Lemma lookup_restrict p m n : restrict p m !! n = if decide (has_prefix p n) then m !! n else None.
Proof.
  unfold restrict. destruct (decide (has_prefix p n)) as [Hp|Hp].
  - destruct (m !! n) as [pg|] eqn:Hn; [by apply map_lookup_filter_Some|apply map_lookup_filter_None; by left].
  - apply map_lookup_filter_None. right. by intros.
Qed.

Lemma restrict_nil (m : gmap N PageReference) : restrict [] m = m.
Proof. apply map_eq. intros n. by rewrite lookup_restrict, decide_True. Qed.

(** A strictly sorted slice has no more elements than its keys have room. *)
Lemma sorted_length {A} (key_of : A → N) (l : list A) lo k :
  StronglySorted (key_lt key_of) l → (∀ x, x ∈ l → lo ≤ key_of x < lo + k)%N → (len l ≤ k)%N.
Proof.
  intros Hs. revert lo k. induction Hs as [|a l _ IH Ha]; intros lo k Hk; [unfold len; cbn; lia|].
  rewrite Forall_forall in Ha. pose proof (Hk a ltac:(by left)).
  assert (len l ≤ lo + k - (key_of a + 1))%N.
  { apply (IH (key_of a + 1)%N). intros x Hx. pose proof (Ha x Hx) as Hlt. unfold key_lt in Hlt.
    pose proof (Hk x ltac:(by right)). lia. }
  unfold len in *. cbn [length]. lia.
Qed.

(** *** Numbers and their bytes *)

Lemma take_be_bytes j k v : take k (be_bytes (j + k) v) = be_bytes k (v / 256 ^ N.of_nat j).
Proof.
  revert v. induction j as [|j IH]; intros v.
  - rewrite N.div_1_r, take_ge; [done|]. by rewrite length_be_bytes.
  - cbn [Nat.add be_bytes]. rewrite take_app_le by (rewrite length_be_bytes; lia). rewrite IH. f_equal.
    rewrite Nat2N.inj_succ, N.pow_succ_r', N.Div0.div_div. done.
Qed.

Lemma from_be_bytes_snoc p b : from_be_bytes (p ++ [b]) = (from_be_bytes p * 256 + Byte.to_N b)%N.
Proof. unfold from_be_bytes. by rewrite foldl_app. Qed.

Lemma from_be_bytes_be k v : (v < 256 ^ N.of_nat k)%N → from_be_bytes (be_bytes k v) = v.
Proof.
  revert v. induction k as [|k IH]; intros v Hv; [cbn in *; lia|]. cbn [be_bytes].
  rewrite Nat2N.inj_succ, N.pow_succ_r' in Hv.
  rewrite from_be_bytes_snoc, IH, to_N_byte_of by (apply N.Div0.div_lt_upper_bound; lia).
  pose proof (N.div_mod v 256 ltac:(lia)). lia.
Qed.

Lemma from_be_bytes_bound p : (from_be_bytes p < 256 ^ N.of_nat (length p))%N.
Proof.
  induction p as [|b p IH] using rev_ind; [done|]. rewrite from_be_bytes_snoc, length_app. cbn [length].
  rewrite Nat.add_1_r, Nat2N.inj_succ, N.pow_succ_r'. pose proof (Byte.to_N_bounded b). lia.
Qed.

Lemma be_bytes_from p : be_bytes (length p) (from_be_bytes p) = p.
Proof.
  induction p as [|b p IH] using rev_ind; [done|]. rewrite length_app. cbn [length]. rewrite Nat.add_1_r.
  cbn [be_bytes]. rewrite from_be_bytes_snoc. pose proof (Byte.to_N_bounded b).
  rewrite N.div_add_l, N.div_small, N.add_0_r, IH by lia. do 2 f_equal.
  apply byte_to_N_inj. rewrite to_N_byte_of, N.add_comm, N.Div0.mod_add, N.mod_small by lia. done.
Qed.

(** A prefix fixes the leading part of the number. *)
Lemma has_prefix_value p n :
  (n ≤ u32_max)%N → length p ≤ 4 → has_prefix p n ↔ (n / 256 ^ N.of_nat (4 - length p))%N = from_be_bytes p.
Proof.
  intros Hn Hp. unfold has_prefix, page_bytes. pose proof (take_be_bytes (4 - length p) (length p) n) as Ht.
  rewrite Nat.sub_add in Ht by done. rewrite Ht. split.
  - intros <-. rewrite length_be_bytes in *. rewrite from_be_bytes_be; [done|].
    apply N.Div0.div_lt_upper_bound. rewrite <-N.pow_add_r, <-Nat2N.inj_add, Nat.sub_add by done.
    unfold u32_max in Hn. change (256 ^ N.of_nat 4)%N with 4294967296%N. lia.
  - intros ->. apply be_bytes_from.
Qed.

(** ** Nodes that validate *)

Lemma digit_lower_hex d : (d < 16)%N → lower_hex_byte (byte_of_ascii (digit_char d)) = true.
Proof.
  intros Hd. assert (d ∈ (N.of_nat <$> seq 0 16)) as Hin.
  { apply list_elem_of_fmap. exists (N.to_nat d). rewrite elem_of_seq. lia. }
  revert Hin. clear Hd. revert d. apply Forall_forall. repeat constructor.
Qed.

Lemma byte_halves b : (Byte.to_N b / 16 < 16)%N ∧ (Byte.to_N b mod 16 < 16)%N.
Proof.
  pose proof (Byte.to_N_bounded b). split; [apply N.Div0.div_lt_upper_bound; lia|by apply N.mod_lt].
Qed.

Lemma hex_lower_digits p : forallb lower_hex_byte (as_bytes (hex_lower p)) = true.
Proof.
  induction p as [|b p IH]; [done|]. cbn [hex_lower]. destruct (byte_halves b) as [H1 H2].
  change (lower_hex_byte (byte_of_ascii (digit_char (Byte.to_N b / 16)))
          && (lower_hex_byte (byte_of_ascii (digit_char (Byte.to_N b mod 16))) && forallb lower_hex_byte (as_bytes (hex_lower p))) = true).
  by rewrite !digit_lower_hex, IH.
Qed.

Lemma parse_hex_digits max p acc :
  ((acc + 1) * 256 ^ len p ≤ max + 1)%N →
  parse_go 16 max acc (hex_lower p) = Ok (foldl (λ a b, a * 256 + Byte.to_N b)%N acc p).
Proof.
  revert acc. induction p as [|b p IH]; intros acc Hb; [done|]. cbn [hex_lower parse_go].
  destruct (byte_halves b) as [H1 H2]. rewrite !to_digit_char by done.
  assert (len (b :: p) = len p + 1)%N as Hl by (unfold len; cbn [length]; lia). rewrite Hl, N.pow_add_r in Hb.
  change (256 ^ 1)%N with 256%N in Hb. pose proof (N.div_mod (Byte.to_N b) 16 ltac:(lia)) as Hdm.
  assert (256 ^ len p ≠ 0)%N by (apply N.pow_nonzero; lia). pose proof (Byte.to_N_bounded b).
  assert ((acc + 1) * 256 ≤ max + 1)%N as Hacc by (etrans; [|exact Hb]; nia).
  set (hi := (Byte.to_N b / 16)%N) in *. set (lo := (Byte.to_N b mod 16)%N) in *. clearbody hi lo.
  destruct (N.ltb_spec max (acc * 16)); [lia|]. destruct (N.ltb_spec max (acc * 16 + hi)); [lia|].
  destruct (N.ltb_spec max ((acc * 16 + hi) * 16)); [lia|]. destruct (N.ltb_spec max ((acc * 16 + hi) * 16 + lo)); [lia|].
  replace ((acc * 16 + hi) * 16 + lo)%N with (acc * 256 + Byte.to_N b)%N by lia. rewrite IH; [done|].
  etrans; [|exact Hb]. nia.
Qed.

Lemma leaf_prefix_parses a b c :
  from_str_radix 16 u32_max (hex_lower [a; b; c]) = Ok (from_be_bytes [a; b; c]).
Proof.
  assert (parse_go 16 u32_max 0 (hex_lower [a; b; c]) = Ok (from_be_bytes [a; b; c])) as Hp.
  { rewrite parse_hex_digits; [done|]. by vm_compute. }
  cbn [hex_lower] in *. unfold from_str_radix. destruct (byte_halves a) as [H1 _].
  destruct (digit_char_props _ H1) as (_ & Hplus & _). by rewrite decide_False.
Qed.

Lemma leaf_prefix_bytes a b c :
  [byte_of (N.shiftr (from_be_bytes [a; b; c]) 16); byte_of (N.shiftr (from_be_bytes [a; b; c]) 8); byte_of (from_be_bytes [a; b; c])]
  = [a; b; c].
Proof.
  pose proof (be_bytes_from [a; b; c]) as Hb. rewrite <-Hb at 4. cbn [length be_bytes app].
  rewrite !N.shiftr_div_pow2, N.Div0.div_div. done.
Qed.

Section Nodes.
Context (limits : SqliteFormatLimits) (Hmax : (max_page_count limits ≤ u32_max)%N).

Record internal_ok (p : bytes) (cs : list PageTableChild) : Prop := {
  internal_depth : length p ≤ 2;
  internal_sorted : edges_sorted cs;
  internal_codecs c : c ∈ cs → codec (child_node c) = CODEC_SQLITE_PAGE_TABLE;
  internal_distinct : NoDup (child_node <$> cs)
}.

Record leaf_ok (p : bytes) (ps : list PageReference) : Prop := {
  leaf_depth : length p = 3;
  leaf_sorted : pages_sorted ps;
  leaf_pages pg : pg ∈ ps → has_prefix p (page_number pg) ∧ PageReference_validate pg (page_length pg) limits = Ok ()
}.

Lemma check_children prev seen cs acc :
  try_foldl check_table_child (prev, seen) cs = Ok acc →
  edges_sorted cs ∧ (∀ c, c ∈ cs → codec (child_node c) = CODEC_SQLITE_PAGE_TABLE ∧ child_node c ∉ seen
    ∧ (∀ e, prev = Some e → Byte.to_N e < edge_key c)%N) ∧ NoDup (child_node <$> cs).
Proof.
  revert prev seen. induction cs as [|c cs IH]; intros prev seen; cbn [try_foldl].
  { intros _. split_and!; [constructor|by intros c ?%elem_of_nil|constructor]. }
  intros (x & Hc & Hrest)%bind_Ok. unfold check_table_child in Hc. cbn [fst snd] in Hc.
  apply bind_Ok in Hc as ([] & Hf%fail_if_Ok & [= <-]). apply orb_false_iff in Hf as [[Hp Hk]%orb_false_iff Hs].
  apply negb_false_iff, N.eqb_eq in Hk. apply bool_decide_eq_false in Hs.
  apply IH in Hrest as (Hsort & Hall & Hnd). split_and!.
  - constructor; [done|]. apply Forall_forall. intros y Hy. destruct (Hall y Hy) as (_ & _ & Hlt). by apply Hlt.
  - intros y [->|Hy]%elem_of_cons.
    + split_and!; [done|done|]. intros e ->. cbn in Hp. by apply N.leb_gt in Hp.
    + destruct (Hall y Hy) as (? & Hns & Hlt). split_and!; [done|set_solver|]. intros e ->. cbn in Hp.
      apply N.leb_gt in Hp. pose proof (Hlt _ eq_refl). unfold edge_key in *. lia.
  - rewrite fmap_cons. constructor; [|done]. intros (y & Heq & Hy)%list_elem_of_fmap.
    destruct (Hall y Hy) as (_ & Hns & _). rewrite <-Heq in Hns. set_solver.
Qed.

Lemma check_children_ok prev seen cs :
  edges_sorted cs → (∀ c, c ∈ cs → codec (child_node c) = CODEC_SQLITE_PAGE_TABLE ∧ child_node c ∉ seen
    ∧ (∀ e, prev = Some e → Byte.to_N e < edge_key c)%N) → NoDup (child_node <$> cs) →
  ∃ acc, try_foldl check_table_child (prev, seen) cs = Ok acc.
Proof.
  intros Hs. revert prev seen. induction Hs as [|c cs Hs IH Hc]; intros prev seen Hall Hnd; cbn [try_foldl]; [by eexists|].
  rewrite fmap_cons in Hnd. apply NoDup_cons in Hnd as [Hnin Hnd].
  destruct (Hall c ltac:(by left)) as (Hk & Hns & Hlt).
  assert (check_table_child (prev, seen) c = Ok (Some (edge c), {[child_node c]} ∪ seen)) as ->.
  { unfold check_table_child. cbn [fst snd]. rewrite Hk, N.eqb_refl, bool_decide_eq_false_2 by done.
    destruct prev as [e|]; [|done]. cbn. pose proof (Hlt e eq_refl). unfold edge_key in *.
    by destruct (N.leb_spec (Byte.to_N (edge c)) (Byte.to_N e)); [lia|]. }
  cbn. apply IH; [|done]. rewrite Forall_forall in Hc. intros y Hy.
  destruct (Hall y ltac:(by right)) as (? & Hns' & _). split_and!; [done| |].
  - intros [Heq%elem_of_singleton|?]%elem_of_union; [|done]. apply Hnin. rewrite <-Heq. by apply list_elem_of_fmap_2.
  - intros e [= <-]. by apply Hc.
Qed.

Lemma internal_validate p cs :
  PageTableNode_validate (PageTableNode_internal (N.of_nat (length p)) p cs) limits = Ok () ↔ internal_ok p cs.
Proof.
  unfold PageTableNode_validate, PageTableNode_internal.
  cbn [table_type table_version node_prefix level node_kind pages children]. unfold hex_prefix.
  rewrite slen_hex, hex_lower_digits. change (len p) with (N.of_nat (length p)). rewrite !N.eqb_refl.
  rewrite !bool_decide_eq_true_2 by done. cbn. split.
  - intros ([] & Hf%fail_if_Ok & (acc & Hc & _)%bind_Ok)%bind_Ok.
    apply orb_false_iff in Hf as [[Hl%N.ltb_ge _]%orb_false_iff _].
    apply check_children in Hc as (? & Hall & ?). split; [lia|done| |done]. intros c Hc. by apply Hall.
  - intros [Hl Hs Hk Hnd]. assert (len cs ≤ 256)%N as Hlen.
    { apply (sorted_length edge_key cs 0 256); [done|]. intros c _. unfold edge_key.
      pose proof (Byte.to_N_bounded (edge c)). lia. }
    destruct (N.ltb_spec 2 (N.of_nat (length p))); [lia|]. destruct (N.ltb_spec 256 (len cs)); [lia|]. cbn.
    destruct (check_children_ok None ∅ cs) as [acc ->]; [done| |done|done].
    intros c Hc. split_and!; [by apply Hk|set_solver|done].
Qed.

Lemma check_pages p prior ps acc a b c :
  p = [a; b; c] → try_foldl (check_leaf_page (from_be_bytes p) limits) prior ps = Ok acc →
  pages_sorted ps ∧ ∀ pg, pg ∈ ps → has_prefix p (page_number pg) ∧ PageReference_validate pg (page_length pg) limits = Ok ()
    ∧ (∀ n, prior = Some n → n < page_number pg)%N.
Proof.
  intros ->. revert prior. induction ps as [|pg ps IH]; intros prior; cbn [try_foldl].
  { intros _. split; [constructor|by intros pg ?%elem_of_nil]. }
  intros (x & Hc & Hrest)%bind_Ok. unfold check_leaf_page in Hc. rewrite leaf_prefix_bytes in Hc.
  apply bind_Ok in Hc as ([] & Hf%fail_if_Ok & ([] & Hv & [= <-])%bind_Ok).
  apply orb_false_iff in Hf as [Hp%negb_false_iff%bool_decide_eq_true Hlt].
  apply IH in Hrest as [Hs Hall]. split.
  - constructor; [done|]. apply Forall_forall. intros y Hy. destruct (Hall y Hy) as (_ & _ & Hly). by apply Hly.
  - intros y [->|Hy]%elem_of_cons.
    + split_and!; [done|done|]. intros n ->. cbn in Hlt. by apply N.leb_gt in Hlt.
    + destruct (Hall y Hy) as (? & ? & Hly). split_and!; [done|done|]. intros n ->. cbn in Hlt.
      apply N.leb_gt in Hlt. pose proof (Hly _ eq_refl). lia.
Qed.

Lemma check_pages_ok p prior ps a b c :
  p = [a; b; c] → pages_sorted ps →
  (∀ pg, pg ∈ ps → has_prefix p (page_number pg) ∧ PageReference_validate pg (page_length pg) limits = Ok ()
    ∧ (∀ n, prior = Some n → n < page_number pg)%N) →
  ∃ acc, try_foldl (check_leaf_page (from_be_bytes p) limits) prior ps = Ok acc.
Proof.
  intros -> Hs. revert prior. induction Hs as [|pg ps Hs IH Hpg]; intros prior Hall; cbn [try_foldl]; [by eexists|].
  destruct (Hall pg ltac:(by left)) as (Hp & Hv & Hlt).
  assert (check_leaf_page (from_be_bytes [a; b; c]) limits prior pg = Ok (Some (page_number pg))) as ->.
  { unfold check_leaf_page. rewrite leaf_prefix_bytes, bool_decide_eq_true_2 by exact Hp. rewrite Hv.
    destruct prior as [n|]; [|done]. cbn. pose proof (Hlt n eq_refl).
    by destruct (N.leb_spec (page_number pg) n); [lia|]. }
  cbn. apply IH. rewrite Forall_forall in Hpg. intros y Hy.
  destruct (Hall y ltac:(by right)) as (? & ? & _). split_and!; [done|done|]. intros n [= <-]. by apply Hpg.
Qed.

Lemma page_valid_bounds pg size : PageReference_validate pg size limits = Ok () → (0 < page_number pg ≤ u32_max)%N.
Proof.
  unfold PageReference_validate. intros Hf%fail_if_Ok. do 10 apply orb_false_iff in Hf as [Hf _].
  apply orb_false_iff in Hf as [H0 H1]. apply N.eqb_neq in H0. apply N.ltb_ge in H1. lia.
Qed.

Lemma leaf_validate p ps :
  length p = 3 → PageTableNode_validate (PageTableNode_leaf p ps) limits = Ok () ↔ leaf_ok p ps.
Proof.
  intros Hp. destruct p as [|a [|b [|c []]]]; try done. unfold PageTableNode_validate, PageTableNode_leaf.
  cbn [table_type table_version node_prefix level node_kind pages children]. unfold hex_prefix.
  rewrite slen_hex, hex_lower_digits, leaf_prefix_parses. rewrite !bool_decide_eq_true_2 by done.
  change (len [a; b; c] * 2 =? 3 * 2)%N with true. cbn -[from_be_bytes]. split.
  - intros ([] & Hf%fail_if_Ok & (acc & Hc & _)%bind_Ok)%bind_Ok.
    eapply check_pages in Hc as [? Hall]; [|done]. split; [done|done|]. intros pg Hpg. by destruct (Hall pg Hpg) as (? & ? & _).
  - intros [_ Hs Hall]. assert (len ps ≤ 256)%N as Hlen.
    { apply (sorted_length page_number ps (from_be_bytes [a; b; c] * 256) 256); [done|]. intros pg Hpg.
      destruct (Hall pg Hpg) as [Hpre Hb%page_valid_bounds]. apply has_prefix_value in Hpre; [|lia|cbn; lia].
      change (256 ^ N.of_nat (4 - length [a; b; c]))%N with 256%N in Hpre.
      pose proof (N.div_mod (page_number pg) 256 ltac:(lia)) as Hdm. pose proof (N.mod_lt (page_number pg) 256 ltac:(lia)).
      rewrite Hpre in Hdm. generalize dependent (page_number pg mod 256)%N. intros. lia. }
    destruct (N.ltb_spec 256 (len ps)); [lia|]. cbn -[from_be_bytes].
    destruct (check_pages_ok [a; b; c] None ps a b c) as [acc ->]; [done|done| |done].
    intros pg Hpg. destruct (Hall pg Hpg). by split_and!.
Qed.

End Nodes.
