(* ===== verification/SqlitePageTable.v ===== *)
(** * The page table as a map of pages

    The relation [denotes] between nodes and maps, the effect of writing nodes, and
    the theorems about reads, updates, truncation and canonical roots. *)
From stdpp Require Import base gmap sets list strings sorting.
From Stdlib Require Import Strings.Byte.
From S2P Require Import Prelude Types Merkle SqlitePages SqlitePagesFacts.

Section Tables.
Context `{Blake3} `{Hex} `{Json PageTableNode} `{!JsonLaws PageTableNode} {S : Type} `{MerkleStore S} `{!MerkleStoreLaws S}.
Context (limits : SqliteFormatLimits) (Hmax : (max_page_count limits ≤ u32_max)%N).
Implicit Types (s : S) (cid : Cid) (node : PageTableNode) (p : bytes) (m new : gmap N PageReference).

(** ** Stores *)

Definition kept s s' : Prop := ∀ c b, store_get s c = Ok b → store_get s' c = Ok b.

#[export] Instance kept_preorder : PreOrder kept.
Proof. split; [by intros s c b|]. intros s1 s2 s3 H12 H23 c b Hb. auto. Qed.

(** A write fails only because of the store, or because a node does not serialize
    within the size limit. *)
Definition denied (e : SqliteError) : Prop :=
  match e with
  | Storage _ => True
  | Limit m => ∃ n, (max_page_table_node_bytes limits < n)%N ∧ m = limit_message n (max_page_table_node_bytes limits)
  | Invalid m => ∃ node, to_vec node = Err m
  | _ => False
  end.

(** The computation keeps every block, and succeeds with [Q] or is denied. *)
Definition yields {A} s (c : stm S SqliteError A) (Q : A → S → Prop) : Prop :=
  ∃ r s', c s = (r, s') ∧ kept s s' ∧ match r with Ok a => Q a s' | Err e => denied e end.

Lemma yields_ret {A} s (a : A) (Q : A → S → Prop) : Q a s → yields s (mret a) Q.
Proof. intros HQ. by exists (Ok a), s. Qed.

Lemma yields_bind {A B} s (c : stm S SqliteError A) (f : A → stm S SqliteError B) (P : A → S → Prop) Q :
  yields s c P → (∀ a s1, kept s s1 → P a s1 → yields s1 (f a) Q) → yields s (c ≫= f) Q.
Proof.
  intros ([a|e] & s1 & Hc & Hk & HP) Hf; unfold yields, mbind, stm_bind; rewrite Hc.
  - destruct (Hf a s1 Hk HP) as (r & s2 & Hr & Hk2 & HQ). exists r, s2. split; [done|]. split; [by transitivity s1|done].
  - by exists (Err e), s1.
Qed.

Lemma yields_lift {A B} s (r : result SqliteError A) a (f : A → stm S SqliteError B) Q :
  r = Ok a → yields s (f a) Q → yields s (lift r ≫= f) Q.
Proof. intros -> Hf. exact Hf. Qed.

Lemma yields_reads {A B} s (g : S → result SqliteError A) a (f : A → stm S SqliteError B) Q :
  g s = Ok a → yields s (f a) Q → yields s (reads g ≫= f) Q.
Proof. intros Hg Hf. unfold yields, mbind, stm_bind, reads. by rewrite Hg. Qed.

Lemma yields_wand {A} s (c : stm S SqliteError A) (P Q : A → S → Prop) :
  yields s c P → (∀ a s', kept s s' → P a s' → Q a s') → yields s c Q.
Proof. intros ([a|e] & s' & Hc & Hk & HP) HPQ; [exists (Ok a), s'|exists (Err e), s']; auto. Qed.

(** ** Blocks *)

Lemma get_node_inv s cid node :
  get_node limits s cid = Ok node →
  ∃ payload, store_get s cid = Ok payload ∧ to_vec node = Ok payload ∧ cid = Cid_new CODEC_SQLITE_PAGE_TABLE payload
    ∧ PageTableNode_validate node limits = Ok ().
Proof.
  unfold get_node. intros ([] & Hk%fail_if_Ok & (payload & Hg & ([] & Hv%fail_if_Ok & (n & Hd & ([] & Hval & [= <-])%bind_Ok)%bind_Ok)%bind_Ok)%bind_Ok)%bind_Ok.
  apply negb_false_iff, N.eqb_eq in Hk. apply negb_false_iff, Cid_verify_new in Hv. rewrite Hk in Hv.
  destruct (store_get s cid) as [b|] eqn:Hb; cbn in Hg; [|done]. apply Ok_inj in Hg as ->.
  unfold decode_canonical in Hd.
  apply bind_Ok in Hd as ([] & _ & (v & Hfrom & (enc & Henc & ([] & He%fail_if_Ok & [= <-])%bind_Ok)%bind_Ok)%bind_Ok).
  apply negb_false_iff, bool_decide_eq_true in He as ->.
  unfold encode_canonical in Henc. apply bind_Ok in Henc as (pl & Hpl & ([] & _ & [= <-])%bind_Ok).
  exists pl. split_and!; [done| |done|done]. destruct (to_vec v); cbn in Hpl; [|done]. by apply Ok_inj in Hpl as ->.
Qed.

Lemma get_node_same s cid cid' node : get_node limits s cid = Ok node → get_node limits s cid' = Ok node → cid = cid'.
Proof.
  intros (b & _ & Hv & -> & _)%get_node_inv (b' & _ & Hv' & -> & _)%get_node_inv. congruence.
Qed.

Lemma get_node_kept s s' cid node : kept s s' → get_node limits s cid = Ok node → get_node limits s' cid = Ok node.
Proof.
  intros Hk Hg. pose proof Hg as (b & Hb & _)%get_node_inv. unfold get_node in *. by rewrite Hb, (Hk _ _ Hb) in *.
Qed.

Lemma get_node_valid s cid node : get_node limits s cid = Ok node → PageTableNode_validate node limits = Ok ().
Proof. by intros (_ & _ & _ & _ & ?)%get_node_inv. Qed.

Lemma get_node_codec s cid node : get_node limits s cid = Ok node → codec cid = CODEC_SQLITE_PAGE_TABLE.
Proof. by intros (b & _ & _ & -> & _)%get_node_inv. Qed.

Lemma put_node_yields s node :
  PageTableNode_validate node limits = Ok () → yields s (put_node limits node) (λ cid s', get_node limits s' cid = Ok node).
Proof.
  intros Hval. unfold put_node. eapply yields_lift; [exact Hval|]. unfold encode_canonical.
  destruct (to_vec node) as [b|e] eqn:Hb; [|exists (Err (Invalid e)), s; split_and!; [done|done|by exists node]].
  cbn [map_err mbind result_bind]. unfold fail_if.
  destruct (N.ltb_spec (max_page_table_node_bytes limits) (len b)) as [Hlt|Hle].
  { exists (Err (Limit (limit_message (len b) (max_page_table_node_bytes limits)))), s. split_and!; [done..|by eexists]. }
  eapply yields_lift; [done|].
  destruct (store_put CODEC_SQLITE_PAGE_TABLE b s) as [[actual|e] s'] eqn:Hput.
  - pose proof (λ c q, put_keeps _ _ _ _ _ c q Hput) as Hkept.
    exists (if bool_decide (actual = Cid_new CODEC_SQLITE_PAGE_TABLE b) then Ok actual else
      Err (Storage ("store returned " +:+ Cid_to_string actual +:+ ", expected " +:+ Cid_to_string (Cid_new CODEC_SQLITE_PAGE_TABLE b)))), s'.
    unfold mbind, stm_bind. rewrite Hput. cbn. unfold lift, fail_if.
    destruct (bool_decide (actual = _)) eqn:Heq; cbn; (split_and!; [done|exact Hkept|]); [|done].
    apply bool_decide_eq_true in Heq as ->. unfold get_node. cbn [codec Cid_new]. rewrite N.eqb_refl.
    rewrite (put_get _ _ _ _ _ Hput). cbn [negb fail_if map_err mbind result_bind]. rewrite Cid_new_verify.
    unfold decode_canonical, encode_canonical, fail_if. cbn.
    destruct (N.ltb_spec (max_page_table_node_bytes limits) (len b)); [lia|].
    rewrite (from_slice_to_vec _ _ Hb). cbn. rewrite Hb. cbn.
    destruct (N.ltb_spec (max_page_table_node_bytes limits) (len b)); [lia|]. cbn.
    rewrite bool_decide_eq_true_2 by done. cbn. by rewrite Hval.
  - exists (Err (Storage e)), s'. unfold mbind, stm_bind. rewrite Hput. cbn. split_and!; [done| |done].
    intros c q. by apply (put_keeps _ _ _ _ _ _ _ Hput).
Qed.

(** ** What a node stands for *)

(** A node of height [h] (leaves have height 0) at the prefix [p] stands for the
    pages [m]: all have the prefix, a leaf lists them, and an inner node has a child
    for each next byte that occurs, which stands for the pages with that byte. *)
Fixpoint denotes (h : nat) p s node m : Prop :=
  (∀ n pg, m !! n = Some pg → has_prefix p n) ∧
  match h with
  | O => ∃ ps, node = PageTableNode_leaf p ps ∧ leaf_ok limits p ps ∧ ∀ n, m !! n = page_in ps n
  | Datatypes.S h' =>
      ∃ cs, node = PageTableNode_internal (N.of_nat (length p)) p cs ∧ length p + h' = 2 ∧ internal_ok p cs ∧
        ∀ e, match child_at cs e with
             | Some cid => restrict (p ++ [e]) m ≠ ∅ ∧
                 ∃ child, get_node limits s cid = Ok child ∧ denotes h' (p ++ [e]) s child (restrict (p ++ [e]) m)
             | None => restrict (p ++ [e]) m = ∅
             end
  end.

(** A table at [root] holds the pages [m]. *)
Definition table s root m : Prop := ∃ node, get_node limits s root = Ok node ∧ denotes 3 [] s node m.

Lemma denotes_prefix h p s node m n pg : denotes h p s node m → m !! n = Some pg → has_prefix p n.
Proof. destruct h; intros [Hp _]; apply Hp. Qed.

Lemma denotes_depth h p s node m : denotes h p s node m → length p + h = 3.
Proof.
  destruct h as [|h]; intros [_ Hd].
  - destruct Hd as (ps & _ & [Hp _ _] & _). lia.
  - destruct Hd as (cs & _ & Hp & _). lia.
Qed.

Lemma denotes_valid h p s node m : denotes h p s node m → PageTableNode_validate node limits = Ok ().
Proof.
  destruct h as [|h]; intros [_ Hd].
  - destruct Hd as (ps & -> & Hok & _). pose proof (leaf_depth _ _ _ Hok). by apply leaf_validate.
  - destruct Hd as (cs & -> & _ & Hok & _). by apply internal_validate.
Qed.

Lemma denotes_kept h p s s' node m : kept s s' → denotes h p s node m → denotes h p s' node m.
Proof.
  intros Hk. revert p node m. induction h as [|h IH]; intros p node m [Hp Hd]; (split; [done|]); [done|].
  destruct Hd as (cs & -> & Hl & Hok & Hc). exists cs. split_and!; [done|done|done|]. intros e. specialize (Hc e).
  destruct (child_at cs e) as [cid|]; [|done]. destruct Hc as (Hne & child & Hg & Hd). split; [done|].
  exists child. split; [by eapply get_node_kept|by apply IH].
Qed.

Lemma denotes_expect h p s node m :
  denotes h p s node m →
  expect_node limits node (match h with O => Leaf | _ => Internal end) (N.of_nat (length p)) p = Ok ().
Proof.
  intros Hd. unfold expect_node. rewrite (denotes_valid _ _ _ _ _ Hd). cbn [mbind result_bind].
  destruct h as [|h]; destruct Hd as [_ Hd].
  - destruct Hd as (ps & -> & Hok & _). rewrite (leaf_depth _ _ _ Hok). cbn.
    by rewrite !bool_decide_eq_true_2.
  - destruct Hd as (cs & -> & _). cbn. by rewrite N.eqb_refl, !bool_decide_eq_true_2.
Qed.

(** A node is empty exactly when it stands for no page. *)
Definition empty_at (h : nat) : PageTableNode → bool := match h with O => no_pages | _ => no_children end.

Lemma denotes_empty h p s node m :
  denotes h p s node m → empty_at h node = bool_decide (m = ∅).
Proof.
  intros Hd. pose proof (denotes_depth _ _ _ _ _ Hd) as Hdepth. destruct h as [|h]; destruct Hd as [Hpre Hd].
  - destruct Hd as (ps & -> & Hok & Hm). apply bool_decide_ext. cbn. split.
    + intros ->. apply map_eq. intros n. rewrite Hm, lookup_empty. done.
    + intros ->. destruct ps as [|pg ps]; [done|]. specialize (Hm (page_number pg)). rewrite lookup_empty in Hm.
      symmetry in Hm. assert (page_in (pg :: ps) (page_number pg) = Some pg) by (apply page_in_Some; [apply Hok|set_solver]).
      congruence.
  - destruct Hd as (cs & -> & _ & Hok & Hc). apply bool_decide_ext. cbn. split.
    + intros ->. apply map_empty. intros n. destruct (m !! n) as [pg|] eqn:Hn; [|done].
      destruct (has_prefix_next p n) as [e He]; [by eapply Hpre|lia|]. specialize (Hc e). cbn in Hc.
      assert (restrict (p ++ [e]) m !! n = Some pg) as Hr by (by rewrite lookup_restrict, decide_True).
      by rewrite Hc, lookup_empty in Hr.
    + intros ->. destruct cs as [|c cs]; [done|]. specialize (Hc (edge c)).
      assert (child_at (c :: cs) (edge c) = Some (child_node c)) as Hat.
      { apply child_at_Some; [apply Hok|]. destruct c. by left. }
      rewrite Hat in Hc. destruct Hc as [Hne _]. by destruct Hne.
Qed.

Lemma restrict_restrict p e m : length p < 4 → restrict (p ++ [e]) (restrict p m) = restrict (p ++ [e]) m.
Proof.
  intros Hl. apply map_eq. intros n. rewrite !lookup_restrict. destruct (decide (has_prefix (p ++ [e]) n)) as [Hp|]; [|done].
  apply has_prefix_snoc in Hp as [Hp _]; [|done]. by rewrite decide_True.
Qed.

(** ** Reading *)

Lemma get_from_step load l seen e e' rest n cid :
  get_from limits load l seen (e :: e' :: rest) n cid =
  (node ← load cid;
   _ ← expect_node limits node Internal (N.of_nat l) seen;
   match child_at (children node) e with
   | None => Ok None
   | Some cid => get_from limits load (1 + l) (seen ++ [e]) (e' :: rest) n cid
   end).
Proof. done. Qed.

Lemma get_from_spec h p s cid node m l rest n :
  get_node limits s cid = Ok node → denotes h p s node m → has_prefix p n → l = length p → rest = drop (length p) (page_bytes n) →
  get_from limits (get_node limits s) l p rest n cid = Ok (m !! n).
Proof.
  intros Hg Hd Hp -> ->. revert p cid node m Hg Hd Hp. induction h as [|h IH]; intros p cid node m Hg Hd Hp;
    pose proof (denotes_depth _ _ _ _ _ Hd) as Hdepth; pose proof (denotes_expect _ _ _ _ _ Hd) as Hex;
    destruct (lookup_lt_is_Some_2 (page_bytes n) (length p)) as [e He]; try (rewrite length_page_bytes; lia);
    rewrite (drop_S _ e _ He).
  - rewrite (drop_ge (page_bytes n)) by (rewrite length_page_bytes; lia). cbn [get_from]. rewrite Hg. cbn [mbind result_bind].
    replace (N.of_nat (length p)) with 3%N in Hex by lia. rewrite Hex. cbn.
    destruct Hd as [_ (ps & -> & _ & Hm)]. by rewrite Hm.
  - destruct (lookup_lt_is_Some_2 (page_bytes n) (Datatypes.S (length p))) as [e' He']; [rewrite length_page_bytes; lia|].
    rewrite (drop_S _ e' _ He'), get_from_step, Hg. cbn [mbind result_bind]. rewrite Hex.
    rewrite <-(drop_S _ e' _ He'). destruct Hd as [_ (cs & -> & _ & _ & Hc)]. cbn [children PageTableNode_internal].
    assert (has_prefix (p ++ [e]) n) as Hpe by (apply has_prefix_snoc; [lia|done]).
    assert (restrict (p ++ [e]) m !! n = m !! n) as Hr by (by rewrite lookup_restrict, decide_True).
    specialize (Hc e). cbn [mbind result_bind]. destruct (child_at cs e) as [child|].
    + destruct Hc as (_ & cnode & Hgc & Hdc). specialize (IH _ _ _ _ Hgc Hdc Hpe). rewrite length_app, Nat.add_1_r, Hr in IH.
      exact IH.
    + by rewrite <-Hr, Hc, lookup_empty.
Qed.

Lemma table_get s root m n :
  table s root m → validate_page_number limits n = Ok () → get limits s root n = Ok (m !! n).
Proof.
  intros (node & Hg & Hd) Hn. unfold get. rewrite Hn. cbn [mbind result_bind].
  by eapply get_from_spec; [exact Hg|exact Hd|..].
Qed.

(** ** Changing a child *)

Lemma hex_lower_inj p q : hex_lower p = hex_lower q → p = q.
Proof. intros Heq. pose proof (hex_parse_lower p) as Hp. rewrite Heq, hex_parse_lower in Hp. by injection Hp. Qed.

(** A node knows where it is. *)
Lemma denotes_where h h' p p' s s' node m m' : denotes h p s node m → denotes h' p' s' node m' → p = p'.
Proof.
  intros Hd Hd'. assert (∀ h p s m, denotes h p s node m → node_prefix node = hex_lower p) as Hpre.
  { clear. intros [|h] p s m [_ Hd]; [by destruct Hd as (? & -> & _)|by destruct Hd as (? & -> & _)]. }
  apply hex_lower_inj. by rewrite <-(Hpre _ _ _ _ Hd), <-(Hpre _ _ _ _ Hd').
Qed.

(** So stored children of one node are distinct blocks. *)
Lemma children_ok h p s cs :
  length p ≤ 2 → edges_sorted cs →
  (∀ e cid, child_at cs e = Some cid → ∃ child m, get_node limits s cid = Ok child ∧ denotes h (p ++ [e]) s child m) →
  internal_ok p cs.
Proof.
  intros Hl Hs Hc. split; [done|done|..].
  - intros [e cid] Hin. apply child_at_Some in Hin; [|done]. destruct (Hc e cid Hin) as (child & m & Hg & _).
    by eapply get_node_codec.
  - assert (∀ c c', c ∈ cs → c' ∈ cs → child_node c = child_node c' → c = c') as Hinj.
    { intros [e cid] [e' cid'] Hin Hin' Heq. cbn in Heq. subst cid'.
      apply child_at_Some in Hin, Hin'; [|done..]. destruct (Hc _ _ Hin) as (n & m & Hg & Hd).
      destruct (Hc _ _ Hin') as (n' & m' & Hg' & Hd'). rewrite Hg in Hg'. injection Hg' as <-.
      pose proof (denotes_where _ _ _ _ _ _ _ _ _ Hd Hd') as Heq. apply app_inj_2 in Heq as [_ [= ->]]; done. }
    assert (NoDup cs) as Hnd.
    { clear Hc Hinj. induction Hs as [|c cs _ IH Hlt]; constructor; [|done]. intros Hin.
      rewrite Forall_forall in Hlt. pose proof (Hlt _ Hin) as Hcc. unfold key_lt in Hcc. lia. }
    clear Hc Hs. induction Hnd as [|c cs Hnin Hnd IH]; rewrite ?fmap_nil, ?fmap_cons; constructor.
    + intros (c' & Heq & Hin)%list_elem_of_fmap. rewrite (Hinj c c') in Hnin; [done|by left|by right|done].
    + apply IH. intros. apply Hinj; [by right..|done].
Qed.

(** [m'] is [m] with the pages at the prefix [p] taken from [new]. *)
Definition replaced p new m m' : Prop := ∀ n, m' !! n = if decide (has_prefix p n) then new !! n else m !! n.

Lemma set_child_denotes h p s parent m m' e (cid : option Cid) new :
  denotes (Datatypes.S h) p s parent m → replaced (p ++ [e]) new m m' → (∀ n pg, m' !! n = Some pg → has_prefix p n) →
  match cid with
  | Some cid => restrict (p ++ [e]) new ≠ ∅ ∧ ∃ child, get_node limits s cid = Ok child ∧ denotes h (p ++ [e]) s child (restrict (p ++ [e]) new)
  | None => restrict (p ++ [e]) new = ∅
  end →
  denotes (Datatypes.S h) p s (with_children parent (set_child (children parent) e cid)) m'.
Proof.
  intros [_ (cs & -> & Hl & Hok & Hc)] Hrep Hpre Hchild. cbn [children PageTableNode_internal with_children].
  destruct (set_child_spec cs e cid (internal_sorted _ _ Hok)) as [Hs Hat].
  assert (∀ e', restrict (p ++ [e']) m' = if decide (e' = e) then restrict (p ++ [e]) new else restrict (p ++ [e']) m) as Hres.
  { intros e'. apply map_eq. intros n. rewrite lookup_restrict, Hrep. destruct (decide (e' = e)) as [->|Hne].
    - rewrite lookup_restrict. destruct (decide _); done.
    - rewrite lookup_restrict. destruct (decide (has_prefix (p ++ [e']) n)) as [Hp'|]; [|done].
      rewrite decide_False; [done|]. intros Hp. pose proof (has_prefix_eq _ _ _ Hp Hp') as Heq.
      rewrite !length_app in Heq. apply app_inj_2 in Heq as [_ [= ->]]; done. }
  assert (∀ e', match child_at (set_child cs e cid) e' with
             | Some cid => restrict (p ++ [e']) m' ≠ ∅ ∧
                 ∃ child, get_node limits s cid = Ok child ∧ denotes h (p ++ [e']) s child (restrict (p ++ [e']) m')
             | None => restrict (p ++ [e']) m' = ∅
             end) as Hall.
  { intros e'. rewrite Hat, Hres. destruct (decide (e' = e)) as [->|]; [done|]. apply Hc. }
  split; [done|]. exists (set_child cs e cid). split_and!; [done|done| |done].
  apply (children_ok h p s); [lia|done|]. intros e' cid' Hc'. specialize (Hall e'). rewrite Hc' in Hall.
  destruct Hall as (_ & child & Hg & Hd). eauto.
Qed.

(** ** Writing a level *)

Lemma put_unless_yields h p s node m written :
  denotes h p s node m →
  yields s (put_unless limits (empty_at h node) node written) (λ cw s',
    match cw.1 with
    | Some cid => m ≠ ∅ ∧ ∃ child, get_node limits s' cid = Ok child ∧ denotes h p s' child m
    | None => m = ∅
    end).
Proof.
  intros Hd. rewrite (denotes_empty _ _ _ _ _ Hd). unfold put_unless. destruct (bool_decide (m = ∅)) eqn:Hm.
  - apply bool_decide_eq_true in Hm. by apply yields_ret.
  - apply bool_decide_eq_false in Hm. eapply yields_bind; [apply put_node_yields; by eapply denotes_valid|].
    intros cid s' Hk Hg. apply yields_ret. cbn. split; [done|]. exists node. split; [done|]. by eapply denotes_kept.
Qed.

(** Where the map of the transaction has come: the pages below the prefixes that
    have been written are new. *)
Definition merged (ps : list bytes) new m m' : Prop :=
  ∀ n, m' !! n = if decide (Exists (λ p, has_prefix p n) ps) then new !! n else m !! n.

Lemma take_init {A} (l : list A) x : take (length (l ++ [x]) - 1) (l ++ [x]) = l.
Proof. rewrite length_app. cbn [length]. by rewrite Nat.add_sub, take_app_length. Qed.

Lemma write_level_spec h new nodes : ∀ parents m written s,
  (∀ p node, (p, node) ∈ nodes → denotes h p s node (restrict p new) ∧ is_Some (parents !! take (length p - 1) p)) →
  (∀ p node, parents !! p = Some node → denotes (Datatypes.S h) p s node (restrict p m)) →
  yields s (write_level limits (empty_at h) nodes parents written) (λ pw s',
    dom pw.1 = dom parents ∧ ∃ m', merged nodes.*1 new m m' ∧
    ∀ p node, pw.1 !! p = Some node → denotes (Datatypes.S h) p s' node (restrict p m')).
Proof.
  induction nodes as [|[p node] nodes IH]; intros parents m written s Hnodes Hparents; cbn [write_level].
  { apply yields_ret. split; [done|]. exists m. split; [|done]. intros n. rewrite decide_False; [done|]. by intros ?%Exists_nil. }
  destruct (Hnodes p node ltac:(by left)) as [Hd [parent Hpar]]. pose proof (denotes_depth _ _ _ _ _ Hd) as Hdepth.
  pose proof (Hparents _ _ Hpar) as Hdp. pose proof (denotes_depth _ _ _ _ _ Hdp) as Hdepth'.
  destruct p as [|e up _] using rev_ind; [cbn in *; lia|]. rewrite take_init in Hpar, Hdp, Hdepth' |- *.
  eapply yields_lift; [by rewrite Hpar|]. eapply yields_bind; [by apply (put_unless_yields h)|].
  intros [cid written'] s1 Hk Hcid. cbn [fst] in Hcid. eapply yields_lift; [by rewrite last_snoc|].
  set (m1 := restrict (up ++ [e]) new ∪ filter (λ np, ¬ has_prefix (up ++ [e]) np.1) m).
  assert (replaced (up ++ [e]) new m m1) as Hrep.
  { intros n. unfold m1. rewrite lookup_union, lookup_restrict. destruct (decide (has_prefix (up ++ [e]) n)) as [Hp|Hp].
    - destruct (new !! n); cbn; [by rewrite union_Some_l|]. rewrite (left_id_L _ _). apply map_lookup_filter_None. right. intros x _ Hx. by apply Hx.
    - rewrite (left_id_L _ _). destruct (m !! n) as [pg|] eqn:Hn; [by apply map_lookup_filter_Some|].
      apply map_lookup_filter_None. by left. }
  eapply yields_wand; [apply (IH _ m1)|].
  - intros p' node' Hin. destruct (Hnodes p' node' ltac:(by right)) as [Hd' Hp']. split; [by eapply denotes_kept|].
    rewrite lookup_insert_is_Some. destruct (decide (up = take (length p' - 1) p')); [by left|by right].
  - intros p' node'. rewrite lookup_insert_Some. intros [[<- <-]|[Hne Hn]].
    + eapply (set_child_denotes _ _ _ _ (restrict up m) _ _ _ new); [by eapply denotes_kept| | |].
      * intros n. rewrite !lookup_restrict, Hrep. destruct (decide (has_prefix (up ++ [e]) n)) as [Hp|]; [|done].
        apply has_prefix_snoc in Hp as [Hp _]; [by rewrite decide_True|lia].
      * intros n pg. rewrite lookup_restrict. by destruct (decide _).
      * exact Hcid.
    + assert (restrict p' m1 = restrict p' m) as ->; [|by eapply denotes_kept, Hparents].
      apply map_eq. intros n. rewrite !lookup_restrict, Hrep. destruct (decide (has_prefix p' n)) as [Hp'|]; [|done].
      rewrite decide_False; [done|]. intros [Hp _]%has_prefix_snoc; [|lia]. apply Hne.
      apply (has_prefix_eq _ _ n); [done|done|]. pose proof (denotes_depth _ _ _ _ _ (Hparents _ _ Hn)). lia.
  - intros pw s2 _ [Hdom (m' & Hmer & Hall)]. split.
    + rewrite Hdom, dom_insert_L. apply subseteq_union_1_L, singleton_subseteq_l. by eapply elem_of_dom_2.
    + exists m'. split; [|done]. intros n. rewrite Hmer, Hrep, fmap_cons. cbn [fst].
      destruct (decide (Exists _ nodes.*1)) as [Hex|Hex].
      * rewrite decide_True; [done|by apply Exists_cons_tl].
      * destruct (decide (has_prefix (up ++ [e]) n)) as [Hp|Hp]; [rewrite decide_True; [done|by apply Exists_cons_hd]|].
        rewrite decide_False; [done|]. by intros [|]%Exists_cons.
Qed.

(** ** Loading the paths of a transaction *)

(** The nodes at their prefixes stand for the pages of [m] there. *)
Definition nodes_ok (h : nat) s (nodes : gmap bytes PageTableNode) m : Prop :=
  ∀ p node, nodes !! p = Some node → denotes h p s node (restrict p m).

Lemma denotes_no_child h p s : length p + h = 2 → denotes (Datatypes.S h) p s (PageTableNode_internal (N.of_nat (length p)) p []) ∅.
Proof.
  intros Hl. split; [intros n pg; by rewrite lookup_empty|]. exists []. split_and!; [done|done| |].
  - split; [lia|constructor|by intros c ?%elem_of_nil|constructor].
  - intros e. cbn. apply map_eq. intros n. rewrite lookup_restrict, lookup_empty. by destruct (decide _).
Qed.

Lemma denotes_no_page p s : length p = 3 → denotes 0 p s (PageTableNode_leaf p []) ∅.
Proof.
  intros Hl. split; [intros n pg; by rewrite lookup_empty|]. exists []. split_and!; [done| |done].
  split; [done|constructor|by intros c ?%elem_of_nil].
Qed.

Lemma load_child_spec h p s parent m e :
  denotes (Datatypes.S (Datatypes.S h)) p s parent (restrict p m) →
  ∃ node, load_child_internal limits s parent e (N.of_nat (length (p ++ [e]))) (p ++ [e]) = Ok node
    ∧ denotes (Datatypes.S h) (p ++ [e]) s node (restrict (p ++ [e]) m).
Proof.
  intros Hd. pose proof (denotes_depth _ _ _ _ _ Hd) as Hl. destruct Hd as [_ (cs & -> & _ & _ & Hc)].
  specialize (Hc e). unfold load_child_internal. cbn [children PageTableNode_internal].
  rewrite restrict_restrict in Hc by lia. destruct (child_at cs e) as [cid|].
  - destruct Hc as (_ & child & Hg & Hd). exists child. rewrite Hg. cbn [mbind result_bind].
    by rewrite (denotes_expect _ _ _ _ _ Hd).
  - rewrite Hc. eexists. split; [done|]. apply denotes_no_child. rewrite length_app. cbn. lia.
Qed.

Lemma load_leaf_spec p s parent m e :
  denotes 1 p s parent (restrict p m) →
  ∃ node, load_leaf limits s parent e (p ++ [e]) = Ok node ∧ denotes 0 (p ++ [e]) s node (restrict (p ++ [e]) m).
Proof.
  intros Hd. pose proof (denotes_depth _ _ _ _ _ Hd) as Hl. destruct Hd as [_ (cs & -> & _ & _ & Hc)].
  specialize (Hc e). unfold load_leaf. cbn [children PageTableNode_internal].
  rewrite restrict_restrict in Hc by lia. destruct (child_at cs e) as [cid|].
  - destruct Hc as (_ & child & Hg & Hd). exists child. rewrite Hg. cbn [mbind result_bind].
    pose proof (denotes_expect _ _ _ _ _ Hd) as Hex. rewrite length_app in Hex. cbn [length] in Hex.
    replace (N.of_nat (length p + 1)) with 3%N in Hex by lia. by rewrite Hex.
  - rewrite Hc. eexists. split; [done|]. apply denotes_no_page. rewrite length_app. cbn. lia.
Qed.

Lemma entry_or_spec h s nodes m p load :
  nodes_ok h s nodes m → (∃ node, load = Ok node ∧ denotes h p s node (restrict p m)) →
  ∃ nodes' node, entry_or nodes p load = Ok nodes' ∧ nodes_ok h s nodes' m ∧ nodes' !! p = Some node
    ∧ denotes h p s node (restrict p m) ∧ dom nodes' = {[p]} ∪ dom nodes.
Proof.
  intros Hok (node & -> & Hd). unfold entry_or. destruct (nodes !! p) as [old|] eqn:Hp.
  - exists nodes, old. split_and!; [done|done|done|by apply Hok|]. symmetry.
    apply subseteq_union_1_L, singleton_subseteq_l. by eapply elem_of_dom_2.
  - exists (<[p := node]> nodes), node. split_and!; [done| |apply lookup_insert_eq|done|apply dom_insert_L].
    intros q n. rewrite lookup_insert_Some. intros [[<- <-]|[_ Hq]]; [done|by apply Hok].
Qed.

(** The parents of what is loaded are loaded, and [done] is covered. *)
Record loaded_ok s (l : Loaded) m (covered : list N) : Prop := {
  loaded_one : nodes_ok 2 s (level_one l) m;
  loaded_two : nodes_ok 1 s (level_two l) m;
  loaded_leaves : nodes_ok 0 s (leaves l) m;
  two_in_one p : p ∈ dom (level_two l) → take (length p - 1) p ∈ dom (level_one l);
  leaves_in_two p : p ∈ dom (leaves l) → take (length p - 1) p ∈ dom (level_two l);
  loaded_covers n : n ∈ covered → take 3 (page_bytes n) ∈ dom (leaves l)
}.

Lemma load_path_spec s root_node l m covered mu :
  denotes 3 [] s root_node m → loaded_ok s l m covered →
  ∃ l', load_path limits s root_node l mu = Ok l' ∧ loaded_ok s l' m (mutation_number mu :: covered).
Proof.
  intros Hroot [Hone Htwo Hlv H21 H32 Hcov]. unfold load_path.
  destruct (page_bytes (mutation_number mu)) as [|b0 [|b1 [|b2 [|b3 []]]]] eqn:Hbs;
    try (pose proof (length_page_bytes (mutation_number mu)) as Hlen; by rewrite Hbs in Hlen).
  cbv zeta beta. cbn [take]. change (default x00 ([b0; b1; b2; b3] !! 0)) with b0.
  change (default x00 ([b0; b1; b2; b3] !! 1)) with b1. change (default x00 ([b0; b1; b2; b3] !! 2)) with b2.
  destruct (entry_or_spec 2 s (level_one l) m [b0] (load_child_internal limits s root_node b0 1 [b0])) as (one & n1 & -> & Ho1 & Hl1 & Hd1 & Hdom1);
    [done|apply (load_child_spec 1 []); by rewrite restrict_nil|]. cbn [mbind result_bind ok_or]. rewrite Hl1. cbn [mbind result_bind ok_or].
  destruct (entry_or_spec 1 s (level_two l) m [b0; b1] (load_child_internal limits s n1 b1 2 [b0; b1])) as (two & n2 & -> & Ho2 & Hl2 & Hd2 & Hdom2);
    [done|by apply (load_child_spec 0 [b0])|]. cbn [mbind result_bind ok_or]. rewrite Hl2. cbn [mbind result_bind ok_or].
  destruct (entry_or_spec 0 s (leaves l) m [b0; b1; b2] (load_leaf limits s n2 b2 [b0; b1; b2])) as (lv & n3 & -> & Ho3 & Hl3 & Hd3 & Hdom3);
    [done|by apply (load_leaf_spec [b0; b1])|]. cbn [mbind result_bind ok_or].
  eexists. split; [done|]. split; cbn [level_one level_two leaves]; [done|done|done|..].
  - intros p. rewrite Hdom1, Hdom2, !elem_of_union, !elem_of_singleton. intros [->|Hp]; [by left|right; by apply H21].
  - intros p. rewrite Hdom2, Hdom3, !elem_of_union, !elem_of_singleton. intros [->|Hp]; [by left|right; by apply H32].
  - intros n [->|Hn]%elem_of_cons; rewrite Hdom3, elem_of_union, elem_of_singleton; [left; by rewrite Hbs|right; by apply Hcov].
Qed.

Lemma load_paths_spec s root_node l m covered ms :
  denotes 3 [] s root_node m → loaded_ok s l m covered →
  ∃ l', try_foldl (load_path limits s root_node) l ms = Ok l' ∧ loaded_ok s l' m ((mutation_number <$> reverse ms) ++ covered).
Proof.
  intros Hroot. revert l covered. induction ms as [|mu ms IH]; intros l covered Hl; cbn [try_foldl].
  - by exists l.
  - destruct (load_path_spec s root_node l m covered mu Hroot Hl) as (l1 & -> & Hl1). cbn [mbind result_bind].
    destruct (IH l1 _ Hl1) as (l' & -> & Hl'). exists l'. split; [done|].
    rewrite reverse_cons, fmap_app, <-(assoc_L (++)). exact Hl'.
Qed.

(** ** Mutating the leaves *)

Definition valid_mutation (mu : PageMutation) : Prop :=
  match mu with PutPage pg => PageReference_validate pg (page_length pg) limits = Ok () | DeletePage _ => True end.

Lemma page_validate_length pg size :
  PageReference_validate pg size limits = Ok () → PageReference_validate pg (page_length pg) limits = Ok ().
Proof.
  intros Hv. assert (page_length pg = size) as ->; [|done]. unfold PageReference_validate in Hv. apply fail_if_Ok in Hv.
  do 9 apply orb_false_iff in Hv as [Hv _]. apply orb_false_iff in Hv as [_ Hv]. by apply negb_false_iff, N.eqb_eq in Hv.
Qed.

Lemma mutate_page_other m mu n : n ≠ mutation_number mu → mutate_page m mu !! n = m !! n.
Proof. intros Hn. destruct mu; cbn; [by rewrite lookup_insert_ne|by rewrite lookup_delete_ne]. Qed.

Lemma mutate_leaf_spec s (lv : gmap bytes PageTableNode) m mu :
  nodes_ok 0 s lv m → valid_mutation mu → take 3 (page_bytes (mutation_number mu)) ∈ dom lv →
  ∃ lv', mutate_leaf lv mu = Ok lv' ∧ nodes_ok 0 s lv' (mutate_page m mu) ∧ dom lv' = dom lv.
Proof.
  intros Hok Hv Hin. unfold mutate_leaf. set (p := take 3 (page_bytes (mutation_number mu))) in *.
  apply elem_of_dom in Hin as [leaf Hleaf]. rewrite Hleaf. cbn [ok_or mbind result_bind]. eexists. split; [done|].
  pose proof (Hok _ _ Hleaf) as Hd. assert (length p = 3) as Hp by (unfold p; by rewrite length_take, length_page_bytes).
  assert (has_prefix p (mutation_number mu)) as Hpre by (unfold has_prefix; by rewrite Hp).
  split; [|by rewrite dom_insert_lookup_L].
  intros q node. rewrite lookup_insert_Some. intros [[<- <-]|[Hne Hq]].
  - destruct Hd as [_ (ps & -> & Hleaf' & Hm)]. cbn [with_pages PageTableNode_leaf pages].
    destruct (mutate_pages_spec ps mu (leaf_sorted _ _ _ Hleaf')) as (Hs & Hin & Hlook).
    split; [intros n pg; rewrite lookup_restrict; by destruct (decide _)|].
    exists (mutate_pages ps mu). split_and!; [done| |].
    + split; [done|done|]. intros pg [Hpg| ->]%Hin; [by apply Hleaf'|done].
    + intros n. rewrite <-(Hlook (restrict p m) Hm n). rewrite lookup_restrict.
      destruct (decide (n = mutation_number mu)) as [->|Hn].
      * rewrite decide_True by done. destruct mu; cbn; by rewrite ?lookup_insert_eq, ?lookup_delete_eq.
      * rewrite !mutate_page_other by done. by rewrite lookup_restrict.
  - assert (restrict q (mutate_page m mu) = restrict q m) as ->; [|by apply Hok].
    apply map_eq. intros n. rewrite !lookup_restrict. destruct (decide (has_prefix q n)) as [Hqn|]; [|done].
    apply mutate_page_other. intros ->. apply Hne. apply (has_prefix_eq _ _ (mutation_number mu)); [done|done|].
    pose proof (denotes_depth _ _ _ _ _ (Hok _ _ Hq)). lia.
Qed.

Lemma mutate_leaves_spec s (lv : gmap bytes PageTableNode) m ms :
  nodes_ok 0 s lv m → Forall valid_mutation ms → (∀ mu, mu ∈ ms → take 3 (page_bytes (mutation_number mu)) ∈ dom lv) →
  ∃ lv', try_foldl mutate_leaf lv ms = Ok lv' ∧ nodes_ok 0 s lv' (foldl mutate_page m ms) ∧ dom lv' = dom lv.
Proof.
  intros Hok Hv. revert lv m Hok. induction Hv as [|mu ms Hmu _ IH]; intros lv m Hok Hin; cbn [try_foldl foldl]; [by exists lv|].
  destruct (mutate_leaf_spec s lv m mu Hok Hmu) as (lv1 & -> & Hok1 & Hdom1); [by apply Hin; left|].
  cbn [mbind result_bind]. destruct (IH lv1 _ Hok1) as (lv' & -> & Hok' & Hdom').
  - intros mu' Hmu'. rewrite Hdom1. by apply Hin; right.
  - exists lv'. by rewrite Hdom'.
Qed.

(** ** The last mutation of a page counts *)

Lemma lookup_foldl_mutate m ms n :
  foldl mutate_page m ms !! n =
  match last (filter (λ mu, mutation_number mu = n) ms) with
  | Some (PutPage pg) => Some pg
  | Some (DeletePage _) => None
  | None => m !! n
  end.
Proof.
  induction ms as [|mu ms IH] using rev_ind; [done|]. rewrite foldl_app, filter_app. cbn [foldl].
  rewrite filter_cons, filter_nil. destruct (decide (mutation_number mu = n)) as [<-|Hne].
  - rewrite last_snoc. destruct mu; cbn; [apply lookup_insert_eq|apply lookup_delete_eq].
  - rewrite app_nil_r, mutate_page_other; [exact IH|done].
Qed.

Definition normal_for (ms : list PageMutation) (norm : gmap N PageMutation) : Prop :=
  ∀ n, norm !! n = last (filter (λ mu, mutation_number mu = n) ms).

Lemma normalize_spec page_size ms norm :
  normalize limits page_size ms = Ok norm →
  normal_for ms norm ∧ Forall (λ mu, validate_page_number limits (mutation_number mu) = Ok () ∧ valid_mutation mu) ms.
Proof.
  unfold normalize. intros ([] & _ & Hf)%bind_Ok.
  assert (∀ pre out norm, normal_for pre out →
    Forall (λ mu, validate_page_number limits (mutation_number mu) = Ok () ∧ valid_mutation mu) pre →
    try_foldl (λ out mu,
      _ ← validate_page_number limits (mutation_number mu);
      _ ← match mu with PutPage page => PageReference_validate page page_size limits | DeletePage _ => Ok () end;
      Ok (<[mutation_number mu := mu]> out)) out ms = Ok norm →
    normal_for (pre ++ ms) norm ∧
    Forall (λ mu, validate_page_number limits (mutation_number mu) = Ok () ∧ valid_mutation mu) (pre ++ ms)) as Hgen.
  { clear Hf norm. induction ms as [|mu ms IH]; intros pre out norm Hpre Hval Hf; cbn [try_foldl] in Hf.
    { apply Ok_inj in Hf as <-. by rewrite app_nil_r. }
    apply bind_Ok in Hf as (out1 & ([] & Hn & ([] & Hv & [= <-])%bind_Ok)%bind_Ok & Hf).
    rewrite cons_middle, (assoc_L (++)). eapply IH; [| |exact Hf].
    - intros n. rewrite filter_app, filter_cons, filter_nil. destruct (decide (mutation_number mu = n)) as [<-|Hne].
      + by rewrite lookup_insert_eq, last_snoc.
      + by rewrite lookup_insert_ne, app_nil_r.
    - apply Forall_app. split; [done|]. apply Forall_singleton. split; [done|]. destruct mu; [by eapply page_validate_length|done]. }
  apply (Hgen [] ∅); [|constructor|done]. intros n. by rewrite lookup_empty.
Qed.

Lemma normal_number ms norm n mu : normal_for ms norm → norm !! n = Some mu → mutation_number mu = n ∧ mu ∈ ms.
Proof.
  intros Hn Hl. rewrite Hn in Hl. apply last_Some_elem_of in Hl. by apply list_elem_of_filter in Hl as [? ?].
Qed.

Lemma elem_of_by_number norm mu : mu ∈ by_number norm ↔ ∃ n, norm !! n = Some mu.
Proof.
  unfold by_number. rewrite list_elem_of_fmap. setoid_rewrite merge_sort_Permutation. split.
  - intros ([n mu'] & -> & Hin). exists n. by apply elem_of_map_to_list.
  - intros [n Hn]. exists (n, mu). by rewrite elem_of_map_to_list.
Qed.

Lemma by_number_same m ms norm : normal_for ms norm → foldl mutate_page m (by_number norm) = foldl mutate_page m ms.
Proof.
  intros Hn. apply map_eq. intros n. rewrite !lookup_foldl_mutate, <-Hn.
  assert (last (filter (λ mu, mutation_number mu = n) (by_number norm)) = norm !! n) as ->; [|done].
  assert (∀ mu, mu ∈ filter (λ mu, mutation_number mu = n) (by_number norm) ↔ norm !! n = Some mu) as Hin.
  { intros mu. rewrite list_elem_of_filter, elem_of_by_number. split.
    - intros [<- [k Hk]]. by destruct (normal_number _ _ _ _ Hn Hk) as [-> _].
    - intros Hmu. split; [by eapply normal_number|by exists n]. }
  destruct (last _) as [mu|] eqn:Hl.
  - apply last_Some_elem_of in Hl. symmetry. by apply Hin.
  - apply last_None in Hl. destruct (norm !! n) as [mu|]; [|done].
    specialize (Hin mu) as [_ Hin]. rewrite Hl in Hin. by apply elem_of_nil in Hin.
Qed.

(** ** Applying a transaction *)

Lemma nodes_at_spec (nodes : gmap bytes PageTableNode) (keys : gset bytes) :
  keys ⊆ dom nodes →
  ∃ l, nodes_at nodes keys = Ok l ∧ (∀ p node, (p, node) ∈ l → nodes !! p = Some node) ∧ ∀ p, p ∈ l.*1 ↔ p ∈ keys.
Proof.
  intros Hsub. unfold nodes_at.
  assert (∀ ks acc, (∀ p, p ∈ ks → p ∈ dom nodes) → (∀ p node, (p, node) ∈ acc → nodes !! p = Some node) →
    ∃ l, try_foldl (λ acc p, node ← ok_or (nodes !! p) SqlitePanicked; Ok (acc ++ [(p, node)])) acc ks = Ok l
      ∧ (∀ p node, (p, node) ∈ l → nodes !! p = Some node) ∧ l.*1 = acc.*1 ++ ks) as Hgen.
  { induction ks as [|p ks IH]; intros acc Hks Hacc; cbn [try_foldl].
    - exists acc. by rewrite app_nil_r.
    - destruct (proj1 (elem_of_dom nodes p) (Hks p ltac:(by left))) as [node Hnode]. rewrite Hnode. cbn [ok_or mbind result_bind].
      destruct (IH (acc ++ [(p, node)])) as (l & -> & Hl & Hkeys).
      + intros q Hq. by apply Hks; right.
      + intros q n [Hq|Hq]%elem_of_app; [by apply Hacc|]. apply list_elem_of_singleton in Hq as [= -> ->]. done.
      + exists l. split_and!; [done|done|]. by rewrite Hkeys, fmap_app, <-(assoc_L (++)). }
  destruct (Hgen (in_order keys) []) as (l & Hl & Hall & Hkeys).
  - intros p. unfold in_order. rewrite merge_sort_Permutation, elem_of_elements. apply Hsub.
  - by intros p node ?%elem_of_nil.
  - exists l. split_and!; [done|done|]. intros p. rewrite Hkeys. cbn. unfold in_order.
    by rewrite merge_sort_Permutation, elem_of_elements.
Qed.

Lemma elem_of_parents p (keys : gset bytes) : p ∈ parents_of keys ↔ ∃ q, p = take (length q - 1) q ∧ q ∈ keys.
Proof. unfold parents_of. rewrite elem_of_map. naive_solver. Qed.

(** One level: afterwards the level above stands for the new pages. *)
Lemma write_nodes_spec (h : nat) s (nodes parents : gmap bytes PageTableNode) (keys : gset bytes) new m (written : list Cid) :
  nodes_ok h s nodes new → nodes_ok (Datatypes.S h) s parents m → keys ⊆ dom nodes → parents_of keys ⊆ dom parents →
  (∀ n, new !! n ≠ m !! n → ∃ p, p ∈ keys ∧ has_prefix p n) →
  ∃ l, nodes_at nodes keys = Ok l ∧
  yields s (write_level limits (empty_at h) l parents written) (λ pw s',
    dom pw.1 = dom parents ∧ nodes_ok (Datatypes.S h) s' pw.1 new).
Proof.
  intros Hnodes Hparents Hsub Hpar Hcov. destruct (nodes_at_spec nodes keys Hsub) as (l & Hl & Hin & Hkeys).
  exists l. split; [done|]. eapply yields_wand; [apply (write_level_spec h new l parents m)|].
  - intros p node Hp. split; [apply Hnodes, Hin, Hp|]. apply elem_of_dom, Hpar, elem_of_parents. exists p. split; [done|].
    apply Hkeys, list_elem_of_fmap. by exists (p, node).
  - apply Hparents.
  - intros pw s' _ [Hdom (m' & Hmer & Hall)]. split; [done|].
    assert (m' = new) as ->; [|exact Hall]. apply map_eq. intros n. rewrite Hmer.
    destruct (decide (Exists _ _)) as [|Hno]; [done|].
    destruct (decide (new !! n = m !! n)) as [->|Hne]; [done|]. destruct (Hcov n Hne) as (p & Hp & Hpre).
    exfalso. apply Hno, Exists_exists. exists p. split; [by apply Hkeys|done].
Qed.

Lemma covered_up (keys : gset bytes) n :
  (∃ p, p ∈ keys ∧ has_prefix p n) → ∃ p, p ∈ parents_of keys ∧ has_prefix p n.
Proof.
  intros (p & Hp & Hpre). exists (take (length p - 1) p). split; [apply elem_of_parents; eauto|by apply has_prefix_up].
Qed.

Lemma nodes_ok_kept (h : nat) s s' (nodes : gmap bytes PageTableNode) m : kept s s' → nodes_ok h s nodes m → nodes_ok h s' nodes m.
Proof. intros Hk Hn p node Hp. eapply denotes_kept; [done|by apply Hn]. Qed.

Lemma write_back_spec s (root_node : PageTableNode) (l : Loaded) (lv : gmap bytes PageTableNode) m new (covered : list N) :
  denotes 3 [] s root_node m → loaded_ok s l m covered → nodes_ok 0 s lv new → dom lv = dom (leaves l) →
  (∀ n, new !! n ≠ m !! n → ∃ p, p ∈ dom lv ∧ has_prefix p n) →
  yields s (write_back limits root_node l lv) (λ u s', table s' (new_root u) new).
Proof.
  intros Hd Hlok Hlvok Hlvdom Hcov. unfold write_back.
  assert (parents_of (dom lv) ⊆ dom (level_two l)) as Hsub2.
  { intros p (q & -> & Hq)%elem_of_parents. apply (leaves_in_two _ _ _ _ Hlok). by rewrite <-Hlvdom. }
  assert (parents_of (parents_of (dom lv)) ⊆ dom (level_one l)) as Hsub1.
  { intros p (q & -> & Hq)%elem_of_parents. apply (two_in_one _ _ _ _ Hlok). by apply Hsub2. }
  pose proof (λ n Hn, covered_up _ n (Hcov n Hn)) as Hcov2. pose proof (λ n Hn, covered_up _ n (Hcov2 n Hn)) as Hcov1.
  destruct (write_nodes_spec 0 s lv (level_two l) (dom lv) new m []) as (ls & Hls & Hw); [done|apply Hlok|done..|].
  eapply yields_lift; [exact Hls|]. eapply yields_bind; [exact Hw|]. clear Hls Hw. intros [two w2] s2 Hk2 [Hdom2 Hok2].
  cbn [fst] in Hdom2, Hok2.
  destruct (write_nodes_spec 1 s2 two (level_one l) (parents_of (dom lv)) new m w2) as (l2 & Hl2 & Hw);
    [done|eapply nodes_ok_kept, Hlok; done|by rewrite Hdom2|done|done|].
  eapply yields_lift; [exact Hl2|]. eapply yields_bind; [exact Hw|]. clear Hl2 Hw. intros [one w1] s1 Hk1 [Hdom1 Hok1].
  cbn [fst] in Hdom1, Hok1.
  destruct (write_nodes_spec 2 s1 one {[[] := root_node]} (parents_of (parents_of (dom lv))) new m w1) as (l1 & Hl1 & Hw);
    [done| |by rewrite Hdom1| |done|].
  { intros p node [<- <-]%lookup_singleton_Some. rewrite restrict_nil.
    eapply denotes_kept, denotes_kept, Hd; done. }
  { intros p (q & -> & Hq)%elem_of_parents. rewrite dom_singleton_L, elem_of_singleton.
    rewrite <-Hdom1 in Hsub1. apply Hsub1, elem_of_dom in Hq as [node Hq]. apply Hok1, denotes_depth in Hq.
    destruct q as [|b [|]]; cbn in Hq; [done|done|lia]. }
  eapply yields_lift; [exact Hl1|]. eapply yields_bind; [exact Hw|]. clear Hl1 Hw. intros [top w0] s0 Hk0 [Hdom0 Hok0].
  cbn [fst] in Hdom0, Hok0. assert ([] ∈ dom top) as [node Hnode]%elem_of_dom by (rewrite Hdom0, dom_singleton_L; set_solver).
  eapply yields_lift; [by rewrite Hnode|]. apply Hok0 in Hnode. rewrite restrict_nil in Hnode. eapply yields_bind; [apply put_node_yields; by eapply denotes_valid|].
  intros cid s' Hk' Hg. apply yields_ret. exists node. split; [done|by eapply denotes_kept].
Qed.

Lemma table_apply s root m page_size ms norm :
  table s root m → normalize limits page_size ms = Ok norm →
  yields s (apply limits root page_size ms) (λ u s', table s' (new_root u) (foldl mutate_page m ms)).
Proof.
  intros (root_node & Hg & Hd) Hnorm. pose proof Hnorm as [Hnf Hval]%normalize_spec. unfold apply.
  eapply yields_reads; [exact Hg|]. eapply yields_lift; [apply (denotes_expect _ _ _ _ _ Hd)|].
  eapply yields_lift; [exact Hnorm|]. rewrite <-(by_number_same m ms norm Hnf).
  destruct (bool_decide (norm = ∅)) eqn:Hempty.
  { apply bool_decide_eq_true in Hempty as ->. apply yields_ret. by exists root_node. }
  assert (Forall valid_mutation (by_number norm)) as Hvn.
  { apply Forall_forall. intros mu [n Hn]%elem_of_by_number. rewrite Forall_forall in Hval.
    destruct (normal_number _ _ _ _ Hnf Hn) as [_ Hin]. by apply Hval. }
  destruct (load_paths_spec s root_node (mkLoaded ∅ ∅ ∅) m [] (by_number norm) Hd) as (l & Hl & Hlok).
  { split; cbn; [intros p node; by rewrite lookup_empty..|intros p; by rewrite dom_empty_L|intros p; by rewrite dom_empty_L|].
    by intros n ?%elem_of_nil. }
  assert (∀ mu, mu ∈ by_number norm → take 3 (page_bytes (mutation_number mu)) ∈ dom (leaves l)) as Hcov.
  { intros mu Hmu. apply (loaded_covers _ _ _ _ Hlok). rewrite app_nil_r. apply list_elem_of_fmap. exists mu.
    split; [done|]. by apply elem_of_reverse. }
  eapply yields_reads; [exact Hl|].
  destruct (mutate_leaves_spec s (leaves l) m (by_number norm)) as (lv & Hlv & Hlvok & Hlvdom); [apply Hlok|done|done|].
  eapply yields_lift; [exact Hlv|]. eapply write_back_spec; [done..|].
  intros n Hne. exists (take 3 (page_bytes n)). split; [|unfold has_prefix; by rewrite length_take, length_page_bytes].
  rewrite lookup_foldl_mutate in Hne. destruct (last _) as [mu|] eqn:Hlast; [|done].
  apply last_Some_elem_of, list_elem_of_filter in Hlast as [<- Hin]. rewrite Hlvdom. by apply Hcov.
Qed.

(** ** The root determines the map, and the map the root *)

Lemma denotes_fun h p s node m m' : denotes h p s node m → denotes h p s node m' → m = m'.
Proof.
  revert p node m m'. induction h as [|h IH]; intros p node m m' [Hp Hd] [Hp' Hd'].
  - destruct Hd as (ps & -> & _ & Hm), Hd' as (ps' & Heq & _ & Hm'). injection Heq as <-.
    apply map_eq. intros n. by rewrite Hm, Hm'.
  - destruct Hd as (cs & -> & Hl & _ & Hc), Hd' as (cs' & Heq & _ & _ & Hc'). injection Heq as <-.
    assert (∀ e, restrict (p ++ [e]) m = restrict (p ++ [e]) m') as Hres.
    { intros e. specialize (Hc e). specialize (Hc' e). destruct (child_at cs e) as [cid|]; [|congruence].
      destruct Hc as (_ & child & Hg & Hd), Hc' as (_ & child' & Hg' & Hd'). rewrite Hg in Hg'. injection Hg' as <-. eauto. }
    assert (∀ m1 m2, (∀ n pg, m1 !! n = Some pg → has_prefix p n) → (∀ e, restrict (p ++ [e]) m1 = restrict (p ++ [e]) m2) →
      m1 ⊆ m2) as Hsub.
    { intros m1 m2 Hpre Hr. apply map_subseteq_spec. intros n pg Hn.
      destruct (has_prefix_next p n) as [e He]; [by eapply Hpre|lia|].
      assert (restrict (p ++ [e]) m1 !! n = Some pg) as Hn' by (by rewrite lookup_restrict, decide_True).
      by rewrite Hr, lookup_restrict, decide_True in Hn'. }
    apply (anti_symm (⊆)); by apply Hsub.
Qed.

Lemma denotes_unique h p s node node' m : denotes h p s node m → denotes h p s node' m → node = node'.
Proof.
  revert p node node' m. induction h as [|h IH]; intros p node node' m [_ Hd] [_ Hd'].
  - destruct Hd as (ps & -> & Hok & Hm), Hd' as (ps' & -> & Hok' & Hm'). f_equal.
    apply (sorted_ext page_number); [apply Hok|apply Hok'|]. intros x.
    assert (∀ ps, pages_sorted ps → x ∈ ps ↔ page_in ps (page_number x) = Some x) as Hin
      by (intros; rewrite page_in_Some by done; tauto).
    by rewrite (Hin ps), (Hin ps'), <-Hm, <-Hm' by (apply Hok || apply Hok').
  - destruct Hd as (cs & -> & _ & Hok & Hc), Hd' as (cs' & -> & _ & Hok' & Hc'). f_equal.
    assert (∀ e, child_at cs e = child_at cs' e) as Heq.
    { intros e. specialize (Hc e). specialize (Hc' e). destruct (child_at cs e) as [cid|], (child_at cs' e) as [cid'|].
      - destruct Hc as (_ & n & Hg & Hd), Hc' as (_ & n' & Hg' & Hd'). rewrite (IH _ _ _ _ Hd Hd') in Hg.
        f_equal. by eapply get_node_same.
      - by destruct Hc.
      - by destruct Hc'.
      - done. }
    apply (sorted_ext edge_key); [apply Hok|apply Hok'|]. intros [e cid].
    by rewrite <-!child_at_Some, Heq by (apply Hok || apply Hok').
Qed.

Lemma table_root s root root' m m' : table s root m → table s root' m' → root = root' ↔ m = m'.
Proof.
  intros (node & Hg & Hd) (node' & Hg' & Hd'). split.
  - intros <-. rewrite Hg in Hg'. injection Hg' as <-. by eapply denotes_fun.
  - intros <-. rewrite (denotes_unique _ _ _ _ _ _ Hd Hd') in Hg. by eapply get_node_same.
Qed.

(** Pages have valid numbers. *)
Lemma denotes_number h p s node m n pg :
  denotes h p s node m → m !! n = Some pg → page_number pg = n ∧ (0 < n ≤ max_page_count limits)%N.
Proof.
  revert p node m. induction h as [|h IH]; intros p node m Hd Hn; pose proof (denotes_depth _ _ _ _ _ Hd) as Hl.
  - destruct Hd as [_ (ps & -> & Hok & Hm)]. rewrite Hm in Hn. apply page_in_Some in Hn as [Hin <-]; [|apply Hok].
    split; [done|]. destruct (leaf_pages _ _ _ Hok pg Hin) as [_ Hv]. unfold PageReference_validate in Hv.
    apply fail_if_Ok in Hv. do 10 apply orb_false_iff in Hv as [Hv _].
    apply orb_false_iff in Hv as [Hz%N.eqb_neq Hx%N.ltb_ge]. lia.
  - destruct Hd as [Hp (cs & -> & _ & _ & Hc)]. destruct (has_prefix_next p n) as [e He]; [by eapply Hp|lia|].
    assert (restrict (p ++ [e]) m !! n = Some pg) as Hn' by (by rewrite lookup_restrict, decide_True).
    specialize (Hc e). destruct (child_at cs e) as [cid|]; [|by rewrite Hc, lookup_empty in Hn'].
    destruct Hc as (_ & child & _ & Hd). by eapply IH.
Qed.

(** ** Truncating *)

Definition up_to (b : N) m : gmap N PageReference := filter (λ np, (np.1 ≤ b)%N) m.

Lemma lookup_up_to b m n : up_to b m !! n = if decide (n ≤ b)%N then m !! n else None.
Proof.
  unfold up_to. destruct (decide (n ≤ b)%N) as [Hp|Hp].
  - destruct (m !! n) as [pg|] eqn:Hn; [by apply map_lookup_filter_Some|apply map_lookup_filter_None; by left].
  - apply map_lookup_filter_None. right. by intros.
Qed.

(** Numbers compare as the first byte in which they differ. *)
Lemma edge_order p a e n b :
  (n ≤ u32_max)%N → (b ≤ u32_max)%N → length p < 4 → has_prefix (p ++ [a]) n → has_prefix (p ++ [e]) b →
  (Byte.to_N a < Byte.to_N e)%N → (n < b)%N.
Proof.
  intros Hn Hb Hl Hpn Hpb Hlt. apply has_prefix_value in Hpn; [|done|rewrite length_app; cbn; lia].
  apply has_prefix_value in Hpb; [|done|rewrite length_app; cbn; lia]. rewrite from_be_bytes_snoc in Hpn, Hpb.
  rewrite length_app in Hpn, Hpb. set (k := (256 ^ N.of_nat (4 - (length p + length [a])))%N) in *.
  change (256 ^ N.of_nat (4 - (length p + length [e])))%N with k in Hpb.
  apply N.nle_gt. intros Hle. apply (N.Div0.div_le_mono b n k) in Hle. rewrite Hpn, Hpb in Hle. lia.
Qed.

(** Whether the byte after the prefix is at most [e]. *)
Definition edge_le p e (n : N) : bool :=
  match page_bytes n !! length p with Some a => (Byte.to_N a <=? Byte.to_N e)%N | None => false end.

Definition below_edge p e m : gmap N PageReference := filter (λ np, edge_le p e np.1 = true) m.

Lemma lookup_below_edge p e m n : below_edge p e m !! n = if edge_le p e n then m !! n else None.
Proof.
  unfold below_edge. destruct (edge_le p e n) eqn:Hp.
  - destruct (m !! n) as [pg|] eqn:Hn; [by apply map_lookup_filter_Some|apply map_lookup_filter_None; by left].
  - apply map_lookup_filter_None. right. intros x _. cbn. by rewrite Hp.
Qed.

Lemma edge_le_prefix p a e n : length p < 4 → has_prefix (p ++ [a]) n → edge_le p e n = (Byte.to_N a <=? Byte.to_N e)%N.
Proof. intros Hl [_ Ha]%has_prefix_snoc; [|done]. unfold edge_le. by rewrite Ha. Qed.

(** Dropping the children above an edge. *)
Lemma retain_denotes h p s node m e :
  denotes (Datatypes.S h) p s node m →
  denotes (Datatypes.S h) p s (with_children node (filter (λ c, (Byte.to_N (edge c) ≤ Byte.to_N e)%N) (children node))) (below_edge p e m).
Proof.
  intros [Hpre (cs & -> & Hl & Hok & Hc)]. cbn [children PageTableNode_internal with_children].
  set (kept_cs := filter _ cs). assert (edges_sorted kept_cs) as Hs by (by apply sorted_filter, Hok).
  assert (∀ a, child_at kept_cs a = if decide (Byte.to_N a ≤ Byte.to_N e)%N then child_at cs a else None) as Hat.
  { intros a. apply option_eq. intros cid. rewrite child_at_Some by done. unfold kept_cs. rewrite list_elem_of_filter. cbn.
    destruct (decide _); [|naive_solver]. rewrite child_at_Some by apply Hok. naive_solver. }
  assert (∀ a, restrict (p ++ [a]) (below_edge p e m) = if decide (Byte.to_N a ≤ Byte.to_N e)%N then restrict (p ++ [a]) m else ∅) as Hres.
  { intros a. apply map_eq. intros n. rewrite lookup_restrict, lookup_below_edge.
    destruct (decide (has_prefix (p ++ [a]) n)) as [Hn|Hn].
    - rewrite (edge_le_prefix p a e n) by (done || lia). destruct (decide _) as [Hle|Hle].
      + apply N.leb_le in Hle. rewrite Hle, lookup_restrict. by rewrite decide_True.
      + apply N.leb_nle in Hle. by rewrite Hle, lookup_empty.
    - destruct (decide _); [|done]. rewrite lookup_restrict. by rewrite decide_False. }
  assert (∀ a, match child_at kept_cs a with
             | Some cid => restrict (p ++ [a]) (below_edge p e m) ≠ ∅ ∧
                 ∃ child, get_node limits s cid = Ok child ∧ denotes h (p ++ [a]) s child (restrict (p ++ [a]) (below_edge p e m))
             | None => restrict (p ++ [a]) (below_edge p e m) = ∅
             end) as Hall.
  { intros a. rewrite Hat, Hres. destruct (decide _); [|done]. apply Hc. }
  split; [intros n pg; rewrite lookup_below_edge; destruct (edge_le p e n); [apply Hpre|done]|].
  exists kept_cs. split_and!; [done|done| |done]. apply (children_ok h p s); [lia|done|].
  intros a cid Ha. specialize (Hall a). rewrite Ha in Hall. destruct Hall as (_ & child & ? & ?). eauto.
Qed.

(** Below a boundary with the same prefix, what is up to the boundary and what is
    below its edge differ at that edge only. *)
Lemma up_to_edge h p s node m e b :
  denotes h p s node m → (b ≤ u32_max)%N → length p < 4 → has_prefix (p ++ [e]) b →
  replaced (p ++ [e]) (up_to b m) (below_edge p e m) (up_to b m).
Proof.
  intros Hd Hb Hl Hpe n. rewrite lookup_below_edge. destruct (decide (has_prefix (p ++ [e]) n)) as [|Hne]; [done|].
  rewrite lookup_up_to. destruct (m !! n) as [pg|] eqn:Hn; [|by destruct (decide _), (edge_le p e n)].
  pose proof (denotes_number _ _ _ _ _ _ _ Hd Hn) as [_ Hmaxn].
  destruct (has_prefix_next p n) as [a Ha]; [by eapply denotes_prefix|lia|]. rewrite (edge_le_prefix p a e n) by done.
  assert (Byte.to_N a ≠ Byte.to_N e) as Hae by (intros ->%byte_to_N_inj; done).
  destruct (N.leb_spec (Byte.to_N a) (Byte.to_N e)) as [Hle|Hgt].
  - pose proof (edge_order p a e n b ltac:(lia) Hb Hl Ha Hpe ltac:(lia)). by rewrite decide_True by lia.
  - pose proof (edge_order p e a b n Hb ltac:(lia) Hl Hpe Ha ltac:(lia)). by rewrite decide_False by lia.
Qed.

Lemma truncate_leaf p s node m b :
  denotes 0 p s node m →
  denotes 0 p s (with_pages node (filter (λ pg, (page_number pg ≤ b)%N) (pages node))) (up_to b m).
Proof.
  intros [Hpre (ps & -> & Hok & Hm)]. cbn [pages PageTableNode_leaf with_pages].
  assert (pages_sorted (filter (λ pg, (page_number pg ≤ b)%N) ps)) as Hs by (by apply sorted_filter, Hok).
  split; [intros n pg; rewrite lookup_up_to; destruct (decide _); [apply Hpre|done]|].
  exists (filter (λ pg, (page_number pg ≤ b)%N) ps). split_and!; [done| |].
  - split; [apply Hok|done|]. intros pg [_ Hin]%list_elem_of_filter. by apply Hok.
  - intros n. apply option_eq. intros pg. rewrite lookup_up_to, page_in_Some, list_elem_of_filter by done.
    destruct (decide _) as [Hle|Hle]; [|naive_solver]. rewrite Hm, page_in_Some by apply Hok. naive_solver.
Qed.

(** What a subtree has become. *)
Definition subtree (h : nat) p m (cw : option Cid * list Cid) s : Prop :=
  match cw.1 with
  | Some cid => m ≠ ∅ ∧ ∃ child, get_node limits s cid = Ok child ∧ denotes h p s child m
  | None => m = ∅
  end.

(** Cutting below a boundary: what [set_child] makes of the kept children. *)
Lemma cut_denotes h p s s' node m e b (cid : option Cid) (w : list Cid) :
  denotes (Datatypes.S h) p s node m → kept s s' → (b ≤ u32_max)%N → has_prefix (p ++ [e]) b →
  subtree h (p ++ [e]) (restrict (p ++ [e]) (up_to b m)) (cid, w) s' →
  denotes (Datatypes.S h) p s'
    (with_children node (set_child (filter (λ c, (Byte.to_N (edge c) ≤ Byte.to_N e)%N) (children node)) e cid)) (up_to b m).
Proof.
  intros Hd Hk Hb Hpe Hsub. pose proof (denotes_depth _ _ _ _ _ Hd) as Hl. pose proof Hd as Hd0.
  apply (retain_denotes _ _ _ _ _ e), (denotes_kept _ _ _ _ _ _ Hk) in Hd.
  refine (set_child_denotes _ _ _ _ _ (up_to b m) e cid (up_to b m) Hd _ _ Hsub).
  - eapply up_to_edge; [exact Hd0|done|lia|done].
  - intros n pg. rewrite lookup_up_to. destruct (decide _); [|done]. by eapply denotes_prefix.
Qed.

Lemma set_child_absent cs e : edges_sorted cs → child_at cs e = None → set_child cs e None = cs.
Proof.
  intros Hs Hn. destruct (set_child_spec cs e None Hs) as [Hs' Hat]. apply (sorted_ext edge_key); [done|done|].
  intros [e' cid]. rewrite <-!child_at_Some, Hat by done. destruct (decide (e' = e)) as [->|]; [by rewrite Hn|done].
Qed.

Lemma restrict_up_to p b m : restrict p (up_to b m) = up_to b (restrict p m).
Proof.
  apply map_eq. intros n. rewrite lookup_restrict, !lookup_up_to, lookup_restrict. by destruct (decide _), (decide _).
Qed.

Lemma truncate_step l seen e e' rest b cid written :
  truncate_below limits l seen (e :: e' :: rest) b cid written =
  (node ← reads (λ s, get_node limits s cid);
   _ ← lift (expect_node limits node Internal (N.of_nat l) seen);
   let kept := filter (λ c, (Byte.to_N (edge c) <= Byte.to_N e)%N) (children node) in
   '(kept, written) ←
     match child_at kept e with
     | Some child =>
         '(cid, written) ← truncate_below limits (1 + l) (seen ++ [e]) (e' :: rest) b child written;
         mret (set_child kept e cid, written)
     | None => mret (kept, written)
     end;
   put_unless limits (bool_decide (kept = [])) (with_children node kept) written).
Proof. done. Qed.

Definition kept_children node (e : byte) : list PageTableChild :=
  filter (λ c, (Byte.to_N (edge c) <= Byte.to_N e)%N) (children node).

(** The boundary's own subtree among the children that are kept. *)
Lemma kept_child h p s node m e b :
  denotes (Datatypes.S h) p s node m → (b ≤ u32_max)%N → has_prefix (p ++ [e]) b →
  match child_at (kept_children node e) e with
  | Some cid => ∃ child, get_node limits s cid = Ok child ∧ denotes h (p ++ [e]) s child (restrict (p ++ [e]) m)
  | None => denotes (Datatypes.S h) p s (with_children node (kept_children node e)) (up_to b m)
  end.
Proof.
  intros Hd Hb Hpe. pose proof (denotes_depth _ _ _ _ _ Hd) as Hl.
  assert (edges_sorted (kept_children node e)) as Hs.
  { destruct Hd as [_ (cs & -> & _ & Hok & _)]. by apply sorted_filter, Hok. }
  pose proof (retain_denotes _ _ _ _ _ e Hd) as [_ (cs & Heq & _ & _ & Hc)].
  assert (cs = kept_children node e) as -> by (symmetry; apply (f_equal children Heq)). specialize (Hc e).
  assert (restrict (p ++ [e]) (below_edge p e m) = restrict (p ++ [e]) m) as Hsame.
  { apply map_eq. intros n. rewrite !lookup_restrict, lookup_below_edge. destruct (decide _) as [Hn|]; [|done].
    rewrite (edge_le_prefix p e e n) by (done || lia). by rewrite N.leb_refl. }
  rewrite Hsame in Hc. destruct (child_at (kept_children node e) e) as [child|] eqn:Hat; [by destruct Hc|].
  rewrite <-(set_child_absent (kept_children node e) e Hs Hat).
  eapply (cut_denotes _ _ _ _ _ _ _ _ None []); [exact Hd|done|done|done|]. unfold subtree. cbn. rewrite restrict_up_to, Hc.
  apply map_eq. intros n. rewrite lookup_up_to, lookup_empty. by destruct (decide _).
Qed.

Lemma truncate_below_spec h p s cid node m b written :
  get_node limits s cid = Ok node → denotes h p s node m → (b ≤ u32_max)%N → has_prefix p b →
  yields s (truncate_below limits (length p) p (drop (length p) (page_bytes b)) b cid written) (subtree h p (up_to b m)).
Proof.
  revert p cid node m written. induction h as [|h IH]; intros p cid node m written Hg Hd Hb Hp;
    pose proof (denotes_depth _ _ _ _ _ Hd) as Hdepth; pose proof (denotes_expect _ _ _ _ _ Hd) as Hex;
    destruct (lookup_lt_is_Some_2 (page_bytes b) (length p)) as [e He]; try (rewrite length_page_bytes; lia);
    rewrite (drop_S _ e _ He).
  - rewrite (drop_ge (page_bytes b)) by (rewrite length_page_bytes; lia). cbn [truncate_below].
    eapply yields_reads; [exact Hg|]. replace (N.of_nat (length p)) with 3%N in Hex by lia.
    eapply yields_lift; [exact Hex|]. exact (put_unless_yields 0 p s _ _ written (truncate_leaf p s node m b Hd)).
  - destruct (lookup_lt_is_Some_2 (page_bytes b) (Datatypes.S (length p))) as [e' He']; [rewrite length_page_bytes; lia|].
    rewrite (drop_S _ e' _ He'), truncate_step. eapply yields_reads; [exact Hg|]. eapply yields_lift; [exact Hex|].
    assert (has_prefix (p ++ [e]) b) as Hpe by (apply has_prefix_snoc; [lia|done]). cbv zeta.
    fold (kept_children node e). pose proof (kept_child h p s node m e b Hd Hb Hpe) as Hchild.
    eapply (yields_bind _ _ _ (λ kw s', denotes (Datatypes.S h) p s' (with_children node kw.1) (up_to b m))).
    + destruct (child_at (kept_children node e) e) as [cid'|]; [|by apply yields_ret].
      destruct Hchild as (child & Hg' & Hd'). specialize (IH (p ++ [e]) cid' child _ written Hg' Hd' Hb Hpe).
      rewrite length_app, Nat.add_1_r, (drop_S _ e' _ He') in IH. eapply yields_bind; [exact IH|].
      intros [c w] s' Hk Hsub. apply yields_ret. eapply cut_denotes; [exact Hd|done|done|done|].
      rewrite restrict_up_to. exact Hsub.
    + intros [kept_cs w] s' Hk Hcut. exact (put_unless_yields (Datatypes.S h) p s' _ _ w Hcut).
Qed.

Lemma up_to_all b m : (∀ n pg, m !! n = Some pg → (n ≤ b)%N) → up_to b m = m.
Proof.
  intros Hall. apply map_eq. intros n. rewrite lookup_up_to. destruct (m !! n) as [pg|] eqn:Hn.
  - rewrite decide_True; [done|by eapply Hall].
  - by destruct (decide _).
Qed.

Lemma table_truncate s root m page_size old_count new_count :
  table s root m → check_page_size limits page_size = Ok () → (new_count ≤ old_count ≤ max_page_count limits)%N →
  (∀ n pg, m !! n = Some pg → (n ≤ old_count)%N) →
  yields s (truncate limits root page_size old_count new_count) (λ u s', table s' (new_root u) (up_to new_count m)).
Proof.
  intros (node & Hg & Hd) Hsize Hle Hall. unfold truncate. eapply yields_lift; [unfold normalize; by rewrite Hsize|].
  eapply yields_lift.
  { unfold fail_if. destruct (N.ltb_spec old_count new_count); [lia|]. by destruct (N.ltb_spec (max_page_count limits) old_count); [lia|]. }
  destruct (N.eqb_spec new_count old_count) as [->|Hne].
  { apply yields_ret. rewrite up_to_all by done. by exists node. }
  destruct (N.eqb_spec new_count 0) as [->|Hnz].
  { assert (up_to 0 m = ∅) as ->.
    { apply map_empty. intros n. rewrite lookup_up_to. destruct (decide _); [|done]. destruct (m !! n) as [pg|] eqn:Hn; [|done].
      destruct (denotes_number _ _ _ _ _ _ _ Hd Hn). lia. }
    pose proof (denotes_no_child 2 [] s eq_refl) as Hempty. eapply yields_bind; [apply put_node_yields; by eapply denotes_valid|].
    intros cid s' Hk Hg'. apply yields_ret. eexists. split; [exact Hg'|]. by eapply denotes_kept. }
  eapply yields_reads; [exact Hg|]. eapply yields_lift; [apply (denotes_expect _ _ _ _ _ Hd)|].
  destruct (page_bytes new_count) as [|e rest] eqn:Hbs; [by pose proof (length_page_bytes new_count) as Hlen; rewrite Hbs in Hlen|].
  assert (has_prefix [e] new_count) as Hpe by (unfold has_prefix; by rewrite Hbs). cbn [head default from_option id drop].
  fold (kept_children node e). pose proof (kept_child 2 [] s node m e new_count Hd ltac:(lia) Hpe) as Hchild.
  destruct (child_at (kept_children node e) e) as [cid|].
  - destruct Hchild as (child & Hg' & Hd'). cbn [app] in Hd'.
    pose proof (truncate_below_spec 2 [e] s cid child _ new_count [] Hg' Hd' ltac:(lia) Hpe) as Hbelow. rewrite Hbs in Hbelow.
    eapply yields_bind; [exact Hbelow|]. intros [c w] s1 Hk1 Hsub.
    assert (denotes 3 [] s1 (with_children node (set_child (kept_children node e) e c)) (up_to new_count m)) as Hnew.
    { eapply cut_denotes; [exact Hd|done|lia|done|]. rewrite restrict_up_to. exact Hsub. }
    eapply yields_bind; [apply put_node_yields; by eapply denotes_valid|].
    intros root' s' Hk Hg2. apply yields_ret. eexists. split; [exact Hg2|]. by eapply denotes_kept.
  - eapply yields_bind; [apply put_node_yields; by eapply denotes_valid|].
    intros root' s' Hk Hg2. apply yields_ret. eexists. split; [exact Hg2|]. by eapply denotes_kept.
Qed.

(** ** What reads see *)

Definition reads_as s root m : Prop := ∀ n, get limits s root n = (_ ← validate_page_number limits n; Ok (m !! n)).

Lemma table_reads s root m : table s root m → reads_as s root m.
Proof.
  intros Ht n. destruct (validate_page_number limits n) as [[]|e] eqn:Hn; cbn; [by apply table_get|].
  unfold get. by rewrite Hn.
Qed.

Lemma table_kept s s' root m : kept s s' → table s root m → table s' root m.
Proof. intros Hk (node & Hg & Hd). exists node. split; [by eapply get_node_kept|by eapply denotes_kept]. Qed.

(** C13: a page-table transaction: mutations that validate give a root whose reads are
    those of the page map after the mutations in their order, while the old root
    still reads as before, or the store refuses a write; otherwise the first
    invalid mutation is the error and nothing is written. *)
Theorem apply_reads s root m page_size ms :
  table s root m →
  match normalize limits page_size ms with
  | Ok _ => yields s (apply limits root page_size ms) (λ u s',
      table s' (new_root u) (foldl mutate_page m ms) ∧ reads_as s' (new_root u) (foldl mutate_page m ms) ∧ reads_as s' root m)
  | Err e => apply limits root page_size ms s = (Err e, s)
  end.
Proof.
  intros Ht. destruct (normalize limits page_size ms) as [norm|e] eqn:Hn.
  - eapply yields_wand; [by eapply table_apply|]. intros u s' Hk Hu. cbn. split_and!; [done|by apply table_reads|].
    by eapply table_reads, table_kept.
  - destruct Ht as (node & Hg & Hd). unfold apply, mbind, stm_bind, reads, lift. rewrite Hg.
    pose proof (denotes_expect _ _ _ _ _ Hd) as He. change (expect_node limits node Internal 0 [] = Ok ()) in He. by rewrite He, Hn.
Qed.

(** Truncation keeps the pages up to the new count and no others: they are what
    the new root reads, the old root still reads as before, and the new root is the
    root of any table of these pages. *)
Theorem truncate_reads s root m page_size old_count new_count :
  table s root m → check_page_size limits page_size = Ok () → (new_count ≤ old_count ≤ max_page_count limits)%N →
  (∀ n pg, m !! n = Some pg → (n ≤ old_count)%N) →
  yields s (truncate limits root page_size old_count new_count) (λ u s',
    reads_as s' (new_root u) (up_to new_count m) ∧ reads_as s' root m ∧
    ∀ root', table s' root' (up_to new_count m) → root' = new_root u).
Proof.
  intros Ht Hs Hle Hall. eapply yields_wand; [by eapply table_truncate|]. intros u s' Hk Hu. cbn. split_and!.
  - by apply table_reads.
  - by eapply table_reads, table_kept.
  - intros root' Ht'. by apply (table_root s' root' (new_root u) _ _ Ht' Hu).
Qed.

End Tables.
