(* ===== verification/SqliteBulk.v ===== *)
(** * Bulk operations of the page table

    Reading many pages through the request's cache is reading them one by one,
    building from sorted pages gives the table that single updates would give, and
    a table that validates can be read page by page. *)
From stdpp Require Import base gmap sets list strings sorting.
From Stdlib Require Import Strings.Byte.
From S2P Require Import Prelude Types Merkle SqlitePages SqlitePagesFacts SqlitePageTable.

Section Bulk.
Context `{Blake3} `{Hex} `{Json PageTableNode} `{!JsonLaws PageTableNode} {S : Type} `{MerkleStore S} `{!MerkleStoreLaws S}.
Context (limits : SqliteFormatLimits) (Hmax : (max_page_count limits ≤ u32_max)%N).
Implicit Types (s : S) (cid : Cid) (node : PageTableNode) (p : bytes) (m : gmap N PageReference).

(** ** Reading through a cache *)

(** What is cached is what the store has. *)
Definition cache_ok s (cache : gmap Cid PageTableNode) : Prop :=
  ∀ cid node, cache !! cid = Some node → get_node limits s cid = Ok node.

Lemma cached_node_spec s cid cache :
  cache_ok s cache → ∃ cache', cached_node limits s cid cache = (get_node limits s cid, cache') ∧ cache_ok s cache'.
Proof.
  intros Hok. unfold cached_node. destruct (cache !! cid) as [node|] eqn:Hc.
  - exists cache. by rewrite (Hok _ _ Hc).
  - destruct (get_node limits s cid) as [node|e] eqn:Hg; [|by exists cache]. eexists. split; [done|].
    intros c n. rewrite lookup_insert_Some. intros [[<- <-]|[_ Hn]]; [done|by apply Hok].
Qed.

Lemma get_cached_step s l seen e e' rest n cid cache :
  get_cached limits s l seen (e :: e' :: rest) n cid cache =
  (node ← cached_node limits s cid;
   _ ← lift (expect_node limits node Internal (N.of_nat l) seen);
   match child_at (children node) e with
   | None => mret None
   | Some cid => get_cached limits s (1 + l) (seen ++ [e]) (e' :: rest) n cid
   end) cache.
Proof. done. Qed.

Lemma table_get_cached_spec s rest l seen n cid cache :
  cache_ok s cache →
  ∃ cache', get_cached limits s l seen rest n cid cache = (get_from limits (get_node limits s) l seen rest n cid, cache')
    ∧ cache_ok s cache'.
Proof.
  revert l seen cid cache. induction rest as [|e rest IH]; intros l seen cid cache Hok;
    destruct (cached_node_spec s cid cache Hok) as (cache' & Hc & Hok').
  - exists cache'. split; [|done]. cbn. unfold mbind, stm_bind. rewrite Hc. destruct (get_node limits s cid) as [node|]; [|done].
    cbn. unfold stm_bind, lift. by destruct (expect_node _ _ _ _ _).
  - destruct rest as [|e' rest].
    + exists cache'. split; [|done]. cbn. unfold mbind, stm_bind. rewrite Hc. destruct (get_node limits s cid) as [node|]; [|done].
      cbn. unfold stm_bind, lift. by destruct (expect_node _ _ _ _ _).
    + rewrite get_cached_step, get_from_step. unfold mbind at 1, stm_bind at 1. rewrite Hc.
      destruct (get_node limits s cid) as [node|er]; [|by exists cache']. unfold mbind at 1, stm_bind at 1, lift. cbn [mbind result_bind].
      destruct (expect_node _ _ _ _ _) as [[]|er]; [|by exists cache']. cbn [mbind result_bind].
      destruct (child_at _ _) as [c|]; [|by exists cache']. by apply IH.
Qed.

(** Stop at the first error. *)
Fixpoint read_each (read : N → result SqliteError (option PageReference)) (ns : list N) : result SqliteError (list (option PageReference)) :=
  match ns with
  | [] => Ok []
  | n :: ns => v ← read n; vs ← read_each read ns; Ok (v :: vs)
  end.

Lemma get_each_spec s root ns acc cache :
  cache_ok s cache →
  ∃ cache', get_each limits s root ns acc cache =
    (match read_each (get limits s root) ns with Ok vs => Ok (acc ++ vs) | Err e => Err e end, cache').
Proof.
  revert acc cache. induction ns as [|n ns IH]; intros acc cache Hok; cbn [get_each read_each].
  - exists cache. by rewrite app_nil_r.
  - unfold get. unfold mbind, stm_bind, lift. destruct (validate_page_number limits n) as [[]|e]; [|by exists cache].
    destruct (table_get_cached_spec s (page_bytes n) 0 [] n root cache Hok) as (cache1 & -> & Hok1). cbn [result_bind].
    destruct (get_from _ _ _ _ _ _ _) as [v|e]; [|by exists cache1]. cbn.
    destruct (IH (acc ++ [v]) cache1 Hok1) as (cache2 & ->). exists cache2. unfold get.
    destruct (read_each _ ns) as [vs|e]; cbn; [|done]. by rewrite <-(assoc_L (++)).
Qed.

(** Reading pages in bulk is reading them one by one: same values in the order
    asked for and the same first error, although shared nodes are fetched once. *)
Theorem get_many_each s root ns :
  get_many limits s root ns =
  if (256 <? len ns)%N then Err (Limit "page lookup batch exceeds 256") else read_each (get limits s root) ns.
Proof.
  unfold get_many, get_many_with_stats, fail_if. destruct (_ <? _)%N; [done|]. cbn [mbind result_bind].
  destruct (get_each_spec s root ns [] ∅) as [cache ->]; [intros cid node; by rewrite lookup_empty|].
  by destruct (read_each _ ns).
Qed.

(** ** Building from sorted pages *)

Definition prefix_key {A} (x : bytes * A) : N := from_be_bytes x.1.
Abbreviation prefixes_sorted := (StronglySorted (key_lt prefix_key)).

Lemma from_be_bytes_inj p q : length p = length q → from_be_bytes p = from_be_bytes q → p = q.
Proof. intros Hl Heq. rewrite <-(be_bytes_from p), <-(be_bytes_from q), Hl, Heq. done. Qed.

(** A stored node of the tree for [m]. *)
Definition stored (h : nat) m s (x : bytes * Cid) : Prop :=
  restrict x.1 m ≠ ∅ ∧ ∃ node, get_node limits s x.2 = Ok node ∧ denotes limits h x.1 s node (restrict x.1 m).

(** One level of it: sorted, and every page is below one of its nodes. *)
Record level_ok (h : nat) m s (nodes : list (bytes * Cid)) : Prop := {
  level_sorted : prefixes_sorted nodes;
  level_stored x : x ∈ nodes → length x.1 + h = 3 ∧ stored h m s x;
  level_covers n pg : m !! n = Some pg → ∃ x, x ∈ nodes ∧ has_prefix x.1 n
}.

(** What the grouping of a sorted level gives. *)
Record runs_ok (k : nat) (nodes : list (bytes * Cid)) (groups : list (bytes * list PageTableChild)) : Prop := {
  runs_sorted : prefixes_sorted groups;
  runs_group up cs : (up, cs) ∈ groups → length up = k ∧ edges_sorted cs ∧ cs ≠ [] ∧ ∀ e cid, mkTableChild e cid ∈ cs → (up ++ [e], cid) ∈ nodes;
  runs_complete up e cid : (up ++ [e], cid) ∈ nodes → ∃ cs, (up, cs) ∈ groups ∧ mkTableChild e cid ∈ cs
}.

Lemma runs_spec k nodes :
  prefixes_sorted nodes → (∀ x, x ∈ nodes → length x.1 = Datatypes.S k) → runs_ok k nodes (runs nodes).
Proof.
  induction 1 as [|[p cid] nodes Hs IH Hp]; intros Hlen; cbn [runs].
  { split; [constructor|by intros up cs ?%elem_of_nil|by intros up e cid ?%elem_of_nil]. }
  specialize (IH ltac:(intros; apply Hlen; by right)). rewrite Forall_forall in Hp.
  pose proof (Hlen _ ltac:(by left)) as Hpl. cbn in Hpl.
  destruct p as [|e up _] using rev_ind; [done|]. rewrite take_init, last_snoc. cbn [default from_option id].
  rewrite length_app in Hpl. cbn in Hpl. destruct IH as [Hgs Hg Hgc].
  assert (∀ q cs, (q, cs) ∈ runs nodes → length q = k ∧ ∃ e' c', mkTableChild e' c' ∈ cs ∧ (q ++ [e'], c') ∈ nodes
    ∧ (from_be_bytes up * 256 + Byte.to_N e < from_be_bytes q * 256 + Byte.to_N e')%N) as Hnext.
  { intros q cs Hin. destruct (Hg _ _ Hin) as (Hq & _ & Hne & Hmem). split; [done|].
    destruct cs as [|[e' c'] cs]; [done|]. exists e', c'. split; [by left|]. specialize (Hmem e' c' ltac:(by left)).
    split; [done|]. pose proof (Hp _ Hmem) as Hlt. unfold key_lt, prefix_key in Hlt. cbn in Hlt.
    by rewrite !from_be_bytes_snoc in Hlt. }
  destruct (runs nodes) as [|[q cs] groups] eqn:Hruns; [|destruct (decide (up = q)) as [<-|Hne]].
  - split.
    + repeat constructor.
    + intros up' cs' Hin. apply list_elem_of_singleton in Hin as [= -> ->]. split_and!; [lia|repeat constructor|done|].
      intros e' c' Hin. apply list_elem_of_singleton in Hin as [= -> ->]. by left.
    + intros up' e' c' [Heq|Hin]%elem_of_cons.
      * injection Heq as Heq ->. apply app_inj_2 in Heq as [-> [= ->]]; [|done]. eexists. split; [by left|by left].
      * apply Hgc in Hin as (cs & ?%elem_of_nil & _). done.
  - split.
    + inversion Hgs as [|? ? Hgs' Hall]; subst. by constructor.
    + intros up' cs' [Heq|Hin]%elem_of_cons.
      * injection Heq as -> ->. destruct (Hg up cs ltac:(by left)) as (Hq & Hes & _ & Hmem). split_and!; [done| |done|].
        -- constructor; [done|]. apply Forall_forall. intros [e' c'] Hin. pose proof (Hp _ (Hmem _ _ Hin)) as Hlt.
           unfold key_lt, prefix_key in Hlt. cbn in Hlt. rewrite !from_be_bytes_snoc in Hlt. unfold key_lt, edge_key. cbn. lia.
        -- intros e' c' [Heq|Hin]%elem_of_cons; [injection Heq as -> ->; by left|right; by apply Hmem].
      * destruct (Hg up' cs' ltac:(by right)) as (? & ? & ? & Hmem). split_and!; try done. intros e' c' Hc. right. by apply Hmem.
    + intros up' e' c' [Heq|Hin]%elem_of_cons.
      * injection Heq as Heq ->. apply app_inj_2 in Heq as [-> [= ->]]; [|done]. eexists. split; [by left|by left].
      * apply Hgc in Hin as (cs' & Hin & Hc). apply elem_of_cons in Hin as [[= -> ->]|Hin].
        -- eexists. split; [by left|by right].
        -- exists cs'. split; [by right|done].
  - split.
    + constructor; [done|]. apply Forall_forall. intros [q' cs'] Hin. unfold key_lt, prefix_key. cbn [fst].
      destruct (Hnext _ _ Hin) as (Hq' & e' & c' & _ & _ & Hlt). pose proof (Byte.to_N_bounded e').
      assert (from_be_bytes up ≠ from_be_bytes q') as Hneq; [|lia].
      intros Heq. apply from_be_bytes_inj in Heq; [|lia]. subst q'. apply elem_of_cons in Hin as [[= -> _]|Hin]; [done|].
      inversion Hgs as [|? ? _ Hall]; subst. rewrite Forall_forall in Hall. pose proof (Hall _ Hin) as Hqup.
      unfold key_lt, prefix_key in Hqup. cbn [fst] in Hqup.
      destruct (Hnext q cs ltac:(by left)) as (_ & e2 & _ & _ & _ & Hlt2). pose proof (Byte.to_N_bounded e2). lia.
    + intros up' cs' [Heq|Hin]%elem_of_cons.
      * injection Heq as -> ->. split_and!; [lia|repeat constructor|done|].
        intros e' c' Hin. apply list_elem_of_singleton in Hin as [= -> ->]. by left.
      * destruct (Hg _ _ Hin) as (? & ? & ? & Hmem). split_and!; try done. intros e' c' Hc. right. by apply Hmem.
    + intros up' e' c' [Heq|Hin]%elem_of_cons.
      * injection Heq as Heq ->. apply app_inj_2 in Heq as [-> [= ->]]; [|done]. eexists. split; [by left|by left].
      * apply Hgc in Hin as (cs' & Hin & Hc). exists cs'. split; [by right|done].
Qed.

(** A group of a complete level makes a node of the level above. *)
Lemma group_denotes h m s nodes groups up cs :
  level_ok h m s nodes → runs_ok (2 - h) nodes groups → h ≤ 2 → (up, cs) ∈ groups →
  denotes limits (Datatypes.S h) up s (PageTableNode_internal (N.of_nat (length up)) up cs) (restrict up m) ∧ restrict up m ≠ ∅.
Proof.
  intros Hlev Hruns Hh Hin. destruct (runs_group _ _ _ Hruns _ _ Hin) as (Hlen & Hes & Hne & Hmem).
  assert (∀ e cid, child_at cs e = Some cid ↔ (up ++ [e], cid) ∈ nodes) as Hat.
  { intros e cid. rewrite child_at_Some by done. split; [by apply Hmem|]. intros Hn.
    destruct (runs_complete _ _ _ Hruns _ _ _ Hn) as (cs' & Hin' & Hc).
    assert ((up, cs) = (up, cs')) as [= ->]; [|done]. by apply (sorted_unique prefix_key groups); [apply Hruns|..]. }
  assert (∀ e, match child_at cs e with
             | Some cid => restrict (up ++ [e]) (restrict up m) ≠ ∅ ∧
                 ∃ child, get_node limits s cid = Ok child ∧ denotes limits h (up ++ [e]) s child (restrict (up ++ [e]) (restrict up m))
             | None => restrict (up ++ [e]) (restrict up m) = ∅
             end) as Hall.
  { intros e. rewrite restrict_restrict by lia. destruct (child_at cs e) as [cid|] eqn:Hc.
    - apply Hat in Hc. destruct (level_stored _ _ _ _ Hlev _ Hc) as (_ & Hst). exact Hst.
    - apply map_empty. intros n. destruct (restrict (up ++ [e]) m !! n) as [pg|] eqn:Hn; [|done].
      rewrite lookup_restrict in Hn. destruct (decide _) as [Hpre|]; [|done].
      destruct (level_covers _ _ _ _ Hlev n pg Hn) as ([q cid] & Hq & Hqn). cbn in Hqn.
      destruct (level_stored _ _ _ _ Hlev _ Hq) as [Hql _]. cbn in Hql.
      rewrite (has_prefix_eq q (up ++ [e]) n Hqn Hpre) in Hq by (rewrite length_app; cbn; lia).
      apply Hat in Hq. congruence. }
  split.
  - split; [intros n pg; rewrite lookup_restrict; by destruct (decide _)|]. exists cs. split_and!; [done|lia| |done].
    eapply (children_ok limits Hmax h up s); [lia|done|]. intros e cid Hc. specialize (Hall e). rewrite Hc in Hall.
    destruct Hall as (_ & child & ? & ?). eauto.
  - destruct cs as [|[e cid] cs]; [done|]. specialize (Hmem e cid ltac:(by left)).
    destruct (level_stored _ _ _ _ Hlev _ Hmem) as (_ & Hst & _). cbn in Hst. intros Hempty. apply Hst.
    rewrite <-(restrict_restrict up e) by lia. rewrite Hempty. apply map_eq. intros n.
    rewrite lookup_restrict, lookup_empty. by destruct (decide _).
Qed.

Lemma stored_kept h m s s' x : kept s s' → stored h m s x → stored h m s' x.
Proof.
  intros Hk (Hne & node & Hg & Hd). split; [done|]. exists node.
  split; [by eapply get_node_kept|by eapply denotes_kept].
Qed.

Lemma write_runs_spec h m s (groups : list (bytes * list PageTableChild)) l above written :
  (∀ up cs, (up, cs) ∈ groups → l = N.of_nat (length up) ∧ restrict up m ≠ ∅ ∧
     denotes limits (Datatypes.S h) up s (PageTableNode_internal l up cs) (restrict up m)) →
  yields limits s (write_runs limits l groups above written) (λ aw s',
    ∃ made, aw.1 = above ++ made ∧ made.*1 = groups.*1 ∧ ∀ x, x ∈ made → stored (Datatypes.S h) m s' x).
Proof.
  revert s above written. induction groups as [|[up cs] groups IH]; intros s above written Hg; cbn [write_runs].
  { apply yields_ret. exists []. rewrite app_nil_r. split_and!; [done|done|]. by intros x ?%elem_of_nil. }
  destruct (Hg up cs ltac:(by left)) as (Hl & Hne & Hd).
  eapply yields_bind; [apply put_node_yields; first [done|by eapply (denotes_valid limits Hmax)]|]. intros cid s1 Hk1 Hget.
  eapply yields_wand; [apply (IH s1)|].
  - intros up' cs' Hin. destruct (Hg up' cs' ltac:(by right)) as (? & ? & ?). split_and!; [done|done|]. by eapply denotes_kept.
  - intros [made' w'] s2 Hk2 (made & Hmade & Hkeys & Hall). cbn [fst] in *. exists ((up, cid) :: made).
    rewrite Hmade, <-(assoc_L (++)), fmap_cons, Hkeys. split_and!; [done|done|].
    intros x [->|Hx]%elem_of_cons; [|by apply Hall]. apply (stored_kept _ _ s1); [done|]. split; [done|].
    eexists. split; [exact Hget|]. by eapply denotes_kept.
Qed.

Lemma sorted_keys {A B} (l : list (bytes * A)) (l' : list (bytes * B)) : l'.*1 = l.*1 → prefixes_sorted l → prefixes_sorted l'.
Proof.
  intros Heq Hs. revert l' Heq. induction Hs as [|[p a] l _ IH Hp]; intros [|[q b] l'] Heq; try done; [constructor|].
  rewrite !fmap_cons in Heq. assert (q = p ∧ l'.*1 = l.*1) as [-> Heq'] by (by simplify_eq). constructor; [by apply IH|]. apply Forall_forall. intros [q' b'] Hin.
  assert (q' ∈ l.*1) as ([? a'] & -> & Ha)%list_elem_of_fmap by (rewrite <-Heq'; apply list_elem_of_fmap; by exists (q', b')).
  rewrite Forall_forall in Hp. exact (Hp _ Ha).
Qed.

Lemma level_kept h m s s' nodes : kept s s' → level_ok h m s nodes → level_ok h m s' nodes.
Proof.
  intros Hk [Hs Hst Hc]. split; [done| |done]. intros x Hx. destruct (Hst x Hx) as [? ?].
  split; [done|by eapply stored_kept].
Qed.

(** Writing the parents of a complete level gives the complete level above. *)
Lemma level_up h m s nodes written :
  level_ok h m s nodes → h ≤ 1 →
  yields limits s (write_runs limits (N.of_nat (2 - h)) (runs nodes) [] written) (λ aw s', level_ok (Datatypes.S h) m s' aw.1).
Proof.
  intros Hlev Hh. assert (runs_ok (2 - h) nodes (runs nodes)) as Hruns.
  { apply runs_spec; [apply Hlev|]. intros x Hx. destruct (level_stored _ _ _ _ Hlev x Hx). lia. }
  eapply yields_wand; [apply (write_runs_spec h m)|].
  - intros up cs Hin. destruct (group_denotes h m s nodes _ up cs Hlev Hruns ltac:(lia) Hin) as [Hd Hne].
    destruct (runs_group _ _ _ Hruns _ _ Hin) as [Hl _]. rewrite Hl in Hd. rewrite Hl. done.
  - intros [above w] s' Hk (made & -> & Hkeys & Hst). cbn [fst app]. split.
    + eapply sorted_keys; [exact Hkeys|apply Hruns].
    + intros [up cid] Hx. split; [|by apply Hst].
      assert (up ∈ (runs nodes).*1) as ([? cs] & -> & Hin)%list_elem_of_fmap
        by (rewrite <-Hkeys; apply list_elem_of_fmap; by exists (up, cid)).
      destruct (runs_group _ _ _ Hruns _ _ Hin) as [Hl _]. cbn. lia.
    + intros n pg Hn. destruct (level_covers _ _ _ _ Hlev n pg Hn) as ([q cid] & Hq & Hqn). cbn in Hqn.
      destruct (level_stored _ _ _ _ Hlev _ Hq) as [Hql _]. cbn in Hql.
      destruct q as [|e up _] using rev_ind; [cbn in Hql; lia|]. rewrite length_app in Hql. cbn in Hql.
      destruct (runs_complete _ _ _ Hruns _ _ _ Hq) as (cs & Hin & _).
      assert (up ∈ made.*1) as ([up' c] & -> & Hm)%list_elem_of_fmap by (rewrite Hkeys; apply list_elem_of_fmap; by exists (up, cs)).
      exists (up', c). split; [done|]. rewrite has_prefix_snoc in Hqn by lia. by destruct Hqn.
Qed.

(** The nodes below the root are one run. *)
Lemma runs_top (nodes : list (bytes * Cid)) :
  (∀ x, x ∈ nodes → length x.1 = 1) →
  runs nodes = match nodes with [] => [] | _ => [([], (λ pc, mkTableChild (default x00 (head pc.1)) pc.2) <$> nodes)] end.
Proof.
  induction nodes as [|[p cid] nodes IH]; intros Hl; [done|]. cbn [runs]. rewrite IH by (intros; apply Hl; by right).
  pose proof (Hl (p, cid) ltac:(by left)) as Hp. cbn in Hp. destruct p as [|e [|? ?]]; [done| |done]. cbn. by destruct nodes.
Qed.

Lemma finish_levels_spec m s leaves written :
  level_ok 0 m s leaves →
  yields limits s (finish_levels limits leaves written) (λ u s', table limits s' (new_root u) m).
Proof.
  intros Hlev. unfold finish_levels.
  eapply yields_bind; [apply (level_up 0 m s); [done|lia]|]. intros [two w2] s2 _ Htwo. cbn [fst] in Htwo.
  eapply yields_bind; [apply (level_up 1 m s2); [done|lia]|]. intros [one w1] s1 _ Hone. cbn [fst] in Hone.
  assert (denotes limits 3 [] s1 (PageTableNode_internal 0 [] ((λ pc, mkTableChild (default x00 (head pc.1)) pc.2) <$> one)) m) as Hd.
  { assert (∀ x, x ∈ one → length x.1 = 1) as Hl1 by (intros x Hx; destruct (level_stored _ _ _ _ Hone x Hx); lia).
    assert (runs_ok 0 one (runs one)) as Hruns by (apply runs_spec; [apply Hone|done]).
    rewrite (runs_top one Hl1) in Hruns. destruct one as [|x one'] eqn:Hone'.
    - assert (m = ∅) as ->; [|by apply denotes_no_child].
      apply map_empty. intros n. destruct (m !! n) as [pg|] eqn:Hn; [|done].
      by destruct (level_covers _ _ _ _ Hone n pg Hn) as (x & ?%elem_of_nil & _).
    - destruct (group_denotes 2 m s1 _ _ [] _ Hone Hruns ltac:(lia) ltac:(by left)) as [Hd _]. by rewrite restrict_nil in Hd. }
  eapply yields_bind; [apply put_node_yields; first [done|by eapply (denotes_valid limits Hmax)]|]. intros root s' Hk Hget.
  apply yields_ret. eexists. split; [exact Hget|by eapply denotes_kept].
Qed.

(** The map of a list of pages. *)
Definition pages_map (ps : list PageReference) : gmap N PageReference :=
  list_to_map ((λ pg, (page_number pg, pg)) <$> ps).

Lemma pages_nodup ps : pages_sorted ps → NoDup ((λ pg, (page_number pg, pg)) <$> ps).*1.
Proof.
  intros Hs. rewrite <-list_fmap_compose. unfold compose. cbn.
  induction Hs as [|a l _ IH Ha]; [constructor|]. cbn. constructor; [|done].
  intros (y & Heq & Hy)%list_elem_of_fmap. rewrite Forall_forall in Ha. pose proof (Ha _ Hy) as Hlt. unfold key_lt in Hlt. lia.
Qed.

Lemma lookup_pages_map ps n pg : pages_sorted ps → pages_map ps !! n = Some pg ↔ pg ∈ ps ∧ page_number pg = n.
Proof.
  intros Hs. unfold pages_map. rewrite <-elem_of_list_to_map.
  - rewrite list_elem_of_fmap. split; [by intros (? & [= -> ->] & ?)|]. intros [? <-]. by exists pg.
  - by apply pages_nodup.
Qed.

(** The builder after the pages [ps]: the leaves of all runs but the last are
    written. *)
Record building (page_size : N) (ps : list PageReference) (b : PageTableBulkBuilder) s : Prop := {
  building_size : builder_page_size b = page_size;
  building_sorted : pages_sorted ps;
  building_valid pg : pg ∈ ps → PageReference_validate pg page_size limits = Ok ();
  building_prior : builder_prior b = page_number <$> last ps;
  building_done : ∃ flushed, ps = flushed ++ current_pages b ∧ level_ok 0 (pages_map flushed) s (builder_leaves b);
  building_current :
    match current_prefix b with
    | None => ps = []
    | Some p => length p = 3 ∧ current_pages b ≠ [] ∧ (∀ pg, pg ∈ current_pages b → has_prefix p (page_number pg))
        ∧ ∀ x, x ∈ builder_leaves b → (from_be_bytes x.1 < from_be_bytes p)%N
    end
}.

Lemma level_empty s : level_ok 0 (pages_map []) s [].
Proof.
  split; [constructor|by intros x ?%elem_of_nil|]. intros n pg. unfold pages_map. cbn. by rewrite lookup_empty.
Qed.

Lemma building_start page_size b s : bulk_builder limits page_size = Ok b → building page_size [] b s.
Proof.
  unfold bulk_builder. destruct (check_page_size _ _); [|done]. cbn. intros [= <-].
  split; cbn; try done; [constructor|by intros pg ?%elem_of_nil|]. exists []. split; [done|apply level_empty].
Qed.

(** A leaf that follows the ones written completes the level. *)
Lemma level_snoc flushed current p cid s leaves :
  level_ok 0 (pages_map flushed) s leaves → pages_sorted (flushed ++ current) → current ≠ [] → length p = 3 →
  (∀ pg, pg ∈ current → has_prefix p (page_number pg)) → (∀ x, x ∈ leaves → (from_be_bytes x.1 < from_be_bytes p)%N) →
  get_node limits s cid = Ok (PageTableNode_leaf p current) → leaf_ok limits p current →
  level_ok 0 (pages_map (flushed ++ current)) s (leaves ++ [(p, cid)]).
Proof.
  intros Hlev Hs Hne Hp Hcur Hlt Hget Hok. destruct (proj1 (sorted_app _ _ _) Hs) as (Hsf & Hsc & _).
  assert (∀ x n pg, x ∈ leaves → has_prefix x.1 n → pages_map (flushed ++ current) !! n = Some pg ↔ pages_map flushed !! n = Some pg) as Hold.
  { intros x n pg Hx Hn. rewrite !lookup_pages_map, elem_of_app by done. split; [|tauto]. intros [[?|Hc] Hpg]; [tauto|].
    subst n. apply Hcur in Hc. destruct (level_stored _ _ _ _ Hlev _ Hx) as [Hxl _].
    specialize (Hlt x Hx). rewrite (has_prefix_eq _ _ _ Hn Hc) in Hlt by lia. lia. }
  assert (∀ n pg, has_prefix p n → pages_map (flushed ++ current) !! n = Some pg ↔ page_in current n = Some pg) as Hnew.
  { intros n pg Hn. rewrite lookup_pages_map, page_in_Some, elem_of_app by done. split; [|tauto]. intros [[Hf|?] Hpg]; [|tauto].
    destruct (level_covers _ _ _ _ Hlev n pg) as (x & Hx & Hxn); [by rewrite lookup_pages_map|].
    destruct (level_stored _ _ _ _ Hlev _ Hx) as [Hxl _]. specialize (Hlt _ Hx). rewrite (has_prefix_eq _ _ _ Hxn Hn) in Hlt by lia. lia. }
  split.
  - apply sorted_app. split_and!; [apply Hlev|repeat constructor|]. intros x y Hx ->%list_elem_of_singleton. by apply Hlt.
  - intros x [Hx| ->%list_elem_of_singleton]%elem_of_app; cbn [fst snd].
    + destruct (level_stored _ _ _ _ Hlev _ Hx) as [Hxl Hst]. split; [done|].
      assert (restrict x.1 (pages_map (flushed ++ current)) = restrict x.1 (pages_map flushed)) as Heq; [|unfold stored; by rewrite Heq].
      apply map_eq. intros n. rewrite !lookup_restrict. destruct (decide _) as [Hn|]; [|done].
      apply option_eq. intros pg. by eapply Hold.
    + split; [lia|]. split.
      * destruct current as [|pg current]; [done|]. intros Hempty. apply (f_equal (lookup (page_number pg))) in Hempty.
        rewrite lookup_empty, lookup_restrict, decide_True in Hempty by (apply Hcur; by left).
        apply (proj1 (eq_None_not_Some _)) in Hempty. apply Hempty. exists pg. apply lookup_pages_map; [done|]. set_solver.
      * eexists. split; [exact Hget|]. split; [intros n pg; rewrite lookup_restrict; by destruct (decide _)|].
        exists current. split_and!; [done|done|]. intros n. rewrite lookup_restrict. destruct (decide _) as [Hn|Hn].
        -- apply option_eq. intros pg. by apply Hnew.
        -- destruct (page_in current n) as [pg|] eqn:Hpg; [|done]. apply page_in_Some in Hpg as [Hin <-]; [|done].
           destruct Hn. by apply Hcur.
  - intros n pg [[Hf|Hc]%elem_of_app Hpg]%lookup_pages_map; [| |done].
    + destruct (level_covers _ _ _ _ Hlev n pg) as (x & Hx & Hxn); [by rewrite lookup_pages_map|].
      exists x. split; [|done]. apply elem_of_app. by left.
    + exists (p, cid). split; [apply elem_of_app; right; by left|]. subst n. by apply Hcur.
Qed.

(** What [yields] says, for computations that also change the builder. *)
Definition makes {A} (b : PageTableBulkBuilder) s (c : stm (PageTableBulkBuilder * S) SqliteError A)
    (Q : A → PageTableBulkBuilder → S → Prop) : Prop :=
  ∃ r b' s', c (b, s) = (r, (b', s')) ∧ kept s s' ∧ match r with Ok a => Q a b' s' | Err e => denied limits e end.

Lemma makes_bind {A B} b s (c : stm (PageTableBulkBuilder * S) SqliteError A) (f : A → stm (PageTableBulkBuilder * S) SqliteError B) P Q :
  makes b s c P → (∀ a b1 s1, kept s s1 → P a b1 s1 → makes b1 s1 (f a) Q) → makes b s (c ≫= f) Q.
Proof.
  intros ([a|e] & b1 & s1 & Hc & Hk & HP) Hf; unfold makes, mbind, stm_bind; rewrite Hc.
  - destruct (Hf a b1 s1 Hk HP) as (r & b2 & s2 & Hr & Hk2 & HQ). exists r, b2, s2. split_and!; [done|by etrans|done].
  - by exists (Err e), b1, s1.
Qed.

Lemma leaf_order p q n n' :
  length p = 3 → length q = 3 → has_prefix p n → has_prefix q n' → (n ≤ n')%N → (n' ≤ u32_max)%N → p ≠ q →
  (from_be_bytes p < from_be_bytes q)%N.
Proof.
  intros Hp Hq Hn Hn' Hle Hmax' Hne. assert (from_be_bytes p ≠ from_be_bytes q) by (intros Heq; apply Hne, from_be_bytes_inj; [lia|done]).
  apply has_prefix_value in Hn; [|lia|lia]. apply has_prefix_value in Hn'; [|lia|lia].
  rewrite Hp in Hn. rewrite Hq in Hn'. pose proof (N.Div0.div_le_mono n n' (256 ^ N.of_nat (4 - 3)) Hle). lia.
Qed.

Lemma building_leaf page_size ps b s p :
  building page_size ps b s → current_prefix b = Some p → leaf_ok limits p (current_pages b).
Proof.
  intros Hb Hc. pose proof (building_current _ _ _ _ Hb) as Hcur. rewrite Hc in Hcur. destruct Hcur as (Hp & _ & Hpre & _).
  destruct (building_done _ _ _ _ Hb) as (flushed & Hps & _). pose proof (building_sorted _ _ _ _ Hb) as Hs.
  rewrite Hps in Hs. apply sorted_app in Hs as (_ & Hs & _). split; [done|done|]. intros pg Hpg. split; [by apply Hpre|].
  eapply page_validate_length, (building_valid _ _ _ _ Hb). rewrite Hps. apply elem_of_app. by right.
Qed.

(** The builder with everything written. *)
Definition flushed_all (page_size : N) (ps : list PageReference) (prior : option N) (b : PageTableBulkBuilder) s : Prop :=
  builder_page_size b = page_size ∧ builder_prior b = prior ∧ current_prefix b = None ∧ current_pages b = [] ∧
  level_ok 0 (pages_map ps) s (builder_leaves b).

Lemma flush_spec page_size ps b s :
  building page_size ps b s →
  makes b s (flush_leaf limits) (λ _ b' s',
    flushed_all page_size ps (builder_prior b) b' s' ∧
    ∀ x p, x ∈ builder_leaves b' → current_prefix b = Some p → (from_be_bytes x.1 ≤ from_be_bytes p)%N).
Proof.
  intros Hb. unfold makes, flush_leaf. pose proof (building_current _ _ _ _ Hb) as Hcur.
  destruct (building_done _ _ _ _ Hb) as (flushed & Hps & Hlev). destruct (current_prefix b) as [p|] eqn:Hp.
  - pose proof (building_leaf _ _ _ _ _ Hb Hp) as Hok. destruct Hcur as (Hl & Hne & Hpre & Hlt).
    destruct (put_node_yields limits Hmax s (PageTableNode_leaf p (current_pages b))) as ([cid|e] & s' & -> & Hk & Hr);
      [by apply leaf_validate| |by eexists _, _, s'].
    eexists _, _, s'. split_and!; [done|done|]. cbn. split; [split_and!; try done; cbn|].
    + apply Hb.
    + rewrite Hps. apply level_snoc; try done; [by eapply level_kept|]. rewrite <-Hps. apply Hb.
    + intros x q [Hx| ->%list_elem_of_singleton]%elem_of_app [= <-]; [apply N.lt_le_incl; by apply Hlt|done].
  - rewrite Hcur in Hps. symmetry in Hps. apply app_nil in Hps as [-> Hcp]. rewrite Hcur in *. eexists _, b, s. split_and!; [done|done|]. cbn.
    split; [split_and!; try done|done]. apply Hb.
Qed.

(** Making room for a page with the prefix [q]. *)
Definition has_room (page_size : N) (ps : list PageReference) (q : bytes) (b : PageTableBulkBuilder) s : Prop :=
  builder_page_size b = page_size ∧
  (∃ flushed, ps = flushed ++ current_pages b ∧ level_ok 0 (pages_map flushed) s (builder_leaves b)) ∧
  (∀ pg, pg ∈ current_pages b → has_prefix q (page_number pg)) ∧
  ∀ x, x ∈ builder_leaves b → (from_be_bytes x.1 < from_be_bytes q)%N.

Lemma room_spec page_size ps b s page (q := take 3 (page_bytes (page_number page))) :
  building page_size ps b s → PageReference_validate page page_size limits = Ok () →
  (∀ pg, pg ∈ ps → (page_number pg < page_number page)%N) → length q = 3 → has_prefix q (page_number page) →
  makes b s (λ '(b, s), if is_some_and (λ current, negb (bool_decide (current = q))) (current_prefix b)
                        then flush_leaf limits (b, s) else (Ok (), (b, s))) (λ _, has_room page_size ps q).
Proof.
  intros Hb Hv Hgt Hq Hqn. pose proof (building_current _ _ _ _ Hb) as Hcur. pose proof (building_done _ _ _ _ Hb) as Hdone.
  unfold makes, has_room. destruct (current_prefix b) as [p|] eqn:Hp; cbn [is_some_and].
  - destruct Hcur as (Hl & Hne & Hpre & Hlt). destruct (bool_decide_reflect (p = q)) as [Heq|Hpq]; cbn [negb].
    + rewrite Heq in *. exists (Ok ()), b, s. split; [done|]. split; [done|]. split_and!; [apply Hb|done|done|done].
    + destruct (flush_spec _ _ _ _ Hb) as ([[]|e] & b' & s' & -> & Hk & Hr); [|by eexists _, _, _].
      destruct Hr as [(Hsz & _ & _ & Hnil & Hlev) Hle]. exists (Ok ()), b', s'. split; [done|]. split; [done|].
      assert (from_be_bytes p < from_be_bytes q)%N as Hpq'.
      { destruct (current_pages b) as [|pg cur] eqn:Hcp; [done|]. destruct Hdone as (fl & Hps & _).
        eapply (leaf_order p q (page_number pg) (page_number page)); try done; [apply Hpre; by left| |].
        - apply N.lt_le_incl, Hgt. rewrite Hps. apply elem_of_app. right. by left.
        - by eapply page_valid_bounds. }
      rewrite Hnil. split_and!; [done| |by intros pg ?%elem_of_nil|].
      * exists ps. by rewrite app_nil_r.
      * intros x Hx. specialize (Hle x p Hx Hp). lia.
  - exists (Ok ()), b, s. subst ps. destruct Hdone as (fl & Heq & Hlev). split; [done|]. split; [done|].
    symmetry in Heq. apply app_nil in Heq as [-> Hcp]. rewrite Hcp. split_and!; [apply Hb|by exists []|by intros pg ?%elem_of_nil|].
    intros x Hx. destruct (level_stored _ _ _ _ Hlev _ Hx) as (_ & Hemp & _). destruct Hemp. apply map_eq. intros n.
    rewrite lookup_restrict. unfold pages_map. cbn. rewrite lookup_empty. by destruct (decide _).
Qed.

Lemma builder_push_spec page_size ps b s page :
  building page_size ps b s → PageReference_validate page page_size limits = Ok () →
  (∀ pg, pg ∈ ps → (page_number pg < page_number page)%N) →
  makes b s (push limits page) (λ _ b' s', building page_size (ps ++ [page]) b' s').
Proof.
  intros Hb Hv Hgt. unfold push. set (q := take 3 (page_bytes (page_number page))).
  assert (length q = 3) as Hq by (unfold q; rewrite length_take, length_page_bytes; done).
  assert (has_prefix q (page_number page)) as Hqn by (unfold has_prefix; by rewrite Hq).
  eapply makes_bind with (P := λ _ b' s', b' = b ∧ s' = s).
  { exists (Ok ()), b, s. unfold reads. rewrite (building_size _ _ _ _ Hb), Hv. done. }
  intros [] ? ? _ [-> ->]. eapply makes_bind with (P := λ _ b' s', b' = b ∧ s' = s).
  { exists (Ok ()), b, s. unfold reads. rewrite (building_prior _ _ _ _ Hb). split; [|done].
    destruct (last ps) as [pg|] eqn:Hl; cbn; [|done]. apply last_Some_elem_of in Hl. specialize (Hgt _ Hl).
    rewrite (proj2 (N.leb_gt _ _)) by done. done. }
  intros [] ? ? _ [-> ->]. eapply makes_bind; [by apply (room_spec page_size ps)|].
  intros [] b' s' Hk (Hsz & (fl & Hps & Hlev) & Hcur & Hlt). exists (Ok ()), (mkBuilder (builder_page_size b')
    (Some (page_number page)) (Some q) (current_pages b' ++ [page]) (builder_leaves b') (builder_written b')), s'.
  split; [done|]. split; [done|]. split; cbn; try done.
  - apply sorted_app. split_and!; [apply Hb|repeat constructor|]. intros x y Hx ->%list_elem_of_singleton. by apply Hgt.
  - intros pg [Hin| ->%list_elem_of_singleton]%elem_of_app; [by apply Hb|done].
  - by rewrite last_snoc.
  - exists fl. by rewrite Hps, (assoc_L (++)).
  - split_and!; [done|by destruct (current_pages b')| |done].
    intros pg [Hin| ->%list_elem_of_singleton]%elem_of_app; [by apply Hcur|done].
Qed.

(** The whole of a bulk build: the builder, the pages one after the other, and the
    end. *)
Definition build (page_size : N) (ps : list PageReference) : stm S SqliteError PageTableUpdate := λ s,
  match bulk_builder limits page_size with
  | Err e => (Err e, s)
  | Ok b =>
      let '(r, (_, s)) := (_ ← foldr (λ page rest, _ ← push limits page; rest) (mret ()) ps; finish limits)
                            (b, s) in (r, s)
  end.

Lemma pushes_spec page_size ps : ∀ before b s,
  building page_size before b s → pages_sorted (before ++ ps) →
  (∀ pg, pg ∈ ps → PageReference_validate pg page_size limits = Ok ()) →
  makes b s (foldr (λ page rest, _ ← push limits page; rest) (mret ()) ps) (λ _ b' s', building page_size (before ++ ps) b' s').
Proof.
  induction ps as [|page ps IH]; intros before b s Hb Hs Hv; cbn [foldr].
  { exists (Ok ()), b, s. rewrite app_nil_r. done. }
  eapply makes_bind; [apply (builder_push_spec page_size before); [done|by apply Hv; left|]|].
  - apply sorted_app in Hs as (_ & _ & Hlt). intros pg Hpg. apply Hlt; [done|by left].
  - intros [] b1 s1 _ Hb1. cbn in Hb1. assert (before ++ page :: ps = (before ++ [page]) ++ ps) as Heq by (by rewrite <-(assoc_L (++))).
    rewrite Heq in Hs |- *.
    apply IH; [done|done|]. intros pg Hpg. apply Hv. by right.
Qed.

Lemma build_spec s page_size ps :
  check_page_size limits page_size = Ok () → pages_sorted ps → (∀ pg, pg ∈ ps → PageReference_validate pg page_size limits = Ok ()) →
  yields limits s (build page_size ps) (λ u s', table limits s' (new_root u) (pages_map ps)).
Proof.
  intros Hsz Hs Hv. unfold build. destruct (bulk_builder limits page_size) as [b|e] eqn:Hbb.
  - assert (makes b s (_ ← foldr (λ page rest, _ ← push limits page; rest) (mret ()) ps; finish limits)
      (λ u _ s', table limits s' (new_root u) (pages_map ps))) as (r & b' & s' & Hr & Hk & HQ); [|exists r, s'; by rewrite Hr].
    eapply makes_bind; [apply (pushes_spec page_size ps []); [by apply building_start|done|done]|].
    intros [] b1 s1 _ Hb1. unfold finish. eapply makes_bind; [by eapply flush_spec|].
    intros [] b2 s2 _ [(_ & _ & _ & _ & Hlev) _]. unfold makes.
    destruct (finish_levels_spec _ _ _ (builder_written b2) Hlev) as (r & s3 & Hr & Hk & HQ). cbn. rewrite Hr.
    by exists r, b2, s3.
  - unfold bulk_builder in Hbb. by rewrite Hsz in Hbb.
Qed.

Lemma foldl_puts ps : ∀ m, foldl mutate_page m (PutPage <$> ps) = pages_map (reverse ps) ∪ m.
Proof.
  induction ps as [|pg ps IH]; intros m; cbn.
  { unfold pages_map. cbn. by rewrite (left_id_L ∅ (∪)). }
  change (foldl mutate_page (<[page_number pg := pg]> m) (PutPage <$> ps) = pages_map (reverse (pg :: ps)) ∪ m).
  rewrite IH, reverse_cons. unfold pages_map. rewrite fmap_app, list_to_map_app. cbn.
  by rewrite insert_union_singleton_l, (assoc_L (∪)), insert_empty.
Qed.

Lemma pages_map_perm ps qs : pages_sorted ps → qs ≡ₚ ps → pages_map qs = pages_map ps.
Proof.
  intros Hs Hp. unfold pages_map. apply list_to_map_proper; [|by rewrite Hp].
  rewrite Hp. by apply pages_nodup.
Qed.

Lemma normalize_pages page_size ms norm pg :
  normalize limits page_size ms = Ok norm → PutPage pg ∈ ms → PageReference_validate pg page_size limits = Ok ().
Proof.
  unfold normalize. intros ([] & _ & Hf)%bind_Ok. revert Hf. generalize (∅ : gmap N PageMutation).
  induction ms as [|mu ms IH]; intros acc Hf; [by intros ?%elem_of_nil|]. cbn [try_foldl] in Hf.
  apply bind_Ok in Hf as (acc' & Hmu & Hrest). apply bind_Ok in Hmu as ([] & _ & ([] & Hv & _)%bind_Ok).
  intros [<-|Hin]%elem_of_cons; [done|by eapply IH].
Qed.

Lemma empty_root_table s : yields limits s (empty_root limits) (λ e s', table limits s' e ∅).
Proof.
  pose proof (denotes_no_child limits Hmax 2 [] s eq_refl) as Hd.
  eapply yields_wand; [apply put_node_yields; first [done|by eapply (denotes_valid limits Hmax)]|].
  intros e s' Hk Hg. eexists. split; [exact Hg|by eapply denotes_kept].
Qed.

(** The bulk builder makes the table that single updates make: the sorted pages
    pushed in bulk, and the same pages put in any order into the empty table, end
    at the same root. *)
Theorem build_is_apply page_size ps qs norm s s1 s2 s3 u u' e :
  check_page_size limits page_size = Ok () → pages_sorted ps → qs ≡ₚ ps → normalize limits page_size (PutPage <$> qs) = Ok norm →
  build page_size ps s = (Ok u, s1) → empty_root limits s1 = (Ok e, s2) →
  apply limits e page_size (PutPage <$> qs) s2 = (Ok u', s3) →
  new_root u = new_root u'.
Proof.
  intros Hsz Hs Hp Hn Hb He Ha.
  assert (∀ pg, pg ∈ ps → PageReference_validate pg page_size limits = Ok ()) as Hv.
  { intros pg Hpg. eapply normalize_pages; [exact Hn|]. apply list_elem_of_fmap. exists pg. by rewrite Hp. }
  destruct (build_spec s page_size ps Hsz Hs Hv) as (r & s1' & Hb' & Hk1 & Hu). rewrite Hb in Hb'. injection Hb' as <- <-.
  destruct (empty_root_table s1) as (r & s2' & He' & Hk2 & Hte). rewrite He in He'. injection He' as <- <-.
  destruct (table_apply limits Hmax s2 e ∅ page_size _ norm Hte Hn) as (r & s3' & Ha' & Hk3 & Hu').
  rewrite Ha in Ha'. injection Ha' as <- <-. rewrite foldl_puts, (right_id_L ∅ (∪)) in Hu'.
  rewrite (pages_map_perm ps (reverse qs)) in Hu' by (done || by rewrite reverse_Permutation).
  eapply (table_root limits Hmax s3); [eapply table_kept; [|exact Hu]; by etrans|exact Hu'|done].
Qed.

End Bulk.
