(* ===== verification/SqliteValidation.v ===== *)
(** * What validating a page table shows

    A table accepted by [validate_complete] can be read page by page: every page up
    to the count is found, well formed and at its number, and none above it. *)
From stdpp Require Import base gmap sets list strings sorting.
From Stdlib Require Import Strings.Byte.
From S2P Require Import Prelude Types Merkle Dag SqlitePages SqlitePagesFacts SqlitePageTable.

(** The pages are [k + 1], [k + 2] and so on. *)
Fixpoint dense_from (k : N) (ps : list PageReference) : Prop :=
  match ps with
  | [] => True
  | pg :: ps => page_number pg = (k + 1)%N ∧ dense_from (k + 1)%N ps
  end.

Lemma dense_app ps : ∀ k qs, dense_from k (ps ++ qs) ↔ dense_from k ps ∧ dense_from (k + len ps)%N qs.
Proof.
  induction ps as [|pg ps IH]; intros k qs; cbn.
  - unfold len. cbn. rewrite N.add_0_r. tauto.
  - rewrite IH. replace (k + 1 + len ps)%N with (k + len (pg :: ps))%N by (unfold len; cbn; lia). tauto.
Qed.

Lemma dense_page ps : ∀ k n, dense_from k ps → (∃ pg, pg ∈ ps ∧ page_number pg = n) ↔ (k < n ≤ k + len ps)%N.
Proof.
  induction ps as [|pg ps IH]; intros k n Hd.
  { split; [by intros (pg & ?%elem_of_nil & _)|]. unfold len. cbn. lia. }
  destruct Hd as [Hpg Hd]. specialize (IH (k + 1)%N n Hd).
  assert (len (pg :: ps) = len ps + 1)%N as -> by (unfold len; cbn; lia). split.
  - intros (q & [->|Hq]%elem_of_cons & Hn); [lia|]. assert (k + 1 < n ≤ k + 1 + len ps)%N; [|lia]. apply IH. eauto.
  - intros Hn. destruct (decide (n = k + 1)%N) as [->|Hne]; [exists pg; split; [by left|done]|].
    destruct (proj2 IH) as (q & Hq & <-); [lia|]. exists q. split; [by right|done].
Qed.

Section Validation.
Context `{Blake3} `{Hex} `{Json PageTableNode} `{!JsonLaws PageTableNode} {S : Type} `{MerkleStore S} `{!MerkleStoreLaws S}.
Context (limits : SqliteFormatLimits) (Hmax : (max_page_count limits ≤ u32_max)%N).
Implicit Types (s : S) (cid : Cid) (node : PageTableNode) (p : bytes).

(** ** The shape of the nodes met *)

Lemma expect_internal p node :
  expect_node limits node Internal (N.of_nat (length p)) p = Ok () → edges_sorted (children node).
Proof.
  unfold expect_node. intros ([] & Hv & Hf%fail_if_Ok)%bind_Ok. apply orb_false_iff in Hf as [Hf _].
  apply orb_false_iff in Hf as [Hk%negb_false_iff%bool_decide_eq_true _]. unfold PageTableNode_validate in Hv. rewrite Hk in Hv.
  apply bind_Ok in Hv as ([] & _ & ([] & _ & (acc & Hc & _)%bind_Ok)%bind_Ok). by apply (check_children limits) in Hc as [? _].
Qed.

Lemma expect_leaf p node :
  length p = 3 → expect_node limits node Leaf 3 p = Ok () → leaf_ok limits p (pages node).
Proof.
  intros Hp. unfold expect_node. intros ([] & Hv & Hf%fail_if_Ok)%bind_Ok.
  apply orb_false_iff in Hf as [[Hk%negb_false_iff%bool_decide_eq_true Hl%negb_false_iff%N.eqb_eq]%orb_false_iff Hpre%negb_false_iff%bool_decide_eq_true].
  cbn in Hpre. apply leaf_validate; [done..|]. rewrite <-Hv. pose proof Hv as Hv'. unfold PageTableNode_validate in Hv'. rewrite Hk in Hv'.
  apply bind_Ok in Hv' as ([] & Hh%fail_if_Ok & ([] & Hn%fail_if_Ok & _)%bind_Ok).
  do 2 apply orb_false_iff in Hh as [Hh _]. apply orb_false_iff in Hh as [Ht%negb_false_iff%bool_decide_eq_true Hver%negb_false_iff%N.eqb_eq].
  apply orb_false_iff in Hn as [[_ Hc%negb_false_iff%bool_decide_eq_true]%orb_false_iff _].
  destruct node; cbn in *; subst. done.
Qed.

(** ** The walk *)

(** The part of the walk that concerns the pages. *)
Record walked (page_size : N) (dense : bool) (w w' : Walk) (ps : list PageReference) : Prop := {
  walked_count : walk_pages w' = (walk_pages w + len ps)%N;
  walked_dense : dense = true → dense_from (walk_pages w) ps;
  walked_valid pg : pg ∈ ps → PageReference_validate pg page_size limits = Ok ();
  walked_packs : walk_packs w' = list_to_set (pack_cid <$> ps) ∪ walk_packs w
}.

Lemma walked_nil page_size dense w : walked page_size dense w w [].
Proof. split; cbn; [unfold len; cbn; lia|done|by intros pg ?%elem_of_nil|set_solver]. Qed.

Lemma walked_app page_size dense w w1 w2 ps qs :
  walked page_size dense w w1 ps → walked page_size dense w1 w2 qs → walked page_size dense w w2 (ps ++ qs).
Proof.
  intros [Hc Hd Hv Hp] [Hc' Hd' Hv' Hp']. split.
  - rewrite Hc', Hc. unfold len. rewrite length_app. lia.
  - intros Ht. apply dense_app. rewrite <-Hc. auto.
  - intros pg [?|?]%elem_of_app; auto.
  - rewrite Hp', Hp, fmap_app, list_to_set_app_L, !(assoc_L (∪)). by rewrite (comm_L (∪) (list_to_set (_ <$> qs))).
Qed.

Lemma check_page_walked page_size dense w pg w' :
  check_page limits page_size dense w pg = Ok w' → walked page_size dense w w' [pg].
Proof.
  unfold check_page. intros ([] & Hv & ([] & _ & ([] & Hd%fail_if_Ok & (count & Hc%ok_or_Ok%checked_add_Some & Hw%Ok_inj)%bind_Ok)%bind_Ok)%bind_Ok)%bind_Ok.
  destruct Hc as [-> Hle]. subst w'. split; cbn.
  - done.
  - intros ->. cbn in Hd. apply negb_false_iff, N.eqb_eq in Hd. unfold saturating_add in Hd. split; [lia|done].
  - by intros q ->%list_elem_of_singleton.
  - by rewrite (right_id_L ∅ (∪)).
Qed.

Lemma check_pages_walked page_size dense ps : ∀ w w',
  try_foldl (check_page limits page_size dense) w ps = Ok w' → walked page_size dense w w' ps.
Proof.
  induction ps as [|pg ps IH]; intros w w'; cbn [try_foldl].
  - intros [= ->]. apply walked_nil.
  - intros (w1 & Hc%check_page_walked & Hr%IH)%bind_Ok. exact (walked_app _ _ _ _ _ [pg] ps Hc Hr).
Qed.

(** What a subtree holds: its pages in order, all below its prefix, and a read
    below it finds exactly these. *)
Record holds p s cid (ps : list PageReference) : Prop := {
  holds_sorted : pages_sorted ps;
  holds_prefix pg : pg ∈ ps → has_prefix p (page_number pg);
  holds_reads n : has_prefix p n →
    get_from limits (get_node limits s) (length p) p (drop (length p) (page_bytes n)) n cid = Ok (page_in ps n)
}.

(** The same for the children of a node. *)
Record children_hold p s (cs : list PageTableChild) (ps : list PageReference) : Prop := {
  children_sorted : pages_sorted ps;
  children_prefix pg : pg ∈ ps → ∃ c, c ∈ cs ∧ has_prefix (p ++ [edge c]) (page_number pg);
  children_read c n : c ∈ cs → has_prefix (p ++ [edge c]) n →
    get_from limits (get_node limits s) (1 + length p) (p ++ [edge c]) (drop (1 + length p) (page_bytes n)) n (child_node c) = Ok (page_in ps n)
}.

Lemma page_in_app_l ps qs n : pages_sorted (ps ++ qs) → (∀ pg, pg ∈ qs → page_number pg ≠ n) → page_in (ps ++ qs) n = page_in ps n.
Proof.
  intros Hs Hq. pose proof (proj1 (sorted_app _ _ _) Hs) as (Hp & _). apply option_eq. intros pg.
  rewrite !page_in_Some, elem_of_app by done. naive_solver.
Qed.

Lemma page_in_app_r ps qs n : pages_sorted (ps ++ qs) → (∀ pg, pg ∈ ps → page_number pg ≠ n) → page_in (ps ++ qs) n = page_in qs n.
Proof.
  intros Hs Hq. pose proof (proj1 (sorted_app _ _ _) Hs) as (_ & Hp & _). apply option_eq. intros pg.
  rewrite !page_in_Some, elem_of_app by done. naive_solver.
Qed.

Lemma same_edge p e e' n : length p < 4 → has_prefix (p ++ [e]) n → has_prefix (p ++ [e']) n → e = e'.
Proof. intros Hp [_ He]%has_prefix_snoc [_ He']%has_prefix_snoc; [congruence|done..]. Qed.

Lemma children_hold_cons p s c cs ps qs :
  length p < 4 → edges_sorted (c :: cs) →
  (∀ pg, pg ∈ ps ++ qs → (page_number pg ≤ u32_max)%N) →
  holds (p ++ [edge c]) s (child_node c) ps → children_hold p s cs qs → children_hold p s (c :: cs) (ps ++ qs).
Proof.
  intros Hp Hes Hb [Hs Hpre Hrd] [Hs' Hpre' Hrd']. inversion Hes as [|? ? _ Hlt]; subst. rewrite Forall_forall in Hlt.
  assert (pages_sorted (ps ++ qs)) as Hsort.
  { apply sorted_app. split_and!; [done|done|]. intros x y Hx Hy. destruct (Hpre' y Hy) as (c' & Hc' & Hyc).
    eapply (edge_order limits Hmax p (edge c) (edge c') (page_number x) (page_number y)); try done.
    - apply Hb, elem_of_app. by left.
    - apply Hb, elem_of_app. by right.
    - by apply Hpre.
    - exact (Hlt _ Hc'). }
  split; [done| |].
  - intros pg [Hin|Hin]%elem_of_app; [exists c; split; [by left|by apply Hpre]|].
    destruct (Hpre' pg Hin) as (c' & ? & ?). exists c'. split; [by right|done].
  - intros c' n [->|Hc']%elem_of_cons Hn.
    + rewrite page_in_app_l; [|done|].
      * specialize (Hrd n Hn). rewrite length_app, Nat.add_comm in Hrd. exact Hrd.
      * intros pg Hpg <-. destruct (Hpre' pg Hpg) as (c' & Hc' & Hpc). pose proof (Hlt _ Hc') as Hk.
        unfold key_lt, edge_key in Hk. rewrite (same_edge _ _ _ _ Hp Hn Hpc) in Hk. lia.
    + rewrite page_in_app_r; [by apply Hrd'|done|]. intros pg Hpg <-. pose proof (Hlt _ Hc') as Hk. apply Hpre in Hpg.
      unfold key_lt, edge_key in Hk. rewrite (same_edge _ _ _ _ Hp Hpg Hn) in Hk. lia.
Qed.

Lemma children_walked h p s page_size dense cs :
  length p < 4 →
  (∀ q cid w w', walk limits s page_size dense h q cid w = Ok w' → length q = Datatypes.S (length p) →
     ∃ ps, walked page_size dense w w' ps ∧ holds q s cid ps) →
  ∀ w w', edges_sorted cs →
  try_foldl (λ w c, walk limits s page_size dense h (p ++ [edge c]) (child_node c) w) w cs = Ok w' →
  ∃ ps, walked page_size dense w w' ps ∧ children_hold p s cs ps.
Proof.
  intros Hp IH. induction cs as [|c cs IHcs]; intros w w' Hes; cbn [try_foldl].
  - intros [= ->]. exists []. split; [apply walked_nil|]. split; [constructor|by intros pg ?%elem_of_nil|by intros c n ?%elem_of_nil].
  - intros (w1 & Hc & Hr)%bind_Ok. apply IH in Hc as (ps & Hw & Hh); [|rewrite length_app; cbn; lia].
    inversion Hes; subst. destruct (IHcs w1 w' ltac:(done) Hr) as (qs & Hw' & Hh'). exists (ps ++ qs).
    pose proof (walked_app _ _ _ _ _ _ _ Hw Hw') as Hww. split; [done|]. apply children_hold_cons; [done|done| |done|done].
    intros pg Hpg. by eapply (page_valid_bounds limits), (walked_valid _ _ _ _ _ Hww).
Qed.

Lemma walk_step s page_size dense h p cid w :
  walk limits s page_size dense (Datatypes.S h) p cid w =
  (_ ← fail_if (bool_decide (cid ∈ visited w)) (Invalid "page-table node is linked more than once or forms a cycle");
   count ← ok_or (checked_add u64_max (walk_nodes w) 1) (Limit "page-table node count");
   node ← get_node limits s cid;
   _ ← expect_node limits node Internal (2 - N.of_nat h) p;
   try_foldl (λ w c, walk limits s page_size dense h (p ++ [edge c]) (child_node c) w)
     (mkWalk ({[cid]} ∪ visited w) count (walk_pages w) (prior_page w) (walk_cids w ++ [cid]) (walk_packs w)) (children node)).
Proof. done. Qed.

(** Entering a node does not change what [walked] is about. *)
Lemma walked_enter page_size dense w w' v c cids ps :
  walked page_size dense (mkWalk v c (walk_pages w) (prior_page w) cids (walk_packs w)) w' ps → walked page_size dense w w' ps.
Proof. by intros [Hc Hd Hv Hp]. Qed.

Lemma drop_page_bytes p n e : has_prefix (p ++ [e]) n → length p < 4 → drop (length p) (page_bytes n) = e :: drop (1 + length p) (page_bytes n).
Proof. intros Hn Hp. apply has_prefix_snoc in Hn as [_ He]; [|done]. by apply drop_S. Qed.

Lemma walk_holds s page_size dense h : ∀ p cid w w',
  walk limits s page_size dense h p cid w = Ok w' → length p + h = 3 →
  ∃ ps, walked page_size dense w w' ps ∧ holds p s cid ps.
Proof.
  induction h as [|h IH]; intros p cid w w' Hw Hp.
  - cbn in Hw. apply bind_Ok in Hw as ([] & _ & (count & _ & (node & Hg & ([] & He & Hw)%bind_Ok)%bind_Ok)%bind_Ok).
    pose proof (expect_leaf p node ltac:(lia) He) as [Hl Hs Hpg].
    exists (pages node). split; [by eapply walked_enter, check_pages_walked|]. split; [done|intros pg Hin; by apply Hpg|].
    intros n Hn. destruct (has_prefix_next p n Hn ltac:(lia)) as [e Hne]. rewrite (drop_page_bytes _ _ _ Hne) by lia.
    rewrite drop_ge by (rewrite length_page_bytes; lia). cbn. rewrite Hg. cbn. by rewrite He.
  - rewrite walk_step in Hw. apply bind_Ok in Hw as ([] & _ & (count & _ & (node & Hg & ([] & He & Hw)%bind_Ok)%bind_Ok)%bind_Ok).
    replace (2 - N.of_nat h)%N with (N.of_nat (length p)) in He by lia. pose proof (expect_internal p node He) as Hes.
    apply children_walked in Hw as (ps & Hw%walked_enter & [Hs Hpre Hrd]); [|lia| |done].
    + exists ps. split; [done|]. split; [done| |].
      * intros pg Hpg. destruct (Hpre pg Hpg) as (c & _ & [? _]%has_prefix_snoc); [done|lia].
      * intros n Hn. destruct (has_prefix_next p n Hn ltac:(lia)) as [e Hne]. rewrite (drop_page_bytes _ _ _ Hne) by lia.
        destruct (drop (1 + length p) (page_bytes n)) as [|e' rest] eqn:Hrest.
        { apply (f_equal length) in Hrest. rewrite length_drop, length_page_bytes in Hrest. cbn in Hrest. lia. }
        rewrite get_from_step, Hg. cbn [mbind result_bind]. rewrite He. cbn [mbind result_bind].
        destruct (child_at (children node) e) as [cid'|] eqn:Hc.
        -- apply child_at_Some in Hc; [|done]. rewrite <-Hrest. exact (Hrd _ n Hc Hne).
        -- f_equal. symmetry. apply eq_None_not_Some. intros [pg [Hin <-]%page_in_Some]; [|done].
           destruct (Hpre pg Hin) as ([e2 c2] & Hcin & Hc2). cbn in Hc2.
           rewrite (same_edge p e e2 (page_number pg)) in Hc by (done || lia).
           apply child_at_Some in Hcin; [|done]. congruence.
    + intros q cid' v v' Hv Hq. apply IH; [done|lia].
Qed.

(** A read finds the page, well formed and in one of the packs reported. *)
Definition finds s root page_size (v : PageTableValidation) (n : N) : Prop :=
  ∃ pg, get limits s root n = Ok (Some pg) ∧ page_number pg = n ∧ PageReference_validate pg page_size limits = Ok ()
    ∧ pack_cid pg ∈ page_pack_roots v.

(** C14: a table that validates as dense holds exactly the pages up to the count:
    every one of them is found by a read, is well formed for the page size, carries
    its own number and lies in a pack that the validation reports, and above the
    count nothing is found. *)
Theorem validated_reads s root page_size count v n :
  validate_complete limits s root page_size count true = Ok v → validate_page_number limits n = Ok () →
  if (n <=? count)%N then finds s root page_size v n else get limits s root n = Ok None.
Proof.
  unfold validate_complete. intros (? & _ & ([] & _ & (w & Hw & ([] & Hc%fail_if_Ok & Hv%Ok_inj)%bind_Ok)%bind_Ok)%bind_Ok)%bind_Ok Hn.
  apply walk_holds in Hw as (ps & [Hcount Hdense Hvalid Hpacks] & [Hs _ Hrd]); [|done].
  apply negb_false_iff, N.eqb_eq in Hc. cbn in Hcount, Hdense. specialize (Hrd n (has_prefix_nil n)). cbn [length] in Hrd. rewrite drop_0 in Hrd.
  unfold finds, get. rewrite Hn. cbn [mbind result_bind]. rewrite Hrd.
  pose proof (dense_page ps 0 n (Hdense eq_refl)) as Hd. rewrite <-Hcount, Hc in Hd.
  apply fail_if_Ok, orb_false_iff in Hn as [Hn0%N.eqb_neq _]. destruct (N.leb_spec n count) as [Hle|Hgt].
  - destruct (proj2 Hd) as (pg & Hin & Hpg); [lia|]. exists pg. split_and!; [|done|by apply Hvalid|].
    + f_equal. by apply page_in_Some.
    + subst v. cbn. rewrite sort_cids_perm, elem_of_elements, Hpacks. apply elem_of_union_l, elem_of_list_to_set.
      apply list_elem_of_fmap. by exists pg.
  - f_equal. apply eq_None_not_Some. intros [pg [Hin Hpg]%page_in_Some]; [|done].
    assert (0 < n ≤ count)%N; [|lia]. apply Hd. eauto.
Qed.

End Validation.
