(* ===== verification/SqliteExamples.v ===== *)
(** * A page table at work

    A table of pages over the in-memory store: built in bulk, updated, truncated,
    read and validated, with the theorems of the preceding files applied to it. *)
From stdpp Require Import base gmap sets list strings sorting.
From Stdlib Require Import Strings.Byte.
From S2P Require Import Prelude Types Merkle Reference SqlitePages SqlitePagesFacts SqlitePageTable SqliteBulk SqliteValidation.

#[local] Existing Instances ref_blake3 ref_hex ref_store ref_store_laws.

#[local] Instance Page_ser : Ser PageReference.
Proof.
  refine (inj_ser (λ p, (page_number p, pack_cid p, page_offset p, page_length p, page_hash p))
            (λ '(n, c, o, l, h), mkPage n c o l h) _).
  by intros [].
Defined.

#[local] Instance TableChild_ser : Ser PageTableChild.
Proof. refine (inj_ser (λ c, (edge c, child_node c)) (λ '(e, c), mkTableChild e c) _). by intros []. Defined.

#[local] Instance TableNode_ser : Ser PageTableNode.
Proof.
  refine (inj_ser
    (λ n, (table_type n, table_version n, match node_kind n with Internal => 0 | Leaf => 1 end, level n, node_prefix n, children n, pages n))
    (λ '(t, v, k, l, p, c, g), mkTableNode t v (if k =? 0 then Internal else Leaf) l p c g) _)%N.
  by intros [? ? [] ? ? ? ?].
Defined.

#[local] Instance node_json : Json PageTableNode := ref_json.
#[local] Instance node_json_laws : JsonLaws PageTableNode := ref_json_laws.

Definition limits : SqliteFormatLimits := SqliteFormatLimits_default.
Lemma limits_fit : (max_page_count limits ≤ u32_max)%N.
Proof. by vm_compute. Qed.

Definition pack : Cid := Cid_new CODEC_SMALL_OBJECT [x01; x02].
Definition page (n : N) : PageReference :=
  mkPage n pack 4096 4096 "00112233445566778899aabbccddeeff00112233445566778899aabbccddeeff".

Definition two_leaves : list PageReference := [page 1; page 2; page 300].
Definition shuffled : list PageReference := [page 300; page 1; page 2].

(** Run, or stay. *)
Definition run {A} (c : stm (gmap Cid bytes) SqliteError A) (fallback : A) (s : gmap Cid bytes) : A * gmap Cid bytes :=
  match c s with (Ok a, s) => (a, s) | (Err _, s) => (fallback, s) end.

Definition runs_ok {A} (c : stm (gmap Cid bytes) SqliteError A) (s : gmap Cid bytes) : bool :=
  match (c s).1 with Ok _ => true | Err _ => false end.

Lemma run_ok {A} (c : stm (gmap Cid bytes) SqliteError A) fallback s :
  runs_ok c s = true → c s = (Ok (run c fallback s).1, (run c fallback s).2).
Proof. unfold runs_ok, run. by destruct (c s) as [[a|e] s']. Qed.

Definition no_update : PageTableUpdate := mkTableUpdate pack [].
Definition built : PageTableUpdate * gmap Cid bytes := run (build limits 4096 two_leaves) no_update ∅.
Definition empty : Cid * gmap Cid bytes := run (empty_root limits) pack built.2.
Definition applied : PageTableUpdate * gmap Cid bytes := run (apply limits empty.1 4096 (PutPage <$> shuffled)) no_update empty.2.

Lemma size_ok : check_page_size limits 4096 = Ok ().
Proof. vm_compute. reflexivity. Qed.
Lemma two_leaves_sorted : pages_sorted two_leaves.
Proof. repeat constructor. Qed.
Lemma shuffled_perm : shuffled ≡ₚ two_leaves.
Proof. exact (Permutation_cons_append [page 1; page 2] (page 300)). Qed.
Lemma built_ok : build limits 4096 two_leaves ∅ = (Ok built.1, built.2).
Proof. unfold built. apply (run_ok (build limits 4096 two_leaves) no_update ∅). vm_compute. reflexivity. Qed.
Lemma empty_ok : empty_root limits built.2 = (Ok empty.1, empty.2).
Proof. unfold empty. apply (run_ok (empty_root limits) pack built.2). vm_compute. reflexivity. Qed.
Lemma applied_ok : apply limits empty.1 4096 (PutPage <$> shuffled) empty.2 = (Ok applied.1, applied.2).
Proof. unfold applied. apply (run_ok (apply limits empty.1 4096 (PutPage <$> shuffled)) no_update empty.2). vm_compute. reflexivity. Qed.

Definition normalized : gmap N PageMutation :=
  match normalize limits 4096 (PutPage <$> shuffled) with Ok norm => norm | Err _ => ∅ end.
Lemma normalized_ok : normalize limits 4096 (PutPage <$> shuffled) = Ok normalized.
Proof.
  assert (match normalize limits 4096 (PutPage <$> shuffled) with Ok _ => true | Err _ => false end = true) as Hn
    by (vm_compute; reflexivity).
  unfold normalized. by destruct (normalize _ _ _).
Qed.

Lemma build_is_apply_witness : new_root built.1 = new_root applied.1 ∧ codec (new_root built.1) = CODEC_SQLITE_PAGE_TABLE.
Proof.
  split; [|vm_compute; reflexivity].
  exact (build_is_apply limits limits_fit 4096 two_leaves shuffled normalized ∅ built.2 empty.2 applied.2 built.1 applied.1 empty.1
           size_ok two_leaves_sorted shuffled_perm normalized_ok built_ok empty_ok applied_ok).
Defined.

(** The table of the three pages. *)
Lemma pages_valid pg : pg ∈ two_leaves → PageReference_validate pg 4096 limits = Ok () ∧ (page_number pg ≤ 300)%N.
Proof.
  revert pg. apply Forall_forall. unfold two_leaves.
  repeat (constructor; [split; [vm_compute; reflexivity|vm_compute; discriminate]|]). constructor.
Qed.

Lemma sample_table : table limits built.2 (new_root built.1) (pages_map two_leaves).
Proof.
  destruct (build_spec limits limits_fit ∅ 4096 two_leaves size_ok two_leaves_sorted) as (r & s & Hb & _ & Ht).
  - intros pg Hpg. exact (proj1 (pages_valid pg Hpg)).
  - pose proof (eq_trans (eq_sym Hb) built_ok) as [Hr Hs]%pair_eq. rewrite Hr, Hs in Ht. exact Ht.
Qed.

Definition changes : list PageMutation := [DeletePage 2; PutPage (page 70000); DeletePage 1; PutPage (page 1)].

Lemma apply_reads_witness :
  yields limits built.2 (apply limits (new_root built.1) 4096 changes) (λ u s',
    table limits s' (new_root u) (foldl mutate_page (pages_map two_leaves) changes) ∧
    reads_as limits s' (new_root u) (foldl mutate_page (pages_map two_leaves) changes) ∧
    reads_as limits s' (new_root built.1) (pages_map two_leaves)).
Proof. exact (apply_reads limits limits_fit built.2 (new_root built.1) (pages_map two_leaves) 4096 changes sample_table). Defined.

Lemma truncate_reads_witness :
  yields limits built.2 (truncate limits (new_root built.1) 4096 300 2) (λ u s',
    reads_as limits s' (new_root u) (up_to 2 (pages_map two_leaves)) ∧
    reads_as limits s' (new_root built.1) (pages_map two_leaves) ∧
    ∀ root', table limits s' root' (up_to 2 (pages_map two_leaves)) → root' = new_root u).
Proof.
  apply (truncate_reads limits limits_fit built.2 (new_root built.1) (pages_map two_leaves) 4096 300 2 sample_table size_ok).
  - vm_compute. split; discriminate.
  - intros n pg Hn. apply (lookup_pages_map limits limits_fit) in Hn as [Hin <-]; [|exact two_leaves_sorted].
    exact (proj2 (pages_valid pg Hin)).
Defined.

(** Two pages without a gap. *)
Definition dense_pages : PageTableUpdate * gmap Cid bytes := run (build limits 4096 [page 1; page 2]) no_update ∅.

Definition validation : PageTableValidation :=
  match validate_complete limits dense_pages.2 (new_root dense_pages.1) 4096 2 true with
  | Ok v => v
  | Err _ => mkTableValidation 0 0 [] []
  end.

Lemma validated_reads_witness :
  finds limits dense_pages.2 (new_root dense_pages.1) 4096 validation 2
  ∧ get limits dense_pages.2 (new_root dense_pages.1) 3 = Ok None.
Proof.
  assert (validate_complete limits dense_pages.2 (new_root dense_pages.1) 4096 2 true = Ok validation) as Hv
    by (vm_compute; reflexivity).
  split.
  - exact (validated_reads limits limits_fit dense_pages.2 (new_root dense_pages.1) 4096 2 validation 2 Hv eq_refl).
  - exact (validated_reads limits limits_fit dense_pages.2 (new_root dense_pages.1) 4096 2 validation 3 Hv eq_refl).
Defined.
