(* ===== verification/DagHandlers.v ===== *)
(** * The handlers of the stored formats

    The codec handlers that the crates register for their blocks: Merkle nodes
    (crates/pepper-merkle), namespace descriptors, commits and checkpoints
    (crates/pepper-namespace), and SQLite databases, snapshots and page tables
    (crates/pepper-sqlite). *)
From stdpp Require Import base gmap sets list strings sorting.
From S2P Require Import Prelude Types Merkle Dag Namespace SqlitePages.

(** [SqliteError]'s [Display] *)
Definition SqliteError_to_string (e : SqliteError) : string :=
  match e with
  | Invalid m => "invalid SQLite request: " +:+ m
  | SqlitePages.NonCanonical => "SQLite format is not canonical"
  | Limit m => "SQLite format limit exceeded: " +:+ m
  | Storage m => "SQLite storage failed: " +:+ m
  | SqlitePages.GenerationConflict g => "SQLite generation conflict; current generation is " +:+ fmt_radix 10 g
  | Busy => "SQLite writer is busy"
  | Timeout => "SQLite operation timed out"
  | Fenced => "SQLite session or writer ticket is fenced"
  | AmbiguousCommit k => "SQLite commit outcome is ambiguous; query idempotency key " +:+ k
  | Unsupported m => "unsupported SQLite operation: " +:+ m
  | SqlitePanicked => ""
  end.

Section Handlers.
Context `{Blake3} `{Hex} `{Json Node} `{NamespaceJson}.
Context `{Json DatabaseDescriptor} `{Json SnapshotDescriptor} `{Json PageTableNode}.

Definition MerkleNodeCodecHandler : DagCodecHandler :=
  mkHandler CODEC_MERKLE_NODE true (λ payload _,
    map_err (λ e, invalid_payload CODEC_MERKLE_NODE (MerkleError_to_string e)) (Merkle.links payload)).

Definition NamespaceDescriptorCodecHandler : DagCodecHandler :=
  mkHandler CODEC_NAMESPACE_DESCRIPTOR true (λ payload _, descriptor_links payload).

Definition NamespaceCommitCodecHandler : DagCodecHandler :=
  mkHandler CODEC_NAMESPACE_COMMIT true (λ payload _, commit_links payload).

Definition NamespaceCheckpointCodecHandler : DagCodecHandler :=
  mkHandler CODEC_NAMESPACE_CHECKPOINT true (λ payload _, checkpoint_links payload).

Definition invalid_dag (k : Codec) (e : SqliteError) : DagError := invalid_payload k (SqliteError_to_string e).

Definition decode_dag {A} `{Json A} (payload : bytes) (limits : TraversalLimits) (k : Codec) : result DagError A :=
  map_err (invalid_dag k) (SqlitePages.decode_canonical payload (tl_max_payload_bytes limits)).

Definition SqliteDatabaseCodecHandler : DagCodecHandler :=
  mkHandler CODEC_SQLITE_DATABASE true (λ payload limits,
    value ← decode_dag (A := DatabaseDescriptor) payload limits CODEC_SQLITE_DATABASE;
    _ ← map_err (invalid_dag CODEC_SQLITE_DATABASE) (DatabaseDescriptor_validate value SqliteFormatLimits_default);
    Ok []).

Definition SqliteSnapshotCodecHandler : DagCodecHandler :=
  mkHandler CODEC_SQLITE_SNAPSHOT true (λ payload limits,
    value ← decode_dag (A := SnapshotDescriptor) payload limits CODEC_SQLITE_SNAPSHOT;
    _ ← map_err (invalid_dag CODEC_SQLITE_SNAPSHOT) (SnapshotDescriptor_validate value SqliteFormatLimits_default);
    Ok [database_cid value; page_table_root_cid value]).

Definition SqlitePageTableCodecHandler : DagCodecHandler :=
  mkHandler CODEC_SQLITE_PAGE_TABLE true (λ payload limits,
    value ← decode_dag (A := PageTableNode) payload limits CODEC_SQLITE_PAGE_TABLE;
    _ ← map_err (invalid_dag CODEC_SQLITE_PAGE_TABLE) (PageTableNode_validate value SqliteFormatLimits_default);
    let links := PageTableNode_links value in
    _ ← fail_if (tl_max_links_per_block limits <? len links)%N
          (TooManyLinks (canonical_display CODEC_SQLITE_PAGE_TABLE) (len links) (tl_max_links_per_block limits));
    Ok links).

End Handlers.
