(* ===== verification/SqliteAdapter.v ===== *)
(** * The page table as a dataset index

    [SqliteIndexAdapter] of crates/pepper-sqlite/src/page_table.rs, which gives the
    page table the interface of crates/pepper-dataset: the frontier that it derives
    from a transaction is always one that the dataset layer accepts. *)
From stdpp Require Import base gmap sets list strings sorting.
From Stdlib Require Import Strings.Byte.
From S2P Require Import Prelude Types Merkle Dag SqlitePages SqlitePagesFacts SqlitePageTable DagHandlers Dataset DatasetFacts.

Section Adapter.
Context `{Blake3} `{Hex} `{Json PageTableNode} {S : Type} `{MerkleStore S}.
Context (page_size : N) (limits : SqliteFormatLimits).

Definition SqliteIndexAdapter_kind : IndexKind := FixedFanout 256 4.

Definition SqliteIndexAdapter_get_many (s : S) (root : Cid) (keys : list N) : result DatasetError (BulkRead PageReference) :=
  r ← map_err (λ e, DatasetStorage (SqliteError_to_string e)) (get_many_with_stats limits s root keys);
  Ok (mkDatasetBulkRead (values r) (unique_nodes_read r)).

(** The pages that a transaction names, and the packs it brings. *)
Definition changed_pages (mutations : list PageMutation) : gset N := list_to_set (mutation_number <$> mutations).

Definition put_pack (m : PageMutation) : option Cid := match m with PutPage page => Some (pack_cid page) | DeletePage _ => None end.

Definition data_roots (mutations : list PageMutation) : list Cid := dedup (sort_cids (omap put_pack mutations)).

Definition table_frontier (mutations : list PageMutation) (update : PageTableUpdate) : MutationFrontier :=
  mkMutationFrontier (N.of_nat (size (changed_pages mutations))) 4 (new_root update) (written_nodes update)
    (data_roots mutations) [].

Definition SqliteIndexAdapter_apply (root : Cid) (mutations : list PageMutation) : stm S DatasetError (IndexUpdate Cid) := λ s,
  match apply limits root page_size mutations s with
  | (Err e, s') => (Err (DatasetStorage (SqliteError_to_string e)), s')
  | (Ok update, s') =>
      (_ ← MutationFrontier_validate (table_frontier mutations update);
       Ok (mkIndexUpdate (new_root update) (table_frontier mutations update)), s')
  end.

#[export] Instance SqliteIndexAdapter : IndexAdapter S Cid N PageReference PageMutation := {|
  adapter_kind := SqliteIndexAdapter_kind;
  adapter_get_many := SqliteIndexAdapter_get_many;
  adapter_apply := SqliteIndexAdapter_apply
|}.

End Adapter.

(** ** Sorting and removing duplicates *)

#[local] Instance cid_text_trans `{Hex} : Transitive cid_text_le.
Proof.
  intros a b c. unfold cid_text_le. rewrite !bytes_leb_spec.
  intros [Hab|Hab] [Hbc|Hbc]; [left; by eapply bytes_lt_trans|left; by rewrite <-Hbc|left; by rewrite Hab|right; congruence].
Qed.

#[local] Instance cid_text_total `{Hex} : Total cid_text_le.
Proof.
  intros a b. unfold cid_text_le. rewrite !bytes_leb_spec.
  destruct (bytes_lt_trichotomy (as_bytes (Cid_to_string a)) (as_bytes (Cid_to_string b))) as [?|[Heq|?]]; auto.
Qed.

Lemma dedup_distinct {A} `{EqDecision A} (R : relation A) (l : list A) :
  StronglySorted R l → (∀ a b, a ∈ l → b ∈ l → R a b → R b a → a = b) → NoDup (dedup l).
Proof.
  induction l as [|a [|b l] IH]; intros Hs Hanti; [constructor|apply NoDup_singleton|].
  pose proof Hs as [Hs' Ha]%StronglySorted_inv. cbn [dedup]. destruct (decide (a = b)) as [->|Hne].
  - apply IH; [done|]. intros c d Hc Hd. by apply Hanti; right.
  - constructor; [|apply IH; [done|]; intros c d Hc Hd; by apply Hanti; right].
    intros Hin. apply (elem_of_dedup (b :: l)) in Hin. apply Hne, Hanti; [by left|by right; left|by apply Forall_cons in Ha as [? _]|].
    apply elem_of_cons in Hin as [->|Hin]; [by destruct Hne|].
    apply StronglySorted_inv in Hs' as [_ Hb]. by eapply Forall_forall in Hin.
Qed.

Lemma data_roots_spec `{Hex} `{!HexLaws} ms :
  Forall wf_cid (omap put_pack ms) →
  NoDup (data_roots ms) ∧ ∀ c, c ∈ data_roots ms ↔ ∃ pg, PutPage pg ∈ ms ∧ pack_cid pg = c.
Proof.
  intros Hwf. unfold data_roots. split.
  - apply (dedup_distinct cid_text_le (sort_cids (omap put_pack ms))).
    { unfold sort_cids. apply StronglySorted_merge_sort; apply _. }
    intros a b Ha Hb Hab Hba. rewrite sort_cids_perm in Ha, Hb. rewrite Forall_forall in Hwf.
    apply Cid_to_string_inj; [by apply Hwf..|]. apply as_bytes_inj. unfold cid_text_le in Hab, Hba.
    rewrite bytes_leb_spec in Hab, Hba. destruct Hab as [Hab|?]; [|done]. destruct Hba as [Hba|?]; [|done].
    destruct (bytes_lt_irrefl (as_bytes (Cid_to_string a))). by eapply bytes_lt_trans.
  - intros c. rewrite elem_of_dedup, sort_cids_perm, list_elem_of_omap. split.
    + intros ([pg|n] & Hin & [= <-]). by exists pg.
    + intros (pg & Hin & <-). by exists (PutPage pg).
Qed.

(** ** The nodes that a transaction writes *)

Section Written.
Context `{Blake3} `{Hex} `{Json PageTableNode} `{!JsonLaws PageTableNode} {S : Type} `{MerkleStore S} `{!MerkleStoreLaws S}.
Context (limits : SqliteFormatLimits) (Hmax : (max_page_count limits ≤ u32_max)%N).
Implicit Types (s : S) (nodes : gmap bytes PageTableNode).

(** Nodes that are kept under the prefix they carry. *)
Definition placed nodes : Prop := ∀ p node, nodes !! p = Some node → node_prefix node = hex_lower p.

Lemma placed_insert nodes p node : placed nodes → node_prefix node = hex_lower p → placed (<[p := node]> nodes).
Proof. intros Hp Hn q node' [[<- <-]|[_ Hq]]%lookup_insert_Some; [done|by apply Hp]. Qed.

Lemma expect_prefix node kind l p : expect_node limits node kind l p = Ok () → node_prefix node = hex_lower p.
Proof.
  intros ([] & _ & Hf%fail_if_Ok)%bind_Ok. rewrite !orb_false_iff, !negb_false_iff, !bool_decide_eq_true in Hf. by destruct Hf as [_ Hf].
Qed.

Lemma entry_placed nodes p load nodes' :
  placed nodes → (∀ node, load = Ok node → node_prefix node = hex_lower p) → entry_or nodes p load = Ok nodes' →
  placed nodes' ∧ dom nodes' = {[p]} ∪ dom nodes.
Proof.
  intros Hp Hload. unfold entry_or. destruct (nodes !! p) as [node|] eqn:Hn.
  - intros <-%Ok_inj. split; [done|]. apply elem_of_dom_2 in Hn. set_solver.
  - intros (node & Hl & <-%Ok_inj)%bind_Ok. split; [by apply placed_insert; auto|by rewrite dom_insert_L].
Qed.

Lemma child_prefix s parent e l p node : load_child_internal limits s parent e l p = Ok node → node_prefix node = hex_lower p.
Proof.
  unfold load_child_internal. destruct (child_at _ _); [|by intros <-%Ok_inj].
  by intros (? & _ & ([] & ?%expect_prefix & <-%Ok_inj)%bind_Ok)%bind_Ok.
Qed.

Lemma leaf_prefix s parent e p node : load_leaf limits s parent e p = Ok node → node_prefix node = hex_lower p.
Proof.
  unfold load_leaf. destruct (child_at _ _); [|by intros <-%Ok_inj].
  by intros (? & _ & ([] & ?%expect_prefix & <-%Ok_inj)%bind_Ok)%bind_Ok.
Qed.

Definition loaded_placed (l : Loaded) : Prop := placed (level_one l) ∧ placed (level_two l) ∧ placed (leaves l).

Lemma load_path_placed s root l mu l' :
  loaded_placed l → load_path limits s root l mu = Ok l' →
  loaded_placed l' ∧ dom (leaves l') = {[take 3 (page_bytes (mutation_number mu))]} ∪ dom (leaves l).
Proof.
  intros (Hp1 & Hp2 & Hp3) (one & Ho & (p1 & _ & (two & Ht & (p2 & _ & (lv & Hl & <-%Ok_inj)%bind_Ok)%bind_Ok)%bind_Ok)%bind_Ok)%bind_Ok.
  apply entry_placed in Ho as [Ho _]; [|done|intros ?; apply child_prefix].
  apply entry_placed in Ht as [Ht _]; [|done|intros ?; apply child_prefix].
  apply entry_placed in Hl as [Hl Hd]; [|done|intros ?; apply leaf_prefix]. done.
Qed.

Definition leaf_prefixes (ms : list PageMutation) : gset bytes := list_to_set ((λ mu, take 3 (page_bytes (mutation_number mu))) <$> ms).

Lemma load_paths_placed s root ms : ∀ l l',
  loaded_placed l → try_foldl (load_path limits s root) l ms = Ok l' →
  loaded_placed l' ∧ dom (leaves l') = leaf_prefixes ms ∪ dom (leaves l).
Proof.
  induction ms as [|mu ms IH]; intros l l' Hl; cbn [try_foldl].
  - intros <-%Ok_inj. split; [done|]. unfold leaf_prefixes. set_solver.
  - intros (l1 & Hl1 & Hl2)%bind_Ok. apply load_path_placed in Hl1 as [Hl1 Hd1]; [|done].
    apply IH in Hl2 as [Hl2 Hd2]; [|done]. split; [done|]. rewrite Hd2, Hd1. unfold leaf_prefixes. rewrite fmap_cons, list_to_set_cons. set_solver.
Qed.

Lemma mutate_leaves_placed ms : ∀ nodes nodes',
  placed nodes → try_foldl mutate_leaf nodes ms = Ok nodes' → placed nodes' ∧ dom nodes' = dom nodes.
Proof.
  induction ms as [|mu ms IH]; intros nodes nodes' Hp; cbn [try_foldl].
  - by intros <-%Ok_inj.
  - intros (n1 & (leaf & Hl%ok_or_Ok & <-%Ok_inj)%bind_Ok & Hn)%bind_Ok.
    apply IH in Hn as [Hp' Hd]; [|apply placed_insert; [done|exact (Hp _ leaf Hl)]]. split; [done|]. rewrite Hd, dom_insert_L. apply elem_of_dom_2 in Hl. set_solver.
Qed.

(** The CIDs are those of stored nodes at these prefixes. *)
Definition wrote s (written : list Cid) (prefixes : list bytes) : Prop :=
  Forall2 (λ cid p, ∃ node, get_node limits s cid = Ok node ∧ node_prefix node = hex_lower p) written prefixes.

Lemma wrote_kept s s' written prefixes : kept s s' → wrote s written prefixes → wrote s' written prefixes.
Proof. intros Hk Hw. eapply Forall2_impl; [exact Hw|]. intros cid p (node & Hg & Hp). exists node. split; [by eapply get_node_kept|done]. Qed.

Lemma wrote_snoc s written prefixes cid p node :
  wrote s written prefixes → get_node limits s cid = Ok node → node_prefix node = hex_lower p →
  wrote s (written ++ [cid]) (prefixes ++ [p]).
Proof. intros Hw Hg Hp. apply Forall2_app; [done|]. repeat constructor. by exists node. Qed.

(** Blocks at different prefixes are different. *)
Lemma wrote_distinct s written prefixes : wrote s written prefixes → NoDup prefixes → NoDup written.
Proof.
  unfold wrote. induction 1 as [|cid p written prefixes (node & Hg & Hp) Hw IH]; [constructor|].
  intros [Hout Hn]%NoDup_cons. constructor; [|by apply IH]. intros Hin. apply Hout.
  apply list_elem_of_lookup in Hin as [i Hi]. destruct (Forall2_lookup_l _ _ _ _ _ Hw Hi) as (q & Hq & node' & Hg' & Hp').
  assert (node' = node) as -> by congruence. rewrite Hp in Hp'. apply hex_lower_inj in Hp' as ->. by eapply list_elem_of_lookup_2.
Qed.

Lemma put_node_Ok s node cid s' :
  put_node limits node s = (Ok cid, s') → get_node limits s' cid = Ok node ∧ kept s s'.
Proof.
  intros Hput. destruct (PageTableNode_validate node limits) as [[]|e] eqn:Hv.
  - destruct (put_node_yields limits Hmax s node Hv) as (r & s1 & Hr & Hk & HQ). rewrite Hput in Hr.
    apply pair_eq in Hr as [<- <-]. done.
  - unfold put_node, mbind, stm_bind, lift in Hput. rewrite Hv in Hput. done.
Qed.

Lemma write_level_wrote empty (nodes : list (bytes * PageTableNode)) : ∀ parents written prefixes s parents' written' s',
  (∀ p node, (p, node) ∈ nodes → node_prefix node = hex_lower p) → placed parents → wrote s written prefixes →
  write_level limits empty nodes parents written s = (Ok (parents', written'), s') →
  placed parents' ∧ dom parents' = dom parents ∧ kept s s'
  ∧ ∃ added, sublist added nodes.*1 ∧ wrote s' written' (prefixes ++ added).
Proof.
  induction nodes as [|[p node] nodes IH]; intros parents written prefixes s parents' written' s' Hn Hp Hw; cbn [write_level].
  { intros [[= <- <-] <-]%pair_eq. split_and!; [done..|]. exists []. rewrite app_nil_r. done. }
  intros (parent & s1 & [Hpar%ok_or_Ok <-]%pair_eq & ([cid w1] & s2 & Hput & (e & s3 & [_ <-]%pair_eq & Hrest)%stm_bind_Ok)%stm_bind_Ok)%stm_bind_Ok.
  assert (kept s s2 ∧ ∃ new, sublist new [p] ∧ wrote s2 w1 (prefixes ++ new)) as (Hk & new & Hnew & Hw1).
  { unfold put_unless in Hput. destruct (empty node).
    - apply pair_eq in Hput as [[= <- <-] <-]. split; [done|]. exists []. rewrite app_nil_r. split; [repeat constructor|done].
    - apply stm_bind_Ok in Hput as (c & s4 & [Hg Hk]%put_node_Ok & [[= <- <-] <-]%pair_eq). split; [done|].
      exists [p]. split; [done|]. eapply wrote_snoc; [by eapply wrote_kept|done|]. apply Hn. by left. }
  apply (IH _ _ (prefixes ++ new)) in Hrest as (Hp' & Hd & Hk' & added & Hadd & Hw').
  - split_and!; [done| |by etrans|].
    + rewrite Hd, dom_insert_L. apply elem_of_dom_2 in Hpar. set_solver.
    + exists (new ++ added). rewrite (assoc_L (++)). split; [|done]. apply (sublist_app new [p]); done.
  - intros q n Hq. apply Hn. by right.
  - apply placed_insert; [done|exact (Hp _ _ Hpar)].
  - done.
Qed.

Lemma nodes_at_Ok nodes keys l :
  nodes_at nodes keys = Ok l → (∀ p node, (p, node) ∈ l → nodes !! p = Some node) ∧ l.*1 = in_order keys.
Proof.
  unfold nodes_at. assert (∀ ks acc l, (∀ p node, (p, node) ∈ acc → nodes !! p = Some node) →
    try_foldl (λ acc p, node ← ok_or (nodes !! p) SqlitePanicked; Ok (acc ++ [(p, node)])) acc ks = Ok l →
    (∀ p node, (p, node) ∈ l → nodes !! p = Some node) ∧ l.*1 = acc.*1 ++ ks) as Hgen.
  { clear. induction ks as [|p ks IH]; intros acc l Hacc; cbn [try_foldl].
    - intros <-%Ok_inj. by rewrite app_nil_r.
    - intros (acc' & (node & Hn%ok_or_Ok & <-%Ok_inj)%bind_Ok & Hl)%bind_Ok. apply IH in Hl as [Hl ->].
      + split; [done|]. by rewrite fmap_app, <-(assoc_L (++)).
      + intros q n [Hq|Hq]%elem_of_app; [by apply Hacc|]. by apply list_elem_of_singleton in Hq as [= -> ->]. }
  apply Hgen. by intros p node ?%elem_of_nil.
Qed.

Lemma in_order_spec (keys : gset bytes) : NoDup (in_order keys) ∧ length (in_order keys) = size keys ∧ ∀ p, p ∈ in_order keys ↔ p ∈ keys.
Proof.
  unfold in_order. assert (merge_sort prefix_le (elements keys) ≡ₚ elements keys) as Hp by apply merge_sort_Permutation.
  rewrite Hp. split; [apply NoDup_elements|]. split; [done|]. intros p. by rewrite Hp, elem_of_elements.
Qed.

Lemma size_parents (keys : gset bytes) : size (parents_of keys) ≤ size keys.
Proof. unfold parents_of, set_map. etrans; [apply size_listed|]. by rewrite length_fmap. Qed.

(** One level: the blocks it adds are nodes at some of its prefixes. *)
Lemma level_wrote (empty : PageTableNode → bool) (nodes parents : gmap bytes PageTableNode) (keys : gset bytes) (written : list Cid) (prefixes : list bytes) s (l : list (bytes * PageTableNode)) parents' written' s' :
  placed nodes → placed parents → wrote s written prefixes → nodes_at nodes keys = Ok l →
  write_level limits empty l parents written s = (Ok (parents', written'), s') →
  placed parents' ∧ kept s s' ∧ ∃ added, NoDup added ∧ length added ≤ size keys ∧ (∀ p, p ∈ added → p ∈ keys)
    ∧ wrote s' written' (prefixes ++ added).
Proof.
  intros Hn Hp Hw [Hl Hkeys]%nodes_at_Ok Hlev. destruct (in_order_spec keys) as (Hd & Hlen & Hin).
  apply (write_level_wrote _ _ _ _ prefixes) in Hlev as (Hp' & _ & Hk & added & Hsub & Hw'); [|by eauto|done|done].
  rewrite Hkeys in Hsub. split_and!; [done|done|]. exists added. split_and!; [by eapply sublist_NoDup| | |done].
  - rewrite <-Hlen. by apply sublist_length.
  - intros p Hpa. apply Hin. by eapply elem_of_sublist.
Qed.

Lemma parents_length (k : nat) (keys : gset bytes) (p : bytes) :
  (∀ q, q ∈ keys → length q = Datatypes.S k) → p ∈ parents_of keys → length p = k.
Proof. intros Hk (q & -> & Hq)%elem_of_parents. rewrite length_take, (Hk q Hq). lia. Qed.

Lemma write_back_wrote (root_node : PageTableNode) (l : Loaded) (lv : gmap bytes PageTableNode) s u s' :
  node_prefix root_node = hex_lower [] → loaded_placed l → placed lv → (∀ p, p ∈ dom lv → length p = 3) →
  write_back limits root_node l lv s = (Ok u, s') →
  ∃ prefixes, wrote s' (written_nodes u) prefixes ∧ NoDup prefixes ∧ length prefixes ≤ 1 + 3 * size (dom lv)
    ∧ new_root u ∈ written_nodes u.
Proof.
  intros Hroot (Hp1 & Hp2 & _) Hlv Hlen.
  intros (n3 & ? & [Hn3 <-]%pair_eq & ([two w2] & s2 & Hl2 & (n2 & ? & [Hn2 <-]%pair_eq & ([one w1] & s1 & Hl1 &
    (n1 & ? & [Hn1 <-]%pair_eq & ([top w0] & s0 & Hl0 & (node & ? & [Hnode%ok_or_Ok <-]%pair_eq & (cid & s4 & Hput &
    [<-%Ok_inj <-]%pair_eq)%stm_bind_Ok)%stm_bind_Ok)%stm_bind_Ok)%stm_bind_Ok)%stm_bind_Ok)%stm_bind_Ok)%stm_bind_Ok)%stm_bind_Ok.
  eapply (level_wrote _ _ _ _ _ []) in Hl2 as (Hpl2 & Hk2 & a3 & Hd3 & Hs3 & Hi3 & Hw2); [|done|done|constructor|done].
  eapply level_wrote in Hl1 as (Hpl1 & Hk1 & a2 & Hd2 & Hs2 & Hi2 & Hw1); [|done|done|done|done].
  eapply level_wrote in Hl0 as (Hpl0 & Hk0 & a1 & Hd1 & Hs1 & Hi1 & Hw0); [|done| |done|done].
  2:{ by intros p nd [<- <-]%lookup_singleton_Some. }
  apply put_node_Ok in Hput as [Hg Hk4].
  exists ((([] ++ a3) ++ a2) ++ a1 ++ [[]]). rewrite (assoc_L (++)). cbn [written_nodes new_root].
  assert (∀ p, p ∈ a3 → length p = 3) as L3 by auto.
  assert (∀ p, p ∈ a2 → length p = 2) as L2 by (intros p Hp; by eapply parents_length; [apply Hlen|apply Hi2]).
  assert (∀ p, p ∈ a1 → length p = 1) as L1.
  { intros p Hp. eapply (parents_length 1); [|by apply Hi1]. intros q Hq. by eapply parents_length. }
  split_and!.
  - eapply wrote_snoc; [by eapply wrote_kept|done|]. by apply (Hpl0 []).
  - cbn [app]. rewrite !NoDup_app. split_and!; [done| |done| |done| |apply NoDup_singleton].
    all: intros p Hp; rewrite ?elem_of_app, ?list_elem_of_singleton in *.
    + intros Hp2'. specialize (L3 p Hp). specialize (L2 p Hp2'). lia.
    + intros Hp1'. destruct Hp as [Hp|Hp]; [specialize (L3 p Hp)|specialize (L2 p Hp)]; specialize (L1 p Hp1'); lia.
    + intros ->. destruct Hp as [[Hp|Hp]|Hp]; [specialize (L3 _ Hp)|specialize (L2 _ Hp)|specialize (L1 _ Hp)]; done.
  - cbn [app]. rewrite !length_app. cbn [length].
    pose proof (size_parents (dom lv)). pose proof (size_parents (parents_of (dom lv))). lia.
  - apply elem_of_app. right. by left.
Qed.

(** ** The written nodes are enough

    [base] is the store before the transaction.  Every child of a node that the
    transaction holds or writes is a block of the old table or a written one. *)

Definition old (base : S) (before : gmap N PageReference) (cid : Cid) : Prop :=
  ∃ h p child, restrict p before ≠ ∅ ∧ get_node limits base cid = Ok child ∧ denotes limits h p base child (restrict p before).

Definition linked (base : S) (before : gmap N PageReference) (written : list Cid) (node : PageTableNode) : Prop :=
  Forall (λ c, child_node c ∈ written ∨ old base before (child_node c)) (children node).

Definition all_linked (base : S) (before : gmap N PageReference) s (written : list Cid) : Prop :=
  ∀ cid, cid ∈ written → ∃ node, get_node limits s cid = Ok node ∧ linked base before written node.

Lemma linked_mono (base : S) before (w w' : list Cid) node : (∀ c, c ∈ w → c ∈ w') → linked base before w node → linked base before w' node.
Proof. intros Hsub Hl. eapply Forall_impl; [exact Hl|]. intros c [Hc|Hc]; [left; by apply Hsub|by right]. Qed.

Lemma denotes_linked h p base before node : denotes limits h p base node (restrict p before) → linked base before [] node.
Proof.
  intros Hd. pose proof (denotes_depth limits Hmax _ _ _ _ _ Hd) as Hl. destruct h as [|h]; destruct Hd as [_ Hd].
  - destruct Hd as (ps & -> & _). constructor.
  - destruct Hd as (cs & -> & _ & Hok & Hc). apply Forall_forall. intros [e cid] Hin. right. specialize (Hc e).
    cbn [child_node]. apply (child_at_Some cs e cid (internal_sorted _ _ Hok)) in Hin. rewrite Hin, restrict_restrict in Hc by lia.
    destruct Hc as (Hne & child & Hg & Hd). by exists h, (p ++ [e]), child.
Qed.

Lemma set_child_Forall (P : PageTableChild → Prop) cs e cid :
  Forall P cs → (∀ k, cid = Some k → P (mkTableChild e k)) → Forall P (set_child cs e cid).
Proof.
  intros Hcs Hk. unfold set_child. destruct (search_by _ _ _) as [i|i], cid as [k|].
  - apply Forall_insert; auto.
  - by apply Forall_delete.
  - apply Forall_app. split; [by apply Forall_take|]. constructor; [by apply Hk|by apply Forall_drop].
  - done.
Qed.

Lemma write_level_linked (base : S) (before : gmap N PageReference) (empty : PageTableNode → bool) (nodes : list (bytes * PageTableNode)) :
  ∀ (parents : gmap bytes PageTableNode) written s parents' written' s',
  (∀ p node, (p, node) ∈ nodes → linked base before written node) → (∀ p node, parents !! p = Some node → linked base before written node) →
  all_linked base before s written → write_level limits empty nodes parents written s = (Ok (parents', written'), s') →
  (∀ c, c ∈ written → c ∈ written') ∧ (∀ p node, parents' !! p = Some node → linked base before written' node) ∧ all_linked base before s' written'.
Proof.
  induction nodes as [|[p node] nodes IH]; intros parents written s parents' written' s' Hn Hp Ha; cbn [write_level].
  { by intros [[= <- <-] <-]%pair_eq. }
  intros (parent & s1 & [Hpar%ok_or_Ok <-]%pair_eq & ([cid w1] & s2 & Hput & (e & s3 & [_ <-]%pair_eq & Hrest)%stm_bind_Ok)%stm_bind_Ok)%stm_bind_Ok.
  assert ((∀ c, c ∈ written → c ∈ w1) ∧ (∀ k, cid = Some k → k ∈ w1) ∧ all_linked base before s2 w1) as (Hsub & Hcid & Ha1).
  { unfold put_unless in Hput. destruct (empty node); [by apply pair_eq in Hput as [[= <- <-] <-]|].
    apply stm_bind_Ok in Hput as (c & s4 & [Hg Hk]%put_node_Ok & [[= <- <-] <-]%pair_eq).
    assert (∀ d, d ∈ written → d ∈ written ++ [c]) as Hs by (intros d Hd; apply elem_of_app; by left).
    split_and!; [done|intros k [= <-]; apply elem_of_app; right; by left|].
    intros d [Hd| ->%list_elem_of_singleton]%elem_of_app.
    - destruct (Ha d Hd) as (nd & Hgd & Hl). exists nd. split; [by eapply get_node_kept|by eapply linked_mono].
    - exists node. split; [done|]. eapply linked_mono; [done|]. apply (Hn p). by left. }
  apply IH in Hrest as (Hsub' & Hp' & Ha').
  - split_and!; auto.
  - intros q nd Hq. eapply linked_mono; [done|]. apply (Hn q). by right.
  - intros q nd [[<- <-]|[_ Hq]]%lookup_insert_Some; [|by eapply linked_mono, Hp].
    apply set_child_Forall; [eapply (linked_mono base before written w1 parent); [done|by eapply Hp]|]. intros k Hk. left. by apply Hcid.
  - done.
Qed.

Lemma write_back_linked (base : S) (before : gmap N PageReference) (root_node : PageTableNode) (l : Loaded) (lv : gmap bytes PageTableNode) s u s' :
  linked base before [] root_node →
  (∀ p node, level_one l !! p = Some node ∨ level_two l !! p = Some node ∨ lv !! p = Some node → linked base before [] node) →
  write_back limits root_node l lv s = (Ok u, s') → all_linked base before s' (written_nodes u).
Proof.
  intros Hroot Hl.
  intros (n3 & ? & [[Hn3 _]%nodes_at_Ok <-]%pair_eq & ([two w2] & s2 & Hl2 & (n2 & ? & [[Hn2 _]%nodes_at_Ok <-]%pair_eq & ([one w1] & s1 & Hl1 &
    (n1 & ? & [[Hn1 _]%nodes_at_Ok <-]%pair_eq & ([top w0] & s0 & Hl0 & (node & ? & [Hnode%ok_or_Ok <-]%pair_eq & (cid & s4 & Hput &
    [<-%Ok_inj <-]%pair_eq)%stm_bind_Ok)%stm_bind_Ok)%stm_bind_Ok)%stm_bind_Ok)%stm_bind_Ok)%stm_bind_Ok)%stm_bind_Ok)%stm_bind_Ok.
  eapply (write_level_linked base before) in Hl2 as (Hs2 & Hp2 & Ha2); [|by eauto 6|by eauto 6|by intros c ?%elem_of_nil].
  assert (∀ p nd, level_one l !! p = Some nd → linked base before w2 nd) as Hone by (intros; eapply linked_mono; [done|eauto]).
  eapply (write_level_linked base before) in Hl1 as (Hs1 & Hp1 & Ha1); [|by eauto|by eauto|done].
  eapply (write_level_linked base before) in Hl0 as (Hs0 & Hp0 & Ha0); [|by eauto| |done].
  2:{ intros p nd [<- <-]%lookup_singleton_Some. eapply linked_mono; [|exact Hroot]. by intros c ?%elem_of_nil. }
  apply put_node_Ok in Hput as [Hg Hk]. cbn [written_nodes].
  assert (∀ d, d ∈ w0 → d ∈ w0 ++ [cid]) as Hs by (intros d Hd; apply elem_of_app; by left).
  intros d [Hd| ->%list_elem_of_singleton]%elem_of_app.
  - destruct (Ha0 d Hd) as (nd & Hgd & Hld). exists nd. split; [by eapply get_node_kept|by eapply linked_mono].
  - exists node. split; [done|]. by eapply linked_mono, Hp0.
Qed.

(** A store with the old blocks and the written ones has the new table. *)
Lemma linked_denotes (base : S) (before : gmap N PageReference) s s' (written : list Cid) h : ∀ p node m,
  kept base s → kept base s' → all_linked base before s written →
  (∀ c b, c ∈ written → store_get s c = Ok b → store_get s' c = Ok b) →
  linked base before written node → denotes limits h p s node m → denotes limits h p s' node m.
Proof.
  induction h as [|h IH]; intros p node m Hk Hk' Ha Hw Hl [Hp Hd]; (split; [done|]); [done|].
  destruct Hd as (cs & -> & Hlen & Hok & Hc). exists cs. split_and!; [done..|]. intros e. specialize (Hc e).
  destruct (child_at cs e) as [cid|] eqn:Hat; [|done]. destruct Hc as (Hne & child & Hg & Hd). split; [done|].
  exists child. apply (child_at_Some cs e cid (internal_sorted _ _ Hok)) in Hat.
  eapply Forall_forall in Hl; [|exact Hat]. cbn [child_node] in Hl. destruct Hl as [Hin|(h0 & p0 & child0 & _ & Hg0 & Hd0)].
  - destruct (Ha cid Hin) as (nd & Hgn & Hln). rewrite Hg in Hgn. apply Ok_inj in Hgn as <-.
    split; [|by apply IH]. destruct (get_node_inv limits s cid child Hg) as (b & Hb & _).
    unfold get_node in Hg |- *. by rewrite (Hw cid b Hin Hb), Hb in *.
  - pose proof (get_node_kept limits _ _ _ _ Hk Hg0) as Hg1. rewrite Hg in Hg1. apply Ok_inj in Hg1 as <-.
    split; [by eapply get_node_kept|]. pose proof (denotes_kept limits _ _ _ _ _ _ Hk Hd0) as Hd1.
    assert (p0 = p ++ [e]) as -> by (by eapply denotes_where).
    pose proof (denotes_depth limits Hmax _ _ _ _ _ Hd1). pose proof (denotes_depth limits Hmax _ _ _ _ _ Hd). assert (h0 = h) as -> by lia.
    rewrite (denotes_fun limits Hmax _ _ _ _ _ _ Hd Hd1). by eapply denotes_kept.
Qed.

Lemma mutate_leaves_linked (base : S) (before : gmap N PageReference) ms nodes nodes' :
  (∀ p node, nodes !! p = Some node → linked base before [] node) → try_foldl mutate_leaf nodes ms = Ok nodes' →
  ∀ p node, nodes' !! p = Some node → linked base before [] node.
Proof.
  intros Hn. apply (try_foldl_inv (λ nodes : gmap bytes PageTableNode, ∀ p node, nodes !! p = Some node → linked base before [] node)); [|done].
  intros acc mu acc' _ Hacc (leaf & Hl%ok_or_Ok & <-%Ok_inj)%bind_Ok p node [[<- <-]|[_ Hp]]%lookup_insert_Some; [|by eapply Hacc].
  exact (Hacc _ _ Hl).
Qed.

Lemma changed_normal ms norm : normal_for ms norm → size norm = size (changed_pages ms).
Proof.
  intros Hn. rewrite <-size_dom. f_equal. apply set_eq. intros n. unfold changed_pages.
  rewrite elem_of_dom, elem_of_list_to_set, list_elem_of_fmap, Hn. split.
  - intros [mu Hl]. apply last_Some_elem_of, list_elem_of_filter in Hl as [Hmu Hin]. by exists mu.
  - intros (mu & -> & Hin). apply last_is_Some. intros Hnil.
    assert (mu ∈ filter (λ mu', mutation_number mu' = mutation_number mu) ms) as Hf by (by apply list_elem_of_filter).
    rewrite Hnil in Hf. by apply elem_of_nil in Hf.
Qed.

Lemma prefixes_count norm : size (leaf_prefixes (by_number norm)) ≤ size norm.
Proof.
  unfold leaf_prefixes. etrans; [apply size_listed|]. unfold by_number. rewrite !length_fmap.
  assert (merge_sort number_le (map_to_list norm) ≡ₚ map_to_list norm) as -> by apply merge_sort_Permutation.
  by rewrite length_map_to_list.
Qed.

Lemma prefixes_length ms p : p ∈ leaf_prefixes ms → length p = 3.
Proof.
  unfold leaf_prefixes. rewrite elem_of_list_to_set. intros (mu & -> & _)%list_elem_of_fmap. by rewrite length_take, length_page_bytes.
Qed.

(** What a transaction that changes something writes. *)
Record writes (base : S) (before : gmap N PageReference) (changed : nat) (u : PageTableUpdate) s : Prop := {
  writes_distinct : NoDup (written_nodes u);
  writes_bound : length (written_nodes u) ≤ 1 + 3 * changed;
  writes_root : new_root u ∈ written_nodes u;
  writes_linked : all_linked base before s (written_nodes u)
}.

Lemma apply_writes s root m page_size ms u s' :
  table limits s root m → apply limits root page_size ms s = (Ok u, s') →
  ms = [] ∧ u = mkTableUpdate root [] ∨ ms ≠ [] ∧ writes s m (size (changed_pages ms)) u s'.
Proof.
  intros (root_node & Hg & Hd) (nd & ? & [Hnd <-]%pair_eq & ([] & ? & [He <-]%pair_eq & (norm & ? & [Hnorm <-]%pair_eq & Hrun)%stm_bind_Ok)%stm_bind_Ok)%stm_bind_Ok.
  cbn beta in Hnd. rewrite Hg in Hnd. apply Ok_inj in Hnd as <-.
  pose proof Hnorm as [Hnf _]%normalize_spec. pose proof (changed_normal ms norm Hnf) as Hsize.
  destruct (bool_decide (norm = ∅)) eqn:Hempty.
  { apply bool_decide_eq_true in Hempty as ->. apply pair_eq in Hrun as [<-%Ok_inj _]. left. split; [|done].
    rewrite map_size_empty in Hsize. destruct ms as [|mu ms]; [done|]. unfold changed_pages in Hsize.
    symmetry in Hsize. apply size_empty_inv in Hsize. set_solver. }
  right. split; [intros ->; apply bool_decide_eq_false in Hempty; apply Hempty, map_eq; intros n; by rewrite Hnf|].
  apply stm_bind_Ok in Hrun as (l & ? & [Hl <-]%pair_eq & (lv & ? & [Hlv <-]%pair_eq & Hw)%stm_bind_Ok).
  assert (loaded_placed (mkLoaded ∅ ∅ ∅)) as Hp0 by (split_and!; intros p node; cbn; by rewrite lookup_empty).
  destruct (load_paths_placed s root_node (by_number norm) (mkLoaded ∅ ∅ ∅) l Hp0 Hl) as [Hpl Hdl].
  destruct (mutate_leaves_placed (by_number norm) (leaves l) lv (proj2 (proj2 Hpl)) Hlv) as [Hplv Hdlv].
  cbn [leaves] in Hdl. rewrite dom_empty_L, union_empty_r_L in Hdl.
  assert (loaded_ok limits s (mkLoaded ∅ ∅ ∅) m []) as Hok0.
  { split; cbn; [intros p node; by rewrite lookup_empty..|intros p; by rewrite dom_empty_L|intros p; by rewrite dom_empty_L|].
    by intros n ?%elem_of_nil. }
  destruct (load_paths_spec limits Hmax s root_node _ m [] (by_number norm) Hd Hok0) as (l' & Hl' & [Hone Htwo Hleaf _ _ _]).
  rewrite Hl in Hl'. apply Ok_inj in Hl' as <-.
  destruct (write_back_wrote root_node l lv s u s') as (ps & Hwr & Hnd & Hlen & Hin); [by eapply expect_prefix|done|done| |done|].
  { intros p. rewrite Hdlv, Hdl. apply prefixes_length. }
  split; [by eapply wrote_distinct| |done|].
  - rewrite (Forall2_length _ _ _ Hwr), Hlen, Hdlv, Hdl. pose proof (prefixes_count norm). lia.
  - eapply write_back_linked; [eapply (denotes_linked 3 []); by rewrite restrict_nil| |done].
    intros p node [Hq|[Hq|Hq]]; [by eapply denotes_linked, Hone|by eapply denotes_linked, Htwo|].
    eapply (mutate_leaves_linked s m); [|exact Hlv|exact Hq]. intros q nd Hqn. by eapply denotes_linked, Hleaf.
Qed.

Lemma pack_codec pg size : PageReference_validate pg size limits = Ok () → codec (pack_cid pg) ≠ CODEC_SQLITE_PAGE_TABLE.
Proof.
  intros Hv%fail_if_Ok Hc. rewrite !orb_false_iff, !negb_false_iff in Hv. destruct Hv as [[[_ Hv] _] _].
  by rewrite Hc in Hv.
Qed.

Context `{!HexLaws}.

Lemma table_frontier_ok s root m page_size ms norm u s' :
  table limits s root m → Forall wf_cid (omap put_pack ms) → (1 + 4 * len ms ≤ u64_max)%N →
  normalize limits page_size ms = Ok norm → apply limits root page_size ms s = (Ok u, s') →
  frontier_ok (table_frontier ms u).
Proof.
  intros Ht Hwf Hfit [_ Hval]%normalize_spec Hrun. destruct (data_roots_spec ms Hwf) as [Hnd Hin].
  assert (size (changed_pages ms) ≤ length ms) as Hchg by (etrans; [apply size_listed|by rewrite length_fmap]).
  unfold len in Hfit. destruct (apply_writes s root m page_size ms u s' Ht Hrun) as [[-> ->]|[Hne [Hd Hb Hr Hl]]].
  { by split; vm_compute; try done; constructor. }
  assert (size (changed_pages ms) ≠ 0) as Hnz.
  { intros Hz%size_empty_inv. destruct ms as [|mu ms]; [done|]. unfold changed_pages in Hz. set_solver. }
  split; cbn [table_frontier changed_keys index_depth new_index_nodes new_data_roots candidate_index_root]; unfold len; try lia; try done.
  unfold frontier_cids. cbn [table_frontier new_index_nodes new_data_roots verified_descendants]. rewrite app_nil_r.
  apply NoDup_app. split_and!; [done| |done]. intros c Hc (pg & Hpg & <-)%Hin.
  destruct (Hl _ Hc) as (node & Hg%get_node_codec & _). rewrite Forall_forall in Hval.
  destruct (Hval _ Hpg) as [_ Hv%pack_codec]. done.
Qed.

(** C18: the page table as a dataset index.  A transaction on a valid table gives an
    update whose frontier the dataset layer never refuses: the new root and the data
    packs are in it, each object once, within the bound.  And the frontier is enough:
    a store that has the old blocks and, of everything the transaction stored, only
    the index nodes of the frontier has the complete new table.  The only failures
    are invalid mutations, before anything is written, and refusals of the store. *)
Theorem adapter_frontier_enough s root m page_size ms :
  table limits s root m → Forall wf_cid (omap put_pack ms) → (1 + 4 * len ms ≤ u64_max)%N →
  match normalize limits page_size ms with
  | Err e => SqliteIndexAdapter_apply page_size limits root ms s = (Err (DatasetStorage (SqliteError_to_string e)), s)
  | Ok _ =>
      ∃ r s', SqliteIndexAdapter_apply page_size limits root ms s = (r, s') ∧ kept s s' ∧
      match r with
      | Err e => ∃ e', denied limits e' ∧ e = DatasetStorage (SqliteError_to_string e')
      | Ok up =>
          let f := update_frontier up in
          frontier_ok f ∧ candidate_index_root f = update_root up
          ∧ (∀ c, c ∈ new_data_roots f ↔ ∃ pg, PutPage pg ∈ ms ∧ pack_cid pg = c)
          ∧ ∀ s'', kept s s'' → (∀ c b, c ∈ new_index_nodes f → store_get s' c = Ok b → store_get s'' c = Ok b) →
              table limits s'' (update_root up) (foldl mutate_page m ms)
      end
  end.
Proof.
  intros Ht Hwf Hfit. destruct (normalize limits page_size ms) as [norm|e] eqn:Hnorm.
  - destruct (table_apply limits Hmax s root m page_size ms norm Ht Hnorm) as (r & s' & Hrun & Hk & HQ).
    unfold SqliteIndexAdapter_apply. rewrite Hrun. destruct r as [u|e]; [|by eexists _, s'; split_and!; [done..|by exists e]].
    pose proof (table_frontier_ok s root m page_size ms norm u s' Ht Hwf Hfit Hnorm Hrun) as Hf.
    rewrite (proj2 (validate_frontier _ _) (conj Hf eq_refl)). cbn [mbind result_bind].
    eexists _, s'. split; [done|]. split; [done|]. split; [done|]. split; [done|]. split; [by apply data_roots_spec|].
    intros s'' Hk'' Hw. cbn [update_root update_frontier new_index_nodes table_frontier] in *.
    destruct (apply_writes s root m page_size ms u s' Ht Hrun) as [[-> ->]|[Hne [_ _ Hr Hl]]]; [by eapply table_kept|].
    destruct HQ as (node & Hg & Hd). destruct (Hl _ Hr) as (node' & Hg' & Hln). rewrite Hg in Hg'. apply Ok_inj in Hg' as <-.
    exists node. split; [|by eapply (linked_denotes s m s')].
    destruct (get_node_inv limits s' _ node Hg) as (b & Hb & _). unfold get_node in Hg |- *. by rewrite (Hw _ b Hr Hb), Hb in *.
  - destruct Ht as (node & Hg & Hd). unfold SqliteIndexAdapter_apply, apply, mbind, stm_bind, reads, lift. rewrite Hg.
    pose proof (denotes_expect limits Hmax _ _ _ _ _ Hd) as He. change (expect_node limits node Internal 0 [] = Ok ()) in He. by rewrite He, Hnorm.
Qed.

End Written.
