(* ===== verification/SqliteInorder.v ===== *)
(** * Page tables in order

    The pages and blocks of a stored table in the order of a walk, and the two walks
    of the crate: validation accepts every dense table, and reports its blocks and
    packs exactly. *)
From stdpp Require Import base gmap sets list strings sorting.
From Stdlib Require Import Strings.Byte.
From S2P Require Import Prelude Types Merkle Dag SqlitePages SqlitePagesFacts SqlitePageTable SqliteValidation SqliteAdapter.

(** A sorted list of pages has the pages of a map. *)
Definition lists (ps : list PageReference) (m : gmap N PageReference) : Prop := pages_sorted ps ∧ ∀ n, m !! n = page_in ps n.

Lemma lists_elem ps (m : gmap N PageReference) pg : lists ps m → pg ∈ ps ↔ m !! page_number pg = Some pg.
Proof. intros [Hs Hm]. rewrite Hm, page_in_Some by done. naive_solver. Qed.

Lemma lists_number ps (m : gmap N PageReference) n pg : lists ps m → m !! n = Some pg → page_number pg = n.
Proof. intros [Hs Hm] Hn. rewrite Hm in Hn. by apply page_in_Some in Hn as [_ ?]. Qed.

Lemma lists_iff ps (m : gmap N PageReference) :
  pages_sorted ps → (∀ n pg, m !! n = Some pg ↔ pg ∈ ps ∧ page_number pg = n) → lists ps m.
Proof. intros Hs Hm. split; [done|]. intros n. apply option_eq. intros pg. by rewrite Hm, page_in_Some. Qed.

(** A sorted list of the pages [k + 1] to [k + count] is dense. *)
Lemma sorted_dense ps : ∀ k count,
  pages_sorted ps → (∀ n, (∃ pg, pg ∈ ps ∧ page_number pg = n) ↔ (k < n ≤ k + count)%N) → dense_from k ps ∧ len ps = count.
Proof.
  induction ps as [|pg ps IH]; intros k count Hs Hn.
  - split; [done|]. destruct (decide (count = 0)%N) as [->|Hc]; [done|]. destruct (proj2 (Hn (k + 1)%N)) as (pg & ?%elem_of_nil & _); [lia|done].
  - inversion Hs as [|? ? Hs' Hlt]; subst. rewrite Forall_forall in Hlt. unfold key_lt in Hlt.
    assert (k < page_number pg ≤ k + count)%N as Hpg by (apply Hn; exists pg; split; [by left|done]).
    assert (page_number pg = k + 1)%N as Heq.
    { destruct (proj2 (Hn (k + 1)%N)) as (q & [->|Hq]%elem_of_cons & Hq'); [lia|done|]. specialize (Hlt q Hq). lia. }
    destruct (IH (k + 1)%N (count - 1)%N Hs') as [Hd Hlen].
    + intros n. split.
      * intros (q & Hq & <-). specialize (Hlt q Hq). assert (k < page_number q ≤ k + count)%N by (apply Hn; exists q; split; [by right|done]). lia.
      * intros Hr. destruct (proj2 (Hn n)) as (q & [->|Hq]%elem_of_cons & <-); [lia|lia|by exists q].
    + split; [done|]. rewrite len_cons. lia.
Qed.

Lemma lists_dense ps (m : gmap N PageReference) count :
  lists ps m → (∀ n, is_Some (m !! n) ↔ (0 < n ≤ count)%N) → dense_from 0 ps ∧ len ps = count.
Proof.
  intros Hl Hdom. apply sorted_dense; [apply Hl|]. intros n. rewrite N.add_0_l, <-Hdom. split.
  - intros (pg & Hin & <-). apply (lists_elem _ _ _ Hl) in Hin. by exists pg.
  - intros [pg Hn]. exists pg. pose proof (lists_number _ _ _ _ Hl Hn) as <-. by rewrite (lists_elem _ _ _ Hl).
Qed.

Section Inorder.
Context `{Blake3} `{Hex} `{Json PageTableNode} `{!JsonLaws PageTableNode} {S : Type} `{MerkleStore S} `{!MerkleStoreLaws S}.
Context (limits : SqliteFormatLimits) (Hmax : (max_page_count limits ≤ u32_max)%N).
Implicit Types (s : S) (cid : Cid) (node : PageTableNode) (p : bytes) (m : gmap N PageReference).

(** The subtree at [cid] holds the pages [ps] in the blocks [cids], both in the
    order of a walk. *)
Fixpoint inorder (h : nat) p s cid (ps : list PageReference) (cids : list Cid) : Prop :=
  ∃ node, get_node limits s cid = Ok node ∧
  match h with
  | O => expect_node limits node Leaf 3 p = Ok () ∧ ps = pages node ∧ cids = [cid]
  | Datatypes.S h =>
      expect_node limits node Internal (2 - N.of_nat h) p = Ok () ∧ ∃ parts : list (list PageReference * list Cid),
        Forall2 (λ c part, inorder h (p ++ [edge c]) s (child_node c) part.1 part.2) (children node) parts ∧
        ps = concat parts.*1 ∧ cids = cid :: concat parts.*2
  end.

(** The children from [c] on hold the pages that have their edges. *)
Lemma children_inorder h p s cs m :
  length p < 4 → edges_sorted cs → (∀ n pg, m !! n = Some pg → page_number pg = n ∧ (n ≤ u32_max)%N) →
  (∀ c, c ∈ cs → ∃ ps cids, inorder h (p ++ [edge c]) s (child_node c) ps cids ∧ lists ps (restrict (p ++ [edge c]) m)) →
  ∃ parts : list (list PageReference * list Cid),
    Forall2 (λ c part, inorder h (p ++ [edge c]) s (child_node c) part.1 part.2) cs parts ∧
    pages_sorted (concat parts.*1) ∧
    ∀ pg, pg ∈ concat parts.*1 ↔ ∃ c, c ∈ cs ∧ has_prefix (p ++ [edge c]) (page_number pg) ∧ m !! page_number pg = Some pg.
Proof.
  intros Hp Hs Hm. induction Hs as [|c cs Hs IH Hlt]; intros Hc.
  { exists []. split; [constructor|]. split; [constructor|]. cbn. intros pg. split; [by intros ?%elem_of_nil|by intros (? & ?%elem_of_nil & _)]. }
  destruct IH as (parts & Hparts & Hsp & Hel); [by intros c' Hc'; apply Hc; right|].
  destruct (Hc c ltac:(by left)) as (ps & cids & Hin & Hl). exists ((ps, cids) :: parts). split; [by constructor|]. cbn.
  assert (∀ pg, pg ∈ ps ↔ has_prefix (p ++ [edge c]) (page_number pg) ∧ m !! page_number pg = Some pg) as Hps.
  { intros pg. rewrite (lists_elem _ _ _ Hl), lookup_restrict. destruct (decide _); naive_solver. }
  split.
  - apply sorted_app. split_and!; [apply Hl|done|]. intros x y [Hx Hmx]%Hps (c' & Hc' & Hy & Hmy)%Hel.
    rewrite Forall_forall in Hlt. destruct (Hm _ _ Hmx), (Hm _ _ Hmy).
    by eapply (edge_order limits Hmax p (edge c) (edge c')); try done; apply (Hlt _ Hc').
  - intros pg. rewrite elem_of_app, Hps, Hel. split.
    + intros [[? ?]|(c' & ? & ? & ?)]; [exists c; split; [by left|done]|exists c'; split; [by right|done]].
    + intros (c' & [->|Hc']%elem_of_cons & ? & ?); [by left|right; by exists c'].
Qed.

Lemma denotes_inorder h p s cid node m :
  get_node limits s cid = Ok node → denotes limits h p s node m → ∃ ps cids, inorder h p s cid ps cids ∧ lists ps m.
Proof.
  revert p cid node m. induction h as [|h IH]; intros p cid node m Hg Hd;
    pose proof (denotes_depth limits Hmax _ _ _ _ _ Hd) as Hl; pose proof (denotes_expect limits Hmax _ _ _ _ _ Hd) as He.
  - exists (pages node), [cid]. split.
    + exists node. split; [done|]. by replace (N.of_nat (length p)) with 3%N in He by lia.
    + destruct Hd as [_ (ps & -> & Hok & Hm)]. split; [apply Hok|done].
  - assert (∀ n pg, m !! n = Some pg → page_number pg = n ∧ (n ≤ u32_max)%N) as Hnum.
    { intros n pg Hn. destruct (denotes_number limits Hmax _ _ _ _ _ _ _ Hd Hn). split; [done|lia]. }
    destruct Hd as [Hp (cs & -> & Hl' & Hok & Hc)].
    destruct (children_inorder h p s cs m) as (parts & Hparts & Hs & Hel); [lia|apply Hok|done| |].
    { intros [e c] Hin. specialize (Hc e). cbn. apply child_at_Some in Hin; [|apply Hok]. rewrite Hin in Hc.
      destruct Hc as (_ & child & Hg' & Hd'). by eapply IH. }
    exists (concat parts.*1), (cid :: concat parts.*2). split.
    + exists (PageTableNode_internal (N.of_nat (length p)) p cs). split; [done|]. split; [|by exists parts].
      replace (2 - N.of_nat h)%N with (N.of_nat (length p)) by lia. exact He.
    + apply lists_iff; [done|]. intros n pg. rewrite Hel. split.
      * intros Hn. destruct (Hnum _ _ Hn) as [<- _]. split; [|done]. destruct (has_prefix_next p (page_number pg)) as [e He']; [by eapply Hp|lia|].
        specialize (Hc e). destruct (child_at cs e) as [c|] eqn:Hat.
        -- apply child_at_Some in Hat; [|apply Hok]. by exists (mkTableChild e c).
        -- apply (f_equal (lookup (page_number pg))) in Hc. by rewrite lookup_restrict, decide_True, Hn, lookup_empty in Hc.
      * by intros [(_ & _ & _ & Hn) <-].
Qed.

Lemma table_inorder s root m : table limits s root m → ∃ ps cids, inorder 3 [] s root ps cids ∧ lists ps m.
Proof. intros (node & Hg & Hd). by eapply denotes_inorder. Qed.

(** ** Validation accepts every dense table *)

(** A block that lies below a prefix, or elsewhere. *)
Definition placed_at s cid (q : bytes) : Prop := ∃ node, get_node limits s cid = Ok node ∧ node_prefix node = hex_lower q.
Definition under s p cid : Prop := ∃ q, placed_at s cid q ∧ p `prefix_of` q.
Definition away s p cid : Prop := ∃ q, placed_at s cid q ∧ ¬ p `prefix_of` q.

Lemma placed_fun s cid q q' : placed_at s cid q → placed_at s cid q' → q = q'.
Proof. intros (node & Hg & Hq) (node' & Hg' & Hq'). apply hex_lower_inj. congruence. Qed.

Lemma under_child s p e cid : under s (p ++ [e]) cid → under s p cid.
Proof. intros (q & Hq & Hp). exists q. split; [done|]. etrans; [|exact Hp]. by apply prefix_app_r. Qed.

Lemma away_child s p e cid : away s p cid → away s (p ++ [e]) cid.
Proof. intros (q & Hq & Hp). exists q. split; [done|]. intros Hpe. apply Hp. etrans; [|exact Hpe]. by apply prefix_app_r. Qed.

Lemma under_away s p e e' cid : e ≠ e' → under s (p ++ [e]) cid → away s (p ++ [e']) cid.
Proof.
  intros Hne (q & Hq & [k ->]). exists ((p ++ [e]) ++ k). split; [done|]. rewrite <-(assoc_L (++)).
  intros [k' Hk]%prefix_app_inv. cbn in Hk. congruence.
Qed.

Lemma not_under_away s p cid : under s p cid → away s p cid → False.
Proof. intros (q & Hq & Hp) (q' & Hq' & Hp'). by rewrite (placed_fun _ _ _ _ Hq Hq') in Hp. Qed.

(** The blocks that a subtree of some height can have. *)
Fixpoint most_nodes (h : nat) : N := match h with O => 1 | Datatypes.S h => 1 + 256 * most_nodes h end.

Definition orderly (w : Walk) : Prop := ∀ q, prior_page w = Some q → (q ≤ walk_pages w)%N.

Lemma check_pages_pass page_size ps : ∀ w,
  dense_from (walk_pages w) ps → (∀ pg, pg ∈ ps → PageReference_validate pg page_size limits = Ok ()) → orderly w →
  (walk_pages w + len ps ≤ u32_max)%N →
  ∃ w', try_foldl (check_page limits page_size true) w ps = Ok w' ∧ orderly w' ∧ visited w' = visited w
    ∧ walk_nodes w' = walk_nodes w ∧ walk_cids w' = walk_cids w.
Proof.
  induction ps as [|pg ps IH]; intros w Hd Hv Ho Hfit; cbn [try_foldl]; [by exists w|].
  destruct Hd as [Hn Hd]. rewrite len_cons in Hfit.
  set (w1 := mkWalk (visited w) (walk_nodes w) (walk_pages w + 1) (Some (page_number pg)) (walk_cids w) ({[pack_cid pg]} ∪ walk_packs w)).
  assert (check_page limits page_size true w pg = Ok w1) as ->.
  { unfold check_page. rewrite (Hv pg) by (by left). cbn [mbind result_bind].
    assert (is_some_and (λ prior, (page_number pg <=? prior)%N) (prior_page w) = false) as ->.
    { destruct (prior_page w) as [q|] eqn:Hq; [|done]. cbn. apply N.leb_gt. specialize (Ho q Hq). lia. }
    cbn [fail_if mbind result_bind]. rewrite saturating_add_exact by lia. rewrite Hn, N.eqb_refl. cbn.
    unfold checked_add. rewrite (proj2 (N.leb_le _ _)) by lia. cbn. unfold w1. by rewrite Hn. }
  cbn [mbind result_bind]. destruct (IH w1) as (w' & Hw & Ho' & Hrest).
  - done.
  - intros q Hq. apply Hv. by right.
  - intros q [= <-]. cbn. lia.
  - cbn. lia.
  - by exists w'.
Qed.

(** What a passed walk has done. *)
Record passed (h : nat) (page_size : N) s p w w' (ps : list PageReference) (cids : list Cid) : Prop := {
  passed_walked : walked limits page_size true w w' ps;
  passed_orderly : orderly w';
  passed_nodes : (walk_nodes w' ≤ walk_nodes w + most_nodes h)%N;
  passed_cids : walk_cids w' = walk_cids w ++ cids;
  passed_visited c : c ∈ visited w' → c ∈ visited w ∨ under s p c
}.

Definition passes (h : nat) (page_size : N) s p cid : Prop := ∀ w ps cids,
  inorder h p s cid ps cids → dense_from (walk_pages w) ps → (∀ pg, pg ∈ ps → PageReference_validate pg page_size limits = Ok ()) →
  orderly w → (walk_pages w + len ps ≤ u32_max)%N → (walk_nodes w + most_nodes h ≤ u64_max)%N →
  (∀ c, c ∈ visited w → away s p c) →
  ∃ w', walk limits s page_size true h p cid w = Ok w' ∧ passed h page_size s p w w' ps cids.

Lemma children_pass h page_size s p cs : ∀ parts w,
  edges_sorted cs → (∀ c, c ∈ cs → passes h page_size s (p ++ [edge c]) (child_node c)) →
  Forall2 (λ c part, inorder h (p ++ [edge c]) s (child_node c) part.1 part.2) cs parts →
  dense_from (walk_pages w) (concat parts.*1) → (∀ pg, pg ∈ concat parts.*1 → PageReference_validate pg page_size limits = Ok ()) →
  orderly w → (walk_pages w + len (concat parts.*1) ≤ u32_max)%N → (walk_nodes w + len cs * most_nodes h ≤ u64_max)%N →
  (∀ c c', c ∈ visited w → c' ∈ cs → away s (p ++ [edge c']) c) →
  ∃ w', try_foldl (λ w c, walk limits s page_size true h (p ++ [edge c]) (child_node c) w) w cs = Ok w' ∧
    walked limits page_size true w w' (concat parts.*1) ∧ orderly w' ∧ (walk_nodes w' ≤ walk_nodes w + len cs * most_nodes h)%N
    ∧ walk_cids w' = walk_cids w ++ concat parts.*2 ∧ ∀ c, c ∈ visited w' → c ∈ visited w ∨ under s p c.
Proof.
  induction cs as [|c cs IH]; intros parts w Hs Hpass Hparts Hd Hv Ho Hfit Hcap Haway.
  { apply Forall2_nil_inv_l in Hparts as ->. exists w. cbn. split_and!; [done|by apply walked_nil|done|lia|by rewrite app_nil_r|]. by left. }
  apply Forall2_cons_inv_l in Hparts as ([ps cids] & parts' & Hin & Hparts & ->). cbn in Hin, Hd, Hv, Hfit |- *.
  apply dense_app in Hd as [Hd1 Hd2]. rewrite len_app in Hfit. rewrite len_cons in Hcap. inversion Hs as [|? ? Hs' Hlt]; subst.
  destruct (Hpass c ltac:(by left) w ps cids Hin Hd1) as (w1 & Hw1 & [Hwk1 Ho1 Hn1 Hc1 Hv1]); try done; try lia.
  { intros pg Hpg. apply Hv, elem_of_app. by left. }
  { intros k Hk. by apply Haway; [|left]. }
  rewrite Hw1. cbn [mbind result_bind]. pose proof (walked_count _ _ _ _ _ _ Hwk1) as Hcount.
  destruct (IH parts' w1) as (w' & Hw' & Hwk & Ho' & Hn' & Hc' & Hv'); try done.
  - intros c' Hc'. apply Hpass. by right.
  - by rewrite Hcount.
  - intros pg Hpg. apply Hv, elem_of_app. by right.
  - lia.
  - lia.
  - intros k c' Hk Hc'. apply Hv1 in Hk as [Hk|Hk]; [apply Haway; [done|by right]|]. eapply under_away; [|exact Hk].
    intros Heq. rewrite Forall_forall in Hlt. specialize (Hlt c' Hc'). unfold key_lt, edge_key in Hlt. rewrite Heq in Hlt. lia.
  - exists w'. split_and!; [done|by eapply walked_app|done|rewrite len_cons; lia|by rewrite Hc', Hc1, <-(assoc_L (++))|].
    intros k [Hk|Hk]%Hv'; [|by right]. apply Hv1 in Hk as [?|?]; [by left|right; by eapply under_child].
Qed.

Lemma walk_passes page_size s h : ∀ p cid, length p + h = 3 → passes h page_size s p cid.
Proof.
  induction h as [|h IH]; intros p cid Hp w ps cids (node & Hg & Hin) Hd Hv Ho Hfit Hcap Haway; unfold most_nodes in Hcap; fold most_nodes in Hcap.
  - destruct Hin as (He & -> & ->).
    assert (placed_at s cid p) as Hat by (exists node; split; [done|by eapply expect_prefix]).
    assert (cid ∉ visited w) as Hnew by (intros Hc; eapply not_under_away; [|by apply Haway]; by exists p).
    cbn [walk]. rewrite bool_decide_eq_false_2 by done. cbn [fail_if mbind result_bind]. unfold checked_add.
    rewrite (proj2 (N.leb_le _ _)) by lia. cbn [ok_or mbind result_bind]. rewrite Hg. cbn [mbind result_bind]. rewrite He. cbn [mbind result_bind].
    edestruct (check_pages_pass page_size (pages node)) as (w' & Hw & Ho' & Hvis & Hn & Hc); [| | | |exists w'; split; [exact Hw|]]; try done.
    split; cbn in *; [by eapply walked_enter, check_pages_walked|done|lia|done|].
    intros c. rewrite Hvis. intros [->%elem_of_singleton|?]%elem_of_union; [right; by exists p|by left].
  - destruct Hin as (He & parts & Hparts & -> & ->).
    assert (placed_at s cid p) as Hat by (exists node; split; [done|by eapply expect_prefix]).
    assert (cid ∉ visited w) as Hnew by (intros Hc; eapply not_under_away; [|by apply Haway]; by exists p).
    pose proof He as He'. replace (2 - N.of_nat h)%N with (N.of_nat (length p)) in He' by lia.
    pose proof (expect_internal limits Hmax p node He') as Hs.
    assert (len (children node) ≤ 256)%N as Hlen.
    { apply (sorted_length edge_key _ 0 256 Hs). intros c _. unfold edge_key. pose proof (Byte.to_N_bounded (edge c)). lia. }
    rewrite walk_step, bool_decide_eq_false_2 by done. cbn [fail_if mbind result_bind]. unfold checked_add.
    rewrite (proj2 (N.leb_le _ _)) by lia. cbn [ok_or mbind result_bind]. rewrite Hg. cbn [mbind result_bind]. rewrite He. cbn [mbind result_bind].
    edestruct (children_pass h page_size s p (children node) parts) as (w' & Hw & Hwk & Ho' & Hn & Hc & Hvis);
      [done| |done| | | | | | |exists w'; split; [exact Hw|]]; cbn; try done.
    + intros c _. apply IH. rewrite length_app. cbn. lia.
    + nia.
    + intros c c' [->%elem_of_singleton|Hc]%elem_of_union Hc'; [|by apply away_child, Haway].
      exists p. split; [done|]. intros Hpre%prefix_length. rewrite length_app in Hpre. cbn in Hpre. lia.
    + cbn in *. split; [by eapply walked_enter|done| |by rewrite Hc, <-(assoc_L (++))|].
      * unfold most_nodes; fold most_nodes. nia.
      * intros c [[->%elem_of_singleton|?]%elem_of_union|?]%Hvis; [right; by exists p|by left|by right].
Qed.

(** The pages of a map are those up to a count, each fit for the page size. *)
Record dense (page_size count : N) m : Prop := {
  dense_dom n : is_Some (m !! n) ↔ (0 < n ≤ count)%N;
  dense_valid n pg : m !! n = Some pg → PageReference_validate pg page_size limits = Ok ()
}.

(** A dense table is accepted, and the report lists its blocks in order and its
    packs. *)
Lemma validate_passes s root m page_size count :
  table limits s root m → dense page_size count m → check_page_size limits page_size = Ok () → (count ≤ max_page_count limits)%N →
  ∃ v ps cids, validate_complete limits s root page_size count true = Ok v ∧ inorder 3 [] s root ps cids ∧ lists ps m ∧
    node_cids v = cids ∧ ∀ c, c ∈ page_pack_roots v ↔ ∃ n pg, m !! n = Some pg ∧ pack_cid pg = c.
Proof.
  intros Ht [Hdom Hval] Hsize Hcount. destruct (table_inorder _ _ _ Ht) as (ps & cids & Hin & Hl).
  destruct (lists_dense _ _ _ Hl Hdom) as [Hd Hlen].
  destruct (walk_passes page_size s 3 [] root eq_refl (mkWalk ∅ 0 0 None [] ∅) ps cids) as (w & Hw & [[Hc _ _ Hpacks] _ _ Hcids _]); cbn; try done.
  { intros pg Hpg. apply (lists_elem _ _ _ Hl) in Hpg. by eapply Hval. }
  { rewrite Hlen. lia. }
  cbn in Hc, Hcids. exists (mkTableValidation (walk_nodes w) (walk_pages w) (walk_cids w) (sort_cids (elements (walk_packs w)))), ps, cids.
  split; [|split_and!; [done|done|done|]].
  - unfold validate_complete, normalize. rewrite Hsize. cbn [mbind result_bind try_foldl]. unfold fail_if.
    rewrite (proj2 (N.ltb_ge _ _)) by done. rewrite Hw. cbn [mbind result_bind]. by rewrite Hc, Hlen, N.eqb_refl.
  - intros c. cbn [page_pack_roots]. rewrite sort_cids_perm, elem_of_elements, Hpacks. cbn.
    rewrite (right_id_L ∅ (∪)), elem_of_list_to_set, list_elem_of_fmap. split.
    + intros (pg & -> & Hpg%(lists_elem _ _ _ Hl)). eauto.
    + intros (n & pg & Hn & <-). exists pg. split; [done|]. apply (lists_elem _ _ _ Hl).
      by rewrite (lists_number _ _ _ _ Hl Hn).
Qed.

Lemma inorder_fun h : ∀ p s cid ps cids ps' cids', inorder h p s cid ps cids → inorder h p s cid ps' cids' → ps = ps' ∧ cids = cids'.
Proof.
  induction h as [|h IH]; intros p s cid ps cids ps' cids' (node & Hg & Hin) (node' & Hg' & Hin'); rewrite Hg in Hg'; apply Ok_inj in Hg' as <-.
  - destruct Hin as (_ & -> & ->), Hin' as (_ & -> & ->). done.
  - destruct Hin as (_ & parts & Hp & -> & ->), Hin' as (_ & parts' & Hp' & -> & ->). assert (parts = parts') as ->; [|done].
    revert parts' Hp'. induction Hp as [|c [ps cids] cs parts Hc _ IHp]; intros parts' Hp'; [by inversion Hp'|].
    apply Forall2_cons_inv_l in Hp' as ([ps' cids'] & parts'' & Hc' & Hp' & ->). destruct (IH _ _ _ _ _ _ _ Hc Hc') as [Hps Hcids].
    cbn in Hps, Hcids. by rewrite Hps, Hcids, (IHp _ Hp').
Qed.

(** A larger store has the same tables. *)
Lemma inorder_kept h : ∀ p s s' cid ps cids, kept s s' → inorder h p s cid ps cids → inorder h p s' cid ps cids.
Proof.
  induction h as [|h IH]; intros p s s' cid ps cids Hk (node & Hg & Hin); exists node; (split; [by eapply get_node_kept|done || idtac]).
  destruct Hin as (He & parts & Hp & -> & ->). split; [done|]. exists parts. split; [|done]. eapply Forall2_impl; [exact Hp|].
  intros c part Hc. by eapply IH.
Qed.

End Inorder.
