(* ===== verification/SqliteFrontier.v ===== *)
(** * The blocks a change of a table writes

    Every block of the new table was written by the change or is a block of the old
    table, for truncations as for transactions. *)
From stdpp Require Import base gmap sets list strings sorting.
From Stdlib Require Import Strings.Byte.
From S2P Require Import Prelude Types Merkle Dag SqlitePages SqlitePagesFacts SqlitePageTable SqliteValidation SqliteAdapter SqliteInorder.

Section Frontier.
Context `{Blake3} `{Hex} `{Json PageTableNode} `{!JsonLaws PageTableNode} {S : Type} `{MerkleStore S} `{!MerkleStoreLaws S}.
Context (limits : SqliteFormatLimits) (Hmax : (max_page_count limits ≤ u32_max)%N).
Implicit Types (s base : S) (cid : Cid) (node : PageTableNode) (p : bytes) (m before : gmap N PageReference).

(** Blocks below a written or old block are written or old. *)
Lemma linked_inorder base before s (written : list Cid) h : ∀ p cid ps cids,
  kept base s → all_linked limits base before s written → inorder limits h p s cid ps cids →
  cid ∈ written ∨ old limits base before cid → ∀ c, c ∈ cids → c ∈ written ∨ old limits base before c.
Proof.
  induction h as [|h IH]; intros p cid ps cids Hk Ha (node & Hg & Hin) Hcid c Hc.
  { destruct Hin as (_ & _ & ->). by apply list_elem_of_singleton in Hc as ->. }
  destruct Hin as (_ & parts & Hparts & _ & ->). apply elem_of_cons in Hc as [->|Hc]; [done|].
  assert (linked limits base before written node) as Hl.
  { destruct Hcid as [Hw|(h' & p' & child & _ & Hg' & Hd)].
    - destruct (Ha _ Hw) as (node' & Hg' & Hl). rewrite Hg in Hg'. by apply Ok_inj in Hg' as <-.
    - apply (get_node_kept limits _ _ _ _ Hk) in Hg'. rewrite Hg in Hg'. apply Ok_inj in Hg' as <-.
      eapply linked_mono; [|by eapply (denotes_linked limits Hmax)]. by intros k ?%elem_of_nil. }
  clear Hg Hcid. revert Hl Hc. unfold linked. induction Hparts as [|ch part cs parts Hch _ IHp]; intros Hl Hc; [by apply elem_of_nil in Hc|].
  apply Forall_cons in Hl as [Hl1 Hl]. cbn in Hc. apply elem_of_app in Hc as [Hc|Hc]; [by eapply IH|by apply IHp].
Qed.

Lemma restrict_denotes h p s node m : denotes limits h p s node m → restrict p m = m.
Proof.
  intros Hd. apply map_eq. intros n. rewrite lookup_restrict. destruct (m !! n) as [pg|] eqn:Hn; [|by destruct (decide _)].
  rewrite decide_True; [done|]. by eapply denotes_prefix.
Qed.

(** The subtree of a prefix that has pages. *)
Lemma inorder_at h : ∀ p s cid node m q,
  get_node limits s cid = Ok node → denotes limits h p s node m → p `prefix_of` q → length q ≤ 3 → restrict q m ≠ ∅ →
  ∃ h' c child ps cids, get_node limits s c = Ok child ∧ denotes limits h' q s child (restrict q m) ∧ h' + length q = 3
    ∧ inorder limits h p s cid ps cids ∧ c ∈ cids.
Proof.
  induction h as [|h IH]; intros p s cid node m q Hg Hd [k Hq] Hlen Hne; pose proof (denotes_depth limits Hmax _ _ _ _ _ Hd) as Hl.
  - assert (k = []) as ->. { destruct k; [done|]. subst q. rewrite length_app in Hlen. cbn in Hlen. lia. }
    rewrite app_nil_r in Hq. subst q. pose proof (restrict_denotes _ _ _ _ _ Hd) as Hr.
    destruct (denotes_inorder limits Hmax _ _ _ _ _ _ Hg Hd) as (ps & cids & Hin & _). exists 0, cid, node, ps, cids.
    rewrite Hr. split_and!; [done|done|lia|done|]. destruct Hin as (node' & _ & _ & _ & ->). by left.
  - destruct (denotes_inorder limits Hmax _ _ _ _ _ _ Hg Hd) as (ps & cids & Hin & _). destruct k as [|e k].
    + rewrite app_nil_r in Hq. subst q. pose proof (restrict_denotes _ _ _ _ _ Hd) as Hr.
      exists (Datatypes.S h), cid, node, ps, cids. rewrite Hr. split_and!; [done|done|lia|done|].
      destruct Hin as (node' & _ & _ & parts & _ & _ & ->). by left.
    + destruct Hd as [Hp (cs & -> & Hl' & Hok & Hc)]. specialize (Hc e).
      assert (restrict q (restrict (p ++ [e]) m) = restrict q m) as Hrr.
      { apply map_eq. intros n. rewrite !lookup_restrict. destruct (decide (has_prefix q n)) as [Hn|]; [|done].
        rewrite decide_True; [done|]. subst q. apply (has_prefix_up _ (length (p ++ [e]))) in Hn.
        rewrite (cons_middle e p k), (assoc_L (++)), take_app_length in Hn. done. }
      destruct (child_at cs e) as [c0|] eqn:Hat.
      2:{ rewrite Hc in Hrr. destruct Hne. rewrite <-Hrr. apply map_eq. intros n. rewrite lookup_restrict, lookup_empty. by destruct (decide _). }
      destruct Hc as (_ & child0 & Hg0 & Hd0).
      destruct (IH (p ++ [e]) s c0 child0 _ q Hg0 Hd0) as (h' & c & child & ps0 & cids0 & Hgc & Hdc & Hh & Hin0 & Hc0); [| done | by rewrite Hrr |].
      { exists k. by rewrite <-(assoc_L (++)). }
      exists h', c, child, ps, cids. rewrite Hrr in Hdc. split_and!; [done..|].
      destruct Hin as (node' & Hg' & _ & parts & Hparts & _ & ->). rewrite Hg in Hg'. apply Ok_inj in Hg' as <-. right.
      apply (child_at_Some cs e c0 (internal_sorted _ _ Hok)) in Hat. apply list_elem_of_lookup in Hat as [i Hi].
      destruct (Forall2_lookup_l _ _ _ _ _ Hparts Hi) as ([ps1 cids1] & Hi1 & Hin1). cbn in Hin1.
      destruct (inorder_fun limits h _ _ _ _ _ _ _ Hin0 Hin1) as [_ ->].
      apply list_elem_of_In, in_concat. exists cids1. split; apply list_elem_of_In; [|done].
      apply list_elem_of_fmap. exists (ps1, cids1). split; [done|]. by eapply list_elem_of_lookup_2.
Qed.

(** An old block is a block of the old table. *)
Lemma old_inorder base root before cid ps cids :
  table limits base root before → inorder limits 3 [] base root ps cids → old limits base before cid → cid ∈ cids.
Proof.
  intros (node & Hg & Hd) Hin (h & q & child & Hne & Hgc & Hdc). pose proof (denotes_depth limits Hmax _ _ _ _ _ Hdc).
  destruct (inorder_at 3 [] base root node before q Hg Hd) as (h' & c & child' & ps' & cids' & Hgc' & Hdc' & Hh & Hin' & Hc);
    [apply prefix_nil|lia|done|]. assert (h' = h) as -> by lia.
  rewrite (denotes_unique limits _ _ _ _ _ _ Hdc Hdc') in Hgc.
  rewrite (get_node_same limits _ _ _ _ Hgc Hgc'). by destruct (inorder_fun limits 3 _ _ _ _ _ _ _ Hin Hin') as [_ ->].
Qed.

(** ** Truncation *)

(** What writing a node leaves of the blocks written so far. *)
Record grows base before s s' (written written' : list Cid) (cid : option Cid) : Prop := {
  grows_kept : kept s s';
  grows_more c : c ∈ written → c ∈ written';
  grows_cid k : cid = Some k → k ∈ written';
  grows_linked : all_linked limits base before s' written'
}.

Lemma put_node_grows base before s s' node (written : list Cid) c :
  all_linked limits base before s written → linked limits base before written node →
  put_node limits node s = (Ok c, s') → grows base before s s' written (written ++ [c]) (Some c).
Proof.
  intros Ha Hl [Hg Hk]%(put_node_Ok limits Hmax).
  assert (∀ d, d ∈ written → d ∈ written ++ [c]) as Hs by (intros d Hd; apply elem_of_app; by left).
  split; [done|done|intros k [= <-]; apply elem_of_app; right; by left|].
  intros d [Hd| ->%list_elem_of_singleton]%elem_of_app.
  - destruct (Ha d Hd) as (nd & Hgd & Hld). exists nd. split; [by eapply get_node_kept|by eapply linked_mono].
  - exists node. split; [done|]. by eapply linked_mono.
Qed.

Lemma put_grows base before s s' empty node written (cid : option Cid) written' :
  all_linked limits base before s written → linked limits base before written node →
  put_unless limits empty node written s = (Ok (cid, written'), s') → grows base before s s' written written' cid.
Proof.
  intros Ha Hl. unfold put_unless. destruct empty; [by intros [[= <- <-] <-]%pair_eq|].
  intros (c & s1 & Hput & [[= <- <-] <-]%pair_eq)%stm_bind_Ok. by eapply put_node_grows.
Qed.

Lemma linked_filter base before (written : list Cid) node (P : PageTableChild → Prop) `{!∀ c, Decision (P c)} :
  linked limits base before written node → linked limits base before written (with_children node (filter P (children node))).
Proof. intros Hl. apply Forall_forall. cbn. intros c [_ Hc]%list_elem_of_filter. by eapply Forall_forall in Hl. Qed.

Lemma linked_set_child base before (w w' : list Cid) node cs e (cid : option Cid) :
  linked limits base before w (with_children node cs) → (∀ c, c ∈ w → c ∈ w') → (∀ k, cid = Some k → k ∈ w') →
  linked limits base before w' (with_children node (set_child cs e cid)).
Proof.
  intros Hl Hw Hk. apply set_child_Forall; [|intros k Hc; left; by apply Hk].
  eapply Forall_impl; [exact Hl|]. intros c [?|?]; [left; by apply Hw|by right].
Qed.

Lemma old_node base before h p node : denotes limits h p base node (restrict p before) → ∀ w, linked limits base before w node.
Proof. intros Hd w. eapply linked_mono; [|by eapply (denotes_linked limits Hmax)]. by intros c ?%elem_of_nil. Qed.

Lemma truncate_below_grows base before b h : ∀ p s s' cid node written c written',
  get_node limits base cid = Ok node → denotes limits h p base node (restrict p before) → has_prefix p b → kept base s →
  all_linked limits base before s written →
  truncate_below limits (length p) p (drop (length p) (page_bytes b)) b cid written s = (Ok (c, written'), s') →
  grows base before s s' written written' c.
Proof.
  induction h as [|h IH]; intros p s s' cid node written c written' Hg Hd Hp Hk Ha;
    pose proof (denotes_depth limits Hmax _ _ _ _ _ Hd) as Hdepth; pose proof (get_node_kept limits _ _ _ _ Hk Hg) as Hgs;
    destruct (lookup_lt_is_Some_2 (page_bytes b) (length p)) as [e He]; try (rewrite length_page_bytes; lia); rewrite (drop_S _ e _ He).
  - rewrite (drop_ge (page_bytes b)) by (rewrite length_page_bytes; lia). cbn [truncate_below].
    intros (nd & ? & [Hnd <-]%pair_eq & ([] & ? & [_ <-]%pair_eq & Hput)%stm_bind_Ok)%stm_bind_Ok.
    cbn beta in Hnd. rewrite Hgs in Hnd. apply Ok_inj in Hnd as <-. eapply put_grows; [done| |exact Hput].
    destruct Hd as [_ (ps & -> & _)]. constructor.
  - destruct (lookup_lt_is_Some_2 (page_bytes b) (Datatypes.S (length p))) as [e' He']; [rewrite length_page_bytes; lia|].
    rewrite (drop_S _ e' _ He'), truncate_step.
    intros (nd & ? & [Hnd <-]%pair_eq & ([] & ? & [_ <-]%pair_eq & Hrest)%stm_bind_Ok)%stm_bind_Ok.
    cbn beta in Hnd. rewrite Hgs in Hnd. apply Ok_inj in Hnd as <-. cbv zeta in Hrest. fold (kept_children node e) in Hrest.
    assert (has_prefix (p ++ [e]) b) as Hpe by (apply has_prefix_snoc; [lia|done]).
    assert (linked limits base before written (with_children node (kept_children node e))) as Hl.
    { apply linked_filter. by eapply old_node. }
    apply stm_bind_Ok in Hrest as ([kept_cs w1] & s1 & Hmid & Hput).
    destruct (child_at (kept_children node e) e) as [ch|] eqn:Hat.
    + apply stm_bind_Ok in Hmid as ([c1 w2] & s2 & Hbelow & [[= <- <-] <-]%pair_eq).
      assert (∃ child, get_node limits base ch = Ok child ∧ denotes limits h (p ++ [e]) base child (restrict (p ++ [e]) before)) as (child & Hgc & Hdc).
      { destruct Hd as [_ (cs & -> & _ & Hok & Hc)]. specialize (Hc e). cbn in Hat.
        assert (child_at cs e = Some ch) as Hat'.
        { apply (child_at_Some cs e ch (internal_sorted _ _ Hok)). apply child_at_Some in Hat; [by apply list_elem_of_filter in Hat as [_ ?]|].
          apply sorted_filter, Hok. }
        rewrite Hat', restrict_restrict in Hc by lia. destruct Hc as (_ & child & ? & ?). by exists child. }
      specialize (IH (p ++ [e]) s s2 ch child written c1 w2 Hgc Hdc Hpe Hk Ha). rewrite length_app, Nat.add_1_r, (drop_S _ e' _ He') in IH.
      specialize (IH Hbelow) as [Hk1 Hm1 Hc1 Ha1].
      pose proof (linked_set_child _ _ _ w2 _ _ e c1 Hl Hm1 Hc1) as Hl2.
      destruct (put_grows _ _ _ _ _ _ _ _ _ Ha1 Hl2 Hput) as [Hk2 Hm2 Hc2 Ha2]. split; [by etrans|auto|done|done].
    + apply pair_eq in Hmid as [[= <- <-] <-]. by eapply put_grows.
Qed.

Lemma truncate_linked s root m page_size old_count new_count u s' :
  table limits s root m → truncate limits root page_size old_count new_count s = (Ok u, s') →
  u = mkTableUpdate root [] ∨ new_root u ∈ written_nodes u ∧ all_linked limits s m s' (written_nodes u).
Proof.
  intros (node & Hg & Hd) Hrun. unfold truncate in Hrun.
  apply stm_bind_Ok in Hrun as (? & ? & [_ <-]%pair_eq & ([] & ? & [_ <-]%pair_eq & Hrun)%stm_bind_Ok).
  destruct (new_count =? old_count)%N; [apply pair_eq in Hrun as [<-%Ok_inj _]; by left|right].
  destruct (new_count =? 0)%N.
  { apply stm_bind_Ok in Hrun as (c & s1 & [Hgc _]%(put_node_Ok limits Hmax) & [<-%Ok_inj <-]%pair_eq). split; [by left|].
    intros d ->%list_elem_of_singleton. eexists. split; [exact Hgc|]. constructor. }
  apply stm_bind_Ok in Hrun as (nd & ? & [Hnd <-]%pair_eq & ([] & ? & [_ <-]%pair_eq & Hrun)%stm_bind_Ok).
  cbn beta in Hnd. rewrite Hg in Hnd. apply Ok_inj in Hnd as <-. cbv zeta in Hrun.
  destruct (page_bytes new_count) as [|e rest] eqn:Hbs; [by pose proof (length_page_bytes new_count) as Hlen; rewrite Hbs in Hlen|].
  assert (has_prefix [e] new_count) as Hpe by (unfold has_prefix; by rewrite Hbs). cbn [head default from_option id drop] in Hrun.
  fold (kept_children node e) in Hrun. rewrite <-(restrict_nil m) in Hd.
  assert (linked limits s m [] (with_children node (kept_children node e))) as Hl by (by eapply linked_filter, old_node).
  assert (all_linked limits s m s []) as Ha0 by (by intros c ?%elem_of_nil).
  destruct (child_at (kept_children node e) e) as [ch|] eqn:Hat.
  - apply stm_bind_Ok in Hrun as ([c w] & s1 & Hbelow & (c2 & s2 & Hput & [<-%Ok_inj <-]%pair_eq)%stm_bind_Ok).
    destruct Hd as [_ (cs & -> & _ & Hok & Hc)]. specialize (Hc e). cbn in Hat.
    assert (child_at cs e = Some ch) as Hat'.
    { apply (child_at_Some cs e ch (internal_sorted _ _ Hok)). apply child_at_Some in Hat; [by apply list_elem_of_filter in Hat as [_ ?]|].
      apply sorted_filter, Hok. }
    rewrite Hat', restrict_restrict in Hc by (cbn; lia). destruct Hc as (_ & child & Hgc & Hdc). cbn [app] in Hdc.
    pose proof (truncate_below_grows s m new_count 2 [e] s s1 ch child [] c w Hgc Hdc Hpe (reflexivity s) Ha0) as Hgr.
    rewrite Hbs in Hgr. destruct (Hgr Hbelow) as [Hk1 Hm1 Hc1 Ha1].
    pose proof (linked_set_child _ _ _ w _ _ e c Hl Hm1 Hc1) as Hl2.
    destruct (put_node_grows _ _ _ _ _ _ _ Ha1 Hl2 Hput) as [_ _ Hc2 Ha2]. split; [by apply Hc2|done].
  - apply stm_bind_Ok in Hrun as (c2 & s2 & Hput & [<-%Ok_inj <-]%pair_eq).
    destruct (put_node_grows _ _ _ _ _ _ _ Ha0 Hl Hput) as [_ _ Hc2 Ha2]. split; [by apply Hc2|done].
Qed.

(** The blocks of the table after a truncation. *)
Lemma truncate_blocks s root m page_size old_count new_count u s' ps cids ps' cids' :
  table limits s root m → truncate limits root page_size old_count new_count s = (Ok u, s') → kept s s' →
  inorder limits 3 [] s root ps cids → inorder limits 3 [] s' (new_root u) ps' cids' →
  ∀ c, c ∈ cids' → c ∈ written_nodes u ∨ c ∈ cids.
Proof.
  intros Ht Hrun Hk Hin Hin'.
  destruct (truncate_linked _ _ _ _ _ _ _ _ Ht Hrun) as [->|[Hr Ha]].
  - intros c Hc. right. apply (inorder_kept limits _ _ _ _ _ _ _ Hk) in Hin.
    by destruct (inorder_fun limits 3 _ _ _ _ _ _ _ Hin Hin') as [_ ->].
  - intros c Hc. destruct (linked_inorder s m s' _ 3 _ _ _ _ Hk Ha Hin' (or_introl Hr) c Hc) as [?|Hold]; [by left|right].
    by eapply old_inorder.
Qed.

(** The blocks of the table after a transaction. *)
Lemma apply_blocks s root m page_size ms u s' ps cids ps' cids' :
  table limits s root m → apply limits root page_size ms s = (Ok u, s') → kept s s' →
  inorder limits 3 [] s root ps cids → inorder limits 3 [] s' (new_root u) ps' cids' →
  ∀ c, c ∈ cids' → c ∈ written_nodes u ∨ c ∈ cids.
Proof.
  intros Ht Hrun Hk Hin Hin'. destruct (apply_writes limits Hmax s root m page_size ms u s' Ht Hrun) as [[-> ->]|[_ [_ _ Hr Ha]]].
  - intros c Hc. right. apply (inorder_kept limits _ _ _ _ _ _ _ Hk) in Hin. by destruct (inorder_fun limits 3 _ _ _ _ _ _ _ Hin Hin') as [_ ->].
  - intros c Hc. destruct (linked_inorder s m s' _ 3 _ _ _ _ Hk Ha Hin' (or_introl Hr) c Hc) as [?|Hold]; [by left|right].
    by eapply old_inorder.
Qed.

End Frontier.
