(* ===== verification/SqliteSnapshot.v ===== *)
(** * Database images (crates/pepper-sqlite: whole_file.rs, snapshot.rs, transaction.rs)

    The header check of a SQLite file, the import of a file as page packs with a page
    table over them, the export of a snapshot, and the snapshot that a transaction of
    dirty pages makes of its base. *)
From stdpp Require Import base gmap sets list strings sorting.
From Stdlib Require Import Strings.Byte.
From S2P Require Import Prelude Types Merkle Dag Dataset SqlitePages.

(** ** The header of a database file *)

Definition SQLITE_HEADER : bytes := as_bytes "SQLite format 3" ++ [x00].

Record SqliteFileMetadata := mkFileMetadata {
  file_page_size : N;
  file_page_count : N;
  file_logical_size : N;
  schema_format : N
}.

Definition validate_page_size (page_size : N) : result SqliteError unit :=
  fail_if ((page_size <? 512)%N || (65536 <? page_size)%N || negb (is_power_of_two page_size))
    (Invalid "SQLite page size must be a power of two from 512 through 65536").

(** The callers have checked the length. *)
Definition read_u32 (b : bytes) (offset : nat) : N := from_be_bytes (take 4 (drop offset b)).

Definition header_byte (header : bytes) (i : nat) : N := Byte.to_N (default x00 (header !! i)).

Definition one_or_two (n : N) : bool := (n =? 1)%N || (n =? 2)%N.

Definition validate_sqlite_header (header : bytes) (logical_size configured_page_size maximum_page_count maximum_logical_bytes : N)
    : result SqliteError SqliteFileMetadata :=
  _ ← validate_page_size configured_page_size;
  if (logical_size =? 0)%N then Ok (mkFileMetadata configured_page_size 0 0 0)
  else
    _ ← fail_if ((len header <? 100)%N || negb (bool_decide (take 16 header = SQLITE_HEADER)))
          (Invalid "input is not a SQLite 3 main database");
    let encoded_page_size := from_be_bytes (take 2 (drop 16 header)) in
    let page_size := if (encoded_page_size =? 1)%N then 65536%N else encoded_page_size in
    _ ← validate_page_size page_size;
    _ ← fail_if (negb (page_size =? configured_page_size)%N || negb (logical_size mod page_size =? 0)%N)
          (Invalid "SQLite image page size or file length does not match the database configuration");
    _ ← fail_if (negb (one_or_two (header_byte header 18)) || negb (one_or_two (header_byte header 19))
                 || (saturating_sub page_size 480 <? header_byte header 20)%N)
          (Invalid "invalid SQLite header format bytes");
    let change_counter := read_u32 header 24 in
    let header_page_count := read_u32 header 28 in
    let schema_format := read_u32 header 44 in
    let version_valid_for := read_u32 header 92 in
    _ ← fail_if (negb (change_counter =? version_valid_for)%N || (schema_format <? 1)%N || (4 <? schema_format)%N)
          (Invalid "SQLite image is not a clean, supported main database");
    _ ← fail_if (u32_max <? logical_size / page_size)%N (Limit "SQLite page count");
    let actual_page_count := (logical_size / page_size)%N in
    _ ← fail_if (negb (header_page_count =? actual_page_count)%N || (maximum_page_count <? actual_page_count)%N
                 || (maximum_logical_bytes <? logical_size)%N)
          (Limit "SQLite image exceeds or disagrees with configured page bounds");
    Ok (mkFileMetadata page_size actual_page_count logical_size schema_format).

Definition validate_sqlite_file (b : bytes) (configured_page_size maximum_page_count maximum_logical_bytes : N)
    : result SqliteError SqliteFileMetadata :=
  _ ← validate_page_size configured_page_size;
  if bool_decide (b = []) then Ok (mkFileMetadata configured_page_size 0 0 0)
  else validate_sqlite_header b (len b) configured_page_size maximum_page_count maximum_logical_bytes.

(** ** Streams *)

(** What a reader still has, and the error it ends with, if any. *)
Record Reader := mkReader { pending : bytes; failure : option string }.

Definition read_exact (n : N) (r : Reader) : result SqliteError (bytes * Reader) :=
  if (n <=? len (pending r))%N
  then Ok (take (N.to_nat n) (pending r), mkReader (drop (N.to_nat n) (pending r)) (failure r))
  else Err (Storage (default "early eof" (failure r))).

(** Reading into a buffer of one byte: how many bytes came. *)
Definition read_one (r : Reader) : result SqliteError N :=
  match pending r, failure r with
  | _ :: _, _ => Ok 1%N
  | [], Some e => Err (Storage e)
  | [], None => Ok 0%N
  end.

Class AsyncWrite (W : Type) := {
  write_all : bytes → stm W string unit;
  flush : stm W string unit
}.

(** [Vec<u8>] *)
#[export] Instance vec_write : AsyncWrite bytes :=
  {| write_all b := modify (λ out, out ++ b); flush := mret () |}.

Definition chunks_exact (n : nat) (l : bytes) : list bytes := filter (λ c, length c = n) (chunks (length l) n l).

(** ** Page packs *)

Record PagePackWrite := mkPackWrite { pack_root : Cid; pack_descendants : list Cid }.

(** The store of packs is one of blocks, too. *)
Class PagePackStore (S : Type) `{MerkleStore S} := {
  put_page_pack : bytes → PageStoragePolicy → stm S string PagePackWrite;
  get_page_pack : S → Cid → result string bytes
}.

(** A pack is an object made of blocks: it can be read back, it takes no block away,
    it is there as long as the blocks are, and it is a small object or a manifest. *)
Class PagePackStoreLaws (S : Type) `{PagePackStore S} : Prop := {
  pack_put_get s b policy w s' : put_page_pack b policy s = (Ok w, s') → get_page_pack s' (pack_root w) = Ok b;
  pack_put_keeps s b policy r s' c q : put_page_pack b policy s = (r, s') → store_get s c = Ok q → store_get s' c = Ok q;
  pack_stays s s' c b :
    (∀ k q, store_get s k = Ok q → store_get s' k = Ok q) → get_page_pack s c = Ok b → get_page_pack s' c = Ok b;
  pack_put_codec s b policy w s' :
    put_page_pack b policy s = (Ok w, s') →
    codec (pack_root w) ∈ [CODEC_SMALL_OBJECT; CODEC_OBJECT_MANIFEST; CODEC_ERASURE_MANIFEST]
}.

(** The results of an import and of a transaction. *)
Record ImportedSnapshot := mkImported {
  imported_cid : Cid;
  imported_descriptor : SnapshotDescriptor;
  imported_nodes : list Cid;
  imported_packs : list Cid;
  imported_descendants : list Cid
}.

Section Snapshots.
Context `{Blake3} `{Hex} `{Json PageTableNode} `{Json SnapshotDescriptor} {S : Type} `{PagePackStore S} (limits : SqliteFormatLimits).

Definition put_pack_of (payload : bytes) (policy : PageStoragePolicy) : stm S SqliteError PagePackWrite := λ s,
  let '(r, s') := put_page_pack payload policy s in (map_err Storage r, s').

(** The last steps of an import and of a transaction. *)
Definition put_snapshot (message : string) (d : SnapshotDescriptor) : stm S SqliteError Cid :=
  _ ← lift (SnapshotDescriptor_validate d limits);
  payload ← lift (encode_canonical d (max_descriptor_bytes limits));
  let expected := Cid_new CODEC_SQLITE_SNAPSHOT payload in
  actual ← (λ s, let '(r, s') := store_put CODEC_SQLITE_SNAPSHOT payload s in (map_err Storage r, s'));
  _ ← lift (fail_if (negb (bool_decide (actual = expected))) (Storage message));
  mret actual.

(** ** Import *)

(** A computation on the store, next to the builder. *)
Definition on_store {A} (c : stm S SqliteError A) : stm (PageTableBulkBuilder * S) SqliteError A := λ '(b, s),
  let '(r, s') := c s in (r, (b, s')).

Fixpoint push_pages (page_size : N) (cid : Cid) (index number : N) (images : list bytes)
    : stm (PageTableBulkBuilder * S) SqliteError N :=
  match images with
  | [] => mret number
  | image :: images =>
      _ ← push limits (mkPage number cid ((index * page_size) mod (u32_max + 1)) page_size (hash_hex image));
      next ← lift (ok_or (checked_add u32_max number 1) (Limit "SQLite page number"));
      push_pages page_size cid (index + 1) next images
  end.

(** The variables of the loop. *)
Record Import := mkImport {
  import_source : Reader;
  remaining : N;
  next_page : N;
  first_pack : bool;
  pack_roots : list Cid;
  descendants : list Cid
}.

Definition import_pack (database : DatabaseDescriptor) (logical_size : N) (i : Import)
    : stm (PageTableBulkBuilder * S) SqliteError Import :=
  let amount := N.min (remaining i) (page_pack_target_bytes database) in
  '(pack, source) ← lift (read_exact amount (import_source i));
  _ ← lift (if first_pack i
            then _ ← validate_sqlite_header pack logical_size (database_page_size database) (database_max_page_count database)
                       (max_logical_bytes limits); Ok ()
            else Ok ());
  stored ← on_store (put_pack_of pack (storage_policy database));
  next ← push_pages (database_page_size database) (pack_root stored) 0 (next_page i)
           (chunks_exact (N.to_nat (database_page_size database)) pack);
  mret (mkImport source (remaining i - amount) next false (pack_roots i ++ [pack_root stored])
          (descendants i ++ pack_descendants stored)).

(** Each round takes a pack's worth of the remaining bytes. *)
Fixpoint import_packs (database : DatabaseDescriptor) (logical_size : N) (rounds : nat) (i : Import)
    : stm (PageTableBulkBuilder * S) SqliteError Import :=
  if (remaining i =? 0)%N then mret i
  else
    match rounds with
    | O => lift (Err SqlitePanicked)
    | Datatypes.S rounds => i ← import_pack database logical_size i; import_packs database logical_size rounds i
    end.

Definition import_rounds (database : DatabaseDescriptor) (logical_size : N) : nat :=
  N.to_nat (logical_size / page_pack_target_bytes database + 1).

(** The page count of an image, within the bounds of its database. *)
Definition bounded_page_count (message : string) (database : DatabaseDescriptor) (logical_size : N) : result SqliteError N :=
  let count := (logical_size / database_page_size database)%N in
  _ ← fail_if (u32_max <? count)%N (Limit message);
  _ ← fail_if ((database_max_page_count database <? count)%N || (max_page_count limits <? count)%N) (Limit message);
  Ok count.

Definition import_snapshot (source : Reader) (logical_size : N) (database_cid : Cid) (database : DatabaseDescriptor)
    (base_snapshot_cid : option Cid) : stm S SqliteError ImportedSnapshot :=
  let page_size := database_page_size database in
  _ ← lift (DatabaseDescriptor_validate database limits);
  _ ← lift (fail_if (negb (codec database_cid =? CODEC_SQLITE_DATABASE)%N || (max_logical_bytes limits <? logical_size)%N
                     || negb (logical_size mod page_size =? 0)%N)
              (Invalid "invalid database CID or import length"));
  page_count ← lift (bounded_page_count "SQLite import page count" database logical_size);
  builder ← lift (bulk_builder limits page_size);
  '(i, page_table) ← (λ s,
    let '(r, (_, s')) :=
      (i ← import_packs database logical_size (import_rounds database logical_size)
             (mkImport source logical_size 1 true [] []);
       extra ← lift (read_one (import_source i));
       _ ← lift (fail_if (negb (extra =? 0)%N) (Invalid "SQLite import stream exceeds declared length"));
       page_table ← finish limits;
       mret (i, page_table)) (builder, s) in (r, s'));
  let descriptor := mkSnapshotDescriptor "pepper.sqlite_snapshot" 1 database_cid (new_root page_table) page_size page_count
                      logical_size base_snapshot_cid in
  actual ← put_snapshot "store returned a different snapshot CID" descriptor;
  mret (mkImported actual descriptor (written_nodes page_table) (pack_roots i) (descendants i)).

(** ** Export *)

Section Export.
Context {W : Type} `{AsyncWrite W} (s : S) (snapshot : SnapshotDescriptor).

Record Export := mkExport { expected_page : N; cached_pack : option (Cid * bytes); destination : W }.

(** The pack of the last page is at hand. *)
Definition load_pack (cid : Cid) : stm Export SqliteError bytes := λ e,
  match cached_pack e with
  | Some (c, b) => if decide (c = cid) then (Ok b, e) else
      match get_page_pack s cid with
      | Ok b => (Ok b, mkExport (expected_page e) (Some (cid, b)) (destination e))
      | Err m => (Err (Storage m), e)
      end
  | None =>
      match get_page_pack s cid with
      | Ok b => (Ok b, mkExport (expected_page e) (Some (cid, b)) (destination e))
      | Err m => (Err (Storage m), e)
      end
  end.

Definition slice_of (pack : bytes) (start length : N) : option bytes :=
  if (start + length <=? len pack)%N then Some (take (N.to_nat length) (drop (N.to_nat start) pack)) else None.

Definition write_page (b : bytes) : stm Export SqliteError unit := λ e,
  let '(r, out) := write_all b (destination e) in (map_err Storage r, mkExport (expected_page e) (cached_pack e) out).

Definition export_page (page : PageReference) : stm Export SqliteError unit :=
  _ ← reads (λ e, fail_if (negb (page_number page =? expected_page e)%N || negb (page_length page =? snapshot_page_size snapshot)%N
                           || (snapshot_page_count snapshot <? page_number page)%N)
                    (Invalid "snapshot page table is sparse or inconsistent"));
  pack ← load_pack (pack_cid page);
  b ← lift (ok_or (slice_of pack (page_offset page) (page_length page)) (Invalid "page reference exceeds page pack"));
  _ ← lift (fail_if (negb (bool_decide (hash_hex b = page_hash page)))
              (Storage ("page " +:+ fmt_radix 10 (page_number page) +:+ " failed BLAKE3 verification")));
  _ ← write_page b;
  next ← reads (λ e, ok_or (checked_add u32_max (expected_page e) 1) (Limit "SQLite page number"));
  modify (λ e, mkExport next (cached_pack e) (destination e)).

(** [for x in l] *)
Definition each {A} (f : A → stm Export SqliteError unit) (l : list A) : stm Export SqliteError unit :=
  foldr (λ x rest, _ ← f x; rest) (mret ()) l.

(** The nested loops below the root. *)
Fixpoint export_below (height : nat) (prefix : bytes) (cid : Cid) : stm Export SqliteError unit :=
  node ← lift (get_node limits s cid);
  match height with
  | O =>
      _ ← lift (expect_node limits node Leaf 3 prefix);
      each export_page (pages node)
  | Datatypes.S height =>
      _ ← lift (expect_node limits node Internal (2 - N.of_nat height) prefix);
      each (λ c, export_below height (prefix ++ [edge c]) (child_node c)) (children node)
  end.

Definition flush_destination : stm Export SqliteError unit := λ e,
  let '(r, out) := flush (destination e) in (map_err Storage r, mkExport (expected_page e) (cached_pack e) out).

Definition export_pages : stm Export SqliteError unit :=
  root ← lift (get_node limits s (page_table_root_cid snapshot));
  _ ← lift (expect_node limits root Internal 0 []);
  _ ← lift (fail_if (negb (bool_decide (table_type root = PAGE_TABLE_TYPE))) (Invalid "invalid page-table root"));
  _ ← each (λ c, export_below 2 [edge c] (child_node c)) (children root);
  _ ← reads (λ e, fail_if (negb (expected_page e =? saturating_add u32_max (snapshot_page_count snapshot) 1)%N)
                    (Invalid "snapshot page count does not match page table"));
  flush_destination.

Definition export_snapshot : stm W SqliteError unit := λ out,
  match SnapshotDescriptor_validate snapshot limits with
  | Err e => (Err e, out)
  | Ok _ => let '(r, e) := export_pages (mkExport 1 None out) in (r, destination e)
  end.

End Export.

(** ** Transactions *)

Record DirtyPage := mkDirty { dirty_number : N; dirty_bytes : bytes }.

Record IncrementalSnapshot := mkIncremental {
  incremental_cid : Cid;
  incremental_descriptor : SnapshotDescriptor;
  incremental_nodes : list Cid;
  incremental_packs : list Cid;
  incremental_descendants : list Cid
}.

(** Some number is out of range or not above the one before it. *)
Fixpoint out_of_order (count : N) (prior : option N) (numbers : list N) : bool :=
  match numbers with
  | [] => false
  | n :: numbers =>
      (n =? 0)%N || (count <? n)%N || is_some_and (λ prior, (n <=? prior)%N) prior || out_of_order count (Some n) numbers
  end.

(** The pages of one pack, as mutations. *)
Fixpoint pack_mutations (page_size : N) (cid : Cid) (offset : N) (group : list (N * string)) : list PageMutation :=
  match group with
  | [] => []
  | (number, hash) :: group =>
      PutPage (mkPage number cid ((offset * page_size) mod (u32_max + 1)) page_size hash)
      :: pack_mutations page_size cid (offset + 1) group
  end.

Record Packed := mkPacked { dirty_source : Reader; mutations : list PageMutation; created_packs : gmap Cid (list Cid) }.

Definition pack_group (database : DatabaseDescriptor) (p : Packed) (group : list N) : stm S SqliteError Packed :=
  let page_size := database_page_size database in
  '(payload, source) ← lift (read_exact (len group * page_size) (dirty_source p));
  let page_hashes := hash_hex <$> chunks_exact (N.to_nat page_size) payload in
  stored ← put_pack_of payload (storage_policy database);
  mret (mkPacked source (mutations p ++ pack_mutations page_size (pack_root stored) 0 (zip group page_hashes))
          (<[pack_root stored := pack_descendants stored]> (created_packs p))).

Fixpoint pack_groups (database : DatabaseDescriptor) (groups : list (list N)) (p : Packed) : stm S SqliteError Packed :=
  match groups with
  | [] => mret p
  | group :: groups => p ← pack_group database p group; pack_groups database groups p
  end.

(** The page table: cut, then changed. *)
Definition update_table (database : DatabaseDescriptor) (base : SnapshotDescriptor) (new_page_count : N) (ms : list PageMutation)
    : stm S SqliteError PageTableUpdate :=
  let page_size := database_page_size database in
  cut ← (if (new_page_count <? snapshot_page_count base)%N
         then truncate limits (page_table_root_cid base) page_size (snapshot_page_count base) new_page_count
         else mret (mkTableUpdate (page_table_root_cid base) []));
  if bool_decide (ms = []) then mret cut
  else
    update ← apply limits (new_root cut) page_size ms;
    mret (mkTableUpdate (new_root update) (written_nodes cut ++ written_nodes update)).

(** The second half of a transaction: the table, the report and the descriptor. *)
Definition commit_pages (database_cid' : Cid) (database : DatabaseDescriptor) (base_cid : Cid) (base : SnapshotDescriptor)
    (new_page_count new_logical_size : N) (packed : Packed) : stm S SqliteError IncrementalSnapshot :=
  let page_size := database_page_size database in
  base_reachable ← reads (λ s, validate_complete limits s (page_table_root_cid base) page_size (snapshot_page_count base) true);
  let inherited_nodes : gset Cid := list_to_set (node_cids base_reachable) in
  let inherited_packs : gset Cid := list_to_set (page_pack_roots base_reachable) in
  update ← update_table database base new_page_count (mutations packed);
  reachable ← reads (λ s, validate_complete limits s (new_root update) page_size new_page_count true);
  let reachable_nodes : gset Cid := list_to_set (node_cids reachable) in
  let written := dedup (sort_cids (filter (λ c, c ∈ reachable_nodes ∧ c ∉ inherited_nodes) (written_nodes update))) in
  let reachable_packs : gset Cid := list_to_set (page_pack_roots reachable) in
  let new_packs := sort_cids (filter (λ c, c ∈ reachable_packs ∧ c ∉ inherited_packs) (elements (dom (created_packs packed)))) in
  let below := dedup (sort_cids (concat ((λ root, default [] (created_packs packed !! root)) <$> new_packs))) in
  let descriptor := mkSnapshotDescriptor "pepper.sqlite_snapshot" 1 database_cid' (new_root update) page_size new_page_count
                      new_logical_size (Some base_cid) in
  actual ← put_snapshot "store returned a different incremental snapshot CID" descriptor;
  mret (mkIncremental actual descriptor written new_packs below).

Definition build_incremental_snapshot_stream (database_cid' : Cid) (database : DatabaseDescriptor) (base_cid : Cid)
    (base : SnapshotDescriptor) (page_numbers : list N) (dirty_page_bytes : Reader) (new_logical_size : N)
    : stm S SqliteError IncrementalSnapshot :=
  let page_size := database_page_size database in
  _ ← lift (DatabaseDescriptor_validate database limits);
  _ ← lift (SnapshotDescriptor_validate base limits);
  _ ← lift (fail_if (negb (codec database_cid' =? CODEC_SQLITE_DATABASE)%N || negb (codec base_cid =? CODEC_SQLITE_SNAPSHOT)%N
                     || negb (bool_decide (database_cid base = database_cid'))
                     || negb (snapshot_page_size base =? page_size)%N || (max_logical_bytes limits <? new_logical_size)%N
                     || negb (new_logical_size mod page_size =? 0)%N)
              (Invalid "incremental transaction does not match its base database"));
  new_page_count ← lift (bounded_page_count "SQLite transaction page count" database new_logical_size);
  _ ← lift (fail_if (bool_decide (page_numbers = []) && (new_page_count =? snapshot_page_count base)%N)
              (Invalid "empty SQLite transaction"));
  _ ← lift (fail_if (out_of_order new_page_count None page_numbers)
              (Invalid "dirty pages must be strictly increasing and in range"));
  let pages_per_pack := (page_pack_target_bytes database / page_size)%N in
  packed ← pack_groups database (chunks (length page_numbers) (N.to_nat pages_per_pack) page_numbers)
             (mkPacked dirty_page_bytes [] ∅);
  trailing ← lift (read_one (dirty_source packed));
  _ ← lift (fail_if (negb (trailing =? 0)%N) (Invalid "dirty-page stream exceeds its declared page count"));
  commit_pages database_cid' database base_cid base new_page_count new_logical_size packed.

(** The dirty pages by number; a number may occur once only. *)
Definition sort_dirty (dirty : list DirtyPage) : result SqliteError (gmap N bytes) :=
  try_foldl (λ sorted d,
      _ ← fail_if (bool_decide (is_Some (sorted !! dirty_number d)))
            (Invalid "dirty pages must be unique, in range, and page-sized");
      Ok (<[dirty_number d := dirty_bytes d]> sorted)) ∅ dirty.

Definition build_incremental_snapshot (database_cid : Cid) (database : DatabaseDescriptor) (base_cid : Cid)
    (base : SnapshotDescriptor) (dirty_pages : list DirtyPage) (new_logical_size : N) : stm S SqliteError IncrementalSnapshot :=
  sorted ← lift (sort_dirty dirty_pages);
  build_incremental_snapshot_stream database_cid database base_cid base (map_iter sorted).*1
    (mkReader (concat (map_iter sorted).*2) None) new_logical_size.

End Snapshots.
