(* ===== verification/SqliteImages.v ===== *)
(** * Images of databases

    What it means that a snapshot stores an image; exporting such a snapshot writes
    the image, and importing a file makes one. *)
From stdpp Require Import base gmap sets list strings sorting.
From Stdlib Require Import Strings.Byte.
From S2P Require Import Prelude Types Merkle Dag Dataset SqlitePages SqlitePagesFacts SqlitePageTable SqliteBulk SqliteValidation SqliteAdapter SqliteInorder SqliteSnapshot.

Lemma chunks_exact_even n k l :
  0 < n → length l = k * n →
  concat (chunks_exact n l) = l ∧ length (chunks_exact n l) = k ∧ Forall (λ c, length c = n) (chunks_exact n l).
Proof.
  intros Hn Hl. destruct (chunks_even n k (length l) l Hn Hl) as (Hc & Hk & Hf); [nia|].
  unfold chunks_exact. by rewrite filter_all.
Qed.

Lemma dense_lookup ps pg : ∀ k j, dense_from k ps → ps !! j = Some pg → page_number pg = (k + N.of_nat j + 1)%N.
Proof.
  induction ps as [|q ps IH]; intros k j Hd Hj; [done|]. destruct Hd as [Hq Hd], j as [|j]; cbn in Hj.
  - simplify_eq. lia.
  - rewrite (IH _ _ Hd Hj). lia.
Qed.

Lemma page_valid_iff limits pg size :
  PageReference_validate pg size limits = Ok () ↔
  (0 < page_number pg ≤ max_page_count limits)%N ∧ page_length pg = size ∧ (512 ≤ size ≤ max_page_size limits)%N
  ∧ is_power_of_two size = true ∧ (page_offset pg mod size = 0)%N
  ∧ (page_offset pg + size ≤ u32_max)%N ∧ (page_offset pg + size ≤ max_pack_bytes limits)%N
  ∧ codec (pack_cid pg) ∈ [CODEC_SMALL_OBJECT; CODEC_OBJECT_MANIFEST; CODEC_ERASURE_MANIFEST]
  ∧ slen (page_hash pg) = 64%N ∧ forallb lower_hex_byte (as_bytes (page_hash pg)) = true.
Proof.
  unfold PageReference_validate. rewrite fail_if_Ok, !orb_false_iff, !negb_false_iff, !orb_true_iff, !N.eqb_eq, N.eqb_neq, !N.ltb_ge.
  rewrite !elem_of_cons, elem_of_nil. split.
  - intros [[[[[[[[[[[? ?] <-] ?] ?] ?] ?] ?] ?] ?] ?] ?]. split_and!; try done; lia.
  - intros (? & <- & ? & ? & ? & ? & ? & ? & ? & ?). split_and!; try done; lia.
Qed.

Section Images.
Context `{Blake3} `{!Blake3Laws} `{Hex} `{Json PageTableNode} `{!JsonLaws PageTableNode} `{Json SnapshotDescriptor}.
Context {S : Type} `{PagePackStore S} `{!MerkleStoreLaws S} `{!PagePackStoreLaws S}.
Context (limits : SqliteFormatLimits).
Implicit Types (s : S) (cid : Cid) (p : bytes) (m : gmap N PageReference).

(** ** Pages and images *)

(** The page reads as [b]. *)
Definition holds_page s (pg : PageReference) (b : bytes) : Prop :=
  ∃ pack, get_page_pack s (pack_cid pg) = Ok pack ∧ slice_of pack (page_offset pg) (page_length pg) = Some b
    ∧ page_hash pg = hash_hex b.

Lemma holds_page_kept s s' pg b : kept s s' → holds_page s pg b → holds_page s' pg b.
Proof. intros Hk (pack & Hp & Hrest). exists pack. split; [|done]. eapply pack_stays; [|exact Hp]. exact Hk. Qed.

(** The table at [root] stores the pages [imgs], as the references [m]. *)
Record image s root page_size (imgs : list bytes) m : Prop := {
  image_table : table limits s root m;
  image_dense : dense limits page_size (len imgs) m;
  image_pages n pg b : m !! n = Some pg → imgs !! N.to_nat (n - 1) = Some b → holds_page s pg b
}.

Lemma image_kept s s' root page_size imgs m : kept s s' → image s root page_size imgs m → image s' root page_size imgs m.
Proof. intros Hk [Ht Hd Hp]. split; [by eapply table_kept|done|]. intros n pg b Hn Hb. eapply holds_page_kept; [done|by eapply Hp]. Qed.

(** ** Packs of pages *)

Record database_ok (d : DatabaseDescriptor) : Prop := {
  database_size : (512 ≤ database_page_size d ≤ max_page_size limits)%N;
  database_power : is_power_of_two (database_page_size d) = true;
  database_count : (database_max_page_count d ≤ max_page_count limits)%N;
  database_target : (database_page_size d ≤ page_pack_target_bytes d ≤ max_pack_bytes limits)%N;
  database_even : (page_pack_target_bytes d mod database_page_size d = 0)%N
}.

Lemma database_valid d : DatabaseDescriptor_validate d limits = Ok () → database_ok d.
Proof.
  intros (l & Hl & ([] & _ & ([] & Hf & _)%bind_Ok)%bind_Ok)%bind_Ok. unfold SqliteFormatLimits_validate in Hl.
  destruct (_ || _) in Hl; [done|]. apply Ok_inj in Hl as <-. apply fail_if_Ok in Hf. rewrite !orb_false_iff, !negb_false_iff, !N.ltb_ge, N.eqb_eq in Hf.
  destruct Hf as [[[[[[[[[[[? ?] ?] ?] ?] ?] ?] ?] ?] ?] ?] ?]. by split; [lia|done|lia|lia|].
Qed.

Lemma database_page_ok d : database_ok d → check_page_size limits (database_page_size d) = Ok ().
Proof.
  intros [? Hp _ _ _]. unfold check_page_size. rewrite Hp, !(proj2 (N.ltb_ge _ _)) by lia. done.
Qed.

(** The references that a pack of numbered pages gives rise to. *)
Fixpoint refs (page_size : N) cid (index : N) (group : list (N * bytes)) : list PageReference :=
  match group with
  | [] => []
  | (number, b) :: group => mkPage number cid (index * page_size) page_size (hash_hex b) :: refs page_size cid (index + 1) group
  end.

(** Pages with consecutive numbers. *)
Fixpoint numbered (number : N) (images : list bytes) : list (N * bytes) :=
  match images with
  | [] => []
  | b :: images => (number, b) :: numbered (number + 1) images
  end.

Lemma numbered_snd images : ∀ number, (numbered number images).*2 = images.
Proof. induction images as [|b images IH]; intros number; cbn; [done|]. by rewrite IH. Qed.

Lemma numbered_len images number : len (numbered number images) = len images.
Proof. rewrite <-(numbered_snd images number) at 2. unfold len. by rewrite length_fmap. Qed.

Lemma numbered_fst images : ∀ number x, x ∈ numbered number images → (number ≤ x.1 < number + len images)%N.
Proof.
  induction images as [|b images IH]; intros number x; cbn; [by intros ?%elem_of_nil|]. rewrite len_cons.
  intros [->|Hx%IH]%elem_of_cons; cbn; lia.
Qed.

Lemma refs_dense page_size cid images : ∀ index k, dense_from k (refs page_size cid index (numbered (k + 1) images)).
Proof. induction images as [|b images IH]; intros index k; cbn; [done|]. split; [done|apply IH]. Qed.

Lemma refs_hold s page_size cid pack group : ∀ before index,
  get_page_pack s cid = Ok pack → pack = concat (before ++ group.*2) → index = len before →
  Forall (λ b, len b = page_size) (before ++ group.*2) → Forall2 (holds_page s) (refs page_size cid index group) group.*2.
Proof.
  induction group as [|[number b] group IH]; intros before index Hg Hp -> Hf; cbn in Hp, Hf |- *; [constructor|].
  pose proof Hf as [Hb [Hb1 _]%Forall_cons]%Forall_app. constructor.
  - exists pack. split_and!; [done| |done]. cbn. pose proof (len_concat _ _ Hb) as Hl.
    rewrite Hp, concat_app. cbn. unfold slice_of. rewrite !len_app, Hl, Hb1, (proj2 (N.leb_le _ _)) by lia. f_equal.
    rewrite <-Hl. replace (N.to_nat page_size) with (length b) by (unfold len in Hb1; lia). unfold len.
    by rewrite Nat2N.id, drop_app_length, take_app_length.
  - rewrite (cons_middle b before), (assoc_L (++)) in Hp, Hf. apply (IH (before ++ [b])); [done|done| |done]. by rewrite len_app.
Qed.

Lemma hash_hex_ok b : slen (hash_hex b) = 64%N ∧ forallb lower_hex_byte (as_bytes (hash_hex b)) = true.
Proof.
  split; [|apply hex_lower_digits]. unfold hash_hex. rewrite slen_hex. unfold blake3_hash, len. by rewrite finalize_length.
Qed.

Lemma refs_valid d cid group : ∀ index,
  (max_pack_bytes limits ≤ u32_max)%N → database_ok d →
  codec cid ∈ [CODEC_SMALL_OBJECT; CODEC_OBJECT_MANIFEST; CODEC_ERASURE_MANIFEST] →
  (∀ x, x ∈ group → 0 < x.1 ≤ max_page_count limits)%N → ((index + len group) * database_page_size d ≤ max_pack_bytes limits)%N →
  ∀ pg, pg ∈ refs (database_page_size d) cid index group → PageReference_validate pg (database_page_size d) limits = Ok ().
Proof.
  induction group as [|[number b] group IH]; intros index Hpack Hd Hc Hn Hfit pg; cbn; [by intros ?%elem_of_nil|].
  rewrite len_cons in Hfit. intros [->|Hin]%elem_of_cons.
  - destruct (hash_hex_ok b), Hd as [Hsz Hpow _ _ _]. specialize (Hn (number, b) ltac:(by left)). cbn in Hn.
    apply page_valid_iff. cbn. rewrite N.Div0.mod_mul. split_and!; try done; nia.
  - eapply (IH (index + 1)%N); [done|done|done| |nia|done]. intros x Hx. apply Hn. by right.
Qed.

Context (Hmax : (max_page_count limits < u32_max)%N).

Lemma count_fits : (max_page_count limits ≤ u32_max)%N.
Proof. by apply N.lt_le_incl. Qed.

(** The pages in order, with their contents. *)
Lemma image_inorder s root page_size imgs m :
  image s root page_size imgs m →
  ∃ ps cids, inorder limits 3 [] s root ps cids ∧ dense_from 0 ps ∧
    Forall2 (λ pg b, PageReference_validate pg page_size limits = Ok () ∧ holds_page s pg b) ps imgs.
Proof.
  intros [Ht Hd Hp]. destruct (table_inorder limits count_fits _ _ _ Ht) as (ps & cids & Hin & Hl).
  destruct (lists_dense _ _ _ Hl (dense_dom _ _ _ _ Hd)) as [Hden Hlen]. exists ps, cids. split_and!; [done|done|].
  apply Forall2_same_length_lookup_2; [unfold len in Hlen; lia|]. intros i pg b Hpg Hb.
  pose proof (dense_lookup _ _ _ _ Hden Hpg) as Hnum. assert (m !! page_number pg = Some pg) as Hm.
  { apply (lists_elem _ _ _ Hl). by eapply list_elem_of_lookup_2. }
  split; [by eapply dense_valid|]. eapply Hp; [exact Hm|]. replace (N.to_nat (page_number pg - 1)) with i by lia. done.
Qed.

(** ** Export *)

Section Export.
Context (s : S) (d : SnapshotDescriptor).

Lemma each_app {A} (f : A → stm (Export (W:=bytes)) SqliteError unit) l k e :
  each f (l ++ k) e = (_ ← each f l; each f k) e.
Proof.
  revert e. induction l as [|x l IH]; intros e; [done|]. cbn [each foldr app]. fold (each f (l ++ k)) (each f l).
  unfold mbind, stm_bind. destruct (f x e) as [[[]|err] e']; [|done]. apply IH.
Qed.

Lemma export_step h p cid :
  export_below (W:=bytes) limits s d (Datatypes.S h) p cid =
  (node ← lift (get_node limits s cid);
   _ ← lift (expect_node limits node Internal (2 - N.of_nat h) p);
   each (λ c, export_below limits s d h (p ++ [edge c]) (child_node c)) (children node)).
Proof. done. Qed.

Lemma export_inorder h : ∀ p cid ps cids e,
  inorder limits h p s cid ps cids → export_below limits s d h p cid e = each (export_page s d) ps e.
Proof.
  induction h as [|h IH]; intros p cid ps cids e (node & Hg & Hin).
  - destruct Hin as (He & -> & _). cbn [export_below]. unfold mbind, stm_bind, lift. rewrite Hg, He. done.
  - destruct Hin as (He & parts & Hp & -> & _). cbn [export_below]. unfold mbind, stm_bind, lift. rewrite Hg, He. clear He Hg.
    revert e. induction Hp as [|c part cs parts Hc _ IHp]; intros e; [done|]. cbn [concat fmap list_fmap].
    rewrite each_app. cbn [each foldr]. fold (each (λ c, export_below limits s d h (p ++ [edge c]) (child_node c)) cs).
    unfold mbind, stm_bind. rewrite (IH _ _ _ _ _ Hc). destruct (each (export_page s d) part.1 e) as [[[]|err] e']; [apply IHp|done].
Qed.

(** The pack at hand is what the store has. *)
Definition fresh (e : Export (W:=bytes)) : Prop := ∀ c b, cached_pack e = Some (c, b) → get_page_pack s c = Ok b.

Lemma load_pack_ok cid pack e :
  fresh e → get_page_pack s cid = Ok pack →
  ∃ c, load_pack s cid e = (Ok pack, mkExport (expected_page e) c (destination e)) ∧ fresh (mkExport (expected_page e) c (destination e)).
Proof.
  intros Hf Hp. assert (fresh (mkExport (expected_page e) (Some (cid, pack)) (destination e))) as Hnew by (by intros c b [= <- <-]).
  unfold load_pack. rewrite Hp. destruct (cached_pack e) as [[c b]|] eqn:Hc; [|by eexists].
  destruct (decide (c = cid)) as [->|]; [|by eexists]. rewrite (Hf _ _ Hc) in Hp. apply Ok_inj in Hp as ->.
  exists (Some (cid, pack)). rewrite <-Hc. split; [by destruct e|by rewrite Hc].
Qed.

Lemma export_page_ok pg b e :
  fresh e → holds_page s pg b → page_number pg = expected_page e → page_length pg = snapshot_page_size d →
  (page_number pg ≤ snapshot_page_count d)%N → (snapshot_page_count d < u32_max)%N →
  ∃ e', export_page s d pg e = (Ok (), e') ∧ fresh e' ∧ expected_page e' = (expected_page e + 1)%N ∧ destination e' = destination e ++ b.
Proof.
  intros Hf (pack & Hp & Hs & Hh) Hn Hl Hle Hfit. destruct (load_pack_ok _ _ _ Hf Hp) as (c & Hload & Hf').
  unfold export_page, mbind, stm_bind, reads, lift. rewrite Hn, Hl, !N.eqb_refl, (proj2 (N.ltb_ge _ _)) by lia.
  cbn [negb orb fail_if]. rewrite Hload. cbn [fst snd]. rewrite <-Hl, Hs. cbn [ok_or]. rewrite bool_decide_eq_true_2 by done.
  cbn [negb fail_if]. unfold write_page. cbn. unfold checked_add. rewrite (proj2 (N.leb_le _ _)) by lia. cbn.
  eexists. split; [done|]. split_and!; [|done|done]. intros k q. apply Hf'.
Qed.

Lemma export_each ps : ∀ k imgs e,
  Forall2 (λ pg b, PageReference_validate pg (snapshot_page_size d) limits = Ok () ∧ holds_page s pg b) ps imgs →
  dense_from k ps → fresh e → expected_page e = (k + 1)%N → (k + len ps ≤ snapshot_page_count d)%N → (snapshot_page_count d < u32_max)%N →
  ∃ e', each (export_page s d) ps e = (Ok (), e') ∧ expected_page e' = (k + len ps + 1)%N ∧ destination e' = destination e ++ concat imgs.
Proof.
  induction ps as [|pg ps IH]; intros k imgs e Himgs Hd Hf He Hc Hfit.
  { apply Forall2_nil_inv_l in Himgs as ->. exists e. cbn. rewrite app_nil_r. split_and!; [done|unfold len; cbn; lia|done]. }
  apply Forall2_cons_inv_l in Himgs as (b & imgs' & [Hv Hb] & Himgs & ->). destruct Hd as [Hn Hd]. rewrite len_cons in Hc |- *.
  destruct (export_page_ok pg b e Hf Hb) as (e1 & He1 & Hf1 & Hx1 & Hd1); [lia| |lia|done|].
  { by apply page_valid_iff in Hv as (_ & ? & _). }
  destruct (IH (k + 1)%N imgs' e1 Himgs Hd Hf1) as (e' & He' & Hx' & Hd'); [lia|lia|done|].
  exists e'. cbn [each foldr concat]. unfold mbind, stm_bind. rewrite He1. fold (each (export_page s d) ps).
  split_and!; [done|lia|]. by rewrite Hd', Hd1, <-(assoc_L (++)).
Qed.

End Export.

Lemma snapshot_count d : SnapshotDescriptor_validate d limits = Ok () → (snapshot_page_count d ≤ max_page_count limits)%N.
Proof.
  intros (l & Hl & Hv)%bind_Ok. unfold SqliteFormatLimits_validate in Hl. destruct (_ || _) in Hl; [done|]. apply Ok_inj in Hl as <-.
  apply fail_if_Ok in Hv. rewrite !orb_false_iff in Hv. by destruct Hv as [[[_ Hv%N.ltb_ge] _] _].
Qed.

(** A snapshot whose table stores an image is exported as the image. *)
Lemma export_image s d imgs m out :
  SnapshotDescriptor_validate d limits = Ok () → image s (page_table_root_cid d) (snapshot_page_size d) imgs m →
  snapshot_page_count d = len imgs → export_snapshot limits s d out = (Ok (), out ++ concat imgs).
Proof.
  intros Hv Him Hcount. pose proof (image_table _ _ _ _ _ Him) as (root & Hg & Hden).
  destruct (image_inorder _ _ _ _ _ Him) as (ps & cids & Hin & Hd & Himgs). pose proof (Forall2_length _ _ _ Himgs) as Hlen.
  pose proof (snapshot_count d Hv) as Hcnt. assert (snapshot_page_count d < u32_max)%N as Hfit by lia.
  destruct (export_each s d ps 0 imgs (mkExport 1 None out) Himgs Hd) as (e' & He' & Hx & Hdest); [done|done|unfold len in *; lia|done|].
  rewrite <-(export_inorder s d 3 [] _ ps cids _ Hin) in He'. unfold export_snapshot. rewrite Hv. unfold export_pages.
  rewrite export_step in He'. pose proof (denotes_expect limits count_fits _ _ _ _ _ Hden) as Hexp.
  change (expect_node limits root Internal 0 [] = Ok ()) in Hexp.
  unfold mbind, stm_bind, lift in He' |- *. rewrite Hg in He' |- *. change (2 - N.of_nat 2)%N with 0%N in He'. rewrite Hexp in He' |- *.
  destruct Hden as [_ (cs & -> & _)]. cbn [table_type PageTableNode_internal]. rewrite bool_decide_eq_true_2 by done. cbn [negb fail_if].
  cbn [app] in He'. rewrite He'. unfold reads. rewrite Hx, Hcount. unfold saturating_add. rewrite N.min_r by (unfold len in *; lia).
  replace (0 + len ps + 1)%N with (len imgs + 1)%N by (unfold len in *; lia). rewrite N.eqb_refl. cbn. by rewrite Hdest.
Qed.

End Images.
