(* ===== verification/SqliteImport.v ===== *)
(** * Importing and exporting a database

    An imported file is stored as an image of itself: what is exported is what was
    imported. *)
From stdpp Require Import base gmap sets list strings sorting.
From Stdlib Require Import Strings.Byte.
From S2P Require Import Prelude Types Merkle Dag Dataset SqlitePages SqlitePagesFacts SqlitePageTable SqliteBulk SqliteValidation SqliteInorder SqliteSnapshot SqliteImages.

Section Imports.
Context `{Blake3} `{!Blake3Laws} `{Hex} `{Json PageTableNode} `{!JsonLaws PageTableNode} `{Json SnapshotDescriptor}.
Context {S : Type} `{PagePackStore S} `{!MerkleStoreLaws S} `{!PagePackStoreLaws S}.
Context (limits : SqliteFormatLimits) (Hmax : (max_page_count limits < u32_max)%N) (Hpack : (max_pack_bytes limits ≤ u32_max)%N).
Implicit Types (s : S) (cid : Cid) (m : gmap N PageReference).

Let fits : (max_page_count limits ≤ u32_max)%N := count_fits limits Hmax.

(** ** Outcomes *)

(** A snapshot is not made only because of the store, or because a node or the
    descriptor does not serialize within its limit. *)
Definition refused (e : SqliteError) : Prop :=
  denied limits e ∨
  match e with
  | Limit message => ∃ n, (max_descriptor_bytes limits < n)%N ∧ message = limit_message n (max_descriptor_bytes limits)
  | Invalid message => ∃ d : SnapshotDescriptor, to_vec d = Err message
  | _ => False
  end.

Definition lands {A} s (c : stm S SqliteError A) (Q : A → S → Prop) : Prop :=
  ∃ r s', c s = (r, s') ∧ kept s s' ∧ match r with Ok a => Q a s' | Err e => refused e end.

Lemma lands_bind {A B} s (c : stm S SqliteError A) (f : A → stm S SqliteError B) (P : A → S → Prop) Q :
  lands s c P → (∀ a s1, kept s s1 → P a s1 → lands s1 (f a) Q) → lands s (c ≫= f) Q.
Proof.
  intros ([a|e] & s1 & Hc & Hk & HP) Hf; unfold lands, mbind, stm_bind; rewrite Hc.
  - destruct (Hf a s1 Hk HP) as (r & s2 & Hr & Hk2 & HQ). exists r, s2. split_and!; [done|by etrans|done].
  - by exists (Err e), s1.
Qed.

Lemma lands_lift {A B} s (r : result SqliteError A) a (f : A → stm S SqliteError B) Q :
  r = Ok a → lands s (f a) Q → lands s (lift r ≫= f) Q.
Proof. intros -> Hf. exact Hf. Qed.

Lemma lands_reads {A B} s (g : S → result SqliteError A) a (f : A → stm S SqliteError B) Q :
  g s = Ok a → lands s (f a) Q → lands s (reads g ≫= f) Q.
Proof. intros Hg Hf. unfold lands, mbind, stm_bind, reads. by rewrite Hg. Qed.

Lemma lands_ret {A} s (a : A) (Q : A → S → Prop) : Q a s → lands s (mret a) Q.
Proof. intros HQ. by exists (Ok a), s. Qed.

Lemma yields_lands {A} s (c : stm S SqliteError A) (Q : A → S → Prop) : yields limits s c Q → lands s c Q.
Proof. intros ([a|e] & s' & Hc & Hk & HQ); [by exists (Ok a), s'|exists (Err e), s'; split_and!; [done..|by left]]. Qed.

(** The descriptor is stored under its own identifier. *)
Definition stored_snapshot s cid (d : SnapshotDescriptor) : Prop :=
  ∃ payload, to_vec d = Ok payload ∧ cid = Cid_new CODEC_SQLITE_SNAPSHOT payload ∧ store_get s cid = Ok payload.

Lemma put_snapshot_lands s message d :
  SnapshotDescriptor_validate d limits = Ok () → lands s (put_snapshot limits message d) (λ cid s', stored_snapshot s' cid d).
Proof.
  intros Hv. unfold put_snapshot. eapply lands_lift; [exact Hv|]. unfold encode_canonical.
  destruct (to_vec d) as [b|e] eqn:Hb; cbn; [|exists (Err (Invalid e)), s; split_and!; [done..|right; by exists d]].
  unfold fail_if. destruct (N.ltb_spec (max_descriptor_bytes limits) (len b)) as [Hlt|Hle].
  { eexists (Err _), s. split_and!; [done..|right]. by exists (len b). }
  eapply lands_lift; [done|]. cbn zeta. unfold lands, mbind, stm_bind.
  destruct (store_put CODEC_SQLITE_SNAPSHOT b s) as [[actual|e] s'] eqn:Hput;
    (pose proof (λ c q, put_keeps _ _ _ _ _ c q Hput) as Hkept); cbn; [|by exists (Err (Storage e)), s'; split_and!; [..|left]].
  destruct (bool_decide_reflect (actual = Cid_new CODEC_SQLITE_SNAPSHOT b)) as [->|Hne]; cbn.
  - eexists (Ok _), s'. split_and!; [done..|]. exists b. split_and!; [done..|]. by eapply put_get.
  - eexists (Err _), s'. split_and!; [done..|]. by left.
Qed.

(** ** The builder *)

Lemma makes_lift {A B} b s (r : result SqliteError A) a (f : A → stm (PageTableBulkBuilder * S) SqliteError B) Q :
  r = Ok a → makes limits b s (f a) Q → makes limits b s (lift r ≫= f) Q.
Proof. intros -> Hf. exact Hf. Qed.

Lemma building_kept page_size ps b s s' : kept s s' → building limits page_size ps b s → building limits page_size ps b s'.
Proof.
  intros Hk [Hsz Hs Hv Hp (fl & Hps & Hlev) Hc]. split; try done. exists fl. split; [done|]. by eapply level_kept.
Qed.

Lemma builder_finish_spec page_size ps b s :
  building limits page_size ps b s → makes limits b s (finish limits) (λ u _ s', table limits s' (new_root u) (pages_map ps)).
Proof.
  intros Hb. unfold finish. eapply makes_bind; [by eapply flush_spec|].
  intros [] b2 s2 _ [(_ & _ & _ & _ & Hlev) _]. unfold makes.
  destruct (finish_levels_spec limits fits _ _ _ (builder_written b2) Hlev) as (r & s3 & Hr & Hk & HQ). cbn. rewrite Hr.
  by exists r, b2, s3.
Qed.

Lemma push_pages_spec page_size cid images : ∀ ps index b s,
  building limits page_size ps b s → dense_from 0 ps → (len ps + 1 + len images ≤ u32_max)%N →
  ((index + len images) * page_size ≤ u32_max)%N →
  (∀ pg, pg ∈ refs page_size cid index (numbered (len ps + 1) images) → PageReference_validate pg page_size limits = Ok ()) →
  makes limits b s (push_pages limits page_size cid index (len ps + 1) images) (λ next b' s',
    building limits page_size (ps ++ refs page_size cid index (numbered (len ps + 1) images)) b' s' ∧ next = (len ps + 1 + len images)%N).
Proof.
  induction images as [|img images IH]; intros ps index b s Hb Hd Hn Hoff Hv; cbn [push_pages numbered refs].
  { eexists (Ok _), b, s. rewrite app_nil_r. split_and!; [done..|]. rewrite len_nil. lia. }
  cbn [numbered refs] in Hv. rewrite len_cons in Hn, Hoff. rewrite N.mod_small by nia.
  set (pg := mkPage (len ps + 1) cid (index * page_size) page_size (hash_hex img)) in *.
  eapply makes_bind; [apply (builder_push_spec limits fits page_size ps); [done|apply Hv; by left|]|].
  { intros q Hq. assert (0 < page_number q ≤ 0 + len ps)%N by (apply (dense_page ps 0 _ Hd); eauto). cbn. lia. }
  intros [] b1 s1 Hk Hb1. eapply makes_lift; [unfold checked_add; rewrite (proj2 (N.leb_le _ _)) by lia; done|].
  assert (len ps + 1 = len (ps ++ [pg]))%N as Hlen by (by rewrite len_app). cbn in Hb1.
  assert (dense_from 0 (ps ++ [pg])) as Hd1 by (apply dense_app; split; [done|]; split; [|done]; cbn; lia).
  destruct (IH (ps ++ [pg]) (index + 1)%N b1 s1 Hb1 Hd1) as (r & b2 & s2 & Hr & Hk2 & HQ); [rewrite <-Hlen; lia|nia| |].
  { intros q Hq. rewrite <-Hlen in Hq. apply Hv. by right. }
  rewrite <-Hlen in Hr, HQ. exists r, b2, s2. split_and!; [exact Hr|done|]. destruct r as [next|e]; [|done]. destruct HQ as [Hb2 ->].
  rewrite <-(assoc_L (++)) in Hb2. split; [exact Hb2|]. rewrite len_cons. lia.
Qed.

Lemma put_pack_spec b s pack policy :
  makes limits b s (on_store (put_pack_of pack policy)) (λ w b' s', b' = b ∧ get_page_pack s' (pack_root w) = Ok pack
    ∧ codec (pack_root w) ∈ [CODEC_SMALL_OBJECT; CODEC_OBJECT_MANIFEST; CODEC_ERASURE_MANIFEST]).
Proof.
  unfold makes, on_store, put_pack_of. destruct (put_page_pack pack policy s) as [[w|e] s'] eqn:Hput;
    (pose proof (λ c q, pack_put_keeps _ _ _ _ _ c q Hput) as Hk); cbn; [exists (Ok w)|exists (Err (Storage e))]; exists b, s'; split_and!; try done.
  - by eapply pack_put_get.
  - by eapply pack_put_codec.
Qed.

(** ** The loop *)

Section Loop.
Context (d : DatabaseDescriptor) (Hd : database_ok limits d) (img : bytes).
Context (Hcount : (len img / database_page_size d ≤ max_page_count limits)%N) (Heven : (len img mod database_page_size d = 0)%N).

(** The pages [imgs] are stored, the rest is to come. *)
Record importing (imgs : list bytes) (i : Import) (b : PageTableBulkBuilder) s : Prop := {
  importing_pages : ∃ ps, building limits (database_page_size d) ps b s ∧ dense_from 0 ps ∧ Forall2 (holds_page s) ps imgs;
  importing_next : next_page i = (len imgs + 1)%N;
  importing_source : failure (import_source i) = None ∧ concat imgs ++ pending (import_source i) = img;
  importing_left : remaining i = len (pending (import_source i));
  importing_each : Forall (λ x, len x = database_page_size d) imgs;
  importing_first : first_pack i = true → imgs = []
}.

Lemma importing_even imgs i b s : importing imgs i b s → (remaining i mod database_page_size d = 0)%N.
Proof.
  intros Hi. destruct (importing_source _ _ _ _ Hi) as [_ Hsrc]. rewrite (importing_left _ _ _ _ Hi).
  apply (f_equal len) in Hsrc. rewrite len_app, (len_concat _ _ (importing_each _ _ _ _ Hi)) in Hsrc.
  rewrite <-Heven, <-Hsrc, N.add_comm, N.Div0.mod_add. done.
Qed.

(** The pages of the next pack. *)
Lemma next_pack imgs i b s (amount := N.min (remaining i) (page_pack_target_bytes d)) (pack := take (N.to_nat amount) (pending (import_source i))) :
  importing imgs i b s →
  ∃ k, len pack = amount ∧ amount = (k * database_page_size d)%N ∧ (len imgs + k ≤ max_page_count limits)%N ∧
    let new := chunks_exact (N.to_nat (database_page_size d)) pack in
    concat new = pack ∧ len new = k ∧ Forall (λ x, len x = database_page_size d) new.
Proof.
  intros Hi. pose proof (importing_even _ _ _ _ Hi) as Hev. pose proof (importing_left _ _ _ _ Hi) as Hleft.
  destruct Hd as [Hsz _ _ Ht Hte].
  assert (amount mod database_page_size d = 0)%N as Ha by (unfold amount; destruct (N.min_spec (remaining i) (page_pack_target_bytes d)) as [[_ ->]|[_ ->]]; done).
  apply N.Div0.div_exact in Ha. exists (amount / database_page_size d)%N.
  assert (len pack = amount) as Hlen.
  { unfold pack, len. rewrite length_take. unfold amount, len in *. lia. }
  assert (amount ≤ remaining i)%N as Hle by (unfold amount; lia).
  destruct (chunks_exact_even (N.to_nat (database_page_size d)) (N.to_nat (amount / database_page_size d)) pack) as (Hc & Hn & Hf); [lia|unfold len in Hlen; lia|].
  cbv zeta. split_and!; [done|lia| |done|unfold len; lia|].
  - destruct (importing_source _ _ _ _ Hi) as [_ Hsrc]. apply (f_equal len) in Hsrc.
    rewrite len_app, (len_concat _ _ (importing_each _ _ _ _ Hi)), <-Hleft in Hsrc.
    etrans; [|exact Hcount]. apply N.div_le_lower_bound; [lia|]. lia.
  - eapply Forall_impl; [exact Hf|]. unfold len. intros x Hx. cbn in Hx. lia.
Qed.

Definition header_of : result SqliteError SqliteFileMetadata :=
  validate_sqlite_header (take (N.to_nat (N.min (len img) (page_pack_target_bytes d))) img) (len img) (database_page_size d)
    (database_max_page_count d) (max_logical_bytes limits).

Lemma import_pack_spec imgs i b s :
  importing imgs i b s → (remaining i ≠ 0)%N → is_Ok header_of = true →
  makes limits b s (import_pack limits d (len img) i) (λ i' b' s',
    remaining i' = (remaining i - page_pack_target_bytes d)%N ∧ ∃ new, importing (imgs ++ new) i' b' s').
Proof.
  intros Hi Hrem Hheader. destruct (next_pack _ _ _ _ Hi) as (k & Hlen & Hk & Hfit & Hcat & Hnew & Hlens).
  pose proof (importing_left _ _ _ _ Hi) as Hleft. destruct (importing_source _ _ _ _ Hi) as [Hnone Hsrc].
  unfold import_pack. set (amount := N.min (remaining i) (page_pack_target_bytes d)) in *.
  set (pack := take (N.to_nat amount) (pending (import_source i))) in *.
  set (new := chunks_exact (N.to_nat (database_page_size d)) pack) in *.
  eapply makes_lift; [unfold read_exact; rewrite (proj2 (N.leb_le _ _)) by (unfold amount; lia); done|]. fold pack.
  eapply makes_lift.
  { destruct (first_pack i) eqn:Hf; [|done]. apply (importing_first _ _ _ _ Hi) in Hf as ->. cbn in Hsrc. unfold header_of in Hheader.
    unfold pack, amount. rewrite Hleft, Hsrc. by destruct (validate_sqlite_header _ _ _ _ _). }
  eapply makes_bind; [apply put_pack_spec|]. intros w b1 s1 Hk1 (-> & Hget & Hcodec).
  destruct (importing_pages _ _ _ _ Hi) as (ps & Hb & Hden & Himgs). pose proof (Forall2_length _ _ _ Himgs) as Hlp.
  assert (len ps = len imgs) as Hlps by (unfold len; lia). rewrite (importing_next _ _ _ _ Hi), <-Hlps.
  assert (0 + len new ≤ len new)%N as _ by lia.
  assert (len new * database_page_size d ≤ max_pack_bytes limits)%N as Hbytes by (destruct Hd; unfold amount in *; lia).
  eapply makes_bind; [apply (push_pages_spec (database_page_size d) (pack_root w) new ps 0 b s1)|].
  - by eapply building_kept.
  - done.
  - lia.
  - lia.
  - apply refs_valid; try done; [intros x Hx%numbered_fst; lia|rewrite numbered_len; lia].
  - intros next b2 s2 Hk2 [Hb2 ->]. eexists (Ok _), b2, s2. split; [done|]. split; [done|]. cbn. split; [unfold amount; lia|].
    exists new. split; cbn.
    + exists (ps ++ refs (database_page_size d) (pack_root w) 0 (numbered (len ps + 1) new)). split_and!; [done| |].
      * apply dense_app. split; [done|]. apply refs_dense.
      * apply Forall2_app.
        -- eapply Forall2_impl; [exact Himgs|]. intros pg x. apply holds_page_kept. by etrans.
        -- rewrite <-(numbered_snd new (len ps + 1)) at 2. eapply Forall2_impl;
             [eapply (refs_hold s1 _ _ pack _ []); [done|by cbn; rewrite numbered_snd|done|by cbn; rewrite numbered_snd]|].
           intros pg x. by apply holds_page_kept.
    + rewrite len_app. lia.
    + split; [done|]. rewrite concat_app, Hcat, <-(assoc_L (++)). unfold pack. by rewrite take_drop.
    + unfold len. rewrite length_drop. unfold len in Hleft. lia.
    + apply Forall_app. split; [apply Hi|done].
    + done.
Qed.

Lemma import_packs_spec rounds : ∀ imgs i b s,
  importing imgs i b s → (remaining i ≤ N.of_nat rounds * page_pack_target_bytes d)%N → is_Ok header_of = true ∨ img = [] →
  makes limits b s (import_packs limits d (len img) rounds i) (λ i' b' s', remaining i' = 0%N ∧ ∃ imgs, importing imgs i' b' s').
Proof.
  induction rounds as [|rounds IH]; intros imgs i b s Hi Hle Hh; cbn [import_packs]; destruct (N.eqb_spec (remaining i) 0) as [Hz|Hnz].
  - exists (Ok i), b, s. split; [done|]. split; [done|]. split; [done|]. by exists imgs.
  - lia.
  - exists (Ok i), b, s. split; [done|]. split; [done|]. split; [done|]. by exists imgs.
  - destruct Hh as [Hh|Himg].
    + eapply makes_bind; [by apply import_pack_spec|]. intros i' b' s' Hk [Hrem [new Hi']]. eapply IH; [exact Hi'|lia|by left].
    + destruct (importing_source _ _ _ _ Hi) as [_ Hsrc]. rewrite Himg in Hsrc. apply app_nil in Hsrc as [_ Hp].
      rewrite (importing_left _ _ _ _ Hi), Hp in Hnz. done.
Qed.

End Loop.

(** ** The whole of an import *)

Lemma makes_lands {A} b s (c : stm (PageTableBulkBuilder * S) SqliteError A) Q :
  makes limits b s c Q → lands s (λ s, let '(r, (_, s')) := c (b, s) in (r, s')) (λ a s', ∃ b', Q a b' s').
Proof.
  intros (r & b' & s' & Hc & Hk & HQ). exists r, s'. rewrite Hc. split_and!; [done..|]. destruct r; [by exists b'|by left].
Qed.

Lemma image_of_list s root page_size ps imgs :
  table limits s root (pages_map ps) → pages_sorted ps → dense_from 0 ps →
  (∀ pg, pg ∈ ps → PageReference_validate pg page_size limits = Ok ()) → Forall2 (holds_page s) ps imgs →
  image limits s root page_size imgs (pages_map ps).
Proof.
  intros Ht Hs Hd Hv Hp. pose proof (Forall2_length _ _ _ Hp) as Hlen.
  pose proof (λ n pg, lookup_pages_map limits fits ps n pg Hs) as Hm. split; [done| |].
  - split.
    + intros n. rewrite <-(N.add_0_l (len imgs)). replace (len imgs) with (len ps) by (unfold len; lia). rewrite <-(dense_page ps 0 n Hd).
      unfold is_Some. by setoid_rewrite Hm.
    + intros n pg [Hin _]%Hm. by apply Hv.
  - intros n pg b [Hin <-]%Hm Hb. apply list_elem_of_lookup in Hin as [j Hj].
    pose proof (dense_lookup _ _ _ _ Hd Hj) as Hn. replace (N.to_nat (page_number pg - 1)) with j in Hb by lia.
    by eapply Forall2_lookup_lr.
Qed.

(** What an import leaves. *)
Definition imported_image s (img : bytes) (r : ImportedSnapshot) : Prop :=
  let d := imported_descriptor r in
  SnapshotDescriptor_validate d limits = Ok () ∧ logical_size d = len img ∧ stored_snapshot s (imported_cid r) d ∧
  ∃ imgs m, concat imgs = img ∧ snapshot_page_count d = len imgs ∧ image limits s (page_table_root_cid d) (snapshot_page_size d) imgs m.

Definition descriptor_of (dbcid root : Cid) (page_size count size : N) (base : option Cid) : SnapshotDescriptor :=
  mkSnapshotDescriptor "pepper.sqlite_snapshot" 1 dbcid root page_size count size base.

Lemma snapshot_valid d dbcid root count size base :
  DatabaseDescriptor_validate d limits = Ok () → codec dbcid = CODEC_SQLITE_DATABASE → codec root = CODEC_SQLITE_PAGE_TABLE →
  (∀ c, base = Some c → codec c = CODEC_SQLITE_SNAPSHOT) → (count ≤ max_page_count limits)%N → (size ≤ max_logical_bytes limits)%N →
  size = (count * database_page_size d)%N →
  SnapshotDescriptor_validate (descriptor_of dbcid root (database_page_size d) count size base) limits = Ok ().
Proof.
  intros Hd Hdb Hroot Hbase Hcount Hsize Heq. pose proof (database_valid limits d Hd) as [[Hsz1 Hsz2] Hpow _ _ _].
  apply bind_Ok in Hd as (l & Hl & _). unfold SnapshotDescriptor_validate. unfold SqliteFormatLimits_validate in *.
  destruct (_ || _) in Hl |- *; [done|]. cbn [mbind result_bind snapshot_type snapshot_version database_cid page_table_root_cid snapshot_page_size
    snapshot_page_count logical_size base_snapshot_cid descriptor_of].
  rewrite Hdb, Hroot, Hpow, <-Heq, !N.eqb_refl, !(proj2 (N.ltb_ge _ _)) by done.
  rewrite bool_decide_eq_true_2 by done. destruct base as [c|]; [|done]. cbn. by rewrite (Hbase c eq_refl).
Qed.

Lemma import_lands s img dbcid d base :
  DatabaseDescriptor_validate d limits = Ok () → codec dbcid = CODEC_SQLITE_DATABASE →
  (∀ c, base = Some c → codec c = CODEC_SQLITE_SNAPSHOT) → (len img ≤ max_logical_bytes limits)%N →
  (len img mod database_page_size d = 0)%N → (len img / database_page_size d ≤ database_max_page_count d)%N →
  is_Ok (header_of d img) = true ∨ img = [] →
  lands s (import_snapshot limits (mkReader img None) (len img) dbcid d base) (λ r s', imported_image s' img r).
Proof.
  intros Hv Hdb Hbase Hsize Heven Hcount Hheader. pose proof (database_valid limits d Hv) as Hd.
  pose proof (database_count _ _ Hd) as Hdc. pose proof (database_target _ _ Hd) as Ht. pose proof (database_size _ _ Hd) as Hs.
  unfold import_snapshot. eapply lands_lift; [exact Hv|].
  eapply lands_lift; [by rewrite Hdb, Heven, N.eqb_refl, (proj2 (N.ltb_ge _ _)) by done|].
  eapply lands_lift; [unfold bounded_page_count; by rewrite !(proj2 (N.ltb_ge _ _)) by lia|].
  destruct (bulk_builder limits (database_page_size d)) as [b|e] eqn:Hb; [|unfold bulk_builder in Hb; by rewrite (database_page_ok limits d Hd) in Hb].
  eapply lands_lift; [done|]. eapply lands_bind.
  - eapply makes_lands. eapply makes_bind.
    + apply (import_packs_spec d Hd img) with (imgs := []); [lia|done| | |done].
      * split; cbn; try done. exists []. split_and!; [by apply building_start|done|constructor].
      * cbn. unfold import_rounds. rewrite N2Nat.id. pose proof (N.div_mod' (len img) (page_pack_target_bytes d)).
        pose proof (N.mod_lt (len img) (page_pack_target_bytes d)). lia.
    + intros i b1 s1 _ [Hrem [imgs Hi]]. destruct (importing_source _ _ _ _ _ _ Hi) as [Hnone Hsrc].
      rewrite (importing_left _ _ _ _ _ _ Hi) in Hrem. destruct (pending (import_source i)) eqn:Hp; [|by rewrite len_cons in Hrem; lia].
      eapply makes_lift; [unfold read_one; by rewrite Hp, Hnone|]. eapply makes_lift; [done|].
      destruct (importing_pages _ _ _ _ _ _ Hi) as (ps & Hbd & Hden & Himgs).
      eapply makes_bind; [by eapply builder_finish_spec|]. intros u b2 s2 Hk Htab. eexists (Ok _), b2, s2. split; [done|]. split; [done|].
      instantiate (1 := λ iu _ s', ∃ imgs m, concat imgs = img ∧ Forall (λ x, len x = database_page_size d) imgs ∧
        image limits s' (new_root iu.2) (database_page_size d) imgs m).
      exists imgs, (pages_map ps). cbn. split_and!; [by rewrite app_nil_r in Hsrc|by apply Hi|].
      apply image_of_list; [done|apply Hbd|done|apply Hbd|]. eapply Forall2_impl; [exact Himgs|]. intros pg x. by apply holds_page_kept.
  - intros [i u] s1 _ (b' & imgs & m & Hcat & Heach & Him). cbn in Him.
    assert (len img / database_page_size d = len imgs)%N as Hn.
    { rewrite <-Hcat, (len_concat _ _ Heach). by apply N.div_mul; lia. }
    assert (codec (new_root u) = CODEC_SQLITE_PAGE_TABLE) as Hroot.
    { destruct (image_table _ _ _ _ _ _ Him) as (node & Hg & _). by eapply get_node_codec. }
    assert (SnapshotDescriptor_validate (descriptor_of dbcid (new_root u) (database_page_size d) (len img / database_page_size d) (len img) base) limits = Ok ()) as Hval.
    { apply snapshot_valid; try done; [lia|]. rewrite Hn, <-Hcat. by apply len_concat. }
    eapply lands_bind; [by apply put_snapshot_lands|]. intros cid s2 Hk Hst. apply lands_ret. split_and!; [done|done|done|].
    exists imgs, m. cbn. split_and!; [done|done|]. by eapply image_kept.
Qed.

(** C19: what is imported is what is exported.  An image with a sound header, of whole
    pages and within the bounds of its database, is stored, unless the store refuses;
    the descriptor records its length and is stored under its own identifier; and from
    then on, whatever else the store takes in, the snapshot is exported as the image,
    byte for byte. *)
Theorem import_export s img dbcid d base :
  DatabaseDescriptor_validate d limits = Ok () → codec dbcid = CODEC_SQLITE_DATABASE →
  (∀ c, base = Some c → codec c = CODEC_SQLITE_SNAPSHOT) → (len img ≤ max_logical_bytes limits)%N →
  (len img mod database_page_size d = 0)%N → (len img / database_page_size d ≤ database_max_page_count d)%N →
  is_Ok (header_of d img) = true ∨ img = [] →
  lands s (import_snapshot limits (mkReader img None) (len img) dbcid d base) (λ r s',
    logical_size (imported_descriptor r) = len img ∧ stored_snapshot s' (imported_cid r) (imported_descriptor r) ∧
    ∀ s'', kept s' s'' → export_snapshot limits s'' (imported_descriptor r) [] = (Ok (), img)).
Proof.
  intros Hv Hdb Hbase Hsize Heven Hcount Hheader.
  destruct (import_lands s img dbcid d base Hv Hdb Hbase Hsize Heven Hcount Hheader) as (r & s' & Hrun & Hk & HQ).
  exists r, s'. split_and!; [done..|]. destruct r as [r|e]; [|done]. destruct HQ as (Hval & Hlen & Hst & imgs & m & <- & Hcnt & Him).
  split_and!; [done..|]. intros s'' Hk'. by apply (export_image limits Hmax s'' _ imgs m []); [|by eapply image_kept|].
Qed.

End Imports.
