(* ===== verification/SqliteTransaction.v ===== *)
(** * Transactions on a database image

    [build_incremental_snapshot_stream]: the snapshot of a transaction stores the
    image of its base with the dirty pages in place, and reports exactly the blocks
    and packs that the base does not have. *)
From stdpp Require Import base gmap sets list strings sorting.
From Stdlib Require Import Strings.Byte.
From S2P Require Import Prelude Types Merkle Dag Dataset SqlitePages SqlitePagesFacts SqlitePageTable SqliteBulk SqliteValidation SqliteAdapter SqliteInorder SqliteFrontier SqliteSnapshot SqliteImages SqliteImport.

(** ** Pieces *)

Lemma chunks_fmap {A B} (f : A → B) n : ∀ rounds (l : list A), chunks rounds n (fmap (M:=list) f l) = fmap (M:=list) (fmap (M:=list) f) (chunks rounds n l).
Proof.
  induction rounds as [|rounds IH]; intros l; [by destruct l|]. destruct l as [|x l]; [done|]. cbn [chunks fmap list_fmap].
  change (f x :: (f <$> l)) with (f <$> (x :: l)). rewrite <-fmap_drop, IH, fmap_take. done.
Qed.

Lemma chunks_bound {A} n : ∀ rounds (l : list A), Forall (λ c, length c ≤ n) (chunks rounds n l).
Proof.
  induction rounds as [|rounds IH]; intros l; [by destruct l; constructor|]. destruct l as [|x l]; [constructor|]. cbn [chunks].
  constructor; [rewrite length_take; lia|apply IH].
Qed.

Lemma chunks_exact_concat n (l : list bytes) : 0 < n → Forall (λ c, length c = n) l → chunks_exact n (concat l) = l.
Proof.
  intros Hn Hl. unfold chunks_exact. assert (∀ rounds, length l ≤ rounds → chunks rounds n (concat l) = l) as Hc.
  { induction Hl as [|c l Hc _ IH]; intros rounds Hr; [by destruct rounds|]. destruct rounds as [|rounds]; [cbn in Hr; lia|].
    cbn [concat]. destruct c as [|x c]; [cbn in Hc; lia|]. cbn [chunks app]. change (x :: c ++ concat l) with ((x :: c) ++ concat l).
    rewrite <-Hc, take_app_length, drop_app_length. f_equal. rewrite Hc. apply IH. cbn in Hr. lia. }
  rewrite Hc; [by apply filter_all|]. clear Hc. induction Hl as [|c l Hc _ IH]; [cbn; lia|]. cbn. rewrite length_app. lia.
Qed.

Section Transactions.
Context `{Blake3} `{!Blake3Laws} `{Hex} `{Json PageTableNode} `{!JsonLaws PageTableNode} `{Json SnapshotDescriptor}.
Context {S : Type} `{PagePackStore S} `{!MerkleStoreLaws S} `{!PagePackStoreLaws S}.
Context (limits : SqliteFormatLimits) (Hmax : (max_page_count limits < u32_max)%N) (Hpack : (max_pack_bytes limits ≤ u32_max)%N).
Implicit Types (s : S) (cid : Cid) (m : gmap N PageReference).

Let fits : (max_page_count limits ≤ u32_max)%N := count_fits limits Hmax.

(** ** Packing the dirty pages *)

Lemma pack_mutations_refs page_size cid group : ∀ index,
  ((index + len group) * page_size ≤ u32_max)%N →
  pack_mutations page_size cid index (zip group.*1 (hash_hex <$> group.*2)) = PutPage <$> refs page_size cid index group.
Proof.
  induction group as [|[number b] group IH]; intros index Hfit; [done|]. rewrite len_cons in Hfit.
  cbn [fmap list_fmap fst snd zip zip_with pack_mutations refs]. destruct (decide (page_size = 0)%N) as [->|Hz].
  - rewrite N.mul_0_r. f_equal. apply IH. lia.
  - rewrite N.mod_small by nia. f_equal. apply IH. nia.
Qed.

Lemma refs_numbers page_size cid group : ∀ index, page_number <$> refs page_size cid index group = group.*1.
Proof. induction group as [|[number b] group IH]; intros index; cbn; [done|]. by rewrite IH. Qed.

Lemma refs_pack page_size cid group pg : ∀ index, pg ∈ refs page_size cid index group → pack_cid pg = cid.
Proof.
  induction group as [|[number b] group IH]; intros index; cbn; [by intros ?%elem_of_nil|]. by intros [->|?%IH]%elem_of_cons.
Qed.

(** The pages [done] are packed. *)
Record packed_ok (d : DatabaseDescriptor) (written : list (N * bytes)) (p : Packed) s (pgs : list PageReference) : Prop := {
  packed_mutations : mutations p = PutPage <$> pgs;
  packed_numbers : page_number <$> pgs = written.*1;
  packed_valid pg : pg ∈ pgs → PageReference_validate pg (database_page_size d) limits = Ok ();
  packed_hold : Forall2 (holds_page s) pgs written.*2;
  packed_created c : c ∈ dom (created_packs p) ↔ ∃ pg, pg ∈ pgs ∧ pack_cid pg = c
}.

Lemma pack_group_spec d written p s pgs group rest :
  database_ok limits d → packed_ok d written p s pgs → group ≠ [] → (len group * database_page_size d ≤ max_pack_bytes limits)%N →
  (∀ x, x ∈ group → 0 < x.1 ≤ max_page_count limits)%N → Forall (λ b, len b = database_page_size d) group.*2 →
  dirty_source p = mkReader (concat group.*2 ++ rest) None →
  lands limits s (pack_group d p group.*1) (λ p' s', dirty_source p' = mkReader rest None ∧ ∃ pgs', packed_ok d (written ++ group) p' s' pgs').
Proof.
  intros Hd [Hm Hn Hv Hh Hc] Hne Hfit Hr Hlens Hsrc. pose proof (database_size _ _ Hd) as Hsz. unfold pack_group.
  pose proof (len_concat _ _ Hlens) as Hlen. assert (len group.*2 = len group) as Hl2 by (unfold len; by rewrite length_fmap).
  assert (len group.*1 = len group) as Hl1 by (unfold len; by rewrite length_fmap).
  assert (N.to_nat (len group * database_page_size d) = length (concat group.*2)) as Hnat.
  { rewrite Hl2 in Hlen. unfold len at 1 in Hlen. lia. }
  eapply lands_lift.
  { unfold read_exact. rewrite Hsrc. cbn [pending failure]. rewrite Hl1, len_app, (proj2 (N.leb_le _ _)) by (rewrite Hlen, Hl2; lia).
    by rewrite Hnat, take_app_length, drop_app_length. }
  cbv beta iota zeta. rewrite chunks_exact_concat by (lia || (eapply Forall_impl; [exact Hlens|]; unfold len; intros x Hx; cbn in Hx; lia)).
  unfold lands, mbind, stm_bind, put_pack_of.
  destruct (put_page_pack (concat group.*2) (storage_policy d) s) as [[w|e] s'] eqn:Hput;
    (pose proof (λ c q, pack_put_keeps _ _ _ _ _ c q Hput) as Hk); cbn; [|by exists (Err (Storage e)), s'; split_and!; [..|by left]].
  eexists (Ok _), s'. split; [done|]. split; [exact Hk|]. cbn. split; [done|].
  rewrite pack_mutations_refs by lia. exists (pgs ++ refs (database_page_size d) (pack_root w) 0 group). split; cbn.
  - by rewrite Hm, fmap_app.
  - by rewrite !fmap_app, Hn, refs_numbers.
  - intros pg [Hin|Hin]%elem_of_app; [by apply Hv|]. eapply refs_valid; [done|done|by eapply pack_put_codec|exact Hr| |exact Hin]. lia.
  - rewrite fmap_app. apply Forall2_app; [eapply Forall2_impl; [exact Hh|]; intros pg x; by apply holds_page_kept|].
    eapply (refs_hold s' _ _ _ _ []); [by eapply pack_put_get|done|done|done].
  - intros c. rewrite dom_insert_L, elem_of_union, elem_of_singleton, Hc. split.
    + intros [->|(pg & Hin & Hpg)]; [|exists pg; split; [apply elem_of_app; by left|done]].
      destruct group as [|[n b] group]; [done|]. eexists. split; [apply elem_of_app; right; by left|done].
    + intros (pg & [Hin|Hin]%elem_of_app & <-); [right; by exists pg|left; by eapply refs_pack].
Qed.

Lemma pack_groups_spec d groups : ∀ written p s pgs,
  database_ok limits d → packed_ok d written p s pgs →
  Forall (λ g : list (N * bytes), g ≠ [] ∧ (len g * database_page_size d ≤ max_pack_bytes limits)%N) groups →
  (∀ x, x ∈ concat groups → 0 < x.1 ≤ max_page_count limits)%N → Forall (λ b, len b = database_page_size d) (concat groups).*2 →
  dirty_source p = mkReader (concat (concat groups).*2) None →
  lands limits s (pack_groups d (fmap (M:=list) fst <$> groups) p) (λ p' s',
    dirty_source p' = mkReader [] None ∧ ∃ pgs', packed_ok d (written ++ concat groups) p' s' pgs').
Proof.
  induction groups as [|group groups IH]; intros written p s pgs Hd Hp Hg Hr Hlens Hsrc; cbn [pack_groups fmap list_fmap].
  { apply lands_ret. split; [done|]. exists pgs. by rewrite app_nil_r. }
  apply Forall_cons in Hg as [[Hne Hfit] Hg]. cbn in Hr, Hlens, Hsrc. rewrite fmap_app in Hlens, Hsrc. apply Forall_app in Hlens as [Hl1 Hl2].
  rewrite concat_app in Hsrc. eapply lands_bind.
  { eapply pack_group_spec; [done|done|done|done| |done|done]. intros x Hx. apply Hr, elem_of_app. by left. }
  intros p' s' Hk [Hsrc' [pgs' Hp']]. cbn [concat]. rewrite (assoc_L (++)). eapply (IH _ p' s' pgs'); [done|done|done| |done|done].
  intros x Hx. apply Hr, elem_of_app. by right.
Qed.

(** ** The new table *)

Lemma normalize_puts page_size pgs :
  check_page_size limits page_size = Ok () → (∀ pg, pg ∈ pgs → PageReference_validate pg page_size limits = Ok ()) →
  ∃ norm, normalize limits page_size (PutPage <$> pgs) = Ok norm.
Proof.
  intros Hs Hv. unfold normalize. rewrite Hs. cbn [mbind result_bind]. generalize (∅ : gmap N PageMutation).
  induction pgs as [|pg pgs IH]; intros out; cbn [fmap list_fmap try_foldl]; [by exists out|].
  pose proof (Hv pg ltac:(by left)) as Hpg. pose proof Hpg as (Hn & _)%page_valid_iff.
  cbn [mutation_number]. unfold validate_page_number. rewrite (proj2 (N.eqb_neq _ _)), (proj2 (N.ltb_ge _ _)) by lia.
  cbn. rewrite Hpg. cbn. apply IH. intros q Hq. apply Hv. by right.
Qed.

Definition table_after count m (pgs : list PageReference) : gmap N PageReference := pages_map pgs ∪ up_to count m.

Lemma foldl_puts_sorted m pgs : pages_sorted pgs → foldl mutate_page m (PutPage <$> pgs) = pages_map pgs ∪ m.
Proof. intros Hs. rewrite foldl_puts. f_equal. eapply pages_map_perm; [done..|]. apply reverse_Permutation. Qed.

(** The update has the pages and reports every new block. *)
Definition updated s root m count pgs (u : PageTableUpdate) s' : Prop :=
  table limits s' (new_root u) (table_after count m pgs) ∧
  ∀ ps cids ps' cids', inorder limits 3 [] s root ps cids → inorder limits 3 [] s' (new_root u) ps' cids' →
    ∀ c, c ∈ cids' → c ∈ written_nodes u ∨ c ∈ cids.

Lemma update_table_spec s d base m count pgs :
  database_ok limits d → table limits s (page_table_root_cid base) m → (∀ n pg, m !! n = Some pg → n ≤ snapshot_page_count base)%N →
  (snapshot_page_count base ≤ max_page_count limits)%N → pages_sorted pgs →
  (∀ pg, pg ∈ pgs → PageReference_validate pg (database_page_size d) limits = Ok ()) →
  lands limits s (update_table limits d base count (PutPage <$> pgs)) (updated s (page_table_root_cid base) m count pgs).
Proof.
  intros Hd Ht Hall Hc Hs Hv. pose proof (database_page_ok _ _ Hd) as Hsize. unfold update_table.
  eapply lands_bind with (P := λ u s', table limits s' (new_root u) (up_to count m) ∧
    ∀ ps cids ps' cids', inorder limits 3 [] s (page_table_root_cid base) ps cids → inorder limits 3 [] s' (new_root u) ps' cids' →
      ∀ c, c ∈ cids' → c ∈ written_nodes u ∨ c ∈ cids).
  - destruct (N.ltb_spec count (snapshot_page_count base)) as [Hlt|Hge].
    + destruct (table_truncate limits fits s _ m _ (snapshot_page_count base) count Ht Hsize ltac:(lia) Hall) as (r & s' & Hrun & Hk & HQ).
      apply yields_lands. exists r, s'. split_and!; [done..|]. destruct r as [u|e]; [|done]. split; [done|].
      intros ps cids ps' cids' Hin Hin'. by eapply (truncate_blocks limits fits s).
    + apply lands_ret. cbn. split; [|intros ps cids ps' cids' Hin Hin'; destruct (inorder_fun limits 3 _ _ _ _ _ _ _ Hin Hin') as [_ ->]; by right].
      rewrite up_to_all; [done|]. intros n pg Hn. specialize (Hall n pg Hn). lia.
  - intros u s1 Hk1 [Ht1 Hb1]. destruct pgs as [|pg pgs]; cbn [fmap list_fmap]; [rewrite bool_decide_eq_true_2 by done|rewrite bool_decide_eq_false_2 by done].
    { apply lands_ret. split; [|done]. unfold table_after, pages_map. cbn. by rewrite (left_id_L ∅ (∪)). }
    change (PutPage pg :: (PutPage <$> pgs)) with (PutPage <$> (pg :: pgs)). set (qs := pg :: pgs) in *.
    destruct (normalize_puts _ _ Hsize Hv) as [norm Hnorm].
    destruct (table_apply limits fits s1 (new_root u) _ _ _ norm Ht1 Hnorm) as (r & s2 & Hrun & Hk2 & HQ).
    eapply lands_bind; [apply yields_lands; exists r, s2; split_and!; [exact Hrun|done|]; instantiate (1 := λ u2 s', r = Ok u2 ∧ s' = s2); by destruct r|].
    intros u2 ? _ [-> ->]. apply lands_ret. split; cbn.
    + rewrite foldl_puts_sorted in HQ by done. exact HQ.
    + intros ps cids ps' cids' Hin Hin' c Hcc. destruct (table_inorder limits fits _ _ _ Ht1) as (ps1 & cids1 & Hin1 & _).
      rewrite elem_of_app. destruct (apply_blocks limits fits _ _ _ _ _ _ _ _ _ _ _ Ht1 Hrun Hk2 Hin1 Hin' c Hcc) as [?|Hc1]; [tauto|].
      destruct (Hb1 _ _ _ _ Hin Hin1 c Hc1); tauto.
Qed.

(** ** The new image *)

(** The dirty pages over the old ones, up to the new count. *)
Definition patched (imgs : list bytes) (dirty : list (N * bytes)) (count : N) : list bytes :=
  (λ i, default (default [] (imgs !! i)) ((list_to_map dirty : gmap N bytes) !! (N.of_nat i + 1)%N)) <$> seq 0 (N.to_nat count).

Lemma patched_len imgs dirty count : len (patched imgs dirty count) = count.
Proof. unfold patched, len. rewrite length_fmap, length_seq. lia. Qed.

Lemma patched_lookup imgs dirty count n b :
  (0 < n)%N → patched imgs dirty count !! N.to_nat (n - 1) = Some b →
  b = default (default [] (imgs !! N.to_nat (n - 1))) ((list_to_map dirty : gmap N bytes) !! n).
Proof.
  intros Hn. unfold patched. rewrite list_lookup_fmap. intros (i & [-> Hi]%lookup_seq & ->)%fmap_Some. cbn [Nat.add].
  by replace (N.of_nat (N.to_nat (n - 1)) + 1)%N with n by lia.
Qed.

Lemma sorted_numbers pgs : StronglySorted N.lt (page_number <$> pgs) → pages_sorted pgs.
Proof.
  induction pgs as [|pg pgs IH]; cbn; intros Hs; [constructor|]. apply StronglySorted_inv in Hs as [Hs Hlt].
  constructor; [by apply IH|]. by rewrite Forall_fmap in Hlt.
Qed.

Lemma sorted_nodup (l : list N) : StronglySorted N.lt l → NoDup l.
Proof.
  induction 1 as [|x l _ IH Hx]; [constructor|]. constructor; [|done]. intros Hin. rewrite Forall_forall in Hx. specialize (Hx x Hin). lia.
Qed.

(** A packed page and its contents. *)
Lemma packed_page d dirty p s pgs pg :
  packed_ok d dirty p s pgs → NoDup dirty.*1 → pg ∈ pgs →
  ∃ b, (list_to_map dirty : gmap N bytes) !! page_number pg = Some b ∧ holds_page s pg b.
Proof.
  intros [_ Hn _ Hh _] Hnd [j Hj]%list_elem_of_lookup. destruct (Forall2_lookup_l _ _ _ _ _ Hh Hj) as (b & Hb & Hpb).
  exists b. split; [|done]. apply elem_of_list_to_map_1; [done|]. apply (list_elem_of_lookup_2 _ j).
  apply (f_equal (lookup j)) in Hn. rewrite !list_lookup_fmap, Hj in Hn. rewrite list_lookup_fmap in Hb.
  destruct (dirty !! j) as [[n b']|]; cbn in Hn, Hb; [|done]. by simplify_eq.
Qed.

Lemma packed_missing d dirty p s pgs n :
  packed_ok d dirty p s pgs → (list_to_map dirty : gmap N bytes) !! n = None ↔ ¬ ∃ pg, pg ∈ pgs ∧ page_number pg = n.
Proof.
  intros [_ Hn _ _ _]. rewrite <-not_elem_of_list_to_map, <-Hn, list_elem_of_fmap. naive_solver.
Qed.

Lemma image_after s' root m imgs d dirty p pgs count :
  dense limits (database_page_size d) (len imgs) m →
  (∀ n pg b, m !! n = Some pg → imgs !! N.to_nat (n - 1) = Some b → holds_page s' pg b) →
  packed_ok d dirty p s' pgs → StronglySorted N.lt dirty.*1 → (∀ n, n ∈ dirty.*1 → 0 < n ≤ count)%N →
  (∀ n, len imgs < n ≤ count → n ∈ dirty.*1)%N → table limits s' root (table_after count m pgs) →
  image limits s' root (database_page_size d) (patched imgs dirty count) (table_after count m pgs).
Proof.
  intros [Hdom Hval] Hold Hp Hsort Hrange Hcover Ht. pose proof (packed_numbers _ _ _ _ _ Hp) as Hnum.
  assert (pages_sorted pgs) as Hs by (apply sorted_numbers; by rewrite Hnum).
  pose proof (λ n pg, lookup_pages_map limits fits pgs n pg Hs) as Hm.
  assert (∀ n, n ∈ dirty.*1 ↔ ∃ pg, pg ∈ pgs ∧ page_number pg = n) as Hin.
  { intros n. rewrite <-Hnum, list_elem_of_fmap. naive_solver. }
  assert (∀ n pg, table_after count m pgs !! n = Some pg ↔
    (pg ∈ pgs ∧ page_number pg = n) ∨ n ∉ dirty.*1 ∧ (n ≤ count)%N ∧ m !! n = Some pg) as Hlook.
  { intros n pg. unfold table_after. rewrite lookup_union_Some_raw, Hm, lookup_up_to, Hin.
    assert (pages_map pgs !! n = None ↔ ¬ ∃ pg, pg ∈ pgs ∧ page_number pg = n) as ->.
    { rewrite eq_None_not_Some. unfold is_Some. by setoid_rewrite Hm. }
    destruct (decide (n ≤ count)%N); naive_solver. }
  split; [done| |].
  - rewrite patched_len. split.
    + intros n. split.
      * intros [pg [[Hpg <-]|(_ & Hle & Hn)]%Hlook]; [apply Hrange, Hin; eauto|].
        assert (0 < n ≤ len imgs)%N by (apply Hdom; eauto). lia.
      * intros Hn. destruct (decide (n ∈ dirty.*1)) as [Hd|Hd]; [apply Hin in Hd as (pg & Hpg); exists pg; apply Hlook; by left|].
        assert (is_Some (m !! n)) as [pg Hpg].
        { apply Hdom. destruct (decide (n ≤ len imgs)%N); [lia|]. destruct Hd. apply Hcover. lia. }
        exists pg. apply Hlook. right. split_and!; [done|lia|done].
    + intros n pg [[Hpg _]|(_ & _ & Hn)]%Hlook; [by eapply packed_valid|by eapply Hval].
  - intros n pg b Hn Hb. apply Hlook in Hn as [[Hpg <-]|(Hd & Hle & Hn)].
    + assert (0 < page_number pg)%N by (assert (page_number pg ∈ dirty.*1) as Hr by (apply Hin; eauto); specialize (Hrange _ Hr); lia).
      destruct (packed_page _ _ _ _ _ _ Hp (sorted_nodup _ Hsort) Hpg) as (b' & Hb' & Hh).
      apply patched_lookup in Hb; [|done]. rewrite Hb' in Hb. cbn in Hb. by subst.
    + assert (0 < n ≤ len imgs)%N as Hr by (apply Hdom; eauto). apply patched_lookup in Hb; [|lia].
      rewrite (proj2 (packed_missing _ _ _ _ _ n Hp)) in Hb by (by rewrite <-Hin). cbn in Hb.
      destruct (lookup_lt_is_Some_2 imgs (N.to_nat (n - 1))) as [b' Hb']; [unfold len in Hr; lia|]. rewrite Hb' in Hb. cbn in Hb. subst.
      by eapply Hold.
Qed.

(** ** The whole transaction *)

Lemma in_order_ok count numbers : ∀ prior,
  StronglySorted N.lt numbers → (∀ n, n ∈ numbers → 0 < n ≤ count)%N → (∀ q n, prior = Some q → n ∈ numbers → q < n)%N →
  out_of_order count prior numbers = false.
Proof.
  induction numbers as [|n numbers IH]; intros prior Hs Hr Hp; [done|]. apply StronglySorted_inv in Hs as [Hs Hlt]. cbn.
  pose proof (Hr n ltac:(by left)) as Hn. rewrite (proj2 (N.eqb_neq _ _)), (proj2 (N.ltb_ge _ _)) by lia. cbn [orb].
  assert (is_some_and (λ prior, (n <=? prior)%N) prior = false) as ->.
  { destruct prior as [q|]; [|done]. cbn. apply N.leb_gt, (Hp q n eq_refl). by left. }
  apply IH; [done|intros k Hk; apply Hr; by right|]. intros q k [= <-] Hk. by eapply Forall_forall in Hlt.
Qed.

(** A transaction that fits its base: the dirty pages are in order, of page size, and
    include all pages by which the database grows. *)
Record transaction_ok s (dbcid : Cid) (d : DatabaseDescriptor) (basecid : Cid) (base : SnapshotDescriptor) (dirty : list (N * bytes))
    (size : N) (imgs : list bytes) m : Prop := {
  transaction_database : DatabaseDescriptor_validate d limits = Ok ();
  transaction_base : SnapshotDescriptor_validate base limits = Ok ();
  transaction_codecs : codec dbcid = CODEC_SQLITE_DATABASE ∧ codec basecid = CODEC_SQLITE_SNAPSHOT;
  transaction_same : database_cid base = dbcid ∧ snapshot_page_size base = database_page_size d;
  transaction_size : (size ≤ max_logical_bytes limits)%N ∧ (size mod database_page_size d = 0)%N;
  transaction_count : (size / database_page_size d ≤ database_max_page_count d)%N;
  transaction_image : image limits s (page_table_root_cid base) (database_page_size d) imgs m ∧ snapshot_page_count base = len imgs;
  transaction_some : dirty ≠ [] ∨ (size / database_page_size d)%N ≠ len imgs;
  transaction_sorted : StronglySorted N.lt dirty.*1;
  transaction_range n : n ∈ dirty.*1 → (0 < n ≤ size / database_page_size d)%N;
  transaction_pages : Forall (λ b, len b = database_page_size d) dirty.*2;
  transaction_growth n : (len imgs < n ≤ size / database_page_size d)%N → n ∈ dirty.*1
}.

(** The packs of a table. *)
Definition in_pack m (c : Cid) : Prop := ∃ n pg, m !! n = Some pg ∧ pack_cid pg = c.

(** The new snapshot: its descriptor is stored, its table has the image, and the
    reported blocks and packs are the new ones, all of them. *)
Record committed s dbcid (d : DatabaseDescriptor) basecid (base : SnapshotDescriptor) (size : N) (imgs : list bytes) m m'
    (r : IncrementalSnapshot) : Prop := {
  committed_descriptor : incremental_descriptor r =
    descriptor_of dbcid (page_table_root_cid (incremental_descriptor r)) (database_page_size d) (size / database_page_size d) size (Some basecid);
  committed_valid : SnapshotDescriptor_validate (incremental_descriptor r) limits = Ok ();
  committed_stored : stored_snapshot s (incremental_cid r) (incremental_descriptor r);
  committed_image : image limits s (page_table_root_cid (incremental_descriptor r)) (database_page_size d) imgs m';
  committed_nodes ps cids ps' cids' c :
    inorder limits 3 [] s (page_table_root_cid base) ps cids →
    inorder limits 3 [] s (page_table_root_cid (incremental_descriptor r)) ps' cids' →
    c ∈ incremental_nodes r ↔ c ∈ cids' ∧ c ∉ cids;
  committed_packs c : c ∈ incremental_packs r ↔ in_pack m' c ∧ ¬ in_pack m c
}.

Lemma elem_of_pages_map pgs n pg : pages_map pgs !! n = Some pg → pg ∈ pgs.
Proof. intros Hin%elem_of_list_to_map_2. by apply list_elem_of_fmap in Hin as (q & [= _ ->] & ?). Qed.

Lemma groups_ok (d : DatabaseDescriptor) (dirty : list (N * bytes)) (n := N.to_nat (page_pack_target_bytes d / database_page_size d)) :
  database_ok limits d →
  concat (chunks (length dirty) n dirty) = dirty ∧
  Forall (λ g : list (N * bytes), g ≠ [] ∧ (len g * database_page_size d ≤ max_pack_bytes limits)%N) (chunks (length dirty) n dirty).
Proof.
  intros [Hsz _ _ [Ht1 Ht2] Hev].
  assert (0 < n) as Hn by (unfold n; pose proof (N.div_str_pos (page_pack_target_bytes d) (database_page_size d)); lia).
  split; [by apply concat_chunks|]. assert (∀ rounds l, Forall (λ g : list (N * bytes), g ≠ []) (chunks rounds n l)) as Hne.
  { induction rounds as [|rounds IH]; intros l; [by destruct l; constructor|]. destruct l as [|x l]; [constructor|].
    cbn [chunks]. constructor; [|apply IH]. destruct n; [lia|done]. }
  pose proof (chunks_bound n (length dirty) dirty) as Hb. specialize (Hne (length dirty) dirty). rewrite Forall_forall in Hb, Hne.
  apply Forall_forall. intros g Hg. split; [by apply Hne|]. specialize (Hb g Hg). cbn in Hb. unfold n in Hb.
  apply N.Div0.div_exact in Hev. unfold len. nia.
Qed.

Lemma commit_lands s s1 dbcid d basecid base dirty size imgs m p pgs :
  transaction_ok s dbcid d basecid base dirty size imgs m → kept s s1 → packed_ok d dirty p s1 pgs →
  lands limits s1 (commit_pages limits dbcid d basecid base (size / database_page_size d) size p)
    (λ r s', ∃ m', committed s' dbcid d basecid base size (patched imgs dirty (size / database_page_size d)) m m' r).
Proof.
  intros [Hv Hvb [Hdb Hbc] [Hsame Hps] [Hsize Heven] Hcount [Him Hbcount] Hsome Hsort Hrange Hlens Hgrow] Hk1 Hp.
  pose proof (database_valid limits d Hv) as Hd. pose proof (database_count _ _ Hd) as Hdc. unfold commit_pages. cbv zeta.
  set (count := (size / database_page_size d)%N) in *.
  pose proof (image_kept _ _ _ _ _ _ _ Hk1 Him) as [Ht1 Hden1 Hold1].
  assert (len imgs ≤ max_page_count limits)%N as Hcb by (rewrite <-Hbcount; by eapply snapshot_count).
  destruct (validate_passes limits fits s1 _ m _ (len imgs) Ht1 Hden1 (database_page_ok _ _ Hd) Hcb) as (v & ps & cids & Hval & Hin & _ & Hnodes & Hpacks).
  eapply lands_reads; [rewrite Hbcount; exact Hval|]. rewrite (packed_mutations _ _ _ _ _ Hp). eapply lands_bind.
  { eapply (update_table_spec s1 d base m count pgs Hd Ht1).
    - intros n pg Hn. rewrite Hbcount. apply (dense_dom _ _ _ _ Hden1). eauto.
    - by rewrite Hbcount.
    - apply sorted_numbers. by rewrite (packed_numbers _ _ _ _ _ Hp).
    - by apply Hp. }
  intros u s2 Hk2 [Ht2 Hblocks].
  assert (packed_ok d dirty p s2 pgs) as Hp2.
  { destruct Hp. split; try done. eapply Forall2_impl; [eassumption|]. intros pg x. by apply holds_page_kept. }
  assert (image limits s2 (new_root u) (database_page_size d) (patched imgs dirty count) (table_after count m pgs)) as Him2.
  { eapply image_after; [exact Hden1| |exact Hp2|done|done|done|done]. intros n pg b Hn Hb. eapply holds_page_kept; [done|by eapply Hold1]. }
  pose proof (image_dense _ _ _ _ _ _ Him2) as Hden2. rewrite patched_len in Hden2.
  destruct (validate_passes limits fits s2 _ _ _ count Ht2 Hden2 (database_page_ok _ _ Hd) ltac:(lia)) as (v2 & ps2 & cids2 & Hval2 & Hin2 & _ & Hnodes2 & Hpacks2).
  eapply lands_reads; [exact Hval2|].
  eapply lands_bind; [apply put_snapshot_lands, (snapshot_valid limits d); try done; [| |lia|]|].
  { destruct Ht2 as (node & Hg & _). by eapply get_node_codec. }
  { by intros c [= <-]. }
  { apply N.Div0.div_exact in Heven. unfold count. lia. }
  intros cid s3 Hk3 Hst. apply lands_ret. exists (table_after count m pgs). split; cbn; try done.
  - apply (snapshot_valid limits d); try done; [|by intros c [= <-]|lia|apply N.Div0.div_exact in Heven; unfold count; lia].
    destruct Ht2 as (node & Hg & _). by eapply get_node_codec.
  - by eapply image_kept.
  - intros qs ks qs' ks' c Hq Hq'. rewrite elem_of_dedup, sort_cids_perm, list_elem_of_filter, !elem_of_list_to_set, Hnodes, Hnodes2.
    assert (kept s1 s3) as Hk13 by (by etrans).
    destruct (inorder_fun limits 3 _ _ _ _ _ _ _ (inorder_kept limits _ _ _ _ _ _ _ Hk13 Hin) Hq) as [_ <-].
    destruct (inorder_fun limits 3 _ _ _ _ _ _ _ (inorder_kept limits _ _ _ _ _ _ _ Hk3 Hin2) Hq') as [_ <-].
    split; [tauto|]. intros [Hc2 Hc]. split; [done|]. destruct (Hblocks _ _ _ _ Hin Hin2 c Hc2); [done|tauto].
  - intros c. rewrite sort_cids_perm, list_elem_of_filter, !elem_of_list_to_set, elem_of_elements, Hpacks, Hpacks2, (packed_created _ _ _ _ _ Hp2).
    fold (in_pack m c) (in_pack (table_after count m pgs) c). split; [tauto|]. intros [Hc2 Hc]. split; [done|].
    destruct Hc2 as (n & pg & Hn & Hpg). unfold table_after in Hn. apply lookup_union_Some_raw in Hn as [Hn|[_ Hn]].
    + exists pg. split; [|done]. apply (elem_of_pages_map pgs n pg Hn).
    + destruct Hc. exists n, pg. rewrite lookup_up_to in Hn. by destruct (decide _).
Qed.

Lemma transaction_lands s dbcid d basecid base dirty size imgs m :
  transaction_ok s dbcid d basecid base dirty size imgs m →
  lands limits s (build_incremental_snapshot_stream limits dbcid d basecid base dirty.*1 (mkReader (concat dirty.*2) None) size)
    (λ r s', ∃ m', committed s' dbcid d basecid base size (patched imgs dirty (size / database_page_size d)) m m' r).
Proof.
  intros Hok. pose proof Hok as [Hv Hvb [Hdb Hbc] [Hsame Hps] [Hsize Heven] Hcount [Him Hbcount] Hsome Hsort Hrange Hlens Hgrow].
  pose proof (database_valid limits d Hv) as Hd. pose proof (database_count _ _ Hd) as Hdc. pose proof (database_size _ _ Hd) as Hsz.
  unfold build_incremental_snapshot_stream. eapply lands_lift; [exact Hv|]. eapply lands_lift; [exact Hvb|].
  eapply lands_lift.
  { by rewrite Hdb, Hbc, Hps, Heven, !N.eqb_refl, (proj2 (N.ltb_ge _ _)), bool_decide_eq_true_2 by done. }
  eapply lands_lift; [unfold bounded_page_count; by rewrite !(proj2 (N.ltb_ge _ _)) by lia|].
  set (count := (size / database_page_size d)%N) in *. apply (lands_lift _ _ _ ()).
  { apply fail_if_Ok, andb_false_iff. rewrite Hbcount. destruct Hsome as [Hne|Hne]; [left|right; by apply N.eqb_neq].
    apply bool_decide_eq_false. intros Hnil%fmap_nil_inv. done. }
  apply (lands_lift _ _ _ ()); [apply fail_if_Ok, in_order_ok; [done|done|by intros]|]. cbv zeta.
  destruct (groups_ok d dirty Hd) as [Hcat Hgroups]. rewrite length_fmap, chunks_fmap.
  eapply lands_bind.
  { eapply (pack_groups_spec d _ [] _ s []); [done| |done| | |by rewrite Hcat].
    - split; cbn; [done|done|by intros pg ?%elem_of_nil|constructor|]. intros c. rewrite dom_empty_L. set_solver.
    - rewrite Hcat. intros x Hx. assert (x.1 ∈ dirty.*1) as Hx1 by (apply list_elem_of_fmap; eauto). specialize (Hrange _ Hx1). lia.
    - by rewrite Hcat. }
  rewrite Hcat. intros p s1 Hk1 [Hsrc [pgs Hp]]. eapply lands_lift; [by rewrite Hsrc|]. eapply lands_lift; [done|]. by eapply commit_lands.
Qed.

(** C20: a transaction of dirty pages.  Over a base that stores an image it gives a
    snapshot that is exported as that image with the dirty pages in place and cut or
    grown to the new size, unless the store refuses; the base is still exported as
    before; the descriptor names the base and is stored under its own identifier; the
    blocks reported are those of the new table that the old one does not have, all of
    them, and the packs reported those of the new table that the old one does not
    use. *)
Theorem transaction_exports s dbcid d basecid base dirty size imgs m :
  transaction_ok s dbcid d basecid base dirty size imgs m →
  lands limits s (build_incremental_snapshot_stream limits dbcid d basecid base dirty.*1 (mkReader (concat dirty.*2) None) size)
    (λ r s',
      export_snapshot limits s' (incremental_descriptor r) [] = (Ok (), concat (patched imgs dirty (size / database_page_size d))) ∧
      export_snapshot limits s' base [] = (Ok (), concat imgs) ∧
      base_snapshot_cid (incremental_descriptor r) = Some basecid ∧ stored_snapshot s' (incremental_cid r) (incremental_descriptor r) ∧
      ∃ m' ps cids ps' cids',
        image limits s' (page_table_root_cid (incremental_descriptor r)) (database_page_size d) (patched imgs dirty (size / database_page_size d)) m' ∧
        inorder limits 3 [] s' (page_table_root_cid base) ps cids ∧
        inorder limits 3 [] s' (page_table_root_cid (incremental_descriptor r)) ps' cids' ∧
        (∀ c, c ∈ incremental_nodes r ↔ c ∈ cids' ∧ c ∉ cids) ∧
        ∀ c, c ∈ incremental_packs r ↔ in_pack m' c ∧ ¬ in_pack m c).
Proof.
  intros Hok. destruct (transaction_lands s dbcid d basecid base dirty size imgs m Hok) as (r & s' & Hrun & Hk & HQ).
  exists r, s'. split_and!; [done..|]. destruct r as [r|e]; [|done]. destruct HQ as (m' & [Hd Hv Hst Him Hnodes Hpacks]).
  destruct Hok as [_ Hvb _ [_ Hps] _ _ [Himb Hcb] _ _ _ _ _]. apply (image_kept _ _ _ _ _ _ _ Hk) in Himb.
  destruct (image_inorder limits Hmax _ _ _ _ _ Himb) as (ps & cids & Hin & _).
  destruct (image_inorder limits Hmax _ _ _ _ _ Him) as (ps' & cids' & Hin' & _).
  assert (snapshot_page_size (incremental_descriptor r) = database_page_size d) as Hps' by (by rewrite Hd).
  split_and!; [|by eapply (export_image limits Hmax s' base imgs m []); [|rewrite Hps|]|by rewrite Hd|done|].
  - eapply (export_image limits Hmax s' _ _ m' []); [done|by rewrite Hps'|]. rewrite patched_len. by rewrite Hd.
  - exists m', ps, cids, ps', cids'. split_and!; [done..| |done]. intros c. by eapply Hnodes.
Qed.

End Transactions.
