(* ===== verification/SqliteImageExamples.v ===== *)
(** * Images at work

    A small database image imported and exported, a transaction on an empty database,
    and a transaction whose pages have the wrong sizes. *)
From stdpp Require Import base gmap sets list strings sorting.
From Stdlib Require Import Strings.Byte.
From S2P Require Import Prelude Types Merkle Reference Dataset SqlitePages SqlitePagesFacts SqlitePageTable SqliteBulk SqliteExamples.
From S2P Require Import SqliteInorder SqliteSnapshot SqliteImages SqliteImport SqliteTransaction.

#[local] Existing Instances ref_blake3 ref_blake3_laws ref_hex ref_store ref_store_laws SqliteExamples.node_json SqliteExamples.node_json_laws.

#[local] Instance Descriptor_ser : Ser SnapshotDescriptor.
Proof.
  refine (inj_ser (λ d, (snapshot_type d, snapshot_version d, database_cid d, page_table_root_cid d, snapshot_page_size d,
                         snapshot_page_count d, logical_size d, base_snapshot_cid d))
            (λ '(t, v, c, r, s, n, l, b), mkSnapshotDescriptor t v c r s n l b) _).
  by intros [].
Defined.
#[local] Instance descriptor_json : Json SnapshotDescriptor := ref_json.

(** Packs as small objects. *)
#[local] Instance small_packs : PagePackStore (gmap Cid bytes) := {|
  put_page_pack b _ := λ s, let '(r, s') := store_put CODEC_SMALL_OBJECT b s in
    (match r with Ok c => Ok (mkPackWrite c []) | Err e => Err e end, s');
  get_page_pack := store_get
|}.

#[local] Instance small_packs_laws : PagePackStoreLaws (gmap Cid bytes).
Proof.
  split; unfold put_page_pack, get_page_pack, small_packs.
  - intros s b policy w s'. destruct (store_put CODEC_SMALL_OBJECT b s) as [[c|e] s1] eqn:Hp; intros [[= <-] <-]%pair_eq. by eapply put_get.
  - intros s b policy r s' c q. destruct (store_put CODEC_SMALL_OBJECT b s) as [[k|e] s1] eqn:Hp; intros [_ <-]%pair_eq; by eapply put_keeps.
  - intros s s' c b Hk. apply Hk.
  - intros s b policy w s'. cbn. destruct (s !! Cid_new CODEC_SMALL_OBJECT b) as [q|]; [destruct (decide (b = q))|];
      intros [[= <-] <-]%pair_eq; by left.
Qed.

Definition small : DatabaseDescriptor :=
  DatabaseDescriptor_new 512 16 1024 (ReplicatedPages 1) (mkCacheBounds 512 4096) 1 "test".
Definition small_cid : Cid := Cid_new CODEC_SQLITE_DATABASE [x01].

(** The header of a clean database of three pages of 512 bytes. *)
Definition header : bytes :=
  SQLITE_HEADER ++ [x02; x00; x01; x01; x00; x00; x00; x00] ++ be_bytes 4 7 ++ be_bytes 4 3 ++ replicate 12 x00 ++ be_bytes 4 4
  ++ replicate 44 x00 ++ be_bytes 4 7 ++ replicate 4 x00.
Definition file : bytes := header ++ replicate 412 x0a ++ replicate 512 x0b ++ replicate 512 x0c.

Lemma pages_fit : (max_page_count limits < u32_max)%N.
Proof. by vm_compute. Qed.
Lemma packs_fit : (max_pack_bytes limits ≤ u32_max)%N.
Proof. by vm_compute. Qed.

Lemma import_export_witness :
  lands limits ∅ (import_snapshot limits (mkReader file None) (len file) small_cid small None) (λ r s',
    export_snapshot limits s' (imported_descriptor r) [] = (Ok (), file)).
Proof.
  destruct (import_export limits pages_fit packs_fit ∅ file small_cid small None) as (r & s' & Hrun & Hk & HQ);
    [vm_compute; reflexivity|vm_compute; reflexivity|done|vm_compute; discriminate|vm_compute; reflexivity|vm_compute; discriminate|
     left; vm_compute; reflexivity|].
  exists r, s'. split; [exact Hrun|]. split; [exact Hk|]. destruct r as [r|e]; [|exact HQ]. destruct HQ as (_ & _ & HQ). apply HQ. by intros c b.
Defined.

(** ** A transaction on an empty database *)

Definition empty_base : SnapshotDescriptor := mkSnapshotDescriptor SNAPSHOT_TYPE 1 small_cid empty.1 512 0 0 None.
Definition base_cid : Cid := Cid_new CODEC_SQLITE_SNAPSHOT [x02].
Definition first_pages : list (N * bytes) := [(1, replicate 512 x0a); (2, replicate 512 x0b); (3, replicate 512 x0c)]%N.

Lemma empty_image : image limits empty.2 empty.1 512 [] ∅.
Proof.
  destruct (empty_root_table limits limits_fit built.2) as (r & s' & Hrun & _ & Ht). rewrite empty_ok in Hrun.
  apply pair_eq in Hrun as [<- <-]. split; [exact Ht| |by intros n pg b; rewrite lookup_empty].
  split; [|by intros n pg; rewrite lookup_empty]. intros n. split; [intros [pg Hpg]; by rewrite lookup_empty in Hpg|]. unfold len. cbn. lia.
Qed.

Lemma first_transaction : transaction_ok limits empty.2 small_cid small base_cid empty_base first_pages 1536 [] ∅.
Proof.
  assert (1536 / database_page_size small = 3)%N as H3 by done. split.
  - vm_compute. reflexivity.
  - vm_compute. reflexivity.
  - split; vm_compute; reflexivity.
  - split; reflexivity.
  - split; vm_compute; [discriminate|reflexivity].
  - rewrite H3. vm_compute. discriminate.
  - split; [exact empty_image|reflexivity].
  - left. discriminate.
  - repeat constructor.
  - rewrite H3. cbn. intros n Hn. rewrite !elem_of_cons, elem_of_nil in Hn. lia.
  - repeat constructor.
  - rewrite H3. intros n Hn. unfold len in Hn. cbn in Hn |- *. rewrite !elem_of_cons. lia.
Qed.

Lemma transaction_exports_witness :
  lands limits empty.2 (build_incremental_snapshot_stream limits small_cid small base_cid empty_base first_pages.*1
      (mkReader (concat first_pages.*2) None) 1536)
    (λ r s', export_snapshot limits s' (incremental_descriptor r) [] = (Ok (), concat first_pages.*2)).
Proof.
  destruct (transaction_exports limits pages_fit packs_fit empty.2 small_cid small base_cid empty_base first_pages 1536 [] ∅
              first_transaction) as (r & s' & Hrun & Hk & HQ).
  exists r, s'. split; [exact Hrun|]. split; [exact Hk|]. destruct r as [r|e]; [|exact HQ]. destruct HQ as [HQ _].
  assert (concat (patched [] first_pages (1536 / database_page_size small)) = concat first_pages.*2) as Heq by (vm_compute; reflexivity).
  rewrite Heq in HQ. exact HQ.
Defined.

(** Pages that are one byte too short and one byte too long are taken as long as the
    sum is right, and the second page is then not the one that was given. *)
Definition uneven : list DirtyPage := [mkDirty 1 (replicate 511 x0a); mkDirty 2 (replicate 513 x0b)].
Definition uneven_run : result SqliteError IncrementalSnapshot * gmap Cid bytes :=
  build_incremental_snapshot limits small_cid small base_cid empty_base uneven 1024 empty.2.

Lemma uneven_pages_taken :
  match uneven_run with
  | (Ok r, s) => bool_decide ((export_snapshot limits s (incremental_descriptor r) []).2 = replicate 511 x0a ++ replicate 513 x0b)
  | _ => false
  end = true.
Proof. vm_compute. reflexivity. Qed.
