(* ===== verification/SqliteProof.v ===== *)
(** * Evidence for publishing a snapshot (crates/pepper-sqlite/src/proof.rs)

    The agent builds the proof after a page-table update, from what was written and
    the receipts of the storage backends.  A proof that is accepted covers exactly the
    new blocks of the snapshot; one for a truncation without dirty pages never is. *)
From stdpp Require Import base gmap sets list strings sorting.
From S2P Require Import Prelude Types Merkle SqlitePages Dataset DatasetFacts.

(** [SnapshotDescriptor::dataset_root] *)
Definition dataset_root (d : SnapshotDescriptor) (generation : N) : DatasetRoot :=
  mkDatasetRoot "sqlite" (snapshot_version d) generation (FixedFanout 256 4) (page_table_root_cid d) (base_snapshot_cid d) (logical_size d).

Record IncrementalProofInput := mkProofInput {
  protected_base_snapshot : Cid;
  protected_base_generation : N;
  protected_base_descriptor : SnapshotDescriptor;
  new_snapshot : Cid;
  new_snapshot_descriptor : SnapshotDescriptor;
  new_page_table_nodes : list Cid;
  new_page_pack_roots : list Cid;
  proof_descendants : list Cid;
  changed_page_count : N;
  durability_receipts : list DurabilityReceipt;
  builder_identity : string
}.

Record IncrementalDurabilityProof := mkProof {
  proven_base : Cid;
  proven_snapshot : Cid;
  proven_nodes : list Cid;
  proven_packs : list Cid;
  proven_descendants : list Cid;
  proven_receipts : list DurabilityReceipt;
  proven_builder : string
}.

(** The page table's root differs from the base's. *)
Definition root_changed (i : IncrementalProofInput) : bool :=
  negb (bool_decide (page_table_root_cid (new_snapshot_descriptor i) = page_table_root_cid (protected_base_descriptor i))).

Definition proof_artifact (i : IncrementalProofInput) : PreparedDatasetArtifact :=
  mkArtifact (mkExactBase (protected_base_generation i) (protected_base_snapshot i)) (new_snapshot i)
    (dataset_root (new_snapshot_descriptor i) (saturating_add u64_max (protected_base_generation i) 1))
    (mkMutationFrontier (if root_changed i then changed_page_count i else 0) 4
       (page_table_root_cid (new_snapshot_descriptor i)) (new_page_table_nodes i) (new_page_pack_roots i) (proof_descendants i)).

Definition validate_cid_list (cids : list Cid) (allowed : Cid → bool) (name : string) : result SqliteError unit :=
  let e := Invalid (name +:+ " contain duplicate or invalid CIDs") in
  _ ← try_foldl (λ (seen : gset Cid) cid,
        _ ← fail_if (negb (allowed cid) || bool_decide (cid ∈ seen)) e; Ok ({[cid]} ∪ seen)) ∅ cids;
  Ok ().

Section Build.
Context `{Blake3} `{Hex} `{Json SnapshotDescriptor}.

(** The order in which a [HashSet] is walked is not specified: it only decides which
    of several errors is reported. *)
Context (hash_order : gset Cid → list Cid).

Definition verify_descriptor_cid (d : SnapshotDescriptor) (expected : Cid) (limits : SqliteFormatLimits) : result SqliteError unit :=
  payload ← encode_canonical d (max_descriptor_bytes limits);
  fail_if (negb (bool_decide (Cid_new CODEC_SQLITE_SNAPSHOT payload = expected)))
    (Invalid "snapshot CID does not match its canonical descriptor").

Definition required_replicas_of (required_replicas : N) (r : DurabilityReceipt) : N :=
  if is_some_and (λ p, bool_decide (role p = ErasureShardRole)) (receipt_placement r) then 1 else required_replicas.

Definition check_receipt (required_replicas : N) (receipts : gmap Cid DurabilityReceipt) (cid : Cid) : result SqliteError unit :=
  receipt ← ok_or (receipts !! cid) (Invalid ("missing durability receipt for " +:+ Cid_to_string cid));
  let replicas := required_replicas_of required_replicas receipt in
  fail_if (negb (receipt_codec receipt =? codec cid)%N || negb (bool_decide (receipt_status receipt = "durable"))
           || (replicas_accepted receipt <? replicas)%N || (len (replica_nodes receipt) <? replicas)%N)
    (Invalid ("invalid durability receipt for " +:+ Cid_to_string cid)).

(** Collecting into a [HashMap]: the last receipt of a block counts. *)
Definition receipts_by_cid (l : list DurabilityReceipt) : gmap Cid DurabilityReceipt :=
  foldl (λ m r, <[receipt_cid r := r]> m) ∅ l.

Definition check_header (i : IncrementalProofInput) (required_replicas : N) : result SqliteError unit :=
  fail_if ((required_replicas =? 0)%N || bool_decide (builder_identity i = "") || (1024 <? slen (builder_identity i))%N
           || negb (codec (protected_base_snapshot i) =? CODEC_SQLITE_SNAPSHOT)%N
           || negb (codec (new_snapshot i) =? CODEC_SQLITE_SNAPSHOT)%N
           || bool_decide (protected_base_snapshot i = new_snapshot i))
    (Invalid "invalid incremental durability proof header").

Definition check_base (i : IncrementalProofInput) : result SqliteError unit :=
  let d := new_snapshot_descriptor i in
  let b := protected_base_descriptor i in
  fail_if (negb (bool_decide (base_snapshot_cid d = Some (protected_base_snapshot i)))
           || negb (bool_decide (database_cid d = database_cid b)) || negb (snapshot_page_size d =? snapshot_page_size b)%N)
    (Invalid "new snapshot is not based on the protected database snapshot").

Definition proof_build (i : IncrementalProofInput) (required_replicas : N) (limits : SqliteFormatLimits)
    : result SqliteError IncrementalDurabilityProof :=
  _ ← check_header i required_replicas;
  _ ← SnapshotDescriptor_validate (protected_base_descriptor i) limits;
  _ ← SnapshotDescriptor_validate (new_snapshot_descriptor i) limits;
  _ ← verify_descriptor_cid (protected_base_descriptor i) (protected_base_snapshot i) limits;
  _ ← verify_descriptor_cid (new_snapshot_descriptor i) (new_snapshot i) limits;
  _ ← check_base i;
  _ ← map_err (λ e, Invalid (DatasetError_to_string e)) (PreparedDatasetArtifact_validate (proof_artifact i));
  _ ← validate_cid_list (new_page_table_nodes i) (λ c, codec c =? CODEC_SQLITE_PAGE_TABLE)%N "new page-table nodes";
  _ ← validate_cid_list (new_page_pack_roots i)
        (λ c, (codec c =? CODEC_SMALL_OBJECT)%N || (codec c =? CODEC_OBJECT_MANIFEST)%N || (codec c =? CODEC_ERASURE_MANIFEST)%N)
        "new page-pack roots";
  _ ← validate_cid_list (proof_descendants i) (λ _, true) "verified descendants";
  _ ← fail_if (negb (eqb (root_changed i)
                       (bool_decide (page_table_root_cid (new_snapshot_descriptor i) ∈ new_page_table_nodes i))))
        (Invalid "changed page-table root must be declared as a new node");
  required ← insert_unique (Invalid "incremental evidence categories overlap")
               (frontier_cids (artifact_frontier (proof_artifact i))) {[new_snapshot i]};
  let receipts := receipts_by_cid (durability_receipts i) in
  _ ← fail_if (negb (N.of_nat (size receipts) =? len (durability_receipts i))%N || negb (size receipts =? size required)%nat)
        (Invalid "durability receipts must exactly cover the new strong-link frontier");
  _ ← try_foldl (λ _ cid, check_receipt required_replicas receipts cid) () (hash_order required);
  Ok (mkProof (protected_base_snapshot i) (new_snapshot i) (new_page_table_nodes i) (new_page_pack_roots i)
        (proof_descendants i) (durability_receipts i) (builder_identity i)).

(** ** What a proof shows *)

Context (Horder : ∀ X, hash_order X ≡ₚ elements X).

(** A receipt that makes a block durable. *)
Definition receipt_ok (required_replicas : N) (cid : Cid) (r : DurabilityReceipt) : Prop :=
  receipt_cid r = cid ∧ receipt_codec r = codec cid ∧ receipt_status r = "durable"
  ∧ (required_replicas_of required_replicas r ≤ replicas_accepted r)%N
  ∧ (required_replicas_of required_replicas r ≤ len (replica_nodes r))%N.

Lemma receipts_lookup l c r : receipts_by_cid l !! c = Some r → r ∈ l ∧ receipt_cid r = c.
Proof.
  unfold receipts_by_cid. induction l as [|x l IH] using rev_ind; [done|]. rewrite foldl_app. cbn [foldl].
  rewrite elem_of_app, list_elem_of_singleton. intros [[<- <-]|[_ Hr]]%lookup_insert_Some; [auto|].
  destruct (IH Hr). auto.
Qed.

Lemma receipts_dom l : dom (receipts_by_cid l) = list_to_set (receipt_cid <$> l).
Proof.
  unfold receipts_by_cid. induction l as [|x l IH] using rev_ind; [done|].
  rewrite foldl_app, fmap_app, list_to_set_app_L. cbn [foldl]. rewrite dom_insert_L, IH. set_solver.
Qed.

Lemma check_receipt_Ok n l cid :
  check_receipt n (receipts_by_cid l) cid = Ok () → ∃ r, r ∈ l ∧ receipt_ok n cid r.
Proof.
  intros (r & [Hin Hc]%ok_or_Ok%receipts_lookup & Hf%fail_if_Ok)%bind_Ok. exists r. split; [done|].
  rewrite !orb_false_iff, !negb_false_iff, N.eqb_eq, bool_decide_eq_true, !N.ltb_ge in Hf.
  destruct Hf as [[[Hk Hs] Ha] Hn]. done.
Qed.

(** What [proof_build] has checked when it succeeds. *)
Lemma proof_build_Ok i n limits p :
  proof_build i n limits = Ok p →
  check_base i = Ok () ∧ verify_descriptor_cid (new_snapshot_descriptor i) (new_snapshot i) limits = Ok ()
  ∧ (∃ stats, PreparedDatasetArtifact_validate (proof_artifact i) = Ok stats)
  ∧ root_changed i = bool_decide (page_table_root_cid (new_snapshot_descriptor i) ∈ new_page_table_nodes i)
  ∧ (∃ required, insert_unique (Invalid "incremental evidence categories overlap")
        (frontier_cids (artifact_frontier (proof_artifact i))) {[new_snapshot i]} = Ok required
      ∧ size (receipts_by_cid (durability_receipts i)) = length (durability_receipts i)
      ∧ size (receipts_by_cid (durability_receipts i)) = size required
      ∧ ∀ c, c ∈ required → check_receipt n (receipts_by_cid (durability_receipts i)) c = Ok ())
  ∧ proven_snapshot p = new_snapshot i ∧ proven_receipts p = durability_receipts i.
Proof.
  intros ([] & _ & ([] & _ & ([] & _ & ([] & _ & ([] & Hd & ([] & Hb & (stats & Ha & ([] & _ & ([] & _ & ([] & _ &
    ([] & Hr%fail_if_Ok & (required & Hu & ([] & Hs%fail_if_Ok & ([] & Hc & [= <-])%bind_Ok)%bind_Ok)%bind_Ok)%bind_Ok
    )%bind_Ok)%bind_Ok)%bind_Ok)%bind_Ok)%bind_Ok)%bind_Ok)%bind_Ok)%bind_Ok)%bind_Ok)%bind_Ok.
  split; [done|]. split; [done|].
  split; [exists stats; by destruct (PreparedDatasetArtifact_validate _); cbn in Ha; simplify_eq|].
  rewrite negb_false_iff, eqb_true_iff in Hr. split; [done|]. split; [|done]. exists required. split; [done|].
  rewrite orb_false_iff, !negb_false_iff, N.eqb_eq, Nat.eqb_eq in Hs. unfold len in Hs. destruct Hs as [Hs1 Hs2].
  split; [lia|]. split; [done|]. intros c Hin. apply try_foldl_unit in Hc. rewrite Forall_forall in Hc.
  apply Hc. by rewrite Horder, elem_of_elements.
Qed.

(** C33: a proof of durability is exact.  The new snapshot's identifier is that of its
    canonical descriptor, which names the protected base; the snapshot, the new
    page-table nodes, the new packs and their descendants are all different; there is
    exactly one receipt for each of them and for nothing else; and each receipt is
    durable on as many nodes as the policy requires (one for an erasure shard). *)
Theorem proof_exact i n limits p :
  proof_build i n limits = Ok p →
  let required := proven_snapshot p :: frontier_cids (artifact_frontier (proof_artifact i)) in
  NoDup required
  ∧ receipt_cid <$> proven_receipts p ≡ₚ required
  ∧ (∀ c, c ∈ required → ∃ r, r ∈ proven_receipts p ∧ receipt_ok n c r)
  ∧ base_snapshot_cid (new_snapshot_descriptor i) = Some (protected_base_snapshot i)
  ∧ ∃ payload, to_vec (new_snapshot_descriptor i) = Ok payload ∧ proven_snapshot p = Cid_new CODEC_SQLITE_SNAPSHOT payload.
Proof.
  intros (Hb & Hd & _ & _ & (required & (Hn & Hout & ->)%insert_unique_spec & Hlen & Hsize & Hc) & Hp & Hr)%proof_build_Ok.
  cbn zeta. rewrite Hp, Hr. set (l := frontier_cids (artifact_frontier (proof_artifact i))) in *.
  assert (Hreq : NoDup (new_snapshot i :: l)) by (constructor; [intros Hin; apply (Hout _ Hin); set_solver|done]).
  rewrite <-size_dom, receipts_dom in Hlen, Hsize. rewrite <-(length_fmap receipt_cid) in Hlen.
  assert (Hin : ∀ c, c ∈ new_snapshot i :: l → ∃ r, r ∈ durability_receipts i ∧ receipt_ok n c r).
  { intros c Hc'. apply check_receipt_Ok, Hc. set_solver. }
  assert (Hsub : list_to_set l ∪ {[new_snapshot i]} ⊆ (list_to_set (receipt_cid <$> durability_receipts i) : gset Cid)).
  { intros c Hc'. destruct (Hin c) as (r & Hr' & <- & _); [set_solver|]. apply elem_of_list_to_set, list_elem_of_fmap. by exists r. }
  apply set_subseteq_size_eq in Hsub as Heq; [|lia].
  split; [done|]. split.
  { apply NoDup_Permutation; [by apply size_listed_distinct|done|]. intros c.
    rewrite <-(elem_of_list_to_set (C := gset Cid)), <-Heq. set_solver. }
  split; [done|]. split.
  - apply fail_if_Ok in Hb. rewrite !orb_false_iff, !negb_false_iff, bool_decide_eq_true in Hb. by destruct Hb as [[Hb _] _].
  - apply bind_Ok in Hd as (payload & (v & Hv & ([] & _ & <-%Ok_inj)%bind_Ok)%bind_Ok & Hf%fail_if_Ok).
    rewrite negb_false_iff, bool_decide_eq_true in Hf. exists v. by destruct (to_vec _); cbn in Hv; simplify_eq.
Qed.

(** A transaction that changes the page table without a dirty page (one that only
    truncates the database) cannot be published: whatever nodes, receipts and limits
    come with it, no proof is built when the count of changed pages is zero and the
    root of the page table is another. *)
Theorem truncation_unprovable i n limits :
  changed_page_count i = 0%N → root_changed i = true → is_Ok (proof_build i n limits) = false.
Proof.
  intros Hz Hr. destruct (proof_build i n limits) as [p|] eqn:Hp; [|done]. exfalso.
  apply proof_build_Ok in Hp as (_ & _ & (stats & Hv) & Hin & _).
  apply bind_Ok in Hv as ([] & _ & ([] & _ & [Hf _]%validate_frontier)%bind_Ok).
  pose proof (frontier_unchanged _ Hf) as Hu. cbn in Hu. rewrite Hr in Hu. destruct (Hu Hz) as [Hnil _].
  rewrite Hr, Hnil, bool_decide_false in Hin; [done|]. by intros ?%elem_of_nil.
Qed.

End Build.
