(* ===== verification/SqliteWriter.v ===== *)
(** * Coordinating the writers of a database (crates/pepper-sqlite/src/writer.rs)

    One writer at a time holds a ticket with a lease; others wait in line.  A commit is
    guarded by the ticket, its lease, the leader's term and the exact head. *)
From stdpp Require Import base gmap sets list strings sorting.
From S2P Require Import Prelude Types Merkle SqlitePages.

Record WriterTicket := mkTicket {
  ticket_id : string;
  ticket_acquisition : string;
  ticket_database : string;
  ticket_holder : string;
  ticket_base_snapshot : Cid;
  ticket_base_generation : N;
  ticket_term : N;
  lease_epoch : N;
  expires_at : N
}.

#[export] Instance WriterTicket_eq_dec : EqDecision WriterTicket.
Proof. solve_decision. Defined.

Inductive AcquisitionStatus :=
| Queued (position : N)
| Granted (ticket : WriterTicket)
| WriterBusy
| TimedOut
| StaleBase (current_snapshot_cid : Cid) (current_generation : N)
| Released
| WriterFenced.

Record CommitAttempt := mkAttempt {
  attempt_key : string;
  attempt_ticket : WriterTicket;
  attempt_base_snapshot : Cid;
  attempt_base_generation : N;
  attempt_new_snapshot : Cid
}.

Record CommitRecord := mkCommitRecord {
  record_key : string;
  record_base_snapshot : Cid;
  record_base_generation : N;
  record_snapshot : Cid;
  record_generation : N;
  record_term : N
}.

Record Waiter := mkWaiter {
  waiter_acquisition : string;
  waiter_holder : string;
  waiter_base_snapshot : Cid;
  waiter_base_generation : N;
  deadline : N
}.

Record WriterCoordinator := mkCoordinator {
  coordinator_database : string;
  head_snapshot : Cid;
  head_generation : N;
  leader_term : N;
  next_ticket : N;
  lease_millis : N;
  max_waiters : N;
  active : option WriterTicket;
  waiters : list Waiter;
  acquisitions : gmap string AcquisitionStatus;
  acquisition_order : list string;
  commits : gmap string (CommitAttempt * CommitRecord);
  commit_order : list string
}.

Definition MAX_ACQUISITION_RECORDS : N := 1024.
Definition MAX_COMMIT_RECORDS : N := 1024.

(** Field updates. *)
Definition with_head (cid : Cid) (generation : N) (c : WriterCoordinator) : WriterCoordinator :=
  mkCoordinator (coordinator_database c) cid generation (leader_term c) (next_ticket c) (lease_millis c) (max_waiters c)
    (active c) (waiters c) (acquisitions c) (acquisition_order c) (commits c) (commit_order c).
Definition with_term (term next : N) (c : WriterCoordinator) : WriterCoordinator :=
  mkCoordinator (coordinator_database c) (head_snapshot c) (head_generation c) term next (lease_millis c) (max_waiters c)
    (active c) (waiters c) (acquisitions c) (acquisition_order c) (commits c) (commit_order c).
Definition with_active (ticket : option WriterTicket) (c : WriterCoordinator) : WriterCoordinator :=
  mkCoordinator (coordinator_database c) (head_snapshot c) (head_generation c) (leader_term c) (next_ticket c) (lease_millis c)
    (max_waiters c) ticket (waiters c) (acquisitions c) (acquisition_order c) (commits c) (commit_order c).
Definition with_waiters (l : list Waiter) (c : WriterCoordinator) : WriterCoordinator :=
  mkCoordinator (coordinator_database c) (head_snapshot c) (head_generation c) (leader_term c) (next_ticket c) (lease_millis c)
    (max_waiters c) (active c) l (acquisitions c) (acquisition_order c) (commits c) (commit_order c).
Definition with_acquisitions (m : gmap string AcquisitionStatus) (order : list string) (c : WriterCoordinator) : WriterCoordinator :=
  mkCoordinator (coordinator_database c) (head_snapshot c) (head_generation c) (leader_term c) (next_ticket c) (lease_millis c)
    (max_waiters c) (active c) (waiters c) m order (commits c) (commit_order c).
Definition with_commits (m : gmap string (CommitAttempt * CommitRecord)) (order : list string) (c : WriterCoordinator)
    : WriterCoordinator :=
  mkCoordinator (coordinator_database c) (head_snapshot c) (head_generation c) (leader_term c) (next_ticket c) (lease_millis c)
    (max_waiters c) (active c) (waiters c) (acquisitions c) (acquisition_order c) m order.

Definition coordinator_new (database : string) (cid : Cid) (generation term lease max : N) : result SqliteError WriterCoordinator :=
  _ ← fail_if (bool_decide (database = "") || negb (codec cid =? CODEC_SQLITE_SNAPSHOT)%N || (term =? 0)%N || (lease =? 0)%N
               || (max =? 0)%N) (Invalid "invalid writer coordinator configuration");
  Ok (mkCoordinator database cid generation term 1 lease max None [] ∅ [] ∅ []).

(** ** Bounded records *)

(** Evict the oldest acquisition records while there are too many, but never the
    active writer's.  Each round takes a name off the front of the order, so with the
    names distinct twice the length of the order is enough rounds. *)
Fixpoint evict_acquisitions (rounds : nat) (holder : option string) (m : gmap string AcquisitionStatus) (order : list string)
    : gmap string AcquisitionStatus * list string :=
  match rounds with
  | O => (m, order)
  | S rounds =>
      if (MAX_ACQUISITION_RECORDS <? N.of_nat (size m))%N then
        match order with
        | [] => (m, [])
        | oldest :: order =>
            if bool_decide (holder = Some oldest) then
              let order := order ++ [oldest] in
              if (length order <=? 1)%nat then (m, order) else evict_acquisitions rounds holder m order
            else evict_acquisitions rounds holder (delete oldest m) order
        end
      else (m, order)
  end.

Definition record_acquisition (id : string) (status : AcquisitionStatus) (c : WriterCoordinator) : WriterCoordinator :=
  let order := match acquisitions c !! id with Some _ => acquisition_order c | None => acquisition_order c ++ [id] end in
  let '(m, order) := evict_acquisitions (2 * length order) (ticket_acquisition <$> active c) (<[id := status]> (acquisitions c)) order in
  with_acquisitions m order c.

Fixpoint evict_commits (m : gmap string (CommitAttempt * CommitRecord)) (order : list string)
    : gmap string (CommitAttempt * CommitRecord) * list string :=
  if (MAX_COMMIT_RECORDS <? N.of_nat (size m))%N then
    match order with
    | [] => (m, [])
    | oldest :: order => evict_commits (delete oldest m) order
    end
  else (m, order).

Definition record_commit (key : string) (attempt : CommitAttempt) (record : CommitRecord) (c : WriterCoordinator) : WriterCoordinator :=
  let order := match commits c !! key with Some _ => commit_order c | None => commit_order c ++ [key] end in
  let '(m, order) := evict_commits (<[key := (attempt, record)]> (commits c)) order in
  with_commits m order c.

(** ** Tickets *)

Definition stale_status (c : WriterCoordinator) : AcquisitionStatus := StaleBase (head_snapshot c) (head_generation c).

Definition ticket_name (database : string) (term sequence : N) : string :=
  database +:+ ":" +:+ fmt_radix 10 term +:+ ":" +:+ fmt_radix 10 sequence.

Definition grant (id holder : string) (base : Cid) (generation now : N) : stm WriterCoordinator SqliteError WriterTicket := λ c,
  match checked_add u64_max now (lease_millis c) with
  | None => (Err (Invalid "writer lease deadline overflow"), c)
  | Some expires =>
      let ticket := mkTicket (ticket_name (coordinator_database c) (leader_term c) (next_ticket c)) id (coordinator_database c) holder
                      base generation (leader_term c) 1 expires in
      match checked_add u64_max (next_ticket c) 1 with
      | None => (Err (Invalid "writer ticket sequence overflow"), c)
      | Some next => (Ok ticket, with_active (Some ticket) (with_term (leader_term c) next c))
      end
  end.

Definition validate_active (ticket : WriterTicket) (now : N) (c : WriterCoordinator) : result SqliteError unit :=
  match active c with
  | None => Err Fenced
  | Some current =>
      fail_if (negb (bool_decide (current = ticket)) || negb (bool_decide (ticket_database ticket = coordinator_database c))
               || negb (ticket_term ticket =? leader_term c)%N || (expires_at ticket <=? now)%N) Fenced
  end.

(** ** Time passes *)

Definition expire_active (now : N) (c : WriterCoordinator) : WriterCoordinator :=
  match active c with
  | Some t => if (expires_at t <=? now)%N then record_acquisition (ticket_acquisition t) WriterFenced (with_active None c) else c
  | None => c
  end.

(** The waiters whose time is over are recorded in their order; the others stay. *)
Fixpoint expire_waiters (now : N) (l : list Waiter) (waiting : list Waiter) (c : WriterCoordinator) : WriterCoordinator :=
  match l with
  | [] => with_waiters waiting c
  | w :: l =>
      if (deadline w <=? now)%N then expire_waiters now l waiting (record_acquisition (waiter_acquisition w) TimedOut c)
      else expire_waiters now l (waiting ++ [w]) c
  end.

(** [while self.active.is_none()]: every round takes one waiter. *)
Fixpoint grant_next (now : N) (l : list Waiter) (c : WriterCoordinator) : WriterCoordinator :=
  match active c, l with
  | Some _, _ => with_waiters l c
  | None, [] => with_waiters [] c
  | None, w :: l =>
      let id := waiter_acquisition w in
      if negb (bool_decide (waiter_base_snapshot w = head_snapshot c)) || negb (waiter_base_generation w =? head_generation c)%N
      then grant_next now l (record_acquisition id (stale_status c) c)
      else match grant id (waiter_holder w) (waiter_base_snapshot w) (waiter_base_generation w) now c with
           | (Ok ticket, c) => grant_next now l (record_acquisition id (Granted ticket) c)
           | (Err _, c) => grant_next now l (record_acquisition id WriterFenced c)
           end
  end.

Fixpoint record_positions (position : N) (l : list Waiter) (c : WriterCoordinator) : WriterCoordinator :=
  match l with
  | [] => c
  | w :: l => record_positions (position + 1) l (record_acquisition (waiter_acquisition w) (Queued position) c)
  end.

Definition advance (now : N) (c : WriterCoordinator) : WriterCoordinator :=
  let c := expire_active now c in
  let c := expire_waiters now (waiters c) [] (with_waiters [] c) in
  let c := grant_next now (waiters c) c in
  record_positions 1 (waiters c) c.

(** ** Operations *)

Definition validate_ticket (ticket : WriterTicket) (now : N) : stm WriterCoordinator SqliteError unit := λ c,
  let c := advance now c in (validate_active ticket now c, c).

Definition acquisition_status (id : string) (c : WriterCoordinator) : option AcquisitionStatus := acquisitions c !! id.
Definition commit_status (key : string) (c : WriterCoordinator) : option CommitRecord := snd <$> commits c !! key.

Definition acquire (id holder : string) (base : Cid) (generation now wait : N) : stm WriterCoordinator SqliteError AcquisitionStatus := λ c,
  let c := advance now c in
  let answer status c := (Ok status, record_acquisition id status c) in
  if bool_decide (id = "") || bool_decide (holder = "") then (Err (Invalid "acquisition and holder IDs must not be empty"), c)
  else match acquisitions c !! id with
  | Some status => (Ok status, c)
  | None =>
      if negb (bool_decide (base = head_snapshot c)) || negb (generation =? head_generation c)%N then answer (stale_status c) c
      else if bool_decide (active c = None) then
        match grant id holder base generation now c with
        | (Ok ticket, c) => answer (Granted ticket) c
        | (Err e, c) => (Err e, c)
        end
      else if (wait =? 0)%N || (max_waiters c <=? len (waiters c))%N then answer WriterBusy c
      else match checked_add u64_max now wait with
           | None => (Err (Invalid "writer wait deadline overflow"), c)
           | Some limit =>
               let c := with_waiters (waiters c ++ [mkWaiter id holder base generation limit]) c in
               answer (Queued (len (waiters c))) c
           end
  end.

Definition with_epoch (t : WriterTicket) (e expires : N) : WriterTicket :=
  mkTicket (ticket_id t) (ticket_acquisition t) (ticket_database t) (ticket_holder t) (ticket_base_snapshot t)
    (ticket_base_generation t) (ticket_term t) e expires.

(** The epoch is raised before the new deadline is checked. *)
Definition renew (ticket : WriterTicket) (now : N) : stm WriterCoordinator SqliteError WriterTicket := λ c,
  let c := advance now c in
  match validate_active ticket now c, active c with
  | Err e, _ => (Err e, c)
  | Ok _, None => (Err SqlitePanicked, c)
  | Ok _, Some t =>
      match checked_add u64_max (lease_epoch t) 1 with
      | None => (Err (Invalid "writer lease epoch overflow"), c)
      | Some e =>
          match checked_add u64_max now (lease_millis c) with
          | None => (Err (Invalid "writer lease deadline overflow"), with_active (Some (with_epoch t e (expires_at t))) c)
          | Some expires =>
              let renewed := with_epoch t e expires in
              (Ok renewed, record_acquisition (ticket_acquisition t) (Granted renewed) (with_active (Some renewed) c))
          end
      end
  end.

Definition release (ticket : WriterTicket) (now : N) : stm WriterCoordinator SqliteError unit := λ c,
  let c := advance now c in
  match validate_active ticket now c, active c with
  | Err e, _ => (Err e, c)
  | Ok _, None => (Err SqlitePanicked, c)
  | Ok _, Some t => (Ok (), advance now (record_acquisition (ticket_acquisition t) Released (with_active None c)))
  end.

Definition record_all (status : AcquisitionStatus) (l : list Waiter) (c : WriterCoordinator) : WriterCoordinator :=
  foldl (λ c w, record_acquisition (waiter_acquisition w) status c) c l.

Definition disconnect (holder : string) (now : N) (c : WriterCoordinator) : WriterCoordinator :=
  let c := advance now c in
  let c := match active c with
           | Some t => if bool_decide (ticket_holder t = holder)
                       then record_acquisition (ticket_acquisition t) Released (with_active None c) else c
           | None => c
           end in
  let gone := filter (λ w, waiter_holder w = holder) (waiters c) in
  let c := with_waiters (filter (λ w, waiter_holder w ≠ holder) (waiters c)) c in
  advance now (record_all Released gone c).

Definition change_leader_term (new_term now : N) : stm WriterCoordinator SqliteError unit := λ c,
  if (new_term <=? leader_term c)%N then (Err (Invalid "leader term must increase monotonically"), c)
  else
    let c := advance now c in
    let c := match active c with
             | Some t => record_acquisition (ticket_acquisition t) WriterFenced (with_active None c)
             | None => c
             end in
    let c := record_all WriterFenced (waiters c) (with_waiters [] c) in
    (Ok (), with_term new_term 1 c).

Definition same_commit (a b : CommitAttempt) : bool :=
  bool_decide (attempt_base_snapshot a = attempt_base_snapshot b) && (attempt_base_generation a =? attempt_base_generation b)%N
  && bool_decide (attempt_new_snapshot a = attempt_new_snapshot b).

Definition guarded_commit (a : CommitAttempt) (now : N) : stm WriterCoordinator SqliteError CommitRecord := λ c,
  if bool_decide (attempt_key a = "") || negb (codec (attempt_new_snapshot a) =? CODEC_SQLITE_SNAPSHOT)%N
  then (Err (Invalid "invalid guarded commit"), c)
  else match commits c !! attempt_key a with
  | Some (prior, record) =>
      (if same_commit prior a then Ok record else Err (Invalid "idempotency key was reused for another commit"), c)
  | None =>
      let c := advance now c in
      match validate_active (attempt_ticket a) now c, active c with
      | Err e, _ => (Err e, c)
      | Ok _, None => (Err SqlitePanicked, c)
      | Ok _, Some t =>
          if negb (bool_decide (attempt_base_snapshot a = head_snapshot c)) || negb (attempt_base_generation a =? head_generation c)%N
             || negb (bool_decide (ticket_base_snapshot (attempt_ticket a) = attempt_base_snapshot a))
             || negb (ticket_base_generation (attempt_ticket a) =? attempt_base_generation a)%N
          then (Err (GenerationConflict (head_generation c)), c)
          else match checked_add u64_max (head_generation c) 1 with
          | None => (Err (Invalid "database generation overflow"), c)
          | Some generation =>
              let record := mkCommitRecord (attempt_key a) (attempt_base_snapshot a) (attempt_base_generation a)
                              (attempt_new_snapshot a) generation (leader_term c) in
              let c := with_active None (with_head (attempt_new_snapshot a) generation c) in
              let c := record_acquisition (ticket_acquisition t) Released c in
              let c := record_commit (attempt_key a) a record c in
              (Ok record, advance now c)
          end
      end
  end.
