(* ===== verification/SqliteWriterFacts.v ===== *)
(** * Theorems about the coordination of writers

    The bookkeeping stays bounded and consistent, the commits form one chain, and a
    ticket that has been given up is never accepted again. *)
From stdpp Require Import base gmap sets list strings sorting.
From Stdlib Require Import Strings.Ascii.
From S2P Require Import Prelude Types Tables Merkle Rsm RsmFacts SqlitePages SqliteWriter.

(** ** Records in the order in which they came *)

Definition listed {V} (m : gmap string V) (order : list string) : Prop :=
  NoDup order ∧ ∀ id, id ∈ order ↔ is_Some (m !! id).

Lemma listed_size {V} (m : gmap string V) order : listed m order → size m = length order.
Proof.
  intros [Hn Hin]. rewrite <-size_dom, <-(size_list_to_set (C := gset string) order) by done. f_equal.
  apply set_eq. intros id. by rewrite elem_of_dom, elem_of_list_to_set, Hin.
Qed.

Lemma listed_insert {V} (m : gmap string V) order id v :
  listed m order → listed (<[id := v]> m) (match m !! id with Some _ => order | None => order ++ [id] end).
Proof.
  intros [Hn Hin]. destruct (m !! id) as [w|] eqn:Hid.
  - split; [done|]. intros j. rewrite Hin, lookup_insert_is_Some. destruct (decide (id = j)) as [->|]; [|naive_solver].
    rewrite Hid. naive_solver.
  - split.
    + apply NoDup_app. split; [done|]. split; [|apply NoDup_singleton].
      intros j Hj ->%list_elem_of_singleton. apply Hin in Hj. rewrite Hid in Hj. by destruct Hj.
    + intros j. rewrite elem_of_app, list_elem_of_singleton, Hin, lookup_insert_is_Some.
      destruct (decide (id = j)); naive_solver.
Qed.

Lemma listed_delete {V} (m : gmap string V) oldest order order' :
  listed m order → order ≡ₚ oldest :: order' → listed (delete oldest m) order'.
Proof.
  intros [Hn Hin] Hp. rewrite Hp in Hn. apply NoDup_cons in Hn as [Hout Hn]. split; [done|]. intros j.
  rewrite lookup_delete_is_Some, <-Hin, Hp, elem_of_cons. split; [|naive_solver].
  intros Hj. split; [by intros ->|by right].
Qed.

Lemma evict_acquisitions_one rounds holder m order :
  listed m order → size m ≤ 1025 → 2 ≤ rounds →
  (size m ≤ 1024 ∧ evict_acquisitions rounds holder m order = (m, order))
  ∨ (∃ out order', size m = 1025 ∧ order ≡ₚ out :: order' ∧ holder ≠ Some out ∧ (∀ a b l, order = a :: b :: l → out = a ∨ out = b)
     ∧ evict_acquisitions rounds holder m order = (delete out m, order')).
Proof.
  intros Hl Hs Hr. pose proof (listed_size m order Hl) as Hlen. destruct Hl as [Hn Hin].
  destruct rounds as [|[|rounds]]; [lia..|]. cbn [evict_acquisitions]. unfold MAX_ACQUISITION_RECORDS.
  destruct (N.ltb_spec 1024 (N.of_nat (size m))) as [Hbig|Hsmall]; [right|left; split; [lia|done]].
  assert (Hdel : ∀ id, id ∈ order → size (delete id m) = 1024).
  { intros id Hv%Hin. rewrite map_size_delete_Some by done. lia. }
  destruct order as [|a [|b l]]; [cbn in Hlen; lia..|].
  apply NoDup_cons in Hn as [Hab _]. assert (a ≠ b) by set_solver.
  case_bool_decide as Ha.
  - rewrite length_app. cbn [length]. replace (S (length l) + 1 <=? 1)%nat with false by (symmetry; apply Nat.leb_gt; lia).
    cbn [app]. rewrite bool_decide_false by congruence.
    exists b, (l ++ [a]). split; [lia|]. split; [by rewrite <-Permutation_cons_append, perm_swap|].
    split; [congruence|]. split; [naive_solver|].
    destruct (N.ltb_spec 1024 (N.of_nat (size m))) as [_|]; [|lia]. destruct rounds; [done|]. cbn [evict_acquisitions].
    rewrite (Hdel b) by set_solver. done.
  - exists a, (b :: l). split; [lia|]. split; [done|]. split; [done|]. split; [naive_solver|].
    unfold MAX_ACQUISITION_RECORDS. rewrite (Hdel a) by set_solver. done.
Qed.

(** The acquisition records are in order and within the bound. *)
Definition records_ok (c : WriterCoordinator) : Prop :=
  listed (acquisitions c) (acquisition_order c) ∧ size (acquisitions c) ≤ 1024.

(** What [record_acquisition] leaves alone. *)
Definition core (c : WriterCoordinator) : WriterCoordinator := with_acquisitions ∅ [] c.

Lemma record_core id st c : core (record_acquisition id st c) = core c.
Proof. unfold record_acquisition. by destruct (evict_acquisitions _ _ _ _). Qed.

Lemma record_spec id st c :
  records_ok c →
  let c' := record_acquisition id st c in
  records_ok c' ∧ acquisitions c' !! id = Some st
  ∧ (∀ t, active c = Some t → is_Some (acquisitions c !! ticket_acquisition t) → is_Some (acquisitions c' !! ticket_acquisition t)).
Proof.
  intros [Hl Hs]. unfold record_acquisition. set (m := <[id := st]> (acquisitions c)).
  set (order := match acquisitions c !! id with Some _ => _ | None => _ end).
  assert (Hl' : listed m order) by (by apply listed_insert).
  assert (Hs' : size m ≤ 1025) by (unfold m; destruct (acquisitions c !! id) eqn:He;
    [rewrite map_size_insert_Some by eauto|rewrite map_size_insert_None by done]; lia).
  assert (Hpos : 1 ≤ length order).
  { assert (id ∈ order) as Hin by (apply Hl'; unfold m; rewrite lookup_insert_eq; eauto). destruct order; [by apply elem_of_nil in Hin|cbn; lia]. }
  assert (Hid : m !! id = Some st) by apply lookup_insert_eq.
  destruct (evict_acquisitions_one (2 * length order) (ticket_acquisition <$> active c) m order Hl' Hs' ltac:(lia))
    as [[Hsmall ->]|(out & order' & Hfull & Hp & Hholder & Hfront & ->)]; cbn.
  - split; [done|]. split; [done|]. intros t _ Ht. apply lookup_insert_is_Some'. by right.
  - assert (out ≠ id).
    { intros ->. unfold order in *. destruct (acquisitions c !! id) as [w|] eqn:He.
      { unfold m in Hfull. rewrite map_size_insert_Some in Hfull by eauto. lia. }
      assert (length (acquisition_order c) = 1024) as Hlen.
      { rewrite <-(listed_size _ _ Hl). unfold m in Hfull. rewrite map_size_insert_None in Hfull by done. lia. }
      destruct Hl as [_ Hin]. destruct (acquisition_order c) as [|a [|b l]]; [done..|].
      assert (is_Some (acquisitions c !! id)) as [? Hx]; [|congruence].
      apply Hin. destruct (Hfront a b (l ++ [id])) as [->| ->]; [done|by left|right; by left]. }
    split; [split; [by eapply listed_delete|]|split; [by rewrite lookup_delete_ne|]].
    + change (size (delete out m) ≤ 1024). rewrite map_size_delete_Some; [lia|]. destruct Hl' as [_ Hin]. apply Hin. rewrite Hp. by left.
    + intros t Ht Hi. rewrite lookup_delete_ne; [apply lookup_insert_is_Some'; by right|].
      rewrite Ht in Hholder. intros ->. done.
Qed.

(** ** Time passing *)

(** The records are in order, and the active writer has one. *)
Definition tracked (c : WriterCoordinator) : Prop :=
  records_ok c ∧ ∀ t, active c = Some t → is_Some (acquisitions c !! ticket_acquisition t).

(** A ticket for the current head, with a number that has been used. *)
Record ticket_for (c : WriterCoordinator) (k : N) (t : WriterTicket) : Prop := {
  for_database : ticket_database t = coordinator_database c;
  for_term : ticket_term t = leader_term c;
  for_snapshot : ticket_base_snapshot t = head_snapshot c;
  for_generation : ticket_base_generation t = head_generation c;
  for_name : ticket_id t = ticket_name (coordinator_database c) (leader_term c) k
}.

(** What can change while the head and the term stay: the active writer can go or
    renew its lease, and a new one can come. *)
Record advanced (c c' : WriterCoordinator) : Prop := {
  adv_database : coordinator_database c' = coordinator_database c;
  adv_snapshot : head_snapshot c' = head_snapshot c;
  adv_generation : head_generation c' = head_generation c;
  adv_term : leader_term c' = leader_term c;
  adv_max : max_waiters c' = max_waiters c;
  adv_commits : commits c' = commits c;
  adv_commit_order : commit_order c' = commit_order c;
  adv_next : (next_ticket c ≤ next_ticket c')%N;
  adv_active : active c' = None
    ∨ (∃ t e expires, active c = Some t ∧ active c' = Some (with_epoch t e expires))
    ∨ ∃ t k, active c' = Some t ∧ ticket_for c k t ∧ (next_ticket c ≤ k < next_ticket c')%N
}.

Lemma advanced_trans c1 c2 c3 : advanced c1 c2 → advanced c2 c3 → advanced c1 c3.
Proof.
  intros [Hd Hs Hg Ht Hm Hc Ho Hn Ha] [Hd' Hs' Hg' Ht' Hm' Hc' Ho' Hn' Ha']. split; try congruence; [lia|].
  destruct Ha' as [Ha'|[(t & e & x & Ht2 & Ha')|(t & k & Ha' & [F1 F2 F3 F4 F5] & Hk)]]; [by left| |].
  - destruct Ha as [Ha|[(t1 & e1 & x1 & Ht1 & Ha)|(t1 & k & Ha & [F1 F2 F3 F4 F5] & Hk)]]; [congruence| |];
      rewrite Ht2 in Ha; injection Ha as ->.
    + right; left. exists t1, e, x. done.
    + right; right. exists (with_epoch t1 e x), k. split; [done|]. split; [done|lia].
  - right; right. exists t, k. split; [done|]. split; [split; congruence|lia].
Qed.

Lemma advanced_core c c' : core c' = core c → advanced c c'.
Proof.
  intros Heq. split; try (by apply (f_equal coordinator_database) in Heq) || (by apply (f_equal head_snapshot) in Heq)
    || (by apply (f_equal head_generation) in Heq) || (by apply (f_equal leader_term) in Heq) || (by apply (f_equal max_waiters) in Heq)
    || (by apply (f_equal commits) in Heq) || (by apply (f_equal commit_order) in Heq).
  - apply (f_equal next_ticket) in Heq. cbn in Heq. lia.
  - apply (f_equal active) in Heq. change (active c' = active c) in Heq. rewrite Heq.
    destruct (active c) as [t|]; [right; left|by left]. exists t, (lease_epoch t), (expires_at t). by destruct t.
Qed.

Definition goes (c c' : WriterCoordinator) : Prop := tracked c → tracked c' ∧ advanced c c'.

Lemma goes_refl c : goes c c.
Proof. intros Ht. split; [done|by apply advanced_core]. Qed.

Lemma goes_trans c1 c2 c3 : goes c1 c2 → goes c2 c3 → goes c1 c3.
Proof. intros H12 H23 [H2 Ha]%H12. destruct (H23 H2) as [H3 Hb]. split; [done|by eapply advanced_trans]. Qed.

Lemma record_active id st c : active (record_acquisition id st c) = active c.
Proof. exact (f_equal active (record_core id st c)). Qed.
Lemma record_waiters id st c : waiters (record_acquisition id st c) = waiters c.
Proof. exact (f_equal waiters (record_core id st c)). Qed.

Lemma record_goes id st c : goes c (record_acquisition id st c).
Proof.
  intros [Hr Ha]. destruct (record_spec id st c Hr) as (Hr' & _ & Hk). split; [|apply advanced_core, record_core].
  split; [done|]. intros t. rewrite record_active. auto.
Qed.

Lemma waiters_goes l c : goes c (with_waiters l c).
Proof. intros [Hr Ha]. split; [done|]. destruct (advanced_core c c eq_refl). by split. Qed.

Lemma inactive_goes c : goes c (with_active None c).
Proof. intros [Hr Ha]. split; [by split|]. split; try done. by left. Qed.

Lemma expire_active_goes now c : goes c (expire_active now c).
Proof.
  unfold expire_active. destruct (active c) as [t|]; [|apply goes_refl].
  destruct (_ <=? _)%N; [eapply goes_trans; [apply inactive_goes|apply record_goes]|apply goes_refl].
Qed.

Lemma expire_waiters_goes now l : ∀ waiting c, goes c (expire_waiters now l waiting c).
Proof.
  induction l as [|w l IH]; intros waiting c; cbn [expire_waiters]; [apply waiters_goes|].
  destruct (_ <=? _)%N; [|done]. eapply goes_trans; [apply record_goes|done].
Qed.

Lemma grant_Ok id holder base generation now c t c' :
  grant id holder base generation now c = (Ok t, c') →
  c' = with_active (Some t) (with_term (leader_term c) (next_ticket c + 1) c) ∧ ticket_acquisition t = id
  ∧ (base = head_snapshot c → generation = head_generation c → ticket_for c (next_ticket c) t).
Proof.
  unfold grant. destruct (checked_add u64_max now _); [|done].
  destruct (checked_add u64_max (next_ticket c) 1) as [next|] eqn:Hn; [|done]. intros [= <- <-].
  apply checked_add_Some in Hn as [-> _]. split; [done|]. split; [done|]. intros -> ->. done.
Qed.

Lemma grant_Err id holder base generation now c e c' : grant id holder base generation now c = (Err e, c') → c' = c.
Proof.
  unfold grant. destruct (checked_add u64_max now _); [|by intros [= _ <-]].
  destruct (checked_add u64_max (next_ticket c) 1); [done|by intros [= _ <-]].
Qed.

(** A grant that is recorded at once. *)
Lemma granted_goes id holder base generation now c t c' :
  grant id holder base generation now c = (Ok t, c') → base = head_snapshot c → generation = head_generation c →
  goes c (record_acquisition id (Granted t) c').
Proof.
  intros (-> & Hid & Hf)%grant_Ok Hb Hg [Hr Ha]. specialize (Hf Hb Hg).
  set (c' := with_active _ _). destruct (record_spec id (Granted t) c' Hr) as (Hr' & Hrec & _). split.
  - split; [done|]. intros t'. rewrite record_active. intros [= <-]. rewrite Hid, Hrec. by eexists.
  - apply (advanced_trans _ c'); [|apply advanced_core, record_core].
    split; try done; [cbn; lia|]. right; right. exists t, (next_ticket c). split; [done|]. split; [done|cbn; lia].
Qed.

Lemma grant_next_goes now l : ∀ c, goes c (grant_next now l c).
Proof.
  induction l as [|w l IH]; intros c; cbn [grant_next]; destruct (active c) as [t|]; try apply waiters_goes.
  destruct (_ || _) eqn:Hb; [eapply goes_trans; [apply record_goes|apply IH]|].
  rewrite orb_false_iff, !negb_false_iff, bool_decide_eq_true, N.eqb_eq in Hb. destruct Hb as [Hb Hg].
  destruct (grant _ _ _ _ _ _) as [[t|e] c'] eqn:Hgr.
  - eapply goes_trans; [by eapply granted_goes|apply IH].
  - apply grant_Err in Hgr as ->. eapply goes_trans; [apply record_goes|apply IH].
Qed.

Lemma record_positions_goes l : ∀ n c, goes c (record_positions n l c).
Proof.
  induction l as [|w l IH]; intros n c; cbn [record_positions].
  - apply goes_refl.
  - eapply goes_trans; [apply record_goes|apply IH].
Qed.

Lemma advance_goes now c : goes c (advance now c).
Proof.
  unfold advance. eapply goes_trans; [apply expire_active_goes|]. eapply goes_trans; [apply waiters_goes|].
  eapply goes_trans; [apply expire_waiters_goes|]. eapply goes_trans; [apply grant_next_goes|apply record_positions_goes].
Qed.

(** Waiters only leave. *)
Lemma expire_waiters_length now l : ∀ waiting c,
  length (waiters (expire_waiters now l waiting c)) ≤ length waiting + length l.
Proof.
  induction l as [|w l IH]; intros waiting c; cbn [expire_waiters]; [cbn; lia|].
  destruct (_ <=? _)%N; (etrans; [apply IH|]); rewrite ?length_app; cbn; lia.
Qed.

Lemma grant_next_length now l : ∀ c, length (waiters (grant_next now l c)) ≤ length l.
Proof.
  induction l as [|w l IH]; intros c; cbn [grant_next]; destruct (active c) as [t|]; try (cbn; lia).
  destruct (_ || _); [|destruct (grant _ _ _ _ _ _) as [[?|?] ?]]; (etrans; [apply IH|]); cbn; lia.
Qed.

Lemma record_positions_waiters l : ∀ n c, waiters (record_positions n l c) = waiters c.
Proof. induction l as [|w l IH]; intros n c; cbn [record_positions]; [done|]. by rewrite IH, record_waiters. Qed.

Lemma advance_waiters now c : length (waiters (advance now c)) ≤ length (waiters c).
Proof.
  unfold advance. rewrite record_positions_waiters. etrans; [apply grant_next_length|]. etrans; [apply expire_waiters_length|].
  cbn [length]. unfold expire_active. destruct (active c) as [t|]; [destruct (_ <=? _)%N|]; [|done..].
  by rewrite record_waiters.
Qed.

(** ** The invariant *)

Record writer_ok (c : WriterCoordinator) : Prop := {
  ok_tracked : tracked c;
  ok_commits : listed (commits c) (commit_order c) ∧ size (commits c) ≤ 1024;
  ok_waiters : (len (waiters c) ≤ max_waiters c)%N;
  ok_ticket t : active c = Some t → ∃ k, ticket_for c k t ∧ (k < next_ticket c)%N
}.

Lemma ticket_for_advanced c c' k t : advanced c c' → ticket_for c k t → ticket_for c' k t.
Proof. intros [Hd Hs Hg Ht _ _ _ _ _] [F1 F2 F3 F4 F5]. split; congruence. Qed.

(** The same without the bound on the waiters. *)
Definition guarded (c : WriterCoordinator) : Prop :=
  tracked c ∧ (listed (commits c) (commit_order c) ∧ size (commits c) ≤ 1024)
  ∧ ∀ t, active c = Some t → ∃ k, ticket_for c k t ∧ (k < next_ticket c)%N.

Lemma writer_ok_guarded c : writer_ok c ↔ guarded c ∧ (len (waiters c) ≤ max_waiters c)%N.
Proof. split; [by intros []|]. intros [(? & ? & ?) ?]. by split. Qed.

Lemma guarded_goes c c' : goes c c' → guarded c → guarded c' ∧ advanced c c'.
Proof.
  intros Hgo (Ht & Hc & Ha). destruct (Hgo Ht) as [Ht' Hadv]. split; [|done]. split; [done|].
  split; [by rewrite (adv_commits _ _ Hadv), (adv_commit_order _ _ Hadv)|]. intros t Hact.
  destruct (adv_active _ _ Hadv) as [Hn|[(t0 & e & x & Ht0 & Hact')|(t0 & k & Hact' & Hf & Hk)]]; [congruence| |].
  - rewrite Hact in Hact'. injection Hact' as ->. destruct (Ha t0 Ht0) as (k & Hf & Hk). exists k.
    split; [|pose proof (adv_next _ _ Hadv); lia]. apply (ticket_for_advanced c); [done|]. by destruct Hf; split.
  - rewrite Hact in Hact'. injection Hact' as ->. exists k. split; [by eapply ticket_for_advanced|lia].
Qed.

(** ** Operations that keep the head *)

Lemma acquire_goes id holder base generation now wait c : goes c (acquire id holder base generation now wait c).2.
Proof.
  unfold acquire. apply (goes_trans _ (advance now c)); [apply advance_goes|]. set (c1 := advance now c).
  destruct (_ || _); [apply goes_refl|]. destruct (acquisitions c1 !! id); [apply goes_refl|].
  destruct (_ || _) eqn:Hb; [apply record_goes|].
  rewrite orb_false_iff, !negb_false_iff, bool_decide_eq_true, N.eqb_eq in Hb. destruct Hb as [Hb Hg].
  case_bool_decide.
  { destruct (grant _ _ _ _ _ _) as [[t|e] c2] eqn:Hgr; [by eapply granted_goes|]. apply grant_Err in Hgr as ->. apply goes_refl. }
  destruct (_ || _); [apply record_goes|]. destruct (checked_add _ _ _); [|apply goes_refl].
  eapply goes_trans; [apply waiters_goes|apply record_goes].
Qed.

Lemma acquire_waiters id holder base generation now wait c :
  guarded c → (len (waiters c) ≤ max_waiters c)%N →
  let c' := (acquire id holder base generation now wait c).2 in (len (waiters c') ≤ max_waiters c')%N.
Proof.
  intros Hg Hw. pose proof (guarded_goes _ _ (advance_goes now c) Hg) as [_ Hadv]. cbn zeta.
  pose proof (guarded_goes _ _ (acquire_goes id holder base generation now wait c) Hg) as [_ Hacq].
  rewrite (adv_max _ _ Hacq). pose proof (advance_waiters now c) as Hle. unfold acquire. set (c1 := advance now c) in *.
  assert (Hle1 : (len (waiters c1) ≤ max_waiters c)%N) by (unfold len in *; lia).
  destruct (_ || _); [done|]. destruct (acquisitions c1 !! id); [done|].
  destruct (_ || _); [cbn; by rewrite record_waiters|]. case_bool_decide.
  { destruct (grant _ _ _ _ _ _) as [[t|e] c2] eqn:Hgr; [apply grant_Ok in Hgr as [-> _]; cbn; by rewrite record_waiters|].
    by apply grant_Err in Hgr as ->. }
  destruct (_ || _) eqn:Hfull; [cbn; by rewrite record_waiters|]. destruct (checked_add _ _ _); [|done].
  cbn [snd]. rewrite record_waiters. cbn. apply orb_false_iff in Hfull as [_ Hfull%N.leb_gt].
  rewrite (adv_max _ _ Hadv) in Hfull. unfold len in *. rewrite length_app. cbn. lia.
Qed.

Lemma renew_goes t now c : goes c (renew t now c).2.
Proof.
  unfold renew. apply (goes_trans _ (advance now c)); [apply advance_goes|]. set (c1 := advance now c).
  destruct (validate_active t now c1) as [[]|e]; [|apply goes_refl].
  destruct (active c1) as [a|] eqn:Ha; [|apply goes_refl]. destruct (checked_add u64_max (lease_epoch a) 1) as [e|]; [|apply goes_refl].
  assert (Hgo : ∀ x, goes c1 (with_active (Some (with_epoch a e x)) c1)).
  { intros x [Hr Hact]. split; [split; [done|]; intros t' [= <-]; exact (Hact a Ha)|].
    destruct (advanced_core c1 c1 eq_refl). split; try done. right; left. by exists a, e, x. }
  destruct (checked_add _ _ _) as [x|]; [eapply goes_trans; [apply (Hgo x)|apply record_goes]|apply Hgo].
Qed.

Lemma release_goes t now c : goes c (release t now c).2.
Proof.
  unfold release. apply (goes_trans _ (advance now c)); [apply advance_goes|]. set (c1 := advance now c).
  destruct (validate_active t now c1) as [[]|e]; [|apply goes_refl]. destruct (active c1); [|apply goes_refl].
  eapply goes_trans; [apply inactive_goes|]. eapply goes_trans; [apply record_goes|apply advance_goes].
Qed.

Lemma record_all_goes st l : ∀ c, goes c (record_all st l c).
Proof. induction l as [|w l IH]; intros c; [apply goes_refl|]. eapply goes_trans; [apply record_goes|apply IH]. Qed.

Lemma record_all_core st l : ∀ c, core (record_all st l c) = core c.
Proof.
  induction l as [|w l IH]; intros c; [done|]. unfold record_all. cbn [foldl].
  fold (record_all st l (record_acquisition (waiter_acquisition w) st c)). by rewrite IH, record_core.
Qed.

Definition drop_holder (holder : string) (c : WriterCoordinator) : WriterCoordinator :=
  match active c with
  | Some t => if bool_decide (ticket_holder t = holder)
              then record_acquisition (ticket_acquisition t) Released (with_active None c) else c
  | None => c
  end.

Lemma drop_holder_goes holder c : goes c (drop_holder holder c).
Proof.
  unfold drop_holder. destruct (active c); [|apply goes_refl]. destruct (bool_decide _); [|apply goes_refl].
  eapply goes_trans; [apply inactive_goes|apply record_goes].
Qed.

Lemma drop_holder_waiters holder c : waiters (drop_holder holder c) = waiters c.
Proof. unfold drop_holder. destruct (active c); [|done]. destruct (bool_decide _); [|done]. by rewrite record_waiters. Qed.

Lemma disconnect_goes holder now c : goes c (disconnect holder now c).
Proof.
  unfold disconnect. fold (drop_holder holder (advance now c)). apply (goes_trans _ (advance now c)); [apply advance_goes|].
  eapply goes_trans; [apply (drop_holder_goes holder)|]. eapply goes_trans; [apply waiters_goes|].
  eapply goes_trans; [apply record_all_goes|apply advance_goes].
Qed.

(** None of these adds a waiter. *)
Lemma renew_waiters t now c : length (waiters (renew t now c).2) ≤ length (waiters c).
Proof.
  unfold renew. pose proof (advance_waiters now c). destruct (validate_active _ _ _) as [[]|]; [|done].
  destruct (active _); [|done]. destruct (checked_add u64_max (lease_epoch _) 1); [|done].
  destruct (checked_add _ _ _); [|done]. cbn [snd]. by rewrite record_waiters.
Qed.

Lemma release_waiters t now c : length (waiters (release t now c).2) ≤ length (waiters c).
Proof.
  unfold release. pose proof (advance_waiters now c). destruct (validate_active _ _ _) as [[]|]; [|done].
  destruct (active _); [|done]. cbn [snd]. etrans; [apply advance_waiters|]. by rewrite record_waiters.
Qed.

Lemma disconnect_waiters holder now c : length (waiters (disconnect holder now c)) ≤ length (waiters c).
Proof.
  unfold disconnect. fold (drop_holder holder (advance now c)). etrans; [apply advance_waiters|].
  rewrite (f_equal waiters (record_all_core Released _ _) : waiters (record_all _ _ _) = _). cbn [waiters with_waiters].
  etrans; [apply length_filter|]. rewrite drop_holder_waiters. apply advance_waiters.
Qed.

(** ** Commits and terms *)

Lemma evict_commits_spec order : ∀ m,
  listed m order → let '(m', order') := evict_commits m order in listed m' order' ∧ size m' ≤ 1024 ∧ m' ⊆ m.
Proof.
  induction order as [|oldest order IH]; intros m Hl; cbn [evict_commits]; unfold MAX_COMMIT_RECORDS;
    destruct (N.ltb_spec 1024 (N.of_nat (size m))) as [Hbig|Hsmall]; try (split; [done|split; [lia|done]]).
  - rewrite (listed_size _ _ Hl) in Hbig. cbn in Hbig. lia.
  - specialize (IH (delete oldest m) (listed_delete m oldest _ order Hl (reflexivity _))).
    destruct (evict_commits _ _) as [m' order']. destruct IH as (Hl' & Hs & Hsub).
    split; [done|]. split; [done|]. etrans; [done|apply delete_subseteq].
Qed.

Lemma record_commit_spec key a r c :
  listed (commits c) (commit_order c) →
  let c' := record_commit key a r c in
  listed (commits c') (commit_order c') ∧ size (commits c') ≤ 1024 ∧ commits c' ⊆ <[key := (a, r)]> (commits c)
  ∧ with_commits ∅ [] c' = with_commits ∅ [] c.
Proof.
  intros Hl. unfold record_commit. pose proof (evict_commits_spec _ _ (listed_insert (commits c) (commit_order c) key (a, r) Hl)) as He.
  destruct (evict_commits _ _) as [m order]. destruct He as (Hl' & Hs & Hsub). done.
Qed.

(** What a commit that is not a replay does. *)
Record committed (a : CommitAttempt) (now : N) (c : WriterCoordinator) (r : CommitRecord) (c' : WriterCoordinator) : Prop := {
  com_ticket : ∃ k, ticket_for c k (attempt_ticket a) ∧ (k < next_ticket (advance now c))%N;
  com_lease : (now < expires_at (attempt_ticket a))%N;
  com_active : active (advance now c) = Some (attempt_ticket a);
  com_base : attempt_base_snapshot a = head_snapshot c ∧ attempt_base_generation a = head_generation c;
  com_record : r = mkCommitRecord (attempt_key a) (head_snapshot c) (head_generation c) (attempt_new_snapshot a)
                     (head_generation c + 1) (leader_term c);
  com_width : (head_generation c + 1 ≤ u64_max)%N;
  com_head : head_snapshot c' = attempt_new_snapshot a ∧ head_generation c' = (head_generation c + 1)%N;
  com_commits : commits c' ⊆ <[attempt_key a := (a, r)]> (commits c);
  com_waiters : length (waiters c') ≤ length (waiters c);
  com_max : max_waiters c' = max_waiters c
}.

Lemma validate_active_Ok t now c : validate_active t now c = Ok () → active c = Some t ∧ (now < expires_at t)%N.
Proof.
  unfold validate_active. destruct (active c) as [a|]; [|done]. intros Hf%fail_if_Ok.
  rewrite !orb_false_iff, !negb_false_iff, bool_decide_eq_true, N.leb_gt in Hf. by destruct Hf as [[[-> _] _] ?].
Qed.

Lemma commit_fresh a now c r c' :
  guarded c → commits c !! attempt_key a = None → guarded_commit a now c = (Ok r, c') →
  committed a now c r c' ∧ guarded c' ∧ ∃ c0, goes (with_active None (with_head (attempt_new_snapshot a) (head_generation c + 1) (advance now c))) c0
    ∧ ∃ m order, goes (with_commits m order c0) c'.
Proof.
  intros Hg Hk. unfold guarded_commit. destruct (_ || _); [done|]. rewrite Hk.
  destruct (guarded_goes _ _ (advance_goes now c) Hg) as [Hg1 Hadv]. set (c1 := advance now c) in *.
  destruct (validate_active _ _ _) as [[]|] eqn:Hv; [|done]. apply validate_active_Ok in Hv as [Ha Hlease]. rewrite Ha.
  destruct (_ || _) eqn:Hb; [done|]. rewrite !orb_false_iff, !negb_false_iff, !bool_decide_eq_true, !N.eqb_eq in Hb.
  destruct Hb as [[[Hb1 Hb2] _] _]. destruct (checked_add _ _ _) as [generation|] eqn:Hadd; [|done].
  apply checked_add_Some in Hadd as [-> Hwidth]. rewrite (adv_generation _ _ Hadv), (adv_snapshot _ _ Hadv) in *. intros [= <- <-].
  set (c2 := with_active None _). set (c3 := record_acquisition _ _ c2). set (r := mkCommitRecord _ _ _ _ _ _).
  destruct Hg1 as (Ht1 & Hc1 & Htk).
  assert (Hg2 : guarded c2) by (split; [split; [apply Ht1|done]|done]).
  destruct (guarded_goes _ _ (record_goes _ _ c2 : goes c2 c3) Hg2) as [Hg3 Hadv3].
  destruct (record_commit_spec (attempt_key a) a r c3 (proj1 (proj1 (proj2 Hg3)))) as (Hl4 & Hs4 & Hsub & Hframe).
  set (c4 := record_commit _ a r c3) in *.
  assert (Hn3 : active c3 = None) by (unfold c3; by rewrite record_active).
  assert (Hn4 : active c4 = None) by (rewrite <-Hn3; exact (f_equal active Hframe)).
  assert (Heq4 : c4 = with_commits (commits c4) (commit_order c4) c3).
  { destruct c4, c3. cbn in Hframe |- *. injection Hframe. by intros; subst. }
  assert (Hg4 : guarded c4).
  { split; [|split; [exact (conj Hl4 Hs4)|intros t Ht; rewrite Hn4 in Ht; discriminate Ht]].
    split; [rewrite Heq4; apply Hg3|intros t Ht; rewrite Hn4 in Ht; discriminate Ht]. }
  destruct (guarded_goes _ _ (advance_goes now c4) Hg4) as [Hg5 Hadv5].
  assert (Hhead : head_snapshot c4 = attempt_new_snapshot a ∧ head_generation c4 = (head_generation c + 1)%N).
  { rewrite Heq4. exact (conj (adv_snapshot _ _ Hadv3) (adv_generation _ _ Hadv3)). }
  split; [|split; [done|]].
  - destruct (Htk _ Ha) as (k & Hf & Hkn). split; [|exact Hlease|exact Ha|exact (conj Hb1 Hb2)| |exact Hwidth| | | |].
    + exists k. split; [|done]. destruct Hf, Hadv. split; congruence.
    + unfold r. by rewrite Hb1, Hb2, (adv_term _ _ Hadv).
    + rewrite (adv_snapshot _ _ Hadv5), (adv_generation _ _ Hadv5). exact Hhead.
    + rewrite (adv_commits _ _ Hadv5). etrans; [exact Hsub|]. by rewrite (adv_commits _ _ Hadv3), <-(adv_commits _ _ Hadv).
    + etrans; [apply advance_waiters|]. rewrite Heq4. change (length (waiters c3) ≤ length (waiters c)). unfold c3.
      rewrite record_waiters. apply advance_waiters.
    + rewrite (adv_max _ _ Hadv5), Heq4. change (max_waiters c3 = max_waiters c). by rewrite (adv_max _ _ Hadv3), <-(adv_max _ _ Hadv).
  - exists c3. split; [apply record_goes|]. exists (commits c4), (commit_order c4). rewrite <-Heq4. apply advance_goes.
Qed.

Definition fence_all (c : WriterCoordinator) : WriterCoordinator :=
  let c := match active c with
           | Some t => record_acquisition (ticket_acquisition t) WriterFenced (with_active None c)
           | None => c
           end in
  record_all WriterFenced (waiters c) (with_waiters [] c).

Lemma fence_all_goes c : goes c (fence_all c).
Proof.
  unfold fence_all. destruct (active c) as [t|].
  - eapply goes_trans; [apply inactive_goes|]. eapply goes_trans; [apply record_goes|].
    eapply goes_trans; [apply waiters_goes|apply record_all_goes].
  - eapply goes_trans; [apply waiters_goes|apply record_all_goes].
Qed.

Lemma fence_all_empty c : active (fence_all c) = None ∧ waiters (fence_all c) = [].
Proof.
  unfold fence_all. set (c1 := match active c with Some _ => _ | None => _ end).
  pose proof (record_all_core WriterFenced (waiters c1) (with_waiters [] c1)) as Hc.
  assert (active c1 = None) as Hn by (unfold c1; destruct (active c) eqn:Ha; [by rewrite record_active|done]).
  split; [rewrite <-Hn; exact (f_equal active Hc)|exact (f_equal waiters Hc)].
Qed.

Lemma change_term_Ok new_term now c c' :
  change_leader_term new_term now c = (Ok (), c') → c' = with_term new_term 1 (fence_all (advance now c)) ∧ (leader_term c < new_term)%N.
Proof. unfold change_leader_term. destruct (N.leb_spec new_term (leader_term c)); [done|]. by intros [= <-]. Qed.

Lemma change_term_guarded new_term now c :
  guarded c → guarded (change_leader_term new_term now c).2.
Proof.
  intros Hg. unfold change_leader_term. destruct (_ <=? _)%N; [done|]. cbn [snd]. fold (fence_all (advance now c)).
  destruct (guarded_goes _ _ (goes_trans _ _ _ (advance_goes now c) (fence_all_goes _)) Hg) as [(Ht & Hc & _) _].
  destruct (fence_all_empty (advance now c)) as [Hn _].
  split; [exact Ht|]. split; [exact Hc|]. intros t Hact. change (active (fence_all (advance now c)) = Some t) in Hact. congruence.
Qed.

(** ** Tickets over time *)

(** The numbers of tickets only grow, within a term and from term to term. *)
Record moved (c c' : WriterCoordinator) : Prop := {
  mov_database : coordinator_database c' = coordinator_database c;
  mov_order : (leader_term c < leader_term c')%N ∨ leader_term c' = leader_term c ∧ (next_ticket c ≤ next_ticket c')%N;
  mov_active : active c' = None
    ∨ (∃ t t', active c = Some t ∧ active c' = Some t' ∧ ticket_id t' = ticket_id t ∧ leader_term c' = leader_term c)
    ∨ ∃ t k, active c' = Some t ∧ ticket_id t = ticket_name (coordinator_database c) (leader_term c') k
        ∧ ((leader_term c < leader_term c')%N ∨ (next_ticket c ≤ k)%N) ∧ (k < next_ticket c')%N
}.

Lemma moved_trans c1 c2 c3 : moved c1 c2 → moved c2 c3 → moved c1 c3.
Proof.
  intros [Hd Ho Ha] [Hd' Ho' Ha']. split; [congruence|lia|].
  destruct Ha' as [Ha'|[(t2 & t3 & H2 & H3 & Hid & Ht)|(t & k & H3 & Hid & Hk & Hn)]]; [by left| |].
  - destruct Ha as [Ha|[(t1 & t2' & H1 & H2' & Hid' & Ht')|(t & k & H2' & Hid' & Hk & Hn)]]; [congruence| |].
    + right; left. exists t1, t3. split_and!; congruence.
    + right; right. exists t3, k. rewrite H2 in H2'. injection H2' as ->.
      split; [done|]. split; [congruence|]. split; lia.
  - right; right. exists t, k. split; [done|]. split; [congruence|]. split; [|done]. lia.
Qed.

Lemma advanced_moved c c' : advanced c c' → moved c c'.
Proof.
  intros [Hd _ _ Ht _ _ _ Hn Ha]. split; [done|by right|].
  destruct Ha as [Ha|[(t & e & x & H1 & H2)|(t & k & H2 & Hf & Hk)]]; [by left| |].
  - right; left. exists t, (with_epoch t e x). done.
  - right; right. exists t, k. rewrite Ht. split; [done|]. split; [by destruct Hf|]. lia.
Qed.

Lemma goes_moved c c' : guarded c → goes c c' → moved c c'.
Proof. intros Hg Hgo. apply advanced_moved. by apply guarded_goes. Qed.

Lemma fmt_decimal_inj a b : fmt_radix 10 a = fmt_radix 10 b → a = b.
Proof.
  intros Heq. pose proof (from_str_radix_fmt 10 (N.max a b) a ltac:(lia) ltac:(lia)) as Ha.
  rewrite Heq, (from_str_radix_fmt 10 (N.max a b) b) in Ha by lia. by injection Ha.
Qed.

Lemma ticket_name_inj database term k term' k' :
  ticket_name database term k = ticket_name database term' k' → term = term' ∧ k = k'.
Proof.
  unfold ticket_name. intros Heq. apply cut_at_length in Heq as [_ Heq]; [|done]. cbn in Heq. injection Heq as Heq.
  apply (cut_at_sep ":"%char) in Heq as [Ht%fmt_decimal_inj Hk%fmt_decimal_inj]; [done|apply fmt_radix_no_colon..].
Qed.

(** The ticket has been issued and its writer is no longer active. *)
Definition spent (t : WriterTicket) (c : WriterCoordinator) : Prop :=
  (∃ term k, ticket_id t = ticket_name (coordinator_database c) term k
     ∧ ((term < leader_term c)%N ∨ term = leader_term c ∧ (k < next_ticket c)%N))
  ∧ ∀ a, active c = Some a → ticket_id a ≠ ticket_id t.

Lemma spent_moved t c c' : moved c c' → spent t c → spent t c'.
Proof.
  intros [Hd Ho Ha] [(term & k & Hid & Hold) Hne]. split.
  - exists term, k. rewrite Hd. split; [done|]. lia.
  - intros a Hact. destruct Ha as [Ha|[(t1 & t2 & H1 & H2 & Hid' & _)|(t2 & k' & H2 & Hid' & Hk & _)]]; [congruence| |].
    + rewrite Hact in H2. injection H2 as ->. rewrite Hid'. by apply Hne.
    + rewrite Hact in H2. injection H2 as ->. rewrite Hid, Hid'. intros [Ht Hk2]%ticket_name_inj. lia.
Qed.

Lemma spent_fenced t now c : spent t c → validate_active t now c = Err Fenced.
Proof.
  intros [_ Hne]. unfold validate_active. destruct (active c) as [a|]; [|done].
  rewrite bool_decide_false; [done|]. intros ->. by apply (Hne t).
Qed.

(** ** Sequences of operations *)

Inductive WriterOp :=
| OpAcquire (id holder : string) (base : Cid) (generation now wait : N)
| OpRenew (ticket : WriterTicket) (now : N)
| OpRelease (ticket : WriterTicket) (now : N)
| OpValidate (ticket : WriterTicket) (now : N)
| OpDisconnect (holder : string) (now : N)
| OpChangeTerm (term now : N)
| OpCommit (attempt : CommitAttempt) (now : N)
| OpAdvance (now : N).

Inductive WriterReply :=
| RepAcquired (r : result SqliteError AcquisitionStatus)
| RepRenewed (r : result SqliteError WriterTicket)
| RepDone (r : result SqliteError unit)
| RepCommitted (r : result SqliteError CommitRecord).

Definition writer_step (op : WriterOp) (c : WriterCoordinator) : WriterReply * WriterCoordinator :=
  match op with
  | OpAcquire id holder base generation now wait => let '(r, c) := acquire id holder base generation now wait c in (RepAcquired r, c)
  | OpRenew t now => let '(r, c) := renew t now c in (RepRenewed r, c)
  | OpRelease t now => let '(r, c) := release t now c in (RepDone r, c)
  | OpValidate t now => let '(r, c) := validate_ticket t now c in (RepDone r, c)
  | OpDisconnect holder now => (RepDone (Ok ()), disconnect holder now c)
  | OpChangeTerm term now => let '(r, c) := change_leader_term term now c in (RepDone r, c)
  | OpCommit a now => let '(r, c) := guarded_commit a now c in (RepCommitted r, c)
  | OpAdvance now => (RepDone (Ok ()), advance now c)
  end.

Fixpoint writer_run (ops : list WriterOp) (c : WriterCoordinator) : list WriterReply * WriterCoordinator :=
  match ops with
  | [] => ([], c)
  | op :: ops =>
      let '(reply, c) := writer_step op c in
      let '(replies, c) := writer_run ops c in (reply :: replies, c)
  end.

(** A commit gives its ticket up. *)
Lemma commit_moved a now c r c' :
  guarded c → commits c !! attempt_key a = None → guarded_commit a now c = (Ok r, c') →
  moved c c' ∧ spent (attempt_ticket a) c'.
Proof.
  intros Hg Hk Hrun. destruct (commit_fresh a now c r c' Hg Hk Hrun) as (Hcom & Hg' & c0 & Hgo0 & m & order & Hgo1).
  destruct (guarded_goes _ _ (advance_goes now c) Hg) as [(Ht1 & _) Hadv]. set (c1 := advance now c) in *. set (c2 := with_active None _) in *.
  assert (moved c1 c2) as H12 by (split; [done|by right|by left]).
  assert (tracked c2) as Ht2 by (split; [apply Ht1|done]).
  destruct (Hgo0 Ht2) as [Ht0 H20%advanced_moved].
  assert (moved c0 (with_commits m order c0)) as H03.
  { split; [done|by right|]. destruct (active c0) as [t|] eqn:Ha; [right; left|by left]. by exists t, t. }
  destruct (Hgo1 Ht0) as [_ H34%advanced_moved].
  assert (moved c2 c') as H24 by (by eapply moved_trans, moved_trans).
  split; [eapply moved_trans; [by apply advanced_moved|by eapply moved_trans]|]. apply (spent_moved _ c2); [done|].
  destruct (com_ticket _ _ _ _ _ Hcom) as (k & [_ _ _ _ Hname] & Hlt). split; [|done].
  exists (leader_term c), k. split; [by rewrite Hname, <-(adv_database _ _ Hadv)|]. right. split; [symmetry; exact (adv_term _ _ Hadv)|done].
Qed.

Lemma commit_failed a now c e c' :
  guarded_commit a now c = (Err e, c') → goes c c' ∧ length (waiters c') ≤ length (waiters c).
Proof.
  unfold guarded_commit. destruct (_ || _); [intros [= _ <-]; split; [apply goes_refl|done]|].
  destruct (commits c !! attempt_key a) as [[prior record]|].
  { destruct (same_commit prior a); [done|]. intros [= _ <-]. split; [apply goes_refl|done]. }
  pose proof (advance_goes now c) as Hgo. pose proof (advance_waiters now c) as Hw.
  destruct (validate_active _ _ _) as [[]|]; [|by intros [= _ <-]]. destruct (active _); [|by intros [= _ <-]].
  destruct (_ || _); [by intros [= _ <-]|]. destruct (checked_add _ _ _); [done|by intros [= _ <-]].
Qed.

(** What an operation other than a commit does. *)
Lemma quiet_step op c :
  guarded c → match op with OpCommit _ _ => False | _ => True end →
  let c' := (writer_step op c).2 in
  guarded c' ∧ moved c c' ∧ head_snapshot c' = head_snapshot c ∧ head_generation c' = head_generation c ∧ commits c' = commits c
  ∧ ((len (waiters c) ≤ max_waiters c)%N → (len (waiters c') ≤ max_waiters c')%N).
Proof.
  intros Hg Hq.
  assert (Hgo : ∀ c', goes c c' → ((len (waiters c) ≤ max_waiters c)%N → (len (waiters c') ≤ max_waiters c')%N) →
    guarded c' ∧ moved c c' ∧ head_snapshot c' = head_snapshot c ∧ head_generation c' = head_generation c ∧ commits c' = commits c
    ∧ ((len (waiters c) ≤ max_waiters c)%N → (len (waiters c') ≤ max_waiters c')%N)).
  { intros c' Hgo Hw. destruct (guarded_goes _ _ Hgo Hg) as [Hg' Hadv].
    split; [done|]. split; [by apply advanced_moved|]. destruct Hadv. done. }
  assert (Hshrink : ∀ c', goes c c' → length (waiters c') ≤ length (waiters c) →
    (len (waiters c) ≤ max_waiters c)%N → (len (waiters c') ≤ max_waiters c')%N).
  { intros c' Hgo' Hl Hw. destruct (guarded_goes _ _ Hgo' Hg) as [_ Hadv]. rewrite (adv_max _ _ Hadv). unfold len in *. lia. }
  destruct op as [id holder base g now wait|t now|t now|t now|holder now|term now|a now|now]; cbn [writer_step]; [| | | | | |done|].
  - pose proof (acquire_goes id holder base g now wait c) as Ha. pose proof (acquire_waiters id holder base g now wait c Hg) as Hw.
    destruct (acquire _ _ _ _ _ _ c) as [r c']. by apply Hgo.
  - pose proof (renew_goes t now c) as Ha. pose proof (renew_waiters t now c) as Hw.
    destruct (renew t now c) as [r c']. by apply Hgo; [|apply Hshrink].
  - pose proof (release_goes t now c) as Ha. pose proof (release_waiters t now c) as Hw.
    destruct (release t now c) as [r c']. by apply Hgo; [|apply Hshrink].
  - cbn. apply Hgo; [apply advance_goes|]. apply Hshrink; [apply advance_goes|apply advance_waiters].
  - cbn. apply Hgo; [apply disconnect_goes|]. apply Hshrink; [apply disconnect_goes|apply disconnect_waiters].
  - pose proof (change_term_guarded term now c Hg) as Hg'. destruct (change_leader_term term now c) as [[[]|e] c'] eqn:Hc.
    + apply change_term_Ok in Hc as [-> Hlt]. pose proof (goes_trans _ _ _ (advance_goes now c) (fence_all_goes _)) as Hf.
      destruct (guarded_goes _ _ Hf Hg) as [_ Hadv]. destruct (fence_all_empty (advance now c)) as [Hn Hw].
      cbn. split; [exact Hg'|]. split; [|destruct Hadv as [_ Hs Hgn _ _ Hcm _ _ _]; split_and!; [done..|]; intros _; rewrite Hw; apply N.le_0_l].
      split; [exact (adv_database _ _ Hadv)|left; cbn; lia|left; exact Hn].
    + unfold change_leader_term in Hc. destruct (_ <=? _)%N; [|done]. injection Hc as _ <-. cbn. by apply Hgo; [apply goes_refl|].
  - cbn. apply Hgo; [apply advance_goes|]. apply Hshrink; [apply advance_goes|apply advance_waiters].
Qed.

(** What a commit does to the invariant. *)
Lemma writer_commit_step a now c :
  guarded c →
  let c' := (writer_step (OpCommit a now) c).2 in
  guarded c' ∧ moved c c' ∧ ((len (waiters c) ≤ max_waiters c)%N → (len (waiters c') ≤ max_waiters c')%N).
Proof.
  intros Hg. cbn [writer_step]. destruct (guarded_commit a now c) as [[r|e] c'] eqn:Hrun; cbn [snd].
  - destruct (commits c !! attempt_key a) as [[prior record]|] eqn:Hk.
    + unfold guarded_commit in Hrun. destruct (_ || _); [done|]. rewrite Hk in Hrun. injection Hrun as _ <-.
      split; [done|]. split; [by apply advanced_moved, advanced_core|done].
    + destruct (commit_fresh a now c r c' Hg Hk Hrun) as (Hcom & Hg' & _).
      split; [done|]. split; [by apply (commit_moved a now c r c')|]. destruct Hcom as [_ _ _ _ _ _ _ _ Hw Hm].
      rewrite Hm. unfold len. lia.
  - destruct (commit_failed a now c e c' Hrun) as [Hgo Hw]. destruct (guarded_goes _ _ Hgo Hg) as [Hg' Hadv].
    split; [done|]. split; [by apply advanced_moved|]. rewrite (adv_max _ _ Hadv). unfold len. lia.
Qed.

Lemma writer_step_ok op c :
  writer_ok c → writer_ok (writer_step op c).2 ∧ moved c (writer_step op c).2.
Proof.
  rewrite !writer_ok_guarded. intros [Hg Hw].
  assert (match op with OpCommit _ _ => True | _ => False end ∨ match op with OpCommit _ _ => False | _ => True end) as [Hop|Hop]
    by (destruct op; tauto).
  - destruct op as [| | | | | |a now|]; try done. destruct (writer_commit_step a now c Hg) as (? & ? & ?). auto.
  - destruct (quiet_step op c Hg Hop) as (? & ? & _ & _ & _ & ?). auto.
Qed.

Lemma writer_run_ok ops : ∀ c, writer_ok c → writer_ok (writer_run ops c).2 ∧ moved c (writer_run ops c).2.
Proof.
  induction ops as [|op ops IH]; intros c Hok; cbn [writer_run]; [split; [done|by apply advanced_moved, advanced_core]|].
  destruct (writer_step_ok op c Hok) as [Hok' Hm]. destruct (writer_step op c) as [reply c']. destruct (IH c' Hok') as [Hok'' Hm'].
  destruct (writer_run ops c') as [replies c'']. split; [done|by eapply moved_trans].
Qed.

Lemma new_writer_ok database cid generation term lease max c :
  coordinator_new database cid generation term lease max = Ok c → writer_ok c ∧ head_snapshot c = cid ∧ head_generation c = generation ∧ commits c = ∅.
Proof.
  intros ([] & _ & <-%Ok_inj)%bind_Ok. split; [|done].
  assert (∀ V, listed (∅ : gmap string V) []) as Hl.
  { intros V. split; [constructor|]. intros id. rewrite lookup_empty. split; [by intros ?%elem_of_nil|by intros []]. }
  split; cbn; [|split; [done|]|apply N.le_0_l|done]; [split; [|done]; split; [done|]|]; cbn [acquisitions commits]; rewrite map_size_empty; lia.
Qed.

(** C32: whatever operations are made, the coordinator's books are in order: at most
    1024 acquisition and 1024 commit records are kept and their queues list exactly the
    records kept, each once; no more writers wait than configured; and the active
    writer, whose acquisition record is never evicted, holds a ticket of the current
    term for exactly the current head. *)
Theorem writer_books_in_order database cid generation term lease max c ops :
  coordinator_new database cid generation term lease max = Ok c →
  let c' := (writer_run ops c).2 in
  listed (acquisitions c') (acquisition_order c') ∧ size (acquisitions c') ≤ 1024
  ∧ listed (commits c') (commit_order c') ∧ size (commits c') ≤ 1024
  ∧ (len (waiters c') ≤ max_waiters c')%N
  ∧ ∀ t, active c' = Some t → is_Some (acquisition_status (ticket_acquisition t) c')
      ∧ ticket_term t = leader_term c' ∧ ticket_base_snapshot t = head_snapshot c' ∧ ticket_base_generation t = head_generation c'.
Proof.
  intros [Hok _]%new_writer_ok. destruct (writer_run_ok ops c Hok) as [[[[Hl Hs] Hr] [Hc Hcs] Hw Ht] _]. cbn zeta.
  do 5 (split; [done|]). intros t Ha. split; [by apply Hr|]. by destruct (Ht t Ha) as (k & [] & _).
Qed.

Lemma release_spent t now c c' : guarded c → release t now c = (Ok (), c') → spent t c'.
Proof.
  intros Hg. unfold release. destruct (guarded_goes _ _ (advance_goes now c) Hg) as [(Ht1 & Hc1 & Htk) Hadv]. set (c1 := advance now c) in *.
  destruct (validate_active t now c1) as [[]|e] eqn:Hv; [|done]. apply validate_active_Ok in Hv as [Ha _]. rewrite Ha. intros [= <-].
  set (c2 := with_active None c1).
  assert (guarded c2) as Hg2 by (split; [split; [apply Ht1|done]|done]).
  apply (spent_moved _ c2); [apply goes_moved; [done|]; eapply goes_trans; [apply record_goes|apply advance_goes]|].
  destruct (Htk t Ha) as (k & [_ _ _ _ Hname] & Hk). split; [|done]. exists (leader_term c1), k. split; [done|by right].
Qed.

(** A ticket that has committed or was released is used up for good: after any later
    operations (new tickets, renewals, changes of the leader's term) it is fenced. *)
Theorem used_ticket_fenced database cid generation term lease max c0 before later t now now' c' :
  coordinator_new database cid generation term lease max = Ok c0 →
  let c := (writer_run before c0).2 in
  (∃ a r, attempt_ticket a = t ∧ commit_status (attempt_key a) c = None ∧ guarded_commit a now c = (Ok r, c'))
  ∨ release t now c = (Ok (), c') →
  (validate_ticket t now' (writer_run later c').2).1 = Err Fenced.
Proof.
  intros [Hok0 _]%new_writer_ok. cbn zeta. destruct (writer_run_ok before c0 Hok0) as [Hok _]. set (c := (writer_run before c0).2) in *.
  pose proof Hok as [Hg _]%writer_ok_guarded. intros Hused.
  assert (writer_ok c' ∧ spent t c') as [Hok' Hsp].
  { destruct Hused as [(a & r & <- & Hk & Hrun)|Hrun].
    - destruct (writer_step_ok (OpCommit a now) c Hok) as [Hok' _]. cbn [writer_step] in Hok'. rewrite Hrun in Hok'. split; [done|].
      unfold commit_status in Hk. apply fmap_None in Hk. by eapply commit_moved.
    - destruct (writer_step_ok (OpRelease t now) c Hok) as [Hok' _]. cbn [writer_step] in Hok'. rewrite Hrun in Hok'. split; [done|].
      by eapply release_spent. }
  destruct (writer_run_ok later c' Hok') as [Hok'' Hm]. pose proof Hok'' as [Hg'' _]%writer_ok_guarded. cbn [validate_ticket fst].
  apply spent_fenced, (spent_moved _ (writer_run later c').2); [apply goes_moved; [done|apply advance_goes]|by eapply spent_moved].
Qed.

(** ** The chain of heads *)

Definition chain (H : list (Cid * N)) : Prop :=
  ∀ i x y, H !! i = Some x → H !! S i = Some y → y.2 = (x.2 + 1)%N.

(** The record is the [i]-th step of the history. *)
Definition step_at (H : list (Cid * N)) (i : nat) (r : CommitRecord) : Prop :=
  H !! i = Some (record_base_snapshot r, record_base_generation r) ∧ H !! S i = Some (record_snapshot r, record_generation r).

Record history (H : list (Cid * N)) (c : WriterCoordinator) : Prop := {
  history_head : last H = Some (head_snapshot c, head_generation c);
  history_chain : chain H;
  history_commits key a r : commits c !! key = Some (a, r) → ∃ i, step_at H i r
}.

Lemma step_at_app H H' i r : step_at H i r → step_at (H ++ H') i r.
Proof. intros [? ?]. split; by apply lookup_app_l_Some. Qed.

Lemma chain_snoc H x y : chain H → last H = Some x → y.2 = (x.2 + 1)%N → chain (H ++ [y]).
Proof.
  intros Hc Hl Hy i u v Hu Hv. destruct (decide (S i < length H)) as [Hlt|Hge].
  - rewrite lookup_app_l in Hv by done. rewrite lookup_app_l in Hu by lia. by eapply Hc.
  - pose proof (lookup_lt_Some _ _ _ Hv) as Hlen. rewrite length_app in Hlen. cbn in Hlen.
    assert (S i = length H) as Hi by lia. rewrite Hi, lookup_app_r, Nat.sub_diag in Hv by lia. injection Hv as <-.
    rewrite lookup_app_l in Hu by lia. rewrite last_lookup, <-Hi in Hl. cbn in Hl. rewrite Hl in Hu. by injection Hu as ->.
Qed.

Lemma history_commit H a now c r c' (H' := H ++ [(attempt_new_snapshot a, head_generation c + 1)%N]) :
  history H c → committed a now c r c' → history H' c' ∧ step_at H' (length H - 1) r.
Proof.
  intros [Hl Hc Hk] [_ _ _ _ Hr _ [Hs Hg] Hsub _ _].
  assert (0 < length H) as Hpos by (destruct H; [done|cbn; lia]).
  assert (step_at H' (length H - 1) r) as Hstep.
  { rewrite Hr. split; cbn [record_base_snapshot record_base_generation record_snapshot record_generation].
    - apply lookup_app_l_Some. by rewrite last_lookup, <-Nat.sub_1_r in Hl.
    - replace (S (length H - 1)) with (length H) by lia. unfold H'. by rewrite lookup_app_r, Nat.sub_diag by lia. }
  split; [|done]. split; [unfold H'; by rewrite last_snoc, Hs, Hg|by eapply chain_snoc|].
  intros key a' r' Hkey. apply (lookup_weaken _ _ _ _ Hkey) in Hsub.
  apply lookup_insert_Some in Hsub as [[_ [= <- <-]]|[_ Hold]]; [by eexists|].
  destruct (Hk _ _ _ Hold) as [i Hi]. exists i. by apply step_at_app.
Qed.

Lemma history_step op H c :
  guarded c → history H c →
  let '(reply, c') := writer_step op c in
  ∃ new, history (H ++ new) c' ∧ (∀ r, reply = RepCommitted (Ok r) → ∃ i, step_at (H ++ new) i r)
    ∧ (∀ i, length H ≤ S i < length (H ++ new) → ∃ r, reply = RepCommitted (Ok r) ∧ step_at (H ++ new) i r).
Proof.
  intros Hg Hh. pose proof Hh as [Hl Hc Hk].
  assert (Hsame : ∀ c' reply, head_snapshot c' = head_snapshot c → head_generation c' = head_generation c → commits c' = commits c →
    (∀ r, reply = RepCommitted (Ok r) → ∃ i, step_at H i r) →
    ∃ new, history (H ++ new) c' ∧ (∀ r, reply = RepCommitted (Ok r) → ∃ i, step_at (H ++ new) i r)
    ∧ (∀ i, length H ≤ S i < length (H ++ new) → ∃ r, reply = RepCommitted (Ok r) ∧ step_at (H ++ new) i r)).
  { intros c' reply Hs Hgn Hcm Hr. exists []. rewrite app_nil_r. split; [split; [by rewrite Hs, Hgn|done|by rewrite Hcm]|]. split; [done|lia]. }
  destruct op as [| | | | | |a now|].
  7:{ cbn [writer_step]. destruct (guarded_commit a now c) as [[r|e] c'] eqn:Hrun.
    - destruct (commits c !! attempt_key a) as [[prior record]|] eqn:Hkey.
      + unfold guarded_commit in Hrun. destruct (_ || _); [done|]. rewrite Hkey in Hrun. destruct (same_commit prior a); [|done].
        injection Hrun as <- <-. apply Hsame; [done..|]. intros r [= <-]. by eapply Hk.
      + destruct (commit_fresh a now c r c' Hg Hkey Hrun) as (Hcom & _). destruct (history_commit H a now c r c' Hh Hcom) as [Hh' Hs].
        eexists. split; [exact Hh'|]. split; [intros r' [= <-]; by eexists|].
        intros i Hi. rewrite length_app in Hi. cbn in Hi. exists r. split; [done|]. by replace i with (length H - 1) by lia.
    - destruct (commit_failed a now c e c' Hrun) as [Hgo _]. destruct (guarded_goes _ _ Hgo Hg) as [_ Hadv].
      apply Hsame; [apply Hadv..|done]. }
  all: match goal with |- context [writer_step ?op ?c0] =>
    pose proof (quiet_step op c0 Hg I) as (_ & _ & Hs & Hgn & Hcm & _);
    assert (∀ r, (writer_step op c0).1 ≠ RepCommitted (Ok r)) as Hno
      by (intros r; cbn [writer_step]; repeat case_match; done);
    destruct (writer_step op c0) as [reply c']; by apply Hsame; [..|intros r ->; destruct (Hno r)] end.
Qed.

Lemma history_run ops : ∀ H c,
  writer_ok c → history H c →
  let '(replies, c') := writer_run ops c in
  ∃ new, history (H ++ new) c' ∧ (∀ r, RepCommitted (Ok r) ∈ replies → ∃ i, step_at (H ++ new) i r)
    ∧ (∀ i, length H ≤ S i < length (H ++ new) → ∃ r, RepCommitted (Ok r) ∈ replies ∧ step_at (H ++ new) i r).
Proof.
  induction ops as [|op ops IH]; intros H c Hok Hh; cbn [writer_run].
  { exists []. rewrite app_nil_r. split; [done|]. split; [by intros r ?%elem_of_nil|lia]. }
  pose proof Hok as [Hg _]%writer_ok_guarded. destruct (writer_step_ok op c Hok) as [Hok' _].
  pose proof (history_step op H c Hg Hh) as Hstep. destruct (writer_step op c) as [reply c1].
  destruct Hstep as (n1 & Hh1 & Hr1 & Hi1). specialize (IH _ c1 Hok' Hh1). destruct (writer_run ops c1) as [replies c2].
  destruct IH as (n2 & Hh2 & Hr2 & Hi2). exists (n1 ++ n2). rewrite (assoc_L (++)). split; [done|]. split.
  - intros r [<-|Hin]%elem_of_cons; [|by apply Hr2]. destruct (Hr1 r eq_refl) as [i Hi]. exists i. by apply step_at_app.
  - intros i Hi. destruct (decide (S i < length (H ++ n1))) as [Hlt|Hge].
    + destruct (Hi1 i ltac:(lia)) as (r & -> & Hs). exists r. split; [by left|by apply step_at_app].
    + destruct (Hi2 i ltac:(lia)) as (r & Hin & Hs). exists r. split; [by right|done].
Qed.

(** C15: commits are linearizable.  Over any sequence of operations there is one history
    of heads, from the initial head to the current one, in which the generation grows by
    one at each step; every commit that was answered with success (a first attempt or a
    replay) is one step of this history, from the base it named to its snapshot; and
    every step was answered to the commit that made it. *)
Theorem commits_linearizable database cid generation term lease max c ops :
  coordinator_new database cid generation term lease max = Ok c →
  let '(replies, c') := writer_run ops c in
  ∃ H, H !! 0 = Some (cid, generation) ∧ last H = Some (head_snapshot c', head_generation c') ∧ chain H
    ∧ (∀ r, RepCommitted (Ok r) ∈ replies → ∃ i, step_at H i r)
    ∧ (∀ i, S i < length H → ∃ r, RepCommitted (Ok r) ∈ replies ∧ step_at H i r).
Proof.
  intros (Hok & Hs & Hg & Hc)%new_writer_ok.
  assert (history [(cid, generation)] c) as Hh.
  { split; [by rewrite Hs, Hg|by intros [|i] x y Hx Hy|intros key a r; by rewrite Hc, lookup_empty]. }
  pose proof (history_run ops _ c Hok Hh) as Hrun. destruct (writer_run ops c) as [replies c'].
  destruct Hrun as (new & [Hl Hch _] & Hr & Hi). exists ([(cid, generation)] ++ new).
  split; [done|]. split; [done|]. split; [done|]. split; [done|]. intros i Hlt. apply Hi. cbn [length]. lia.
Qed.
