(* ===== verification/DagRetention.v ===== *)
(** * What a traversal protects

    A store that keeps the blocks of a traversal, and perhaps nothing else, still
    has the Merkle maps and the page tables that the traversal reached, with all
    blocks that their entries refer to: the premise of garbage collection. *)
From stdpp Require Import base gmap sets list strings sorting relations.
From S2P Require Import Prelude Types Merkle Dag DagFacts Namespace MerkleTree MerkleRefinement MerkleMap SqlitePages SqlitePagesFacts SqlitePageTable DagHandlers.

Section Retention.
Context `{Blake3} `{Hex} `{!HexLaws} `{Json Node} `{!JsonLaws Node} `{NamespaceJson}.
Context `{Json DatabaseDescriptor} `{Json SnapshotDescriptor} `{Json PageTableNode} `{!JsonLaws PageTableNode}.
Context {S : Type} `{MerkleStore S} `{!MerkleStoreLaws S}.
Context (registry : DagCodecRegistry) (limits : TraversalLimits).
Implicit Types (s : S) (t : Traversal) (c : Cid).

(** The blocks of the traversal are still there. *)
Definition retains s s' t : Prop := ∀ c b, c ∈ cids t → store_get s c = Ok b → store_get s' c = Ok b.

(** Every block of the traversal was read, and its links are in the traversal. *)
Definition closed s t : Prop :=
  ∀ c, c ∈ cids t → ∃ ls, block_links registry (store_get s) limits c = Ok ls ∧ ∀ b, b ∈ ls → b ∈ cids t.

Lemma traverse_closed s top t :
  traverse registry (store_get s) limits top = Some (Ok t) → closed s t ∧ top ∈ cids t.
Proof.
  intros Ht. destruct (traverse_spec registry (store_get s) limits top) as (r & Hr & Hc). rewrite Ht in Hr.
  injection Hr as <-. split; [|by apply (covers_exact _ _ _ _ _ Hc)]. intros c Hin.
  destruct (covers_readable _ _ _ _ _ Hc c Hin) as (ls & Hls). exists ls. split; [done|]. intros b Hb.
  apply (covers_exact _ _ _ _ _ Hc). apply (covers_exact _ _ _ _ _ Hc) in Hin. eapply rtc_r; [exact Hin|]. by exists ls.
Qed.

Lemma closed_links s t c h :
  closed s t → c ∈ cids t → registry !! codec c = Some h → requires_payload h = true →
  ∃ payload ls, store_get s c = Ok payload ∧ handler_links h payload limits = Ok ls ∧ ∀ b, b ∈ ls → b ∈ cids t.
Proof.
  intros Hcl Hin Hh Hreq. destruct (Hcl c Hin) as (ls & Hls & Hall). unfold block_links, handler in Hls.
  rewrite Hh in Hls. cbn [ok_or mbind result_bind] in Hls. rewrite Hreq in Hls. cbn [negb] in Hls.
  apply bind_Ok in Hls as (payload & Hp%map_err_Ok & ([] & _ & (ls' & Hl & ([] & _ & Heq%Ok_inj)%bind_Ok)%bind_Ok)%bind_Ok).
  subst ls'. by exists payload, ls.
Qed.

(** ** Merkle maps *)

Context (Hmerkle : registry !! CODEC_MERKLE_NODE = Some MerkleNodeCodecHandler) (mlimits : MerkleLimits).

Lemma decode_node_same payload l l' (node node' : Node) :
  decode_node payload l = Ok node → decode_node payload l' = Ok node' → node = node'.
Proof.
  unfold decode_node. intros ([] & _ & (n & Hn & ([] & _ & (cn & _ & ([] & _ & Hx%Ok_inj)%bind_Ok)%bind_Ok)%bind_Ok)%bind_Ok)%bind_Ok.
  intros ([] & _ & (n' & Hn' & ([] & _ & (cn' & _ & ([] & _ & Hx'%Ok_inj)%bind_Ok)%bind_Ok)%bind_Ok)%bind_Ok)%bind_Ok.
  congruence.
Qed.

Lemma load_node_at s s' c node payload :
  store_get s c = Ok payload → store_get s' c = Ok payload → load_node s c mlimits = Ok node →
  load_node s' c mlimits = Ok node.
Proof. unfold load_node. by intros -> ->. Qed.

Lemma load_node_links s t c node :
  closed s t → c ∈ cids t → load_node s c mlimits = Ok node →
  (∀ ch, ch ∈ node_children node → child_cid ch ∈ cids t) ∧ ∀ v, node_value node = Some v → Merkle.value_cid v ∈ cids t.
Proof.
  intros Hcl Hin Hl. pose proof Hl as Hl'. unfold load_node in Hl'.
  apply bind_Ok in Hl' as ([] & Hk%fail_if_Ok & (payload & Hp%map_err_Ok & ([] & _ & Hdec)%bind_Ok)%bind_Ok).
  apply negb_false_iff, N.eqb_eq in Hk.
  destruct (closed_links s t c MerkleNodeCodecHandler Hcl Hin) as (payload' & ls & Hp' & Hls & Hall); [by rewrite Hk|done|].
  rewrite Hp in Hp'. apply Ok_inj in Hp' as <-. cbn in Hls. apply map_err_Ok in Hls. unfold Merkle.links in Hls.
  apply bind_Ok in Hls as (node' & Hdec' & Heq%Ok_inj). rewrite (decode_node_same _ _ _ _ _ Hdec Hdec') in *. subst ls. split.
  - intros ch Hch. apply Hall, elem_of_app. left. apply list_elem_of_fmap. by exists ch.
  - intros v Hv. apply Hall, elem_of_app. right. rewrite Hv. by left.
Qed.

Lemma repr_retained strict s s' t tr : ∀ c,
  closed s t → retains s s' t → c ∈ cids t → repr mlimits strict s c tr →
  repr mlimits strict s' c tr ∧ ∀ k v, tlookup tr k = Some v → Merkle.value_cid v ∈ cids t.
Proof.
  induction tr as [p v cs IH] using tree_ind'. intros c Hcl Hret Hin Hr.
  inversion Hr as [? node ? ? Hl Hp Hb Hch]; subst. destruct (load_node_links s t c node Hcl Hin Hl) as [Hkids Hval].
  pose proof Hl as (_ & _ & payload & _ & _ & Hget)%load_inv.
  assert (Forall2 (λ ch ec, child_edge ch = ec.1 ∧ repr mlimits strict s' (child_cid ch) ec.2) (node_children node) cs
    ∧ Forall (λ ec, ∀ k v, tlookup ec.2 k = Some v → Merkle.value_cid v ∈ cids t) cs) as [Hch' Hvals].
  { clear Hr Hl Hp Hval Hget. revert Hkids. induction Hch as [|ch ec chs cs [He Hc] _ IHc]; intros Hkids; [by split; constructor|].
    apply Forall_cons in IH as [IHec IH]. destruct (IHc IH) as [Hchs Hvs]; [intros; apply Hkids; by right|].
    destruct (IHec (child_cid ch) Hcl Hret) as [Hr' Hv']; [apply Hkids; by left|done|]. by split; constructor. }
  split.
  - econstructor; [|done|done|done]. eapply load_node_at; [done|by apply Hret|done].
  - intros k w. rewrite tlookup_T. destruct (strip p k) as [[|e r]|]; [by apply Hval| |done].
    intros (child & Hf & Hw)%bind_Some. apply find_child_elem in Hf as Hin'.
    rewrite Forall_forall in Hvals. exact (Hvals _ Hin' _ _ Hw).
Qed.

(** C35: a store that keeps what a traversal listed still has every Merkle map that
    the traversal reached, with the blocks of all its values. *)
Theorem retained_map strict s s' top t root m :
  traverse registry (store_get s) limits top = Some (Ok t) → root ∈ cids t → represents mlimits strict s root m →
  retains s s' t →
  represents mlimits strict s' root m ∧ ∀ k v, m !! k = Some v → Merkle.value_cid v ∈ cids t.
Proof.
  intros [Hcl _]%traverse_closed Hin (tr & Hr & Hcan & Hb & Hm) Hret.
  destruct (repr_retained strict s s' t tr root Hcl Hret Hin Hr) as [Hr' Hv]. split; [by exists tr|].
  intros k v. rewrite Hm. apply Hv.
Qed.

(** ** Page tables *)

Context (Htables : registry !! CODEC_SQLITE_PAGE_TABLE = Some SqlitePageTableCodecHandler)
  (flimits : SqliteFormatLimits) (Hmax : (max_page_count flimits ≤ u32_max)%N).

Lemma get_node_at s s' c node payload :
  store_get s c = Ok payload → store_get s' c = Ok payload → get_node flimits s c = Ok node → get_node flimits s' c = Ok node.
Proof. unfold get_node. by intros -> ->. Qed.

Lemma get_node_links s t c node :
  closed s t → c ∈ cids t → get_node flimits s c = Ok node →
  ∃ payload, store_get s c = Ok payload ∧
  ∀ x, x ∈ match node_kind node with Internal => child_node <$> children node | Leaf => pack_cid <$> pages node end → x ∈ cids t.
Proof.
  intros Hcl Hin Hg. pose proof (get_node_codec _ _ _ _ Hg) as Hk.
  destruct (get_node_inv _ _ _ _ Hg) as (payload & Hp & Hto & _ & Hv). exists payload. split; [done|].
  destruct (closed_links s t c SqlitePageTableCodecHandler Hcl Hin) as (payload' & ls & Hp' & Hls & Hall); [by rewrite Hk|done|].
  rewrite Hp in Hp'. apply Ok_inj in Hp' as <-. cbn in Hls.
  apply bind_Ok in Hls as (value & Hd%map_err_Ok & ([] & _ & ([] & _ & Heq%Ok_inj)%bind_Ok)%bind_Ok).
  unfold SqlitePages.decode_canonical in Hd. apply bind_Ok in Hd as ([] & _ & (value' & Hf%map_err_Ok & (enc & _ & ([] & _ & Hval%Ok_inj)%bind_Ok)%bind_Ok)%bind_Ok).
  subst value'. rewrite (from_slice_to_vec _ _ Hto) in Hf. apply Ok_inj in Hf as <-. subst ls. intros x Hx. apply Hall.
  unfold PageTableNode_links. by rewrite elem_of_dedup, sort_cids_perm.
Qed.

Lemma denotes_retained h s s' t : ∀ p c node m,
  closed s t → retains s s' t → c ∈ cids t → get_node flimits s c = Ok node →
  denotes flimits h p s node m →
  get_node flimits s' c = Ok node ∧ denotes flimits h p s' node m ∧
  ∀ n pg, m !! n = Some pg → pack_cid pg ∈ cids t.
Proof.
  induction h as [|h IH]; intros p c node m Hcl Hret Hin Hg Hd;
    destruct (get_node_links s t c node Hcl Hin Hg) as (payload & Hp & Hall);
    (split; [eapply get_node_at; [exact Hp|by apply Hret|done]|]); destruct Hd as [Hpre Hd].
  - destruct Hd as (ps & -> & Hok & Hm). split; [split; [done|by exists ps]|]. intros n pg. rewrite Hm. intros Hpg.
    apply page_in_Some in Hpg as [Hpg _]; [|apply Hok]. apply Hall. apply list_elem_of_fmap. by exists pg.
  - destruct Hd as (cs & -> & Hdep & Hok & Hcs).
    assert (∀ e cid, child_at cs e = Some cid → cid ∈ cids t) as Hkids.
    { intros e cid Hc. apply Hall, list_elem_of_fmap. exists (mkTableChild e cid). split; [done|].
      by apply child_at_Some in Hc; [|apply Hok]. }
    split.
    + split; [done|]. exists cs. split_and!; [done..|]. intros e. specialize (Hcs e). destruct (child_at cs e) as [cid|] eqn:Hc; [|done].
      destruct Hcs as (Hne & child & Hgc & Hdc). split; [done|]. exists child.
      destruct (IH _ _ _ _ Hcl Hret (Hkids e cid Hc) Hgc Hdc) as (? & ? & _). done.
    + intros n pg Hn. pose proof (Hpre n pg Hn) as Hnp. destruct (has_prefix_next p n Hnp) as [e He]; [lia|].
      specialize (Hcs e). assert (restrict (p ++ [e]) m !! n = Some pg) as Hne by (by rewrite lookup_restrict, decide_True).
      destruct (child_at cs e) as [cid|] eqn:Hc; [|by rewrite Hcs in Hne].
      destruct Hcs as (_ & child & Hgc & Hdc). destruct (IH _ _ _ _ Hcl Hret (Hkids e cid Hc) Hgc Hdc) as (_ & _ & Hpk).
      by apply (Hpk n).
Qed.

(** A store that keeps what a traversal listed still has every page table that
    the traversal reached: reads are unchanged, and the packs of all pages are among
    the blocks kept. *)
Theorem retained_table s s' top t root m :
  traverse registry (store_get s) limits top = Some (Ok t) → root ∈ cids t → table flimits s root m →
  retains s s' t →
  table flimits s' root m ∧ reads_as flimits s' root m ∧
  ∀ n pg, m !! n = Some pg → pack_cid pg ∈ cids t.
Proof.
  intros [Hcl _]%traverse_closed Hin (node & Hg & Hd) Hret.
  destruct (denotes_retained 3 s s' t [] root node m Hcl Hret Hin Hg Hd) as (Hg' & Hd' & Hpk).
  assert (table flimits s' root m) as Ht by (by exists node).
  split_and!; [done|by apply table_reads|done].
Qed.

End Retention.
