(* ===== verification/DagExamples.v ===== *)
(** * Traversals at work

    The traversal run over the stores of the earlier examples, and the theorems of
    [DagRetention] applied to stores that keep only what it lists. *)
From stdpp Require Import base gmap sets list strings sorting relations.
From Stdlib Require Import Strings.Byte.
From S2P Require Import Prelude Types Merkle Reference Dag DagFacts Namespace MerkleTree MerkleRefinement MerkleMap MerkleExamples.
From S2P Require Import SqlitePages SqlitePagesFacts SqlitePageTable SqliteBulk SqliteExamples DagHandlers DagRetention.

#[local] Existing Instances ref_blake3 ref_hex ref_hex_laws ref_store.
#[local] Existing Instances MerkleExamples.node_json MerkleExamples.node_json_laws SqliteExamples.node_json SqliteExamples.node_json_laws.

(** A registry that reads Merkle nodes and page tables. *)
Definition registry : DagCodecRegistry :=
  match (r ← register RawCodecHandler ∅;
         r ← register SmallObjectCodecHandler r;
         r ← register MerkleNodeCodecHandler r;
         register SqlitePageTableCodecHandler r) with
  | Ok r => r
  | Err _ => ∅
  end.

Lemma registry_merkle : registry !! CODEC_MERKLE_NODE = Some MerkleNodeCodecHandler.
Proof. reflexivity. Qed.
Lemma registry_tables : registry !! CODEC_SQLITE_PAGE_TABLE = Some SqlitePageTableCodecHandler.
Proof. reflexivity. Qed.

(** What the traversal lists, and the store that keeps only that. *)
Definition listed (s : gmap Cid bytes) (root : Cid) : Traversal :=
  match traverse registry (store_get s) TraversalLimits_default root with
  | Some (Ok t) => t
  | _ => mkTraversal [] 0 0
  end.

Definition collected (s : gmap Cid bytes) (t : Traversal) : gmap Cid bytes := filter (λ kb, kb.1 ∈ cids t) s.

Lemma listed_ok s root :
  match traverse registry (store_get s) TraversalLimits_default root with Some (Ok _) => true | _ => false end = true →
  traverse registry (store_get s) TraversalLimits_default root = Some (Ok (listed s root)).
Proof. unfold listed. by destruct (traverse _ _ _ _) as [[t|e]|]. Qed.

Lemma collected_retains s t : retains s (collected s t) t.
Proof.
  intros c b Hc. cbn. unfold collected. destruct (s !! c) as [p|] eqn:Hs; [|done]. intros [= ->].
  by rewrite (map_lookup_filter_Some_2 _ _ _ b Hs Hc).
Qed.

Definition live : gmap Cid bytes := collected sample_store (listed sample_store sample_root).

Lemma retained_map_witness :
  represents small true live sample_root sample_map ∧
  ∀ k v, sample_map !! k = Some v → Merkle.value_cid v ∈ cids (listed sample_store sample_root).
Proof.
  apply (retained_map registry TraversalLimits_default registry_merkle small true sample_store live sample_root
           (listed sample_store sample_root) sample_root sample_map).
  - apply listed_ok. vm_compute. reflexivity.
  - apply (bool_decide_unpack (sample_root ∈ cids (listed sample_store sample_root))). vm_compute. exact I.
  - exact sample_represents.
  - apply collected_retains.
Defined.

Definition table_root : Cid := new_root SqliteExamples.built.1.
Definition table_store : gmap Cid bytes := SqliteExamples.built.2.

Lemma retained_table_witness :
  table limits (collected table_store (listed table_store table_root)) table_root (pages_map two_leaves) ∧
  reads_as limits (collected table_store (listed table_store table_root)) table_root (pages_map two_leaves) ∧
  ∀ n pg, pages_map two_leaves !! n = Some pg → pack_cid pg ∈ cids (listed table_store table_root).
Proof.
  apply (retained_table registry TraversalLimits_default registry_tables limits limits_fit table_store _ table_root
           (listed table_store table_root) table_root (pages_map two_leaves)).
  - apply listed_ok. vm_compute. reflexivity.
  - apply (bool_decide_unpack (table_root ∈ cids (listed table_store table_root))). vm_compute. exact I.
  - exact sample_table.
  - apply collected_retains.
Defined.
