(* ===== verification/PublicationExamples.v ===== *)
(** * A node that publishes

    A node with the replica of [ConsensusExamples], whose proposals are appended to the
    log of its group and applied.  It publishes a tree durably; and after two writes and a
    restart it publishes nothing any more, because the writes that it applies again
    protect a root that the second of them released. *)
From stdpp Require Import base gmap sets list strings sorting.
From Stdlib Require Import Strings.Byte.
From S2P Require Import Prelude Types Tables Merkle Reference MerkleTree MerkleRefinement MerkleExamples Dag DagFacts DagExamples Namespace.
From S2P Require Import NamespaceCheckpoints NamespaceReference Commit Pins PinsFacts Consensus ConsensusLog ConsensusFacts ConsensusExamples.
From S2P Require Import Publication PublicationFacts.

#[export] Instance PinRecord_ser : Ser PinRecord.
Proof.
  refine (inj_ser (B := string * Cid * string * N * Z * option Z * string * string)
    (λ p, (pin_id p, pin_root p, pin_owner p, pin_replication_factor p, pin_created_at p, pin_expires_at p, pin_status p, Pins.signature_hex p))
    (λ '(i, r, o, f, c, e, s, h), mkPin i r o f c e s h) _).
  by intros [].
Defined.

(** No block of the sample is a manifest. *)
#[export] Instance no_manifests : Json ErasureManifest := {| to_vec _ := Err "no manifests"; from_slice _ := Err "no manifests" |}.

(** ** The services of a node that is the only voter of its group *)

Notation replica := (StateMachineStore (gmap Cid bytes)).

(** The entry of a proposal is written to the log and applied. *)
Definition local_propose (_ : NamespaceId) (_ : PublicationGuard) (c : CommandEnvelope) : stm (ConsensusTables * replica) PublicationError ConsensusResponse :=
  λ '(t, m),
  let index := (applied_index (memory m) + 1)%N in
  let e := log_entry index c in
  let failed := (Err (NamespaceFailed "write failed"), (t, m)) in
  if (u64_max <? index)%N then failed
  else
    match append [e] 60 (LogStore_new (machine_group m) 1000000, t) with
    | (Ok _, (_, t1)) =>
        match apply_log 60 [e] (m, t1) with
        | (Ok [[r]], (m2, t2)) => (Ok r, (t2, m2))
        | _ => failed
        end
    | _ => failed
    end.

#[export] Instance sample_services : Services replica := {|
  hit _ := mret ();
  apply_current_fault _ := mret ();
  unix_seconds _ := 100%Z;
  ensure_durable c k p := mret (mkReceipt c p (codec c) 1 k ["n1"] "durable");
  propose_command := local_propose;
  linearizable_namespace_state _ := reads (λ m, Ok (namespace_state (memory m)));
  resolve m c := store_get (data_store m) c
|}.

Definition sample_identity : Identity := mkIdentity (λ b, b) "n1" 1.
#[local] Instance sample_backend : ProtectionBackend PinTables := AgentProtectionBackend sample_identity.

Definition no_pins : PinTables := mkPinTables ∅ ∅.

Definition node_on (t : ConsensusTables) (m : replica) : Publication.Node replica :=
  mkNode (mkMetadata no_pins ∅ ∅ ∅ t ∅) m.

(** ** A durable publication *)

(** The blocks of the sample tree are on the node. *)
Definition with_blocks (s : gmap Cid bytes) (m : replica) : replica :=
  mkStateMachine (machine_group m) (data_store m ∪ s) (memory m) (current_snapshot m) (shared_epoch m) (last_persisted_applied m).

Definition start_node : Publication.Node replica := node_on served.2.2 (with_blocks sample_store served.2.1).

Definition state2 : NamespaceState := namespace_state (memory served.2.1).

Definition tree_request : PublicationRequest :=
  mkPublicationRequest (namespace_id genesis)
    (mkEnvelope "r3" "ops" 9 "ab" (ApplyTransaction (mkTransactionCommand (current_revision state2) (current_root_cid state2)
      [Put (hex_encode [x62]) sample_root "tree" ∅ Absent] None)))
    [sample_root] [] [] 100 60 false None.

Definition published_tree := publish_guarded PublicationLimits_default registry tree_request NoGuard 70 start_node.
Definition no_publication : PublicationResult :=
  mkPublicationResult (mkApplyResult (Snapshot (mkSnapshotResponse (mkNamespaceId sample_root) "" 0 sample_root false)) [] false) [] "".
Definition tree_result : PublicationResult := answer_of no_publication published_tree.

Lemma replica_calls (w w' : replica) : calls w w' → w' = w.
Proof. by intros []. Qed.

Lemma sample_answers : answers_for (W := replica).
Proof. by intros c k p w r w' [= <- _]. Qed.

(** A proposal that is applied. *)
Lemma local_propose_cases ns g c t m r t' m' :
  local_propose ns g c (t, m) = (r, (t', m')) →
  (t', m') = (t, m) ∨
  ∃ e l' t1 rs, entry_at e = (applied_index (memory m) + 1)%N ∧ (applied_index (memory m) < u64_max)%N ∧
    append [e] 60 (LogStore_new (machine_group m) 1000000, t) = (Ok (), (l', t1)) ∧ apply_log 60 [e] (m, t1) = (Ok rs, (m', t')).
Proof.
  unfold local_propose. destruct (N.ltb_spec u64_max (applied_index (memory m) + 1)) as [|Hle]; [intros [= _ <- <-]; by left|].
  set (e := log_entry _ c). destruct (append _ _ _) as [[[]|] [l' t1]] eqn:Ha; [|intros [= _ <- <-]; by left].
  destruct (apply_log 60 [e] (m, t1)) as [[rs|] [m2 t2]] eqn:Hl; [|intros [= _ <- <-]; by left].
  destruct rs as [|[|x [|]] [|]]; intros [= _ <- <-]; try by left. right. exists e, l', t1, [[x]]. split_and!; [done|lia|done|done].
Qed.

Lemma sample_keeps : keeps_blocks (W := replica).
Proof.
  intros w w' c b [w1 Hc|ns g cmd t] Hb; [by rewrite (replica_calls _ _ Hc)|].
  change (propose_command ns g cmd (t, w)) with (local_propose ns g cmd (t, w)).
  destruct (local_propose ns g cmd (t, w)) as [r [t' m']] eqn:Hp.
  apply local_propose_cases in Hp as [[= -> ->]|(e & l' & t1 & rs & _ & _ & _ & Ha)]; [done|].
  apply apply_log_runs in Ha as [Hrun _]. exact (runs_keeps _ _ _ _ _ _ Hrun c b Hb).
Qed.

Lemma publish_is_durable_witness :
  ∃ r, r ∈ published_durability tree_result ∧ receipt_cid r = sample_root ∧ receipt_status r = "durable".
Proof.
  destruct (publish_is_durable PublicationLimits_default registry tree_request NoGuard 70 start_node tree_result published_tree.2)
    as (w & required & req & _ & _ & _ & Hall).
  - exact sample_answers.
  - exact sample_keeps.
  - assert (is_Ok published_tree.1 = true) as Hok by (vm_compute; reflexivity).
    unfold tree_result, answer_of. fold published_tree. destruct published_tree as [[p|e] n]; [reflexivity|done].
  - destruct (Hall sample_root) as (r & Hr & Hc & Hs); [apply part_root; left; by left|].
    exists r. split; [exact Hr|]. split; [exact Hc|]. unfold satisfies in Hs. apply andb_true_iff in Hs as [[_ Hs]%andb_true_iff _].
    by apply bool_decide_eq_true in Hs.
Defined.

(** ** A restart *)

Definition reconciled (n : Publication.Node replica) : Publication.Node replica := (reconcile_pin_intents n).2.

(** The first write, and its intents. *)
Definition node1 : Publication.Node replica := reconciled (node_on served1.2.2 served1.2.1).
(** The second. *)
Definition applied2 := apply_log (S := gmap Cid bytes) 20 [second] (services node1, consensus_tables (metadata node1)).
Definition node2 : Publication.Node replica := reconciled (mkNode (set_consensus applied2.2.2 (metadata node1)) applied2.2.1).
(** The node stops, opens its state again and applies the two writes again. *)
Definition host2 : Host := machine_of (open group (data_store applied2.2.1) genesis (consensus_tables (metadata node2))).
Definition replay := apply_log (S := gmap Cid bytes) 30 [first; second] host2.
Definition node3 : Publication.Node replica := mkNode (set_consensus host2.2 (metadata node2)) replay.2.1.

Definition replayed_entries :=
  apply_entries (S := gmap Cid bytes) 30 (mkProgress (memory host2.1) [] [] [] false) [first; second] (data_store host2.1).
Definition replayed_intents : list PublicationIntentRecord :=
  publication_intents (answer_of (mkProgress (memory host2.1) [] [] [] false) replayed_entries).

(** The intent of the first write to protect its root. *)
Definition no_intent : PublicationIntentRecord := mkIntent "" (mkNamespaceId sample_root) 0 "" sample_root Release "" "" 0.
Definition first_intent : PublicationIntentRecord := default no_intent (head replayed_intents).

(** ** Proposals leave the intent alone *)

Lemma append_keeps_intent e now l t l' t' k i g idx :
  append [e] now (l, t) = (Ok (), (l', t')) → plain (log_group l) → plain g → (idx ≤ u64_max)%N → (entry_at e ≤ u64_max)%N → entry_at e ≠ idx →
  intent_at g idx k → live_intents t !! k = Some i → live_intents t' !! k = Some i.
Proof.
  intros Ha Hl Hg Hidx He Hne Hk Hi. unfold append in Ha. destruct (encode_entries [e]) as [encoded|]; [|done].
  destruct (log_bytes (l, t)) as [[total|] [l1 t1]] eqn:Hb; [|done]. apply log_bytes_tables in Hb as [-> Hgr].
  destruct (_ <? _)%N; [done|]. injection Ha as _ <-. cbn [live_intents set_group_intents set_log fmap list_fmap concat].
  rewrite Hgr, app_nil_r.
  assert (Forall (λ j, intent_id j ≠ k) (proposal_protection_intents (log_group l) e now)) as Hall.
  { unfold proposal_protection_intents.
    destruct (entry_payload e) as [|cs|]; [constructor| |constructor]. destruct (parse_namespace_id _); [|constructor].
    apply Forall_concat. rewrite Forall_fmap. apply Forall_true. intros c. cbn [compose]. rewrite Forall_fmap. apply Forall_true.
    intros v. cbn [compose intent_id]. intros <-. apply Hne. eapply (intent_at_same (log_group l) g); [done..| |exact Hk].
    unfold intent_at. eexists. by rewrite !sapp_assoc. }
  revert Hall. generalize (proposal_protection_intents (log_group l) e now). intros js Hall.
  revert Hi. generalize (live_intents t). induction Hall as [|j js' Hj _ IH]; intros live Hi; [exact Hi|]. cbn [foldl]. apply IH. by rewrite lookup_insert_ne.
Qed.

Definition past_first (_ : ConsensusTables) (m : replica) : Prop := machine_group m = group ∧ (2 ≤ applied_index (memory m))%N.

Lemma past_first_keeps i : intent_at group 1 (intent_id i) → keeps_intent i past_first.
Proof.
  intros Hi. split; [by intros t w w' Hc%replica_calls Hf; subst w'|].
  intros ns g c t m [Hg Ha]. change (propose_command ns g c (t, m)) with (local_propose ns g c (t, m)).
  destruct (local_propose ns g c (t, m)) as [r [t' m']] eqn:Hp.
  apply local_propose_cases in Hp as [[= -> ->]|(e & l' & t1 & rs & He & Hlt & Happ & Hlog)]; [done|].
  assert (machine_group m' = group ∧ applied_index (memory m') = entry_at e) as [Hg' Ha'].
  { apply apply_log_runs in Hlog as (Hrun & Hgr & _). split; [congruence|]. inversion Hrun as [|? ? ? ? ? ? ? ? ? ? Hone Hrest]; subst.
    inversion Hrest; subst. by apply apply_entry_index in Hone. }
  split; [split; [done|lia]|]. intros Hlive.
  apply (append_keeps_intent _ _ _ _ _ _ (intent_id i) i group 1%N) in Happ; [|cbn; rewrite Hg; apply group_plain|apply group_plain|done|lia|lia|done|done].
  eapply (apply_log_keeps _ _ _ _ _ _ _ _ _ group 1%N); [exact Hlog|rewrite Hg; apply group_plain|apply group_plain|done|done| |done].
  constructor; [lia|constructor].
Qed.

Definition deletedb (u : gmap string PinRecord) (k : string) : bool :=
  match u !! k with Some p => bool_decide (pin_status p = "deleted") | None => false end.

Lemma deletedb_ok u k : deletedb u k = true → is_deleted u k.
Proof. unfold deletedb, is_deleted. destruct (u !! k) as [p|]; [|done]. intros Hp%bool_decide_eq_true. eauto. Qed.

Lemma namedb_ok u : forallb (λ kp, bool_decide (pin_id kp.2 = kp.1)) (map_to_list u) = true → named u.
Proof.
  intros Hall k p Hk. eapply forallb_forall in Hall; [|apply list_elem_of_In, elem_of_map_to_list, Hk]. by apply bool_decide_eq_true in Hall.
Qed.

Lemma head_elem {A} (d : A) l : negb (bool_decide (length l = 0)) = true → default d (head l) ∈ l.
Proof. destruct l as [|a l]; [done|]. intros _. by left. Qed.

Lemma nodupb_ok (l : list string) : bool_decide (NoDup l) = true → NoDup l.
Proof. apply bool_decide_eq_true. Qed.

Lemma replay_stops_publication_witness :
  Forall (λ r, is_Ok r = false) (publish_all sample_identity PublicationLimits_default registry [(tree_request, NoGuard, 70%Z)]
    (mkNode (set_consensus replay.2.2 (metadata node3)) (services node3))).
Proof.
  apply (replay_stops_publication sample_identity PublicationLimits_default registry 30 [first; second] host2.1 node3
    (answer_of [] replay) replay.2.1 replay.2.2 replayed_intents first_intent past_first).
  - assert (consensus_tables (metadata node3) = host2.2) as -> by reflexivity. rewrite <-surjective_pairing. apply ran. vm_compute. reflexivity.
  - exists (answer_of (mkProgress (memory host2.1) [] [] [] false) replayed_entries), replayed_entries.2. split; [|reflexivity].
    assert (is_Ok replayed_entries.1 = true) as Hok by (vm_compute; reflexivity).
    change (replayed_entries = (Ok (answer_of (mkProgress (memory host2.1) [] [] [] false) replayed_entries), replayed_entries.2)).
    revert Hok. generalize replayed_entries. intros [[a|e] b]; done.
  - apply nodupb_ok. vm_compute. reflexivity.
  - apply head_elem. vm_compute. reflexivity.
  - vm_compute. reflexivity.
  - apply namedb_ok. vm_compute. reflexivity.
  - apply deletedb_ok. vm_compute. reflexivity.
  - apply past_first_keeps. apply (bool_decide_unpack (intent_at group 1 (intent_id first_intent))). vm_compute. exact I.
  - split; [vm_compute; reflexivity|]. apply N.leb_le. vm_compute. reflexivity.
Defined.

(** ** Batches of intents *)

Definition intent_for (a : PinAction) (c : Cid) (reason : string) : PublicationIntentRecord :=
  mkIntent "i" (namespace_id genesis) 1 "r1" c a reason "pending" 0.

Definition keep_root : PublicationIntentRecord := intent_for Protect sample_root "root".
Definition drop_root : PublicationIntentRecord := intent_for Release sample_root "root".
Definition keep_value : PublicationIntentRecord := intent_for Protect (value_cid 1) "value".

(** The root is pinned. *)
Definition pinned : PinTables := (agent_apply_pin_intents sample_identity [keep_root] 10 no_pins).2.
Definition released_batch := agent_apply_pin_intents sample_identity [drop_root; keep_root] 20 pinned.

Definition root_pin : PinRecord := default (mkPin "" sample_root "" 0 0 None "" "") (pins pinned !! intent_name sample_identity keep_root).

Lemma release_wins_witness : is_deleted (pins released_batch.2) (intent_name sample_identity keep_root).
Proof.
  apply (release_wins sample_identity pinned 20 [drop_root; keep_root] released_batch.2 drop_root _ root_pin).
  - assert (is_Ok released_batch.1 = true) as Hok by (vm_compute; reflexivity). fold released_batch.
    revert Hok. generalize released_batch. by intros [[[]|e] t].
  - by left.
  - reflexivity.
  - apply namedb_ok. vm_compute. reflexivity.
  - vm_compute. reflexivity.
  - apply (bool_decide_unpack (has_prefix (intent_prefix drop_root +:+ "-") (intent_name sample_identity keep_root))). vm_compute. exact I.
  - vm_compute. reflexivity.
Defined.

#[local] Instance pin_eq_dec : EqDecision PinRecord.
Proof. solve_decision. Defined.

Lemma pinned_is : pins pinned = {[intent_name sample_identity keep_root := root_pin]}.
Proof. apply (bool_decide_unpack (pins pinned = {[intent_name sample_identity keep_root := root_pin]})). vm_compute. exact I. Qed.

Lemma pinned_names : own_names sample_identity (pins pinned).
Proof.
  rewrite pinned_is. intros k p ns cid reason [<- <-]%lookup_singleton_Some _ Hp.
  assert (pin_expires_at root_pin = None) as -> by (vm_compute; reflexivity). unfold intent_name in Hp |- *.
  assert (pin_prefix ns cid reason = intent_prefix keep_root) as -> by
    (eapply same_prefix; [unfold intent_prefix; by rewrite !pin_prefix_slen|exact Hp|apply (name_has_prefix sample_identity)]).
  reflexivity.
Qed.

Lemma pinned_protectable i : i ∈ [drop_root; keep_value] → protectable sample_identity (pins pinned) i.
Proof.
  intros Hi. assert (i = drop_root ∨ i = keep_value) as [Heq|Heq] by set_solver; subst i; intros Ha p Hp.
  - assert (intent_action drop_root = Release) as Hr by reflexivity. congruence.
  - assert (pins pinned !! intent_name sample_identity keep_value = None) as Hn by (vm_compute; reflexivity). congruence.
Qed.

Lemma pins_serialize (p : PinRecord) : ∃ b, to_vec p = Ok b.
Proof. by eexists. Qed.

Lemma batch_is_sequential_witness :
  ∃ t1 t2, agent_apply_pin_intents sample_identity [drop_root; keep_value] 20 pinned = (Ok (), t1) ∧
    default_apply_pin_intents (agent_protect sample_identity) (agent_release sample_identity) [drop_root; keep_value] 20 pinned = (Ok (), t2) ∧
    pins t1 = pins t2.
Proof.
  destruct (batch_is_sequential sample_identity pins_serialize pinned 20 [drop_root; keep_value]) as (t1 & t2 & Ha & Hb & Heq & _).
  - apply namedb_ok. vm_compute. reflexivity.
  - exact pinned_names.
  - apply nodupb_ok. vm_compute. reflexivity.
  - exact pinned_protectable.
  - exists t1, t2. split; [exact Ha|]. split; [exact Hb|exact Heq].
Defined.
