(* ===== verification/SqlitePublishExamples.v ===== *)
(** * Publishing at work

    The page table as a dataset index, proofs of durability and the coordination of
    writers, on concrete tables, receipts and operations. *)
From stdpp Require Import base gmap sets list strings sorting.
From Stdlib Require Import Strings.Byte.
From S2P Require Import Prelude Types Merkle Reference SqlitePages SqlitePagesFacts SqlitePageTable SqliteBulk SqliteExamples.
From S2P Require Import DagHandlers Dataset DatasetFacts SqliteAdapter SqliteProof SqliteWriter SqliteWriterFacts.

#[local] Existing Instances ref_blake3 ref_hex ref_hex_laws ref_store ref_store_laws SqliteExamples.node_json SqliteExamples.node_json_laws.

(** ** The index adapter *)

Lemma adapter_frontier_enough_witness :
  ∃ r s', SqliteIndexAdapter_apply 4096 limits (new_root built.1) changes built.2 = (r, s') ∧ kept built.2 s'.
Proof.
  assert (is_Ok (normalize limits 4096 changes) = true) as Hn by (vm_compute; reflexivity).
  assert (Forall wf_cid (omap put_pack changes)) as Hwf.
  { repeat constructor; vm_compute; discriminate. }
  pose proof (adapter_frontier_enough limits limits_fit built.2 (new_root built.1) (pages_map two_leaves) 4096 changes
                sample_table Hwf ltac:(vm_compute; discriminate)) as Happ.
  destruct (normalize limits 4096 changes) as [norm|e]; [|discriminate Hn].
  destruct Happ as (r & s' & Hrun & Hk & _). exists r, s'. exact (conj Hrun Hk).
Defined.

(** ** Proofs of durability *)

#[local] Instance Snapshot_ser : Ser SnapshotDescriptor.
Proof.
  refine (inj_ser (λ d, (snapshot_type d, snapshot_version d, database_cid d, page_table_root_cid d, snapshot_page_size d,
                         snapshot_page_count d, logical_size d, base_snapshot_cid d))
            (λ '(t, v, c, r, s, n, l, b), mkSnapshotDescriptor t v c r s n l b) _).
  by intros [].
Defined.
#[local] Instance snapshot_json : Json SnapshotDescriptor := ref_json.

Definition snapshot_of (root : Cid) (pages : N) (base : option Cid) : SnapshotDescriptor :=
  mkSnapshotDescriptor SNAPSHOT_TYPE 1 (Cid_new CODEC_SQLITE_DATABASE [x00]) root 4096 pages (pages * 4096) base.
Definition snapshot_id (d : SnapshotDescriptor) : Cid :=
  Cid_new CODEC_SQLITE_SNAPSHOT (match to_vec d with Ok b => b | Err _ => [] end).

Definition durable (cid : Cid) : DurabilityReceipt := mkReceipt cid None (codec cid) 1 3 ["a"; "b"; "c"] "durable".

(** One order in which a set can be walked. *)
Definition walk_order (X : gset Cid) : list Cid := elements X.
Lemma walk_order_perm X : walk_order X ≡ₚ elements X.
Proof. reflexivity. Qed.

(** The evidence for a change of the base's root to another. *)
Definition evidence (base : SnapshotDescriptor) (root : Cid) (pages : N) (nodes packs : list Cid) (changed : N) : IncrementalProofInput :=
  let next := snapshot_of root pages (Some (snapshot_id base)) in
  mkProofInput (snapshot_id base) 4 base (snapshot_id next) next nodes packs [] changed
    (durable <$> snapshot_id next :: nodes ++ packs) "node:a".

Definition base_snapshot : SnapshotDescriptor := snapshot_of (new_root built.1) 300 None.

(** From the empty table to one of three pages. *)
Definition grown_evidence : IncrementalProofInput :=
  evidence (snapshot_of empty.1 0 None) (new_root applied.1) 300 (written_nodes applied.1) [pack] 3.

Definition or_default {A} (r : result SqliteError A) (d : A) : A := match r with Ok a => a | Err _ => d end.
Lemma or_default_ok {A} (r : result SqliteError A) d : is_Ok r = true → r = Ok (or_default r d).
Proof. by destruct r. Qed.

Definition grown_proof : IncrementalDurabilityProof :=
  or_default (proof_build walk_order grown_evidence 3 limits) (mkProof pack pack [] [] [] [] "").

Lemma grown_ok : proof_build walk_order grown_evidence 3 limits = Ok grown_proof.
Proof. apply or_default_ok. vm_compute. reflexivity. Qed.

Lemma proof_exact_witness :
  proof_build walk_order grown_evidence 3 limits = Ok grown_proof
  ∧ NoDup (proven_snapshot grown_proof :: frontier_cids (artifact_frontier (proof_artifact grown_evidence))).
Proof.
  split; [exact grown_ok|].
  exact (proj1 (proof_exact walk_order walk_order_perm grown_evidence 3 limits grown_proof grown_ok)).
Defined.

(** Truncating the table of 300 pages to two, without a dirty page. *)
Definition truncated : PageTableUpdate * gmap Cid bytes := run (truncate limits (new_root built.1) 4096 300 2) no_update built.2.
Definition truncated_evidence : IncrementalProofInput :=
  evidence base_snapshot (new_root truncated.1) 2 (written_nodes truncated.1) [] 0.

Lemma truncation_unprovable_witness :
  runs_ok (truncate limits (new_root built.1) 4096 300 2) built.2 = true
  ∧ is_Ok (proof_build walk_order truncated_evidence 3 limits) = false.
Proof.
  split; [vm_compute; reflexivity|].
  apply (truncation_unprovable walk_order walk_order_perm truncated_evidence 3 limits); vm_compute; reflexivity.
Defined.

(** With a count that is not zero the very same evidence is accepted. *)
Example truncation_counted :
  is_Ok (proof_build walk_order (evidence base_snapshot (new_root truncated.1) 2 (written_nodes truncated.1) [] 1) 3 limits) = true.
Proof. vm_compute. reflexivity. Qed.

(** ** Writers *)

Definition head_of (n : byte) : Cid := Cid_new CODEC_SQLITE_SNAPSHOT [n].

Definition start : WriterCoordinator :=
  match coordinator_new "db" (head_of x01) 7 11 100 4 with
  | Ok c => c
  | Err _ => mkCoordinator "" (head_of x01) 0 0 0 0 0 None [] ∅ [] ∅ []
  end.
Lemma start_ok : coordinator_new "db" (head_of x01) 7 11 100 4 = Ok start.
Proof. reflexivity. Qed.

Definition first_ticket : WriterTicket := mkTicket "db:11:1" "a" "db" "one" (head_of x01) 7 11 1 100.
Definition commit_a : CommitAttempt := mkAttempt "commit-a" first_ticket (head_of x01) 7 (head_of x02).

Definition opening : list WriterOp := [OpAcquire "a" "one" (head_of x01) 7 0 0; OpAcquire "b" "two" (head_of x01) 7 1 50].
Definition closing : list WriterOp :=
  [OpCommit commit_a 3; OpAcquire "c" "three" (head_of x02) 8 4 0; OpChangeTerm 12 5; OpAcquire "d" "one" (head_of x02) 8 6 0].

Lemma writer_books_in_order_witness :
  size (acquisitions (writer_run (opening ++ OpCommit commit_a 2 :: closing) start).2) ≤ 1024.
Proof.
  destruct (writer_books_in_order "db" (head_of x01) 7 11 100 4 start (opening ++ OpCommit commit_a 2 :: closing) start_ok)
    as (_ & Hs & _). exact Hs.
Defined.

Definition after_commit : WriterCoordinator := (guarded_commit commit_a 2 (writer_run opening start).2).2.
Definition record_a : CommitRecord := mkCommitRecord "commit-a" (head_of x01) 7 (head_of x02) 8 11.

Lemma commit_a_ok : guarded_commit commit_a 2 (writer_run opening start).2 = (Ok record_a, after_commit).
Proof.
  assert ((guarded_commit commit_a 2 (writer_run opening start).2).1 = Ok record_a) as H by (vm_compute; reflexivity).
  unfold after_commit. rewrite <-H. by destruct (guarded_commit _ _ _).
Qed.

Lemma used_ticket_fenced_witness :
  (validate_ticket first_ticket 7 (writer_run closing after_commit).2).1 = Err Fenced.
Proof.
  apply (used_ticket_fenced "db" (head_of x01) 7 11 100 4 start opening closing first_ticket 2 7 after_commit start_ok).
  left. exists commit_a, record_a. split; [reflexivity|]. split; [vm_compute; reflexivity|exact commit_a_ok].
Defined.

Lemma commits_linearizable_witness :
  RepCommitted (Ok record_a) ∈ (writer_run (opening ++ OpCommit commit_a 2 :: closing) start).1
  ∧ ∃ H, H !! 0 = Some (head_of x01, 7%N) ∧ ∃ i, step_at H i record_a.
Proof.
  assert ((writer_run (opening ++ OpCommit commit_a 2 :: closing) start).1 !! 2 = Some (RepCommitted (Ok record_a))) as Hin
    by (vm_compute; reflexivity).
  apply list_elem_of_lookup_2 in Hin. split; [exact Hin|].
  pose proof (commits_linearizable "db" (head_of x01) 7 11 100 4 start (opening ++ OpCommit commit_a 2 :: closing) start_ok) as Hlin.
  destruct (writer_run (opening ++ OpCommit commit_a 2 :: closing) start) as [replies c'].
  destruct Hlin as (H & H0 & _ & _ & Hr & _). exists H. split; [exact H0|exact (Hr record_a Hin)].
Defined.
